(* ===== verification/_CoqProject ===== *)
-Q . S2P
Prelude.v
RustStr.v
FifoMemory.v
ResponseLedger.v
WatchTerminal.v
WatchTerminalFacts.v
WatchGrowth.v
WatchTheorems.v
PlaybackQuiescence.v
WatchDrain.v
WatchDrainTheorems.v
TaskLifecycle.v
TranslatedPcm.v
TranslatedPcmFacts.v
TranslatedPcmTheorems.v
ProviderInputBudget.v
ProviderInputBudgetTheorems.v
TranslationScheduler.v
TranslationSchedulerFacts.v
TranslationSchedulerTheorems.v
SubtitleCues.v
SubtitleCuesFacts.v
SubtitleCuesTheorems.v
SpeechRoute.v
SpeechRouteTheorems.v
SpeechQueue.v
SpeechQueueFacts.v
SpeechQueueTheorems.v
BridgeProtocol.v
BridgeCues.v
BridgeFrames.v
BridgeControl.v
BridgeCuesTheorems.v
BridgeFramesTheorems.v
BridgePlayback.v
BridgeSystem.v
BridgeTheorems.v
PlaybackOwnership.v
PlaybackOwnershipTheorems.v
RenderSubmit.v
RenderSubmitFacts.v
RenderSubmitTheorems.v
PlaybackQuiescenceTheorems.v
SubtitleDelta.v
SubtitleDeltaTheorems.v
BridgeDelivery.v
BridgeDeliveryTheorems.v
DesktopTimeline.v
DesktopTimelineTheorems.v
OmniPlaybackQueue.v
OmniAudioOut.v
OmniAudioOutTheorems.v
OmniSystem.v
OmniSystemTheorems.v
OmniSessions.v
OmniSessionsTheorems.v
SpeakerPcm.v
SpeakerPcmTheorems.v
AecLiveScenario.v
AecLiveScenarioTheorems.v
Mmcss.v
MmcssTheorems.v
NativeStream.v
NativeStreamFacts.v
NativeStreamStart.v
NativeStreamTheorems.v
