(* ===== verification/Prelude.v ===== *)
(** * Verified models of the Omni Translate realtime core

    Omni Translate captures the audio of a meeting or a film, sends it to a
    paid realtime provider over a WebSocket, shows the translated subtitles in
    an overlay, plays the translated speech on a physical speaker and feeds
    what it played to an echo canceller. This library models the Rust code that
    decides: the ledgers, stores and state machines behind mutexes, with every
    error path. Paths below are relative to [apps/desktop/src-tauri/src/], those
    of the native Bridge to [apps/bridge-service-native/src/].

    ** Parts, and the files that model them

    - Shared: [Prelude] (this file: struct update, the state and error monad
      with a Hoare triple for it, lists, runs of a step function), [RustStr]
      (the [str] operations the code calls, on UTF-8 bytes) and [FifoMemory]
      (a set that remembers the last [n] keys of a history).
    - Provider side of a session. [ResponseLedger] ([audio/omni/response_ledger.rs])
      finds the cue a provider event belongs to. [TaskLifecycle]
      ([audio/bailian_tasks/lifecycle.rs], [mod.rs]) is one ASR or TTS task over
      one connection. [ProviderInputBudget] ([audio/omni/provider_input_budget.rs]
      with [environment.rs] and [strict_media_end_authority.rs]) charges the
      paid-input lease before each send and journals it. [TranslationScheduler]
      ([audio/translation_scheduler.rs]) queues, supersedes, expires and
      dispatches cue translations.
    - Evidence. [WatchTerminal] ([audio/state/watch_terminal_lifecycle.rs] with
      [input_ownership.rs] and [store_api.rs]) is the ledger that decides whether
      a strict Watch run ended in a provable order. [WatchDrain]
      ([watch_mode_diagnostic/] drain policies, provider observer, terminal
      authority and the polling of [mod.rs]) decides when that ledger and the
      playback counters are quiet, and orders the terminal events. [TranslatedPcm]
      ([audio/omni/translated_pcm_authority.rs], the frame check of
      [bridge/ipc/audio_writer.rs]) seals the PCM of each translated cue.
    - Subtitles. [SubtitleCues] ([audio/state.rs] and the [audio/state/] files its
      own header names) is the overlay's cue window; [SubtitleDelta]
      ([audio/state/subtitle_delta.rs] and the index functions of the renderer's
      [apps/desktop/src/stores/app-store.ts]) publishes its changes.
    - Physical playback. [PlaybackOwnership] ([audio/playback_ownership.rs]) lets
      one client submit PCM and drains it for process exclusion;
      [PlaybackQuiescence] ([audio/state/playback_quiescence.rs]) is the restart
      barrier and the pending-audio counter; [RenderSubmit]
      ([audio/speech/render_submit_tracker.rs], [output/support.rs],
      [render_wasapi_frames] of [output.rs]) writes one cue to the endpoint.
    - Translated speech. [SpeechQueue] ([audio/speech/dispatch.rs], the tasks of
      [planner.rs]) decides which clauses are spoken and runs the dispatch
      worker; [SpeechRoute] ([audio/speech/output.rs], [bridge_route_recovery.rs],
      [playback_engine.rs], status updates of [bridge/]) gives each of them to the
      one output that owns translated audio.
    - The native Bridge, the process at the other end of the pipe.
      [BridgeProtocol] ([crates/omni-bridge-protocol/src/lib.rs]) holds the wire
      types and the frame check; [BridgeCues] ([windows/translation.rs],
      [windows/mod.rs]) its four ledgers: streams, microphone chunks, the queue of
      complete cues, the status outbox; [BridgeFrames] ([windows/audio_client.rs],
      [windows/mod.rs]) the handlers of a translated frame and the stop of all
      playback; [BridgeControl] ([windows/control.rs], [windows/control/shutdown.rs])
      its commands; [BridgePlayback] ([windows/playback.rs]) the playback worker;
      [BridgeSystem] the interleavings of handlers, microphone writes and worker.
    - Natively translated speech. [OmniSessions] ([audio/state/omni_sessions.rs],
      [audio/events/realtime_session.rs], the end of a worker in
      [omni/session_worker/start.rs]) registers, reuses, parks and retires the
      sessions of all four providers; [OmniAudioOut] ([omni/event_processor.rs] and
      [playback_admission.rs]) turns the audio of a response into commands;
      [OmniPlaybackQueue] ([omni/protocol.rs], [OmniPlaybackQueue]) queues them and
      publishes its state; [DesktopTimeline]
      ([omni/protocol/desktop_timeline_evidence.rs]) is the evidence it writes;
      [OmniSystem] interleaves one session's queue with its producer, its worker,
      its shutdown and the other users of the quiescence, other sessions'
      publications to it included.
    - One response on the desktop's speaker. [SpeakerPcm]
      ([normalize_to_target_stereo] of [audio/echo_cancel.rs], [audio/speech/output.rs],
      [StreamPcmQueue] of [output/native_streaming.rs]) converts PCM16 to 48 kHz
      stereo, whole or chunk by chunk; [AecLiveScenario]
      ([audio/speech/aec_live_scenario.rs]) plans a diagnostic cue in three phases;
      [Mmcss] ([audio/mmcss_audio.rs]) holds the thread's scheduling lease;
      [NativeStream] ([NativeDesktopStream] of [output/native_streaming.rs], with
      [output/support.rs]) plays a response as it arrives, on one WASAPI client.
    - Both processes. [BridgeDelivery] ([windows/playback.rs] of the Bridge;
      [audio/state/bridge_translation_receipts.rs], [audio/engine/bridge_source_io.rs]
      and [bridge_playback_ack.rs] of the desktop) carries the Bridge's statuses over
      source-pipe connections that may break, to the desktop's ledgers.

    ** How the parts interact

    A provider event is resolved by the response ledger, updates cues in the
    store ([SubtitleDelta] publishes [SubtitleCues]'s data), and is recorded in
    the Watch ledger, which [WatchDrain] polls together with
    [PlaybackQuiescence]'s snapshot before it approves a terminal state. The
    renderer loop checks the ownership ledger before every write:
    [RenderSubmit] calls [PlaybackOwnership]'s permit operations as they are.
    [SpeechQueue] reads [SubtitleCues]'s cues and plays each task through
    [SpeechRoute.play].
    [TaskLifecycle], [TranslatedPcm], [ProviderInputBudget], [RenderSubmit],
    [SpeechRoute], [SpeechQueue] and the Bridge's handlers and worker are runs of the
    monad of this file over their own state. [SpeechRoute] and the Bridge meet in the
    mode and status types of [SpeechRoute]; the audio pipe between them is not modelled.
    [BridgeDelivery] reads [BridgeCues]'s outbox and runs the operations of
    [PlaybackQuiescence] (guards included), [WatchTerminal] and [TranslatedPcm]'s owner.
    [OmniPlaybackQueue] runs the operations of [PlaybackQuiescence], [WatchTerminal] and
    [DesktopTimeline] on one state; [OmniAudioOut]'s handlers are runs over the list of
    calls they make to it. [OmniSessions] is programs of lock sections among workers.
    [NativeStream] runs [PlaybackOwnership]'s permit operations, [Mmcss]'s lease and
    [AecLiveScenario]'s reservation on one state, and takes its samples from
    [SpeakerPcm]'s queue.

    ** What the theorems show

    - [WatchTheorems]: a published snapshot is causally ordered; exactly when
      one is published; what makes it impossible for good; the freeze after
      [session.finish]; the seal after approved quiescence; the mutex-protected
      adapters refine the transition system. [WatchTerminalFacts] and
      [WatchGrowth] hold the step invariants and the growth order they use.
    - [WatchDrainTheorems]: an approved drain follows two quiet seconds of the
      ledger it polled; the terminal authority is the recorded events, ordered
      and renumbered, inside the producer's window.
    - [TranslationSchedulerTheorems]: bounds and uniqueness of the work; no
      final translation disappears without an outcome; what [enqueue] decides;
      dispatch fills the free slots.
    - [TaskLifecycle]: the task refines an abstract protocol automaton; ASR
      sentence numbering; poisoning; ownership of output; PCM16 round trip.
    - [ResponseLedger]: the lineage invariant, exactness and stability of
      binding, pruning against its reference.
    - [ProviderInputBudgetTheorems]: sent <= charged <= lease; charge before
      send; journal closed once; a strict environment carries exactly the lease
      of its signed release cell.
    - [TranslatedPcmTheorems]: sealed cues are consistent and permanent; a
      chunked stream seals what the complete cue would.
    - [SubtitleCuesTheorems], [SubtitleDeltaTheorems]: window invariant, frozen
      final translations, when an update is accepted, trimming against its
      reference, and that a renderer following the deltas holds the store's
      window. Two situations in which it does not are proved too
      ([reentering_cue_is_shown_first], [unannounced_cue_is_never_removed]).
    - [PlaybackOwnershipTheorems], [PlaybackQuiescenceTheorems],
      [RenderSubmitTheorems]: no PCM after the barrier in any interleaving,
      permanence of cancellation, exclusivity of the restart barrier, exact
      pending audio, in-order rendering for any environment and completion
      with a cooperating one.

    - [SpeechRouteTheorems]: exactly which outputs pass the boundary and that
      [play] writes to no other, the end of the restart wait, a failed Bridge lets
      nothing through. [SpeechQueueTheorems]: one outcome per task, spaced keys,
      only final text is offered, and what the bounded memory of the worker keeps from
      being offered again, admission, and the one case in which the worker blocks for
      ever; two runs show that case and a lost clause.
    - [BridgeCuesTheorems]: each ledger against what it promises, for any sequence
      of operations. [BridgeFramesTheorems]: what a handler may change.
      [BridgeTheorems]: in every interleaving one owner of the speaker and no more
      terminal statuses than bound frames; stop, shutdown and re-initialisation;
      and three runs the code does not intend (a cue that overtakes, a second
      terminal status, streams forgotten at shutdown). [BridgeDeliveryTheorems]: no
      status leaves the outbox before the desktop settled it, the effect of one status
      on every branch, restarts wait for statuses, and the effect of a status that is lost
      when its acknowledgement is not written.
    - [SpeakerPcmTheorems]: the streaming queue converts as the whole cue does, for any
      chunks. [AecLiveScenarioTheorems]: the phases of a program cover the cue once.
      [MmcssTheorems]: a lease is given back once, and its receipt is true.
      [NativeStreamTheorems]: a response is written, tapped and given to the echo
      canceller in order, once, by any environment and sequence of calls
      ([NativeStreamFacts] holds the invariant; [NativeStreamStart]: the echo canceller
      is given nothing unless the client accepted a start).
    - [OmniSystemTheorems]: accepted speech is taken in order or revoked for a reason,
      the restart barrier excludes it unless another session's publication hid it, a
      draining queue is emptied; two runs show what another session or an abort hides
      from the barrier. [OmniAudioOutTheorems]: the
      commands of a response carry exactly its audio; two runs show a fragment played
      and a stream left open. [DesktopTimelineTheorems]: what a complete terminal
      document proves. [OmniSessionsTheorems]: a Hoare logic for programs of sections,
      by which at most one worker owns a route and an Omni route's reuse respects the
      key; the orphan that blocks a route, with the run that leads to it; and the Omni
      worker that the route of another provider is given.

    ** Time, failure, integers, fuel

    Clocks and I/O are oracles indexed by the number of readings or operations
    made so far, or arguments of a step; every theorem holds for all of them.
    Mutex poisoning is modelled where the code's behaviour depends on it.
    Machine integers are [Z] with the wrap, saturation or check the code
    writes. [f32] samples are abstract where no arithmetic is done on them, and
    binary32 numbers with their rounding (the Standard Library's [SpecFloat], 24 bits of
    precision) in [SpeakerPcm] and its clients; there a frame number is exact up to
    [2 ^ 23], hence the bound on the samples of a response. Hash-map iteration order is a
    parameter. Concurrent components are step relations or step lists over
    atomic sections (one per lock acquisition). Nine loops need fuel: the
    dispatch loop of the scheduler runs with the queue's length, proved enough
    by [dispatch_fills_the_slots]; the trimming loop of the cue window runs with
    the list's length, proved enough by [trim_keeps_the_newest_unfinished]; the
    render loop ends within [frames * (poll_bound + 2) + poll_bound + 1] passes
    by [rendering_completes]; the wait for a restarting Bridge runs 81 turns,
    enough by [wait_for_restart_ends]; the speech pass runs one turn more than it
    has tasks, enough by [pass_waits_for_ever_exactly_when]; the status write loop
    makes one exchange for each pending status, enough by [write_pending_ends]; a
    status handler has ten sections, enough by [handled_status_effects]; the batching
    loop runs with the length of the buffer, enough by [stream_batches_keeps], as each
    turn removes a sample; the wait for readiness makes one turn per 50 ms of its
    timeout, a number the theorems leave open.

    ** Not modelled

    JSON decoding, SHA-256, UUID and URL parsing are parameters. Sockets,
    WASAPI and driver I/O, the React front end (apart from its cue index), SQL
    storage, the C++ drivers, the benchmark and release tools and the WebRTC
    echo canceller are outside: they are transport, foreign code or tooling
    around the ledgers. Of the code that drives the ledgers, the socket loops of
    the session and task workers, the audio engine, the receive loop of the
    desktop stream thread, the provider adapters (JSON and HTTP) and the text
    heuristics (sentence splitting, glossary) are not modelled: their decisions
    are those of the modelled ledgers, or text and signal processing whose
    faithful model would be mostly tables. The manifest lists each of them. *)
From stdpp Require Export prelude strings gmap pretty sorting.
From Stdlib Require Export ZArith Lia.

#[global] Open Scope Z_scope.

(** ** Functional record update

    [r <| f := v |>] is the struct update the Rust code writes as [r.f = v].
    A record declares one [Settable] instance listing its fields; the setter
    of each field is derived from that eta expansion. *)
Class Settable (R : Type) := eta_of : R → R.
Class Setter {R E : Type} (getter : R → E) := set_with : (E → E) → R → R.
Arguments set_with {_ _} _ {_} _ _ /.

Ltac solve_setter R E getter :=
  exact (fun (upd_ : E -> E) (rec_ : R) => ltac:(
    let b := eval hnf in (@eta_of R _ rec_) in
    lazymatch b with
    | context C [getter rec_] =>
        let b' := context C [upd_ (getter rec_)] in
        let b'' := eval cbv beta in b' in exact b''
    end)).
#[export] Hint Extern 1 (@Setter ?R ?E ?getter) =>
  solve_setter R E getter : typeclass_instances.

Declare Scope rust_scope.
Delimit Scope rust_scope with rust.
Notation "r <| f ::= u |>" := (set_with f u r)
  (at level 1, left associativity, f constr at level 8, u at level 99) : rust_scope.
Notation "r <| f := v |>" := (set_with f (fun _ => v) r)
  (at level 1, left associativity, f constr at level 8, v at level 99) : rust_scope.
#[global] Open Scope rust_scope.

(** ** Outcomes of fallible code

    [Err (Fail msg)] is [Err(String)]; [Err (Panic msg)] is a panic, which
    unwinds through every [?] exactly like an error but is never a value the
    program can inspect. *)
Inductive abort := Fail (msg : string) | Panic (msg : string).
Inductive outcome (A : Type) := Ok (a : A) | Err (e : abort).
Arguments Ok {A} _.
Arguments Err {A} _.

#[export] Instance abort_eq_dec : EqDecision abort.
Proof. solve_decision. Defined.
#[export] Instance outcome_eq_dec {A} `{EqDecision A} : EqDecision (outcome A).
Proof. solve_decision. Defined.

Definition is_ok {A} (o : outcome A) : bool :=
  match o with Ok _ => true | Err _ => false end.

Definition is_panic {A} (o : outcome A) : bool :=
  match o with Err (Panic _) => true | _ => false end.

(** [?] on a pure [Result]. *)
Definition obind {A B} (o : outcome A) (k : A → outcome B) : outcome B :=
  match o with Ok a => k a | Err e => Err e end.
Notation "'let?' x ':=' o 'in' k" := (obind o (fun x => k))
  (at level 10, x name, o at level 100, k at level 200) : rust_scope.

(** [Option::ok_or_else]. *)
Definition ok_or {A} (o : option A) (msg : string) : outcome A :=
  match o with Some a => Ok a | None => Err (Fail msg) end.

Definition is_Some_b {A} (o : option A) : bool :=
  match o with Some _ => true | None => false end.
Lemma is_Some_b_true {A} (o : option A) : is_Some_b o = true ↔ ∃ a, o = Some a.
Proof. destruct o; naive_solver. Qed.
Lemma is_Some_b_false {A} (o : option A) : is_Some_b o = false ↔ o = None.
Proof. by destruct o. Qed.

(** ** A state and error monad with [&mut self] semantics

    A method [fn op(&mut self) -> Result<A, String>] keeps every mutation it
    made before it returned an error, so the state is returned in both cases. *)
Definition M (S A : Type) : Type := S → outcome A * S.

Section Monad.
Context {S : Type}.
Definition ret {A} (a : A) : M S A := λ s, (Ok a, s).
Definition throw {A} (e : abort) : M S A := λ s, (Err e, s).
Definition fail {A} (msg : string) : M S A := throw (Fail msg).
Definition panic {A} (msg : string) : M S A := throw (Panic msg).
Definition bind {A B} (m : M S A) (k : A → M S B) : M S B := λ s,
  match m s with
  | (Ok a, s') => k a s'
  | (Err e, s') => (Err e, s')
  end.
Definition gets {A} (f : S → A) : M S A := λ s, (Ok (f s), s).
Definition modify (f : S → S) : M S unit := λ s, (Ok tt, f s).
(** [if guard { return Err(msg) }]. *)
Definition fail_if (b : bool) (msg : string) : M S unit :=
  if b then fail msg else ret tt.
(** Runs code on the part of the state a lens-like pair selects. *)
Definition lift {A} (o : outcome A) : M S A := λ s, (o, s).
Definition when (b : bool) (m : M S unit) : M S unit := if b then m else ret tt.
End Monad.

Notation "'let*' x ':=' m 'in' k" := (bind m (fun x => k))
  (at level 10, x name, m at level 100, k at level 200) : rust_scope.
Notation "m ;;; k" := (bind m (fun _ => k))
  (at level 100, k at level 200, right associativity) : rust_scope.

(** A run of [bind] whose first part is known. *)
Section Running.
Context {S A B : Type} (m : M S A) (k : A → M S B).
Lemma bind_run a s s' : m s = (Ok a, s') → bind m k s = k a s'.
Proof. intros H. unfold bind. by rewrite H. Qed.
Lemma bind_stop e s s' : m s = (Err e, s') → bind m k s = (Err e, s').
Proof. intros H. unfold bind. by rewrite H. Qed.
Lemma bind_gets (f : S → A) s : bind (gets f) k s = k (f s) s.
Proof. reflexivity. Qed.
Lemma bind_ret (a : A) s : bind (ret a) k s = k a s.
Proof. reflexivity. Qed.
End Running.
Lemma bind_modify {S B} (f : S → S) (k : () → M S B) s : bind (modify f) k s = k tt (f s).
Proof. reflexivity. Qed.

(** [zoom f m] runs [m] on the field [f] of a larger state: a call on a part. *)
Definition zoom {S T A} (f : S → T) `{!Setter f} (m : M T A) : M S A := λ s,
  let '(o, t) := m (f s) in (o, s <| f := t |>).

(** [evolves R m]: running [m] relates the state before to the state after,
    whether it returned a value or an error. *)
Definition evolves {S A} (R : S → S → Prop) (m : M S A) : Prop :=
  ∀ s, R s (m s).2.

Section Evolves.
Context {S : Type} (R : S → S → Prop) `{!PreOrder R}.

Lemma evolves_ret {A} (a : A) : evolves R (ret a).
Proof. intros s; simpl; reflexivity. Qed.
Lemma evolves_throw {A} e : evolves R (throw (A:=A) e).
Proof. intros s; simpl; reflexivity. Qed.
Lemma evolves_fail {A} msg : evolves R (fail (A:=A) msg).
Proof. apply evolves_throw. Qed.
Lemma evolves_panic {A} msg : evolves R (panic (A:=A) msg).
Proof. apply evolves_throw. Qed.
Lemma evolves_gets {A} (f : S → A) : evolves R (gets f).
Proof. intros s; simpl; reflexivity. Qed.
Lemma evolves_lift {A} (o : outcome A) : evolves R (lift o).
Proof. intros s; simpl; reflexivity. Qed.
Lemma evolves_bind {A B} (m : M S A) (k : A → M S B) :
  evolves R m → (∀ a, evolves R (k a)) → evolves R (bind m k).
Proof.
  intros Hm Hk s. unfold bind. specialize (Hm s).
  destruct (m s) as [[a|e] s'] eqn:E; simpl in *; [|done].
  etransitivity; [exact Hm|apply Hk].
Qed.
Lemma evolves_modify f : (∀ s, R s (f s)) → evolves R (modify f).
Proof. intros Hf s; apply Hf. Qed.
Lemma evolves_fail_if b msg : evolves R (fail_if b msg).
Proof. destruct b; [apply evolves_fail|apply evolves_ret]. Qed.
Lemma evolves_when b m : evolves R m → evolves R (when b m).
Proof. destruct b; [done|intros _; apply evolves_ret]. Qed.
Lemma evolves_if {A} (b : bool) (m n : M S A) :
  evolves R m → evolves R n → evolves R (if b then m else n).
Proof. by destruct b. Qed.
End Evolves.

Create HintDb evolve.
#[export] Hint Resolve evolves_ret evolves_throw evolves_fail evolves_panic
  evolves_gets evolves_lift evolves_fail_if : evolve.
#[export] Hint Extern 1 (PreOrder _) => typeclasses eauto : evolve.

(** An invariant is the preorder "if it held before, it holds after". *)
Definition preserved {S} (I : S → Prop) (s s' : S) : Prop := I s → I s'.
#[export] Instance preserved_preorder {S} (I : S → Prop) : PreOrder (preserved I).
Proof. split; unfold preserved; [by intros s|intros x y z; auto]. Qed.

(** Walks a monadic definition; the leaves left are its state updates. *)
Ltac evolve :=
  repeat first
    [ progress (auto with evolve)
    | apply evolves_bind; [typeclasses eauto| |intros ?]
    | apply evolves_when
    | apply evolves_if
    | match goal with
      | |- evolves _ (match ?x with _ => _ end) => destruct x eqn:?
      | |- evolves _ (let _ := _ in _) => cbv zeta
      end ].

(** The same for the runs that do not panic: a panic poisons the lock that
    guards the state, so no later code sees what it left behind. *)
Definition unless_panic {S A} (R : S → S → Prop) (m : M S A) : Prop :=
  ∀ s, is_panic (m s).1 = false → R s (m s).2.

Lemma unless_panic_evolves {S A} (R : S → S → Prop) (m : M S A) :
  evolves R m → unless_panic R m.
Proof. intros H s _. apply H. Qed.
Lemma unless_panic_bind {S A B} (R : S → S → Prop) `{!PreOrder R}
    (m : M S A) (k : A → M S B) :
  unless_panic R m → (∀ a, unless_panic R (k a)) → unless_panic R (bind m k).
Proof.
  intros Hm Hk s. unfold bind. specialize (Hm s).
  destruct (m s) as [[a|e] s'] eqn:E; simpl in *; [|done].
  intros Hp. etransitivity; [by apply Hm|by apply Hk].
Qed.

(** [triple P m Q E]: from a state where [P] holds, [m] returns with [Q] or stops
    with an error (or a panic) in a state where [E] holds. *)
Definition triple {S A} (P : S → Prop) (m : M S A) (Q : A → S → Prop) (E : S → Prop) : Prop :=
  ∀ s, P s → match m s with (Ok a, s') => Q a s' | (Err _, s') => E s' end.

Section Triple.
Context {S : Type} (E : S → Prop).
Lemma triple_ret {A} (P : S → Prop) (a : A) (Q : A → S → Prop) :
  (∀ s, P s → Q a s) → triple P (ret a) Q E.
Proof. intros H s Hs. by apply H. Qed.
Lemma triple_fail {A} (P : S → Prop) msg (Q : A → S → Prop) :
  (∀ s, P s → E s) → triple P (fail msg) Q E.
Proof. intros H s Hs. by apply H. Qed.
Lemma triple_bind {A B} (P : S → Prop) (m : M S A) (k : A → M S B) Q' Q :
  triple P m Q' E → (∀ a, triple (Q' a) (k a) Q E) → triple P (bind m k) Q E.
Proof.
  intros Hm Hk s Hs. specialize (Hm s Hs). unfold bind.
  destruct (m s) as [[a|e] s']; [by apply Hk|done].
Qed.
Lemma triple_gets {A} (P : S → Prop) (f : S → A) (Q : A → S → Prop) :
  (∀ s, P s → Q (f s) s) → triple P (gets f) Q E.
Proof. intros H s Hs. by apply H. Qed.
Lemma triple_modify (P : S → Prop) f (Q : unit → S → Prop) :
  (∀ s, P s → Q tt (f s)) → triple P (modify f) Q E.
Proof. intros H s Hs. by apply H. Qed.
Lemma triple_fail_if (P : S → Prop) b msg (Q : unit → S → Prop) :
  (∀ s, P s → b = true → E s) → (∀ s, P s → b = false → Q tt s) →
  triple P (fail_if b msg) Q E.
Proof. intros H1 H2 s Hs. destruct b; simpl; auto. Qed.
Lemma triple_evolves {A} (R : S → S → Prop) (P : S → Prop) (m : M S A) :
  evolves R m → (∀ s s', R s s' → P s → P s') → (∀ s, P s → E s) → triple P m (λ _, P) E.
Proof.
  intros Hm HR HE s Hs. specialize (Hm s). destruct (m s) as [[a|e] s']; simpl in *; eauto.
Qed.
Lemma triple_pure {A} (P : S → Prop) (φ : Prop) (m : M S A) (Q : A → S → Prop) :
  (∀ s, P s → φ → triple P m Q E) → triple (λ s, P s ∧ φ) m Q E.
Proof. intros H s [Hs Hφ]. by apply (H s). Qed.
Lemma triple_weaken {A} (P P' : S → Prop) (m : M S A) (Q Q' : A → S → Prop) :
  triple P' m Q' E → (∀ s, P s → P' s) → (∀ a s, Q' a s → Q a s) → triple P m Q E.
Proof. intros H HP HQ s Hs. specialize (H s (HP s Hs)). destruct (m s) as [[a|e] s']; auto. Qed.
End Triple.

(** [always_ok m]: [m] returns a value from every state. *)
Definition always_ok {S A} (m : M S A) : Prop := ∀ s, is_ok (m s).1 = true.
Lemma always_ok_bind {S A B} (m : M S A) (k : A → M S B) :
  always_ok m → (∀ a, always_ok (k a)) → always_ok (bind m k).
Proof.
  intros Hm Hk s. unfold bind. specialize (Hm s). destruct (m s) as [[a|e] s']; [apply Hk|done].
Qed.
Lemma always_ok_run {S} (R : S → S → Prop) (m : M S unit) s :
  always_ok m → evolves R m → ∃ s', m s = (Ok tt, s') ∧ R s s'.
Proof.
  intros Hq Hb. specialize (Hq s). specialize (Hb s).
  destruct (m s) as [[[]|e] s']; [by exists s'|done].
Qed.

(** Reads the guards a run passed as propositions. *)
Ltac bool_hyps :=
  repeat match goal with
    | H : _ || _ = false |- _ => apply orb_false_iff in H as [? ?]
    | H : _ && _ = true |- _ => apply andb_true_iff in H as [? ?]
    | H : negb _ = true |- _ => apply negb_true_iff in H
    | H : negb _ = false |- _ => apply negb_false_iff in H
    | H : bool_decide _ = true |- _ => apply bool_decide_eq_true in H
    | H : bool_decide _ = false |- _ => apply bool_decide_eq_false in H
    | H : (_ =? _) = true |- _ => apply Z.eqb_eq in H
    | H : (_ =? _) = false |- _ => apply Z.eqb_neq in H
    | H : (_ <=? _) = true |- _ => apply Z.leb_le in H
    | H : (_ <=? _) = false |- _ => apply Z.leb_gt in H
    | H : (_ <? _) = true |- _ => apply Z.ltb_lt in H
    | H : (_ <? _) = false |- _ => apply Z.ltb_ge in H
    | H : is_Some_b _ = true |- _ => apply is_Some_b_true in H as [? ?]
    | H : is_Some_b _ = false |- _ => apply is_Some_b_false in H
    end.

(** Splits a run on the scrutinees of its definition, innermost first. *)
Ltac split_run :=
  repeat (match goal with
          | |- context [match ?x with _ => _ end] =>
              lazymatch x with
              | context [match _ with _ => _ end] => fail
              | _ => destruct x eqn:?
              end
          end; cbn [fst snd is_panic]).

(** Symbolic execution of one monadic run in a hypothesis or goal. *)
Ltac unmonad :=
  unfold bind, ret, fail, panic, throw, gets, modify, fail_if, lift, when in *.
Ltac run_cases :=
  repeat (case_match; simplify_eq/=).

(** ** Machine integers

    [u64], [usize] (64-bit targets), [u32], [u16] values are [Z] in range;
    the arithmetic operators below are the ones the code calls. *)
Definition u64_max : Z := 18446744073709551615.
Definition u32_max : Z := 4294967295.
Definition i64_max : Z := 9223372036854775807.

Definition checked_add (a b : Z) : option Z :=
  if a + b <=? u64_max then Some (a + b) else None.
Definition checked_sub (a b : Z) : option Z :=
  if b <=? a then Some (a - b) else None.
Definition saturating_add (a b : Z) : Z := Z.min (a + b) u64_max.
Definition saturating_sub (a b : Z) : Z := Z.max (a - b) 0.
#[global] Arguments checked_add _ _ : simpl never.
#[global] Arguments checked_sub _ _ : simpl never.
#[global] Arguments saturating_add _ _ : simpl never.
#[global] Arguments saturating_sub _ _ : simpl never.
(** Unchecked [+] on a [u64]/[usize] in a release build. *)
Definition wrapping_add (a b : Z) : Z := (a + b) mod (u64_max + 1).

Definition is_u64 (a : Z) : Prop := 0 ≤ a ≤ u64_max.

Lemma checked_add_Some a b c :
  checked_add a b = Some c ↔ c = a + b ∧ a + b ≤ u64_max.
Proof.
  unfold checked_add. destruct (Z.leb_spec (a + b) u64_max); naive_solver lia.
Qed.
Lemma checked_add_None a b : checked_add a b = None ↔ u64_max < a + b.
Proof.
  unfold checked_add. destruct (Z.leb_spec (a + b) u64_max); naive_solver lia.
Qed.
Lemma u64_max_pos : 2 ≤ u64_max.
Proof. done. Qed.
Lemma saturating_add_cases a b :
  (saturating_add a b = a + b ∧ a + b ≤ u64_max)
  ∨ (saturating_add a b = u64_max ∧ u64_max < a + b).
Proof. unfold saturating_add. lia. Qed.
Lemma saturating_add_comm a b : saturating_add a b = saturating_add b a.
Proof. unfold saturating_add. f_equal; lia. Qed.
Lemma saturating_add_swap a b c : 0 ≤ b → 0 ≤ c →
  saturating_add (saturating_add a b) c = saturating_add (saturating_add a c) b.
Proof. unfold saturating_add. lia. Qed.

(** ** Lists *)
(** [iter().position(p)]. *)
Fixpoint position {A} (p : A → bool) (l : list A) : option nat :=
  match l with
  | [] => None
  | x :: l => if p x then Some O else S <$> position p l
  end.

(** [iter().filter(p).count()]. *)
Definition count_if {A} (p : A → bool) (l : list A) : nat :=
  length (filter (λ x, p x = true) l).

Lemma position_Some {A} (p : A → bool) l i :
  position p l = Some i →
  ∃ x, l !! i = Some x ∧ p x = true ∧ ∀ j y, (j < i)%nat → l !! j = Some y → p y = false.
Proof.
  revert i. induction l as [|x l IH]; intros i; simpl; [done|].
  destruct (p x) eqn:Hp.
  - intros [= <-]. exists x. split_and!; [done|done|lia].
  - destruct (position p l) as [k|] eqn:E; simpl; [|done]. intros [= <-].
    destruct (IH k eq_refl) as (y & Hy & Hpy & Hlt). exists y.
    split_and!; [done|done|]. intros [|j] z Hj Hz; simpl in Hz; simplify_eq; [done|].
    eapply Hlt; [|done]; lia.
Qed.
Lemma position_None {A} (p : A → bool) l :
  position p l = None ↔ ∀ x, x ∈ l → p x = false.
Proof.
  induction l as [|x l IH]; simpl.
  - split; [intros _ x Hx; by apply elem_of_nil in Hx|done].
  - destruct (p x) eqn:Hp; split.
    + done.
    + intros H. rewrite H in Hp; [done|]. left.
    + destruct (position p l); [done|]. intros _ y [->|Hy]%elem_of_cons; [done|].
      by apply IH.
    + intros H. rewrite (proj2 IH); [done|]. intros y Hy. apply H. by right.
Qed.
Lemma count_if_cons {A} (p : A → bool) x l :
  count_if p (x :: l) = ((if p x then 1 else 0) + count_if p l)%nat.
Proof. unfold count_if. rewrite filter_cons. by destruct (p x). Qed.
Lemma count_if_app {A} (p : A → bool) l k :
  count_if p (l ++ k) = (count_if p l + count_if p k)%nat.
Proof. unfold count_if. by rewrite filter_app, length_app. Qed.
Lemma count_if_zero {A} (p : A → bool) l :
  count_if p l = O ↔ ∀ x, x ∈ l → p x = false.
Proof.
  induction l as [|x l IH]; [split; [intros _ x Hx; by apply elem_of_nil in Hx|done]|].
  rewrite count_if_cons. split.
  - intros H y. rewrite elem_of_cons. intros [->|Hy].
    + destruct (p x); [lia|done].
    + apply IH; [lia|done].
  - intros H. rewrite (H x) by left. apply IH. intros y Hy. apply H. by right.
Qed.
Lemma filter_all {A} (P : A → Prop) `{∀ x, Decision (P x)} (l : list A) :
  (∀ x, x ∈ l → P x) → filter P l = l.
Proof.
  induction l as [|x l IH]; intros Hl; [done|].
  rewrite filter_cons_True by (apply Hl; left). f_equal. apply IH. intros y Hy. apply Hl. by right.
Qed.
Lemma filter_ext_elem {A} (P Q : A → Prop) `{∀ x, Decision (P x), ∀ x, Decision (Q x)} (l : list A) :
  (∀ x, x ∈ l → P x ↔ Q x) → filter P l = filter Q l.
Proof.
  induction l as [|x l IH]; intros Hl; [done|].
  rewrite !filter_cons, IH by (intros y Hy; apply Hl; by right).
  pose proof (Hl x (list_elem_of_here _ _)). do 2 case_decide; tauto.
Qed.
Lemma sublist_filter {A} (P : A → Prop) `{∀ x, Decision (P x)} (l : list A) : sublist (filter P l) l.
Proof. induction l as [|x l IH]; [done|]. rewrite filter_cons. case_decide; by constructor. Qed.
Lemma count_if_sublist {A} (p : A → bool) l k : sublist l k → (count_if p l ≤ count_if p k)%nat.
Proof. induction 1; rewrite ?count_if_cons; try case_match; lia. Qed.
Lemma count_if_perm {A} (p : A → bool) l k : l ≡ₚ k → count_if p l = count_if p k.
Proof. intros H. unfold count_if. by rewrite H. Qed.
Lemma NoDup_middle {A} (l1 l2 : list A) x : NoDup (l1 ++ x :: l2) → NoDup (l1 ++ l2).
Proof.
  intros (? & Hd & [? ?]%NoDup_cons)%NoDup_app. apply NoDup_app.
  split_and!; [done| |done]. intros y Hy Hy2. apply (Hd y Hy). by right.
Qed.
Lemma NoDup_middle_fresh {A} (l1 l2 : list A) x : NoDup (l1 ++ x :: l2) → x ∉ l1 ++ l2.
Proof.
  intros (_ & Hd & [Hx _]%NoDup_cons)%NoDup_app. rewrite elem_of_app. intros [H|H]; [|done].
  apply (Hd x H). left.
Qed.
Lemma filter_split {A} (p : A → bool) (l : list A) :
  l ≡ₚ filter (λ x, p x = true) l ++ filter (λ x, p x = false) l.
Proof.
  induction l as [|x l IH]; [done|]. rewrite !filter_cons. destruct (p x); simpl.
  - by rewrite <- IH.
  - by rewrite <- Permutation_middle, <- IH.
Qed.
Lemma existsb_false {A} (p : A → bool) l :
  existsb p l = false ↔ ∀ x, x ∈ l → p x = false.
Proof.
  induction l as [|x l IH]; simpl; [split; [intros _ x Hx; by apply elem_of_nil in Hx|done]|].
  rewrite orb_false_iff, IH. setoid_rewrite elem_of_cons. naive_solver.
Qed.
Lemma count_if_position {A} (p : A → bool) l :
  (0 < count_if p l)%nat → is_Some (position p l).
Proof.
  induction l as [|x l IH]; [unfold count_if; simpl; lia|].
  rewrite count_if_cons. simpl. destruct (p x); [by eexists|].
  intros [i Hi]%IH. rewrite Hi. by eexists.
Qed.

(** Instantiates the facts an invariant states about [e = Some x] for every
    such equation in the context, and takes the results apart. *)
Ltac forward_some :=
  repeat match goal with
    | H : ∀ x, ?e = Some x → _, E : ?e = Some ?y |- _ =>
        let P := type of (H y E) in
        lazymatch goal with
        | _ : P |- _ => fail
        | _ => pose proof (H y E)
        end
    | H : ∀ k x, ?m !! k = Some x → _, E : ?m !! ?i = Some ?y |- _ =>
        let P := type of (H i y E) in
        lazymatch goal with
        | _ : P |- _ => fail
        | _ => pose proof (H i y E)
        end
    end.
(** Linear arithmetic that treats the machine bounds as symbols. *)
Ltac saturating_lia :=
  pose proof u64_max_pos;
  repeat match goal with
    | |- context [saturating_add ?a ?b] =>
        pose proof (saturating_add_cases a b);
        generalize dependent (saturating_add a b); intros
    | _ : context [saturating_add ?a ?b] |- _ =>
        pose proof (saturating_add_cases a b);
        generalize dependent (saturating_add a b); intros
    end; lia.
Ltac split_facts :=
  repeat match goal with
    | H : _ ∧ _ |- _ => destruct H
    | H : ∃ _, _ |- _ => destruct H
    | H : checked_add _ _ = Some _ |- _ => apply checked_add_Some in H
    | H : <[_:=_]> _ !! _ = Some _ |- _ => apply lookup_insert_Some in H as [[? ?]|[? ?]]
    | H : delete _ _ !! _ = Some _ |- _ => apply lookup_delete_Some in H as [? ?]
    end.

(** ** Finite maps *)
Lemma lookup_insert_fresh `{Countable K} {A} (m : gmap K A) i j x y :
  m !! i = None → m !! j = Some x → <[i:=y]> m !! j = Some x.
Proof. intros Hi Hj. rewrite lookup_insert_ne; [done|congruence]. Qed.

Lemma lookup_insert_keeps `{Countable K} {A} (m : gmap K A) i j x y :
  m !! j = Some x → ∃ x', <[i:=y]> m !! j = Some x'.
Proof.
  intros Hj. destruct (decide (i = j)) as [->|Hij].
  - eexists. apply lookup_insert_eq.
  - exists x. by rewrite lookup_insert_ne.
Qed.

(** ** Transition systems

    A component is a set of initial states and a labelled step relation; an
    [Invariant] holds in every state some run of the component reaches. *)
Section Transitions.
Context {S L : Type} (init : S → Prop) (step : S → L → S → Prop).

Inductive reachable : S → Prop :=
| reach_init s : init s → reachable s
| reach_step s l s' : reachable s → step s l s' → reachable s'.

(** A run from a given state, with the labels it took. *)
Inductive run : S → list L → S → Prop :=
| run_nil s : run s [] s
| run_cons s l s' ls s'' : step s l s' → run s' ls s'' → run s (l :: ls) s''.

Class Invariant (I : S → Prop) := {
  inv_init s : init s → I s;
  inv_step s l s' : I s → step s l s' → I s'
}.

Lemma reachable_inv (I : S → Prop) `{!Invariant I} s : reachable s → I s.
Proof. induction 1 as [s H|s l s' _ IH H]; [by apply inv_init|by eapply inv_step]. Qed.

Lemma run_evolves (R : S → S → Prop) `{!PreOrder R} :
  (∀ s l s', step s l s' → R s s') → ∀ s ls s', run s ls s' → R s s'.
Proof.
  intros HR s ls s'. induction 1 as [s|s l s1 ls s2 H _ IH]; [reflexivity|].
  etransitivity; [by eapply HR|done].
Qed.

Lemma run_reachable s ls s' : reachable s → run s ls s' → reachable s'.
Proof. intros Hs. induction 1; [done|]. eauto using reach_step. Qed.

(** A component whose steps are a function runs to the fold of its labels. *)
Lemma run_fold (exec : L → S → S) ls s :
  (∀ l s, step s l (exec l s)) → run s ls (fold_left (λ s l, exec l s) ls s).
Proof.
  intros H. revert s. induction ls as [|l ls IH]; intros s; [constructor|]. simpl.
  by econstructor.
Qed.
End Transitions.
