(* ===== verification/RustStr.v ===== *)
(** * Rust strings

    A [str] is its UTF-8 bytes, held in a Rocq [string]. The operations below
    are the standard-library ones the modelled code calls. Whitespace is the
    Unicode White_Space property, recognised on its UTF-8 encodings (one, two
    or three bytes long), so [trim] agrees with Rust on every valid string. *)
From S2P Require Import Prelude.
From Stdlib Require Import Ascii.

Definition byte_of (a : ascii) : Z := Z.of_N (Ascii.N_of_ascii a).

(** U+0009..U+000D and U+0020. *)
Definition ws1 (a : ascii) : bool :=
  let x := byte_of a in ((9 <=? x) && (x <=? 13)) || (x =? 32).
(** U+0085 and U+00A0. *)
Definition ws2 (a b : ascii) : bool :=
  (byte_of a =? 194) && ((byte_of b =? 133) || (byte_of b =? 160)).
(** U+1680, U+2000..U+200A, U+2028, U+2029, U+202F, U+205F, U+3000. *)
Definition ws3 (a b c : ascii) : bool :=
  let x := byte_of a in let y := byte_of b in let z := byte_of c in
  ((x =? 225) && (y =? 154) && (z =? 128)) ||
  ((x =? 226) && (y =? 128) &&
     (((128 <=? z) && (z <=? 138)) || (z =? 168) || (z =? 169) || (z =? 175))) ||
  ((x =? 226) && (y =? 129) && (z =? 159)) ||
  ((x =? 227) && (y =? 128) && (z =? 128)).

Section Strip.
Context (w1 : ascii → bool) (w2 : ascii → ascii → bool)
  (w3 : ascii → ascii → ascii → bool).
(** Removes the whitespace characters at the front. *)
Fixpoint strip (s : list ascii) : list ascii :=
  match s with
  | [] => []
  | a :: s1 =>
      if w1 a then strip s1 else
      match s1 with
      | [] => s
      | b :: s2 =>
          if w2 a b then strip s2 else
          match s2 with
          | [] => s
          | c :: s3 => if w3 a b c then strip s3 else s
          end
      end
  end.
(** Whether the string starts with a whitespace character. *)
Definition starts_ws (s : list ascii) : bool :=
  match s with
  | [] => false
  | a :: s1 =>
      w1 a || match s1 with
              | [] => false
              | b :: s2 => w2 a b || match s2 with [] => false | c :: _ => w3 a b c end
              end
  end.

Lemma strip_fix s : starts_ws s = false → strip s = s.
Proof.
  destruct s as [|a [|b [|c s]]]; simpl; [done|..];
    destruct (w1 a); simpl; try done; destruct (w2 a b); simpl; try done;
    destruct (w3 a b c); done.
Qed.
Lemma strip_clean s : starts_ws (strip s) = false.
Proof.
  enough (∀ n s, (length s ≤ n)%nat → starts_ws (strip s) = false) by eauto.
  clear s. intros n. induction n as [|n IH]; intros s Hs.
  { destruct s; simpl in *; [done|lia]. }
  destruct s as [|a s1]; [done|]. simpl in Hs.
  cbn [strip]. destruct (w1 a) eqn:E1; [apply IH; lia|].
  destruct s1 as [|b s2]; [by simpl; rewrite E1|]. simpl in Hs.
  destruct (w2 a b) eqn:E2; [apply IH; lia|].
  destruct s2 as [|c s3]; [by simpl; rewrite E1, E2|]. simpl in Hs.
  destruct (w3 a b c) eqn:E3; [apply IH; lia|]. by simpl; rewrite E1, E2, E3.
Qed.
Lemma strip_suffix s : ∃ p, s = p ++ strip s.
Proof.
  enough (∀ n s, (length s ≤ n)%nat → ∃ p, s = p ++ strip s) by eauto.
  clear s. intros n. induction n as [|n IH]; intros s Hs.
  { destruct s; simpl in *; [by exists []|lia]. }
  destruct s as [|a s1]; [by exists []|]. simpl in Hs. cbn [strip].
  destruct (w1 a).
  { destruct (IH s1) as [p Hp]; [lia|]. exists (a :: p). simpl. congruence. }
  destruct s1 as [|b s2]; [by exists []|]. simpl in Hs. destruct (w2 a b).
  { destruct (IH s2) as [p Hp]; [lia|]. exists (a :: b :: p). simpl. congruence. }
  destruct s2 as [|c s3]; [by exists []|]. simpl in Hs. destruct (w3 a b c).
  { destruct (IH s3) as [p Hp]; [lia|]. exists (a :: b :: c :: p). simpl. congruence. }
  by exists [].
Qed.
Lemma starts_ws_prefix s p : starts_ws (p ++ s) = false → starts_ws p = false.
Proof.
  destruct p as [|a [|b [|c p]]]; simpl; try done.
  all: rewrite ?orb_false_iff; naive_solver.
Qed.
End Strip.

Definition trim_start_bytes : list ascii → list ascii := strip ws1 ws2 ws3.
Definition trim_end_bytes (s : list ascii) : list ascii :=
  reverse (strip ws1 (λ b a, ws2 a b) (λ c b a, ws3 a b c) (reverse s)).

Abbreviation bytes := String.list_ascii_of_string.
Abbreviation of_bytes := String.string_of_list_ascii.

(** [str::trim]. *)
Definition trim (s : string) : string :=
  of_bytes (trim_end_bytes (trim_start_bytes (bytes s))).
(** [s.trim().is_empty()]. *)
Definition is_blank (s : string) : bool := bool_decide (trim s = "").
(** [s.is_empty()]. *)
Definition is_empty (s : string) : bool := bool_decide (s = "").
(** [str::len], in bytes. *)
Definition str_len (s : string) : Z := Z.of_nat (String.length s).
(** [s.chars().count()]: every byte that does not continue a character. *)
Definition chars_count (s : string) : Z :=
  Z.of_nat (count_if (λ a, negb (Z.land (byte_of a) 192 =? 128)) (bytes s)).

Definition ascii_lower (a : ascii) : ascii :=
  let x := byte_of a in
  if (65 <=? x) && (x <=? 90) then Ascii.ascii_of_N (Z.to_N (x + 32)) else a.
(** [str::to_ascii_lowercase]. *)
Definition to_ascii_lowercase (s : string) : string := of_bytes (ascii_lower <$> bytes s).

(** [s.split(p).next()] for a single-byte separator set. *)
Fixpoint split_first (p : ascii → bool) (s : string) : string :=
  match s with
  | EmptyString => EmptyString
  | String a s => if p a then EmptyString else String a (split_first p s)
  end.
(** [s.split("::")]. *)
Fixpoint split_colons_go (acc : string) (s : string) : list string :=
  match s with
  | EmptyString => [String.rev acc]
  | String ":" (String ":" s) => String.rev acc :: split_colons_go "" s
  | String a s => split_colons_go (String a acc) s
  end.
Definition split_colons (s : string) : list string := split_colons_go "" s.

(** [slice.join(sep)]. *)
Fixpoint join (sep : string) (l : list string) : string :=
  match l with
  | [] => ""
  | [s] => s
  | s :: l => s +:+ sep +:+ join sep l
  end.

(** Decimal rendering of an unsigned integer, as [format!("{}")] prints it. *)
Definition show_uint (x : Z) : string := pretty (Z.to_N x).

Lemma of_bytes_bytes s : of_bytes (bytes s) = s.
Proof. apply String.string_of_list_ascii_of_string. Qed.
Lemma bytes_of_bytes l : bytes (of_bytes l) = l.
Proof. apply String.list_ascii_of_string_of_list_ascii. Qed.

Lemma trim_end_clean l : starts_ws ws1 ws2 ws3 l = false →
  starts_ws ws1 ws2 ws3 (trim_end_bytes l) = false.
Proof.
  intros Hl. unfold trim_end_bytes.
  destruct (strip_suffix ws1 (λ b a, ws2 a b) (λ c b a, ws3 a b c) (reverse l)) as [p Hp].
  apply (starts_ws_prefix _ _ _ (reverse p)).
  rewrite <-reverse_app, <-Hp, reverse_involutive. done.
Qed.

(** Trimming is idempotent: a trimmed identifier stays as it is. *)
Lemma trim_trim s : trim (trim s) = trim s.
Proof.
  unfold trim. rewrite bytes_of_bytes. unfold trim_start_bytes at 1.
  rewrite (strip_fix _ _ _ (trim_end_bytes _)).
  2:{ apply trim_end_clean, strip_clean. }
  f_equal. unfold trim_end_bytes at 1. f_equal.
  rewrite strip_fix; unfold trim_end_bytes; rewrite reverse_involutive; [done|].
  apply strip_clean.
Qed.

Lemma is_blank_trim s : is_blank (trim s) = is_blank s.
Proof. unfold is_blank. by rewrite trim_trim. Qed.
Lemma is_blank_false_ne s : is_blank s = false → s ≠ "".
Proof. unfold is_blank. intros H ->. by vm_compute in H. Qed.

(** ** Parsing unsigned integers

    [str::parse::<u64>] and [::<u32>]: an optional plus sign, then decimal digits. *)
Definition digit (a : ascii) : option Z :=
  let x := byte_of a in if (48 <=? x) && (x <=? 57) then Some (x - 48) else None.
Fixpoint parse_digits (max acc : Z) (s : list ascii) : outcome Z :=
  match s with
  | [] => Ok acc
  | a :: s =>
      match digit a with
      | None => Err (Fail "invalid digit found in string")
      | Some d => if max <? 10 * acc + d
                  then Err (Fail "number too large to fit in target type")
                  else parse_digits max (10 * acc + d) s
      end
  end.
Definition parse_uint (max : Z) (s : string) : outcome Z :=
  match bytes s with
  | [] => Err (Fail "cannot parse integer from empty string")
  | a :: rest =>
      if byte_of a =? 43 then
        match rest with
        | [] => Err (Fail "invalid digit found in string")
        | _ => parse_digits max 0 rest
        end
      else parse_digits max 0 (a :: rest)
  end.
Definition parse_u64 : string → outcome Z := parse_uint u64_max.
Definition parse_u32 : string → outcome Z := parse_uint u32_max.
(** [Result::map_err] with a message that prefixes the error. *)
Definition map_err {A} (o : outcome A) (context : string) : outcome A :=
  match o with Err (Fail e) => Err (Fail (context +:+ e)) | o => o end.
Lemma parse_digits_range max s : ∀ acc n,
  0 ≤ acc ≤ max → parse_digits max acc s = Ok n → 0 ≤ n ≤ max.
Proof.
  induction s as [|a s IH]; intros acc n Hacc; simpl; [by intros [= <-]|].
  unfold digit. destruct (_ && _) eqn:Ed; [|done]. bool_hyps.
  destruct (_ <? _) eqn:El; [done|]. bool_hyps. apply IH. lia.
Qed.
(** A parsed integer is in range: parsing never wraps. *)
Lemma parse_uint_range max s n : 0 ≤ max → parse_uint max s = Ok n → 0 ≤ n ≤ max.
Proof.
  intros Hm. unfold parse_uint. destruct (bytes s) as [|a rest]; [done|].
  destruct (_ =? 43); [destruct rest; [done|]|]; apply parse_digits_range; lia.
Qed.
(** [value.map(trim).filter(not empty).ok_or_else(message)]. *)
Definition required_entry (message : string) (value : option string) : outcome string :=
  match value with
  | Some entry => if is_blank entry then Err (Fail message) else Ok (trim entry)
  | None => Err (Fail message)
  end.
Lemma required_entry_Ok message value s :
  required_entry message value = Ok s →
  ∃ entry, value = Some entry ∧ s = trim entry ∧ is_blank s = false.
Proof.
  unfold required_entry. destruct value as [entry|]; [|done].
  destruct (is_blank entry) eqn:Hb; [done|]. intros [= <-].
  exists entry. by rewrite is_blank_trim.
Qed.
