(* ===== verification/FifoMemory.v ===== *)
(** * Bounded first-in first-out memories

    Several components remember the last [n] keys they saw in a set with a queue
    beside it: a new key enters both, and while the queue is longer than [n] its
    oldest key leaves both. This file shows that such a pair is the last [n] keys
    of the history, as long as keys recur only after [n] others. *)
From S2P Require Import Prelude.

(** ** The last keys of a history *)
Definition last_n {A} (n : nat) (l : list A) : list A := drop (length l - n) l.

Lemma last_n_length {A} n (l : list A) : (length (last_n n l) ≤ n)%nat.
Proof. unfold last_n. rewrite length_drop. lia. Qed.
Lemma last_n_all {A} n (l : list A) : (length l ≤ n)%nat → last_n n l = l.
Proof. intros H. unfold last_n. by replace (length l - n)%nat with 0%nat by lia. Qed.
Lemma last_n_snoc {A} n (l : list A) x : last_n n (last_n n l ++ [x]) = last_n n (l ++ [x]).
Proof.
  unfold last_n. rewrite !length_app, length_drop, <- drop_app_le by lia. simpl.
  rewrite drop_drop. f_equal. lia.
Qed.
Lemma elem_of_last_n {A} n (l : list A) x :
  x ∈ last_n n l ↔ ∃ i, l !! i = Some x ∧ (length l ≤ i + n)%nat.
Proof.
  unfold last_n. rewrite list_elem_of_lookup. setoid_rewrite lookup_drop. split.
  - intros [i Hi]. exists (length l - n + i)%nat. split; [done|lia].
  - intros (i & Hi & Hle). exists (i - (length l - n))%nat. rewrite <- Hi. f_equal. lia.
Qed.
Lemma last_n_app_elem {A} n (l k : list A) x : x ∈ last_n n (l ++ k) → x ∈ last_n n l ∨ x ∈ k.
Proof.
  rewrite !elem_of_last_n. intros (i & Hi & Hle). rewrite length_app in Hle.
  apply lookup_app_Some in Hi as [Hi|[? Hi]]; [left; exists i; split; [done|lia]|].
  right. by eapply list_elem_of_lookup_2.
Qed.

(** Equal keys are more than [n] places apart. *)
Definition spaced {A} (n : nat) (l : list A) : Prop :=
  ∀ i j x, l !! i = Some x → l !! j = Some x → (i < j)%nat → (i + n < j)%nat.
Lemma spaced_nil {A} n : spaced n ([] : list A).
Proof. by intros i j x. Qed.
Lemma spaced_snoc {A} n (l : list A) x : spaced n l → x ∉ last_n n l → spaced n (l ++ [x]).
Proof.
  intros Hl Hx i j y Hi Hj Hlt.
  apply lookup_app_Some in Hj as [Hj|[Hj1 Hj2]].
  - pose proof (lookup_lt_Some _ _ _ Hj). rewrite lookup_app_l in Hi by lia. by apply (Hl i j y).
  - apply list_lookup_singleton_Some in Hj2 as [Hj2 ->].
    assert (j = length l) as -> by lia. rewrite lookup_app_l in Hi by lia.
    destruct (decide (i + n < length l)%nat) as [|Hn]; [done|]. destruct Hx.
    apply elem_of_last_n. exists i. split; [done|lia].
Qed.
Lemma spaced_NoDup {A} n (l : list A) : spaced n l → NoDup (last_n n l).
Proof.
  intros Hl. apply NoDup_alt. intros i j x. unfold last_n. rewrite !lookup_drop. intros Hi Hj.
  pose proof (lookup_lt_Some _ _ _ Hi). pose proof (lookup_lt_Some _ _ _ Hj).
  destruct (decide (i = j)) as [|Hne]; [done|]. exfalso.
  destruct (decide (i < j)%nat).
  - pose proof (Hl _ _ _ Hi Hj ltac:(lia)). lia.
  - pose proof (Hl _ _ _ Hj Hi ltac:(lia)). lia.
Qed.

(** ** Eviction *)
(** [while order.len() > n { known.remove(order.pop_front()) }] *)
Fixpoint evict_to (n : nat) (known : gset string) (order : list string)
  : gset string * list string :=
  match order with
  | [] => (known, order)
  | expired :: rest =>
      if (n <? length order)%nat then evict_to n (known ∖ {[expired]}) rest else (known, order)
  end.

Section Memory.
Context (n : nat).
Lemma evict_to_spec order : ∀ known,
  evict_to n known order =
    (known ∖ list_to_set (take (length order - n) order),
     last_n n order).
Proof.
  unfold last_n. induction order as [|x order IH]; intros known; cbn [evict_to].
  { rewrite take_nil, drop_nil. f_equal. set_solver. }
  destruct (Nat.ltb_spec n (length (x :: order))) as [Hlt|Hge].
  - rewrite IH. simpl length in *.
    replace (S (length order) - n)%nat
      with (S (length order - n)) by lia.
    cbn [take drop list_to_set foldr]. f_equal. set_solver.
  - replace (length (x :: order) - n)%nat with 0%nat by lia.
    cbn [take drop]. f_equal. set_solver.
Qed.
(** A memory that holds exactly the last keys of a history. *)
Definition holds_last (known : gset string) (order history : list string) : Prop :=
  order = last_n n history ∧ known = list_to_set order.
Lemma evict_to_holds known order history key :
  holds_last known order history → spaced n (history ++ [key]) →
  let '(known', order') := evict_to n ({[key]} ∪ known) (order ++ [key]) in
  holds_last known' order' (history ++ [key]).
Proof.
  intros [-> ->] Hs. rewrite evict_to_spec. split; [by rewrite last_n_snoc|].
  assert (NoDup (last_n n history ++ [key])) as Hnd.
  { apply NoDup_app. split_and!.
    - apply spaced_NoDup. intros i j x Hi Hj Hlt. apply (Hs i j x); [by apply lookup_app_l_Some..|done].
    - intros x Hx Hk. apply list_elem_of_singleton in Hk as ->. apply elem_of_last_n in Hx as (i & Hi & Hle).
      pose proof (lookup_lt_Some _ _ _ Hi).
      pose proof (Hs i (length history) key ltac:(by apply lookup_app_l_Some)
        ltac:(by apply list_lookup_middle) ltac:(lia)). lia.
    - apply NoDup_singleton. }
  revert Hnd. generalize (last_n n history) as l. intros l Hnd.
  unfold last_n. set (m := (length (l ++ [key]) - n)%nat).
  rewrite <- (take_drop m (l ++ [key])) in Hnd. apply NoDup_app in Hnd as (_ & Hd & _).
  apply set_eq. intros x. rewrite elem_of_difference, elem_of_union, elem_of_singleton, !elem_of_list_to_set.
  assert (x = key ∨ x ∈ l ↔ x ∈ take m (l ++ [key]) ∨ x ∈ drop m (l ++ [key])) as ->.
  { rewrite <- elem_of_app, take_drop, elem_of_app, list_elem_of_singleton. tauto. }
  split; [tauto|]. intros Hx. split; [by right|]. intros Ht. by apply (Hd x).
Qed.

(** A key outside the memory may be remembered: it has not occurred among the last. *)
Lemma holds_last_spaced known order history key :
  holds_last known order history → spaced n history → key ∉ known → spaced n (history ++ [key]).
Proof.
  intros [Ho Hk] Hs Hnot. apply spaced_snoc; [done|]. by rewrite Hk, Ho, elem_of_list_to_set in Hnot.
Qed.
End Memory.
