(* ===== verification/ResponseLedger.v ===== *)
(** * The response ledger of one realtime session

    Models [audio/omni/response_ledger.rs]: the queue of response lineages
    that ties a subtitle cue to the provider's source item, translation item
    and response ids, and the rules by which a provider event finds its
    owner. [VecDeque<ResponseLineage>] is a list in queue order. *)
From S2P Require Import Prelude RustStr.

Definition MAX_COMPLETED_RESPONSE_LINEAGES : nat := 64.

Record ResponseLineage := mk_lineage {
  rl_session_generation : Z;
  rl_cue_id : string;
  rl_source_item_id : option string;
  rl_translation_item_id : option string;
  rl_response_id : option string;
  rl_completed : bool
}.
#[export] Instance lineage_settable : Settable ResponseLineage := λ l,
  mk_lineage (rl_session_generation l) (rl_cue_id l) (rl_source_item_id l)
    (rl_translation_item_id l) (rl_response_id l) (rl_completed l).
#[export] Instance lineage_eq_dec : EqDecision ResponseLineage.
Proof. solve_decision. Defined.

Record ResponseLedger := mk_ledger {
  led_session_generation : Z;
  led_lineages : list ResponseLineage
}.
#[export] Instance ledger_settable : Settable ResponseLedger := λ l,
  mk_ledger (led_session_generation l) (led_lineages l).

(** [ResponseLedger::default()]. *)
Definition ledger_default : ResponseLedger := mk_ledger 0 [].

Definition normalized_id (value : option string) : option string :=
  v ← value;
  let v := trim v in
  if is_empty v || bool_decide (v = "(none)") then None else Some v.

Definition set_generation (session_generation : Z) (L : ResponseLedger) : ResponseLedger :=
  if bool_decide (led_session_generation L = session_generation) then L
  else L <| led_session_generation := session_generation |> <| led_lineages := [] |>.

(** One turn of the loop of [prune_completed_lineages]: while more than
    [MAX_COMPLETED_RESPONSE_LINEAGES] are completed, the first completed one
    is removed. The fuel is the queue length; every turn removes one. *)
Fixpoint prune_loop (fuel : nat) (ls : list ResponseLineage) : list ResponseLineage :=
  match fuel with
  | O => ls
  | S fuel =>
      if (MAX_COMPLETED_RESPONSE_LINEAGES <? count_if rl_completed ls)%nat then
        match position rl_completed ls with
        | Some index => prune_loop fuel (delete index ls)
        | None => ls
        end
      else ls
  end.
Definition prune_completed_lineages (L : ResponseLedger) : ResponseLedger :=
  L <| led_lineages ::= λ ls, prune_loop (length ls) ls |>.

Definition is_some {A} (o : option A) : bool := match o with Some _ => true | None => false end.
Definition opt_eqb (a b : option string) : bool := bool_decide (a = b).

Definition record_source (cue_id : string) (source_item_id : option string)
    (L : ResponseLedger) : ResponseLedger :=
  let source_item_id := normalized_id source_item_id in
  match position (λ l, bool_decide (rl_cue_id l = cue_id)
                       || (is_some source_item_id
                           && opt_eqb (rl_source_item_id l) source_item_id))
          (led_lineages L) with
  | Some i =>
      L <| led_lineages ::= alter (λ l,
             let l := l <| rl_cue_id := cue_id |> in
             if is_some (rl_source_item_id l) then l
             else l <| rl_source_item_id := source_item_id |>) i |>
  | None =>
      prune_completed_lineages
        (L <| led_lineages ::= λ ls, ls ++
             [mk_lineage (led_session_generation L) cue_id source_item_id None None false] |>)
  end.

Definition unanswered (source_item_id : string) (l : ResponseLineage) : bool :=
  opt_eqb (rl_source_item_id l) (Some source_item_id)
  && negb (is_some (rl_response_id l)) && negb (rl_completed l).

Definition discard_unanswered_source (source_item_id : string) (L : ResponseLedger)
    : list string * ResponseLedger :=
  (rl_cue_id <$> filter (λ l, unanswered source_item_id l = true) (led_lineages L),
   L <| led_lineages ::= filter (λ l, unanswered source_item_id l = false) |>).

(** [or_else] on options. *)
Definition or_else {A} (a b : option A) : option A :=
  match a with Some _ => a | None => b end.

Section Bind.
Context (response_id source_item_id translation_item_id fallback_cue_id : option string).

Definition has_item_lineage : bool :=
  is_some source_item_id || is_some translation_item_id.
Definition item_index (ls : list ResponseLineage) : option nat :=
  or_else
    (position (λ l, is_some source_item_id && opt_eqb (rl_source_item_id l) source_item_id) ls)
    (position (λ l, is_some translation_item_id
                    && opt_eqb (rl_translation_item_id l) translation_item_id) ls).
Definition response_index (ls : list ResponseLineage) : option nat :=
  position (λ l, is_some response_id && opt_eqb (rl_response_id l) response_id) ls.

(** The identity conflicts that make an exact match fail. *)
Definition conflicts (l : ResponseLineage) : bool :=
  match source_item_id with
  | Some s => negb (opt_eqb (rl_source_item_id l) (Some s))
  | None => false
  end
  || match translation_item_id, rl_translation_item_id l with
     | Some t, Some b => negb (bool_decide (b = t))
     | _, _ => false
     end
  || match response_id, rl_response_id l with
     | Some r, Some b => negb (bool_decide (b = r))
     | _, _ => false
     end.

Definition fifo_index (ls : list ResponseLineage) : option nat :=
  position (λ l, negb (rl_completed l)) ls.
Definition fallback_index (ls : list ResponseLineage) : option nat :=
  position (λ l, negb (rl_completed l)
                 && match fallback_cue_id with
                    | Some c => bool_decide (rl_cue_id l = c)
                    | None => false
                    end) ls.

Definition fill_ids (l : ResponseLineage) : ResponseLineage :=
  let l := if is_some (rl_response_id l) then l else l <| rl_response_id := response_id |> in
  let l := if is_some (rl_source_item_id l) then l
           else l <| rl_source_item_id := source_item_id |> in
  if is_some (rl_translation_item_id l) then l
  else l <| rl_translation_item_id := translation_item_id |>.

(** The tail of [bind_response], once the exact match has been checked:
    materialise the fallback cue, choose the owner, fill its empty ids. *)
Definition bind_owner (exact_index : option nat) (L : ResponseLedger)
    : option ResponseLineage * ResponseLedger :=
  let L :=
    if negb (is_some exact_index) && is_some response_id && negb has_item_lineage
       && negb (existsb (λ l, negb (rl_completed l)) (led_lineages L)) then
      match fallback_cue_id with
      | Some cue_id => if is_blank cue_id then L else record_source cue_id None L
      | None => L
      end
    else L in
  let ls := led_lineages L in
  let index :=
    or_else exact_index
      (if is_some response_id && negb has_item_lineage
       then or_else (fifo_index ls) (fallback_index ls)
       else or_else (fallback_index ls) (fifo_index ls)) in
  match index with
  | Some i =>
      match ls !! i with
      | Some l => (Some (fill_ids l), L <| led_lineages ::= <[i := fill_ids l]> |>)
      | None => (None, L)
      end
  | None => (None, L)
  end.

Definition bind_normalized (L : ResponseLedger) : option ResponseLineage * ResponseLedger :=
  let ls := led_lineages L in
  let item := item_index ls in
  let resp := response_index ls in
  if has_item_lineage && negb (is_some item) && negb (is_some resp) then (None, L)
  else if is_some item && is_some resp && negb (bool_decide (item = resp)) then (None, L)
  else
    let exact_index := or_else item resp in
    match exact_index with
    | Some i =>
        match ls !! i with
        | Some l => if conflicts l then (None, L) else bind_owner exact_index L
        | None => (None, L)
        end
    | None => bind_owner None L
    end.
End Bind.

Definition bind_response (response_id source_item_id translation_item_id
    fallback_cue_id : option string) (L : ResponseLedger)
    : option ResponseLineage * ResponseLedger :=
  bind_normalized (normalized_id response_id) (normalized_id source_item_id)
    (normalized_id translation_item_id) fallback_cue_id L.

Definition complete_response (response_id : option string) (L : ResponseLedger)
    : ResponseLedger :=
  let response_id := normalized_id response_id in
  prune_completed_lineages
    match position (λ l, is_some response_id && opt_eqb (rl_response_id l) response_id)
            (led_lineages L) with
    | Some i => L <| led_lineages ::= alter (λ l, l <| rl_completed := true |>) i |>
    | None => L
    end.

Definition has_complete_lineage (cue_id source_item_id response_id : string)
    (L : ResponseLedger) : bool :=
  existsb (λ l,
    rl_completed l && bool_decide (rl_cue_id l = cue_id)
    && opt_eqb (rl_source_item_id l) (Some source_item_id)
    && opt_eqb (rl_response_id l) (Some response_id)
    && negb (is_blank source_item_id) && negb (is_blank response_id)) (led_lineages L).

Definition input_response_bindings (L : ResponseLedger) : list (string * string) :=
  omap (λ l, s ← rl_source_item_id l; r ← rl_response_id l; Some (s, r)) (led_lineages L).

Definition clear (L : ResponseLedger) : ResponseLedger := L <| led_lineages := [] |>.

(** The calls the session worker makes on its ledger. *)
Inductive ledger_op :=
| OpSetGeneration (g : Z)
| OpRecordSource (cue : string) (source : option string)
| OpDiscard (source : string)
| OpBind (response source translation fallback : option string)
| OpComplete (response : option string)
| OpClear.

Definition exec_op (o : ledger_op) (L : ResponseLedger) : ResponseLedger :=
  match o with
  | OpSetGeneration g => set_generation g L
  | OpRecordSource cue source => record_source cue source L
  | OpDiscard source => (discard_unanswered_source source L).2
  | OpBind r s t f => (bind_response r s t f L).2
  | OpComplete r => complete_response r L
  | OpClear => clear L
  end.
Definition ledger_reachable : ResponseLedger → Prop :=
  reachable (λ L, L = ledger_default) (λ L o L', L' = exec_op o L).

(** ** Pruning *)

(** The reference for the pruning loop: drop the [n] oldest completed
    lineages and keep everything else in order. *)
Fixpoint drop_completed (n : nat) (ls : list ResponseLineage) : list ResponseLineage :=
  match n, ls with
  | O, _ => ls
  | _, [] => []
  | S m, l :: ls => if rl_completed l then drop_completed m ls else l :: drop_completed n ls
  end.

Lemma drop_completed_0 ls : drop_completed 0 ls = ls.
Proof. by destruct ls. Qed.

Lemma drop_completed_delete n ls i :
  position rl_completed ls = Some i →
  drop_completed n (delete i ls) = drop_completed (S n) ls.
Proof.
  revert i. induction ls as [|l ls IH]; intros i; simpl; [done|].
  destruct (rl_completed l) eqn:Hl.
  - intros [= <-]. done.
  - destruct (position rl_completed ls) as [k|] eqn:E; simpl; [|done].
    intros [= <-]. simpl. rewrite <-(IH k eq_refl).
    destruct n; simpl; [by rewrite drop_completed_0|]. by rewrite Hl.
Qed.

Lemma count_if_delete ls i :
  position rl_completed ls = Some i →
  count_if rl_completed ls = S (count_if rl_completed (delete i ls)).
Proof.
  revert i. induction ls as [|l ls IH]; intros i; simpl; [done|].
  rewrite count_if_cons. destruct (rl_completed l) eqn:Hl.
  - intros [= <-]. done.
  - destruct (position rl_completed ls) as [k|] eqn:E; simpl; [|done].
    intros [= <-]. simpl. rewrite count_if_cons, Hl, (IH k eq_refl). lia.
Qed.

Lemma prune_loop_spec fuel ls :
  (count_if rl_completed ls ≤ fuel + MAX_COMPLETED_RESPONSE_LINEAGES)%nat →
  prune_loop fuel ls =
    drop_completed (count_if rl_completed ls - MAX_COMPLETED_RESPONSE_LINEAGES) ls.
Proof.
  revert ls. induction fuel as [|fuel IH]; intros ls Hf; simpl.
  { replace (_ - _)%nat with O by lia. by rewrite drop_completed_0. }
  destruct (Nat.ltb_spec MAX_COMPLETED_RESPONSE_LINEAGES (count_if rl_completed ls)).
  - destruct (count_if_position rl_completed ls) as [i Hi]; [unfold MAX_COMPLETED_RESPONSE_LINEAGES in *; lia|].
    rewrite Hi. pose proof (count_if_delete _ _ Hi) as Hd.
    rewrite IH by lia. rewrite (drop_completed_delete _ _ _ Hi). f_equal. lia.
  - replace (_ - _)%nat with O by lia. by rewrite drop_completed_0.
Qed.

Lemma count_if_le_length {A} (p : A → bool) l : (count_if p l ≤ length l)%nat.
Proof. apply length_filter. Qed.

Lemma prune_lineages L :
  led_lineages (prune_completed_lineages L) =
    drop_completed (count_if rl_completed (led_lineages L) - MAX_COMPLETED_RESPONSE_LINEAGES)
      (led_lineages L).
Proof.
  simpl. apply prune_loop_spec.
  pose proof (count_if_le_length rl_completed (led_lineages L)). lia.
Qed.

Lemma drop_completed_sublist n ls : drop_completed n ls `sublist_of` ls.
Proof.
  revert n. induction ls as [|l ls IH]; intros [|n]; simpl; try done.
  destruct (rl_completed l); [by apply sublist_cons, IH|by apply sublist_skip, IH].
Qed.
Lemma count_drop_completed n ls :
  count_if rl_completed (drop_completed n ls) = (count_if rl_completed ls - n)%nat.
Proof.
  revert n. induction ls as [|l ls IH]; intros [|n]; simpl; try done.
  - by rewrite Nat.sub_0_r.
  - rewrite count_if_cons. destruct (rl_completed l) eqn:Hl; [by rewrite IH|].
    rewrite count_if_cons, Hl, IH. done.
Qed.
Lemma drop_completed_unfinished n ls :
  filter (λ l, rl_completed l = false) (drop_completed n ls) =
  filter (λ l, rl_completed l = false) ls.
Proof.
  revert n. induction ls as [|l ls IH]; intros [|n]; simpl; try done.
  destruct (rl_completed l) eqn:Hl.
  - by rewrite IH, filter_cons, decide_False by congruence.
  - by rewrite !filter_cons, !decide_True, IH.
Qed.

(** ** The ledger invariant *)
Definition id_ok (o : option string) : Prop := normalized_id o = o.

Record lineage_ok (g : Z) (l : ResponseLineage) : Prop := {
  lo_generation : rl_session_generation l = g;
  lo_source : id_ok (rl_source_item_id l);
  lo_translation : id_ok (rl_translation_item_id l);
  lo_response : id_ok (rl_response_id l);
  lo_completed : rl_completed l = true → is_Some (rl_response_id l)
}.

Definition bound_responses (ls : list ResponseLineage) : list string :=
  omap rl_response_id ls.

Record ledger_inv (L : ResponseLedger) : Prop := {
  li_lineages : Forall (lineage_ok (led_session_generation L)) (led_lineages L);
  li_responses : NoDup (bound_responses (led_lineages L));
  li_completed :
    (count_if rl_completed (led_lineages L) ≤ MAX_COMPLETED_RESPONSE_LINEAGES)%nat
}.

Lemma normalized_id_idem o : normalized_id (normalized_id o) = normalized_id o.
Proof.
  destruct o as [v|]; [|done]. simpl.
  destruct (is_empty (trim v) || bool_decide (trim v = "(none)")) eqn:E; [done|].
  simpl. by rewrite trim_trim, E.
Qed.
Lemma id_ok_normalized o : id_ok (normalized_id o).
Proof. apply normalized_id_idem. Qed.
Lemma id_ok_None : id_ok None.
Proof. done. Qed.

Lemma sublist_omap {A B} (f : A → option B) l k :
  l `sublist_of` k → omap f l `sublist_of` omap f k.
Proof.
  induction 1 as [|x l k H IH|x l k H IH]; csimpl; [done|..].
  - destruct (f x); [by apply sublist_skip|done].
  - destruct (f x); [by apply sublist_cons|done].
Qed.

(** Pruning re-establishes the bound and keeps the rest of the invariant. *)
Lemma prune_inv L :
  Forall (lineage_ok (led_session_generation L)) (led_lineages L) →
  NoDup (bound_responses (led_lineages L)) →
  ledger_inv (prune_completed_lineages L).
Proof.
  intros HF HN. split; rewrite ?prune_lineages.
  - simpl. rewrite Forall_forall in *. intros l Hl.
    eapply HF, elem_of_sublist; [done|]. apply drop_completed_sublist.
  - eapply sublist_NoDup; [done|apply sublist_omap, drop_completed_sublist].
  - rewrite count_drop_completed. lia.
Qed.

Lemma bound_responses_app l k : bound_responses (l ++ k) = bound_responses l ++ bound_responses k.
Proof. apply omap_app. Qed.

Lemma count_if_insert_same {A} (p : A → bool) (ls : list A) i l l' :
  ls !! i = Some l → p l' = p l → count_if p (<[i := l']> ls) = count_if p ls.
Proof.
  revert i. induction ls as [|x ls IH]; intros [|i] Hi Hp; simplify_eq/=; try done.
  - by rewrite !count_if_cons, Hp.
  - by rewrite !count_if_cons, (IH _ Hi Hp).
Qed.

(** Replacing a lineage by one with the same response id. *)
Lemma bound_responses_insert_same ls i l l' :
  ls !! i = Some l → rl_response_id l' = rl_response_id l →
  bound_responses (<[i := l']> ls) = bound_responses ls.
Proof.
  revert i. induction ls as [|x ls IH]; intros [|i] Hi Hr; simplify_eq/=; try done.
  - unfold bound_responses. csimpl. by rewrite Hr.
  - unfold bound_responses in *. csimpl. by rewrite IH.
Qed.
Lemma alter_as_insert {A} (f : A → A) (ls : list A) i l :
  ls !! i = Some l → alter f i ls = <[i := f l]> ls.
Proof.
  revert i. induction ls as [|x ls IH]; intros [|i] H; simplify_eq/=; [done|].
  f_equal. by apply IH.
Qed.

Lemma lineage_ok_default g cue src :
  id_ok src → lineage_ok g (mk_lineage g cue src None None false).
Proof. by split. Qed.

Lemma record_source_shape cue src L :
  (∃ i l, led_lineages L !! i = Some l ∧
     led_session_generation (record_source cue src L) = led_session_generation L ∧
     led_lineages (record_source cue src L) =
       <[i := (let l := l <| rl_cue_id := cue |> in
               if is_some (rl_source_item_id l) then l
               else l <| rl_source_item_id := normalized_id src |>)]> (led_lineages L)) ∨
  record_source cue src L =
    prune_completed_lineages (L <| led_lineages ::= λ ls, ls ++
      [mk_lineage (led_session_generation L) cue (normalized_id src) None None false] |>).
Proof.
  unfold record_source. case_match eqn:E; [|by right].
  apply position_Some in E as (l & Hl & _ & _). left. exists n, l. simpl.
  by rewrite (alter_as_insert _ _ _ _ Hl).
Qed.

Lemma record_source_inv cue src L : ledger_inv L → ledger_inv (record_source cue src L).
Proof.
  intros [HF HN HC].
  destruct (record_source_shape cue src L) as [(i & l & Hi & Hg & Hl)| ->].
  - assert (Hok : lineage_ok (led_session_generation L) l).
    { rewrite Forall_lookup in HF. by eapply HF. }
    split; rewrite ?Hg, Hl.
    + apply Forall_insert; [done|]. destruct Hok.
      destruct l as [g c [s|] t r d]; split; simpl in *; auto using id_ok_normalized.
    + rewrite (bound_responses_insert_same _ _ l); [done|done|]. by destruct l as [g c [s|] t r d].
    + rewrite (count_if_insert_same rl_completed _ _ l); [done|done|].
      by destruct l as [g c [s|] t r d].
  - apply prune_inv; simpl.
    + apply Forall_app; split; [done|]. apply Forall_singleton, lineage_ok_default.
      apply id_ok_normalized.
    + by rewrite bound_responses_app, app_nil_r.
Qed.

Lemma elem_of_bound r ls : r ∈ bound_responses ls ↔ ∃ l, l ∈ ls ∧ rl_response_id l = Some r.
Proof. unfold bound_responses. rewrite list_elem_of_omap. done. Qed.

Lemma record_source_bound cue src L r :
  r ∈ bound_responses (led_lineages (record_source cue src L)) →
  r ∈ bound_responses (led_lineages L).
Proof.
  destruct (record_source_shape cue src L) as [(i & l & Hi & _ & Hl)| ->].
  - rewrite Hl, (bound_responses_insert_same _ _ l); [done|done|].
    by destruct l as [g c [s|] t r' d].
  - rewrite prune_lineages. intros Hr.
    eapply elem_of_sublist in Hr; [|apply sublist_omap, drop_completed_sublist].
    simpl in Hr. unfold bound_responses in Hr. rewrite omap_app in Hr. simpl in Hr.
    by rewrite app_nil_r in Hr.
Qed.

Section BindProofs.
Context (r s t fb : option string).

Lemma response_index_None ls r' l :
  response_index r ls = None → r = Some r' → l ∈ ls → rl_response_id l ≠ Some r'.
Proof.
  unfold response_index. rewrite position_None. intros H -> Hl.
  specialize (H l Hl). simpl in H. unfold opt_eqb in H.
  by apply bool_decide_eq_false in H.
Qed.

(** The owner a successful binding chose, and why it may take the response:
    either it already carries the response id or no lineage does. *)
Definition chosen (L L1 : ResponseLedger) (i : nat) (l : ResponseLineage) : Prop :=
  (L1 = L ∨ ∃ cue, fb = Some cue ∧ L1 = record_source cue None L) ∧
  led_lineages L1 !! i = Some l ∧
  (∀ r', r = Some r' → rl_response_id l = None →
     r' ∉ bound_responses (led_lineages L1)) ∧
  (conflicts r s t l = false ∧ L1 = L
   ∨ has_item_lineage s t = false ∧ rl_completed l = false
     ∧ response_index r (led_lineages L) = None).

Lemma bind_owner_shape exact_index L :
  (∀ i l, exact_index = Some i → led_lineages L !! i = Some l →
     conflicts r s t l = false ∧
     (∀ r', r = Some r' → rl_response_id l = None →
        r' ∉ bound_responses (led_lineages L))) →
  (exact_index = None →
     has_item_lineage s t = false ∧ response_index r (led_lineages L) = None) →
  (∃ L1 i l, chosen L L1 i l ∧ bind_owner r s t fb exact_index L =
     (Some (fill_ids r s t l), L1 <| led_lineages ::= <[i := fill_ids r s t l]> |>))
  ∨ (∃ L1, (L1 = L ∨ ∃ cue, fb = Some cue ∧ L1 = record_source cue None L) ∧
       bind_owner r s t fb exact_index L = (None, L1)).
Proof.
  intros Hexact Hnone. unfold bind_owner. cbv zeta.
  set (L1 := if negb _ && _ && _ && _ then _ else L).
  assert (HL1 : L1 = L ∨ ∃ cue, fb = Some cue ∧ L1 = record_source cue None L).
  { unfold L1. repeat case_match; eauto. }
  destruct exact_index as [i|]; simpl in *.
  - change L1 with L. destruct (led_lineages L !! i) as [l|] eqn:Hi; [|by right; eauto].
    left. exists L, i, l. destruct (Hexact i l eq_refl Hi) as [Hc Hf].
    split; [|done]. split_and!; eauto.
  - destruct (Hnone eq_refl) as [Hitem Hresp].
    case_match eqn:Hidx; [|by right; eauto].
    destruct (led_lineages L1 !! n) as [l|] eqn:Hi; [|by right; eauto].
    left. exists L1, n, l. split; [|done]. split_and!; [done|done|..].
    + intros r' Er Hl Hin.
      assert (Hin' : r' ∈ bound_responses (led_lineages L)).
      { destruct HL1 as [->|(cue & _ & Heq)]; [done|]. rewrite Heq in Hin.
        by eapply record_source_bound. }
      apply elem_of_bound in Hin' as (l' & Hl' & Hr').
      by eapply response_index_None.
    + right. split_and!; [done| |done].
      assert (Hopen : negb (rl_completed l) = true).
      { assert (fifo_index (led_lineages L1) = Some n
                ∨ fallback_index fb (led_lineages L1) = Some n) as Hf.
        { revert Hidx. unfold or_else. repeat case_match; intros; simplify_eq; auto. }
        destruct Hf as [Hf|Hf]; apply position_Some in Hf as (y & Hy & Hp & _);
          simplify_eq; [done|]. by apply andb_prop in Hp as [? _]. }
      by apply negb_true_iff in Hopen.
Qed.
End BindProofs.

Lemma position_lookup {A} (p : A → bool) ls i l :
  position p ls = Some i → ls !! i = Some l → p l = true.
Proof. intros (y & Hy & Hp & _)%position_Some Hl. by simplify_eq. Qed.

Lemma response_index_hit r ls i l :
  response_index r ls = Some i → ls !! i = Some l →
  rl_response_id l = r ∧ is_some r = true.
Proof.
  intros Hi Hl. pose proof (position_lookup _ _ _ _ Hi Hl) as Hp. simpl in Hp.
  apply andb_prop in Hp as [Hs Hp]. unfold opt_eqb in Hp.
  by apply bool_decide_eq_true in Hp.
Qed.

(** A response found in the ledger is not free, so an exact match on it never
    fills the response id. *)
Lemma response_hit_bound r ls i l r' :
  response_index r ls = Some i → ls !! i = Some l → rl_response_id l = None →
  r = Some r' → r' ∉ bound_responses ls.
Proof. intros Hi Hl Hn ->. destruct (response_index_hit _ _ _ _ Hi Hl) as [? _]. congruence. Qed.

Lemma response_miss_free r ls r' :
  response_index r ls = None → r = Some r' → r' ∉ bound_responses ls.
Proof. intros Hi Hr (l & Hl & Hr2)%elem_of_bound. by eapply response_index_None. Qed.

Lemma bind_normalized_shape r s t fb L :
  (∃ L1 i l, chosen r s t fb L L1 i l ∧ bind_normalized r s t fb L =
     (Some (fill_ids r s t l), L1 <| led_lineages ::= <[i := fill_ids r s t l]> |>))
  ∨ (∃ L1, (L1 = L ∨ ∃ cue, fb = Some cue ∧ L1 = record_source cue None L) ∧
       bind_normalized r s t fb L = (None, L1)).
Proof.
  unfold bind_normalized. cbv zeta.
  destruct (response_index r (led_lineages L)) as [ri|] eqn:Eresp;
    [|destruct (item_index s t (led_lineages L)) as [ii|] eqn:Eitem];
    [destruct (item_index s t (led_lineages L)) as [ii|] eqn:Eitem|..]; simpl;
    rewrite ?andb_false_r, ?andb_true_r; simpl.
  - case_bool_decide as Heq; simpl; [|by right; eauto]. simplify_eq.
    case_match eqn:El; [|by right; eauto]. case_match eqn:Ec; [by right; eauto|].
    apply bind_owner_shape; [|done]. intros i l' [= <-] Hl'.
    rewrite El in Hl'. injection Hl' as <-. eauto using response_hit_bound.
  - case_match eqn:El; [|by right; eauto]. case_match eqn:Ec; [by right; eauto|].
    apply bind_owner_shape; [|done]. intros i l' [= <-] Hl'.
    rewrite El in Hl'. injection Hl' as <-. eauto using response_hit_bound.
  - case_match eqn:El; [|by right; eauto]. case_match eqn:Ec; [by right; eauto|].
    apply bind_owner_shape; [|done]. intros i l' [= <-] Hl'.
    rewrite El in Hl'. injection Hl' as <-. eauto using response_miss_free.
  - destruct (has_item_lineage s t) eqn:Hitem; [by right; eauto|].
    apply bind_owner_shape; [done|]. by intros _.
Qed.

Lemma fill_ids_fields r s t l :
  rl_session_generation (fill_ids r s t l) = rl_session_generation l ∧
  rl_cue_id (fill_ids r s t l) = rl_cue_id l ∧
  rl_completed (fill_ids r s t l) = rl_completed l ∧
  rl_response_id (fill_ids r s t l) = or_else (rl_response_id l) r ∧
  rl_source_item_id (fill_ids r s t l) = or_else (rl_source_item_id l) s ∧
  rl_translation_item_id (fill_ids r s t l) = or_else (rl_translation_item_id l) t.
Proof. by destruct l as [g c [?|] [?|] [?|] d]. Qed.

(** Giving an unbound lineage a response id no lineage carries. *)
Lemma NoDup_bound_insert ls i l l' :
  ls !! i = Some l → NoDup (bound_responses ls) →
  (rl_response_id l' = rl_response_id l ∨
   rl_response_id l = None ∧
     ∀ r, rl_response_id l' = Some r → r ∉ bound_responses ls) →
  NoDup (bound_responses (<[i := l']> ls)).
Proof.
  intros Hi HN [Hr|[Hn Hf]].
  { by rewrite (bound_responses_insert_same _ _ l). }
  rewrite insert_take_drop by by eapply lookup_lt_Some.
  rewrite <-(take_drop_middle _ _ _ Hi) in HN, Hf.
  unfold bound_responses in *. rewrite omap_app in *. csimpl in *.
  rewrite Hn in *. destruct (rl_response_id l') as [r|]; [|done].
  specialize (Hf r eq_refl). rewrite <-Permutation_middle. constructor; [|done]. done.
Qed.

Lemma bind_inv r s t fb L :
  id_ok r → id_ok s → id_ok t → ledger_inv L →
  ledger_inv (bind_normalized r s t fb L).2.
Proof.
  intros Hr Hs Ht HL.
  assert (∀ L1, (L1 = L ∨ ∃ cue, fb = Some cue ∧ L1 = record_source cue None L) →
            ledger_inv L1) as HL1.
  { intros L1 [->|(cue & _ & ->)]; [done|by apply record_source_inv]. }
  destruct (bind_normalized_shape r s t fb L) as
    [(L1 & i & l & (Hshape & Hi & Hfresh & _) & ->)|(L1 & Hshape & ->)]; [|by apply HL1].
  destruct (HL1 L1 Hshape) as [HF HN HC].
  destruct (fill_ids_fields r s t l) as (Fg & Fc & Fd & Fr & Fs & Ft).
  assert (Hok : lineage_ok (led_session_generation L1) l).
  { rewrite Forall_lookup in HF. by eapply HF. }
  split; simpl.
  - apply Forall_insert; [done|]. destruct Hok as [H1 H2 H3 H4 H5].
    split; rewrite ?Fg, ?Fd, ?Fr, ?Fs, ?Ft; [done|..].
    + by destruct (rl_source_item_id l).
    + by destruct (rl_translation_item_id l).
    + by destruct (rl_response_id l).
    + intros [x Hx]%H5. rewrite Hx. by eexists.
  - eapply NoDup_bound_insert; [done|done|]. rewrite Fr.
    destruct (rl_response_id l) as [x|] eqn:El; [by left|right]. split; [done|].
    simpl. intros r' ->. by apply Hfresh.
  - rewrite (count_if_insert_same rl_completed _ _ l); done.
Qed.

Lemma sublist_filter_both {A} (P : A → Prop) `{!∀ x, Decision (P x)} l k :
  l `sublist_of` k → filter P l `sublist_of` filter P k.
Proof.
  induction 1 as [|x l k Hs IH|x l k Hs IH]; [done|..]; rewrite !filter_cons; case_decide;
    eauto using sublist_skip, sublist_cons.
Qed.

Lemma complete_inv r L : ledger_inv L → ledger_inv (complete_response r L).
Proof.
  intros [HF HN HC]. unfold complete_response. cbv zeta.
  case_match eqn:E; [|by apply prune_inv].
  pose proof (position_Some _ _ _ E) as (l & Hl & Hp & _).
  apply andb_prop in Hp as [Hr Hp]. unfold opt_eqb in Hp. apply bool_decide_eq_true in Hp.
  assert (Hok : lineage_ok (led_session_generation L) l).
  { rewrite Forall_lookup in HF. by eapply HF. }
  apply prune_inv; simpl; rewrite (alter_as_insert _ _ _ _ Hl).
  - apply Forall_insert; [done|]. destruct Hok. split; simpl; try done.
    intros _. rewrite Hp. by destruct (normalized_id r).
  - by rewrite (bound_responses_insert_same _ _ l).
Qed.

Lemma ledger_exec_inv o L : ledger_inv L → ledger_inv (exec_op o L).
Proof.
  intros HL. destruct o as [g|cue src|src|r s t f|r|]; simpl.
  - unfold set_generation. case_bool_decide; [done|].
    split; simpl; [done|constructor|]. unfold count_if, MAX_COMPLETED_RESPONSE_LINEAGES.
    simpl. lia.
  - by apply record_source_inv.
  - destruct HL as [HF HN HC]. split; simpl.
    + rewrite Forall_forall in *. intros l [_ Hl]%list_elem_of_filter. auto.
    + eapply sublist_NoDup; [exact HN|]. apply sublist_omap, sublist_filter.
    + etransitivity; [|exact HC]. unfold count_if. apply sublist_length.
      apply sublist_filter_both, sublist_filter.
  - apply bind_inv; auto using id_ok_normalized.
  - by apply complete_inv.
  - split; simpl; [done|constructor|]. unfold count_if, MAX_COMPLETED_RESPONSE_LINEAGES.
    simpl. lia.
Qed.

#[export] Instance ledger_invariant :
  Invariant (λ L, L = ledger_default) (λ L o L', L' = exec_op o L) ledger_inv.
Proof.
  split.
  - intros L ->. split; simpl; [done|constructor|].
    unfold count_if, MAX_COMPLETED_RESPONSE_LINEAGES. simpl. lia.
  - intros L o L' HL ->. by apply ledger_exec_inv.
Qed.

(** ** Properties *)

(** [l'] is [l] with some of its empty ids filled in. *)
Definition lineage_le (l l' : ResponseLineage) : Prop :=
  rl_session_generation l' = rl_session_generation l ∧
  rl_cue_id l' = rl_cue_id l ∧ rl_completed l' = rl_completed l ∧
  (∀ x, rl_source_item_id l = Some x → rl_source_item_id l' = Some x) ∧
  (∀ x, rl_translation_item_id l = Some x → rl_translation_item_id l' = Some x) ∧
  (∀ x, rl_response_id l = Some x → rl_response_id l' = Some x).

Lemma lineage_le_refl l : lineage_le l l.
Proof. by split_and!. Qed.
Lemma fill_ids_le r s t l : lineage_le l (fill_ids r s t l).
Proof.
  destruct (fill_ids_fields r s t l) as (Fg & Fc & Fd & Fr & Fs & Ft).
  unfold lineage_le. rewrite Fg, Fc, Fd, Fr, Fs, Ft. split_and!; try done; by intros x ->.
Qed.

Lemma drop_completed_keeps n ls l :
  l ∈ ls → rl_completed l = false → l ∈ drop_completed n ls.
Proof.
  intros Hl Hc. assert (l ∈ filter (λ l, rl_completed l = false) (drop_completed n ls)) as H.
  { rewrite drop_completed_unfinished. by apply list_elem_of_filter. }
  by apply list_elem_of_filter in H as [_ H].
Qed.

Lemma insert_le (ls : list ResponseLineage) i l l' x :
  ls !! i = Some l → lineage_le l l' → x ∈ ls → ∃ y, y ∈ <[i := l']> ls ∧ lineage_le x y.
Proof.
  intros Hi Hle (j & Hj)%list_elem_of_lookup. destruct (decide (j = i)) as [->|Hne].
  - simplify_eq. exists l'. split; [|done]. apply list_elem_of_lookup. exists i.
    apply list_lookup_insert_eq. by eapply lookup_lt_Some.
  - exists x. split; [|apply lineage_le_refl]. apply list_elem_of_lookup. exists j.
    by rewrite list_lookup_insert_ne.
Qed.

(** Without a source id, recording keeps every unfinished lineage as it is: the
    lineage it finds already has that cue id. *)
Lemma record_cue_keeps cue L x :
  x ∈ led_lineages L → rl_completed x = false →
  x ∈ led_lineages (record_source cue None L).
Proof.
  intros Hx Hc. unfold record_source. simpl. case_match eqn:E.
  - apply position_Some in E as (l & Hl & Hp & _). rewrite orb_false_r in Hp.
    apply bool_decide_eq_true in Hp. simpl. rewrite (alter_as_insert _ _ _ _ Hl).
    rewrite list_insert_id; [done|]. rewrite Hl. by destruct l as [g c [?|] t r d]; simplify_eq/=.
  - rewrite prune_lineages. apply drop_completed_keeps; [|done]. simpl.
    apply elem_of_app. by left.
Qed.

(** Response ids identify positions. *)
Lemma bound_response_unique ls i j l k x :
  NoDup (bound_responses ls) → ls !! i = Some l → ls !! j = Some k →
  rl_response_id l = Some x → rl_response_id k = Some x → i = j.
Proof.
  revert i j. induction ls as [|y ls IH]; [done|].
  intros i j HN Hi Hj Hl Hk. unfold bound_responses in HN. csimpl in HN.
  assert (∀ n z, ls !! n = Some z → rl_response_id z = Some x → rl_response_id y = Some x → False).
  { intros n z Hn Hz Hy. rewrite Hy in HN. apply NoDup_cons in HN as [HN _].
    destruct HN. apply elem_of_bound. exists z. split; [by eapply list_elem_of_lookup_2|done]. }
  destruct i as [|i], j as [|j]; simplify_eq/=; try done; [exfalso; eauto..|].
  f_equal. eapply IH; [|done..]. destruct (rl_response_id y); [|done].
  by apply NoDup_cons in HN as [_ HN].
Qed.

Lemma bind_returns_member r s t fb L l L' :
  bind_normalized r s t fb L = (Some l, L') → l ∈ led_lineages L'.
Proof.
  intros Hb. destruct (bind_normalized_shape r s t fb L) as
    [(L1 & i & l1 & (_ & Hi & _) & Heq)|(L1 & _ & Heq)]; rewrite Heq in Hb; [|done].
  injection Hb as <- <-. simpl. apply list_elem_of_lookup. exists i.
  apply list_lookup_insert_eq. by eapply lookup_lt_Some.
Qed.

(** In every state a session can bring its ledger to, all lineages belong
    to the current generation and carry normalised ids, no response id is
    bound to two lineages, every completed lineage has a response, and at
    most 64 completed lineages are kept. *)
Theorem ledger_reachable_inv L : ledger_reachable L → ledger_inv L.
Proof. apply reachable_inv. apply _. Qed.

Lemma ledger_reachable_inv_witness :
  ledger_inv (exec_op (OpBind (Some " r1 ") (Some "s1") None None)
    (exec_op (OpRecordSource "cue" (Some "s1")) ledger_default)).
Proof.
  apply ledger_reachable_inv. eapply reach_step; [|reflexivity].
  eapply reach_step; [|reflexivity]. by apply reach_init.
Defined.

(** A successful binding never contradicts the ids the event carries: the
    lineage it returns has exactly the given source and translation ids, and,
    when the event names an item, exactly the given response id. An event
    that names an unknown item is therefore never given the queue head. *)
Theorem bind_response_exact r s t fb L l L' :
  bind_response r s t fb L = (Some l, L') →
  (∀ s', normalized_id s = Some s' → rl_source_item_id l = Some s') ∧
  (∀ t', normalized_id t = Some t' → rl_translation_item_id l = Some t') ∧
  (∀ r', normalized_id r = Some r' →
     is_Some (normalized_id s) ∨ is_Some (normalized_id t) → rl_response_id l = Some r') ∧
  l ∈ led_lineages L'.
Proof.
  unfold bind_response.
  generalize (normalized_id r) (normalized_id s) (normalized_id t). clear r s t.
  intros r s t Hb. pose proof (bind_returns_member _ _ _ _ _ _ _ Hb) as Hin.
  destruct (bind_normalized_shape r s t fb L) as
    [(L1 & i & l1 & (_ & Hi & _ & Hc) & Heq)|(L1 & _ & Heq)]; rewrite Heq in Hb; [|done].
  injection Hb as <- _.
  destruct (fill_ids_fields r s t l1) as (_ & _ & _ & Fr & Fs & Ft).
  rewrite Fr, Fs, Ft. split_and!; last done.
  all: destruct Hc as [[Hc ->]|(Hitem & _ & _)];
    [unfold conflicts in Hc; apply orb_false_elim in Hc as [[Hs Ht]%orb_false_elim Hr]
    |destruct s, t; try discriminate Hitem; try done; naive_solver].
  - intros s' ->. unfold opt_eqb in Hs. apply negb_false_iff, bool_decide_eq_true in Hs.
    by rewrite Hs.
  - intros t' ->. destruct (rl_translation_item_id l1) as [x|]; [|done]. simpl.
    apply negb_false_iff, bool_decide_eq_true in Ht. by subst.
  - intros r' -> _. destruct (rl_response_id l1) as [x|]; [|done]. simpl.
    apply negb_false_iff, bool_decide_eq_true in Hr. by subst.
Qed.

Lemma bind_response_exact_witness :
  rl_translation_item_id
    (mk_lineage 7 "cue-two" (Some "source-two") (Some "translation-two")
       (Some "response-two") false) = Some "translation-two".
Proof.
  refine (proj1 (proj2 (bind_response_exact (Some "response-two") (Some "source-two")
    (Some " translation-two ") None
    (record_source "cue-two" (Some "source-two")
       (record_source "cue-one" (Some "source-one") (set_generation 7 ledger_default)))
    _ _ _)) "translation-two" _); vm_compute; reflexivity.
Defined.

(** Once a response id is bound, later events that carry only that id
    resolve to the same lineage and change nothing, whatever the fallback cue
    and even after the response completed. *)
Theorem bind_response_stable r s t fb fb' L l L' :
  ledger_inv L →
  bind_response r s t fb L = (Some l, L') →
  is_Some (normalized_id r) → rl_response_id l = normalized_id r →
  bind_response r None None fb' L' = (Some l, L').
Proof.
  intros HL Hb [r' Hr'] Hl.
  assert (HL' : ledger_inv L').
  { replace L' with (exec_op (OpBind r s t fb) L) by (simpl; by rewrite Hb).
    by apply ledger_exec_inv. }
  assert (Hin : l ∈ led_lineages L') by by eapply bind_returns_member.
  rewrite Hr' in Hl. clear Hb. unfold bind_response. rewrite Hr'. simpl.
  unfold bind_normalized. cbv zeta.
  destruct (response_index (Some r') (led_lineages L')) as [i|] eqn:Eresp; last first.
  { exfalso. by eapply (response_index_None (Some r')). }
  assert (item_index None None (led_lineages L') = None) as ->.
  { unfold item_index. by rewrite !(proj2 (position_None _ _)) by done. }
  simpl. destruct (led_lineages L' !! i) as [l2|] eqn:Hi.
  2:{ apply position_Some in Eresp as (x & Hx & _). congruence. }
  destruct (response_index_hit _ _ _ _ Eresp Hi) as [Hr2 _].
  apply list_elem_of_lookup in Hin as (j & Hj).
  assert (i = j) as -> by by eapply bound_response_unique; [apply HL'|..].
  assert (l2 = l) as -> by congruence.
  unfold conflicts. rewrite Hl. simpl. rewrite bool_decide_true by done. simpl.
  unfold bind_owner. cbv zeta. simpl. rewrite Hi.
  assert (fill_ids (Some r') None None l = l) as ->.
  { destruct l as [g c [?|] [?|] [?|] d]; by simplify_eq/=. }
  rewrite list_insert_id by done. by destruct L'.
Qed.

Definition demo_ledger : ResponseLedger :=
  record_source "cue-two" (Some "source-two")
    (record_source "cue-one" (Some "source-one") ledger_default).

Lemma demo_ledger_inv : ledger_inv demo_ledger.
Proof.
  apply (ledger_exec_inv (OpRecordSource "cue-two" (Some "source-two"))).
  apply (ledger_exec_inv (OpRecordSource "cue-one" (Some "source-one"))).
  by apply (@inv_init _ _ _ _ _ ledger_invariant).
Qed.

Lemma bind_response_stable_witness :
  (bind_response (Some "response-one") None None None
    (bind_response (Some "response-one") None (Some "t1") (Some "cue-two")
       (bind_response (Some "response-one") None None None demo_ledger).2).2).1
  = Some (mk_lineage 0 "cue-one" (Some "source-one") (Some "t1") (Some "response-one") false).
Proof.
  erewrite (bind_response_stable (Some "response-one") None (Some "t1") (Some "cue-two") None
    (bind_response (Some "response-one") None None None demo_ledger).2).
  - reflexivity.
  - apply (ledger_exec_inv (OpBind (Some "response-one") None None None)), demo_ledger_inv.
  - vm_compute. reflexivity.
  - vm_compute. eauto.
  - vm_compute. reflexivity.
Defined.

(** The pruning loop terminates with at most 64 completed lineages; it is
    exactly "drop the oldest completed ones", and it keeps every unfinished
    lineage in queue order. *)
Theorem prune_drops_oldest_completed L :
  let L' := prune_completed_lineages L in
  led_lineages L' = drop_completed (count_if rl_completed (led_lineages L) - 64) (led_lineages L) ∧
  count_if rl_completed (led_lineages L') = Nat.min (count_if rl_completed (led_lineages L)) 64 ∧
  filter (λ l, rl_completed l = false) (led_lineages L') =
    filter (λ l, rl_completed l = false) (led_lineages L).
Proof.
  simpl. pose proof (prune_lineages L) as Hp. simpl in Hp. rewrite Hp.
  split_and!; [done| |apply drop_completed_unfinished].
  rewrite count_drop_completed. unfold MAX_COMPLETED_RESPONSE_LINEAGES. lia.
Qed.

(** Binding a response only ever fills empty ids: every unfinished lineage
    is still there afterwards with all the ids it had. Discarding an
    unanswered source removes only lineages with that source and no response. *)
Theorem bind_response_only_fills r s t fb L x :
  x ∈ led_lineages L → rl_completed x = false →
  (∃ y, y ∈ led_lineages (bind_response r s t fb L).2 ∧ lineage_le x y) ∧
  (∀ src, x ∉ led_lineages (discard_unanswered_source src L).2 →
     rl_source_item_id x = Some src ∧ rl_response_id x = None).
Proof.
  intros Hx Hc. split.
  - unfold bind_response.
    generalize (normalized_id r) (normalized_id s) (normalized_id t). clear r s t. intros r s t.
    assert (∀ L1, (L1 = L ∨ ∃ cue, fb = Some cue ∧ L1 = record_source cue None L) →
      x ∈ led_lineages L1) as HL1.
    { intros L1 [->|(cue & -> & ->)]; [done|by apply record_cue_keeps]. }
    destruct (bind_normalized_shape r s t fb L) as
      [(L1 & i & l & (Hshape & Hi & _) & ->)|(L1 & Hshape & ->)];
      [|eauto using lineage_le_refl].
    exact (insert_le _ _ _ _ _ Hi (fill_ids_le r s t l) (HL1 L1 Hshape)).
  - intros src Hnot. simpl in Hnot. rewrite list_elem_of_filter in Hnot.
    destruct (unanswered src x) eqn:E; [|naive_solver].
    unfold unanswered in E. apply andb_prop in E as [[Hs Hr]%andb_prop _].
    unfold opt_eqb in Hs. apply bool_decide_eq_true in Hs. split; [done|].
    by destruct (rl_response_id x).
Qed.

Lemma bind_response_only_fills_witness :
  ∃ y, y ∈ led_lineages (bind_response (Some "r") None (Some "t") None demo_ledger).2 ∧
    lineage_le (mk_lineage 0 "cue-one" (Some "source-one") None None false) y.
Proof.
  refine (proj1 (bind_response_only_fills _ _ _ _ demo_ledger _ _ _));
    [vm_compute; left|reflexivity].
Defined.
