(* ===== verification/WatchTerminal.v ===== *)
(** * The strict Watch terminal ledger

    Models [audio/state/watch_terminal_lifecycle.rs] with its
    [input_ownership.rs] and [store_api.rs]: the ledger that decides whether a
    paid Watch run ended in a provable order (provider input, session.finish,
    session.finished, response terminals, physical renderer receipts).

    [HashMap]s and [HashSet]s are [gmap]s and [gset]s. The clock is an
    argument: each [now] is one reading of [unix_ms()]. A panic while the
    ledger's mutex is held poisons it ([lc_poisoned]). *)
From S2P Require Import Prelude RustStr.

(** ** Evidence records *)
Record StrictWatchTerminalIdentity := mk_identity {
  ti_run_marker : string; ti_cell_id : string; ti_lease_id : string
}.
Record StrictWatchProviderAppendEvidence := mk_append {
  pa_source_sequence : Z; pa_observed_at_unix_ms : Z; pa_append_index : Z;
  pa_samples : Z; pa_accepted_samples_total : Z
}.
Record StrictWatchSessionUpdatedEvidence := mk_updated {
  su_source_sequence : Z; su_observed_at_unix_ms : Z;
  su_session_identity_sha256 : string; su_sent_session_config_sha256 : string;
  su_echoed_session_config_sha256 : string
}.
Record StrictWatchSessionFinishEvidence := mk_finish {
  sf_source_sequence : Z; sf_observed_at_unix_ms : Z; sf_finish_count : Z;
  sf_last_provider_append_source_sequence : Z;
  sf_provider_input_closed_source_sequence : Z;
  sf_provider_writes_after_finish : Z
}.
Record StrictWatchProviderTerminalEvidence := mk_terminal {
  pt_source_sequence : Z; pt_observed_at_unix_ms : Z; pt_finish_count : Z;
  pt_provider_writes_after_finish : Z
}.
Record StrictWatchResponseTerminalEvidence := mk_response_terminal {
  rt_stage : string; rt_source_sequence : Z; rt_observed_at_unix_ms : Z;
  rt_response_id : string
}.
Record StrictWatchRendererAckEvidence := mk_ack_evidence {
  re_source_sequence : Z; re_observed_at_unix_ms : Z; re_cue_id : string;
  re_response_id : string; re_cue_sequence : Z; re_last_cue_sequence : Z;
  re_receipt_authority : string; re_receipt_id : string
}.
Record StrictWatchTerminalLifecycleSnapshot := mk_snapshot {
  sn_identity : StrictWatchTerminalIdentity;
  sn_session_updated_received : StrictWatchSessionUpdatedEvidence;
  sn_last_provider_append : StrictWatchProviderAppendEvidence;
  sn_session_finish_sent : StrictWatchSessionFinishEvidence;
  sn_session_finished_received : StrictWatchProviderTerminalEvidence;
  sn_last_response_terminal : StrictWatchResponseTerminalEvidence;
  sn_final_renderer_ack : StrictWatchRendererAckEvidence
}.
Inductive StrictWatchOpenInputPhase :=
| PhaseOpen | PhaseQuiescentApproved | PhaseCaptureClosed | PhaseFinishSent | PhaseFinished.
#[export] Instance phase_eq_dec : EqDecision StrictWatchOpenInputPhase.
Proof. solve_decision. Defined.
(** The derived [Debug] rendering. *)
Definition show_phase (p : StrictWatchOpenInputPhase) : string :=
  match p with
  | PhaseOpen => "Open"
  | PhaseQuiescentApproved => "QuiescentApproved"
  | PhaseCaptureClosed => "CaptureClosed"
  | PhaseFinishSent => "FinishSent"
  | PhaseFinished => "Finished"
  end.
Record StrictWatchActivityEvidence := mk_activity {
  ae_source_sequence : Z; ae_activity_generation : Z;
  ae_observed_at_unix_ms : Z; ae_owner_id : string
}.
Record RendererAck := mk_renderer_ack {
  ack_source_sequence : Z; ack_observed_at_unix_ms : Z; ack_cue_id : string;
  ack_response_id : string; ack_cue_sequence : Z; ack_receipt_authority : string;
  ack_receipt_id : string
}.
Record RendererFailure := mk_renderer_failure {
  rf_cue_id : string; rf_response_id : string; rf_cue_sequence : Z; rf_reason : string
}.

(** ** The ledger state *)
Record WatchState := mk_watch {
  w_identity : StrictWatchTerminalIdentity;
  w_aec_open_input_drain : bool;
  w_provider_call_started_qpc_100ns : option Z;
  w_provider_session_id : option string;
  w_open_input_phase : StrictWatchOpenInputPhase;
  w_activity_generation : Z;
  w_terminal_violation : option string;
  w_active_speech : gset string;
  w_input_response_owners : gmap string (option string);
  w_active_responses : gset string;
  w_last_input_speech : option StrictWatchActivityEvidence;
  w_last_output : option StrictWatchActivityEvidence;
  w_last_physical_started : option StrictWatchActivityEvidence;
  w_last_physical_frame : option StrictWatchActivityEvidence;
  w_last_physical_completed : option StrictWatchActivityEvidence;
  w_media_complete : option StrictWatchActivityEvidence;
  w_output_quiescent : option StrictWatchActivityEvidence;
  w_capture_closed : option StrictWatchActivityEvidence;
  w_next_source_sequence : Z;
  w_append_count : Z;
  w_accepted_samples_total : Z;
  w_provider_writes_after_finish : Z;
  w_finish_count : Z;
  w_session_updated_received : option StrictWatchSessionUpdatedEvidence;
  w_last_provider_append : option StrictWatchProviderAppendEvidence;
  w_provider_input_closed_source_sequence : option Z;
  w_session_finish_sent : option StrictWatchSessionFinishEvidence;
  w_session_finished_received : option StrictWatchProviderTerminalEvidence;
  w_last_response_audio_done : option StrictWatchResponseTerminalEvidence;
  w_last_response_done : option StrictWatchResponseTerminalEvidence;
  w_response_terminals : gmap string StrictWatchResponseTerminalEvidence;
  w_response_audio_done_ids : gset string;
  w_response_done_ids : gset string;
  w_failed_response_statuses : gmap string string;
  w_next_cue_sequence : Z;
  w_cue_sequences : gmap string Z;
  w_cue_response_ids : gmap string string;
  w_last_cue_sequence : Z;
  w_renderer_acks : gmap Z RendererAck;
  w_renderer_failures : gmap Z RendererFailure;
  w_renderer_receipt_ids : gset string
}.
#[export] Instance watch_settable : Settable WatchState := λ s,
  mk_watch (w_identity s) (w_aec_open_input_drain s) (w_provider_call_started_qpc_100ns s)
    (w_provider_session_id s) (w_open_input_phase s) (w_activity_generation s)
    (w_terminal_violation s) (w_active_speech s) (w_input_response_owners s)
    (w_active_responses s) (w_last_input_speech s) (w_last_output s)
    (w_last_physical_started s) (w_last_physical_frame s) (w_last_physical_completed s)
    (w_media_complete s) (w_output_quiescent s) (w_capture_closed s)
    (w_next_source_sequence s) (w_append_count s) (w_accepted_samples_total s)
    (w_provider_writes_after_finish s) (w_finish_count s) (w_session_updated_received s)
    (w_last_provider_append s) (w_provider_input_closed_source_sequence s)
    (w_session_finish_sent s) (w_session_finished_received s)
    (w_last_response_audio_done s) (w_last_response_done s) (w_response_terminals s)
    (w_response_audio_done_ids s) (w_response_done_ids s) (w_failed_response_statuses s)
    (w_next_cue_sequence s) (w_cue_sequences s) (w_cue_response_ids s)
    (w_last_cue_sequence s) (w_renderer_acks s) (w_renderer_failures s)
    (w_renderer_receipt_ids s).

(** The state [begin] installs. *)
Definition initial_watch (identity : StrictWatchTerminalIdentity) : WatchState :=
  mk_watch identity false None None PhaseOpen 0 None ∅ ∅ ∅ None None None None None
    None None None 0 0 0 0 0 None None None None None None None ∅ ∅ ∅ ∅ 0 ∅ ∅ 0 ∅ ∅ ∅.

(** ** Methods of [StrictWatchTerminalLifecycleState] *)
Definition pending_input_segments (s : WatchState) : Z :=
  Z.of_nat (count_if (λ p : string * option string,
    match p.2 with
    | None => true
    | Some id => bool_decide (id ∉ w_response_done_ids s)
    end) (map_to_list (w_input_response_owners s))).

(** [terminal_violation.get_or_insert(error)]. *)
Definition get_or_insert_violation (error : string) : M WatchState unit :=
  modify (λ s, s <| w_terminal_violation ::= λ v,
    match v with Some e => Some e | None => Some error end |>).

Definition next_source_sequence : M WatchState Z :=
  let* n := gets w_next_source_sequence in
  match checked_add n 1 with
  | None => panic "strict Watch terminal source sequence exhausted"
  | Some n' => modify (λ s, s <| w_next_source_sequence := n' |>) ;;; ret n'
  end.

Definition activity (owner_id : string) (fresh : bool) (now : Z)
    : M WatchState StrictWatchActivityEvidence :=
  let* s := gets id in
  if w_aec_open_input_drain s && fresh && negb (bool_decide (w_open_input_phase s = PhaseOpen))
  then
    let error := "watch.aec-output-after-quiescence: owner=" +:+ owner_id +:+ " phase="
                 +:+ show_phase (w_open_input_phase s) in
    get_or_insert_violation error ;;; fail error
  else
    match checked_add (w_activity_generation s) 1 with
    | None => fail "strict Watch activity generation exhausted"
    | Some g =>
        modify (λ s, s <| w_activity_generation := g |>) ;;;
        let* seq := next_source_sequence in
        ret (mk_activity seq g now owner_id)
    end.

(** [check_open_input_failure(&self)]: a pure check of the state. *)
Definition open_input_failure (s : WatchState) : option string :=
  match w_terminal_violation s with
  | Some error => Some error
  | None =>
      if w_aec_open_input_drain s
         && match w_output_quiescent s with
            | Some sealed =>
                negb (ae_activity_generation sealed =? w_activity_generation s)
            | None => false
            end
      then Some "watch.aec-activity-generation-changed-after-quiescence"
      else if negb (bool_decide (w_failed_response_statuses s = ∅))
      then Some "watch.aec-provider-response-failed"
      else if negb (bool_decide (w_renderer_failures s = ∅))
      then Some "watch.aec-physical-playback-failed"
      else None
  end.
Definition check_open_input_failure : M WatchState unit :=
  let* e := gets open_input_failure in
  match e with Some error => fail error | None => ret tt end.

Definition cue_sequence (cue_id response_id : string) (now : Z) : M WatchState Z :=
  fail_if (is_blank cue_id) "strict Watch renderer cue id is empty" ;;;
  fail_if (is_blank response_id) "strict Watch renderer cue response identity is empty" ;;;
  let* s := gets id in
  match w_cue_sequences s !! cue_id with
  | Some sequence =>
      fail_if (negb (bool_decide (w_cue_response_ids s !! cue_id = Some response_id)))
        ("strict Watch renderer cue changed response lineage: " +:+ cue_id) ;;;
      ret sequence
  | None =>
      when (w_aec_open_input_drain s) (activity cue_id true now ;;; ret tt) ;;;
      match checked_add (w_next_cue_sequence s) 1 with
      | None => fail "strict Watch renderer cue sequence exhausted"
      | Some n =>
          modify (λ s, s <| w_next_cue_sequence := n |>
                         <| w_last_cue_sequence := n |>
                         <| w_cue_sequences ::= <[cue_id := n]> |>
                         <| w_cue_response_ids ::= <[cue_id := response_id]> |>) ;;;
          ret n
      end
  end.

(** ** The locked ledger *)
Record AecLifecycleEvent := mk_aec_event { av_status : string; av_session_id : string }.
Record WatchLifecycle := mk_lifecycle {
  lc_state : option WatchState;
  lc_poisoned : bool;
  (** the provider-lifecycle records handed to the AEC diagnostic tap *)
  lc_aec_events : list AecLifecycleEvent
}.
#[export] Instance lifecycle_settable : Settable WatchLifecycle := λ l,
  mk_lifecycle (lc_state l) (lc_poisoned l) (lc_aec_events l).
Definition lifecycle_default : WatchLifecycle := mk_lifecycle None false [].

Definition with_active_mut {A} (operation : M WatchState A) (inactive : A)
    : M WatchLifecycle A := λ l,
  if lc_poisoned l then (Err (Panic "strict Watch terminal lifecycle state poisoned"), l)
  else match lc_state l with
       | None => (Ok inactive, l)
       | Some s =>
           let '(o, s') := operation s in
           (o, l <| lc_state := Some s' |> <| lc_poisoned := is_panic o |>)
       end.

Definition begin (identity : StrictWatchTerminalIdentity) : M WatchLifecycle unit := λ l,
  if is_blank (ti_run_marker identity) || is_blank (ti_cell_id identity)
     || is_blank (ti_lease_id identity)
  then (Err (Fail "strict Watch terminal lifecycle identity is incomplete"), l)
  else if lc_poisoned l
  then (Err (Panic "strict Watch terminal lifecycle state poisoned"), l)
  else match lc_state l with
       | Some _ => (Err (Fail "strict Watch terminal lifecycle was already initialized"), l)
       | None => (Ok tt, l <| lc_state := Some (initial_watch identity) |>)
       end.

Definition begin_strict_watch_terminal_lifecycle (run_marker cell_id lease_id : string)
    : M WatchLifecycle unit :=
  begin (mk_identity run_marker cell_id lease_id).

(** ** Handlers of the provider side *)
Definition is_lower_hex (a : Ascii.ascii) : bool :=
  let x := byte_of a in ((48 <=? x) && (x <=? 57)) || ((97 <=? x) && (x <=? 102)).
Definition sha256_digest_ok (digest : string) : bool :=
  (str_len digest =? 64) && forallb is_lower_hex (bytes digest).
Fixpoint check_digests (ds : list (string * string)) : M WatchState unit :=
  match ds with
  | [] => ret tt
  | (label, digest) :: ds =>
      fail_if (negb (sha256_digest_ok digest))
        ("strict Watch " +:+ label +:+ " SHA-256 authority is invalid") ;;;
      check_digests ds
  end.

(** [sha256_hex] is [format!("{:x}", sha2::Sha256::digest(bytes))]. *)
Section WithSha.
Context (sha256_hex : string → string).

Definition session_updated_received (session_identity_sha256 sent_session_config_sha256
    echoed_session_config_sha256 : string) (now : Z) : M WatchState unit :=
  let* s := gets id in
  fail_if (is_Some_b (w_session_updated_received s))
    "strict Watch session.updated was received more than once" ;;;
  fail_if (is_Some_b (w_last_provider_append s))
    "strict Watch session.updated arrived after Provider input began" ;;;
  check_digests [("session identity", session_identity_sha256);
                 ("sent session config", sent_session_config_sha256);
                 ("echoed session config", echoed_session_config_sha256)] ;;;
  fail_if (negb (bool_decide (sent_session_config_sha256 = echoed_session_config_sha256)))
    "strict Watch session.updated does not echo the exact sent session configuration" ;;;
  fail_if (w_aec_open_input_drain s &&
           match w_provider_session_id s with
           | Some provider_session_id =>
               negb (bool_decide (sha256_hex provider_session_id = session_identity_sha256))
           | None => false
           end)
    "watch.aec-session-updated-current-socket-identity-mismatch" ;;;
  let* seq := next_source_sequence in
  modify (λ s, s <| w_session_updated_received := Some
    (mk_updated seq now session_identity_sha256 sent_session_config_sha256
       echoed_session_config_sha256) |>).
Definition record_session_updated_received identity sent echoed now : M WatchLifecycle unit :=
  with_active_mut (session_updated_received identity sent echoed now) tt.
End WithSha.

Definition provider_append (samples now : Z) : M WatchState unit :=
  fail_if (samples =? 0) "strict Watch provider append has zero samples" ;;;
  let* finished := gets (λ s, is_Some_b (w_session_finish_sent s)) in
  if finished then
    modify (λ s, s <| w_provider_writes_after_finish ::= λ n, saturating_add n 1 |>) ;;;
    fail "strict Watch provider append was accepted after session.finish"
  else
    modify (λ s, s <| w_append_count ::= λ n, saturating_add n 1 |>
                   <| w_accepted_samples_total ::= λ n, saturating_add n samples |>) ;;;
    let* seq := next_source_sequence in
    modify (λ s, s <| w_last_provider_append := Some
      (mk_append seq now (w_append_count s) samples (w_accepted_samples_total s)) |>).
Definition record_provider_append samples now : M WatchLifecycle unit :=
  with_active_mut (provider_append samples now) tt.

Definition session_finish_sent (now : Z) : M WatchState unit :=
  let* s := gets id in
  when (w_aec_open_input_drain s)
    (check_open_input_failure ;;;
     fail_if (negb (bool_decide (w_open_input_phase s = PhaseCaptureClosed)))
       "watch.aec-finish-before-approved-capture-close" ;;;
     modify (λ s, s <| w_open_input_phase := PhaseFinishSent |>)) ;;;
  modify (λ s, s <| w_finish_count ::= λ n, saturating_add n 1 |>) ;;;
  let* s := gets id in
  fail_if (negb (w_finish_count s =? 1) || is_Some_b (w_session_finish_sent s))
    "strict Watch session.finish was sent more than once" ;;;
  match w_last_provider_append s with
  | None => fail "strict Watch session.finish has no successful provider append authority"
  | Some last_append =>
      match w_provider_input_closed_source_sequence s with
      | None => fail "strict Watch session.finish has no capture producer completion authority"
      | Some closed =>
          let* seq := next_source_sequence in
          modify (λ s, s <| w_session_finish_sent := Some
            (mk_finish seq now (w_finish_count s) (pa_source_sequence last_append) closed
               (w_provider_writes_after_finish s)) |>)
      end
  end.
Definition record_session_finish_sent now : M WatchLifecycle unit :=
  with_active_mut (session_finish_sent now) tt.

Definition provider_input_closed (now : Z) : M WatchState Z :=
  let* s := gets id in
  fail_if (is_Some_b (w_provider_input_closed_source_sequence s))
    "strict Watch capture producer completion was recorded more than once" ;;;
  when (w_aec_open_input_drain s)
    (check_open_input_failure ;;;
     fail_if (negb (bool_decide (w_open_input_phase s = PhaseQuiescentApproved)))
       "watch.aec-capture-closed-before-quiescence" ;;;
     modify (λ s, s <| w_open_input_phase := PhaseCaptureClosed |>)) ;;;
  let* seq := next_source_sequence in
  modify (λ s, s <| w_capture_closed := Some
                      (mk_activity seq (w_activity_generation s) now "capture-input-fence-owner") |>
                 <| w_provider_input_closed_source_sequence := Some seq |>) ;;;
  ret seq.
Definition record_provider_input_closed now : M WatchLifecycle Z :=
  with_active_mut (provider_input_closed now) 0.

Definition session_finished (now : Z) : M WatchState unit :=
  let* s := gets id in
  fail_if (is_Some_b (w_session_finished_received s))
    "strict Watch session.finished was received more than once" ;;;
  fail_if (negb (is_Some_b (w_session_finish_sent s)))
    "strict Watch session.finished arrived before session.finish" ;;;
  fail_if (negb (is_Some_b (w_last_response_audio_done s))
           && negb (is_Some_b (w_last_response_done s)))
    "strict Watch session.finished has no completed response terminal authority" ;;;
  let* seq := next_source_sequence in
  when (w_aec_open_input_drain s)
    (check_open_input_failure ;;;
     modify (λ s, s <| w_open_input_phase := PhaseFinished |>)) ;;;
  modify (λ s, s <| w_session_finished_received := Some
    (mk_terminal seq now (w_finish_count s) (w_provider_writes_after_finish s)) |>).
Definition record_session_finished_received now : M WatchLifecycle unit :=
  with_active_mut (session_finished now) tt.

(** ** Handlers of the response side *)
Definition response_terminal (stage response_id : string) (now1 now2 : Z)
    : M WatchState unit :=
  fail_if (is_blank response_id) ("strict Watch " +:+ stage +:+ " response identity is empty") ;;;
  let* s := gets id in
  fail_if (is_Some_b (w_session_finished_received s))
    ("strict Watch " +:+ stage +:+ " arrived after session.finished") ;;;
  fail_if (bool_decide (stage = "lastResponseAudioDone")
           && bool_decide (response_id ∈ w_response_done_ids s))
    ("strict Watch lastResponseAudioDone arrived after responseDone for response "
     +:+ response_id) ;;;
  let* first_observation :=
    if bool_decide (stage = "lastResponseAudioDone") then
      modify (λ s, s <| w_response_audio_done_ids ::= λ x, {[response_id]} ∪ x |>) ;;;
      ret (bool_decide (response_id ∉ w_response_audio_done_ids s))
    else if bool_decide (stage = "responseDone") then
      modify (λ s, s <| w_response_done_ids ::= λ x, {[response_id]} ∪ x |>) ;;;
      ret (bool_decide (response_id ∉ w_response_done_ids s))
    else fail ("unsupported strict Watch response stage: " +:+ stage) in
  fail_if (negb first_observation)
    ("strict Watch " +:+ stage +:+ " was received more than once for response "
     +:+ response_id) ;;;
  when (w_aec_open_input_drain s)
    (when (bool_decide (stage = "responseDone"))
       (modify (λ s, s <| w_active_responses ::= λ x, x ∖ {[response_id]} |>)) ;;;
     activity response_id false now1 ;;; ret tt) ;;;
  let* seq := next_source_sequence in
  let evidence := mk_response_terminal stage seq now2 response_id in
  modify (λ s, s <| w_response_terminals ::= <[response_id := evidence]> |>) ;;;
  if bool_decide (stage = "lastResponseAudioDone")
  then modify (λ s, s <| w_last_response_audio_done := Some evidence |>)
  else modify (λ s, s <| w_last_response_done := Some evidence |>).
Definition record_response_terminal stage response_id now1 now2 : M WatchLifecycle unit :=
  with_active_mut (response_terminal stage response_id now1 now2) tt.
Definition record_strict_watch_response_audio_done response_id now1 now2
    : M WatchLifecycle unit :=
  record_response_terminal "lastResponseAudioDone" response_id now1 now2.
Definition record_strict_watch_response_done response_id now1 now2 : M WatchLifecycle unit :=
  record_response_terminal "responseDone" response_id now1 now2.

(** [Option] field reset to [None] when it belongs to the failed response. *)
Definition drop_if_response (response_id : string)
    (e : option StrictWatchResponseTerminalEvidence)
    : option StrictWatchResponseTerminalEvidence :=
  match e with
  | Some ev => if bool_decide (rt_response_id ev = response_id) then None else Some ev
  | None => None
  end.

Definition response_failed (response_id status : string) : M WatchState unit :=
  fail_if (is_blank response_id) "strict Watch failed response identity is empty" ;;;
  fail_if (negb (bool_decide (status = "failed") || bool_decide (status = "incomplete")))
    ("strict Watch response failure status is unsupported: " +:+ status) ;;;
  let* s := gets id in
  fail_if (is_Some_b (w_session_finished_received s))
    "strict Watch failed response arrived after session.finished" ;;;
  modify (λ s, s <| w_failed_response_statuses ::= <[response_id := status]> |>) ;;;
  fail_if (is_Some_b (w_failed_response_statuses s !! response_id))
    ("strict Watch failed response terminal was received more than once for "
     +:+ response_id) ;;;
  modify (λ s, s <| w_response_audio_done_ids ::= λ x, x ∖ {[response_id]} |>
                 <| w_response_done_ids ::= λ x, x ∖ {[response_id]} |>
                 <| w_response_terminals ::= delete response_id |>
                 <| w_last_response_audio_done ::= drop_if_response response_id |>
                 <| w_last_response_done ::= drop_if_response response_id |>).
Definition record_response_failed response_id status : M WatchLifecycle unit :=
  with_active_mut (response_failed response_id status) tt.

(** ** Handlers of the renderer side *)
Definition record_renderer_cue_submitted cue_id response_id now : M WatchLifecycle Z :=
  with_active_mut (cue_sequence cue_id response_id now) 0.

Definition renderer_ack (cue_id receipt_authority receipt_id : string) (now1 now2 : Z)
    : M WatchState unit :=
  fail_if (is_blank receipt_authority || is_blank receipt_id)
    "strict Watch renderer receipt identity is incomplete" ;;;
  let* s := gets id in
  match w_cue_sequences s !! cue_id with
  | None => fail ("strict Watch renderer ACK references unknown/unsubmitted cue: " +:+ cue_id)
  | Some sequence =>
      match w_cue_response_ids s !! cue_id with
      | None => fail ("strict Watch renderer cue has no response lineage: " +:+ cue_id)
      | Some response_id =>
          fail_if (is_Some_b (w_renderer_failures s !! sequence))
            ("strict Watch renderer ACK arrived after terminal failure for cue: " +:+ cue_id) ;;;
          if bool_decide (receipt_id ∈ w_renderer_receipt_ids s) then ret tt
          else
            when (w_aec_open_input_drain s)
              (let* ev := activity cue_id false now1 in
               modify (λ s, s <| w_last_physical_completed := Some ev |>)) ;;;
            let* seq := next_source_sequence in
            modify (λ s, s <| w_renderer_acks ::= <[sequence :=
                                mk_renderer_ack seq now2 cue_id response_id sequence
                                  receipt_authority receipt_id]> |>
                           <| w_renderer_receipt_ids ::= λ x, {[receipt_id]} ∪ x |>)
      end
  end.
Definition record_renderer_ack cue_id receipt_authority receipt_id now1 now2
    : M WatchLifecycle unit :=
  with_active_mut (renderer_ack cue_id receipt_authority receipt_id now1 now2) tt.

Definition renderer_failure (cue_id reason : string) : M WatchState unit :=
  fail_if (is_blank reason) "strict Watch renderer failure reason is empty" ;;;
  let* s := gets id in
  match w_cue_sequences s !! cue_id with
  | None =>
      fail ("strict Watch renderer failure references unknown/unsubmitted cue: " +:+ cue_id)
  | Some sequence =>
      match w_cue_response_ids s !! cue_id with
      | None => fail ("strict Watch renderer cue has no response lineage: " +:+ cue_id)
      | Some response_id =>
          match w_renderer_failures s !! sequence with
          | Some existing =>
              if bool_decide (rf_reason existing = reason) then ret tt
              else fail ("strict Watch renderer failure reason changed for cue: " +:+ cue_id
                         +:+ "; first=" +:+ rf_reason existing +:+ " later=" +:+ reason)
          | None =>
              modify (λ s, s <| w_renderer_failures ::=
                <[sequence := mk_renderer_failure cue_id response_id sequence reason]> |>)
          end
      end
  end.
Definition record_renderer_failure cue_id reason : M WatchLifecycle unit :=
  with_active_mut (renderer_failure cue_id reason) tt.

(** ** AEC open-input drain handlers ([store_api.rs]) *)
Definition provider_call_started (qpc : option Z) : M WatchState unit :=
  let* s := gets id in
  when (w_aec_open_input_drain s)
    match qpc with
    | None => fail "watch.aec-provider-call-qpc-unavailable"
    | Some q => modify (λ s, s <| w_provider_call_started_qpc_100ns := Some q |>)
    end.
Definition record_strict_watch_provider_call_started qpc : M WatchLifecycle unit :=
  with_active_mut (provider_call_started qpc) tt.

Definition provider_session_created (provider_session_id : string)
    : M WatchState (option (string * Z)) :=
  let* s := gets id in
  if negb (w_aec_open_input_drain s) then ret None
  else
    fail_if (is_blank provider_session_id) "watch.aec-provider-session-id-missing" ;;;
    match w_provider_call_started_qpc_100ns s with
    | None => fail "watch.aec-provider-call-start-missing"
    | Some qpc =>
        modify (λ s, s <| w_provider_session_id := Some provider_session_id |>) ;;;
        ret (Some (provider_session_id, qpc))
    end.
(** [record_aec_lifecycle] hands the record to the diagnostic tap. *)
Definition record_aec_lifecycle (status session_id : string) : M WatchLifecycle unit :=
  modify (λ l, l <| lc_aec_events ::= λ e, e ++ [mk_aec_event status session_id] |>).
Definition record_strict_watch_provider_session_created (provider_session_id : string)
    : M WatchLifecycle unit :=
  let* binding := with_active_mut (provider_session_created provider_session_id) None in
  match binding with
  | Some (session_id, _) => record_aec_lifecycle "paid-call-start" session_id
  | None => ret tt
  end.

Definition strict_watch_provider_session_id : M WatchLifecycle (option string) :=
  with_active_mut (check_open_input_failure ;;; gets w_provider_session_id) None.

(** [if let Ok(Some(id)) = self.strict_watch_provider_session_id()]: an error is
    dropped, a poisoned lock still panics. *)
Definition record_strict_watch_aec_provider_lifecycle (status : string)
    : M WatchLifecycle unit := λ l,
  match strict_watch_provider_session_id l with
  | (Ok (Some session_id), l) => record_aec_lifecycle status session_id l
  | (Ok None, l) => (Ok tt, l)
  | (Err (Fail _), l) => (Ok tt, l)
  | (Err (Panic m), l) => (Err (Panic m), l)
  end.

Definition record_strict_watch_session_finish_sent now : M WatchLifecycle unit :=
  record_session_finish_sent now ;;;
  record_strict_watch_aec_provider_lifecycle "session-finish-sent".
Definition record_strict_watch_provider_input_closed now : M WatchLifecycle Z :=
  let* sequence := record_provider_input_closed now in
  record_strict_watch_aec_provider_lifecycle "capture-input-closed" ;;;
  ret sequence.
Definition record_strict_watch_session_finished_received now : M WatchLifecycle unit :=
  record_session_finished_received now ;;;
  record_strict_watch_aec_provider_lifecycle "session-finished-received".

Definition enable_aec_open_input_drain : M WatchState unit :=
  let* s := gets id in
  fail_if (is_Some_b (w_session_updated_received s) || is_Some_b (w_last_provider_append s))
    "AEC drain policy must be installed before the provider starts" ;;;
  modify (λ s, s <| w_aec_open_input_drain := true |>).
Definition enable_strict_watch_aec_open_input_drain : M WatchLifecycle unit :=
  with_active_mut enable_aec_open_input_drain tt.

Definition reset_provider_socket : M WatchState unit :=
  let* s := gets id in
  if negb (w_aec_open_input_drain s) then ret tt
  else if is_Some_b (w_last_provider_append s) || is_Some_b (w_media_complete s) then
    get_or_insert_violation "watch.aec-provider-socket-replaced-after-input" ;;;
    fail "watch.aec-provider-socket-replaced-after-input"
  else
    modify (λ s, s <| w_session_updated_received := None |>
                   <| w_provider_session_id := None |>
                   <| w_active_speech := ∅ |>
                   <| w_active_responses := ∅ |>
                   <| w_input_response_owners := ∅ |>).
Definition reset_strict_watch_provider_socket : M WatchLifecycle unit :=
  with_active_mut reset_provider_socket tt.

Definition media_complete (now : Z) : M WatchState unit :=
  check_open_input_failure ;;;
  let* s := gets id in
  fail_if (negb (w_aec_open_input_drain s)
           || negb (bool_decide (w_open_input_phase s = PhaseOpen))
           || is_Some_b (w_media_complete s))
    "watch.aec-media-complete-phase-invalid" ;;;
  let* seq := next_source_sequence in
  modify (λ s, s <| w_media_complete := Some
    (mk_activity seq (w_activity_generation s) now "runner-immutable-media-marker") |>).
Definition record_strict_watch_media_complete now : M WatchLifecycle unit :=
  with_active_mut (media_complete now) tt.

Definition response_started (response_id : string) (now : Z) : M WatchState unit :=
  let* s := gets id in
  when (w_aec_open_input_drain s)
    (fail_if (is_blank response_id) "watch.aec-response-identity-missing" ;;;
     activity response_id true now ;;;
     modify (λ s, s <| w_active_responses ::= λ x, {[response_id]} ∪ x |>)).
Definition record_strict_watch_response_started response_id now : M WatchLifecycle unit :=
  with_active_mut (response_started response_id now) tt.

Definition nonempty_output (response_id : string) (now : Z) : M WatchState unit :=
  let* s := gets id in
  when (w_aec_open_input_drain s)
    (fail_if (is_blank response_id) "watch.aec-output-response-identity-missing" ;;;
     let* ev := activity response_id true now in
     modify (λ s, s <| w_last_output := Some ev |>) ;;;
     when (bool_decide (response_id ∉ w_response_done_ids s))
       (modify (λ s, s <| w_active_responses ::= λ x, {[response_id]} ∪ x |>))).
Definition record_strict_watch_nonempty_output response_id now : M WatchLifecycle unit :=
  with_active_mut (nonempty_output response_id now) tt.

Definition renderer_started (cue_id : string) (now : Z) : M WatchState unit :=
  let* s := gets id in
  when (w_aec_open_input_drain s)
    (fail_if (negb (is_Some_b (w_cue_sequences s !! cue_id)))
       "watch.aec-renderer-start-unsubmitted" ;;;
     let* ev := activity cue_id true now in
     modify (λ s, s <| w_last_physical_started := Some ev |>)).
Definition record_strict_watch_renderer_started cue_id now : M WatchLifecycle unit :=
  with_active_mut (renderer_started cue_id now) tt.

Definition renderer_frames (cue_id : string) (frames now : Z) : M WatchState unit :=
  let* s := gets id in
  when (w_aec_open_input_drain s && negb (frames =? 0))
    (fail_if (negb (is_Some_b (w_cue_sequences s !! cue_id)))
       "watch.aec-renderer-frames-unsubmitted" ;;;
     let* ev := activity cue_id true now in
     modify (λ s, s <| w_last_physical_frame := Some ev |>)).
Definition record_strict_watch_renderer_frames cue_id frames now : M WatchLifecycle unit :=
  with_active_mut (renderer_frames cue_id frames now) tt.

(** Cues submitted but not yet acknowledged. *)
Definition unacked (s : WatchState) (sequence : Z) : bool :=
  negb (is_Some_b (w_renderer_acks s !! sequence)).
Definition cue_sequence_values (s : WatchState) : list Z :=
  (map_to_list (w_cue_sequences s)).*2.

Definition approve_output_quiescence (generation now : Z) : M WatchState unit :=
  check_open_input_failure ;;;
  let* s := gets id in
  fail_if (negb (w_aec_open_input_drain s)
           || negb (bool_decide (w_open_input_phase s = PhaseOpen))
           || negb (is_Some_b (w_media_complete s))
           || negb (w_activity_generation s =? generation)
           || negb (bool_decide (w_active_speech s = ∅))
           || negb (bool_decide (w_active_responses s = ∅))
           || negb (pending_input_segments s =? 0)
           || existsb (unacked s) (cue_sequence_values s))
    "watch.aec-quiescent-snapshot-raced" ;;;
  modify (λ s, s <| w_open_input_phase := PhaseQuiescentApproved |>) ;;;
  let* seq := next_source_sequence in
  modify (λ s, s <| w_output_quiescent := Some
    (mk_activity seq (w_activity_generation s) now "desktop-open-input-drain-owner") |>).
Definition approve_strict_watch_output_quiescence generation now : M WatchLifecycle unit :=
  with_active_mut (approve_output_quiescence generation now) tt.

(** ** Input ownership ([input_ownership.rs]) *)
Definition ownership_failure {A} (reason : string) : M WatchState A :=
  get_or_insert_violation ("watch.aec-input-ownership-" +:+ reason) ;;;
  fail ("watch.aec-input-ownership-" +:+ reason).

Definition strict_watch_aec_open_input_drain_enabled (l : WatchLifecycle) : outcome bool :=
  if lc_poisoned l then Err (Panic "strict Watch terminal lifecycle state poisoned")
  else Ok match lc_state l with Some s => w_aec_open_input_drain s | None => false end.

(** [entry(item).or_insert(None)]. *)
Definition own_item (item_id : string) (owners : gmap string (option string))
    : gmap string (option string) :=
  match owners !! item_id with Some _ => owners | None => <[item_id := None]> owners end.

Definition input_speech (item_id : string) (active : bool) (now : Z) : M WatchState unit :=
  let* s := gets id in
  when (w_aec_open_input_drain s)
    (check_open_input_failure ;;;
     let item_id := trim item_id in
     if is_empty item_id then ownership_failure "identity-missing"
     else if active && match w_input_response_owners s !! item_id with
                       | Some (Some response) => bool_decide (response ∈ w_response_done_ids s)
                       | _ => false
                       end
     then ownership_failure "completed-item-reused"
     else
       let* ev := activity item_id true now in
       modify (λ s, s <| w_last_input_speech := Some ev |>
                      <| w_input_response_owners ::= own_item item_id |>) ;;;
       if active then modify (λ s, s <| w_active_speech ::= λ x, {[item_id]} ∪ x |>)
       else modify (λ s, s <| w_active_speech ::= λ x, x ∖ {[item_id]} |>)).
Definition record_strict_watch_input_speech item_id active now : M WatchLifecycle unit :=
  with_active_mut (input_speech item_id active now) tt.

Definition source_activity (item_id : string) (now : Z) : M WatchState unit :=
  let* s := gets id in
  when (w_aec_open_input_drain s)
    (check_open_input_failure ;;;
     let item_id := trim item_id in
     if is_empty item_id then ownership_failure "identity-missing"
     else
       let* ev := activity item_id true now in
       modify (λ s, s <| w_last_input_speech := Some ev |>
                      <| w_input_response_owners ::= own_item item_id |>)).
Definition record_strict_watch_source_activity item_id now : M WatchLifecycle unit :=
  with_active_mut (source_activity item_id now) tt.

(** Whether another item already owns the response. *)
Definition response_owned_elsewhere (owners : gmap string (option string))
    (item_id response_id : string) : bool :=
  existsb (λ p : string * option string,
    negb (bool_decide (p.1 = item_id)) && bool_decide (p.2 = Some response_id))
    (map_to_list owners).

(** The body of the loop over the bindings. *)
Definition bind_input (item_id response_id : string) (now : Z) : M WatchState unit :=
  let* s := gets id in
  if is_blank item_id || is_blank response_id
  then ownership_failure "binding-identity-missing"
  else
    match w_input_response_owners s !! item_id with
    | Some (Some existing) =>
        if bool_decide (existing = response_id) then ret tt
        else ownership_failure "response-rebound"
    | _ =>
        if response_owned_elsewhere (w_input_response_owners s) item_id response_id
        then ownership_failure "response-owner-reused"
        else
          let* ev := activity item_id true now in
          modify (λ s, s <| w_last_input_speech := Some ev |>
                         <| w_input_response_owners ::= <[item_id := Some response_id]> |>)
    end.
(** The loop reads the clock once per binding it records: [now n] is the
    reading of the [n]-th iteration. *)
Fixpoint bind_inputs (bindings : list (string * string)) (now : nat → Z) : M WatchState unit :=
  match bindings with
  | [] => ret tt
  | (item_id, response_id) :: bindings =>
      bind_input item_id response_id (now O) ;;; bind_inputs bindings (λ n, now (S n))
  end.
Definition input_response_bindings (bindings : list (string * string)) (now : nat → Z)
    : M WatchState unit :=
  let* s := gets id in
  when (w_aec_open_input_drain s)
    (check_open_input_failure ;;; bind_inputs bindings now).
Definition record_strict_watch_input_response_bindings bindings now : M WatchLifecycle unit :=
  with_active_mut (input_response_bindings bindings now) tt.

(** ** Snapshots *)
(** [&self] readers: the state, or why there is none. *)
Definition locked (l : WatchLifecycle) (missing : string) : outcome WatchState :=
  if lc_poisoned l then Err (Panic "strict Watch terminal lifecycle state poisoned")
  else ok_or (lc_state l) missing.
Definition require (b : bool) (msg : string) : outcome unit :=
  if b then Ok tt else Err (Fail msg).

(** [failures.iter().map(..).collect().join(",")]. The iteration order of a
    [HashMap] is unspecified; here it is the map's canonical order. *)
Definition show_failed_responses (m : gmap string string) : string :=
  join "," ((λ p : string * string, p.1 +:+ ":" +:+ p.2) <$> map_to_list m).

(** [values().min_by_key(cue_sequence)]. *)
Fixpoint min_failure (l : list RendererFailure) : option RendererFailure :=
  match l with
  | [] => None
  | f :: l =>
      match min_failure l with
      | Some g => if rf_cue_sequence f <=? rf_cue_sequence g then Some f else Some g
      | None => Some f
      end
  end.

Definition require_no_failed_response (s : WatchState) : outcome unit :=
  require (bool_decide (w_failed_response_statuses s = ∅))
    ("strict Watch terminal lifecycle contains failed Provider responses: "
     +:+ show_failed_responses (w_failed_response_statuses s)).

Definition provider_order_ok (s : WatchState) (su : StrictWatchSessionUpdatedEvidence)
    (pa : StrictWatchProviderAppendEvidence) (sf : StrictWatchSessionFinishEvidence)
    (pt : StrictWatchProviderTerminalEvidence) : bool :=
  negb (negb (w_finish_count s =? 1)
        || negb (w_provider_writes_after_finish s =? 0)
        || (pa_source_sequence pa <=? su_source_sequence su)
        || (sf_source_sequence sf <=? sf_provider_input_closed_source_sequence sf)
        || (sf_source_sequence sf <=? pa_source_sequence pa)
        || (pt_source_sequence pt <=? sf_source_sequence sf)).

Definition require_no_renderer_failure (s : WatchState) : outcome unit :=
  match min_failure ((map_to_list (w_renderer_failures s)).*2) with
  | Some f =>
      Err (Fail ("strict Watch renderer failed: cue=" +:+ rf_cue_id f +:+ " response="
        +:+ rf_response_id f +:+ " sequence=" +:+ show_uint (rf_cue_sequence f)
        +:+ " reason=" +:+ rf_reason f))
  | None => Ok tt
  end.

Definition watch_snapshot (s : WatchState) : outcome StrictWatchTerminalLifecycleSnapshot :=
  let? _ := match open_input_failure s with
            | Some e => if w_aec_open_input_drain s then Err (Fail e) else Ok tt
            | None => Ok tt
            end in
  let? _ := require_no_failed_response s in
  let? su := ok_or (w_session_updated_received s)
    "strict Watch terminal lifecycle is missing sessionUpdatedReceived" in
  let? pa := ok_or (w_last_provider_append s)
    "strict Watch terminal lifecycle is missing lastProviderAppend" in
  let? sf := ok_or (w_session_finish_sent s)
    "strict Watch terminal lifecycle is missing sessionFinishSent" in
  let? pt := ok_or (w_session_finished_received s)
    "strict Watch terminal lifecycle is missing sessionFinishedReceived" in
  let sf := mk_finish (sf_source_sequence sf) (sf_observed_at_unix_ms sf) (w_finish_count s)
    (sf_last_provider_append_source_sequence sf)
    (sf_provider_input_closed_source_sequence sf) (w_provider_writes_after_finish s) in
  let pt := mk_terminal (pt_source_sequence pt) (pt_observed_at_unix_ms pt)
    (w_finish_count s) (w_provider_writes_after_finish s) in
  let? _ := require (provider_order_ok s su pa sf pt)
    "strict Watch Provider terminal ordering/count authority is invalid" in
  let? _ := require (negb (w_last_cue_sequence s =? 0))
    "strict Watch renderer did not submit any cue" in
  let? _ := require_no_renderer_failure s in
  let? ack := ok_or (w_renderer_acks s !! w_last_cue_sequence s)
    "strict Watch final renderer ACK does not cover the last cue sequence" in
  let? rt := ok_or (w_response_terminals s !! ack_response_id ack)
    "strict Watch final renderer ACK response has no completed Provider terminal" in
  let? _ := require (rt_source_sequence rt <? pt_source_sequence pt)
    "strict Watch response terminal is not ordered before session.finished" in
  Ok (mk_snapshot (w_identity s) su pa sf pt rt
    (mk_ack_evidence (ack_source_sequence ack) (ack_observed_at_unix_ms ack) (ack_cue_id ack)
       (ack_response_id ack) (ack_cue_sequence ack) (w_last_cue_sequence s)
       (ack_receipt_authority ack) (ack_receipt_id ack))).
Definition snapshot (l : WatchLifecycle) : outcome StrictWatchTerminalLifecycleSnapshot :=
  let? s := locked l "strict Watch terminal lifecycle is not initialized" in watch_snapshot s.

Definition provider_terminal_phase (l : WatchLifecycle) : outcome (bool * bool) :=
  let? s := locked l "strict Watch terminal lifecycle is not initialized" in
  Ok (is_Some_b (w_session_finish_sent s), is_Some_b (w_session_finished_received s)).
Definition session_finished_received (l : WatchLifecycle) : outcome bool :=
  let? p := provider_terminal_phase l in Ok p.2.

Record StrictWatchOpenInputSnapshot := mk_open_snapshot {
  os_identity : StrictWatchTerminalIdentity; os_source_sequence : Z;
  os_activity_generation : Z; os_phase : StrictWatchOpenInputPhase;
  os_session_updated : bool;
  os_last_provider_append : option StrictWatchProviderAppendEvidence;
  os_pending_speech : Z; os_pending_input_segments : Z; os_pending_responses : Z;
  os_pending_renderer_acks : Z; os_input_open : bool; os_provider_input_open : bool;
  os_last_input_speech : option StrictWatchActivityEvidence;
  os_last_output : option StrictWatchActivityEvidence;
  os_last_physical_started : option StrictWatchActivityEvidence;
  os_last_physical_frame : option StrictWatchActivityEvidence;
  os_last_physical_completed : option StrictWatchActivityEvidence;
  os_media_complete : option StrictWatchActivityEvidence;
  os_output_quiescent : option StrictWatchActivityEvidence;
  os_capture_closed : option StrictWatchActivityEvidence
}.
Definition open_snapshot_of (s : WatchState) : StrictWatchOpenInputSnapshot :=
  mk_open_snapshot (w_identity s) (w_next_source_sequence s) (w_activity_generation s)
    (w_open_input_phase s) (is_Some_b (w_session_updated_received s))
    (w_last_provider_append s)
    (Z.of_nat (size (w_active_speech s))) (pending_input_segments s)
    (Z.of_nat (size (w_active_responses s)))
    (Z.of_nat (count_if (unacked s) (cue_sequence_values s)))
    (negb (is_Some_b (w_provider_input_closed_source_sequence s)))
    (negb (is_Some_b (w_session_finish_sent s)))
    (w_last_input_speech s) (w_last_output s) (w_last_physical_started s)
    (w_last_physical_frame s) (w_last_physical_completed s) (w_media_complete s)
    (w_output_quiescent s) (w_capture_closed s).
Definition strict_watch_open_input_snapshot (l : WatchLifecycle)
    : outcome StrictWatchOpenInputSnapshot :=
  let? s := locked l "watch.aec-terminal-ledger-missing" in
  let? _ := require (w_aec_open_input_drain s) "watch.aec-open-input-policy-not-enabled" in
  match open_input_failure s with
  | Some e => Err (Fail e)
  | None => Ok (open_snapshot_of s)
  end.

(** ** Runs of the ledger

    One label per handler call, with the clock readings the call makes. *)
Inductive watch_op :=
| WSessionUpdated (identity sent echoed : string) (now : Z)
| WProviderAppend (samples now : Z)
| WSessionFinishSent (now : Z)
| WProviderInputClosed (now : Z)
| WSessionFinished (now : Z)
| WResponseTerminal (stage response : string) (now1 now2 : Z)
| WResponseFailed (response status : string)
| WCueSubmitted (cue response : string) (now : Z)
| WRendererAck (cue authority receipt : string) (now1 now2 : Z)
| WRendererFailure (cue reason : string)
| WProviderCallStarted (qpc : option Z)
| WProviderSessionCreated (session : string)
| WEnableAec
| WResetSocket
| WMediaComplete (now : Z)
| WResponseStarted (response : string) (now : Z)
| WNonemptyOutput (response : string) (now : Z)
| WRendererStarted (cue : string) (now : Z)
| WRendererFrames (cue : string) (frames now : Z)
| WApproveQuiescence (generation now : Z)
| WInputSpeech (item : string) (active : bool) (now : Z)
| WSourceActivity (item : string) (now : Z)
| WInputBindings (bindings : list (string * string)) (now : nat → Z).

Definition ignore {S A} (m : M S A) : M S unit := m ;;; ret tt.

Section Runs.
Context (sha256_hex : string → string).

Definition exec_watch (o : watch_op) : M WatchState unit :=
  match o with
  | WSessionUpdated i s e now => session_updated_received sha256_hex i s e now
  | WProviderAppend n now => provider_append n now
  | WSessionFinishSent now => session_finish_sent now
  | WProviderInputClosed now => ignore (provider_input_closed now)
  | WSessionFinished now => session_finished now
  | WResponseTerminal stage r now1 now2 => response_terminal stage r now1 now2
  | WResponseFailed r status => response_failed r status
  | WCueSubmitted c r now => ignore (cue_sequence c r now)
  | WRendererAck c a r now1 now2 => renderer_ack c a r now1 now2
  | WRendererFailure c reason => renderer_failure c reason
  | WProviderCallStarted q => provider_call_started q
  | WProviderSessionCreated s => ignore (provider_session_created s)
  | WEnableAec => enable_aec_open_input_drain
  | WResetSocket => reset_provider_socket
  | WMediaComplete now => media_complete now
  | WResponseStarted r now => response_started r now
  | WNonemptyOutput r now => nonempty_output r now
  | WRendererStarted c now => renderer_started c now
  | WRendererFrames c n now => renderer_frames c n now
  | WApproveQuiescence g now => approve_output_quiescence g now
  | WInputSpeech i a now => input_speech i a now
  | WSourceActivity i now => source_activity i now
  | WInputBindings bs now => input_response_bindings bs now
  end.

(** A call that panics poisons the mutex: nothing runs on the ledger after it. *)
Definition watch_step (s : WatchState) (o : watch_op) (s' : WatchState) : Prop :=
  is_panic (exec_watch o s).1 = false ∧ (exec_watch o s).2 = s'.
Definition watch_init (s : WatchState) : Prop := ∃ identity, s = initial_watch identity.
Definition watch_reachable : WatchState → Prop := reachable watch_init watch_step.

(** The same calls on the locked ledger, through the adapters of
    [AudioStateStore]. *)
Definition call (o : watch_op) : M WatchLifecycle unit :=
  match o with
  | WSessionUpdated i s e now => record_session_updated_received sha256_hex i s e now
  | WProviderAppend n now => record_provider_append n now
  | WSessionFinishSent now => record_strict_watch_session_finish_sent now
  | WProviderInputClosed now => ignore (record_strict_watch_provider_input_closed now)
  | WSessionFinished now => record_strict_watch_session_finished_received now
  | WResponseTerminal stage r now1 now2 => record_response_terminal stage r now1 now2
  | WResponseFailed r status => record_response_failed r status
  | WCueSubmitted c r now => ignore (record_renderer_cue_submitted c r now)
  | WRendererAck c a r now1 now2 => record_renderer_ack c a r now1 now2
  | WRendererFailure c reason => record_renderer_failure c reason
  | WProviderCallStarted q => record_strict_watch_provider_call_started q
  | WProviderSessionCreated s => record_strict_watch_provider_session_created s
  | WEnableAec => enable_strict_watch_aec_open_input_drain
  | WResetSocket => reset_strict_watch_provider_socket
  | WMediaComplete now => record_strict_watch_media_complete now
  | WResponseStarted r now => record_strict_watch_response_started r now
  | WNonemptyOutput r now => record_strict_watch_nonempty_output r now
  | WRendererStarted c now => record_strict_watch_renderer_started c now
  | WRendererFrames c n now => record_strict_watch_renderer_frames c n now
  | WApproveQuiescence g now => approve_strict_watch_output_quiescence g now
  | WInputSpeech i a now => record_strict_watch_input_speech i a now
  | WSourceActivity i now => record_strict_watch_source_activity i now
  | WInputBindings bs now => record_strict_watch_input_response_bindings bs now
  end.
Inductive lifecycle_op :=
| LBegin (run_marker cell_id lease_id : string)
| LCall (o : watch_op).
Definition exec_lifecycle (o : lifecycle_op) : M WatchLifecycle unit :=
  match o with
  | LBegin r c l => begin_strict_watch_terminal_lifecycle r c l
  | LCall o => call o
  end.
Definition lifecycle_reachable : WatchLifecycle → Prop :=
  reachable (λ l, l = lifecycle_default) (λ l o l', (exec_lifecycle o l).2 = l').
End Runs.
