(* ===== verification/WatchTerminalFacts.v ===== *)
(** * Correctness of the strict Watch terminal ledger

    Invariants of every reachable ledger state (evidence order, cue numbering,
    the quiescence seal of the AEC drain), and what they give for the terminal
    snapshot that callers publish. *)
From S2P Require Import Prelude RustStr WatchTerminal.

(** ** Symbolic execution of the handlers *)
Ltac unfold_watch :=
  cbv beta iota zeta delta
    [ exec_watch session_updated_received provider_append session_finish_sent
      provider_input_closed session_finished response_terminal response_failed renderer_ack
      renderer_failure provider_call_started provider_session_created
      enable_aec_open_input_drain reset_provider_socket media_complete response_started
      nonempty_output renderer_started renderer_frames approve_output_quiescence input_speech
      source_activity bind_input ownership_failure cue_sequence check_open_input_failure
      activity next_source_sequence get_or_insert_violation ignore check_digests
      bind ret fail panic throw gets modify fail_if lift when id ].

(** [basic o]: the handler is straight-line code; only the binding loop is not. *)
Definition basic (o : watch_op) : bool :=
  match o with WInputBindings _ _ => false | _ => true end.

(** [under_drain R]: [R] for the runs that start with the drain enabled, which
    stays enabled. *)
Definition under_drain (R : WatchState → WatchState → Prop) (s s' : WatchState) : Prop :=
  w_aec_open_input_drain s = true → w_aec_open_input_drain s' = true ∧ R s s'.
#[export] Instance under_drain_preorder R `{!PreOrder R} : PreOrder (under_drain R).
Proof.
  split; unfold under_drain; [done|]. intros x y z Hxy Hyz Hx.
  destruct (Hxy Hx) as [Hy ?]. destruct (Hyz Hy) as [? ?]. split; [done|by etransitivity].
Qed.
Lemma bind_input_drain item response now s :
  w_aec_open_input_drain (bind_input item response now s).2 = w_aec_open_input_drain s.
Proof. unfold_watch. by split_run. Qed.

Section Step.
Context (sha256_hex : string → string) (R : WatchState → WatchState → Prop).
Context `{!PreOrder R}.

(** The binding loop adds nothing to what one binding does. *)
Lemma bind_inputs_sound :
  (∀ item response now s, w_aec_open_input_drain s = true →
     is_panic (bind_input item response now s).1 = false →
     R s (bind_input item response now s).2) →
  ∀ bindings now, unless_panic (under_drain R) (bind_inputs bindings now).
Proof.
  intros H bindings. induction bindings as [|[item response] bs IH]; intros now; simpl.
  - apply unless_panic_evolves. auto with evolve typeclass_instances.
  - apply unless_panic_bind; [typeclasses eauto| |auto].
    intros s Hp Hs. rewrite bind_input_drain. auto.
Qed.

Lemma step_sound :
  (∀ o, basic o = true → unless_panic R (exec_watch sha256_hex o)) →
  (∀ item response now s, w_aec_open_input_drain s = true →
     is_panic (bind_input item response now s).1 = false →
     R s (bind_input item response now s).2) →
  ∀ s o s', watch_step sha256_hex s o s' → R s s'.
Proof.
  intros Hb Hi s o s' [Hp <-].
  destruct o; try (by apply Hb). clear Hb. revert Hp. simpl.
  unfold input_response_bindings, check_open_input_failure.
  cbv beta iota delta [bind gets id when ret fail throw].
  destruct (w_aec_open_input_drain s) eqn:Ha; [|by intros _].
  destruct (open_input_failure s); [by intros _|].
  intros Hp. by destruct (bind_inputs_sound Hi bindings now s Hp Ha).
Qed.
End Step.

(** ** The order of the recorded evidence *)
Record evidence_order (s : WatchState) : Prop := {
  eo_counts : 0 ≤ w_next_source_sequence s ∧ 0 ≤ w_finish_count s ∧ 0 ≤ w_append_count s
    ∧ 0 ≤ w_provider_writes_after_finish s;
  eo_updated su : w_session_updated_received s = Some su →
    0 < su_source_sequence su ≤ w_next_source_sequence s
    ∧ su_sent_session_config_sha256 su = su_echoed_session_config_sha256 su
    ∧ sha256_digest_ok (su_session_identity_sha256 su) = true
    ∧ sha256_digest_ok (su_sent_session_config_sha256 su) = true;
  eo_append pa : w_last_provider_append s = Some pa →
    0 < pa_source_sequence pa ≤ w_next_source_sequence s
    ∧ pa_append_index pa = w_append_count s
    ∧ pa_accepted_samples_total pa = w_accepted_samples_total s
    ∧ pa_samples pa ≠ 0
    ∧ ∀ su, w_session_updated_received s = Some su →
        su_source_sequence su < pa_source_sequence pa;
  eo_closed c : w_provider_input_closed_source_sequence s = Some c →
    0 < c ≤ w_next_source_sequence s;
  eo_finish sf : w_session_finish_sent s = Some sf →
    sf_source_sequence sf ≤ w_next_source_sequence s
    ∧ 1 ≤ w_finish_count s
    ∧ w_provider_input_closed_source_sequence s
        = Some (sf_provider_input_closed_source_sequence sf)
    ∧ sf_provider_input_closed_source_sequence sf < sf_source_sequence sf
    ∧ ∃ pa, w_last_provider_append s = Some pa
        ∧ sf_last_provider_append_source_sequence sf = pa_source_sequence pa
        ∧ pa_source_sequence pa < sf_source_sequence sf;
  eo_finished pt : w_session_finished_received s = Some pt →
    pt_source_sequence pt ≤ w_next_source_sequence s
    ∧ ∃ sf, w_session_finish_sent s = Some sf
        ∧ sf_source_sequence sf < pt_source_sequence pt;
  eo_terminal r rt : w_response_terminals s !! r = Some rt →
    rt_response_id rt = r
    ∧ 0 < rt_source_sequence rt ≤ w_next_source_sequence s
    ∧ ∀ pt, w_session_finished_received s = Some pt →
        rt_source_sequence rt < pt_source_sequence pt
}.
(** ** The numbering of the rendered cues *)
Record cue_numbering (s : WatchState) : Prop := {
  cn_last : w_last_cue_sequence s = w_next_cue_sequence s ∧ 0 ≤ w_next_cue_sequence s;
  cn_range c n : w_cue_sequences s !! c = Some n → 1 ≤ n ≤ w_next_cue_sequence s;
  cn_response c n : w_cue_sequences s !! c = Some n →
    ∃ r, w_cue_response_ids s !! c = Some r ∧ is_blank r = false;
  cn_injective c c' n : w_cue_sequences s !! c = Some n →
    w_cue_sequences s !! c' = Some n → c = c';
  cn_dense n : 1 ≤ n ≤ w_next_cue_sequence s → ∃ c, w_cue_sequences s !! c = Some n;
  cn_ack n a : w_renderer_acks s !! n = Some a →
    ack_cue_sequence a = n
    ∧ w_cue_sequences s !! ack_cue_id a = Some n
    ∧ w_cue_response_ids s !! ack_cue_id a = Some (ack_response_id a)
    ∧ ack_receipt_id a ∈ w_renderer_receipt_ids s
    ∧ is_blank (ack_receipt_id a) = false;
  cn_failure n f : w_renderer_failures s !! n = Some f →
    rf_cue_sequence f = n
    ∧ w_cue_sequences s !! rf_cue_id f = Some n
    ∧ is_blank (rf_reason f) = false
}.

Lemma evidence_order_init s : watch_init s → evidence_order s.
Proof. intros [identity ->]. split; simpl; naive_solver lia. Qed.
Lemma cue_numbering_init s : watch_init s → cue_numbering s.
Proof. intros [identity ->]. split; simpl; naive_solver lia. Qed.

(** Numbering one more cue keeps the numbers dense. *)
Lemma dense_insert (m : gmap string Z) cue top n :
  m !! cue = None → (∀ n, 1 ≤ n ≤ top → ∃ c, m !! c = Some n) →
  1 ≤ n ≤ top + 1 → ∃ c, <[cue:=top + 1]> m !! c = Some n.
Proof.
  intros Hc Hd Hn. destruct (decide (n = top + 1)) as [->|].
  - exists cue. apply lookup_insert_eq.
  - destruct (Hd n ltac:(lia)) as [c ?]. exists c. by apply lookup_insert_fresh.
Qed.

(** What a leaf of the symbolic execution leaves to prove about one field. *)
Ltac ledger_arith := saturating_lia.
Ltac ledger_facts := do 2 (forward_some; split_facts; simplify_eq/=).
Ltac ledger_field :=
  try solve [eauto 2];
  simplify_eq/=; ledger_facts; split_and?; eauto 6; try ledger_arith;
  intros; ledger_facts;
  first [ledger_arith | eexists; split_and!; [done..|ledger_arith]].
Ltac ledger_leaves :=
  unfold_watch; split_run;
  try (intros ? ?; first [discriminate | assumption]);
  intros _ []; bool_hyps; split_facts; split; simpl; intros.
Ltac ledger_cases o :=
  intros s; destruct o; try done; ledger_leaves.

Section T.
Context (sha256_hex : string → string).

Lemma bind_input_evidence item response now s : w_aec_open_input_drain s = true →
  is_panic (bind_input item response now s).1 = false →
  preserved evidence_order s (bind_input item response now s).2.
Proof. intros _. ledger_leaves; ledger_field. Qed.
Lemma basic_evidence o : basic o = true →
  unless_panic (preserved evidence_order) (exec_watch sha256_hex o).
Proof. intros Hb. ledger_cases o; ledger_field. Qed.
#[export] Instance evidence_invariant :
  Invariant watch_init (watch_step sha256_hex) evidence_order.
Proof.
  split; [apply evidence_order_init|]. intros s o s' H Hs. revert H.
  apply (step_sound sha256_hex (preserved evidence_order)
           basic_evidence bind_input_evidence s o s' Hs).
Qed.

Lemma bind_input_numbering item response now s : w_aec_open_input_drain s = true →
  is_panic (bind_input item response now s).1 = false →
  preserved cue_numbering s (bind_input item response now s).2.
Proof. intros _. ledger_leaves; ledger_field. Qed.
Lemma basic_numbering o : basic o = true →
  unless_panic (preserved cue_numbering) (exec_watch sha256_hex o).
Proof.
  intros Hb. ledger_cases o. all: try solve [eauto 2].
  all: simplify_eq/=; ledger_facts; split_and?; eauto 4 using lookup_insert_fresh;
    try ledger_arith.
  all: try (match goal with |- _ ∈ _ => apply elem_of_union; rewrite elem_of_singleton; by eauto end).
  all: try (rewrite lookup_insert_ne; [by eauto|congruence]).
  all: try (eexists; rewrite lookup_insert_eq; done).
  all: try (eexists; rewrite lookup_insert_ne; [by eauto|congruence]).
  all: by eapply dense_insert.
Qed.
#[export] Instance numbering_invariant :
  Invariant watch_init (watch_step sha256_hex) cue_numbering.
Proof.
  split; [apply cue_numbering_init|]. intros s o s' H Hs. revert H.
  apply (step_sound sha256_hex (preserved cue_numbering)
           basic_numbering bind_input_numbering s o s' Hs).
Qed.
End T.
