(* ===== verification/WatchGrowth.v ===== *)
(** * What the strict Watch ledger never takes back

    The growth order every step of the ledger follows, and the seal of the
    open-input drain once output quiescence was approved. *)
From S2P Require Import Prelude RustStr WatchTerminal WatchTerminalFacts.

(** ** What only grows

    [ledger_grows s s'] is what a later state keeps of an earlier one. *)
Definition phase_rank (p : StrictWatchOpenInputPhase) : Z :=
  match p with
  | PhaseOpen => 0 | PhaseQuiescentApproved => 1 | PhaseCaptureClosed => 2
  | PhaseFinishSent => 3 | PhaseFinished => 4
  end.
Record ledger_grows (s s' : WatchState) : Prop := {
  lg_aec : w_aec_open_input_drain s = true → w_aec_open_input_drain s' = true;
  lg_phase : phase_rank (w_open_input_phase s) ≤ phase_rank (w_open_input_phase s');
  lg_violation v : w_terminal_violation s = Some v → w_terminal_violation s' = Some v;
  lg_failed r x : w_failed_response_statuses s !! r = Some x →
    ∃ x', w_failed_response_statuses s' !! r = Some x';
  lg_failure n f : w_renderer_failures s !! n = Some f →
    w_renderer_failures s' !! n = Some f;
  lg_finish_once : 1 ≤ w_finish_count s →
    1 ≤ w_finish_count s' ∧ w_session_finish_sent s' = w_session_finish_sent s;
  lg_finish_twice : 2 ≤ w_finish_count s → 2 ≤ w_finish_count s';
  lg_writes : 0 < w_provider_writes_after_finish s →
    0 < w_provider_writes_after_finish s';
  lg_updated pa : w_last_provider_append s = Some pa →
    w_session_updated_received s' = w_session_updated_received s
    ∧ ∃ pa', w_last_provider_append s' = Some pa';
  lg_finish sf : w_session_finish_sent s = Some sf →
    w_session_finish_sent s' = Some sf
    ∧ w_last_provider_append s' = w_last_provider_append s
    ∧ w_append_count s' = w_append_count s
    ∧ w_accepted_samples_total s' = w_accepted_samples_total s;
  lg_closed c : w_provider_input_closed_source_sequence s = Some c →
    w_provider_input_closed_source_sequence s' = Some c;
  lg_finished pt : w_session_finished_received s = Some pt →
    w_session_finished_received s' = Some pt;
  lg_cue c n : w_cue_sequences s !! c = Some n → w_cue_sequences s' !! c = Some n;
  lg_ack n a : w_renderer_acks s !! n = Some a → ∃ a', w_renderer_acks s' !! n = Some a';
  lg_receipt r : r ∈ w_renderer_receipt_ids s → r ∈ w_renderer_receipt_ids s'
}.
#[export] Instance ledger_grows_preorder : PreOrder ledger_grows.
Proof.
  split; [intros s; split; naive_solver lia|].
  intros x y z Hxy Hyz. split; intros;
    first [ by eauto using lg_aec, lg_violation, lg_failure, lg_finish_twice, lg_writes,
              lg_closed, lg_finished, lg_cue, lg_receipt
          | by etransitivity; eapply lg_phase | idtac ].
  - edestruct (lg_failed x y); [done..|]. by eapply (lg_failed y z).
  - destruct (lg_finish_once x y) as [H1 H2]; [done..|].
    destruct (lg_finish_once y z) as [H3 H4]; [done..|]. split; congruence.
  - destruct (lg_updated x y Hxy pa) as (E & pa' & E'); [done|].
    destruct (lg_updated y z Hyz pa') as (F & F'); [done|]. split; [congruence|done].
  - destruct (lg_finish x y Hxy sf) as (?&?&?&?); [done|].
    destruct (lg_finish y z Hyz sf) as (?&?&?&?); [done|]. split_and!; congruence.
  - edestruct (lg_ack x y); [done..|]. by eapply (lg_ack y z).
Qed.

(** Closes the leaves of a growth proof: untouched fields, the first violation
    kept, monotone counters, insertions. *)
Ltac growth_leaf :=
  simplify_eq/=; eauto using lookup_insert_fresh, lookup_insert_keeps;
  first
    [ saturating_lia
    | match goal with |- _ ∈ _ ∪ _ => apply elem_of_union; by right end
    | match goal with
      | H : w_terminal_violation _ = _ |- _ => rewrite H; done
      | H : w_open_input_phase _ = _ |- _ => rewrite H; done
      | s : WatchState |- phase_rank _ ≤ _ => destruct (w_open_input_phase s); done
      end
    | split; [saturating_lia|done] ].
Ltac growth_run :=
  unfold_watch; split_run; try (intros ?; first [discriminate | reflexivity]);
  intros _; bool_hyps; split_facts; split; simpl; intros; try solve [eauto 2|lia];
  growth_leaf.

Section Growth.
Context (sha256_hex : string → string).

Lemma bind_input_grows item response now s : w_aec_open_input_drain s = true →
  is_panic (bind_input item response now s).1 = false →
  ledger_grows s (bind_input item response now s).2.
Proof. intros _. growth_run. Qed.
Lemma basic_grows o : basic o = true →
  unless_panic ledger_grows (exec_watch sha256_hex o).
Proof. intros Hb s. destruct o; try done; growth_run. Qed.
Lemma run_grows s ops s' : run (watch_step sha256_hex) s ops s' → ledger_grows s s'.
Proof.
  apply run_evolves; [typeclasses eauto|].
  apply step_sound; [typeclasses eauto|apply basic_grows|apply bind_input_grows].
Qed.
(** Once [output_quiescent] is recorded, cues and owners are fixed. *)
Definition under_seal (s : WatchState) : Prop :=
  w_aec_open_input_drain s = true ∧ w_open_input_phase s ≠ PhaseOpen
  ∧ (∃ m, w_media_complete s = Some m).
Definition frozen (s s' : WatchState) : Prop :=
  w_cue_sequences s' = w_cue_sequences s
  ∧ w_input_response_owners s' = w_input_response_owners s
  ∧ w_output_quiescent s' = w_output_quiescent s
  ∧ w_media_complete s' = w_media_complete s.
#[export] Instance frozen_preorder : PreOrder frozen.
Proof.
  split; unfold frozen; [done|]. intros x y z (?&?&?&?) (?&?&?&?).
  split_and!; congruence.
Qed.
Ltac frozen_run :=
  unfold_watch; split_run; try (intros; first [discriminate | done]);
  intros _ (?&?&?&?); bool_hyps; unfold frozen; simpl; split_and?; try done;
  repeat match goal with
    | H : _ && _ = false |- _ => apply andb_false_iff in H as [H|H]; bool_hyps
    end; congruence.

Lemma bind_input_frozen item response now s : w_aec_open_input_drain s = true →
  is_panic (bind_input item response now s).1 = false →
  under_seal s → frozen s (bind_input item response now s).2.
Proof. intros _. frozen_run. Qed.
Lemma basic_frozen o s : basic o = true →
  is_panic (exec_watch sha256_hex o s).1 = false →
  under_seal s → frozen s (exec_watch sha256_hex o s).2.
Proof. intros Hb. destruct o; try done; frozen_run. Qed.
End Growth.

(** ** The seal of the open-input drain *)
(** Every owned input has a response, and that response is done. *)
Definition inputs_settled (s : WatchState) : Prop :=
  ∀ i o, w_input_response_owners s !! i = Some o →
    ∃ r, o = Some r ∧ r ∈ w_response_done_ids s.
Definition all_acked (s : WatchState) : Prop :=
  ∀ c n, w_cue_sequences s !! c = Some n → ∃ a, w_renderer_acks s !! n = Some a.

Lemma pending_input_segments_zero s :
  pending_input_segments s = 0 ↔ inputs_settled s.
Proof.
  unfold pending_input_segments, inputs_settled.
  change 0 with (Z.of_nat 0). rewrite Nat2Z.inj_iff, count_if_zero. split.
  - intros H i o Hi. specialize (H (i, o)). rewrite elem_of_map_to_list in H.
    specialize (H Hi). destruct o as [r|]; simpl in H; [|done]. exists r.
    apply bool_decide_eq_false, dec_stable in H. done.
  - intros H [i o] Hi. rewrite elem_of_map_to_list in Hi. simpl.
    destruct (H i o Hi) as (r & -> & Hr). apply bool_decide_eq_false. by intros [].
Qed.
Lemma unacked_none s : existsb (unacked s) (cue_sequence_values s) = false ↔ all_acked s.
Proof.
  unfold all_acked, cue_sequence_values, unacked. rewrite existsb_false. split.
  - intros H c n Hc. specialize (H n). rewrite negb_false_iff, is_Some_b_true in H.
    apply H, list_elem_of_fmap. exists (c, n). by rewrite elem_of_map_to_list.
  - intros H n ((c & n') & -> & Hc)%list_elem_of_fmap.
    rewrite elem_of_map_to_list in Hc. rewrite negb_false_iff, is_Some_b_true. by eapply H.
Qed.

(** What the drain keeps true: the seal was set with everything settled, and
    the capture fence and the provider terminals follow it. *)
Record open_seal (s : WatchState) : Prop := {
  os_media_ok m : w_media_complete s = Some m →
    w_aec_open_input_drain s = true ∧ ae_source_sequence m ≤ w_next_source_sequence s;
  os_violation v : w_terminal_violation s = Some v → w_aec_open_input_drain s = true;
  os_sealed q : w_output_quiescent s = Some q →
    w_aec_open_input_drain s = true
    ∧ w_open_input_phase s ≠ PhaseOpen
    ∧ ae_source_sequence q ≤ w_next_source_sequence s
    ∧ (∃ m, w_media_complete s = Some m ∧ ae_source_sequence m < ae_source_sequence q)
    ∧ w_active_speech s = ∅
    ∧ w_active_responses s = ∅
    ∧ all_acked s
    ∧ (w_failed_response_statuses s = ∅ → inputs_settled s);
  os_phase_open : w_open_input_phase s ≠ PhaseOpen → w_aec_open_input_drain s = true
    ∧ ∃ q, w_output_quiescent s = Some q;
  os_capture : w_open_input_phase s ≠ PhaseOpen →
    w_open_input_phase s ≠ PhaseQuiescentApproved →
    ∃ q c, w_output_quiescent s = Some q
      ∧ w_provider_input_closed_source_sequence s = Some c
      ∧ ae_source_sequence q < c;
  os_finish sf : w_session_finish_sent s = Some sf →
    (∃ pa, w_last_provider_append s = Some pa)
    ∧ (w_aec_open_input_drain s = true →
       w_open_input_phase s = PhaseFinishSent ∨ w_open_input_phase s = PhaseFinished);
  os_finished pt : w_session_finished_received s = Some pt →
    (∃ sf, w_session_finish_sent s = Some sf)
    ∧ (w_aec_open_input_drain s = true → w_open_input_phase s = PhaseFinished)
}.

(** Guards that were not taken, and the pure reading of the drain's guards. *)
Ltac seal_guards :=
  repeat match goal with
    | H : _ && _ = false |- _ => apply andb_false_iff in H as [H|H]; bool_hyps
    | H : pending_input_segments _ = 0 |- _ => apply pending_input_segments_zero in H
    | H : existsb _ (cue_sequence_values _) = false |- _ => apply unacked_none in H
    end.

Section Seal.
Context (sha256_hex : string → string).
Lemma open_seal_init s : watch_init s → open_seal s.
Proof. intros [identity ->]. split; simpl; naive_solver. Qed.

Lemma settled_more (owners : gmap string (option string)) (done done' : gset string) :
  done ⊆ done' →
  (∀ i o, owners !! i = Some o → ∃ r, o = Some r ∧ r ∈ done) →
  ∀ i o, owners !! i = Some o → ∃ r, o = Some r ∧ r ∈ done'.
Proof. intros Hd H i o Ho. destruct (H i o Ho) as (r & -> & ?). exists r. auto. Qed.
Lemma acked_more (cues : gmap string Z) (acks : gmap Z RendererAck) k a :
  (∀ c n, cues !! c = Some n → ∃ a, acks !! n = Some a) →
  ∀ c n, cues !! c = Some n → ∃ a', <[k:=a]> acks !! n = Some a'.
Proof. intros H c n Hc. destruct (H c n Hc). by eapply lookup_insert_keeps. Qed.

Ltac seal_phase :=
  repeat match goal with
    | H : w_open_input_phase _ ≠ _ → _ |- _ => specialize (H ltac:(congruence)); split_facts
    | H : ?P → _, E : ?P |- _ =>
        match P with w_aec_open_input_drain _ = true => specialize (H E); split_facts end
    | H : _ ∨ _ |- _ => destruct H
    end.
Ltac seal_conjunct :=
  try congruence; try lia; eauto using acked_more;
  match goal with
  | |- _ ∪ _ = ∅ => congruence
  | |- _ ∖ _ = ∅ => set_solver
  | |- <[_:=_]> _ = ∅ → _ => intros []%insert_non_empty
  | |- w_failed_response_statuses _ = ∅ → _ =>
      intros ?; eapply settled_more; [|by eauto]; set_solver
  | _ => idtac
  end.

Ltac seal_run :=
  unfold_watch; split_run; try (intros ? ?; first [discriminate | assumption]);
  intros _ []; bool_hyps; split_facts; split; simpl; intros; try solve [eauto 2|done];
  seal_guards; unfold all_acked, inputs_settled in *; simplify_eq/=; ledger_facts;
  try congruence; split_and?; seal_conjunct;
  intros; seal_phase; ledger_facts; try congruence; eauto 6;
  try (repeat eexists; [by eauto..|lia]).

Lemma bind_input_seal item response now s : w_aec_open_input_drain s = true →
  is_panic (bind_input item response now s).1 = false →
  preserved open_seal s (bind_input item response now s).2.
Proof. intros Ha. seal_run. Qed.
Lemma basic_seal o : basic o = true →
  unless_panic (preserved open_seal) (exec_watch sha256_hex o).
Proof. intros Hb s. destruct o; try done; seal_run. Qed.
#[export] Instance seal_invariant :
  Invariant watch_init (watch_step sha256_hex) open_seal.
Proof.
  split; [apply open_seal_init|]. intros s o s' H Hs. revert H.
  apply (step_sound sha256_hex (preserved open_seal) basic_seal bind_input_seal s o s' Hs).
Qed.
End Seal.
