(* ===== verification/WatchTheorems.v ===== *)
(** * What the terminal snapshot of a strict Watch run proves

    The theorems of the strict Watch ledger: the order of a published snapshot,
    exactly when one is published, what makes it impossible for good, the
    freeze after [session.finish] and the quiescence seal of the AEC drain. *)
From S2P Require Import Prelude RustStr WatchTerminal WatchTerminalFacts WatchGrowth.

(** ** Reading a snapshot *)
Lemma min_failure_none l : min_failure l = None ↔ l = [].
Proof.
  split; [|by intros ->]. destruct l as [|f l]; [done|]. simpl.
  destruct (min_failure l); [by destruct (_ <=? _)|done].
Qed.
Lemma no_renderer_failure s :
  require_no_renderer_failure s = Ok tt ↔ w_renderer_failures s = ∅.
Proof.
  unfold require_no_renderer_failure. split.
  - destruct (min_failure _) eqn:E; [done|]. intros _.
    apply min_failure_none, fmap_nil_inv in E. by apply map_to_list_empty_iff.
  - intros ->. by rewrite map_to_list_empty.
Qed.
Lemma ok_or_ok {A} (o : option A) msg a : ok_or o msg = Ok a ↔ o = Some a.
Proof. destruct o; simpl; naive_solver. Qed.
Lemma require_ok b msg u : require b msg = Ok u ↔ b = true.
Proof. destruct b, u; simpl; naive_solver. Qed.
Lemma obind_ok {A B} (o : outcome A) (k : A → outcome B) b :
  obind o k = Ok b ↔ ∃ a, o = Ok a ∧ k a = Ok b.
Proof. destruct o; simpl; naive_solver. Qed.

(** The guards of [snapshot], as one proposition. *)
Record snapshot_checked (s : WatchState) (sn : StrictWatchTerminalLifecycleSnapshot) : Prop := {
  sc_open : w_aec_open_input_drain s = true → open_input_failure s = None;
  sc_failed : w_failed_response_statuses s = ∅;
  sc_failures : w_renderer_failures s = ∅;
  sc_updated : w_session_updated_received s = Some (sn_session_updated_received sn);
  sc_append : w_last_provider_append s = Some (sn_last_provider_append sn);
  sc_finish : ∃ sf, w_session_finish_sent s = Some sf
    ∧ sn_session_finish_sent sn =
      mk_finish (sf_source_sequence sf) (sf_observed_at_unix_ms sf) (w_finish_count s)
        (sf_last_provider_append_source_sequence sf)
        (sf_provider_input_closed_source_sequence sf) (w_provider_writes_after_finish s);
  sc_finished : ∃ pt, w_session_finished_received s = Some pt
    ∧ sn_session_finished_received sn =
      mk_terminal (pt_source_sequence pt) (pt_observed_at_unix_ms pt) (w_finish_count s)
        (w_provider_writes_after_finish s);
  sc_order : provider_order_ok s (sn_session_updated_received sn)
    (sn_last_provider_append sn) (sn_session_finish_sent sn)
    (sn_session_finished_received sn) = true;
  sc_cues : w_last_cue_sequence s ≠ 0;
  sc_ack : ∃ a, w_renderer_acks s !! w_last_cue_sequence s = Some a
    ∧ sn_final_renderer_ack sn =
      mk_ack_evidence (ack_source_sequence a) (ack_observed_at_unix_ms a) (ack_cue_id a)
        (ack_response_id a) (ack_cue_sequence a) (w_last_cue_sequence s)
        (ack_receipt_authority a) (ack_receipt_id a);
  sc_terminal : w_response_terminals s !! re_response_id (sn_final_renderer_ack sn)
    = Some (sn_last_response_terminal sn);
  sc_terminal_order : rt_source_sequence (sn_last_response_terminal sn)
    < pt_source_sequence (sn_session_finished_received sn);
  sc_identity : sn_identity sn = w_identity s
}.

Lemma watch_snapshot_ok s sn : watch_snapshot s = Ok sn ↔ snapshot_checked s sn.
Proof.
  unfold watch_snapshot, require_no_failed_response.
  repeat setoid_rewrite obind_ok. setoid_rewrite require_ok. setoid_rewrite ok_or_ok.
  setoid_rewrite bool_decide_eq_true. split.
  - intros (u & Hopen & u1 & Hf & su & Hsu & pa & Hpa & sf & Hsf & pt & Hpt & u2 & Hord
            & u3 & Hcue & u4 & Hrf & a & Ha & rt & Hrt & u5 & Hlt & [= <-]).
    destruct u4. apply no_renderer_failure in Hrf. bool_hyps.
    split; simpl; eauto. intros Haec. rewrite Haec in Hopen.
    by destruct (open_input_failure s).
  - intros [Hopen Hf Hrf Hsu Hpa (sf & Hsf & Esf) (pt & Hpt & Ept) Hord Hcue
            (a & Ha & Ea) Hrt Hlt Hid].
    rewrite Esf, Ept in *. rewrite Ea in Hrt. simpl in *.
    exists tt. split.
    { destruct (open_input_failure s); [|done]. destruct (w_aec_open_input_drain s); [|done].
      by specialize (Hopen eq_refl). }
    exists tt; split; [done|]. eexists; split; [done|]. eexists; split; [done|].
    eexists; split; [done|]. eexists; split; [done|]. exists tt; split; [done|].
    exists tt; split; [by apply negb_true_iff, Z.eqb_neq|].
    exists tt; split; [by apply no_renderer_failure|].
    eexists; split; [done|]. eexists; split; [done|].
    exists tt; split; [by apply Z.ltb_lt|].
    destruct sn; simpl in *; congruence.
Qed.

(** ** Runs *)
Section Runs.
Context (sha256_hex : string → string).

(** Executes a list of calls; [None] when one of them panics. *)
Fixpoint exec_ops (ops : list watch_op) (s : WatchState) : option WatchState :=
  match ops with
  | [] => Some s
  | o :: ops =>
      let '(r, s') := exec_watch sha256_hex o s in
      if is_panic r then None else exec_ops ops s'
  end.
Lemma exec_ops_run ops s s' :
  exec_ops ops s = Some s' → run (watch_step sha256_hex) s ops s'.
Proof.
  revert s. induction ops as [|o ops IH]; intros s; simpl; [intros [= <-]; constructor|].
  destruct (exec_watch sha256_hex o s) as [r s1] eqn:E. destruct (is_panic r) eqn:Hp; [done|].
  intros H. econstructor; [|by apply IH]. split; by rewrite E.
Qed.
Lemma exec_ops_reachable identity ops s :
  exec_ops ops (initial_watch identity) = Some s → watch_reachable sha256_hex s.
Proof.
  intros H. eapply run_reachable; [|by apply exec_ops_run]. constructor. by eexists.
Qed.

Lemma reachable_facts s : watch_reachable sha256_hex s →
  evidence_order s ∧ cue_numbering s ∧ open_seal s.
Proof.
  intros H. split_and!;
    [ apply (reachable_inv watch_init (watch_step sha256_hex) evidence_order s H)
    | apply (reachable_inv watch_init (watch_step sha256_hex) cue_numbering s H)
    | apply (reachable_inv watch_init (watch_step sha256_hex) open_seal s H) ].
Qed.

(** *** Frozen under the seal, along a run *)
Definition sealed_grows (s s' : WatchState) : Prop :=
  ledger_grows s s' ∧ (under_seal s → frozen s s').
Lemma under_seal_next s s' : sealed_grows s s' → under_seal s → under_seal s'.
Proof.
  intros [Hg Hf] Hs. destruct (Hf Hs) as (_ & _ & _ & Hm). destruct Hs as (Ha & Hp & m & E).
  split_and!; [by eapply lg_aec| |exists m; congruence].
  pose proof (lg_phase _ _ Hg) as Hr. intros Ho. rewrite Ho in Hr.
  by destruct (w_open_input_phase s).
Qed.
#[export] Instance sealed_grows_preorder : PreOrder sealed_grows.
Proof.
  split; [intros s; split; [reflexivity|intros _; reflexivity]|].
  intros x y z Hxy Hyz. split; [etransitivity; [apply Hxy|apply Hyz]|].
  intros Hs. etransitivity; [by apply Hxy|]. apply Hyz. by eapply under_seal_next.
Qed.
Lemma run_sealed s ops s' : run (watch_step sha256_hex) s ops s' → sealed_grows s s'.
Proof.
  apply run_evolves; [typeclasses eauto|]. apply step_sound; [typeclasses eauto| |].
  - intros o Hb x Hp. split; [by apply basic_grows|intros Hs; by apply basic_frozen].
  - intros i r now x Ha Hp. split; [by apply bind_input_grows|intros Hs; by apply bind_input_frozen].
Qed.
Lemma quiescent_under_seal s q :
  open_seal s → w_output_quiescent s = Some q → under_seal s.
Proof.
  intros Hs Hq. destruct (os_sealed _ Hs q Hq) as (?&?&?&(m&?&?)&_).
  split_and!; [done..|by exists m].
Qed.

(** *** Conditions no run recovers from *)
Definition doomed (s : WatchState) : Prop :=
  (∃ v, w_terminal_violation s = Some v)
  ∨ (∃ r x, w_failed_response_statuses s !! r = Some x)
  ∨ (∃ n f, w_renderer_failures s !! n = Some f)
  ∨ 2 ≤ w_finish_count s
  ∨ (1 ≤ w_finish_count s ∧ w_session_finish_sent s = None)
  ∨ 0 < w_provider_writes_after_finish s.
Lemma doomed_grows s s' : ledger_grows s s' → doomed s → doomed s'.
Proof.
  intros Hg [[v H]|[(r&x&H)|[(n&f&H)|[H|[[H H']|H]]]]]; unfold doomed.
  - left. exists v. by eapply lg_violation.
  - right; left. destruct (lg_failed _ _ Hg r x H). eauto.
  - do 2 right; left. exists n, f. by eapply lg_failure.
  - do 3 right; left. by eapply lg_finish_twice.
  - do 4 right; left. destruct (lg_finish_once _ _ Hg H). split; [done|congruence].
  - do 5 right. by eapply lg_writes.
Qed.
Lemma doomed_no_snapshot s sn : open_seal s → doomed s → ¬ snapshot_checked s sn.
Proof.
  intros Hos Hd [Hopen Hf Hrf _ _ (sf & Hsf & Esf) _ Hord _ _ _ _ _].
  unfold provider_order_ok in Hord. apply negb_true_iff in Hord. bool_hyps.
  destruct Hd as [[v E]|[(r&x&E)|[(n&f&E)|[E|[[E E']|E]]]]].
  - specialize (Hopen (os_violation _ Hos v E)). unfold open_input_failure in Hopen.
    by rewrite E in Hopen.
  - rewrite Hf in E. by rewrite lookup_empty in E.
  - rewrite Hrf in E. by rewrite lookup_empty in E.
  - lia.
  - congruence.
  - lia.
Qed.
Lemma not_ok_err {A} (o : outcome A) : (∀ a, o ≠ Ok a) → ∃ e, o = Err e.
Proof. destruct o as [a|e]; [intros H; by destruct (H a)|by exists e]. Qed.
Lemma doomed_snapshot_fails s : watch_reachable sha256_hex s → doomed s →
  ∃ e, watch_snapshot s = Err e.
Proof.
  intros Hr Hd. apply not_ok_err. intros sn Hsn%watch_snapshot_ok.
  by eapply doomed_no_snapshot; [apply reachable_facts|..].
Qed.

(** ** Theorems *)
(** C1: A published snapshot is causally ordered: session.updated, then the last
    provider append, then session.finish, then session.finished; the capture
    fence and that same append precede session.finish, the response terminal of
    the last acknowledged cue precedes session.finished; the finish is the only
    one and nothing was written after it; the acknowledgement is the one of the
    last submitted cue, with that cue's response lineage. *)
Theorem snapshot_order s sn :
  watch_reachable sha256_hex s → watch_snapshot s = Ok sn →
  let su := sn_session_updated_received sn in
  let pa := sn_last_provider_append sn in
  let sf := sn_session_finish_sent sn in
  let pt := sn_session_finished_received sn in
  let rt := sn_last_response_terminal sn in
  let ack := sn_final_renderer_ack sn in
  0 < su_source_sequence su < pa_source_sequence pa
  ∧ pa_source_sequence pa < sf_source_sequence sf < pt_source_sequence pt
  ∧ sf_last_provider_append_source_sequence sf = pa_source_sequence pa
  ∧ w_provider_input_closed_source_sequence s
      = Some (sf_provider_input_closed_source_sequence sf)
  ∧ 0 < sf_provider_input_closed_source_sequence sf < sf_source_sequence sf
  ∧ 0 < rt_source_sequence rt < pt_source_sequence pt
  ∧ (sf_finish_count sf = 1 ∧ sf_provider_writes_after_finish sf = 0)
  ∧ (pa_append_index pa = w_append_count s
     ∧ pa_accepted_samples_total pa = w_accepted_samples_total s)
  ∧ su_sent_session_config_sha256 su = su_echoed_session_config_sha256 su
  ∧ rt_response_id rt = re_response_id ack
  ∧ re_cue_sequence ack = re_last_cue_sequence ack
  ∧ w_cue_sequences s !! re_cue_id ack = Some (w_next_cue_sequence s)
  ∧ w_cue_response_ids s !! re_cue_id ack = Some (re_response_id ack)
  ∧ is_blank (re_receipt_id ack) = false.
Proof.
  intros (He & Hc & _)%reachable_facts Hok%watch_snapshot_ok. cbv zeta.
  destruct Hok as [_ _ _ Hsu Hpa (sf & Hsf & Esf) (pt & Hpt & Ept) Hord _
                   (a & Ha & Ea) Hrt Hlt _].
  unfold provider_order_ok in Hord. apply negb_true_iff in Hord. bool_hyps.
  rewrite Esf, Ept, Ea in *. simpl in *.
  destruct (eo_updated _ He _ Hsu) as (?&?&?&?).
  destruct (eo_append _ He _ Hpa) as (?&?&?&?&?).
  destruct (eo_finish _ He _ Hsf) as (?&?&Hcl&?&pa&Hpa'&?&?). simplify_eq.
  destruct (eo_terminal _ He _ _ Hrt) as (?&?&_).
  pose proof (eo_closed _ He _ Hcl).
  destruct (cn_ack _ Hc _ _ Ha) as (?&?&?&?&?). destruct (cn_last _ Hc) as [El _].
  rewrite El in *. split_and!; try done; lia.
Qed.

(** C2: On reachable ledgers a snapshot is published exactly when the drain
    reports no failure, no response and no renderer failed, session.finish was
    sent once with nothing written after it, session.updated and
    session.finished were received, and the last cue has an acknowledgement
    whose response has a terminal. None of the ordering guards of the code can
    be what rejects it. *)
Theorem snapshot_exactly_when s :
  watch_reachable sha256_hex s →
  (∃ sn, watch_snapshot s = Ok sn) ↔
    (w_aec_open_input_drain s = true → open_input_failure s = None)
    ∧ w_failed_response_statuses s = ∅
    ∧ w_renderer_failures s = ∅
    ∧ w_finish_count s = 1
    ∧ w_provider_writes_after_finish s = 0
    ∧ is_Some (w_session_updated_received s)
    ∧ is_Some (w_session_finished_received s)
    ∧ ∃ a, w_renderer_acks s !! w_last_cue_sequence s = Some a
           ∧ is_Some (w_response_terminals s !! ack_response_id a).
Proof.
  intros (He & Hc & _)%reachable_facts. setoid_rewrite watch_snapshot_ok. split.
  - intros [sn [Hopen Hf Hrf Hsu _ _ (pt & Hpt & _) Hord _ (a & Ha & Ea) Hrt _ _]].
    unfold provider_order_ok in Hord. apply negb_true_iff in Hord. bool_hyps.
    rewrite Ea in Hrt. simpl in Hrt. split_and!; eauto.
  - intros (Hopen & Hf & Hrf & Hfc & Hw & [su Hsu] & [pt Hpt] & a & Ha & [rt Hrt]).
    destruct (eo_finished _ He _ Hpt) as (? & sf & Hsf & ?).
    destruct (eo_finish _ He _ Hsf) as (?&?&?&?&pa&Hpa&?&?).
    destruct (eo_append _ He _ Hpa) as (?&?&?&?&Hlt). specialize (Hlt _ Hsu).
    destruct (eo_terminal _ He _ _ Hrt) as (?&?&Hrlt). specialize (Hrlt _ Hpt).
    destruct (cn_ack _ Hc _ _ Ha) as (?&Hcue&_). pose proof (cn_range _ Hc _ _ Hcue).
    eexists (mk_snapshot _ _ _ _ _ _ _). split; simpl; eauto.
    + unfold provider_order_ok. simpl. rewrite Hfc, Hw. apply negb_true_iff.
      rewrite !orb_false_iff, !Z.leb_gt. simpl. split_and!; try done; lia.
    + lia.
Qed.

(** A failed response, a renderer failure, an open-input violation, a second
    or unproven session.finish and a write after it are final: whatever calls
    follow, no snapshot is published. *)
Theorem snapshot_failure_is_final s ops s' :
  watch_reachable sha256_hex s → doomed s → run (watch_step sha256_hex) s ops s' →
  ∃ e, watch_snapshot s' = Err e.
Proof.
  intros Hr Hd Hrun. apply doomed_snapshot_fails; [by eapply run_reachable|].
  eapply doomed_grows; [by eapply run_grows|done].
Qed.

(** After session.finish the finish evidence, the last append and the append
    totals never change, and one more append attempt makes every later
    snapshot fail. *)
Theorem finish_freezes_input s sf ops s' :
  watch_reachable sha256_hex s → w_session_finish_sent s = Some sf →
  run (watch_step sha256_hex) s ops s' →
  w_session_finish_sent s' = Some sf
  ∧ w_last_provider_append s' = w_last_provider_append s
  ∧ w_append_count s' = w_append_count s
  ∧ w_accepted_samples_total s' = w_accepted_samples_total s
  ∧ ∀ samples now, WProviderAppend samples now ∈ ops → samples ≠ 0 →
      ∃ e, watch_snapshot s' = Err e.
Proof.
  intros Hr Hsf Hrun. pose proof (run_grows sha256_hex _ _ _ Hrun) as Hg.
  destruct (lg_finish _ _ Hg sf Hsf) as (?&?&?&?). split_and!; try done.
  intros samples now Hin Hn. apply doomed_snapshot_fails; [by eapply run_reachable|].
  clear -Hr Hsf Hrun Hin Hn. induction Hrun as [s|s o s1 ops s2 Hstep Hrun IH].
  { by apply elem_of_nil in Hin. }
  apply elem_of_cons in Hin as [<-|Hin].
  - eapply doomed_grows; [by eapply run_grows|]. do 5 right. destruct Hstep as [_ <-].
    destruct (reachable_facts s Hr) as (He & _ & _).
    destruct (eo_counts _ He) as (_ & _ & _ & Hw).
    apply Z.eqb_neq in Hn. revert Hw. unfold_watch. rewrite Hn, Hsf. simpl.
    intros. saturating_lia.
  - apply IH; [by eapply reach_step| |done].
    by apply (lg_finish _ _ (run_grows sha256_hex s [o] s1 ltac:(econstructor; [done|constructor])) sf Hsf).
Qed.

(** Once output quiescence was approved the drain is sealed: along every later
    run no cue is added, no input owner changes, no speech and no response is
    active, and every cue has its acknowledgement. *)
Theorem quiescence_seals s q ops s' :
  watch_reachable sha256_hex s → w_output_quiescent s = Some q →
  run (watch_step sha256_hex) s ops s' →
  w_output_quiescent s' = Some q
  ∧ w_cue_sequences s' = w_cue_sequences s
  ∧ w_input_response_owners s' = w_input_response_owners s
  ∧ w_active_speech s' = ∅
  ∧ w_active_responses s' = ∅
  ∧ all_acked s'.
Proof.
  intros Hr Hq Hrun. destruct (reachable_facts s Hr) as (_ & _ & Hs).
  destruct (run_sealed _ _ _ Hrun) as [_ Hf].
  destruct (Hf (quiescent_under_seal s q Hs Hq)) as (?&?&Hq'&_). rewrite Hq in Hq'.
  destruct (reachable_facts s') as (_ & _ & Hs'); [by eapply run_reachable|].
  destruct (os_sealed _ Hs' q Hq') as (?&?&?&?&?&?&?&?). done.
Qed.

(** The calls that report new audible output. *)
Definition fresh_output (s : WatchState) (o : watch_op) : bool :=
  match o with
  | WCueSubmitted cue r _ =>
      negb (is_blank cue) && negb (is_blank r)
      && negb (is_Some_b (w_cue_sequences s !! cue))
  | WResponseStarted r _ | WNonemptyOutput r _ => negb (is_blank r)
  | WRendererStarted cue _ => is_Some_b (w_cue_sequences s !! cue)
  | WRendererFrames cue frames _ =>
      negb (frames =? 0) && is_Some_b (w_cue_sequences s !! cue)
  | _ => false
  end.

(** New output after approved quiescence (a new cue, response, output chunk,
    or physical playback of a cue) is rejected with an error and is fatal: it
    records a terminal violation, and no later snapshot is ever published. *)
Theorem output_after_quiescence_is_fatal s q o s1 ops s' :
  watch_reachable sha256_hex s → w_output_quiescent s = Some q →
  fresh_output s o = true →
  (exec_watch sha256_hex o s).2 = s1 → run (watch_step sha256_hex) s1 ops s' →
  (∃ msg, (exec_watch sha256_hex o s).1 = Err (Fail msg))
  ∧ ∃ e, watch_snapshot s' = Err e.
Proof.
  intros Hr Hq Hfresh Hs1 Hrun. destruct (reachable_facts s Hr) as (_ & _ & Hs).
  destruct (quiescent_under_seal s q Hs Hq) as (Ha & Hp & _).
  assert (H : (∃ msg, (exec_watch sha256_hex o s).1 = Err (Fail msg))
              ∧ ∃ v, w_terminal_violation s1 = Some v).
  { clear Hrun. unfold fresh_output in Hfresh. destruct o; try done; bool_hyps;
    subst; unfold_watch; split_run; bool_hyps; seal_guards; simplify_eq/=; try congruence;
    (split; [by eexists|by destruct (w_terminal_violation s); eexists]). }
  destruct H as [[msg Hmsg] Hv]. split; [by exists msg|].
  assert (Hr1 : watch_reachable sha256_hex s1).
  { eapply reach_step; [done|]. split; [|done]. by rewrite Hmsg. }
  eapply doomed_snapshot_fails; [by eapply run_reachable|].
  eapply doomed_grows; [by eapply run_grows|by left].
Qed.

(** Under the AEC drain a published snapshot comes only after the whole
    drain: media completion, approved quiescence, the capture fence and
    session.finish in that order, with no activity since the seal, no input
    segment pending, nothing active and every submitted cue acknowledged. *)
Theorem drained_snapshot s sn :
  watch_reachable sha256_hex s → w_aec_open_input_drain s = true →
  watch_snapshot s = Ok sn →
  w_open_input_phase s = PhaseFinished
  ∧ (∃ m q c, w_media_complete s = Some m ∧ w_output_quiescent s = Some q
      ∧ w_provider_input_closed_source_sequence s = Some c
      ∧ ae_source_sequence m < ae_source_sequence q < c
      ∧ c < sf_source_sequence (sn_session_finish_sent sn)
      ∧ ae_activity_generation q = w_activity_generation s)
  ∧ pending_input_segments s = 0
  ∧ w_active_speech s = ∅ ∧ w_active_responses s = ∅ ∧ all_acked s.
Proof.
  intros (He & _ & Hs)%reachable_facts Ha Hok%watch_snapshot_ok.
  destruct Hok as [Hopen Hfail _ _ _ (sf & Hsf & Esf) (pt & Hpt & _) _ _ _ _ _ _].
  destruct (os_finished _ Hs _ Hpt) as [_ Hph]. specialize (Hph Ha).
  destruct (os_capture _ Hs) as (q & c & Hq & Hc & ?); [congruence..|].
  destruct (os_sealed _ Hs q Hq) as (_&_&_&(m&Hm&?)&?&?&?&Hset).
  destruct (eo_finish _ He _ Hsf) as (_&_&Hc'&?&_).
  specialize (Hopen Ha). unfold open_input_failure in Hopen.
  rewrite Ha, Hq in Hopen. split_and!; try done.
  - exists m, q, c. rewrite Esf. simpl. split_and!; try done; [congruence|].
    destruct (w_terminal_violation s); [done|]. simpl in Hopen.
    destruct (ae_activity_generation q =? w_activity_generation s) eqn:E; [|done].
    by apply Z.eqb_eq.
  - by apply pending_input_segments_zero, Hset.
Qed.

(** Cue sequences number the submitted cues 1, 2, ... without gap or
    repetition, the last one being the last submitted; acknowledgements and
    failures are filed under the sequence of the cue they name. *)
Theorem cue_sequences_are_dense s :
  watch_reachable sha256_hex s →
  (∀ n, 1 ≤ n ≤ w_last_cue_sequence s ↔ ∃ c, w_cue_sequences s !! c = Some n)
  ∧ (∀ c c' n, w_cue_sequences s !! c = Some n → w_cue_sequences s !! c' = Some n → c = c')
  ∧ (∀ n a, w_renderer_acks s !! n = Some a →
       ack_cue_sequence a = n ∧ w_cue_sequences s !! ack_cue_id a = Some n
       ∧ w_cue_response_ids s !! ack_cue_id a = Some (ack_response_id a))
  ∧ (∀ n f, w_renderer_failures s !! n = Some f →
       rf_cue_sequence f = n ∧ w_cue_sequences s !! rf_cue_id f = Some n).
Proof.
  intros (_ & Hc & _)%reachable_facts. destruct (cn_last _ Hc) as [El _]. split_and!.
  - intros n. rewrite El. split; [apply (cn_dense _ Hc)|intros [c H]; by eapply cn_range].
  - apply (cn_injective _ Hc).
  - intros n a H. destruct (cn_ack _ Hc _ _ H) as (?&?&?&_). done.
  - intros n f H. destruct (cn_failure _ Hc _ _ H) as (?&?&_). done.
Qed.

(** A renderer receipt counts once: after it was accepted, delivering the same
    receipt id again, for any cue and at any later time, changes nothing. *)
Theorem renderer_receipt_counts_once s cue authority receipt now1 now2 s1 ops s2
    cue' authority' now3 now4 :
  renderer_ack cue authority receipt now1 now2 s = (Ok tt, s1) →
  run (watch_step sha256_hex) s1 ops s2 →
  receipt ∈ w_renderer_receipt_ids s2
  ∧ (renderer_ack cue' authority' receipt now3 now4 s2).2 = s2.
Proof.
  intros H Hrun.
  assert (Hin : receipt ∈ w_renderer_receipt_ids s1).
  { revert H. unfold_watch. split_run; intros; bool_hyps; simplify_eq/=; set_solver. }
  pose proof (lg_receipt _ _ (run_grows sha256_hex _ _ _ Hrun) _ Hin) as Hin2.
  split; [done|]. assert (Hb : bool_decide (receipt ∈ w_renderer_receipt_ids s2) = true)
    by by apply bool_decide_eq_true.
  unfold_watch. split_run; simpl in *; congruence.
Qed.

(** *** The locked ledger *)
Definition tracked (l : WatchLifecycle) : Prop :=
  lc_poisoned l = false → ∀ s, lc_state l = Some s → watch_reachable sha256_hex s.
Lemma with_active_mut_tracked {A} (m : M WatchState A) a :
  (∀ s, watch_reachable sha256_hex s → is_panic (m s).1 = false →
        watch_reachable sha256_hex (m s).2) →
  evolves (preserved tracked) (with_active_mut m a).
Proof.
  intros Hm l Hl. unfold with_active_mut.
  destruct (lc_poisoned l) eqn:Hp; [done|]. destruct (lc_state l) as [s|] eqn:Hs; [|done].
  destruct (m s) as [o s'] eqn:E. intros Hp' s0. simpl in *. intros [= <-].
  specialize (Hm s). rewrite E in Hm. by apply Hm; [apply Hl|].
Qed.
Lemma ignore_reach {A} (m : M WatchState A) s : (ignore m s).2 = (m s).2
  ∧ is_panic (ignore m s).1 = is_panic (m s).1.
Proof. unfold ignore, bind, ret. by destruct (m s) as [[?|[]] ?]. Qed.
Lemma pure_tracked {A} (m : M WatchState A) a :
  (∀ s, (m s).2 = s) → evolves (preserved tracked) (with_active_mut m a).
Proof. intros H. apply with_active_mut_tracked. intros s Hs _. by rewrite H. Qed.
Lemma aec_events_tracked status :
  evolves (preserved tracked) (record_strict_watch_aec_provider_lifecycle status).
Proof.
  intros l Hl. unfold record_strict_watch_aec_provider_lifecycle.
  pose proof (pure_tracked (check_open_input_failure ;;; gets w_provider_session_id) None) as H.
  specialize (H ltac:(intros s; unfold_watch; by destruct (open_input_failure s)) l Hl).
  unfold strict_watch_provider_session_id.
  destruct (with_active_mut _ None l) as [[[id|]|[]] l']; exact H.
Qed.
Lemma exec_tracked {A} (m : M WatchState A) a o :
  (∀ s, (m s).2 = (exec_watch sha256_hex o s).2
        ∧ is_panic (m s).1 = is_panic (exec_watch sha256_hex o s).1) →
  evolves (preserved tracked) (with_active_mut m a).
Proof.
  intros H. apply with_active_mut_tracked. intros s Hs Hp. destruct (H s) as [E1 E2].
  rewrite E1. eapply reach_step; [done|]. split; [by rewrite <- E2|done].
Qed.
Lemma call_tracked o : evolves (preserved tracked) (call sha256_hex o).
Proof.
  assert (Hd : evolves (preserved tracked) (with_active_mut (exec_watch sha256_hex o) tt)).
  { by apply (exec_tracked _ _ o). }
  assert (Hev : ∀ status, evolves (preserved tracked)
            (record_strict_watch_aec_provider_lifecycle status)) by apply aec_events_tracked.
  destruct o; simpl; try exact Hd; clear Hd.
  - apply evolves_bind; [typeclasses eauto| |intros _; apply Hev].
    by apply (exec_tracked _ _ (WSessionFinishSent now)).
  - apply evolves_bind; [typeclasses eauto| |intros _; auto with evolve typeclass_instances].
    apply evolves_bind; [typeclasses eauto| |intros n].
    + apply (exec_tracked _ _ (WProviderInputClosed now)). intros s. simpl.
      by destruct (ignore_reach (provider_input_closed now) s).
    + apply evolves_bind; [typeclasses eauto|apply Hev|auto with evolve typeclass_instances].
  - apply evolves_bind; [typeclasses eauto| |intros _; apply Hev].
    by apply (exec_tracked _ _ (WSessionFinished now)).
  - apply evolves_bind; [typeclasses eauto| |intros _; auto with evolve typeclass_instances].
    apply (exec_tracked _ _ (WCueSubmitted cue response now)). intros s. simpl.
    by destruct (ignore_reach (cue_sequence cue response now) s).
  - apply evolves_bind; [typeclasses eauto| |].
    + apply (exec_tracked _ _ (WProviderSessionCreated session)). intros s. simpl.
      by destruct (ignore_reach (provider_session_created session) s).
    + intros [[id qpc]|]; [|auto with evolve typeclass_instances].
      apply evolves_modify. by intros l Hl Hp s Hs; apply Hl.
Qed.
Lemma begin_tracked identity : evolves (preserved tracked) (begin identity).
Proof.
  intros l Hl. unfold begin. repeat case_match; try exact Hl.
  intros _ s. simpl. intros [= <-]. constructor. by eexists.
Qed.

(** C3: What the desktop publishes is a snapshot of a reachable ledger: in every
    state of the locked ledger, snapshot succeeds only on an initialised,
    unpoisoned ledger whose contents were built by its calls, and it is the
    snapshot of those contents. *)
Theorem published_snapshot_is_reachable l sn :
  lifecycle_reachable sha256_hex l → snapshot l = Ok sn →
  lc_poisoned l = false
  ∧ ∃ s, lc_state l = Some s ∧ watch_reachable sha256_hex s ∧ watch_snapshot s = Ok sn.
Proof.
  intros Hl. assert (Ht : tracked l).
  { induction Hl as [l ->|l o l' _ IH <-]; [done|]. revert IH.
    destruct o; [apply begin_tracked|apply call_tracked]. }
  unfold snapshot, locked. destruct (lc_poisoned l) eqn:Hp; [done|].
  destruct (lc_state l) as [s|] eqn:Hs; [|done]. simpl. intros Hok.
  split; [done|]. exists s. split; [done|]. split; [by apply Ht|done].
Qed.
End Runs.

(** ** Witnesses *)
Definition digest_a : string := "aaaaaaaaaaaaaaaaaaaaaaaaaaaaaaaaaaaaaaaaaaaaaaaaaaaaaaaaaaaaaaaa".
Definition no_sha (s : string) : string := s.
Definition demo_identity : StrictWatchTerminalIdentity := mk_identity "run" "cell" "lease".
(** A run of the drain up to the approval of quiescence, and its completion. *)
Definition drain_ops : list watch_op :=
  [ WEnableAec; WSessionUpdated digest_a digest_a digest_a 1; WProviderAppend 480 2;
    WInputSpeech "item" true 3; WInputSpeech "item" false 4; WMediaComplete 5;
    WResponseStarted "resp" 6; WInputBindings [("item", "resp")] (λ _, 7);
    WCueSubmitted "cue" "resp" 8; WResponseTerminal "responseDone" "resp" 9 10;
    WRendererAck "cue" "physical" "receipt" 11 12; WApproveQuiescence 7 13 ].
Definition close_ops : list watch_op :=
  [ WProviderInputClosed 14; WSessionFinishSent 15; WSessionFinished 16 ].
Definition run_demo (ops : list watch_op) : WatchState :=
  default (initial_watch demo_identity) (exec_ops no_sha ops (initial_watch demo_identity)).
Definition after (ops : list watch_op) (s : WatchState) : WatchState :=
  default s (exec_ops no_sha ops s).
Definition run_lifecycle (ops : list lifecycle_op) : WatchLifecycle :=
  fold_left (λ l o, (exec_lifecycle no_sha o l).2) ops lifecycle_default.

Lemma run_demo_reachable ops :
  is_Some_b (exec_ops no_sha ops (initial_watch demo_identity)) = true →
  watch_reachable no_sha (run_demo ops).
Proof. intros [s H]%is_Some_b_true. unfold run_demo. rewrite H. by eapply exec_ops_reachable. Qed.
Lemma after_run ops s : is_Some_b (exec_ops no_sha ops s) = true →
  run (watch_step no_sha) s ops (after ops s).
Proof. intros [s' H]%is_Some_b_true. unfold after. rewrite H. by apply exec_ops_run. Qed.
Lemma run_lifecycle_reachable ops : lifecycle_reachable no_sha (run_lifecycle ops).
Proof.
  unfold run_lifecycle. assert (H : lifecycle_reachable no_sha lifecycle_default)
    by by constructor.
  revert H. generalize lifecycle_default. induction ops as [|o ops IH]; intros l Hl; [done|].
  simpl. apply IH. by eapply reach_step.
Qed.

#[local] Opaque run_demo after.
Lemma snapshot_order_witness : ∃ s sn, watch_snapshot s = Ok sn
  ∧ su_source_sequence (sn_session_updated_received sn)
    < pa_source_sequence (sn_last_provider_append sn).
Proof.
  exists (run_demo (drain_ops ++ close_ops)).
  destruct (watch_snapshot (run_demo (drain_ops ++ close_ops))) as [sn|e] eqn:E.
  - exists sn. split; [done|].
    apply (snapshot_order no_sha (run_demo (drain_ops ++ close_ops)) sn); [|done].
    apply run_demo_reachable. by vm_compute.
  - assert (H : is_ok (watch_snapshot (run_demo (drain_ops ++ close_ops))) = true)
      by by vm_compute.
    by rewrite E in H.
Defined.
Lemma snapshot_exactly_when_witness :
  ∃ sn, watch_snapshot (run_demo (drain_ops ++ close_ops)) = Ok sn.
Proof.
  apply (snapshot_exactly_when no_sha (run_demo (drain_ops ++ close_ops))); [apply run_demo_reachable; by vm_compute|].
  split_and!; try by vm_compute.
  - apply is_Some_alt. by vm_compute.
  - apply is_Some_alt. by vm_compute.
  - eexists. split; [by vm_compute|]. apply is_Some_alt. by vm_compute.
Defined.
Lemma snapshot_failure_is_final_witness :
  ∃ e, watch_snapshot (after close_ops (run_demo
         (drain_ops ++ [WRendererFailure "cue" "evidence lost"]))) = Err e.
Proof.
  apply (snapshot_failure_is_final no_sha
           (run_demo (drain_ops ++ [WRendererFailure "cue" "evidence lost"])) close_ops); [apply run_demo_reachable; by vm_compute| |
    apply after_run; by vm_compute].
  do 2 right; left. exists 1. eexists. by vm_compute.
Defined.
Lemma finish_freezes_input_witness :
  ∃ e, watch_snapshot (after [WProviderAppend 480 17] (run_demo (drain_ops ++ close_ops)))
       = Err e.
Proof.
  assert (H : ∃ sf, w_session_finish_sent (run_demo (drain_ops ++ close_ops)) = Some sf)
    by (eexists; by vm_compute).
  destruct H as [sf Hsf].
  apply (finish_freezes_input no_sha (run_demo (drain_ops ++ close_ops)) sf
           [WProviderAppend 480 17] _) with (samples := 480) (now := 17);
    [apply run_demo_reachable; by vm_compute|exact Hsf|apply after_run; by vm_compute|left|done].
Defined.
Lemma quiescence_seals_witness :
  w_cue_sequences (after close_ops (run_demo drain_ops)) = w_cue_sequences (run_demo drain_ops).
Proof.
  assert (H : ∃ q, w_output_quiescent (run_demo drain_ops) = Some q)
    by (eexists; by vm_compute).
  destruct H as [q Hq].
  apply (quiescence_seals no_sha (run_demo drain_ops) q close_ops);
    [apply run_demo_reachable; by vm_compute|exact Hq|apply after_run; by vm_compute].
Defined.
Lemma output_after_quiescence_is_fatal_witness :
  ∃ e, watch_snapshot (after close_ops
    (exec_watch no_sha (WNonemptyOutput "late" 20) (run_demo drain_ops)).2) = Err e.
Proof.
  assert (H : ∃ q, w_output_quiescent (run_demo drain_ops) = Some q)
    by (eexists; by vm_compute).
  destruct H as [q Hq].
  apply (output_after_quiescence_is_fatal no_sha (run_demo drain_ops) q
           (WNonemptyOutput "late" 20)
           (exec_watch no_sha (WNonemptyOutput "late" 20) (run_demo drain_ops)).2 close_ops);
    [apply run_demo_reachable; by vm_compute|exact Hq|by vm_compute|reflexivity|
     apply after_run; by vm_compute].
Defined.
Lemma drained_snapshot_witness :
  pending_input_segments (run_demo (drain_ops ++ close_ops)) = 0.
Proof.
  destruct (watch_snapshot (run_demo (drain_ops ++ close_ops))) as [sn|e] eqn:E.
  - apply (drained_snapshot no_sha (run_demo (drain_ops ++ close_ops)) sn); [apply run_demo_reachable; by vm_compute| |exact E].
    by vm_compute.
  - assert (H : is_ok (watch_snapshot (run_demo (drain_ops ++ close_ops))) = true)
      by by vm_compute.
    by rewrite E in H.
Defined.
Lemma cue_sequences_are_dense_witness :
  ∃ c, w_cue_sequences (run_demo drain_ops) !! c = Some 1.
Proof.
  apply (cue_sequences_are_dense no_sha (run_demo drain_ops)); [apply run_demo_reachable; by vm_compute|].
  by vm_compute.
Defined.
Definition before_ack : WatchState := run_demo (take 10 drain_ops).
Definition after_ack : WatchState := (renderer_ack "cue" "physical" "receipt" 11 12 before_ack).2.
Lemma renderer_receipt_counts_once_witness :
  (renderer_ack "cue" "other" "receipt" 20 21 (after [WApproveQuiescence 7 13] after_ack)).2
  = after [WApproveQuiescence 7 13] after_ack.
Proof.
  apply (renderer_receipt_counts_once no_sha before_ack "cue" "physical" "receipt" 11 12
           after_ack [WApproveQuiescence 7 13]).
  - unfold after_ack. destruct (renderer_ack _ _ _ _ _ before_ack) as [o s] eqn:E.
    assert (Ho : (renderer_ack "cue" "physical" "receipt" 11 12 before_ack).1 = Ok tt)
      by by vm_compute.
    rewrite E in Ho. simpl in *. by rewrite Ho.
  - apply after_run. by vm_compute.
Defined.
Definition demo_calls : list lifecycle_op :=
  LBegin "run" "cell" "lease" :: (LCall <$> (drain_ops ++ close_ops)).
Lemma published_snapshot_is_reachable_witness : lc_poisoned (run_lifecycle demo_calls) = false.
Proof.
  destruct (snapshot (run_lifecycle demo_calls)) as [sn|e] eqn:E.
  - apply (published_snapshot_is_reachable no_sha (run_lifecycle demo_calls) sn); [apply run_lifecycle_reachable|exact E].
  - assert (H : is_ok (snapshot (run_lifecycle demo_calls)) = true) by by vm_compute.
    by rewrite E in H.
Defined.
