(* ===== verification/PlaybackQuiescence.v ===== *)
(** * Quiescence of translated playback

    Models [audio/state/playback_quiescence.rs]: what keeps translated playback
    busy, and the barrier a restart of the playback owner takes. A method is one
    step under the mutex; a method that waits for the barrier on the condition
    variable is a step only while the barrier is down, which is when its loop
    ends. The order in which the hash map iterates is a parameter. *)
From S2P Require Import Prelude RustStr.

(** ** Data *)
Record TranslationPlaybackAuthority := mk_authority {
  pa_session_id : string; pa_bridge_instance_id : string; pa_source_generation : Z;
  pa_source_generation_token : string; pa_playback_owner_generation : Z;
  pa_physical_playback_device_id : string
}.
#[export] Instance authority_eq_dec : EqDecision TranslationPlaybackAuthority.
Proof. solve_decision. Defined.
Record TranslationPlaybackQuiescenceSnapshot := mk_snapshot {
  qs_pending_native_audio : bool; qs_queued_commands : Z; qs_active_commands : Z;
  qs_pending_audio_frames : option Z; qs_output_sample_rate_hz : option Z;
  qs_pending_playback_submissions : Z; qs_pending_bridge_acks : Z; qs_active_bridge_cues : Z;
  qs_restart_barrier : bool
}.
#[export] Instance quiescence_snapshot_settable : Settable TranslationPlaybackQuiescenceSnapshot := λ s,
  mk_snapshot (qs_pending_native_audio s) (qs_queued_commands s) (qs_active_commands s)
    (qs_pending_audio_frames s) (qs_output_sample_rate_hz s) (qs_pending_playback_submissions s)
    (qs_pending_bridge_acks s) (qs_active_bridge_cues s) (qs_restart_barrier s).
Definition is_quiescent (s : TranslationPlaybackQuiescenceSnapshot) : bool :=
  negb (qs_pending_native_audio s) && (qs_queued_commands s =? 0) && (qs_active_commands s =? 0)
  && negb (match qs_pending_audio_frames s with Some frames => 0 <? frames | None => false end)
  && (qs_pending_playback_submissions s =? 0) && (qs_pending_bridge_acks s =? 0)
  && (qs_active_bridge_cues s =? 0) && negb (qs_restart_barrier s).
Record BridgePlaybackCue := mk_bridge_cue {
  bc_authority : option TranslationPlaybackAuthority; bc_pending_audio_frames : option Z;
  bc_output_sample_rate_hz : option Z
}.
#[export] Instance bridge_cue_eq_dec : EqDecision BridgePlaybackCue.
Proof. solve_decision. Defined.
#[export] Instance bridge_cue_settable : Settable BridgePlaybackCue := λ c,
  mk_bridge_cue (bc_authority c) (bc_pending_audio_frames c) (bc_output_sample_rate_hz c).
Record TranslationPlaybackQuiescenceState := mk_quiescence {
  qt_snapshot : TranslationPlaybackQuiescenceSnapshot; qt_queued_audio_frames : Z;
  qt_queued_audio_sample_rate_hz : Z; qt_active_bridge_cues : gmap string BridgePlaybackCue
}.
#[export] Instance quiescence_settable : Settable TranslationPlaybackQuiescenceState := λ s,
  mk_quiescence (qt_snapshot s) (qt_queued_audio_frames s) (qt_queued_audio_sample_rate_hz s)
    (qt_active_bridge_cues s).
Definition quiescence_default : TranslationPlaybackQuiescenceState :=
  mk_quiescence (mk_snapshot false 0 0 None None 0 0 0 false) 0 0 ∅.

(** ** Pending audio *)
(** The loop over the cues: the total and the common rate, or [None] as soon as
    a cue's duration is unknown or its rate differs. *)
Fixpoint sum_pending (cues : list BridgePlaybackCue) (total : Z) (rate : option Z)
    : option (Z * option Z) :=
  match cues with
  | [] => Some (total, rate)
  | cue :: cues =>
      match bc_pending_audio_frames cue, bc_output_sample_rate_hz cue with
      | Some frames, Some cue_rate =>
          match rate with
          | Some existing =>
              if negb (existing =? cue_rate) then None
              else sum_pending cues (saturating_add total frames) rate
          | None => sum_pending cues (saturating_add total frames) (Some cue_rate)
          end
      | _, _ => None
      end
  end.
Section Quiescence.
Context (values : gmap string BridgePlaybackCue → list BridgePlaybackCue).

Definition refresh_pending_audio (s : TranslationPlaybackQuiescenceState)
    : TranslationPlaybackQuiescenceState :=
  let rate := if 0 <? qt_queued_audio_sample_rate_hz s
              then Some (qt_queued_audio_sample_rate_hz s) else None in
  let '(frames, rate) :=
    match sum_pending (values (qt_active_bridge_cues s)) (qt_queued_audio_frames s) rate with
    | Some (total, rate) => (Some total, rate)
    | None => (None, None)
    end in
  s <| qt_snapshot ::= λ q, q <| qs_pending_audio_frames := frames |>
                              <| qs_output_sample_rate_hz := rate |> |>.
Definition snapshot (f : TranslationPlaybackQuiescenceSnapshot → TranslationPlaybackQuiescenceSnapshot)
    (s : TranslationPlaybackQuiescenceState) : TranslationPlaybackQuiescenceState :=
  s <| qt_snapshot ::= f |>.
(** [state.snapshot.active_bridge_cues = state.active_bridge_cues.len()] and the refresh. *)
Definition recount (s : TranslationPlaybackQuiescenceState) : TranslationPlaybackQuiescenceState :=
  refresh_pending_audio
    (snapshot (λ q, q <| qs_active_bridge_cues := Z.of_nat (size (qt_active_bridge_cues s)) |>) s).

(** ** Operations, once their wait is over *)
Definition set_pending_native_audio (pending : bool) : TranslationPlaybackQuiescenceState →
    TranslationPlaybackQuiescenceState := snapshot (λ q, q <| qs_pending_native_audio := pending |>).
Definition set_queue_state (queued_commands active_commands pending_audio_frames
    output_sample_rate_hz : Z) (s : TranslationPlaybackQuiescenceState)
    : TranslationPlaybackQuiescenceState :=
  refresh_pending_audio
    ((snapshot (λ q, q <| qs_queued_commands := queued_commands |>
                      <| qs_active_commands := active_commands |>) s)
      <| qt_queued_audio_frames := pending_audio_frames |>
      <| qt_queued_audio_sample_rate_hz := output_sample_rate_hz |>).
Definition begin_bridge_ack : TranslationPlaybackQuiescenceState → TranslationPlaybackQuiescenceState :=
  snapshot (λ q, q <| qs_pending_bridge_acks ::= λ n, saturating_add n 1 |>).
Definition drop_ack : TranslationPlaybackQuiescenceState → TranslationPlaybackQuiescenceState :=
  snapshot (λ q, q <| qs_pending_bridge_acks ::= λ n, saturating_sub n 1 |>).
Definition is_terminal_status (status : string) : bool :=
  bool_decide (status = "completed") || bool_decide (status = "route-failed")
  || bool_decide (status = "stale-dropped").
Definition observe_bridge_playback_status (cue_id status : string)
    (s : TranslationPlaybackQuiescenceState) : TranslationPlaybackQuiescenceState :=
  if bool_decide (status = "queued") || bool_decide (status = "started") then
    recount (s <| qt_active_bridge_cues ::= λ m,
      match m !! cue_id with
      | Some _ => m
      | None => <[cue_id := mk_bridge_cue None None None]> m
      end |>)
  else if is_terminal_status status then
    recount (s <| qt_active_bridge_cues ::= λ m,
      match m !! cue_id with
      | Some cue => if is_Some_b (bc_authority cue) then m else delete cue_id m
      | None => m
      end |>)
  else s.
Definition expect_bridge_playback_cue_for_owner (cue_id : string)
    (authority : TranslationPlaybackAuthority) (audio_frames output_sample_rate_hz : Z)
    (s : TranslationPlaybackQuiescenceState) : TranslationPlaybackQuiescenceState :=
  if is_blank cue_id then s
  else
    let cue := default (mk_bridge_cue (Some authority) (Some 0) (Some output_sample_rate_hz))
                 (qt_active_bridge_cues s !! cue_id) in
    let cue :=
      if bool_decide (bc_authority cue = Some authority) then
        if bool_decide (bc_output_sample_rate_hz cue = Some output_sample_rate_hz)
        then cue <| bc_pending_audio_frames ::= fmap (λ frames, saturating_add frames audio_frames) |>
        else cue <| bc_pending_audio_frames := None |> <| bc_output_sample_rate_hz := None |>
      else mk_bridge_cue (Some authority) (Some audio_frames) (Some output_sample_rate_hz) in
    recount (s <| qt_active_bridge_cues ::= <[cue_id := cue]> |>).
Definition bridge_playback_cue_matches_owner (cue_id : string)
    (authority : TranslationPlaybackAuthority) (s : TranslationPlaybackQuiescenceState) : bool :=
  match qt_active_bridge_cues s !! cue_id with
  | Some expected => bool_decide (bc_authority expected = Some authority)
  | None => false
  end.
Definition observe_bridge_playback_status_for_owner (cue_id status : string)
    (authority : TranslationPlaybackAuthority) (s : TranslationPlaybackQuiescenceState)
    : bool * TranslationPlaybackQuiescenceState :=
  if negb (bridge_playback_cue_matches_owner cue_id authority s) then (false, s)
  else if is_terminal_status status
  then (true, recount (s <| qt_active_bridge_cues ::= delete cue_id |>))
  else (true, s).
Definition wait_for_restart_barrier : TranslationPlaybackQuiescenceState →
    TranslationPlaybackQuiescenceState :=
  snapshot (λ q, q <| qs_pending_playback_submissions ::= λ n, saturating_add n 1 |>).
Definition drop_submission : TranslationPlaybackQuiescenceState → TranslationPlaybackQuiescenceState :=
  snapshot (λ q, q <| qs_pending_playback_submissions ::= λ n, saturating_sub n 1 |>).
(** The new state when a guard is handed out. *)
Definition try_begin_restart_barrier (s : TranslationPlaybackQuiescenceState)
    : option TranslationPlaybackQuiescenceState :=
  if negb (is_quiescent (qt_snapshot s)) then None
  else Some (snapshot (λ q, q <| qs_restart_barrier := true |>) s).
Definition drop_restart : TranslationPlaybackQuiescenceState → TranslationPlaybackQuiescenceState :=
  snapshot (λ q, q <| qs_restart_barrier := false |>).

(** ** Interleavings *)
(** The shared state and the guards alive. *)
Record Guards := mk_guards {
  gd_state : TranslationPlaybackQuiescenceState; gd_acks : Z; gd_submissions : Z; gd_restarts : Z
}.
#[export] Instance guards_settable : Settable Guards := λ g,
  mk_guards (gd_state g) (gd_acks g) (gd_submissions g) (gd_restarts g).
Definition initial_guards : Guards := mk_guards quiescence_default 0 0 0.
Inductive quiescence_label :=
| QNative (pending : bool)
| QQueue (queued_commands active_commands pending_audio_frames output_sample_rate_hz : Z)
| QAck | QDropAck
| QStatus (cue_id status : string)
| QExpect (cue_id : string) (authority : TranslationPlaybackAuthority)
    (audio_frames output_sample_rate_hz : Z)
| QStatusForOwner (cue_id status : string) (authority : TranslationPlaybackAuthority)
| QSubmission | QDropSubmission
| QTryRestart | QDropRestart.
Definition barrier (g : Guards) : bool := qs_restart_barrier (qt_snapshot (gd_state g)).
(** A caller that waits for the barrier moves only when it is down; a guard is
    dropped once, and fewer than 2^64 of a kind are alive. *)
Definition exec_quiescence (l : quiescence_label) (g : Guards) : option Guards :=
  match l with
  | QNative pending =>
      if pending && barrier g then None
      else Some (g <| gd_state ::= set_pending_native_audio pending |>)
  | QQueue q a f r => Some (g <| gd_state ::= set_queue_state q a f r |>)
  | QAck =>
      if barrier g || (u64_max <=? gd_acks g) then None
      else Some (g <| gd_state ::= begin_bridge_ack |> <| gd_acks ::= λ n, n + 1 |>)
  | QDropAck =>
      if gd_acks g <=? 0 then None
      else Some (g <| gd_state ::= drop_ack |> <| gd_acks ::= λ n, n - 1 |>)
  | QStatus cue_id status => Some (g <| gd_state ::= observe_bridge_playback_status cue_id status |>)
  | QExpect cue_id authority frames rate =>
      if negb (is_blank cue_id) && barrier g then None
      else Some (g <| gd_state ::= expect_bridge_playback_cue_for_owner cue_id authority frames rate |>)
  | QStatusForOwner cue_id status authority =>
      Some (g <| gd_state ::= λ s, (observe_bridge_playback_status_for_owner cue_id status authority s).2 |>)
  | QSubmission =>
      if barrier g || (u64_max <=? gd_submissions g) then None
      else Some (g <| gd_state ::= wait_for_restart_barrier |> <| gd_submissions ::= λ n, n + 1 |>)
  | QDropSubmission =>
      if gd_submissions g <=? 0 then None
      else Some (g <| gd_state ::= drop_submission |> <| gd_submissions ::= λ n, n - 1 |>)
  | QTryRestart =>
      Some (match try_begin_restart_barrier (gd_state g) with
            | Some s => g <| gd_state := s |> <| gd_restarts ::= λ n, n + 1 |>
            | None => g
            end)
  | QDropRestart =>
      if gd_restarts g <=? 0 then None
      else Some (g <| gd_state ::= drop_restart |> <| gd_restarts ::= λ n, n - 1 |>)
  end.
(** Sample counts and rates come from unsigned 64- and 32-bit arguments. *)
Definition label_ok (l : quiescence_label) : Prop :=
  match l with
  | QQueue q a f r => 0 ≤ q ∧ 0 ≤ a ∧ 0 ≤ f ≤ u64_max ∧ 0 ≤ r
  | QExpect _ _ f r => 0 ≤ f ≤ u64_max ∧ 0 ≤ r
  | _ => True
  end.
Definition quiescence_step (g : Guards) (l : quiescence_label) (g' : Guards) : Prop :=
  label_ok l ∧ exec_quiescence l g = Some g'.
Definition quiescence_reachable : Guards → Prop := reachable (eq initial_guards) quiescence_step.
End Quiescence.
