(* ===== verification/WatchDrain.v ===== *)
(** * How a strict Watch run is brought to its end

    Models the policies of [watch_mode_diagnostic/] that poll the ledgers until
    a run may be completed: [open_input_drain.rs] (the quiet window before
    output quiescence is approved), [playback_drain.rs] with the confirmation
    of [mod.rs], [provider_terminal_observer.rs], and the record of what was
    observed, [terminal_authority.rs].

    Instants and durations are nanoseconds in [Z]. A poll carries what one
    round of a loop reads: the clock, the ledger's and the playback's snapshots
    and, for the source coverage (a floating-point comparison of texts), its
    answer. *)
From stdpp Require Import sorting.
From S2P Require Import Prelude RustStr PlaybackQuiescence WatchTerminal.

(** ** The open-input drain ([open_input_drain.rs]) *)
Definition QUIET_CONFIRMATION : Z := 2000000000.
Definition EXPECTED_SOURCE_SEGMENTS : Z := 6.

Record OpenInputDrain := mk_drain {
  od_deadline : Z;
  od_generation : option Z;
  od_quiet_since : option Z;
  od_quiet_start_append : option StrictWatchProviderAppendEvidence
}.
#[export] Instance drain_settable : Settable OpenInputDrain := λ d,
  mk_drain (od_deadline d) (od_generation d) (od_quiet_since d) (od_quiet_start_append d).

Definition new_drain (started watchdog : Z) : OpenInputDrain :=
  mk_drain (started + watchdog) None None None.

(** The conditions of the quiet state. *)
Definition is_quiet (snapshot : StrictWatchOpenInputSnapshot) (playback_quiet : bool)
    (source_covered : Z) : bool :=
  os_session_updated snapshot && is_Some_b (os_media_complete snapshot)
  && (os_pending_speech snapshot =? 0) && (os_pending_responses snapshot =? 0)
  && (os_pending_input_segments snapshot =? 0)
  && (os_pending_renderer_acks snapshot =? 0) && is_Some_b (os_last_output snapshot)
  && is_Some_b (os_last_physical_completed snapshot) && playback_quiet
  && (source_covered =? EXPECTED_SOURCE_SEGMENTS).

(** The latest of the five activity times, 0 when there is none. *)
Definition last_activity_at (snapshot : StrictWatchOpenInputSnapshot) : Z :=
  foldr Z.max 0 (omap (λ event, ae_observed_at_unix_ms <$> event)
    [os_last_input_speech snapshot; os_last_output snapshot; os_last_physical_started snapshot;
     os_last_physical_frame snapshot; os_last_physical_completed snapshot]).

(** Whether enough provider input was sent between the two appends. *)
Definition send_window_covered (first last : option StrictWatchProviderAppendEvidence) : bool :=
  match first, last with
  | Some first, Some last =>
      (pa_source_sequence first <? pa_source_sequence last)
      && (pa_append_index first <? pa_append_index last)
      && (32000 <=? saturating_sub (pa_accepted_samples_total last) (pa_accepted_samples_total first))
      && (2000 <=? saturating_sub (pa_observed_at_unix_ms last) (pa_observed_at_unix_ms first))
  | _, _ => false
  end.

Definition observe (now : Z) (snapshot : StrictWatchOpenInputSnapshot) (playback_quiet : bool)
    (source_covered : Z) : M OpenInputDrain bool :=
  let* d := gets id in
  fail_if (od_deadline d <=? now) "watch.aec-output-quiescence-timeout" ;;;
  fail_if (negb (bool_decide (os_phase snapshot = PhaseOpen)) || negb (os_input_open snapshot)
           || negb (os_provider_input_open snapshot))
    "watch.aec-input-closed-before-output-quiescence" ;;;
  let generation_changed :=
    negb (bool_decide (od_generation d = Some (os_activity_generation snapshot))) in
  modify (λ d, d <| od_generation := Some (os_activity_generation snapshot) |>) ;;;
  if negb (is_quiet snapshot playback_quiet source_covered) then
    modify (λ d, d <| od_quiet_since := None |> <| od_quiet_start_append := None |>) ;;;
    ret false
  else
    when (generation_changed || negb (is_Some_b (od_quiet_since d)))
      (modify (λ d, d <| od_quiet_since := Some now |>
                      <| od_quiet_start_append := os_last_provider_append snapshot |>)) ;;;
    let last_activity_at := last_activity_at snapshot in
    modify (λ d, d <| od_quiet_start_append ::= λ first,
      match first with
      | Some append => if pa_observed_at_unix_ms append <? last_activity_at then None else first
      | None => None
      end |>) ;;;
    modify (λ d, d <| od_quiet_start_append ::= λ first,
      match first with
      | Some _ => first
      | None =>
          match os_last_provider_append snapshot with
          | Some append => if last_activity_at <=? pa_observed_at_unix_ms append then Some append else None
          | None => None
          end
      end |>) ;;;
    let* since := gets (λ d, default now (od_quiet_since d)) in
    modify (λ d, d <| od_quiet_since := Some since |>) ;;;
    let* first := gets od_quiet_start_append in
    ret ((QUIET_CONFIRMATION <=? saturating_sub now since)
         && send_window_covered first (os_last_provider_append snapshot)).

(** One round of [await_open_input_quiescence]. *)
Record Poll := mk_poll {
  po_now : Z;
  po_snapshot : StrictWatchOpenInputSnapshot;
  po_playback : TranslationPlaybackQuiescenceSnapshot;
  po_playing : bool;
  po_covered_segments : Z
}.
Definition playback_quiet (p : Poll) : bool := is_quiescent (po_playback p) && negb (po_playing p).
Definition covered (p : Poll) : Z :=
  if (os_pending_speech (po_snapshot p) =? 0) && (os_pending_responses (po_snapshot p) =? 0)
     && (os_pending_renderer_acks (po_snapshot p) =? 0) && is_quiescent (po_playback p)
     && negb (po_playing p)
  then po_covered_segments p else 0.
Definition poll_drain (p : Poll) : M OpenInputDrain bool :=
  observe (po_now p) (po_snapshot p) (playback_quiet p) (covered p).

(** The loop: the polls it did not make are left over. A round that fails before
    it observes (a changed marker file, another run's ledger, a stopped provider)
    ends the loop with an error and is not a poll. *)
Fixpoint drain_loop (polls : list Poll) (d : OpenInputDrain) : outcome bool * list Poll :=
  match polls with
  | [] => (Ok false, [])
  | p :: polls =>
      match poll_drain p d with
      | (Ok false, d) => drain_loop polls d
      | (r, _) => (r, polls)
      end
  end.

(** ** The local playback drain ([playback_drain.rs], [mod.rs]) *)
Record PlaybackDrainConfirmation := mk_confirmation {
  pd_confirmation : Z; pd_quiescent_since : option Z
}.
Definition new_confirmation (confirmation : Z) : PlaybackDrainConfirmation :=
  mk_confirmation confirmation None.
Definition confirm (now : Z) (quiescent : bool) (c : PlaybackDrainConfirmation)
    : bool * PlaybackDrainConfirmation :=
  if negb quiescent then (false, mk_confirmation (pd_confirmation c) None)
  else
    let since := default now (pd_quiescent_since c) in
    (pd_confirmation c <=? saturating_sub now since,
     mk_confirmation (pd_confirmation c) (Some since)).

Definition process_exclusion_restart_is_quiescent (speaker_playback_active : bool)
    (playback : TranslationPlaybackQuiescenceSnapshot) : bool :=
  negb speaker_playback_active && is_quiescent playback.

Definition local_playback_drain_authority (speaker_playback_active : bool)
    (snapshot : TranslationPlaybackQuiescenceSnapshot) : option Z * option Z :=
  let unknown_bridge_owner :=
    (0 <? qs_pending_bridge_acks snapshot) || (0 <? qs_active_bridge_cues snapshot)
    || qs_restart_barrier snapshot in
  if unknown_bridge_owner
     && (negb (is_Some_b (qs_pending_audio_frames snapshot))
         || negb (is_Some_b (qs_output_sample_rate_hz snapshot)))
  then (None, None)
  else (qs_pending_audio_frames snapshot, qs_output_sample_rate_hz snapshot).

(** In nanoseconds; the products fit the [u128] of the code. *)
Definition local_playback_drain_estimate (pending_audio_frames output_sample_rate_hz : option Z)
    : option Z :=
  match pending_audio_frames, output_sample_rate_hz with
  | Some frames, Some rate =>
      if 0 <? rate
      then Some (Z.min ((frames * 1000 + (rate - 1)) / rate) u64_max * 1000000)
      else None
  | _, _ => None
  end.

(** One round of [wait_for_local_playback_quiescence]: [None] goes on. *)
Definition LOCAL_PLAYBACK_IDLE_CONFIRMATION : Z := 750000000.
Inductive DrainEnd := DrainWatchdog | DrainQuiescent (final : TranslationPlaybackQuiescenceSnapshot).
Definition playback_drain_round (started watchdog now : Z) (active : bool)
    (snapshot : TranslationPlaybackQuiescenceSnapshot) (c : PlaybackDrainConfirmation)
    : option DrainEnd * PlaybackDrainConfirmation :=
  if watchdog <=? saturating_sub now started then (Some DrainWatchdog, c)
  else
    let '(done, c) := confirm now (process_exclusion_restart_is_quiescent active snapshot) c in
    (if done then Some (DrainQuiescent snapshot) else None, c).

(** ** The provider's terminal ([provider_terminal_observer.rs]) *)
Inductive ProviderTerminalObservationError :=
| Authority (error : string)
| Timeout (phase : string)
| ProtocolOrder.
Record ProviderTerminalObserver := mk_observer {
  po_finish_phase_started : option Z;
  po_timeout : Z;
  po_grace : Z;
  po_finish_observed : bool
}.
Definition new_observer (timeout grace : Z) : ProviderTerminalObserver :=
  mk_observer None timeout grace false.

Definition observe_terminal (now : Z) (session_finish_sent session_finished_received : bool)
    (o : ProviderTerminalObserver)
    : (ProviderTerminalObservationError + bool) * ProviderTerminalObserver :=
  if session_finished_received && negb session_finish_sent then (inl ProtocolOrder, o)
  else if session_finished_received then (inr true, o)
  else
    let o := if session_finish_sent && negb (po_finish_observed o)
             then mk_observer (Some now) (po_timeout o) (po_grace o) true else o in
    match po_finish_phase_started o with
    | None => (inr false, o)
    | Some started =>
        if started + po_timeout o + po_grace o <=? now
        then (inl (Timeout "post-finish"), o)
        else (inr false, o)
    end.
(** [read_phase] is called again when the first answer is a timeout: its two
    answers are arguments. *)
Definition observe_with (now : Z) (phase refreshed : string + bool * bool)
    (o : ProviderTerminalObserver)
    : (ProviderTerminalObservationError + bool) * ProviderTerminalObserver :=
  match phase with
  | inl error => (inl (Authority error), o)
  | inr (finish_sent, finished) =>
      match observe_terminal now finish_sent finished o with
      | (inl (Timeout _), o) =>
          match refreshed with
          | inl error => (inl (Authority error), o)
          | inr (finish_sent, finished) => observe_terminal now finish_sent finished o
          end
      | r => r
      end
  end.

(** ** The terminal authority ([terminal_authority.rs])

    A JSON detail is opaque but for the string members [push] sets. *)
Record TerminalProducerIdentity := mk_producer {
  tp_process_id : Z; tp_start_time_utc_ticks : Z; tp_started_at_unix_ms : Z;
  tp_executable_sha256 : string; tp_source_head_commit : string;
  tp_runtime_bundle_digest : string; tp_launch_id : string
}.
Section Authority.
Context {Value : Type} (set_string : string → string → Value → Value).

Record TerminalAuthorityEvent := mk_event {
  te_sequence : Z; te_stage : string; te_observed_at_unix_ms : Z; te_detail : Value
}.
Record TerminalAuthorityRecorder := mk_recorder {
  tr_identity : StrictWatchTerminalIdentity;
  tr_producer : TerminalProducerIdentity;
  tr_started_at_unix_ms : Z;
  tr_events : list TerminalAuthorityEvent;
  tr_completion_policy : option string
}.
Record TerminalAuthority := mk_terminal_authority {
  ta_artifact_kind : string; ta_schema_version : Z;
  ta_run_marker : string; ta_cell_id : string; ta_lease_id : string;
  ta_producer : TerminalProducerIdentity;
  ta_completion_policy : option string;
  ta_status : string; ta_started_at_unix_ms : Z; ta_completed_at_unix_ms : Z;
  ta_error_code : option string; ta_error : option string;
  ta_events : list TerminalAuthorityEvent
}.

Definition new_recorder identity producer started_at_unix_ms : TerminalAuthorityRecorder :=
  mk_recorder identity producer started_at_unix_ms [] None.
Definition set_completion_policy (policy : option string) (r : TerminalAuthorityRecorder)
    : TerminalAuthorityRecorder :=
  mk_recorder (tr_identity r) (tr_producer r) (tr_started_at_unix_ms r) (tr_events r) policy.
Definition push (stage : string) (observed_at_unix_ms : Z) (detail : Value)
    (r : TerminalAuthorityRecorder) : TerminalAuthorityRecorder :=
  let detail :=
    if is_Some_b (tr_completion_policy r) then
      set_string "leaseId" (ti_lease_id (tr_identity r))
        (set_string "cellId" (ti_cell_id (tr_identity r))
           (set_string "runMarker" (ti_run_marker (tr_identity r)) detail))
    else detail in
  mk_recorder (tr_identity r) (tr_producer r) (tr_started_at_unix_ms r)
    (tr_events r ++ [mk_event (Z.of_nat (length (tr_events r)) + 1) stage observed_at_unix_ms detail])
    (tr_completion_policy r).

(** [sort_by_key] is stable: an event goes before the first later one. *)
Fixpoint insert_event (e : TerminalAuthorityEvent) (l : list TerminalAuthorityEvent)
    : list TerminalAuthorityEvent :=
  match l with
  | [] => [e]
  | x :: l =>
      if te_observed_at_unix_ms e <=? te_observed_at_unix_ms x then e :: x :: l
      else x :: insert_event e l
  end.
Definition sort_events (l : list TerminalAuthorityEvent) : list TerminalAuthorityEvent :=
  foldr insert_event [] l.
Definition renumber (l : list TerminalAuthorityEvent) : list TerminalAuthorityEvent :=
  imap (λ index e, mk_event (Z.of_nat index + 1) (te_stage e) (te_observed_at_unix_ms e) (te_detail e)) l.

(** [Iterator::min]. *)
Definition min_of (l : list Z) : option Z :=
  foldr (λ x m, Some (match m with Some m => Z.min x m | None => x end)) None l.

Definition finish_recorder (status : string) (completed_at_unix_ms : Z)
    (error_code error : option string) (r : TerminalAuthorityRecorder) : TerminalAuthority :=
  let events := renumber (sort_events (tr_events r)) in
  let producer := tr_producer r in
  let earliest_trusted_event_at :=
    min_of (filter (λ observed_at, tp_started_at_unix_ms producer ≤ observed_at)
              (te_observed_at_unix_ms <$> events)) in
  let started_at_unix_ms :=
    Z.max (match earliest_trusted_event_at with
           | Some observed_at => Z.min (tr_started_at_unix_ms r) observed_at
           | None => tr_started_at_unix_ms r
           end) (tp_started_at_unix_ms producer) in
  mk_terminal_authority "watch-mode-evidence-driven-terminal"
    (if is_Some_b (tr_completion_policy r) then 4 else 3)
    (ti_run_marker (tr_identity r)) (ti_cell_id (tr_identity r)) (ti_lease_id (tr_identity r))
    producer (tr_completion_policy r) status started_at_unix_ms completed_at_unix_ms
    error_code error events.
Definition complete (completed_at_unix_ms : Z) : TerminalAuthorityRecorder → TerminalAuthority :=
  finish_recorder "completed" completed_at_unix_ms None None.
Definition fail_recorder (completed_at_unix_ms : Z) (error_code error : string)
    : TerminalAuthorityRecorder → TerminalAuthority :=
  finish_recorder "failed" completed_at_unix_ms (Some error_code) (Some error).
End Authority.

Definition UNIX_EPOCH_DOTNET_TICKS : Z := 621355968000000000.
Definition TICKS_PER_MILLISECOND : Z := 10000.
Definition process_start_unix_ms_from_utc_ticks (start_time_utc_ticks : Z) : outcome Z :=
  match checked_sub start_time_utc_ticks UNIX_EPOCH_DOTNET_TICKS with
  | Some ticks => Ok (ticks / TICKS_PER_MILLISECOND)
  | None => Err (Fail "desktop OS startTimeUtcTicks predates the Unix epoch")
  end.
