(* ===== verification/WatchDrainTheorems.v ===== *)
(** * What the end of a strict Watch run proves

    Output quiescence is approved only after two seconds in which the ledger
    recorded no activity at all, and the terminal authority is the recorder's
    events in order inside the producer's window. *)
From stdpp Require Import sorting.
From S2P Require Import Prelude RustStr PlaybackQuiescence WatchTerminal WatchTerminalFacts.
From S2P Require Import WatchGrowth WatchTheorems WatchDrain.

(** ** One observation *)
Definition quiet (p : Poll) : bool := is_quiet (po_snapshot p) (playback_quiet p) (covered p).
Definition generation (p : Poll) : Z := os_activity_generation (po_snapshot p).
Definition last_append (p : Poll) : option StrictWatchProviderAppendEvidence :=
  os_last_provider_append (po_snapshot p).
Definition since_activity (p : Poll) (a : StrictWatchProviderAppendEvidence) : Prop :=
  last_activity_at (po_snapshot p) ≤ pa_observed_at_unix_ms a.

(** Whether the quiet window starts at this poll. *)
Definition starts_window (p : Poll) (d : OpenInputDrain) : bool :=
  negb (bool_decide (od_generation d = Some (generation p))) || negb (is_Some_b (od_quiet_since d)).

Record observed (p : Poll) (d : OpenInputDrain) (b : bool) (d' : OpenInputDrain) : Prop := {
  ob_time : po_now p < od_deadline d ∧ od_deadline d' = od_deadline d;
  ob_generation : od_generation d' = Some (generation p);
  ob_busy : quiet p = false →
    b = false ∧ od_quiet_since d' = None ∧ od_quiet_start_append d' = None;
  ob_since : quiet p = true →
    od_quiet_since d' = Some (if starts_window p d then po_now p else default (po_now p) (od_quiet_since d));
  ob_append a : quiet p = true → od_quiet_start_append d' = Some a →
    since_activity p a
    ∧ (last_append p = Some a ∨ (starts_window p d = false ∧ od_quiet_start_append d = Some a));
  ob_true : b = true → quiet p = true
    ∧ (∀ since, od_quiet_since d' = Some since → since + QUIET_CONFIRMATION ≤ po_now p)
    ∧ ∃ first last, od_quiet_start_append d' = Some first ∧ last_append p = Some last
        ∧ send_window_covered (Some first) (Some last) = true
}.

(** The append the send window starts from, after the two updates. *)
Lemma window_start (p : Poll) (first mid : option StrictWatchProviderAppendEvidence) a :
  mid = match first with
        | Some append =>
            if pa_observed_at_unix_ms append <? last_activity_at (po_snapshot p) then None else first
        | None => None
        end →
  match mid with
  | Some _ => mid
  | None =>
      match last_append p with
      | Some append =>
          if last_activity_at (po_snapshot p) <=? pa_observed_at_unix_ms append then Some append else None
      | None => None
      end
  end = Some a →
  since_activity p a ∧ (last_append p = Some a ∨ first = Some a).
Proof. unfold since_activity. intros ->. repeat case_match; intros; simplify_eq; split; first [lia|naive_solver]. Qed.

Lemma poll_drain_spec p d b d' : poll_drain p d = (Ok b, d') → observed p d b d'.
Proof.
  unfold poll_drain, observe. unmonad. simpl.
  destruct (od_deadline d <=? po_now p) eqn:Hd; [done|].
  destruct (negb _ || _ || _); [done|]. bool_hyps. fold (generation p) (quiet p) (last_append p).
  destruct (quiet p) eqn:Hq; simpl; fold (starts_window p d).
  - destruct (starts_window p d) eqn:Hs; simpl; intros [= <- <-];
      (split; simpl; [by split; [lia|]|done|congruence|by rewrite Hs| |]).
    1,3: intros a _ H; apply (window_start p _ _ a eq_refl) in H; naive_solver.
    all: intros [Hb1 Hb2]%andb_true_iff; split; [done|]; split;
      [intros since [= <-]; apply Z.leb_le in Hb1; unfold saturating_sub, QUIET_CONFIRMATION in *; lia|].
    all: unfold send_window_covered in Hb2.
    all: match type of Hb2 with match ?f with _ => _ end = true => destruct f as [first|]; [|done] end.
    all: match type of Hb2 with match ?f with _ => _ end = true => destruct f as [last|]; [|done] end.
    all: by exists first, last.
  - intros [= <- <-]. split; simpl; [by split; [lia|]|done|done|congruence|congruence|done].
Qed.

(** ** The loop *)

(** The polls [p :: w] are quiet and saw one activity generation. *)
Record quiet_window (p : Poll) (w : list Poll) : Prop := {
  qw_quiet : Forall (λ q, quiet q = true) (p :: w);
  qw_generation : Forall (λ q, generation q = generation p) (p :: w)
}.
Lemma quiet_window_snoc p w q :
  quiet_window p w → quiet q = true → generation q = generation p → quiet_window p (w ++ [q]).
Proof.
  intros [H1 H2] Hq Hg. split; rewrite app_comm_cons, Forall_app; (split; [done|]); by constructor.
Qed.

(** What the drain remembers after the polls [done]. *)
Record drain_inv (deadline : Z) (polls : list Poll) (d : OpenInputDrain) : Prop := {
  di_deadline : od_deadline d = deadline;
  di_generation p : last polls = Some p → od_generation d = Some (generation p);
  di_since since : od_quiet_since d = Some since →
    ∃ before p w, polls = before ++ p :: w ∧ po_now p = since ∧ quiet_window p w
      ∧ ∀ a, od_quiet_start_append d = Some a → ∃ q, q ∈ p :: w ∧ last_append q = Some a
}.

Lemma drain_inv_step deadline polls d p b d' :
  drain_inv deadline polls d → observed p d b d' → drain_inv deadline (polls ++ [p]) d'.
Proof.
  intros [Hd Hg Hs] [[_ Ht] Hgen Hbusy Hsince Happ _]. split.
  - congruence.
  - intros q. rewrite last_snoc. by intros [= <-].
  - intros since Hsi. destruct (quiet p) eqn:Hq; [|naive_solver].
    rewrite Hsince in Hsi by done. destruct (starts_window p d) eqn:Hw.
    + injection Hsi as <-. exists polls, p, []. split_and!; [done|done|by repeat constructor|].
      intros a Ha. destruct (Happ a eq_refl Ha) as [_ [Hl|[? _]]]; [|done].
      exists p. split; [left|done].
    + injection Hsi as <-. unfold starts_window in Hw. bool_hyps.
      destruct (od_quiet_since d) as [since|] eqn:Hos; [|done]. simpl.
      destruct (Hs since eq_refl) as (before & p0 & w & -> & Hp0 & Hwin & Hstart).
      exists before, p0, (w ++ [p]).
      assert (Hlast : ∃ q, last (before ++ p0 :: w) = Some q ∧ generation q = generation p0).
      { rewrite last_app. destruct Hwin as [_ Hgs]. destruct (last (p0 :: w)) as [q|] eqn:El.
        - exists q. split; [done|]. rewrite Forall_forall in Hgs. apply Hgs.
          by apply last_Some_elem_of.
        - by apply last_None in El. }
      destruct Hlast as (q & Hq1 & Hq2). specialize (Hg q Hq1).
      split_and!; [by rewrite <- app_assoc|done| |].
      * apply quiet_window_snoc; [done|done|congruence].
      * intros a Ha. destruct (Happ a eq_refl Ha) as [_ [Hl|[_ Hl]]].
        -- exists p. split; [|done]. rewrite app_comm_cons. set_solver.
        -- destruct (Hstart a Hl) as (y & Hy & ?). exists y. split; [|done].
           rewrite app_comm_cons. set_solver.
Qed.

(** A window of [w] polls from [p] on that ends with the poll [q]. *)
Record drained (deadline : Z) (p : Poll) (w : list Poll) (q : Poll) : Prop := {
  dr_last : last (p :: w) = Some q;
  dr_window : quiet_window p w;
  dr_long : po_now p + QUIET_CONFIRMATION ≤ po_now q;
  dr_deadline : po_now q < deadline;
  dr_sent : ∃ first final, (∃ x, x ∈ p :: w ∧ last_append x = Some first)
    ∧ last_append q = Some final ∧ since_activity q first
    ∧ send_window_covered (Some first) (Some final) = true
}.

Lemma drain_loop_true deadline polls d more :
  drain_inv deadline polls d → drain_loop more d = (Ok true, []) →
  ∃ before p w q, polls ++ more = before ++ p :: w ∧ drained deadline p w q.
Proof.
  revert polls d. induction more as [|x more IH]; intros polls d Hi; simpl; [done|].
  destruct (poll_drain x d) as [[[]|] d'] eqn:E; [| |done].
  - intros [= ->]. apply poll_drain_spec in E as Ho.
    pose proof (drain_inv_step _ _ _ _ _ _ Hi Ho) as [_ _ Hs].
    destruct Ho as [[Ht1 _] _ _ Hsince Happ Htrue].
    destruct (Htrue eq_refl) as (Hq & Hlong & first & final & Hf & Hl & Hcov).
    specialize (Hsince Hq). destruct (Hs _ Hsince) as (before & p & w & Heq & Hnow & Hw & Hstart).
    exists before, p, w, x. split; [done|]. destruct Hi as [Hd _ _].
    split; [|done|rewrite Hnow; auto|by rewrite <- Hd|].
    + pose proof (f_equal last Heq) as El. rewrite last_snoc, last_app in El.
      destruct (last (p :: w)) eqn:E2; [congruence|by apply last_None in E2].
    + exists first, final. split_and!; [by apply Hstart|done|by apply (Happ first Hq Hf)|done].
  - intros Hl. apply poll_drain_spec in E as Ho.
    replace (polls ++ x :: more) with ((polls ++ [x]) ++ more) by by rewrite <- app_assoc.
    eapply IH; [by eapply drain_inv_step|done].
Qed.
Lemma drain_loop_new started watchdog polls :
  drain_loop polls (new_drain started watchdog) = (Ok true, []) →
  ∃ before p w q, polls = before ++ p :: w ∧ drained (started + watchdog) p w q.
Proof. apply (drain_loop_true (started + watchdog) []). by split. Qed.

(** ** What the ledger did between the polls *)

(** The evidence of activity, and who owns input, speech and cues. *)
Definition activity_view (s : WatchState) :=
  (w_last_input_speech s, w_last_output s, w_last_physical_started s, w_last_physical_frame s,
   w_last_physical_completed s, w_active_speech s, w_input_response_owners s, w_cue_sequences s).

(** With the media complete, nothing of it changes while the generation stays. *)
Record activity_order (s s' : WatchState) : Prop := {
  ao_generation : w_activity_generation s ≤ w_activity_generation s';
  ao_still : w_aec_open_input_drain s = true → w_media_complete s ≠ None →
    w_activity_generation s' = w_activity_generation s →
    activity_view s' = activity_view s ∧ w_aec_open_input_drain s' = true
    ∧ w_media_complete s' = w_media_complete s
}.
#[export] Instance activity_order_preorder : PreOrder activity_order.
Proof.
  split; [by split|]. intros x y z [G1 S1] [G2 S2]. split; [lia|].
  intros Ha Hm Hg. destruct S1 as (V1 & A1 & M1); [done|done|lia|].
  destruct S2 as (V2 & A2 & M2); [done|congruence|lia|]. split_and!; congruence.
Qed.

Section Ledger.
Context (sha256_hex : string → string).

Ltac activity_run :=
  unfold_watch; split_run; try (intros ?; first [discriminate | reflexivity]);
  intros _; bool_hyps; split_facts; simplify_eq/=; split; simpl; intros;
  unfold activity_view; simpl; try lia; try congruence; split_and?; try done; try congruence.

Lemma bind_input_activity item response now s : w_aec_open_input_drain s = true →
  is_panic (bind_input item response now s).1 = false →
  activity_order s (bind_input item response now s).2.
Proof. intros _. activity_run. Qed.
Lemma basic_activity o : basic o = true → unless_panic activity_order (exec_watch sha256_hex o).
Proof. intros Hb s. destruct o; try done; activity_run. Qed.

Lemma run_activity s ops s' : run (watch_step sha256_hex) s ops s' → activity_order s s'.
Proof.
  apply run_evolves; [typeclasses eauto|].
  apply step_sound; [typeclasses eauto|apply basic_activity|apply bind_input_activity].
Qed.

(** The polls of a loop, each with the ledger state its snapshot was taken of:
    between them, and before [s_end], the ledger runs on. *)
Fixpoint polled (s : WatchState) (tr : list (Poll * WatchState)) (s_end : WatchState) : Prop :=
  match tr with
  | [] => ∃ ops, run (watch_step sha256_hex) s ops s_end
  | (p, sp) :: tr =>
      (∃ ops, run (watch_step sha256_hex) s ops sp)
      ∧ po_snapshot p = open_snapshot_of sp ∧ polled sp tr s_end
  end.

Lemma polled_app s tr1 tr2 s_end :
  polled s (tr1 ++ tr2) s_end → ∃ s1, polled s tr1 s1 ∧ polled s1 tr2 s_end.
Proof.
  revert s. induction tr1 as [|[p sp] tr1 IH]; intros s; simpl.
  - intros H. exists s. split; [|done]. exists []. constructor.
  - intros (H1 & H2 & (s1 & H3 & H4)%IH). by exists s1.
Qed.
Lemma polled_reachable s tr s_end :
  watch_reachable sha256_hex s → polled s tr s_end → watch_reachable sha256_hex s_end.
Proof.
  revert s. induction tr as [|[p sp] tr IH]; intros s Hs; simpl.
  - intros [ops H]. by eapply run_reachable.
  - intros ([ops H] & _ & Ht). eapply IH; [by eapply run_reachable|done].
Qed.
Lemma polled_order s tr s_end : polled s tr s_end → activity_order s s_end
  ∧ ∀ x sx, (x, sx) ∈ tr → activity_order s sx ∧ activity_order sx s_end
      ∧ po_snapshot x = open_snapshot_of sx.
Proof.
  revert s. induction tr as [|[p sp] tr IH]; intros s; simpl.
  - intros [ops H%run_activity]. split; [done|]. by intros x sx Hx%elem_of_nil.
  - intros ([ops H%run_activity] & Hp & [Ho Hx]%IH). split; [by etransitivity|].
    intros x sx [[= -> ->]|Hin]%elem_of_cons; [done|].
    destruct (Hx x sx Hin) as (? & ? & ?). split_and!; [by etransitivity|done|done].
Qed.

Lemma quiet_media p sp : po_snapshot p = open_snapshot_of sp → quiet p = true →
  w_media_complete sp ≠ None.
Proof.
  intros E Hq. unfold quiet, is_quiet in Hq. rewrite E in Hq. bool_hyps. simpl in *.
  match goal with H : w_media_complete sp = Some _ |- _ => by rewrite H end.
Qed.
Lemma approve_generation g now s s' :
  approve_output_quiescence g now s = (Ok tt, s') → w_activity_generation s = g.
Proof.
  unfold approve_output_quiescence, check_open_input_failure. unmonad. simpl.
  destruct (open_input_failure s); [done|].
  destruct (_ || existsb (unacked s) (cue_sequence_values s)) eqn:E; [done|]. by bool_hyps.
Qed.

(** C4: Output quiescence is approved only after two quiet seconds: when the drain
    loop accepts and the ledger then approves the generation of its last poll,
    the loop's last polls span at least two seconds before its deadline, all of
    them quiet, and the ledger recorded nothing in all that time up to the
    approval - no input speech, output, playback, new owner or new cue. From an
    append made in that window, and not before the last activity, on, at least
    32000 samples went to the provider over at least two seconds. *)
Theorem approval_follows_two_quiet_seconds s0 tr s_end started watchdog q sq now s' :
  watch_reachable sha256_hex s0 → polled s0 tr s_end →
  drain_loop tr.*1 (new_drain started watchdog) = (Ok true, []) →
  last tr = Some (q, sq) →
  approve_output_quiescence (generation q) now s_end = (Ok tt, s') →
  ∃ before p sp w, tr = before ++ (p, sp) :: w
    ∧ po_now p + 2000000000 ≤ po_now q ∧ po_now q < started + watchdog
    ∧ (∀ x sx, (x, sx) ∈ (p, sp) :: w → quiet x = true
         ∧ w_activity_generation sx = w_activity_generation s_end
         ∧ activity_view sx = activity_view s_end)
    ∧ ∃ x sx first final, (x, sx) ∈ (p, sp) :: w
        ∧ w_last_provider_append sx = Some first ∧ w_last_provider_append sq = Some final
        ∧ last_activity_at (open_snapshot_of sq) ≤ pa_observed_at_unix_ms first
        ∧ pa_source_sequence first < pa_source_sequence final
        ∧ pa_accepted_samples_total first + 32000 ≤ pa_accepted_samples_total final
        ∧ pa_observed_at_unix_ms first + 2000 ≤ pa_observed_at_unix_ms final.
Proof.
  intros Hr Hp Hl Hlast Ha. apply approve_generation in Ha.
  apply drain_loop_new in Hl as (before & p & w & q' & Heq & [Hlw [Hq Hg] Hlong Hdl Hsent]).
  apply fmap_app_inv in Heq as (tr1 & tr2 & -> & Htr & ->).
  destruct tr2 as [|[p' sp] tr2]; [done|]. injection Htr as <- ->.
  rewrite last_app_cons in Hlast.
  assert (q' = q) as ->.
  { assert (Hf : last (fst <$> (p, sp) :: tr2) = Some q') by exact Hlw.
    rewrite fmap_last, Hlast in Hf. by injection Hf. }
  exists tr1, p, sp, tr2. split; [done|]. split; [done|]. split; [done|].
  apply polled_app in Hp as (s1 & Hp1 & Hp2).
  assert (Hrp : watch_reachable sha256_hex sp).
  { pose proof (polled_reachable _ _ _ Hr Hp1). destruct Hp2 as ([ops Hrun] & _).
    by eapply run_reachable. }
  destruct (polled_order _ _ _ Hp2) as [_ Hall].
  assert (Hsp : polled sp ((p, sp) :: tr2) s_end).
  { destruct Hp2 as (_ & Hps & Ht). split; [exists []; constructor|done]. }
  destruct (polled_order _ _ _ Hsp) as [_ Hfrom].
  rewrite Forall_forall in Hq, Hg.
  assert (Hmap : ∀ x sx, (x, sx) ∈ (p, sp) :: tr2 → x ∈ p :: tr2.*1).
  { intros x sx Hin. change (x ∈ fst <$> (p, sp) :: tr2). by apply (list_elem_of_fmap_2 fst) in Hin. }
  assert (Hin_p : (p, sp) ∈ (p, sp) :: tr2) by left.
  assert (Hin_q : (q, sq) ∈ (p, sp) :: tr2) by (by apply last_Some_elem_of).
  assert (Hgen : ∀ x sx, (x, sx) ∈ (p, sp) :: tr2 → generation x = w_activity_generation sx).
  { intros x sx Hin. destruct (Hall x sx Hin) as (_ & _ & E). unfold generation. by rewrite E. }
  assert (Hsame : ∀ x sx, (x, sx) ∈ (p, sp) :: tr2 → w_activity_generation sx = w_activity_generation s_end).
  { intros x sx Hin. rewrite Ha, <- (Hgen x sx Hin), (Hg x), (Hg q); eauto. }
  assert (Haec : w_aec_open_input_drain sp = true ∧ w_media_complete sp ≠ None).
  { pose proof (quiet_media p sp) as Hm. destruct (Hall p sp Hin_p) as (_ & _ & E).
    specialize (Hm E (Hq p (Hmap _ _ Hin_p))). split; [|done].
    destruct (w_media_complete sp) as [m|] eqn:Em; [|done].
    by eapply (os_media_ok sp (reachable_inv _ _ open_seal sp Hrp)). }
  destruct Haec as [Haec Hmed]. split.
  - intros x sx Hin. split; [by eapply Hq, Hmap|]. split; [by apply (Hsame x)|].
    destruct (Hfrom x sx Hin) as ([_ Hs1] & [_ Hs2] & _).
    destruct Hs1 as (V1 & A1 & M1); [done|done|rewrite (Hsame x sx Hin), (Hsame p sp); done|].
    destruct Hs2 as (V2 & _ & _); [done|congruence|by rewrite (Hsame x sx Hin)|done].
  - destruct Hsent as (first & final & (x & Hx & Hfx) & Hfin & Hsince & Hcov).
    change (x ∈ fst <$> (p, sp) :: tr2) in Hx. apply list_elem_of_fmap in Hx as ([x' sx] & -> & Hx).
    destruct (Hall _ _ Hx) as (_ & _ & Ex). destruct (Hall _ _ Hin_q) as (_ & _ & Eq).
    unfold last_append, since_activity in *. simpl in Hfx. rewrite Ex in Hfx. rewrite Eq in *.
    exists x', sx, first, final. unfold send_window_covered, saturating_sub in Hcov. bool_hyps.
    split_and!; first [done|lia].
Qed.
End Ledger.

(** ** The terminal authority *)
Section Authority.
Context {Value : Type} (set_string : string → string → Value → Value).

Lemma insert_event_perm (e : TerminalAuthorityEvent (Value:=Value)) l : insert_event e l ≡ₚ e :: l.
Proof. induction l as [|x l IH]; simpl; [done|]. case_match; [done|]. rewrite IH. apply perm_swap. Qed.
Lemma sort_events_perm (l : list (TerminalAuthorityEvent (Value:=Value))) : sort_events l ≡ₚ l.
Proof. induction l as [|e l IH]; simpl; [done|]. by rewrite insert_event_perm, IH. Qed.

Definition not_later (a b : TerminalAuthorityEvent (Value:=Value)) : Prop :=
  te_observed_at_unix_ms a ≤ te_observed_at_unix_ms b.
Lemma insert_event_sorted e l : StronglySorted not_later l → StronglySorted not_later (insert_event e l).
Proof.
  induction 1 as [|x l Hl IH Hx]; simpl; [by repeat constructor|].
  destruct (Z.leb_spec (te_observed_at_unix_ms e) (te_observed_at_unix_ms x)).
  - constructor; [by constructor|]. constructor; [done|].
    eapply Forall_impl; [exact Hx|]. unfold not_later. intros; lia.
  - constructor; [done|]. rewrite insert_event_perm. constructor; [unfold not_later; lia|done].
Qed.
Lemma sort_events_sorted l : StronglySorted not_later (sort_events l).
Proof. induction l; simpl; [constructor|by apply insert_event_sorted]. Qed.

(** The sort is stable: it does not move events of one time past each other. *)
Definition at_time (t : Z) : list (TerminalAuthorityEvent (Value:=Value)) → list TerminalAuthorityEvent :=
  filter (λ e, te_observed_at_unix_ms e = t).
Lemma insert_event_stable t e l : at_time t (insert_event e l) = at_time t (e :: l).
Proof.
  induction l as [|x l IH]; simpl; [done|]. case_match; [done|]. bool_hyps.
  unfold at_time in *. rewrite filter_cons, IH, !filter_cons.
  repeat case_decide; try done. lia.
Qed.
Lemma sort_events_stable t l : at_time t (sort_events l) = at_time t l.
Proof.
  induction l as [|e l IH]; simpl; [done|]. rewrite insert_event_stable.
  unfold at_time in *. by rewrite !filter_cons, IH.
Qed.

Definition entry (e : TerminalAuthorityEvent (Value:=Value)) : string * Z * Value :=
  (te_stage e, te_observed_at_unix_ms e, te_detail e).
Lemma renumber_entries (l : list (TerminalAuthorityEvent (Value:=Value))) : entry <$> renumber l = entry <$> l.
Proof. unfold renumber. rewrite fmap_imap. apply (imap_const entry). Qed.
Lemma renumber_sequences (l : list (TerminalAuthorityEvent (Value:=Value))) :
  te_sequence <$> renumber l = (λ i, Z.of_nat i + 1) <$> seq 0 (length l).
Proof. unfold renumber. rewrite fmap_imap. apply (imap_seq_0 l (λ i, Z.of_nat i + 1)). Qed.

Lemma entries_at_time t l :
  filter (λ e : string * Z * Value, e.1.2 = t) (entry <$> l) = entry <$> at_time t l.
Proof.
  unfold at_time. induction l as [|e l IH]; [done|]. csimpl. rewrite !filter_cons, IH. simpl.
  by case_decide.
Qed.

Lemma min_of_spec l m : min_of l = Some m → ∀ x, x ∈ l → m ≤ x.
Proof.
  revert m. induction l as [|y l IH]; intros m; simpl; [done|].
  intros [= <-] x. destruct (min_of l) as [m|] eqn:E.
  - intros [->|Hx]%elem_of_cons; [lia|]. specialize (IH m eq_refl x Hx). lia.
  - destruct l; [|done]. intros [->|Hx%elem_of_nil]%elem_of_cons; [lia|done].
Qed.
Lemma min_of_none l : min_of l = None → l = [].
Proof. by destruct l. Qed.

(** The published terminal authority is its recorder's events, numbered 1, 2,
    ... in the order of their times and, at one time, in the order they were
    recorded. Its window never opens before the producer started, and every
    event since then lies inside it. *)
Theorem terminal_authority_is_ordered (r : TerminalAuthorityRecorder (Value:=Value))
    status completed_at error_code error :
  let a := finish_recorder status completed_at error_code error r in
  te_sequence <$> ta_events a = (λ i, Z.of_nat i + 1) <$> seq 0 (length (tr_events r))
  ∧ StronglySorted Z.le (te_observed_at_unix_ms <$> ta_events a)
  ∧ (∀ t, filter (λ e : string * Z * Value, e.1.2 = t) (entry <$> ta_events a)
          = filter (λ e : string * Z * Value, e.1.2 = t) (entry <$> tr_events r))
  ∧ tp_started_at_unix_ms (tr_producer r) ≤ ta_started_at_unix_ms a
  ∧ (∀ e, e ∈ ta_events a → tp_started_at_unix_ms (tr_producer r) ≤ te_observed_at_unix_ms e →
       ta_started_at_unix_ms a ≤ te_observed_at_unix_ms e).
Proof.
  set (events := renumber (sort_events (tr_events r))).
  assert (Htimes : te_observed_at_unix_ms <$> events = te_observed_at_unix_ms <$> sort_events (tr_events r)).
  { transitivity ((λ e : string * Z * Value, e.1.2) <$> (entry <$> events)).
    - rewrite <- list_fmap_compose. done.
    - unfold events. by rewrite renumber_entries, <- list_fmap_compose. }
  cbv zeta. simpl. fold events. split_and!.
  - unfold events. rewrite renumber_sequences. by rewrite (Permutation_length (sort_events_perm _)).
  - rewrite Htimes. generalize (sort_events_sorted (tr_events r)). generalize (sort_events (tr_events r)).
    induction 1 as [|x l _ IH Hx]; csimpl; constructor; [done|]. by apply Forall_fmap.
  - intros t. unfold events. rewrite renumber_entries.
    by rewrite !entries_at_time, sort_events_stable.
  - lia.
  - intros e He Ht.
    assert (Hin : te_observed_at_unix_ms e ∈ filter (λ o, tp_started_at_unix_ms (tr_producer r) ≤ o)
                    (te_observed_at_unix_ms <$> events)).
    { apply list_elem_of_filter. split; [done|]. by apply list_elem_of_fmap_2. }
    destruct (min_of _) as [m|] eqn:E.
    + pose proof (min_of_spec _ _ E _ Hin). lia.
    + apply min_of_none in E. rewrite E in Hin. by apply elem_of_nil in Hin.
Qed.
End Authority.

(** ** The provider's terminal *)

(** The post-finish deadline starts with the first poll that saw the finish, and
    only then: before it no timeout can be reported. *)
Lemma terminal_timeout now sent finished o phase o' :
  observe_terminal now sent finished o = (inl (Timeout phase), o') →
  ∃ started, po_finish_phase_started o' = Some started
    ∧ started + po_timeout o + po_grace o ≤ now
    ∧ finished = false
    ∧ (po_finish_phase_started o = Some started ∨ (sent = true ∧ started = now)).
Proof.
  unfold observe_terminal. destruct finished; simpl; [by destruct sent|].
  destruct (sent && negb (po_finish_observed o)) eqn:E; simpl.
  - bool_hyps. destruct (Z.leb_spec (now + po_timeout o + po_grace o) now); [|done].
    intros [= <- <-]. exists now. naive_solver.
  - destruct (po_finish_phase_started o) as [t|] eqn:Et; [|done].
    destruct (Z.leb_spec (t + po_timeout o + po_grace o) now); [|done].
    intros [= <- <-]. exists t. naive_solver.
Qed.

(** ** Witness *)
Definition quiet_ops : list watch_op :=
  [ WEnableAec; WSessionUpdated digest_a digest_a digest_a 1; WProviderAppend 480 2;
    WInputSpeech "item" true 3; WInputSpeech "item" false 4; WMediaComplete 5;
    WResponseStarted "resp" 6; WInputBindings [("item", "resp")] (λ _, 7);
    WNonemptyOutput "resp" 8; WCueSubmitted "cue" "resp" 9;
    WResponseTerminal "responseDone" "resp" 10 10; WRendererAck "cue" "physical" "receipt" 11 12;
    WProviderAppend 480 20 ].
Definition still_ops : list watch_op := [ WProviderAppend 32000 2500 ].
Definition silent : TranslationPlaybackQuiescenceSnapshot := qt_snapshot quiescence_default.
Definition quiet_poll (now : Z) (s : WatchState) : Poll :=
  mk_poll now (open_snapshot_of s) silent false EXPECTED_SOURCE_SEGMENTS.
Definition first_state : WatchState := run_demo quiet_ops.
Definition second_state : WatchState := after still_ops first_state.
Definition quiet_polls : list (Poll * WatchState) :=
  [ (quiet_poll 1000000000 first_state, first_state);
    (quiet_poll 3000000000 second_state, second_state) ].

#[local] Opaque run_demo after.
Lemma approval_follows_two_quiet_seconds_witness : ∃ p, po_now p + 2000000000 ≤ 3000000000.
Proof.
  destruct (approval_follows_two_quiet_seconds no_sha first_state quiet_polls second_state
              0 10000000000 (quiet_poll 3000000000 second_state) second_state 99
              (approve_output_quiescence (generation (quiet_poll 3000000000 second_state)) 99 second_state).2)
    as (before & p & sp & w & _ & H & _).
  - apply run_demo_reachable. by vm_compute.
  - split; [exists []; constructor|]. split; [done|]. split; [exists still_ops; apply after_run; by vm_compute|].
    split; [done|]. exists []. constructor.
  - by vm_compute.
  - done.
  - rewrite (surjective_pairing (approve_output_quiescence _ _ _)). f_equal.
  - exists p. exact H.
Defined.
