(* ===== verification/TaskLifecycle.v ===== *)
(** * The task WebSocket ledger

    Models [audio/bailian_tasks/lifecycle.rs] and the model predicates of
    [audio/bailian_tasks/mod.rs]: one ASR or TTS task over one connection. A
    malformed frame poisons the ledger for good.

    [serde_json]'s decoding of a frame or of an object into a struct is a
    parameter: it returns the struct the code declares, or serde's message.
    [uuid::Uuid::parse_str] is a parameter too. *)
From S2P Require Import Prelude RustStr.

(** ** Data *)
Inductive TaskRole := Asr | Tts.
#[export] Instance task_role_eq_dec : EqDecision TaskRole.
Proof. solve_decision. Defined.
Definition model_role (r : TaskRole) : string :=
  match r with Asr => "primary-audio" | Tts => "speech-output" end.
Definition operation (r : TaskRole) : string :=
  match r with Asr => "asr" | Tts => "tts" end.

Inductive TaskFailure :=
| FAuthority | FTransport | FInvalidFrame | FIdentity | FLifecycle | FSentence
| FProvider | FTimeout | FStopDrain.
Record TaskError := mk_error { te_role : TaskRole; te_failure : TaskFailure; te_detail : string }.
Definition code (e : TaskError) : string :=
  match te_failure e with
  | FAuthority => "model_protocol.authorization_failed"
  | FTransport => "task.transport_failed"
  | FInvalidFrame => "task.invalid_frame"
  | FIdentity => "task.identity_mismatch"
  | FLifecycle => "task.invalid_lifecycle"
  | FSentence => "task.invalid_sentence"
  | FProvider => "task.provider_failed"
  | FTimeout => "task.timeout"
  | FStopDrain => "task.stop_drain_failed"
  end.
(** [Display]. *)
Definition show_error (e : TaskError) : string :=
  code e +:+ ": role=" +:+ model_role (te_role e) +:+ " operation=" +:+ operation (te_role e)
  +:+ " " +:+ te_detail e.

Inductive Phase := New | AwaitingStarted | Active | Finishing | Finished | Failed.
#[export] Instance task_phase_eq_dec : EqDecision Phase.
Proof. solve_decision. Defined.

Inductive TaskOutput :=
| OutStarted
| OutTranscript (sentence_id : Z) (text : string) (final_sentence : bool)
| OutAudio (samples : list Z)
| OutMetadata
| OutFinished.

(** [serde_json::Value]; an object keeps its members as a list. *)
Inductive value :=
| VNull | VBool (b : bool) | VNum (n : Z) | VStr (s : string)
| VArr (l : list value) | VObj (l : list (string * value)).
Fixpoint assoc (key : string) (l : list (string * value)) : option value :=
  match l with
  | [] => None
  | (k, v) :: l => if bool_decide (k = key) then Some v else assoc key l
  end.
(** [Value::get] with a string index. *)
Definition get (key : string) (v : value) : option value :=
  match v with VObj l => assoc key l | _ => None end.
Definition is_object (v : value) : bool := match v with VObj _ => true | _ => false end.

Record ServerHeader := mk_header {
  sh_task_id : string; sh_event : string;
  sh_error_code : option string; sh_error_message : option string
}.
Record Envelope := mk_envelope { en_header : ServerHeader; en_payload : value }.
Record AsrSentence := mk_asr_sentence {
  as_sentence_id : Z; as_text : string; as_heartbeat : bool; as_sentence_begin : bool;
  as_sentence_end : bool; as_begin_time : Z; as_end_time : option Z
}.
Record AsrHeartbeat := mk_heartbeat {
  ah_sentence_id : Z; ah_sentence_begin : bool; ah_sentence_end : bool
}.
Record TtsOutput := mk_tts_output {
  to_kind : string; to_index : Z; to_original_text : option string
}.

(** [tungstenite::Message]; the kinds the ledger rejects alike are one. *)
Inductive Message := MText (text : string) | MBinary (bytes : list Z) | MOther.

Record TaskLifecycle := mk_task {
  t_role : TaskRole;
  t_task_id : string;
  t_phase : Phase;
  t_next_sentence : Z;
  t_active_sentence : option Z;
  t_sentence_text : option string;
  t_pending_binary : bool;
  t_tts_text_sent : bool;
  t_sentence_audio_received : bool
}.
#[export] Instance task_settable : Settable TaskLifecycle := λ t,
  mk_task (t_role t) (t_task_id t) (t_phase t) (t_next_sentence t) (t_active_sentence t)
    (t_sentence_text t) (t_pending_binary t) (t_tts_text_sent t) (t_sentence_audio_received t).

(** ** Methods that fail with a [TaskError] *)
Definition T (A : Type) : Type := TaskLifecycle → (TaskError + A) * TaskLifecycle.
Definition tret {A} (a : A) : T A := λ t, (inr a, t).
Definition tbind {A B} (m : T A) (k : A → T B) : T B := λ t,
  match m t with (inr a, t') => k a t' | (inl e, t') => (inl e, t') end.
Definition error (t : TaskLifecycle) (f : TaskFailure) (detail : string) : TaskError :=
  mk_error (t_role t) f detail.
Definition reject {A} (f : TaskFailure) (detail : string) : T A := λ t, (inl (error t f detail), t).
Definition reject_if (b : bool) (f : TaskFailure) (detail : string) : T unit :=
  if b then reject f detail else tret tt.
Definition update (f : TaskLifecycle → TaskLifecycle) : T unit := λ t, (inr tt, f t).
Definition this : T TaskLifecycle := λ t, (inr t, t).
(** [map_err(..)?] on what a decoder returned. *)
Definition decoded {A} (r : string + A) (f : TaskFailure) (context : string) : T A :=
  match r with inl msg => reject f (context +:+ msg) | inr a => tret a end.
Definition present {A} (o : option A) (f : TaskFailure) (detail : string) : T A :=
  match o with Some a => tret a | None => reject f detail end.

Declare Scope task_scope.
Notation "'do' x '<-' m ; k" := (tbind m (fun x => k))
  (at level 10, x name, m at level 100, k at level 200) : task_scope.
Notation "m ';!' k" := (tbind m (fun _ => k))
  (at level 199, k at level 200, right associativity) : task_scope.
#[local] Open Scope task_scope.

(** ** [mod.rs] *)
Definition is_asr_model (model : string) : bool :=
  bool_decide (model = "qwen-audio-3.0-asr-flash-streaming")
  || bool_decide (model = "qwen-audio-3.1-asr-flash-streaming").
Definition is_tts_model (model : string) : bool :=
  bool_decide (model = "qwen-audio-3.0-tts-plus")
  || bool_decide (model = "qwen-audio-3.0-tts-flash").
Definition DEFAULT_TTS_VOICE : string := "longanhuan_v3.6".
Definition resolve_tts_voice (voice : string) : string :=
  if is_blank voice || bool_decide (to_ascii_lowercase (trim voice) = "auto")
  then DEFAULT_TTS_VOICE else voice.

(** ** Client side *)
Definition command (t : TaskLifecycle) (action : string) (payload : value) : value :=
  VObj [("header", VObj [("action", VStr action); ("task_id", VStr (t_task_id t));
                         ("streaming", VStr "duplex")]);
        ("payload", payload)].

Definition supported_languages : list string :=
  ["zh"; "en"; "fr"; "de"; "ja"; "ko"; "ru"; "pt"; "th"; "id"; "vi"; "es"; "it"; "ms";
   "fil"; "ar"].
Definition is_language_separator (a : Ascii.ascii) : bool :=
  (byte_of a =? 45) || (byte_of a =? 95).
(** The primary language subtag the parameters carry. *)
Definition language_hint (language : string) : string :=
  to_ascii_lowercase (split_first is_language_separator (trim language)).

Definition asr_parameters : value :=
  VObj [("format", VStr "pcm"); ("sample_rate", VNum 16000); ("heartbeat", VBool true)].
Definition tts_parameters (voice language : string) : T value :=
  let base := [("text_type", VStr "PlainText"); ("voice", VStr voice);
               ("format", VStr "pcm"); ("sample_rate", VNum 24000)] in
  if is_blank language then tret (VObj base)
  else
    let language := language_hint language in
    reject_if (negb (bool_decide (language ∈ supported_languages)))
      FSentence "unsupported TTS language_hints value" ;!
    tret (VObj (base ++ [("language_hints", VArr [VStr language])])).

Definition run_task (model voice language : string) : T value :=
  do t <- this;
  reject_if (negb (bool_decide (t_phase t = New))) FLifecycle "run-task already sent" ;!
  reject_if (negb (match t_role t with Asr => is_asr_model model | Tts => is_tts_model model end))
    FAuthority "model not implemented by this task adapter" ;!
  reject_if (bool_decide (t_role t = Tts) && is_blank voice)
    FSentence "TTS requires an explicit voice" ;!
  do parameters <- match t_role t with
                   | Asr => tret asr_parameters
                   | Tts => tts_parameters voice language
                   end;
  let c := command t "run-task"
    (VObj [("task_group", VStr "audio"); ("task", VStr (operation (t_role t)));
           ("function", VStr (match t_role t with
                              | Asr => "recognition" | Tts => "SpeechSynthesizer" end));
           ("model", VStr model); ("parameters", parameters); ("input", VObj [])]) in
  update (λ t, t <| t_phase := AwaitingStarted |>) ;!
  tret c.

Definition audio_input (pcm : list Z) : T unit :=
  do t <- this;
  reject_if (negb (bool_decide (t_role t = Asr)) || negb (bool_decide (t_phase t = Active)))
    FLifecycle "binary input requires an active ASR task" ;!
  reject_if (bool_decide (pcm = []) || negb (Z.of_nat (length pcm) mod 2 =? 0))
    FInvalidFrame "ASR input must be aligned PCM16".

Definition continue_text (text : string) : T value :=
  do t <- this;
  reject_if (negb (bool_decide (t_role t = Tts)) || negb (bool_decide (t_phase t = Active))
             || t_tts_text_sent t)
    FLifecycle "continue-task requires a started TTS task and exactly one text input" ;!
  reject_if (is_blank text || (20000 <? chars_count text))
    FSentence "TTS text must contain 1..20000 characters" ;!
  update (λ t, t <| t_tts_text_sent := true |>) ;!
  tret (command t "continue-task" (VObj [("input", VObj [("text", VStr text)])])).

Definition finish : T value :=
  do t <- this;
  reject_if (negb (bool_decide (t_phase t = Active))
             || (bool_decide (t_role t = Tts) && negb (t_tts_text_sent t)))
    FLifecycle "finish-task requires a started task with complete input" ;!
  update (λ t, t <| t_phase := Finishing |>) ;!
  tret (command t "finish-task" (VObj [("input", VObj [])])).

Definition finished (t : TaskLifecycle) : bool := bool_decide (t_phase t = Finished).

(** [i16::from_le_bytes]. *)
Definition i16_of_le (lo hi : Z) : Z :=
  let u := lo + 256 * hi in if u <? 32768 then u else u - 65536.
(** [chunks_exact(2)], decoded. *)
Fixpoint pcm_samples (bytes : list Z) : list Z :=
  match bytes with
  | lo :: hi :: bytes => i16_of_le lo hi :: pcm_samples bytes
  | _ => []
  end.

(** [samples.iter().flat_map(|sample| sample.to_le_bytes())], what [asr.rs] sends. *)
Definition i16_to_le (x : Z) : list Z := let u := x mod 65536 in [u mod 256; u / 256].
Definition pcm_bytes (samples : list Z) : list Z := flat_map i16_to_le samples.

Section Decoders.
Context (decode_envelope : string → string + Envelope).
Context (decode_heartbeat : value → string + AsrHeartbeat).
Context (decode_asr_sentence : value → string + AsrSentence).
Context (decode_tts_output : value → string + TtsOutput).
Context (parse_uuid : string → bool).

Definition new (role : TaskRole) (task_id : string) : TaskError + TaskLifecycle :=
  if parse_uuid task_id
  then inr (mk_task role task_id New (match role with Asr => 1 | Tts => 0 end)
              None None false false false)
  else inl (mk_error role FIdentity "task_id must be a UUID").

(** ** Server side *)
Definition next_sentence : T unit :=
  do t <- this;
  match checked_add (t_next_sentence t) 1 with
  | Some n => update (λ t, t <| t_next_sentence := n |>)
  | None => reject FSentence "sentence identity overflow"
  end.

Definition asr_sentence (s : AsrSentence) : T TaskOutput :=
  if as_heartbeat s then
    reject_if (negb (as_sentence_id s =? 0) || as_sentence_begin s || as_sentence_end s)
      FSentence "invalid ASR heartbeat identity/finality" ;!
    tret OutMetadata
  else
    do t <- this;
    reject_if (negb (as_sentence_id s =? t_next_sentence t) || (as_sentence_id s =? 0))
      FSentence "ASR sentence_id reused, skipped, or reordered" ;!
    match t_active_sentence t with
    | Some active =>
        reject_if (negb (active =? as_sentence_id s) || as_sentence_begin s)
          FSentence "ASR sentence begun twice or changed before finality"
    | None =>
        reject_if (negb (as_sentence_begin s) && negb (as_sentence_end s))
          FSentence "ASR preview requires sentence_begin"
    end ;!
    (if as_sentence_end s then
       reject_if (negb match as_end_time s with
                       | Some end_time => as_begin_time s <=? end_time
                       | None => false
                       end)
         FSentence "ASR final sentence requires a valid end_time" ;!
       update (λ t, t <| t_active_sentence := None |>) ;!
       next_sentence
     else
       reject_if (is_Some_b (as_end_time s))
         FSentence "ASR preview cannot carry terminal end_time" ;!
       update (λ t, t <| t_active_sentence := Some (as_sentence_id s) |>)) ;!
    tret (OutTranscript (as_sentence_id s) (as_text s) (as_sentence_end s)).

Definition asr_result (output : value) : T TaskOutput :=
  do raw_sentence <- present (get "sentence" output) FSentence "ASR missing sentence";
  match get "heartbeat" raw_sentence with
  | Some (VBool true) =>
      do heartbeat <- decoded (decode_heartbeat raw_sentence) FSentence "invalid ASR heartbeat: ";
      reject_if (negb (ah_sentence_id heartbeat =? 0) || ah_sentence_begin heartbeat
                 || ah_sentence_end heartbeat)
        FSentence "invalid ASR heartbeat identity/finality" ;!
      tret OutMetadata
  | _ =>
      do sentence <- decoded (decode_asr_sentence raw_sentence) FSentence "invalid ASR sentence: ";
      asr_sentence sentence
  end.

Definition tts_sentence (o : TtsOutput) : T TaskOutput :=
  do t <- this;
  reject_if (negb (to_index o =? t_next_sentence t))
    FSentence "TTS sentence index reused, skipped, or reordered" ;!
  (if bool_decide (to_kind o = "sentence-begin") && bool_decide (t_active_sentence t = None) then
     do text <- present (match to_original_text o with
                         | Some text => if is_empty text then None else Some text
                         | None => None
                         end) FSentence "TTS sentence-begin missing original_text";
     update (λ t, t <| t_active_sentence := Some (to_index o) |>
                    <| t_sentence_text := Some text |>
                    <| t_sentence_audio_received := false |>)
   else if bool_decide (to_kind o = "sentence-synthesis")
           && bool_decide (t_active_sentence t = Some (to_index o)) then
     update (λ t, t <| t_pending_binary := true |>)
   else if bool_decide (to_kind o = "sentence-end")
           && bool_decide (t_active_sentence t = Some (to_index o)) then
     reject_if (negb (t_sentence_audio_received t))
       FSentence "TTS sentence-end without any sentence audio" ;!
     reject_if (negb (bool_decide (to_original_text o = t_sentence_text t)))
       FSentence "TTS terminal original_text changed" ;!
     update (λ t, t <| t_active_sentence := None |> <| t_sentence_text := None |>) ;!
     next_sentence
   else reject FSentence "invalid TTS sentence lifecycle") ;!
  tret OutMetadata.

Definition tts_result (output : value) : T TaskOutput :=
  do t <- this;
  reject_if (negb (t_tts_text_sent t)) FLifecycle "TTS output before continue-task" ;!
  do o <- decoded (decode_tts_output output) FSentence "invalid TTS sentence: ";
  tts_sentence o.

Definition receive_binary (bytes : list Z) : T TaskOutput :=
  do t <- this;
  reject_if (negb (bool_decide (t_role t = Tts)) || negb (t_pending_binary t)
             || bool_decide (bytes = []) || negb (Z.of_nat (length bytes) mod 2 =? 0))
    FInvalidFrame "unexpected, empty, or unaligned binary audio" ;!
  update (λ t, t <| t_pending_binary := false |> <| t_sentence_audio_received := true |>) ;!
  tret (OutAudio (pcm_samples bytes)).

Definition receive_event (envelope : Envelope) : T TaskOutput :=
  do t <- this;
  let event := sh_event (en_header envelope) in
  if bool_decide (event = "task-failed") then
    reject FProvider (default "unknown" (sh_error_code (en_header envelope)) +:+ ": "
                      +:+ default "task failed" (sh_error_message (en_header envelope)))
  else if bool_decide (event = "task-started") && bool_decide (t_phase t = AwaitingStarted) then
    update (λ t, t <| t_phase := Active |>) ;! tret OutStarted
  else if bool_decide (event = "result-generated")
          && (bool_decide (t_phase t = Active) || bool_decide (t_phase t = Finishing)) then
    do output <- present (get "output" (en_payload envelope))
                   FInvalidFrame "result-generated missing output";
    match t_role t with Asr => asr_result output | Tts => tts_result output end
  else if bool_decide (event = "task-finished") && bool_decide (t_phase t = Finishing) then
    reject_if (is_Some_b (t_active_sentence t) || t_pending_binary t)
      FSentence "task-finished with an unfinalized sentence" ;!
    update (λ t, t <| t_phase := Finished |>) ;!
    tret OutFinished
  else reject FLifecycle ("unexpected event '" +:+ event +:+ "'").

Definition receive_inner (message : Message) : T TaskOutput :=
  do t <- this;
  reject_if (bool_decide (t_phase t = New) || bool_decide (t_phase t = Failed)
             || bool_decide (t_phase t = Finished))
    FLifecycle "server frame outside live task" ;!
  match message with
  | MBinary bytes => receive_binary bytes
  | MOther => reject FInvalidFrame "expected task JSON or licensed PCM binary"
  | MText text =>
      do envelope <- decoded (decode_envelope text) FInvalidFrame "invalid task envelope: ";
      reject_if (negb (is_object (en_payload envelope)))
        FInvalidFrame "task payload must be an object" ;!
      reject_if (negb (bool_decide (sh_task_id (en_header envelope) = t_task_id t)))
        FIdentity "server task_id does not match this task" ;!
      reject_if (t_pending_binary t
                 && negb (bool_decide (sh_event (en_header envelope) = "task-failed")))
        FInvalidFrame "sentence-synthesis must be followed by binary audio" ;!
      receive_event envelope
  end.

Definition receive (message : Message) : T TaskOutput := λ t,
  match receive_inner message t with
  | (inl e, t') => (inl e, t' <| t_phase := Failed |>)
  | ok => ok
  end.

(** ** Runs *)
Inductive task_op :=
| TRun (model voice language : string)
| TAudioInput (pcm : list Z)
| TContinue (text : string)
| TFinish
| TReceive (message : Message).
(** What one call makes visible outside: a command for the server, an output
    for the caller, or nothing (audio input is sent as it is; errors). *)
Inductive task_event := ECommand (action : string) | EOutput (o : TaskOutput).
Definition emitted {A} (f : A → task_event) (r : TaskError + A) : list task_event :=
  match r with inl _ => [] | inr a => [f a] end.
Definition exec_task (o : task_op) (t : TaskLifecycle) : list task_event * TaskLifecycle :=
  match o with
  | TRun model voice language =>
      let '(r, t') := run_task model voice language t in
      (emitted (λ _, ECommand "run-task") r, t')
  | TAudioInput pcm => ([], (audio_input pcm t).2)
  | TContinue text =>
      let '(r, t') := continue_text text t in (emitted (λ _, ECommand "continue-task") r, t')
  | TFinish => let '(r, t') := finish t in (emitted (λ _, ECommand "finish-task") r, t')
  | TReceive message =>
      let '(r, t') := receive message t in (emitted EOutput r, t')
  end.
Fixpoint exec_tasks (ops : list task_op) (t : TaskLifecycle) : list task_event * TaskLifecycle :=
  match ops with
  | [] => ([], t)
  | o :: ops =>
      let '(es, t1) := exec_task o t in
      let '(es', t2) := exec_tasks ops t1 in (es ++ es', t2)
  end.
End Decoders.

(** ** The protocol a task promises

    The commands sent and the outputs delivered, in order, as an automaton:
    sentence [n+1] starts only after sentence [n] is final, each audio chunk of a
    TTS sentence is licensed by its own metadata frame, a TTS sentence ends only
    after it was heard, and nothing follows the end. *)
Record live := mk_live {
  l_next : Z; l_open : bool; l_heard : bool; l_licensed : bool;
  l_text_sent : bool; l_finishing : bool
}.
#[export] Instance live_settable : Settable live := λ l,
  mk_live (l_next l) (l_open l) (l_heard l) (l_licensed l) (l_text_sent l) (l_finishing l).
Inductive protocol_state := PNew | PAwaiting | PLive (l : live) | PDone.

Definition first_sentence (role : TaskRole) : Z := match role with Asr => 1 | Tts => 0 end.

(** A TTS metadata frame: sentence-begin, sentence-synthesis or sentence-end. *)
Inductive tts_metadata : live → live → Prop :=
| tts_begin l : l_open l = false →
    tts_metadata l (l <| l_open := true |> <| l_heard := false |>)
| tts_synthesis l : l_open l = true →
    tts_metadata l (l <| l_licensed := true |>)
| tts_end l : l_open l = true → l_heard l = true →
    tts_metadata l (l <| l_open := false |> <| l_next := l_next l + 1 |>).

Inductive protocol_step (role : TaskRole) : protocol_state → task_event → protocol_state → Prop :=
| p_run : protocol_step role PNew (ECommand "run-task") PAwaiting
| p_started : protocol_step role PAwaiting (EOutput OutStarted)
    (PLive (mk_live (first_sentence role) false false false false false))
| p_continue l : role = Tts → l_text_sent l = false → l_finishing l = false →
    protocol_step role (PLive l) (ECommand "continue-task") (PLive (l <| l_text_sent := true |>))
| p_finish l : l_finishing l = false → (role = Tts → l_text_sent l = true) →
    protocol_step role (PLive l) (ECommand "finish-task") (PLive (l <| l_finishing := true |>))
| p_preview l text : role = Asr →
    protocol_step role (PLive l) (EOutput (OutTranscript (l_next l) text false))
      (PLive (l <| l_open := true |>))
| p_final l text : role = Asr →
    protocol_step role (PLive l) (EOutput (OutTranscript (l_next l) text true))
      (PLive (l <| l_open := false |> <| l_next := l_next l + 1 |>))
| p_heartbeat l : role = Asr → protocol_step role (PLive l) (EOutput OutMetadata) (PLive l)
| p_metadata l l' : role = Tts → l_text_sent l = true → l_licensed l = false →
    tts_metadata l l' → protocol_step role (PLive l) (EOutput OutMetadata) (PLive l')
| p_audio l samples : role = Tts → l_licensed l = true → l_open l = true → samples ≠ [] →
    protocol_step role (PLive l) (EOutput (OutAudio samples))
      (PLive (l <| l_licensed := false |> <| l_heard := true |>))
| p_done l : l_finishing l = true → l_open l = false → l_licensed l = false →
    (role = Tts → l_text_sent l = true) →
    protocol_step role (PLive l) (EOutput OutFinished) PDone.
Inductive protocol_run (role : TaskRole) :
    protocol_state → list task_event → protocol_state → Prop :=
| protocol_nil p : protocol_run role p [] p
| protocol_cons p e p1 es p2 : protocol_step role p e p1 → protocol_run role p1 es p2 →
    protocol_run role p (e :: es) p2.

(** The automaton state a live ledger stands for. *)
Definition abstract_live (t : TaskLifecycle) (finishing : bool) : live :=
  mk_live (t_next_sentence t) (is_Some_b (t_active_sentence t)) (t_sentence_audio_received t)
    (t_pending_binary t) (t_tts_text_sent t) finishing.
Definition abstracts (t : TaskLifecycle) (p : protocol_state) : Prop :=
  match t_phase t with
  | New => p = PNew
  | AwaitingStarted => p = PAwaiting
  | Active => p = PLive (abstract_live t false)
  | Finishing => p = PLive (abstract_live t true)
  | Finished => p = PDone
  | Failed => True
  end.
(** What holds of every ledger that is not poisoned. *)
Record task_inv (t : TaskLifecycle) : Prop := {
  ti_active k : t_active_sentence t = Some k → k = t_next_sentence t;
  ti_role_asr : t_role t = Asr → t_pending_binary t = false ∧ t_tts_text_sent t = false
    ∧ t_sentence_audio_received t = false;
  ti_pending : t_pending_binary t = true → is_Some (t_active_sentence t);
  ti_idle : (t_phase t = New ∨ t_phase t = AwaitingStarted) →
    t_next_sentence t = first_sentence (t_role t) ∧ t_active_sentence t = None
    ∧ t_pending_binary t = false ∧ t_tts_text_sent t = false
    ∧ t_sentence_audio_received t = false;
  ti_finishing : t_phase t = Finishing → t_role t = Tts → t_tts_text_sent t = true
}.

Ltac unfold_task :=
  cbv beta iota zeta delta
    [ run_task tts_parameters audio_input continue_text finish receive receive_inner
      receive_binary receive_event asr_result asr_sentence tts_result tts_sentence
      next_sentence reject reject_if update this decoded present tbind tret ].

(** Inversion of the steps of a method that returned a value. *)
Lemma tbind_inr {A B} (m : T A) (k : A → T B) t b t' :
  tbind m k t = (inr b, t') ↔ ∃ a t1, m t = (inr a, t1) ∧ k a t1 = (inr b, t').
Proof. unfold tbind. destruct (m t) as [[e|a] t1]; naive_solver. Qed.
Lemma reject_if_inr c f d t u t' : reject_if c f d t = (inr u, t') ↔ c = false ∧ t' = t.
Proof. unfold reject_if, reject, tret. destruct c, u; naive_solver. Qed.
Lemma present_inr {A} (x : option A) f d t a t' :
  present x f d t = (inr a, t') ↔ x = Some a ∧ t' = t.
Proof. unfold present, reject, tret. destruct x; naive_solver. Qed.
Lemma decoded_inr {A} (x : string + A) f d t a t' :
  decoded x f d t = (inr a, t') ↔ x = inr a ∧ t' = t.
Proof. unfold decoded, reject, tret. destruct x; naive_solver. Qed.
Ltac task_inv_steps :=
  repeat match goal with
    | Hrun : tbind this _ ?t = (inr _, _) |- _ =>
        apply tbind_inr in Hrun as (? & ? & [= <- <-] & Hrun)
    | Hrun : tbind (reject_if _ _ _) _ _ = (inr _, _) |- _ =>
        apply tbind_inr in Hrun as (? & ? & [? ->]%reject_if_inr & Hrun)
    | Hrun : tbind (present _ _ _) _ _ = (inr _, _) |- _ =>
        apply tbind_inr in Hrun as (? & ? & [? ->]%present_inr & Hrun)
    | Hrun : tbind (decoded _ _ _) _ _ = (inr _, _) |- _ =>
        apply tbind_inr in Hrun as (? & ? & [? ->]%decoded_inr & Hrun)
    end; bool_hyps.

Ltac task_guards :=
  repeat match goal with
    | H : _ || _ = true |- _ => apply orb_true_iff in H as [H|H]; bool_hyps
    | H : _ && _ = false |- _ => apply andb_false_iff in H as [H|H]; bool_hyps
    end.

Section Proofs.
Context (decode_envelope : string → string + Envelope).
Context (decode_heartbeat : value → string + AsrHeartbeat).
Context (decode_asr_sentence : value → string + AsrSentence).
Context (decode_tts_output : value → string + TtsOutput).
Abbreviation exec_task := (exec_task decode_envelope decode_heartbeat decode_asr_sentence
  decode_tts_output).

(** One successful call moves the automaton by what it emitted. *)
Definition simulated (t : TaskLifecycle) (e : task_event) (t' : TaskLifecycle) : Prop :=
  t_role t' = t_role t ∧ t_task_id t' = t_task_id t ∧ t_phase t ≠ Failed ∧ t_phase t' ≠ Failed
  ∧ (task_inv t → ∀ p, abstracts t p →
     task_inv t' ∧ ∃ p', protocol_step (t_role t) p e p' ∧ abstracts t' p').

Definition in_progress (t : TaskLifecycle) : Prop := t_phase t = Active ∨ t_phase t = Finishing.
(** A step of a live ledger that keeps its phase. *)
Lemma live_simulated t e t' : in_progress t →
  t_phase t' = t_phase t → t_role t' = t_role t → t_task_id t' = t_task_id t →
  (task_inv t → task_inv t' ∧ ∀ fin,
     protocol_step (t_role t) (PLive (abstract_live t fin)) e (PLive (abstract_live t' fin))) →
  simulated t e t'.
Proof.
  intros Hl Hp Hr Hi H. unfold simulated, abstracts. rewrite Hp.
  split_and!; [done|done|by destruct Hl as [-> | ->]..|].
  intros Hinv p. destruct (H Hinv) as [Hinv' Hs].
  destruct Hl as [-> | ->]; intros ->; eauto.
Qed.
Ltac task_ok := split_run; try (intros; discriminate); intros [= <- <-]; bool_hyps; split_facts.
Ltac live_leaf := apply live_simulated; [done..|]; intros []; (split; [split|intros fin]);
  simpl in *; intros;
  repeat match goal with
    | H : ?P → _, E : ?P |- _ =>
        match type of P with Prop => specialize (H E); split_facts end
    end;
  simplify_eq/=; try done; try contradiction; try congruence; eauto.

Lemma asr_sentence_simulated s t o t' : t_role t = Asr → in_progress t →
  asr_sentence s t = (inr o, t') → simulated t (EOutput o) t'.
Proof.
  intros Hr Hl. assert (Hi : ¬ (t_phase t = New ∨ t_phase t = AwaitingStarted))
    by (destruct Hl as [-> | ->]; naive_solver).
  unfold_task. task_ok; live_leaf.
  all: try match goal with H : as_sentence_id _ = t_next_sentence _ |- _ => rewrite H end.
  all: rewrite ?Hr; try (by constructor).
Qed.
Lemma tts_sentence_simulated s t o t' : t_role t = Tts → in_progress t →
  t_tts_text_sent t = true → t_pending_binary t = false →
  tts_sentence s t = (inr o, t') → simulated t (EOutput o) t'.
Proof.
  intros Hr Hl Hs Hp. assert (Hi : ¬ (t_phase t = New ∨ t_phase t = AwaitingStarted))
    by (destruct Hl as [-> | ->]; naive_solver).
  unfold_task. task_ok; live_leaf.
  all: rewrite ?Hr; eapply p_metadata; try done.
  all: first [eapply tts_begin | eapply tts_synthesis | eapply tts_end]; simpl; try done.
  all: by match goal with H : t_active_sentence _ = _ |- _ => rewrite H end.
Qed.
Lemma receive_binary_simulated bytes t o t' : in_progress t →
  receive_binary bytes t = (inr o, t') → simulated t (EOutput o) t'.
Proof.
  intros Hl. assert (Hi : ¬ (t_phase t = New ∨ t_phase t = AwaitingStarted))
    by (destruct Hl as [-> | ->]; naive_solver).
  unfold_task. task_ok; live_leaf.
  match goal with H : t_role t = Tts, A : is_Some _ |- _ =>
    rewrite H; destruct A as [k A]; eapply p_audio; simpl; rewrite ?A; try done end.
  by destruct bytes as [|x [|y bytes]].
Qed.

Lemma asr_result_simulated output t o t' : t_role t = Asr → in_progress t →
  asr_result decode_heartbeat decode_asr_sentence output t = (inr o, t') →
  simulated t (EOutput o) t'.
Proof.
  intros Hr Hl Hrun. unfold asr_result in Hrun. task_inv_steps.
  destruct (get "heartbeat" _) as [[|[]| | | |]|]; task_inv_steps;
    try (by eapply asr_sentence_simulated).
  unfold tret in Hrun. injection Hrun as <- <-.
  apply live_simulated; [done..|]. intros Hi. split; [done|]. intros fin. rewrite Hr.
  by constructor.
Qed.
Lemma tts_result_simulated output t o t' : t_role t = Tts → in_progress t →
  t_pending_binary t = false →
  tts_result decode_tts_output output t = (inr o, t') → simulated t (EOutput o) t'.
Proof.
  intros Hr Hl Hp Hrun. unfold tts_result in Hrun. task_inv_steps.
  by eapply tts_sentence_simulated.
Qed.
Lemma receive_event_simulated en t o t' :
  (t_pending_binary t = true → sh_event (en_header en) = "task-failed") →
  receive_event decode_heartbeat decode_asr_sentence decode_tts_output en t = (inr o, t') →
  simulated t (EOutput o) t'.
Proof.
  intros Hp Hrun. unfold receive_event in Hrun. task_inv_steps.
  destruct (bool_decide (sh_event (en_header en) = "task-failed")) eqn:Ef; [done|].
  bool_hyps. destruct (t_pending_binary t) eqn:Epb; [by specialize (Hp eq_refl)|].
  destruct (_ && _) eqn:Es in Hrun.
  { bool_hyps. unfold tbind, update, tret in Hrun. injection Hrun as <- <-.
    unfold simulated, abstracts. split_and!; try done; [congruence|].
    match goal with E : t_phase t = AwaitingStarted |- _ => rewrite E end.
    intros [] p ->. destruct ti_idle0 as (E1 & E2 & E3 & E4 & E5); [by right|]. split.
    - split; simpl; eauto; naive_solver.
    - eexists. split; [|reflexivity]. unfold abstract_live. simpl.
      rewrite E1, E2, E3, E4, E5. constructor. }
  destruct (_ && _) eqn:Er in Hrun.
  { bool_hyps. match goal with H : _ || _ = true |- _ => apply orb_true_iff in H as Hlive end.
    task_inv_steps.
    assert (in_progress t) by (unfold in_progress; destruct Hlive; bool_hyps; auto).
    destruct (t_role t) eqn:Hr; [by eapply asr_result_simulated|by eapply tts_result_simulated]. }
  destruct (_ && _) eqn:Ed in Hrun; [|done].
  bool_hyps. task_inv_steps. unfold tbind, update, tret in Hrun. injection Hrun as <- <-.
  unfold simulated, abstracts. split_and!; try done; [congruence|].
  match goal with E : t_phase t = Finishing |- _ => rewrite E end.
  intros [] p ->. split; [split; simpl; eauto; naive_solver|].
  eexists. split; [|reflexivity].
  match goal with E : t_active_sentence t = None |- _ => apply p_done; simpl; rewrite ?E; eauto end.
Qed.
Lemma receive_simulated m t o t' :
  receive decode_envelope decode_heartbeat decode_asr_sentence decode_tts_output m t
    = (inr o, t') → simulated t (EOutput o) t'.
Proof.
  unfold receive. destruct (receive_inner _ _ _ _ m t) as [[e|o'] t1] eqn:Hrun; [done|].
  intros [= -> ->]. unfold receive_inner in Hrun. task_inv_steps.
  destruct m as [text|bytes|]; [| |done].
  - task_inv_steps. eapply receive_event_simulated; [|done]. intros Hpb.
    match goal with H : _ && _ = false |- _ => rewrite Hpb in H; simpl in H end. by bool_hyps.
  - destruct (t_phase t) eqn:Hph; try done;
      try (eapply (receive_binary_simulated bytes); [|exact Hrun]; unfold in_progress; by auto).
    (* no audio is licensed before the task starts *)
    unfold receive_binary in Hrun. task_inv_steps.
    unfold tbind, update, tret in Hrun. injection Hrun as <- <-.
    unfold simulated, abstracts. split_and!; try done; [by rewrite Hph..|].
    intros [] p _. destruct ti_idle0 as (?&?&?&?&?); [by right|]. congruence.
Qed.

Lemma run_task_simulated model voice language t c t' :
  run_task model voice language t = (inr c, t') → simulated t (ECommand "run-task") t'.
Proof.
  intros Hrun.
  assert (Ht : t_phase t = New ∧ t' = t <| t_phase := AwaitingStarted |>).
  { revert Hrun. unfold_task. split_run; intros [= _ <-]; by bool_hyps. }
  destruct Ht as [Hph ->]. unfold simulated, abstracts.
  split_and!; simpl; try done; try congruence.
  match goal with E : t_phase t = New |- _ => rewrite E end.
  intros [] p ->. split; [split; simpl; try done; intros _; apply ti_idle0; by left|].
  eexists. split; [|reflexivity]. constructor.
Qed.
Lemma continue_text_simulated text t c t' :
  continue_text text t = (inr c, t') → simulated t (ECommand "continue-task") t'.
Proof.
  intros Hrun. unfold continue_text in Hrun. task_inv_steps.
  unfold tbind, update, tret in Hrun. injection Hrun as <- <-.
  unfold simulated, abstracts. split_and!; simpl; try done; try congruence.
  match goal with E : t_phase t = Active |- _ => rewrite E end.
  intros [] p ->. split; [split; simpl; eauto; try congruence; intros [?|?]; congruence|].
  eexists. split; [|reflexivity]. by apply p_continue.
Qed.
Lemma finish_simulated t c t' :
  finish t = (inr c, t') → simulated t (ECommand "finish-task") t'.
Proof.
  intros Hrun. unfold finish in Hrun. task_inv_steps.
  unfold tbind, update, tret in Hrun. injection Hrun as <- <-.
  assert (Hs : t_role t = Tts → t_tts_text_sent t = true).
  { match goal with H : _ && _ = false |- _ => apply andb_false_iff in H as [H|H] end;
      bool_hyps; congruence. }
  unfold simulated, abstracts. split_and!; simpl; try done; try congruence.
  match goal with E : t_phase t = Active |- _ => rewrite E end.
  intros [] p ->. split; [split; simpl; eauto; try congruence; intros [?|?]; congruence|].
  eexists. split; [|reflexivity]. by apply p_finish.
Qed.
Lemma exec_task_ok o t : let '(es, t') := exec_task o t in
  (es = [] ∧ (t' = t ∨ t_phase t' = Failed ∧ t_role t' = t_role t))
  ∨ ∃ e, es = [e] ∧ simulated t e t'.
Proof.
  destruct o as [model voice language|pcm|text| |m]; simpl.
  - destruct (run_task model voice language t) as [[er|c] t'] eqn:E; simpl;
      [left|right; eauto using run_task_simulated].
    split; [done|left]. revert E. unfold_task. by split_run; intros [= _ <-].
  - left. split; [done|left]. unfold_task. by split_run.
  - destruct (continue_text text t) as [[er|c] t'] eqn:E; simpl;
      [left|right; eauto using continue_text_simulated].
    split; [done|left]. revert E. unfold_task. by split_run; intros [= _ <-].
  - destruct (finish t) as [[er|c] t'] eqn:E; simpl;
      [left|right; eauto using finish_simulated].
    split; [done|left]. revert E. unfold_task. by split_run; intros [= _ <-].
  - destruct (receive _ _ _ _ m t) as [[er|c] t'] eqn:E; simpl;
      [left|right; eauto using receive_simulated].
    split; [done|right]. unfold receive in E.
    destruct (receive_inner _ _ _ _ m t) as [[er'|c] t1] eqn:E1; [|done].
    injection E as <- <-. split; [done|]. simpl.
    revert E1. unfold_task. split_run; by intros [= _ <-].
Qed.

(** Ledgers that are poisoned, or live and in step with the automaton. *)
Definition in_step (t : TaskLifecycle) (p : protocol_state) : Prop :=
  t_phase t = Failed ∨ (task_inv t ∧ abstracts t p).
Lemma exec_tasks_ok ops t p : in_step t p →
  t_role (exec_tasks decode_envelope decode_heartbeat decode_asr_sentence decode_tts_output
            ops t).2 = t_role t
  ∧ ∃ p', protocol_run (t_role t) p
         (exec_tasks decode_envelope decode_heartbeat decode_asr_sentence decode_tts_output
            ops t).1 p'
       ∧ in_step (exec_tasks decode_envelope decode_heartbeat decode_asr_sentence
            decode_tts_output ops t).2 p'.
Proof.
  revert t p. induction ops as [|o ops IH]; intros t p Hs; simpl.
  { split; [done|]. exists p. split; [constructor|done]. }
  pose proof (exec_task_ok o t) as Ho. destruct (exec_task o t) as [es1 t1] eqn:E1.
  destruct (exec_tasks _ _ _ _ ops t1) as [es2 t2] eqn:E2. simpl.
  destruct Ho as [[-> Ht]|(e & -> & Hr & _ & Hf & Hf' & Hsim)].
  - assert (Hs1 : in_step t1 p ∧ t_role t1 = t_role t).
    { destruct Ht as [->|[? ?]]; [done|]. split; [by left|done]. }
    destruct Hs1 as [Hs1 Hr]. specialize (IH t1 p Hs1). rewrite E2, Hr in IH. exact IH.
  - destruct Hs as [?|[Hi Hp]]; [done|]. destruct (Hsim Hi p Hp) as [Hi1 (p1 & Hstep & Hp1)].
    destruct (IH t1 p1) as [Hr2 (p2 & Hrun & Hs2)]; [by right|].
    rewrite E2 in *. simpl in *. split; [congruence|]. exists p2. split; [|done].
    econstructor; [done|]. by rewrite Hr in Hrun.
Qed.
Lemma new_in_step parse_uuid role id t :
  new parse_uuid role id = inr t → t_role t = role ∧ in_step t PNew.
Proof.
  unfold new. destruct (parse_uuid id); [|done]. intros [= <-]. split; [done|]. right.
  split; [|done]. split; simpl; try done.
Qed.
End Proofs.

(** *** Sentence numbering of a protocol run *)
Definition final_id (e : task_event) : option Z :=
  match e with EOutput (OutTranscript id _ true) => Some id | _ => None end.
Definition transcript_id (e : task_event) : option Z :=
  match e with EOutput (OutTranscript id _ _) => Some id | _ => None end.
Definition finals (es : list task_event) : list Z := omap final_id es.
Fixpoint numbered_from (n : Z) (l : list Z) : Prop :=
  match l with [] => True | x :: l => x = n ∧ numbered_from (n + 1) l end.
Definition protocol_next (p : protocol_state) : Z := match p with PLive l => l_next l | _ => 1 end.
Lemma protocol_finals p es p' : protocol_run Asr p es p' → p ≠ PDone →
  numbered_from (protocol_next p) (finals es).
Proof.
  intros Hrun. induction Hrun as [p|p e p1 es p2 Hstep Hrun IH]; intros Hp; [done|].
  unfold finals in *. destruct Hstep; simpl in *; try (by apply IH); try done.
  - split; [done|]. by apply IH.
  - inversion Hrun as [|? ? ? ? ? Hd]; subst; [done|inversion Hd].
Qed.

(** ** Theorems *)
Section Theorems.
Context (decode_envelope : string → string + Envelope).
Context (decode_heartbeat : value → string + AsrHeartbeat).
Context (decode_asr_sentence : value → string + AsrSentence).
Context (decode_tts_output : value → string + TtsOutput).
Context (parse_uuid : string → bool).
Abbreviation exec_tasks :=
  (exec_tasks decode_envelope decode_heartbeat decode_asr_sentence decode_tts_output).
Abbreviation receive :=
  (receive decode_envelope decode_heartbeat decode_asr_sentence decode_tts_output).

(** C5: Whatever the server sends and in whatever order the client calls, the
    commands a task sends and the outputs it delivers form a run of the task
    protocol: run-task, started, at most one text, one finish, sentences one
    after the other, licensed audio only, nothing after the end; and the ledger
    is in the protocol state that run reaches, unless it is poisoned. *)
Theorem task_follows_protocol role id t ops :
  new parse_uuid role id = inr t →
  ∃ p, protocol_run role PNew (exec_tasks ops t).1 p
       ∧ (t_phase (exec_tasks ops t).2 ≠ Failed → abstracts (exec_tasks ops t).2 p).
Proof.
  intros [Hr Hs]%new_in_step.
  destruct (exec_tasks_ok decode_envelope decode_heartbeat decode_asr_sentence
              decode_tts_output ops t PNew Hs) as [_ (p & Hrun & Hs')].
  rewrite Hr in Hrun. exists p. split; [done|]. intros Hf. by destruct Hs' as [?|[_ ?]].
Qed.

(** The final transcripts an ASR task delivers are its sentences 1, 2, 3, ...
    in order, each exactly once. *)
Theorem asr_finals_are_consecutive id t ops :
  new parse_uuid Asr id = inr t → numbered_from 1 (finals (exec_tasks ops t).1).
Proof.
  intros [Hr Hs]%new_in_step.
  destruct (exec_tasks_ok decode_envelope decode_heartbeat decode_asr_sentence
              decode_tts_output ops t PNew Hs) as [_ (p & Hrun & _)].
  rewrite Hr in Hrun. by eapply (protocol_finals PNew).
Qed.

(** A rejected frame poisons the task, and a poisoned or finished task never
    sends a command or delivers an output again. *)
Theorem task_end_is_final role id t ops ops' m :
  new parse_uuid role id = inr t →
  let t1 := (exec_tasks ops t).2 in
  (∀ e t2, receive m t1 = (inl e, t2) → t_phase t2 = Failed)
  ∧ (t_phase t1 = Failed ∨ t_phase t1 = Finished → (exec_tasks ops' t1).1 = []).
Proof.
  intros [Hr Hs]%new_in_step. cbv zeta.
  destruct (exec_tasks_ok decode_envelope decode_heartbeat decode_asr_sentence
              decode_tts_output ops t PNew Hs) as [_ (p & _ & Hs1)].
  revert Hs1. generalize (exec_tasks ops t).2. clear t Hr Hs. intros t1 Hs1. split.
  - intros e t2. unfold TaskLifecycle.receive.
    destruct (receive_inner _ _ _ _ m t1) as [[?|?] ?]; [|done]. by intros [= <- <-].
  - intros Hend.
    assert (Hstop : t_phase t1 = Failed ∨ (task_inv t1 ∧ t_phase t1 = Finished)).
    { destruct Hs1 as [?|[? _]]; [by left|]. naive_solver. }
    clear Hs1 Hend p. revert t1 Hstop. induction ops' as [|o ops' IH]; intros t1 Hstop; [done|].
    simpl. pose proof (exec_task_ok decode_envelope decode_heartbeat decode_asr_sentence
                         decode_tts_output o t1) as Ho.
    destruct (exec_task _ _ _ _ o t1) as [es t2].
    destruct Ho as [[-> Ht]|(e & _ & _ & _ & Hf & _ & Hsim)].
    + specialize (IH t2). destruct (TaskLifecycle.exec_tasks _ _ _ _ ops' t2); simpl in *.
      apply IH. destruct Ht as [->|[? _]]; [done|by left].
    + destruct Hstop as [?|[Hi Hfin]]; [done|].
      destruct (Hsim Hi PDone) as [_ (p' & Hstep & _)]; [by unfold abstracts; rewrite Hfin|].
      inversion Hstep.
Qed.

(** An output is delivered only for a frame of this task: a text frame must
    decode to an envelope with an object payload and this very task id, a
    binary frame must be non-empty aligned PCM that a sentence licensed. *)
Theorem received_output_is_owned m t o t' :
  receive m t = (inr o, t') →
  t_task_id t' = t_task_id t
  ∧ match m with
    | MText text => ∃ en, decode_envelope text = inr en
        ∧ sh_task_id (en_header en) = t_task_id t ∧ is_object (en_payload en) = true
        ∧ t_pending_binary t = false
    | MBinary bytes => t_role t = Tts ∧ t_pending_binary t = true ∧ t_pending_binary t' = false
        ∧ bytes ≠ [] ∧ o = OutAudio (pcm_samples bytes)
        ∧ length bytes = (2 * length (pcm_samples bytes))%nat
    | MOther => False
    end.
Proof.
  intros Hrun. split.
  { by apply receive_simulated in Hrun as (_ & ? & _). }
  unfold TaskLifecycle.receive in Hrun.
  destruct (receive_inner _ _ _ _ m t) as [[?|o'] t1] eqn:E; [done|].
  injection Hrun as -> ->. rename E into Hrun. unfold receive_inner in Hrun. task_inv_steps.
  destruct m as [text|bytes|]; [| |done].
  - task_inv_steps. eexists. split_and!; [done|done|done|].
    destruct (t_pending_binary t) eqn:Hp; [|done]. exfalso.
    match goal with H : _ && _ = false |- _ => simpl in H end. bool_hyps.
    unfold receive_event in Hrun. task_inv_steps.
    match goal with H : sh_event _ = "task-failed" |- _ => rewrite H in Hrun end.
    by rewrite bool_decide_true in Hrun.
  - unfold receive_binary in Hrun. task_inv_steps.
    unfold tbind, update, tret in Hrun. injection Hrun as <- <-.
    split_and!; try done.
    match goal with H : _ mod 2 = 0 |- _ => revert H end. clear.
    assert (Hlen : ∀ n (l : list Z), (length l ≤ n)%nat → Z.of_nat (length l) mod 2 = 0 →
              length l = (2 * length (pcm_samples l))%nat).
    { induction n as [|n IH]; intros [|x [|y l]] Hl Hm; simpl in *; try lia; [done|].
      rewrite (IH l) at 1; [lia|lia|].
      replace (Z.of_nat (S (S (length l)))) with (Z.of_nat (length l) + 1 * 2) in Hm by lia.
      by rewrite Z_mod_plus_full in Hm. }
    by apply (Hlen (length bytes)).
Qed.
End Theorems.

(** ** PCM16 on the wire *)
Definition is_byte (x : Z) : Prop := 0 ≤ x < 256.
Definition is_i16 (x : Z) : Prop := -32768 ≤ x < 32768.
Lemma i16_of_to x : is_i16 x → i16_of_le ((x mod 65536) mod 256) (x mod 65536 / 256) = x.
Proof.
  unfold is_i16, i16_of_le. intros Hx.
  pose proof (Z.div_mod (x mod 65536) 256). pose proof (Z.mod_pos_bound x 65536).
  replace ((x mod 65536) mod 256 + 256 * (x mod 65536 / 256)) with (x mod 65536) by lia.
  destruct (decide (0 ≤ x)).
  - rewrite Z.mod_small by lia. destruct (Z.ltb_spec x 32768); lia.
  - rewrite <- (Z_mod_plus_full x 1), Z.mod_small by lia.
    destruct (Z.ltb_spec (x + 1 * 65536) 32768); lia.
Qed.
Lemma i16_to_of lo hi : is_byte lo → is_byte hi →
  i16_to_le (i16_of_le lo hi) = [lo; hi] ∧ is_i16 (i16_of_le lo hi).
Proof.
  unfold is_byte, is_i16, i16_to_le, i16_of_le. intros Hlo Hhi.
  assert (E : (if lo + 256 * hi <? 32768 then lo + 256 * hi else lo + 256 * hi - 65536)
              mod 65536 = lo + 256 * hi).
  { destruct (Z.ltb_spec (lo + 256 * hi) 32768); [apply Z.mod_small; lia|].
    rewrite <- (Z_mod_plus_full _ 1). rewrite Z.mod_small; lia. }
  rewrite E. split.
  - f_equal; [|f_equal].
    + rewrite Z.add_comm, Z.mul_comm, Z_mod_plus_full || rewrite Z.mul_comm, Z_mod_plus_full.
      apply Z.mod_small; lia.
    + symmetry. apply (Z.div_unique _ _ _ lo); lia.
  - destruct (Z.ltb_spec (lo + 256 * hi) 32768); lia.
Qed.

(** C6: PCM16 survives the wire both ways: decoding the bytes of samples gives the
    samples, and encoding the samples of an aligned chunk gives its bytes. *)
Theorem pcm_roundtrip samples bytes :
  (Forall is_i16 samples → pcm_samples (pcm_bytes samples) = samples)
  ∧ (Forall is_byte bytes → Nat.Even (length bytes) →
     pcm_bytes (pcm_samples bytes) = bytes ∧ Forall is_i16 (pcm_samples bytes)).
Proof.
  split.
  - induction 1 as [|x l Hx _ IH]; [done|]. simpl. rewrite IH. f_equal. by apply i16_of_to.
  - assert (H : ∀ n (l : list Z), (length l ≤ n)%nat → Forall is_byte l → Nat.Even (length l) →
              pcm_bytes (pcm_samples l) = l ∧ Forall is_i16 (pcm_samples l)).
    { induction n as [|n IH]; intros [|x [|y l]] Hl Hb He; simpl in *; try lia; try done.
      - by destruct He as [k ?]; lia.
      - apply Forall_cons in Hb as [Hx [Hy Hb]%Forall_cons].
        destruct (IH l) as [E F]; [lia|done|by apply Nat.Even_succ_succ|].
        destruct (i16_to_of x y Hx Hy) as [E1 E2].
        unfold pcm_bytes in *. split; [|by constructor].
        change (i16_to_le (i16_of_le x y) ++ flat_map i16_to_le (pcm_samples l) = x :: y :: l).
        by rewrite E1, E. }
    intros. by eapply H.
Qed.

(** Run-task is sent exactly for a fresh task with a model of its adapter and,
    for TTS, an explicit voice and a supported (or no) language; a refused
    run-task leaves the ledger as it was. *)
Theorem run_task_exactly_when model voice language t :
  (match run_task model voice language t with
   | (inr _, t') => t' = t <| t_phase := AwaitingStarted |>
   | (inl _, t') => t' = t
   end)
  ∧ ((∃ c t', run_task model voice language t = (inr c, t')) ↔
     t_phase t = New
     ∧ match t_role t with
       | Asr => is_asr_model model = true
       | Tts => is_tts_model model = true ∧ is_blank voice = false
           ∧ (is_blank language = true ∨ language_hint language ∈ supported_languages)
       end).
Proof.
  split.
  - unfold_task. by split_run.
  - unfold_task. split_run; bool_hyps; task_guards.
    all: split; [intros (? & ? & ?); simplify_eq|
      intros; destruct_and?; first [exfalso; congruence | eexists _, _; reflexivity | idtac]].
    all: split_and?; try done; auto.
    by match goal with H : _ ∨ _ |- _ => destruct H end.
Qed.

(** ** Witnesses *)
Definition demo_decode (text : string) : string + Envelope :=
  let event e payload := inr (mk_envelope (mk_header "id" e None None) (VObj payload)) in
  if bool_decide (text = "started") then event "task-started" []
  else if bool_decide (text = "final") then event "result-generated"
    [("output", VObj [("sentence", VStr "final")])]
  else if bool_decide (text = "finished") then event "task-finished" []
  else inl "bad json".
Definition demo_sentence (v : value) : string + AsrSentence :=
  inr (mk_asr_sentence 1 "hello" false true true 0 (Some 10)).
Definition demo_heartbeat (v : value) : string + AsrHeartbeat := inl "none".
Definition demo_tts (v : value) : string + TtsOutput := inl "none".
Definition demo_exec := exec_tasks demo_decode demo_heartbeat demo_sentence demo_tts.
Definition demo_task : TaskLifecycle := mk_task Asr "id" New 1 None None false false false.
Definition demo_ops : list task_op :=
  [ TRun "qwen-audio-3.0-asr-flash-streaming" "" ""; TReceive (MText "started");
    TAudioInput [0; 1]; TReceive (MText "final"); TFinish; TReceive (MText "finished") ].

Lemma task_follows_protocol_witness :
  (demo_exec demo_ops demo_task).1
    = [ECommand "run-task"; EOutput OutStarted; EOutput (OutTranscript 1 "hello" true);
       ECommand "finish-task"; EOutput OutFinished]
  ∧ ∃ p, protocol_run Asr PNew (demo_exec demo_ops demo_task).1 p.
Proof.
  split; [by vm_compute|].
  destruct (task_follows_protocol demo_decode demo_heartbeat demo_sentence demo_tts
              (λ _, true) Asr "id" demo_task demo_ops eq_refl) as (p & Hrun & _).
  by exists p.
Defined.
Lemma asr_finals_are_consecutive_witness :
  finals (demo_exec demo_ops demo_task).1 = [1]
  ∧ numbered_from 1 (finals (demo_exec demo_ops demo_task).1).
Proof.
  split; [by vm_compute|].
  by apply (asr_finals_are_consecutive demo_decode demo_heartbeat demo_sentence demo_tts
              (λ _, true) "id" demo_task demo_ops).
Defined.
Lemma task_end_is_final_witness :
  (demo_exec [TFinish; TReceive (MText "started")] (demo_exec demo_ops demo_task).2).1 = [].
Proof.
  apply (task_end_is_final demo_decode demo_heartbeat demo_sentence demo_tts
           (λ _, true) Asr "id" demo_task demo_ops _ MOther eq_refl).
  right. by vm_compute.
Defined.
Lemma received_output_is_owned_witness :
  ∃ en, demo_decode "started" = inr en ∧ sh_task_id (en_header en) = "id".
Proof.
  destruct (received_output_is_owned demo_decode demo_heartbeat demo_sentence demo_tts
              (MText "started") (demo_task <| t_phase := AwaitingStarted |>) OutStarted
              (demo_task <| t_phase := Active |>) ltac:(by vm_compute))
    as (_ & en & ? & ? & _).
  by exists en.
Defined.
