(* ===== verification/TranslatedPcm.v ===== *)
(** * The translated cue PCM authority

    Models [audio/omni/translated_pcm_authority.rs]: the evidence writer that
    seals every translated cue a renderer accepted (one PCM file per cue, a
    journal, a summary), for complete cues and for chunked streams.

    The file system is an oracle: the [k]-th I/O operation fails when
    [io_error k] gives a message. The clock's [k]-th reading is [clock k]. A
    journal or summary write that fails leaves what it had written; the PCM
    file keeps its last complete content. Directory queries, the text of the
    "file exists" error and SHA-256 are parameters. *)
From S2P Require Import Prelude RustStr TaskLifecycle.

(** ** Constants *)
Definition AUTHORITY_DIR_ENV : string := "OMNI_WATCH_MODE_TRANSLATED_PCM_AUTHORITY_DIR".
Definition MAX_SAMPLES_ENV : string := "OMNI_WATCH_MODE_PROVIDER_INPUT_MAX_SAMPLES".
Definition CELL_ID_ENV : string := "OMNI_WATCH_MODE_CELL_ID".
Definition LEASE_ID_ENV : string := "OMNI_WATCH_MODE_PROVIDER_INPUT_LEASE_ID".
Definition RUN_MARKER_ENV : string := "OMNI_WATCH_MODE_RUN_MARKER".
Definition AUTOSTART_ENV : string := "OMNI_WATCH_MODE_AUTOSTART".
Definition MAX_PROVIDER_INPUT_AUTHORITY_SAMPLES : Z := 2880000.
Definition MAX_TRANSLATED_PCM_SAMPLES : Z := 240 * 48000.

(** ** Data *)
Inductive AcceptedTranslatedRenderer :=
| BridgePhysicalPlayback (session_id bridge_instance_id : string) (source_generation : Z)
    (source_generation_token : string) (playback_owner_generation : Z)
    (physical_playback_device_id : string)
| DesktopSpeaker (renderer_instance_id : string) (renderer_owner_generation : Z)
    (render_attempt_id physical_playback_device_id : string)
    (played_frames played_sample_rate_hz played_channel_count : Z).
#[export] Instance renderer_eq_dec : EqDecision AcceptedTranslatedRenderer.
Proof. solve_decision. Defined.

Record AcceptedTranslatedChunk := mk_chunk {
  ch_chunk_index : Z; ch_request_id : string; ch_sample_offset : Z; ch_sample_count : Z;
  ch_accepted_at_ms : Z
}.
Record AcceptedTranslatedCue := mk_cue {
  cu_sequence : Z; cu_cue_id : string; cu_response_id : string; cu_request_ids : list string;
  cu_sample_rate_hz : Z; cu_channel_count : Z; cu_sample_count : Z; cu_frame_count : Z;
  cu_bytes : Z; cu_sha256 : string; cu_relative_path : string; cu_accepted_frames : Z;
  cu_chunk_count : Z; cu_chunks : list AcceptedTranslatedChunk; cu_created_at_ms : Z;
  cu_completed_at_ms : Z; cu_renderer : AcceptedTranslatedRenderer
}.
Record PendingTranslatedStream := mk_pending {
  ps_cue_id : string; ps_response_id : string; ps_request_ids : list string;
  ps_sample_rate_hz : Z; ps_channel_count : Z; ps_samples : list Z; ps_accepted_frames : Z;
  ps_chunks : list AcceptedTranslatedChunk; ps_next_chunk_index : Z; ps_created_at_ms : Z;
  ps_renderer : AcceptedTranslatedRenderer
}.
#[export] Instance pending_settable : Settable PendingTranslatedStream := λ p,
  mk_pending (ps_cue_id p) (ps_response_id p) (ps_request_ids p) (ps_sample_rate_hz p)
    (ps_channel_count p) (ps_samples p) (ps_accepted_frames p) (ps_chunks p)
    (ps_next_chunk_index p) (ps_created_at_ms p) (ps_renderer p).
Record EnabledTranslatedPcmAuthority := mk_enabled {
  en_pcm_directory : string; en_cell_id : string; en_lease_id : string;
  en_run_marker : string; en_session_generation : Z; en_model : string; en_protocol : string;
  en_max_provider_input_samples : Z; en_sequence : Z;
  en_accepted_cues : list AcceptedTranslatedCue; en_accepted_cue_ids : gset string;
  en_active_streams : gmap string PendingTranslatedStream; en_aborted_stream_count : Z;
  en_finalized : bool; en_terminal_reason : option string
}.
#[export] Instance enabled_settable : Settable EnabledTranslatedPcmAuthority := λ e,
  mk_enabled (en_pcm_directory e) (en_cell_id e) (en_lease_id e) (en_run_marker e)
    (en_session_generation e) (en_model e) (en_protocol e) (en_max_provider_input_samples e)
    (en_sequence e) (en_accepted_cues e) (en_accepted_cue_ids e) (en_active_streams e)
    (en_aborted_stream_count e) (en_finalized e) (en_terminal_reason e).

(** One line of the journal, and the content of the summary file. *)
Inductive event_detail :=
| DetailNone
| DetailCue (cue : AcceptedTranslatedCue)
| DetailAborted (cue_id reason : string).
Record JournalRecord := mk_record {
  jr_event : string; jr_sequence : Z; jr_occurred_at_ms : Z; jr_cell_id : string;
  jr_lease_id : string; jr_run_marker : string; jr_session_generation : Z;
  jr_model : string; jr_protocol : string; jr_detail : event_detail
}.
Record Summary := mk_summary {
  sm_cell_id : string; sm_lease_id : string; sm_run_marker : string;
  sm_session_generation : Z; sm_model : string; sm_protocol : string;
  sm_max_provider_input_samples : Z; sm_cue_count : Z; sm_total_samples : Z;
  sm_total_bytes : Z; sm_aborted_stream_count : Z; sm_active_stream_count : Z;
  sm_accepted_cues : list AcceptedTranslatedCue; sm_finalized : bool;
  sm_terminal_reason : option string
}.
(** The files written so far and the oracle's positions. *)
Record World := mk_world {
  wd_io : nat; wd_time : nat; wd_files : gmap string (list Z); wd_directories : gset string;
  wd_journal : list JournalRecord; wd_summary : option Summary
}.
#[export] Instance world_settable : Settable World := λ w,
  mk_world (wd_io w) (wd_time w) (wd_files w) (wd_directories w) (wd_journal w) (wd_summary w).
Record TranslatedPcmAuthority := mk_authority {
  au_enabled : option EnabledTranslatedPcmAuthority; au_world : World
}.
#[export] Instance authority_settable : Settable TranslatedPcmAuthority := λ a,
  mk_authority (au_enabled a) (au_world a).

(** [crate::bridge::ipc::BridgeTranslationSinkOwner]. *)
Record BridgeTranslationSinkOwner := mk_owner {
  ow_session_id : string; ow_bridge_instance_id : string; ow_source_generation : Z;
  ow_source_generation_token : string; ow_physical_playback_device_id : string;
  ow_playback_owner_generation : Z
}.
(** The fields of a [BridgeRuntimeSnapshot] an owner is taken from. *)
Record BridgeRuntimeSnapshot := mk_runtime {
  br_resolved_physical_playback_device_id : string; br_physical_playback_status : string;
  br_source_generation : Z; br_playback_owner_generation : Z;
  br_session_id : option string; br_bridge_instance_id : option string;
  br_source_generation_token : option string
}.
Record SpeakerPlaybackReceipt := mk_receipt {
  sp_rendered_frames : Z; sp_output_sample_rate_hz : Z; sp_output_channel_count : Z;
  sp_physical_playback_device_id : string; sp_renderer_instance_id : string;
  sp_renderer_owner_generation : Z
}.

(** ** Renderer identity *)
(** ["{bridge_instance_id}:{session_id}:{source_generation}"]. *)
Definition generation_token (bridge_instance_id session_id : string) (generation : Z) : string :=
  bridge_instance_id +:+ ":" +:+ session_id +:+ ":" +:+ show_uint generation.
Definition is_default_alias (value : string) : bool :=
  bool_decide (to_ascii_lowercase (trim value)
               ∈ [""; "default"; "speaker-default"; "system-output-default"]).

Definition from_snapshot (s : BridgeRuntimeSnapshot) : option BridgeTranslationSinkOwner :=
  let endpoint_id := trim (br_resolved_physical_playback_device_id s) in
  if negb (bool_decide (br_physical_playback_status s = "ready"))
     || bool_decide (to_ascii_lowercase endpoint_id
                     ∈ [""; "default"; "speaker-default"; "system-output-default"])
     || (br_source_generation s =? 0) || (br_playback_owner_generation s =? 0)
  then None
  else
    match br_session_id s, br_bridge_instance_id s, br_source_generation_token s with
    | Some session_id, Some bridge_instance_id, Some token =>
        if bool_decide (token = generation_token bridge_instance_id session_id
                                  (br_source_generation s))
        then Some (mk_owner session_id bridge_instance_id (br_source_generation s) token
                     endpoint_id (br_playback_owner_generation s))
        else None
    | _, _, _ => None
    end.

Definition bridge_renderer (owner : BridgeTranslationSinkOwner) : AcceptedTranslatedRenderer :=
  BridgePhysicalPlayback (ow_session_id owner) (ow_bridge_instance_id owner)
    (ow_source_generation owner) (ow_source_generation_token owner)
    (ow_playback_owner_generation owner) (ow_physical_playback_device_id owner).
Definition speaker_renderer (receipt : SpeakerPlaybackReceipt) (render_attempt_id : string)
    : AcceptedTranslatedRenderer :=
  DesktopSpeaker (sp_renderer_instance_id receipt) (sp_renderer_owner_generation receipt)
    render_attempt_id (sp_physical_playback_device_id receipt) (sp_rendered_frames receipt)
    (sp_output_sample_rate_hz receipt) (sp_output_channel_count receipt).

Definition renderer_error (r : AcceptedTranslatedRenderer) : option string :=
  match r with
  | BridgePhysicalPlayback session_id bridge_instance_id generation token owner device =>
      if is_blank session_id || is_blank bridge_instance_id || (generation =? 0)
         || negb (bool_decide (token = generation_token bridge_instance_id session_id generation))
         || (owner =? 0) || is_default_alias device
      then Some "translated PCM authority Bridge renderer identity is incomplete" else None
  | DesktopSpeaker instance owner attempt device frames rate channels =>
      if is_blank instance || (owner =? 0) || is_blank attempt || is_default_alias device
         || (frames =? 0) || (rate =? 0) || (channels =? 0)
      then Some "translated PCM authority Desktop speaker receipt is incomplete" else None
  end.

Definition slen {A} (l : list A) : Z := Z.of_nat (length l).

(** ** Validation *)
Definition fail_with {S} (e : option string) : M S unit :=
  match e with Some msg => fail msg | None => ret tt end.
Definition validate_renderer {S} (r : AcceptedTranslatedRenderer) : M S unit :=
  fail_with (renderer_error r).
Definition validate_accepted_pcm {S} (cue_id response_id : string) (samples : list Z)
    (sample_rate_hz channel_count accepted_frames : Z) : M S unit :=
  fail_if (is_blank cue_id || is_blank response_id || bool_decide (samples = []))
    "translated PCM authority requires cueId, responseId, and non-empty PCM" ;;;
  fail_if ((sample_rate_hz =? 0) || negb (channel_count =? 1))
    "translated PCM authority requires mono PCM with a non-zero sample rate" ;;;
  fail_if ((MAX_TRANSLATED_PCM_SAMPLES <? slen samples) || negb (accepted_frames =? slen samples))
    ("translated PCM authority accepted frame mismatch: samples=" +:+ show_uint (slen samples)
     +:+ " acceptedFrames=" +:+ show_uint accepted_frames).
Definition validate_stream_identity {S} (p : PendingTranslatedStream)
    (sample_rate_hz channel_count chunk_index : Z) (response_id : string)
    (renderer : AcceptedTranslatedRenderer) : M S unit :=
  fail_if (negb (ps_sample_rate_hz p =? sample_rate_hz)
           || negb (ps_channel_count p =? channel_count)
           || negb (ps_next_chunk_index p =? chunk_index)
           || negb (bool_decide (ps_response_id p = response_id))
           || negb (bool_decide (ps_renderer p = renderer)))
    ("translated PCM authority stream sequence mismatch: cueId=" +:+ ps_cue_id p
     +:+ " expectedChunk=" +:+ show_uint (ps_next_chunk_index p)
     +:+ " actualChunk=" +:+ show_uint chunk_index).

(** ["{:04}"]. *)
Definition show_pad4 (n : Z) : string :=
  let s := show_uint n in
  String.concat "" (replicate (4 - String.length s) "0") +:+ s.

(** ** The outside world *)
Section Authority.
Context (io_error : nat → option string) (clock : nat → Z).
Context (already_exists : string) (sha256_hex : list Z → string).

Abbreviation A := (M TranslatedPcmAuthority).

(** One I/O operation, its error wrapped by [map_err]. *)
Definition io (context : string) : A unit :=
  let* k := gets (λ a, wd_io (au_world a)) in
  modify (λ a, a <| au_world ::= λ w, w <| wd_io := S k |> |>) ;;;
  match io_error k with Some e => fail (context +:+ e) | None => ret tt end.
Definition now_unix_ms : A Z :=
  let* k := gets (λ a, wd_time (au_world a)) in
  modify (λ a, a <| au_world ::= λ w, w <| wd_time := S k |> |>) ;;;
  ret (clock k).
Definition create_new_file (path : string) : A unit :=
  io "translated PCM authority file must be new: " ;;;
  let* files := gets (λ a, wd_files (au_world a)) in
  fail_if (is_Some_b (files !! path))
    ("translated PCM authority file must be new: " +:+ already_exists) ;;;
  modify (λ a, a <| au_world ::= λ w, w <| wd_files ::= <[path := []]> |> |>).
(** [write_all], [flush] and [sync_data] on a cue's file. *)
Definition write_cue_file (path : string) (data : list Z) : A unit :=
  io "translated PCM authority cue write failed: " ;;;
  modify (λ a, a <| au_world ::= λ w, w <| wd_files ::= <[path := data]> |> |>) ;;;
  io "translated PCM authority cue write failed: " ;;;
  io "translated PCM authority cue write failed: ".

Definition update_enabled (f : EnabledTranslatedPcmAuthority → EnabledTranslatedPcmAuthority)
    : A unit := modify (λ a, a <| au_enabled ::= λ e, f <$> e |>).
(** [let Some(enabled) = self.enabled.as_mut() else { return Ok(()) }]. *)
Definition if_enabled (k : EnabledTranslatedPcmAuthority → A unit) : A unit :=
  let* e := gets au_enabled in
  match e with None => ret tt | Some e => k e end.

(** ** Journal and summary *)
Definition journal_record (e : EnabledTranslatedPcmAuthority) (event : string)
    (occurred : Z) (detail : event_detail) : JournalRecord :=
  mk_record event (en_sequence e) occurred (en_cell_id e) (en_lease_id e) (en_run_marker e)
    (en_session_generation e) (en_model e) (en_protocol e) detail.
Definition next_event (e : EnabledTranslatedPcmAuthority) : EnabledTranslatedPcmAuthority :=
  e <| en_sequence := saturating_add (en_sequence e) 1 |>.
Definition write_raw_event (event : string) (detail : event_detail) : A unit :=
  if_enabled (λ e,
    update_enabled next_event ;;;
    let* occurred := now_unix_ms in
    io "translated PCM authority serialize failed: " ;;;
    modify (λ a, a <| au_world ::= λ w, w <| wd_journal ::= λ j,
      j ++ [journal_record (next_event e) event occurred detail] |> |>) ;;;
    io "translated PCM authority journal write failed: " ;;;
    io "translated PCM authority journal write failed: ").
Definition write_event (event : string) (cue : option AcceptedTranslatedCue) : A unit :=
  write_raw_event event (match cue with Some c => DetailCue c | None => DetailNone end).

(** [.sum::<u64>()]. *)
Definition sum_u64 (l : list Z) : Z := fold_left wrapping_add l 0.
Definition summary_of (e : EnabledTranslatedPcmAuthority) : Summary :=
  mk_summary (en_cell_id e) (en_lease_id e) (en_run_marker e) (en_session_generation e)
    (en_model e) (en_protocol e) (en_max_provider_input_samples e)
    (slen (en_accepted_cues e)) (sum_u64 (cu_sample_count <$> en_accepted_cues e))
    (sum_u64 (cu_bytes <$> en_accepted_cues e)) (en_aborted_stream_count e)
    (Z.of_nat (size (en_active_streams e))) (en_accepted_cues e) (en_finalized e)
    (en_terminal_reason e).
Definition write_summary : A unit :=
  if_enabled (λ e,
    io "translated PCM authority summary reset failed: " ;;;
    io "translated PCM authority summary reset failed: " ;;;
    modify (λ a, a <| au_world ::= λ w, w <| wd_summary := None |> |>) ;;;
    io "translated PCM authority summary serialize failed: " ;;;
    modify (λ a, a <| au_world ::= λ w, w <| wd_summary := Some (summary_of e) |> |>) ;;;
    io "translated PCM authority summary write failed: " ;;;
    io "translated PCM authority summary write failed: ").

(** ** Sealing a cue *)
Definition cue_file_name (cue_sequence : Z) (sha256 : string) : string :=
  "cue-" +:+ show_pad4 cue_sequence +:+ "-" +:+ String.substring 0 16 sha256 +:+ ".pcm".
Definition cue_path (e : EnabledTranslatedPcmAuthority) (file_name : string) : string :=
  en_pcm_directory e +:+ "/" +:+ file_name.
Definition persist_accepted_cue (e : EnabledTranslatedPcmAuthority)
    (cue_id response_id : string) (request_ids : list string) (samples : list Z)
    (sample_rate_hz channel_count accepted_frames chunk_count : Z)
    (chunks : list AcceptedTranslatedChunk) (created_at_ms : Z)
    (renderer : AcceptedTranslatedRenderer) : A AcceptedTranslatedCue :=
  fail_if (bool_decide (cue_id ∈ en_accepted_cue_ids e))
    ("translated PCM authority rejected duplicate completed cueId=" +:+ cue_id) ;;;
  let data := pcm_bytes samples in
  let sha256 := sha256_hex data in
  let cue_sequence := slen (en_accepted_cues e) + 1 in
  let file_name := cue_file_name cue_sequence sha256 in
  create_new_file (cue_path e file_name) ;;;
  write_cue_file (cue_path e file_name) data ;;;
  let* completed := now_unix_ms in
  let record := mk_cue cue_sequence cue_id response_id request_ids sample_rate_hz channel_count
    (slen samples) (slen samples / channel_count) (slen data) sha256
    ("cue-pcm/" +:+ file_name) accepted_frames chunk_count chunks created_at_ms completed
    renderer in
  update_enabled (λ e, e <| en_accepted_cue_ids ::= λ ids, {[cue_id]} ∪ ids |>
                         <| en_accepted_cues ::= λ cues, cues ++ [record] |>) ;;;
  ret record.

Definition accept_complete_cue_for_renderer (accepted_event cue_id response_id request_id : string)
    (samples : list Z) (sample_rate_hz channel_count accepted_frames created_at_ms : Z)
    (renderer : AcceptedTranslatedRenderer) : A unit :=
  if_enabled (λ e,
    validate_accepted_pcm cue_id response_id samples sample_rate_hz channel_count accepted_frames ;;;
    validate_renderer renderer ;;;
    fail_if (is_Some_b (en_active_streams e !! cue_id)
             || bool_decide (cue_id ∈ en_accepted_cue_ids e))
      ("translated PCM authority rejected duplicate cueId=" +:+ cue_id) ;;;
    let* accepted_at := now_unix_ms in
    let* record := persist_accepted_cue e cue_id response_id [request_id] samples sample_rate_hz
      channel_count accepted_frames 1
      [mk_chunk 0 request_id 0 (slen samples) accepted_at] created_at_ms renderer in
    write_event accepted_event (Some record) ;;;
    write_summary).
Definition accept_complete_bridge_cue (cue_id response_id request_id : string)
    (samples : list Z) (sample_rate_hz channel_count accepted_frames created_at_ms : Z)
    (owner : BridgeTranslationSinkOwner) : A unit :=
  accept_complete_cue_for_renderer "bridge_write_accepted" cue_id response_id request_id samples
    sample_rate_hz channel_count accepted_frames created_at_ms (bridge_renderer owner).
Definition accept_complete_speaker_cue (cue_id response_id request_id : string)
    (samples : list Z) (sample_rate_hz channel_count accepted_frames created_at_ms : Z)
    (receipt : SpeakerPlaybackReceipt) (render_attempt_id : string) : A unit :=
  accept_complete_cue_for_renderer "desktop_speaker_played" cue_id response_id request_id samples
    sample_rate_hz channel_count accepted_frames created_at_ms
    (speaker_renderer receipt render_attempt_id).

(** ** Streams *)
Inductive TranslationStreamState := StreamStart | StreamChunk | StreamEnd | StreamAbort.

Definition abort_stream (cue_id reason : string) : A unit :=
  if_enabled (λ e,
    when (is_Some_b (en_active_streams e !! cue_id))
      (update_enabled (λ e, e <| en_active_streams ::= delete cue_id |>
                              <| en_aborted_stream_count ::= λ n, saturating_add n 1 |>) ;;;
       write_raw_event "stream_aborted" (DetailAborted cue_id reason) ;;;
       write_summary)).

Definition stream_start (e : EnabledTranslatedPcmAuthority) (cue_id response_id request_id : string)
    (samples : list Z) (sample_rate_hz channel_count accepted_frames chunk_index created_at_ms : Z)
    (renderer : AcceptedTranslatedRenderer) : A unit :=
  fail_if (negb (chunk_index =? 0) || is_Some_b (en_active_streams e !! cue_id)
           || bool_decide (cue_id ∈ en_accepted_cue_ids e))
    ("translated PCM authority rejected invalid stream start cueId=" +:+ cue_id
     +:+ " chunkIndex=" +:+ show_uint chunk_index) ;;;
  validate_accepted_pcm cue_id response_id samples sample_rate_hz channel_count accepted_frames ;;;
  let* accepted_at := now_unix_ms in
  update_enabled (λ e, e <| en_active_streams ::= <[cue_id :=
    mk_pending cue_id response_id [request_id] sample_rate_hz channel_count samples
      accepted_frames [mk_chunk chunk_index request_id 0 (slen samples) accepted_at] 1
      created_at_ms renderer]> |>) ;;;
  write_summary.

Definition stream_chunk (e : EnabledTranslatedPcmAuthority) (cue_id response_id request_id : string)
    (samples : list Z) (sample_rate_hz channel_count accepted_frames chunk_index : Z)
    (renderer : AcceptedTranslatedRenderer) : A unit :=
  validate_accepted_pcm cue_id response_id samples sample_rate_hz channel_count accepted_frames ;;;
  match en_active_streams e !! cue_id with
  | None => fail ("translated PCM authority stream chunk has no start cueId=" +:+ cue_id)
  | Some p =>
      validate_stream_identity p sample_rate_hz channel_count chunk_index response_id renderer ;;;
      let next_len := slen (ps_samples p) + slen samples in
      fail_if (MAX_TRANSLATED_PCM_SAMPLES <? next_len)
        ("translated PCM authority stream exceeds " +:+ show_uint MAX_TRANSLATED_PCM_SAMPLES
         +:+ " samples") ;;;
      let* accepted_at := now_unix_ms in
      let p := p <| ps_samples ::= λ s, s ++ samples |>
                 <| ps_chunks ::= λ c, c ++ [mk_chunk chunk_index request_id
                      (next_len - slen samples) (slen samples) accepted_at] |>
                 <| ps_request_ids ::= λ r, r ++ [request_id] |> in
      match checked_add (ps_accepted_frames p) accepted_frames with
      | None =>
          update_enabled (λ e, e <| en_active_streams ::= <[cue_id := p]> |>) ;;;
          fail "translated PCM accepted frame count overflow"
      | Some frames =>
          update_enabled (λ e, e <| en_active_streams ::= <[cue_id :=
            p <| ps_accepted_frames := frames |>
              <| ps_next_chunk_index := Z.min (ps_next_chunk_index p + 1) u32_max |>]> |>) ;;;
          write_summary
      end
  end.

Definition stream_end (e : EnabledTranslatedPcmAuthority) (cue_id response_id request_id : string)
    (samples : list Z) (sample_rate_hz channel_count accepted_frames chunk_index : Z)
    (renderer : AcceptedTranslatedRenderer) : A unit :=
  fail_if (negb (bool_decide (samples = [])) || negb (accepted_frames =? 0))
    "translated PCM authority stream end must contain no PCM" ;;;
  match en_active_streams e !! cue_id with
  | None => fail ("translated PCM authority stream end has no start cueId=" +:+ cue_id)
  | Some p =>
      validate_stream_identity p sample_rate_hz channel_count chunk_index response_id renderer ;;;
      update_enabled (λ e, e <| en_active_streams ::= delete cue_id |>) ;;;
      let* record := persist_accepted_cue e (ps_cue_id p) (ps_response_id p)
        (ps_request_ids p ++ [request_id]) (ps_samples p) (ps_sample_rate_hz p)
        (ps_channel_count p) (ps_accepted_frames p) (ps_next_chunk_index p) (ps_chunks p)
        (ps_created_at_ms p) (ps_renderer p) in
      write_event "bridge_write_accepted" (Some record) ;;;
      write_summary
  end.

Definition accept_stream_write (cue_id response_id request_id : string) (samples : list Z)
    (sample_rate_hz channel_count accepted_frames chunk_index : Z)
    (stream_state : TranslationStreamState) (created_at_ms : Z)
    (owner : BridgeTranslationSinkOwner) : A unit :=
  if_enabled (λ e,
    let renderer := bridge_renderer owner in
    validate_renderer renderer ;;;
    match stream_state with
    | StreamStart => stream_start e cue_id response_id request_id samples sample_rate_hz
                       channel_count accepted_frames chunk_index created_at_ms renderer
    | StreamChunk => stream_chunk e cue_id response_id request_id samples sample_rate_hz
                       channel_count accepted_frames chunk_index renderer
    | StreamEnd => stream_end e cue_id response_id request_id samples sample_rate_hz
                     channel_count accepted_frames chunk_index renderer
    | StreamAbort => abort_stream cue_id "bridge-stream-abort"
    end).

(** ** The end of a route *)
Definition finalize (reason : string) : A unit :=
  if_enabled (λ e,
    if en_finalized e then ret tt
    else
      let unfinished := Z.of_nat (size (en_active_streams e)) in
      update_enabled (λ e, e <| en_active_streams := ∅ |>
                             <| en_aborted_stream_count ::= λ n, saturating_add n unfinished |>
                             <| en_finalized := true |>
                             <| en_terminal_reason := Some reason |>) ;;;
      write_raw_event "finalized" DetailNone ;;;
      write_summary).
(** [Drop]: the error is ignored. *)
Definition drop_authority : A unit := λ a, (Ok tt, (finalize "authority-drop" a).2).

(** ** Construction from the environment *)
Context (parent : string → option string) (is_dir : string → bool).
Definition required (name : string) (value : option string) : outcome string :=
  required_entry ("strict translated PCM authority requires " +:+ name) value.
Definition disabled (w : World) : TranslatedPcmAuthority := mk_authority None w.

(** The configuration [from_environment] checks before it touches the disk. *)
Record PcmConfig := mk_config {
  pc_directory : string; pc_max_samples : Z; pc_cell_id : string; pc_lease_id : string;
  pc_run_marker : string
}.
Definition read_configuration (direction model protocol : string)
    (read_env : string → option string) : outcome PcmConfig :=
  let? directory := required AUTHORITY_DIR_ENV (read_env AUTHORITY_DIR_ENV) in
  let? text := required MAX_SAMPLES_ENV (read_env MAX_SAMPLES_ENV) in
  let? max_samples := map_err (parse_u64 text) (MAX_SAMPLES_ENV +:+ " must be an integer: ") in
  if (max_samples =? 0) || (MAX_PROVIDER_INPUT_AUTHORITY_SAMPLES <? max_samples)
  then Err (Fail (MAX_SAMPLES_ENV +:+ " must be within 1..="
                  +:+ show_uint MAX_PROVIDER_INPUT_AUTHORITY_SAMPLES))
  else
    let? cell_id := required CELL_ID_ENV (read_env CELL_ID_ENV) in
    let? lease_id := required LEASE_ID_ENV (read_env LEASE_ID_ENV) in
    let? run_marker := required RUN_MARKER_ENV (read_env RUN_MARKER_ENV) in
    let? autostart := required AUTOSTART_ENV (read_env AUTOSTART_ENV) in
    if negb (bool_decide (autostart ∈ ["1"; "true"; "TRUE"; "yes"; "YES"]))
    then Err (Fail ("strict translated PCM authority requires " +:+ AUTOSTART_ENV +:+ "=1"))
    else if negb (bool_decide (direction = "inbound"))
    then Err (Fail "strict translated PCM authority permits only the inbound Watch route")
    else if is_blank model || is_blank protocol
    then Err (Fail "strict translated PCM authority requires resolved model and protocol")
    else match parent directory with
         | None => Err (Fail "strict translated PCM authority directory must have a parent")
         | Some p =>
             if is_dir p then Ok (mk_config directory max_samples cell_id lease_id run_marker)
             else Err (Fail "strict translated PCM authority parent directory does not exist")
         end.

Definition create_dir (path context : string) : A unit :=
  io context ;;;
  let* dirs := gets (λ a, wd_directories (au_world a)) in
  fail_if (bool_decide (path ∈ dirs)) (context +:+ already_exists) ;;;
  modify (λ a, a <| au_world ::= λ w, w <| wd_directories ::= λ d, {[path]} ∪ d |> |>).
(** The closure [initialize]; on an error the directory is removed again. *)
Definition initialize_files (directory : string) : A unit := λ a,
  let m := create_dir (directory +:+ "/cue-pcm")
             "strict translated PCM cue directory create failed: " ;;;
           create_new_file (directory +:+ "/translated-cue-pcm-authority.jsonl") ;;;
           create_new_file (directory +:+ "/translated-cue-pcm-summary.json") in
  match m a with
  | (Err e, a') =>
      (Err e, a' <| au_world ::= λ w,
         let removed := w <| wd_io := S (wd_io w) |> in
         match io_error (wd_io w) with
         | Some _ => removed
         | None => removed <| wd_files := wd_files (au_world a) |>
                           <| wd_directories := wd_directories (au_world a) ∖ {[directory]} |>
         end |>)
  | ok => ok
  end.
Definition from_environment (direction : string) (session_generation : Z)
    (model protocol : string) (read_env : string → option string) : A unit :=
  if negb (is_Some_b (read_env AUTHORITY_DIR_ENV)) && negb (is_Some_b (read_env MAX_SAMPLES_ENV))
  then modify (λ a, disabled (au_world a))
  else
    let* c := lift (read_configuration direction model protocol read_env) in
    create_dir (pc_directory c)
      "strict translated PCM authority directory must be new and exclusive: " ;;;
    initialize_files (pc_directory c) ;;;
    modify (λ a, a <| au_enabled := Some
      (mk_enabled (pc_directory c +:+ "/cue-pcm") (pc_cell_id c) (pc_lease_id c)
         (pc_run_marker c) session_generation (trim model) (trim protocol)
         (pc_max_samples c) 0 [] ∅ ∅ 0 false None) |>) ;;;
    write_event "initialized" None ;;;
    write_summary.

(** ** Runs *)
Inductive pcm_op :=
| PBridgeCue (cue response request : string) (samples : list Z)
    (rate channels frames created : Z) (owner : BridgeTranslationSinkOwner)
| PSpeakerCue (cue response request : string) (samples : list Z)
    (rate channels frames created : Z) (receipt : SpeakerPlaybackReceipt) (attempt : string)
| PStream (cue response request : string) (samples : list Z)
    (rate channels frames chunk : Z) (state : TranslationStreamState) (created : Z)
    (owner : BridgeTranslationSinkOwner)
| PAbort (cue reason : string)
| PFinalize (reason : string).
Definition exec_pcm (o : pcm_op) : A unit :=
  match o with
  | PBridgeCue c r q s rate ch f t owner =>
      accept_complete_bridge_cue c r q s rate ch f t owner
  | PSpeakerCue c r q s rate ch f t receipt attempt =>
      accept_complete_speaker_cue c r q s rate ch f t receipt attempt
  | PStream c r q s rate ch f k st t owner =>
      accept_stream_write c r q s rate ch f k st t owner
  | PAbort c reason => abort_stream c reason
  | PFinalize reason => finalize reason
  end.
(** A fresh authority over an arbitrary world. *)
Definition pcm_fresh (a : TranslatedPcmAuthority) : Prop :=
  match au_enabled a with
  | None => True
  | Some e => en_accepted_cues e = [] ∧ en_accepted_cue_ids e = ∅ ∧ en_active_streams e = ∅
  end.
Definition pcm_step (a : TranslatedPcmAuthority) (o : pcm_op) (a' : TranslatedPcmAuthority) : Prop :=
  (exec_pcm o a).2 = a'.
Definition pcm_reachable : TranslatedPcmAuthority → Prop := reachable pcm_fresh pcm_step.
End Authority.
