(* ===== verification/TranslatedPcmFacts.v ===== *)
(** * Correctness of the translated PCM authority *)
From S2P Require Import Prelude RustStr TaskLifecycle TranslatedPcm.

(** ** Chunks that tile the samples *)
Fixpoint tiles (offset index : Z) (chunks : list AcceptedTranslatedChunk) (total : Z) : Prop :=
  match chunks with
  | [] => offset = total
  | c :: chunks =>
      ch_chunk_index c = index ∧ ch_sample_offset c = offset ∧ 0 < ch_sample_count c
      ∧ tiles (offset + ch_sample_count c) (index + 1) chunks total
  end.
Lemma tiles_snoc offset index chunks total c :
  tiles offset index chunks total →
  ch_chunk_index c = index + slen chunks → ch_sample_offset c = total → 0 < ch_sample_count c →
  tiles offset index (chunks ++ [c]) (total + ch_sample_count c).
Proof.
  unfold slen. revert offset index. induction chunks as [|x l IH]; intros offset index; simpl.
  - intros -> Hi Ho Hc. split_and!; try done; lia.
  - intros (?&?&?&H) Hi Ho Hc. split_and!; try done. apply IH; try done. lia.
Qed.
Lemma tiles_length offset index chunks total :
  tiles offset index chunks total → offset + slen chunks ≤ total.
Proof.
  unfold slen. revert offset index. induction chunks as [|x l IH]; intros offset index; simpl; [lia|].
  intros (?&?&?&H%IH). lia.
Qed.

(** ** The invariant *)
Section Facts.
Context (io_error : nat → option string) (clock : nat → Z).
Context (already_exists : string) (sha256_hex : list Z → string).

Definition file_of (e : EnabledTranslatedPcmAuthority) (c : AcceptedTranslatedCue) : string :=
  cue_path e (cue_file_name (cu_sequence c) (cu_sha256 c)).
(** A sealed cue: its numbers agree with each other and with its file. *)
Record cue_sealed (files : gmap string (list Z)) (e : EnabledTranslatedPcmAuthority)
    (i : nat) (c : AcceptedTranslatedCue) : Prop := {
  cs_sequence : cu_sequence c = Z.of_nat i + 1;
  cs_ids : is_blank (cu_cue_id c) = false ∧ is_blank (cu_response_id c) = false;
  cs_count : 0 < cu_sample_count c ≤ MAX_TRANSLATED_PCM_SAMPLES;
  cs_mono : cu_channel_count c = 1 ∧ cu_sample_rate_hz c ≠ 0;
  cs_frames : cu_frame_count c = cu_sample_count c ∧ cu_accepted_frames c = cu_sample_count c;
  cs_tiles : tiles 0 0 (cu_chunks c) (cu_sample_count c);
  cs_chunk_count : cu_chunk_count c = slen (cu_chunks c);
  cs_renderer : renderer_error (cu_renderer c) = None;
  cs_file : ∃ samples, files !! file_of e c = Some (pcm_bytes samples)
    ∧ cu_sha256 c = sha256_hex (pcm_bytes samples)
    ∧ slen samples = cu_sample_count c ∧ cu_bytes c = 2 * cu_sample_count c
}.
Record stream_ok (id : string) (p : PendingTranslatedStream) : Prop := {
  so_id : ps_cue_id p = id;
  so_ids : is_blank (ps_cue_id p) = false ∧ is_blank (ps_response_id p) = false;
  so_count : 0 < slen (ps_samples p) ≤ MAX_TRANSLATED_PCM_SAMPLES;
  so_mono : ps_channel_count p = 1 ∧ ps_sample_rate_hz p ≠ 0;
  so_frames : ps_accepted_frames p = slen (ps_samples p);
  so_tiles : tiles 0 0 (ps_chunks p) (slen (ps_samples p));
  so_next : ps_next_chunk_index p = slen (ps_chunks p);
  so_renderer : renderer_error (ps_renderer p) = None
}.
Record enabled_inv (files : gmap string (list Z)) (e : EnabledTranslatedPcmAuthority) : Prop := {
  ei_cues i c : en_accepted_cues e !! i = Some c → cue_sealed files e i c;
  ei_ids id : id ∈ en_accepted_cue_ids e ↔ ∃ c, c ∈ en_accepted_cues e ∧ cu_cue_id c = id;
  ei_unique : NoDup (cu_cue_id <$> en_accepted_cues e);
  ei_streams id p : en_active_streams e !! id = Some p →
    stream_ok id p ∧ id ∉ en_accepted_cue_ids e
}.
Definition pcm_inv (a : TranslatedPcmAuthority) : Prop :=
  match au_enabled a with
  | None => True
  | Some e => enabled_inv (wd_files (au_world a)) e
  end.

(** Bookkeeping that touches neither cues, streams nor PCM files. *)
Definition same_cues (e e' : EnabledTranslatedPcmAuthority) : Prop :=
  en_pcm_directory e' = en_pcm_directory e ∧ en_accepted_cues e' = en_accepted_cues e
  ∧ en_accepted_cue_ids e' = en_accepted_cue_ids e
  ∧ en_active_streams e' = en_active_streams e
  ∧ en_finalized e' = en_finalized e ∧ en_terminal_reason e' = en_terminal_reason e
  ∧ en_aborted_stream_count e' = en_aborted_stream_count e.
Definition bookkeeping (a a' : TranslatedPcmAuthority) : Prop :=
  wd_files (au_world a') = wd_files (au_world a)
  ∧ match au_enabled a, au_enabled a' with
    | None, None => True
    | Some e, Some e' => same_cues e e'
    | _, _ => False
    end.
#[export] Instance bookkeeping_preorder : PreOrder bookkeeping.
Proof.
  split.
  - intros a. split; [done|]. by destruct (au_enabled a).
  - intros x y z [H1 H2] [H3 H4]. split; [congruence|].
    destruct (au_enabled x), (au_enabled y), (au_enabled z); try done.
    unfold same_cues in *. destruct_and?. split_and!; congruence.
Qed.
Lemma io_bookkeeping c : evolves bookkeeping (io io_error c).
Proof.
  intros a. unfold io, bind, gets, modify, ret, fail, throw. simpl.
  destruct (io_error _); simpl; (split; [done|]; by destruct (au_enabled a)).
Qed.
Lemma now_bookkeeping : evolves bookkeeping (now_unix_ms clock).
Proof. intros a. split; [done|]. simpl. by destruct (au_enabled a). Qed.
Lemma world_bookkeeping f : (∀ w, wd_files (f w) = wd_files w) →
  evolves bookkeeping (modify (λ a, a <| au_world ::= f |>)).
Proof. intros Hf a. split; [apply Hf|]. simpl. by destruct (au_enabled a). Qed.
#[local] Hint Resolve io_bookkeeping now_bookkeeping : evolve.
#[local] Hint Extern 1 (evolves bookkeeping (modify _)) => by apply world_bookkeeping : evolve.
Lemma event_bookkeeping event detail :
  evolves bookkeeping (write_raw_event io_error clock event detail).
Proof.
  unfold write_raw_event, if_enabled. evolve.
  intros a'. unfold update_enabled, next_event. simpl.
  split; [done|]. by destruct (au_enabled a').
Qed.
Lemma summary_bookkeeping : evolves bookkeeping (write_summary io_error).
Proof. unfold write_summary, if_enabled. evolve. Qed.

Lemma same_cues_inv files e e' : same_cues e e' → enabled_inv files e → enabled_inv files e'.
Proof.
  intros (Hd & Hc & Hi & Hs & _) [H1 H2 H3 H4]. split; rewrite ?Hc, ?Hi, ?Hs; try done.
  intros i c H. destruct (H1 i c H). split; try done.
  unfold file_of, cue_path. by rewrite Hd.
Qed.
Lemma bookkeeping_inv a a' : bookkeeping a a' → pcm_inv a → pcm_inv a'.
Proof.
  intros [Hf Hb]. unfold pcm_inv. rewrite Hf. destruct (au_enabled a), (au_enabled a'); try done.
  by apply same_cues_inv.
Qed.

(** ** Sealing one cue *)
Lemma insert_file_inv files path data e :
  files !! path = None → enabled_inv files e → enabled_inv (<[path:=data]> files) e.
Proof.
  intros Hp [H1 H2 H3 H4]. split; try done. intros i c H.
  destruct (H1 i c H) as [? ? ? ? ? ? ? ? (samples & Hf & ?)]. split; try done.
  exists samples. split; [by apply lookup_insert_fresh|done].
Qed.
(** What a cue must satisfy to be sealed. *)
Record sealable (cue_id response_id : string) (samples : list Z)
    (rate channels frames chunk_count : Z) (chunks : list AcceptedTranslatedChunk)
    (renderer : AcceptedTranslatedRenderer) : Prop := {
  sl_ids : is_blank cue_id = false ∧ is_blank response_id = false;
  sl_count : 0 < slen samples ≤ MAX_TRANSLATED_PCM_SAMPLES;
  sl_mono : channels = 1 ∧ rate ≠ 0;
  sl_frames : frames = slen samples;
  sl_tiles : tiles 0 0 chunks (slen samples);
  sl_chunk_count : chunk_count = slen chunks;
  sl_renderer : renderer_error renderer = None
}.
Definition sealed_as (a : TranslatedPcmAuthority) (e : EnabledTranslatedPcmAuthority)
    (cue_id : string) (samples : list Z) (record : AcceptedTranslatedCue)
    (a' : TranslatedPcmAuthority) : Prop :=
  pcm_inv a'
  ∧ cu_cue_id record = cue_id
  ∧ cu_sequence record = slen (en_accepted_cues e) + 1
  ∧ wd_files (au_world a') !! file_of e record = Some (pcm_bytes samples)
  ∧ au_enabled a' = Some (e <| en_accepted_cue_ids ::= λ ids, {[cue_id]} ∪ ids |>
                            <| en_accepted_cues ::= λ cues, cues ++ [record] |>).
Lemma pcm_bytes_length samples : slen (pcm_bytes samples) = 2 * slen samples.
Proof.
  unfold slen, pcm_bytes. induction samples as [|x l IH]; [done|].
  cbn [flat_map i16_to_le app length] in *. lia.
Qed.
Lemma sealed_inv files e record samples :
  enabled_inv files e →
  cu_cue_id record ∉ en_accepted_cue_ids e →
  en_active_streams e !! cu_cue_id record = None →
  cue_sealed files e (length (en_accepted_cues e)) record →
  files !! file_of e record = Some (pcm_bytes samples) →
  enabled_inv files (e <| en_accepted_cue_ids ::= λ ids, {[cu_cue_id record]} ∪ ids |>
                       <| en_accepted_cues ::= λ cues, cues ++ [record] |>).
Proof.
  intros [H1 H2 H3 H4] Hnew Hidle Hs Hf. split; simpl.
  - intros i c. rewrite lookup_app_Some. intros [H|[Hi H]].
    + destruct (H1 i c H). by split.
    + destruct (i - length (en_accepted_cues e))%nat as [|k] eqn:E; [|by destruct k].
      simpl in H. injection H as <-. replace i with (length (en_accepted_cues e)) by lia.
      destruct Hs. by split.
  - intros id. rewrite elem_of_union, elem_of_singleton, H2.
    setoid_rewrite elem_of_app. setoid_rewrite list_elem_of_singleton. split.
    + intros [->|(c & ? & ?)]; eauto.
    + intros (c & [?| ->] & ?); eauto.
  - rewrite fmap_app. apply NoDup_app. split_and!; [done| |apply NoDup_singleton].
    intros id (c & -> & Hc)%list_elem_of_fmap Hin. apply list_elem_of_singleton in Hin.
    apply Hnew, H2. eauto.
  - intros id p Hp. destruct (H4 id p Hp) as [? ?]. split; [done|].
    rewrite elem_of_union, elem_of_singleton. intros [->|?]; [congruence|done].
Qed.

Lemma persist_sealed e0 e cue_id response_id requests samples rate channels frames chunk_count
    chunks created renderer a :
  au_enabled a = Some e → pcm_inv a →
  en_accepted_cues e0 = en_accepted_cues e → en_accepted_cue_ids e0 = en_accepted_cue_ids e →
  en_pcm_directory e0 = en_pcm_directory e →
  en_active_streams e !! cue_id = None →
  sealable cue_id response_id samples rate channels frames chunk_count chunks renderer →
  match persist_accepted_cue io_error clock already_exists sha256_hex e0 cue_id response_id
          requests samples rate channels frames chunk_count chunks created renderer a with
  | (Ok record, a') => sealed_as a e cue_id samples record a'
  | (Err _, a') => pcm_inv a'
  end.
Proof.
  intros He Hi Ec Ei Ed Hidle [Hids Hcount [Hch Hrate] Hframes Htiles Hcc Hr].
  unfold pcm_inv in Hi. rewrite He in Hi.
  cbv beta iota zeta delta [persist_accepted_cue create_new_file write_cue_file io now_unix_ms
    update_enabled bind gets modify ret fail_if fail throw].
  split_run; unfold pcm_inv; simpl; rewrite ?He; bool_hyps; try done.
  all: try by apply insert_file_inv.
  all: try by rewrite insert_insert_eq; apply insert_file_inv.
  simpl in *. clear Heqo Heqo0 Heqo1 Heqo2.
  unfold cue_path in *. rewrite Ec, Ed, ?Ei in *. rewrite insert_insert_eq.
  match goal with |- sealed_as _ _ _ _ ?r _ => set (record := r) end.
  set (path := _ +:+ "/" +:+ _) in *.
  assert (Hpath : file_of e record = path) by done.
  unfold sealed_as, pcm_inv. simpl. rewrite ?He. simpl.
  split_and!; try done; [|rewrite Hpath; by rewrite lookup_insert_eq].
  apply (sealed_inv _ _ record samples); try done.
  - by apply insert_file_inv.
  - split; simpl; try done; try lia.
    + rewrite Hch, Z.div_1_r. by rewrite Hframes.
    + exists samples. rewrite Hpath, lookup_insert_eq. by rewrite pcm_bytes_length.
  - rewrite Hpath. apply lookup_insert_eq.
Qed.

(** ** Every operation preserves the invariant *)
Abbreviation persist := (persist_accepted_cue io_error clock already_exists sha256_hex).
Lemma event_inv event detail a o a' :
  write_raw_event io_error clock event detail a = (o, a') → pcm_inv a → pcm_inv a'.
Proof.
  intros E. pose proof (event_bookkeeping event detail a) as H. rewrite E in H.
  by apply bookkeeping_inv.
Qed.
Lemma summary_inv a o a' : write_summary io_error a = (o, a') → pcm_inv a → pcm_inv a'.
Proof.
  intros E. pose proof (summary_bookkeeping a) as H. rewrite E in H. by apply bookkeeping_inv.
Qed.
(** The tail every acceptance ends with. *)
Lemma announce_inv event detail a :
  pcm_inv a → pcm_inv ((write_raw_event io_error clock event detail ;;; write_summary io_error) a).2.
Proof.
  intros Hi. unfold bind. destruct (write_raw_event _ _ _ _ a) as [[u|er] a1] eqn:E1; simpl.
  - destruct (write_summary _ a1) as [r a2] eqn:E2. simpl. eauto using event_inv, summary_inv.
  - eauto using event_inv.
Qed.
Lemma now_at a e : au_enabled a = Some e → pcm_inv a →
  ∃ t a', now_unix_ms clock a = (Ok t, a') ∧ au_enabled a' = Some e ∧ pcm_inv a'.
Proof.
  intros He Hi. eexists _, _. split; [reflexivity|]. simpl. split; [done|].
  unfold pcm_inv in *. simpl. by rewrite He in *.
Qed.
Lemma pcm_guards cue_id response_id samples rate channels frames (u : unit) (a a' : TranslatedPcmAuthority) :
  validate_accepted_pcm cue_id response_id samples rate channels frames a = (Ok u, a') →
  a' = a ∧ (is_blank cue_id = false ∧ is_blank response_id = false)
  ∧ 0 < slen samples ≤ MAX_TRANSLATED_PCM_SAMPLES ∧ (channels = 1 ∧ rate ≠ 0)
  ∧ frames = slen samples.
Proof.
  cbv beta iota zeta delta [validate_accepted_pcm fail_if bind ret fail throw].
  split_run; intros [= _ <-]; bool_hyps; split_and!; try done.
  unfold slen. destruct samples; [done|]. simpl length. lia.
Qed.
Lemma pcm_guards_err cue_id response_id samples rate channels frames er (a a' : TranslatedPcmAuthority) :
  validate_accepted_pcm cue_id response_id samples rate channels frames a = (Err er, a') → a' = a.
Proof.
  cbv beta iota zeta delta [validate_accepted_pcm fail_if bind ret fail throw].
  split_run; by intros [= _ <-].
Qed.
(** Sealing from a state at [e], followed by the announcement. *)
Lemma seal_and_announce e0 e event cue_id response_id requests samples rate channels frames
    chunk_count chunks created renderer a :
  au_enabled a = Some e → pcm_inv a →
  en_accepted_cues e0 = en_accepted_cues e → en_accepted_cue_ids e0 = en_accepted_cue_ids e →
  en_pcm_directory e0 = en_pcm_directory e → en_active_streams e !! cue_id = None →
  sealable cue_id response_id samples rate channels frames chunk_count chunks renderer →
  pcm_inv ((let* record := persist e0 cue_id response_id requests samples rate channels frames
              chunk_count chunks created renderer in
            write_event io_error clock event (Some record) ;;; write_summary io_error) a).2.
Proof.
  intros He Hi Ec Ei Ed Hidle Hs.
  pose proof (persist_sealed e0 e cue_id response_id requests samples rate channels frames
                chunk_count chunks created renderer a He Hi Ec Ei Ed Hidle Hs) as H.
  unfold bind at 1. destruct (persist _ _ _ _ _ _ _ _ _ _ _ _ a) as [[record|er] a1]; [|done].
  apply announce_inv, H.
Qed.

Lemma complete_cue_inv event cue_id response_id request_id samples rate channels frames created r :
  evolves (preserved pcm_inv)
    (accept_complete_cue_for_renderer io_error clock already_exists sha256_hex event cue_id
       response_id request_id samples rate channels frames created r).
Proof.
  intros a Hi. unfold accept_complete_cue_for_renderer, if_enabled.
  unfold bind at 1, gets. destruct (au_enabled a) as [e|] eqn:He; [|done].
  unfold bind at 1.
  destruct (validate_accepted_pcm _ _ _ _ _ _ a) as [[u|er] a1] eqn:Ev;
    [|by apply pcm_guards_err in Ev as ->].
  apply pcm_guards in Ev as (-> & Hids & Hc & Hm & Hf). destruct u.
  unfold bind at 1, validate_renderer, fail_with.
  destruct (renderer_error r) as [msg|] eqn:Er; [done|]. simpl.
  unfold bind at 1. destruct (is_Some_b _ || _) eqn:Eg; [done|]. bool_hyps. simpl.
  destruct (now_at a e He Hi) as (t & a1 & Et & He1 & Hi1).
  unfold bind at 1. rewrite Et.
  apply (seal_and_announce e e); try done.
  split; try done. simpl. split_and!; try done; lia.
Qed.

(** Changing the streams alone. *)
Lemma streams_inv files e f :
  enabled_inv files e →
  (∀ id p, f (en_active_streams e) !! id = Some p → stream_ok id p ∧ id ∉ en_accepted_cue_ids e) →
  enabled_inv files (e <| en_active_streams ::= f |>).
Proof.
  intros [H1 H2 H3 H4] Hf. split; simpl; try done.
  intros i c H. destruct (H1 i c H). by split.
Qed.
Lemma delete_inv files e id : enabled_inv files e →
  enabled_inv files (e <| en_active_streams ::= delete id |>).
Proof.
  intros H. apply streams_inv; [done|]. intros i p [_ Hp]%lookup_delete_Some.
  by apply (ei_streams _ _ H).
Qed.
Lemma insert_inv files e id p : enabled_inv files e → stream_ok id p →
  id ∉ en_accepted_cue_ids e →
  enabled_inv files (e <| en_active_streams ::= <[id := p]> |>).
Proof.
  intros H Hp Hid. apply streams_inv; [done|].
  intros i q [[<- <-]|[_ Hq]]%lookup_insert_Some; [done|by apply (ei_streams _ _ H)].
Qed.
(** Fields the invariant does not read. *)
Lemma counters_inv files e n fin reason :
  enabled_inv files e →
  enabled_inv files (e <| en_aborted_stream_count := n |> <| en_finalized := fin |>
                       <| en_terminal_reason := reason |>).
Proof.
  intros [H1 H2 H3 H4]. split; simpl; try done. intros i c H. destruct (H1 i c H). by split.
Qed.

Lemma abort_inv cue_id reason : evolves (preserved pcm_inv) (abort_stream io_error clock cue_id reason).
Proof.
  intros a Hi. unfold abort_stream, if_enabled.
  unfold bind at 1, gets. destruct (au_enabled a) as [e|] eqn:He; [|done].
  unfold when. destruct (is_Some_b _) eqn:Hs; [|done].
  apply announce_inv. unfold pcm_inv in *. simpl. rewrite He in *. simpl.
  refine (counters_inv (wd_files (au_world a)) (e <| en_active_streams ::= delete cue_id |>)
            (saturating_add (en_aborted_stream_count e) 1) (en_finalized e)
            (en_terminal_reason e) _).
  by apply delete_inv.
Qed.
Lemma finalize_inv reason : evolves (preserved pcm_inv) (finalize io_error clock reason).
Proof.
  intros a Hi. unfold finalize, if_enabled.
  unfold bind at 1, gets. destruct (au_enabled a) as [e|] eqn:He; [|done].
  destruct (en_finalized e); [done|].
  apply announce_inv. unfold pcm_inv in *. simpl. rewrite He in *. simpl.
  refine (counters_inv (wd_files (au_world a)) (e <| en_active_streams ::= λ _, ∅ |>)
            (saturating_add (en_aborted_stream_count e) (Z.of_nat (size (en_active_streams e))))
            true (Some reason) _).
  by apply (streams_inv _ _ (λ _, ∅)).
Qed.

Section Stream.
Context (a : TranslatedPcmAuthority) (e : EnabledTranslatedPcmAuthority).
Context (He : au_enabled a = Some e) (Hi : pcm_inv a).
Context (cue_id response_id request_id : string) (samples : list Z).
Context (rate channels frames chunk_index created : Z) (r : AcceptedTranslatedRenderer).
Context (Hr : renderer_error r = None).

Lemma enabled_inv_here : enabled_inv (wd_files (au_world a)) e.
Proof. pose proof Hi as H. unfold pcm_inv in H. by rewrite He in H. Qed.

Lemma stream_start_inv :
  pcm_inv (stream_start io_error clock e cue_id response_id request_id samples rate channels
             frames chunk_index created r a).2.
Proof.
  pose proof enabled_inv_here as Hei.
  unfold stream_start. unfold bind at 1. destruct (_ || _ || _) eqn:Eg; [done|]. bool_hyps.
  unfold fail_if, ret. unfold bind at 1.
  destruct (validate_accepted_pcm _ _ _ _ _ _ a) as [[u|er] a1] eqn:Ev;
    [|by apply pcm_guards_err in Ev as ->].
  apply pcm_guards in Ev as (-> & Hids & Hc & Hm & Hf).
  destruct (now_at a e He Hi) as (t & a1 & Et & He1 & Hi1). unfold bind at 1. rewrite Et.
  unfold bind at 1, update_enabled, modify.
  destruct (write_summary io_error _) as [o a2] eqn:E2. simpl.
  eapply summary_inv; [exact E2|]. unfold pcm_inv in *. simpl. rewrite He1 in *. simpl.
  apply insert_inv; [done| |done]. split; simpl; try done. split_and!; try done; lia.
Qed.
Lemma identity_guard p (u : unit) (b b' : TranslatedPcmAuthority) :
  validate_stream_identity p rate channels chunk_index response_id r b = (Ok u, b') →
  b' = b ∧ ps_next_chunk_index p = chunk_index ∧ ps_channel_count p = channels
  ∧ ps_response_id p = response_id.
Proof.
  unfold validate_stream_identity, fail_if. destruct (_ || _) eqn:Eg; [done|].
  intros [= _ <-]. by bool_hyps.
Qed.
Lemma identity_guard_err p er (b b' : TranslatedPcmAuthority) :
  validate_stream_identity p rate channels chunk_index response_id r b = (Err er, b') → b' = b.
Proof. unfold validate_stream_identity, fail_if. destruct (_ || _); [by intros [= _ <-]|done]. Qed.

Lemma stream_chunk_inv :
  pcm_inv (stream_chunk io_error clock e cue_id response_id request_id samples rate channels
             frames chunk_index r a).2.
Proof.
  pose proof enabled_inv_here as Hei. unfold stream_chunk. unfold bind at 1.
  destruct (validate_accepted_pcm _ _ _ _ _ _ a) as [[u|er] a1] eqn:Ev;
    [|by apply pcm_guards_err in Ev as ->].
  apply pcm_guards in Ev as (-> & Hids & Hc & Hm & Hf).
  destruct (en_active_streams e !! cue_id) as [p|] eqn:Hp; [|done].
  destruct (ei_streams _ _ Hei _ _ Hp) as [[S1 S2 S3 S4 S5 S6 S7 S8] Hnew].
  unfold bind at 1. destruct (validate_stream_identity _ _ _ _ _ _ a) as [[u'|er] a1] eqn:Ei;
    [|by apply identity_guard_err in Ei as ->].
  apply identity_guard in Ei as (-> & Hn & _ & _). cbv zeta.
  unfold bind at 1. unfold fail_if. destruct (_ <? _) eqn:El; [done|]. unfold ret at 1.
  apply Z.ltb_ge in El.
  destruct (now_at a e He Hi) as (t & a1 & Et & He1 & Hi1). unfold bind at 1. rewrite Et.
  destruct (checked_add _ _) as [total|] eqn:Eadd; [|exfalso].
  - apply checked_add_Some in Eadd as [-> _].
    unfold bind at 1, update_enabled, modify.
  destruct (write_summary io_error _) as [o a2] eqn:E2. simpl.
    eapply summary_inv; [exact E2|]. unfold pcm_inv in *. simpl. rewrite He1 in *. simpl.
    pose proof (tiles_length _ _ _ _ S6) as Hlen.
    apply insert_inv; [done| |done]. split; simpl; try done.
    + unfold slen in *. rewrite length_app. lia.
    + unfold slen in *. rewrite length_app. lia.
    + replace (slen (ps_samples p ++ samples)) with (slen (ps_samples p) + slen samples)
        by (unfold slen; rewrite length_app; lia).
      refine (tiles_snoc 0 0 _ _ (mk_chunk _ _ _ _ _) S6 _ _ _); simpl; unfold slen in *; lia.
    + unfold slen in *. rewrite length_app. simpl.
      unfold u32_max, MAX_TRANSLATED_PCM_SAMPLES in *. lia.
  - apply checked_add_None in Eadd. simpl in Eadd.
    unfold u64_max, MAX_TRANSLATED_PCM_SAMPLES in *. lia.
Qed.
Lemma stream_end_inv :
  pcm_inv (stream_end io_error clock already_exists sha256_hex e cue_id response_id request_id
             samples rate channels frames chunk_index r a).2.
Proof.
  pose proof enabled_inv_here as Hei. unfold stream_end. unfold bind at 1.
  destruct (_ || _) eqn:Eg; [done|]. unfold fail_if, ret at 1.
  destruct (en_active_streams e !! cue_id) as [p|] eqn:Hp; [|done].
  destruct (ei_streams _ _ Hei _ _ Hp) as [[S1 S2 S3 S4 S5 S6 S7 S8] Hnew].
  unfold bind at 1. destruct (validate_stream_identity _ _ _ _ _ _ a) as [[u'|er] a1] eqn:Ei;
    [|by apply identity_guard_err in Ei as ->].
  apply identity_guard in Ei as (-> & Hn & _ & _).
  unfold bind at 1, update_enabled, modify. simpl.
  apply (seal_and_announce e (e <| en_active_streams ::= delete cue_id |>)); try done.
  - simpl. by rewrite He.
  - unfold pcm_inv. simpl. rewrite He. simpl. by apply delete_inv.
  - simpl. rewrite S1. apply lookup_delete_eq.
Qed.
End Stream.

Lemma stream_write_inv cue_id response_id request_id samples rate channels frames chunk_index
    state created owner :
  evolves (preserved pcm_inv)
    (accept_stream_write io_error clock already_exists sha256_hex cue_id response_id request_id
       samples rate channels frames chunk_index state created owner).
Proof.
  intros a Hi. unfold accept_stream_write, if_enabled.
  unfold bind at 1, gets. destruct (au_enabled a) as [e|] eqn:He; [|done].
  unfold bind at 1, validate_renderer, fail_with.
  destruct (renderer_error _) as [msg|] eqn:Er; [done|]. simpl.
  destruct state.
  - by apply stream_start_inv.
  - by apply stream_chunk_inv.
  - by apply stream_end_inv.
  - by apply abort_inv.
Qed.
#[export] Instance pcm_invariant :
  Invariant pcm_fresh (pcm_step io_error clock already_exists sha256_hex) pcm_inv.
Proof.
  split.
  - intros a. unfold pcm_fresh, pcm_inv. destruct (au_enabled a) as [e|]; [|done].
    intros (Ec & Ei & Es). split; rewrite ?Ec, ?Ei, ?Es; try done; [|constructor].
    intros id. split; [set_solver|]. intros (c & Hc & _). by apply elem_of_nil in Hc.
  - intros a o a' Hi <-. revert Hi.
    destruct o; [apply complete_cue_inv|apply complete_cue_inv|apply stream_write_inv|apply abort_inv
                |apply finalize_inv].
Qed.
End Facts.
