(* ===== verification/TranslatedPcmTheorems.v ===== *)
(** * What the translated PCM artifact proves

    Sealed cues are consistent with their files and are never changed again; a
    chunked stream seals what the complete cue would have; a finalized
    artifact keeps its terminal reason; the journal is numbered. *)
From S2P Require Import Prelude RustStr TaskLifecycle TranslatedPcm TranslatedPcmFacts.

Section Theorems.
Context (io_error : nat → option string) (clock : nat → Z).
Context (already_exists : string) (sha256_hex : list Z → string).
Abbreviation exec := (exec_pcm io_error clock already_exists sha256_hex).
Abbreviation step := (pcm_step io_error clock already_exists sha256_hex).
Abbreviation pcm_reachable := (pcm_reachable io_error clock already_exists sha256_hex).
Abbreviation persist := (persist_accepted_cue io_error clock already_exists sha256_hex).

(** ** What only grows *)
Definition enabled_grows (e e' : EnabledTranslatedPcmAuthority) : Prop :=
  en_pcm_directory e' = en_pcm_directory e
  ∧ en_accepted_cues e `prefix_of` en_accepted_cues e'
  ∧ (en_finalized e = true →
     en_finalized e' = true ∧ en_terminal_reason e' = en_terminal_reason e).
Definition artifact_grows (a a' : TranslatedPcmAuthority) : Prop :=
  wd_files (au_world a) ⊆ wd_files (au_world a')
  ∧ match au_enabled a, au_enabled a' with
    | None, None => True
    | Some e, Some e' => enabled_grows e e'
    | _, _ => False
    end.
#[export] Instance artifact_grows_preorder : PreOrder artifact_grows.
Proof.
  split.
  - intros a. split; [done|]. destruct (au_enabled a); [|done].
    by split_and!.
  - intros x y z [H1 H2] [H3 H4]. split; [by etransitivity|].
    destruct (au_enabled x), (au_enabled y), (au_enabled z); try done.
    destruct H2 as (?&?&H5), H4 as (?&?&H6). split_and!; [congruence|by etransitivity|].
    intros [Hf Hr]%H5. destruct (H6 Hf) as [? ?]. split; congruence.
Qed.
Lemma bookkeeping_grows a a' : bookkeeping a a' → artifact_grows a a'.
Proof.
  intros [Hf Hb]. split; [by rewrite Hf|]. destruct (au_enabled a), (au_enabled a'); try done.
  destruct Hb as (?&Hc&?&?&?&?&?). split_and!; [done|by rewrite Hc|].
  intros ?. split; congruence.
Qed.
Lemma evolves_grows {A} (m : M TranslatedPcmAuthority A) :
  evolves bookkeeping m → evolves artifact_grows m.
Proof. intros H a. apply bookkeeping_grows, H. Qed.
Lemma update_grows f : (∀ e, enabled_grows e (f e)) → evolves artifact_grows (update_enabled f).
Proof. intros Hf a. split; [done|]. simpl. destruct (au_enabled a); [apply Hf|done]. Qed.
Lemma persist_grows e0 cue_id response_id requests samples rate channels frames chunk_count
    chunks created renderer :
  evolves artifact_grows
    (persist e0 cue_id response_id requests samples rate channels frames chunk_count chunks
       created renderer).
Proof.
  intros a.
  cbv beta iota zeta delta [persist_accepted_cue create_new_file write_cue_file io now_unix_ms
    update_enabled bind gets modify ret fail_if fail throw].
  split_run; simpl in *; bool_hyps; unfold artifact_grows; simpl;
    rewrite ?insert_insert_eq; (split; [try done; by apply insert_subseteq|]);
    try by destruct (au_enabled a); [split_and!|].
  destruct (au_enabled a); simpl; [|done]. split_and!; simpl; [done| |done].
  by eexists.
Qed.
#[local] Hint Resolve io_bookkeeping now_bookkeeping event_bookkeeping summary_bookkeeping
  evolves_grows persist_grows : evolve.
#[local] Hint Extern 1 (evolves artifact_grows (update_enabled _)) =>
  apply update_grows; intros ?; by split_and! : evolve.
Lemma abort_grows cue_id reason : evolves artifact_grows (abort_stream io_error clock cue_id reason).
Proof. unfold abort_stream, if_enabled. evolve. Qed.
Lemma complete_grows event cue_id response_id request_id samples rate channels frames created r :
  evolves artifact_grows
    (accept_complete_cue_for_renderer io_error clock already_exists sha256_hex event cue_id
       response_id request_id samples rate channels frames created r).
Proof.
  unfold accept_complete_cue_for_renderer, if_enabled, validate_accepted_pcm, validate_renderer,
    fail_with, write_event. evolve.
Qed.
Lemma stream_write_grows cue_id response_id request_id samples rate channels frames chunk_index
    state created owner :
  evolves artifact_grows
    (accept_stream_write io_error clock already_exists sha256_hex cue_id response_id request_id
       samples rate channels frames chunk_index state created owner).
Proof.
  unfold accept_stream_write, if_enabled, validate_renderer, fail_with, stream_start, stream_chunk,
    stream_end, validate_accepted_pcm, validate_stream_identity, write_event.
  evolve; apply abort_grows.
Qed.
Lemma finalize_grows reason : evolves artifact_grows (finalize io_error clock reason).
Proof.
  intros a. unfold finalize, if_enabled, bind at 1, gets.
  destruct (au_enabled a) as [e|] eqn:He; [|done]. destruct (en_finalized e) eqn:Hf; [done|].
  unfold bind at 1. unfold update_enabled at 1, modify at 1.
  match goal with |- artifact_grows _ (?m ?s).2 => assert (evolves artifact_grows m) as H by evolve;
    specialize (H s) end.
  etransitivity; [|exact H]. split; [done|]. simpl. rewrite He. simpl.
  split_and!; simpl; [done|done|congruence].
Qed.
Lemma op_grows a o a' : step a o a' → artifact_grows a a'.
Proof.
  intros <-. destruct o; [apply complete_grows|apply complete_grows|apply stream_write_grows
                         |apply abort_grows|apply finalize_grows].
Qed.

(** ** Runs without I/O errors *)
Section Quiet.
Context (Hio : ∀ k, io_error k = None).

Lemma quiet_io c : always_ok (io io_error c).
Proof. intros a. unfold io, bind, gets, modify. by rewrite Hio. Qed.
Lemma quiet_event event detail : always_ok (write_raw_event io_error clock event detail).
Proof.
  unfold write_raw_event, if_enabled.
  repeat first [apply quiet_io | apply always_ok_bind; [|intros ?] | by intros ? | case_match].
Qed.
Lemma quiet_summary : always_ok (write_summary io_error).
Proof.
  unfold write_summary, if_enabled.
  repeat first [apply quiet_io | apply always_ok_bind; [|intros ?] | by intros ? | case_match].
Qed.
Lemma summary_quiet a : ∃ a', write_summary io_error a = (Ok tt, a') ∧ bookkeeping a a'.
Proof. apply (always_ok_run bookkeeping); [apply quiet_summary|apply (summary_bookkeeping io_error clock)]. Qed.
Lemma announce_quiet event detail a : ∃ a',
  (write_raw_event io_error clock event detail ;;; write_summary io_error) a = (Ok tt, a')
  ∧ bookkeeping a a'.
Proof.
  apply (always_ok_run bookkeeping).
  - apply always_ok_bind; [apply quiet_event|intros; apply quiet_summary].
  - evolve.
Qed.

Lemma now_quiet a e : au_enabled a = Some e →
  ∃ t a', now_unix_ms clock a = (Ok t, a') ∧ au_enabled a' = Some e
  ∧ wd_files (au_world a') = wd_files (au_world a).
Proof. intros He. by eexists _, _. Qed.

(** What a cue sealed from [e] looks like. *)
Definition sealed_from (e : EnabledTranslatedPcmAuthority) (files : gmap string (list Z))
    (cue_id response_id : string) (samples : list Z) (rate : Z)
    (renderer : AcceptedTranslatedRenderer) (a' : TranslatedPcmAuthority) : Prop :=
  ∃ e' record,
    au_enabled a' = Some e'
    ∧ en_accepted_cues e' = en_accepted_cues e ++ [record]
    ∧ cu_cue_id record = cue_id ∧ cu_response_id record = response_id
    ∧ cu_sequence record = slen (en_accepted_cues e) + 1
    ∧ cu_sample_rate_hz record = rate ∧ cu_channel_count record = 1
    ∧ cu_sample_count record = slen samples ∧ cu_accepted_frames record = slen samples
    ∧ cu_sha256 record = sha256_hex (pcm_bytes samples) ∧ cu_renderer record = renderer
    ∧ wd_files (au_world a')
      = <[cue_path e (cue_file_name (slen (en_accepted_cues e) + 1)
                        (sha256_hex (pcm_bytes samples))) := pcm_bytes samples]> files.
Lemma seal_quiet e0 e event cue_id response_id requests samples rate frames chunk_count chunks
    created renderer a :
  au_enabled a = Some e →
  en_accepted_cues e0 = en_accepted_cues e → en_accepted_cue_ids e0 = en_accepted_cue_ids e →
  en_pcm_directory e0 = en_pcm_directory e →
  cue_id ∉ en_accepted_cue_ids e → frames = slen samples →
  wd_files (au_world a) !! cue_path e (cue_file_name (slen (en_accepted_cues e) + 1)
    (sha256_hex (pcm_bytes samples))) = None →
  ∃ a', (let* record := persist e0 cue_id response_id requests samples rate 1 frames
                          chunk_count chunks created renderer in
         write_event io_error clock event (Some record) ;;; write_summary io_error) a = (Ok tt, a')
  ∧ sealed_from e (wd_files (au_world a)) cue_id response_id samples rate renderer a'.
Proof.
  intros He Ec Ei Ed Hnew -> Hfree. unfold bind at 1.
  destruct (persist _ _ _ _ _ _ _ _ _ _ _ _ a) as [o a1] eqn:Ep.
  revert Ep. cbv beta iota zeta delta [persist_accepted_cue create_new_file write_cue_file io
    now_unix_ms update_enabled bind gets modify ret fail_if fail throw].
  unfold cue_path in *. rewrite Ei, Ec, Ed. rewrite bool_decide_false by done.
  rewrite !Hio. simpl. rewrite Hfree. simpl. rewrite !Hio. intros [= <- <-]. rewrite He. simpl.
  match goal with |- context [mk_authority (Some ?e1) ?w] =>
    destruct (announce_quiet event (DetailCue (default (mk_cue 0 "" "" [] 0 0 0 0 0 "" "" 0 0 [] 0 0 renderer)
      (last (en_accepted_cues e1)))) (mk_authority (Some e1) w)) as (a2 & E2 & B2);
    set (s1 := mk_authority (Some e1) w) in * end.
  simpl in E2. rewrite last_snoc in E2. simpl in E2.
  exists a2. split; [exact E2|]. destruct B2 as [Bf Be].
  destruct (au_enabled a2) as [e2|] eqn:He2; [|done]. simpl in Be.
  destruct Be as (_ & Hc & _). simpl in Hc.
  eexists e2, _. split_and!; [done|exact Hc|done..|].
  rewrite Bf. simpl. by rewrite insert_insert_eq.
Qed.

(** ** Chunked streams *)
Section Stream.
Context (cue_id response_id : string) (rate created : Z) (owner : BridgeTranslationSinkOwner).
Context (Hids : is_blank cue_id = false ∧ is_blank response_id = false) (Hrate : rate ≠ 0).
Context (Hrenderer : renderer_error (bridge_renderer owner) = None).

(** A piece is a request id and its samples. *)
Definition piece_op (state : TranslationStreamState) (index : Z) (piece : string * list Z) : pcm_op :=
  PStream cue_id response_id piece.1 piece.2 rate 1 (slen piece.2) index state created owner.
Fixpoint chunk_ops (index : Z) (pieces : list (string * list Z)) : list pcm_op :=
  match pieces with
  | [] => [piece_op StreamEnd index ("", [])]
  | piece :: pieces => piece_op StreamChunk index piece :: chunk_ops (index + 1) pieces
  end.
Definition stream_ops (first : string * list Z) (rest : list (string * list Z)) : list pcm_op :=
  piece_op StreamStart 0 first :: chunk_ops 1 rest.
Definition exec_all (ops : list pcm_op) : M TranslatedPcmAuthority unit :=
  fold_right (λ o m, exec o ;;; m) (ret tt) ops.

(** The stream of the cue has received [samples] in [n] pieces since [e0]. *)
Definition streaming (e0 : EnabledTranslatedPcmAuthority) (files : gmap string (list Z))
    (samples : list Z) (n : Z) (a : TranslatedPcmAuthority) : Prop :=
  ∃ e p,
    au_enabled a = Some e ∧ wd_files (au_world a) = files
    ∧ en_accepted_cues e = en_accepted_cues e0 ∧ en_accepted_cue_ids e = en_accepted_cue_ids e0
    ∧ en_pcm_directory e = en_pcm_directory e0
    ∧ en_active_streams e !! cue_id = Some p
    ∧ ps_cue_id p = cue_id ∧ ps_response_id p = response_id ∧ ps_samples p = samples
    ∧ ps_next_chunk_index p = n ∧ ps_sample_rate_hz p = rate ∧ ps_channel_count p = 1
    ∧ ps_accepted_frames p = slen samples ∧ ps_renderer p = bridge_renderer owner
    ∧ n ≤ slen samples.
Lemma streaming_bookkeeping e0 files samples n a a' :
  bookkeeping a a' → streaming e0 files samples n a → streaming e0 files samples n a'.
Proof.
  intros [Hf Hb] (e & p & He & H). rewrite He in Hb.
  destruct (au_enabled a') as [e'|] eqn:He'; [|done].
  destruct Hb as (Hd & Hc & Hi & Hs & _). exists e', p.
  split; [done|]. rewrite Hf, Hc, Hi, Hd, Hs. exact H.
Qed.
Lemma valid_pcm samples (a : TranslatedPcmAuthority) :
  samples ≠ [] → slen samples ≤ MAX_TRANSLATED_PCM_SAMPLES →
  validate_accepted_pcm cue_id response_id samples rate 1 (slen samples) a = (Ok tt, a).
Proof.
  intros Hne Hmax. destruct Hids as [H1 H2].
  unfold validate_accepted_pcm, fail_if, bind. rewrite H1, H2, bool_decide_false by done.
  rewrite (proj2 (Z.eqb_neq rate 0)) by done. rewrite !Z.eqb_refl.
  rewrite (proj2 (Z.ltb_ge MAX_TRANSLATED_PCM_SAMPLES (slen samples))) by done. done.
Qed.
Lemma slen_app {B} (l k : list B) : slen (l ++ k) = slen l + slen k.
Proof. unfold slen. rewrite length_app. lia. Qed.
Lemma slen_pos {B} (l : list B) : l ≠ [] → 1 ≤ slen l.
Proof. destruct l; [done|]. unfold slen. simpl. lia. Qed.

Lemma start_quiet a e first :
  au_enabled a = Some e → en_active_streams e !! cue_id = None →
  cue_id ∉ en_accepted_cue_ids e → first.2 ≠ [] →
  slen first.2 ≤ MAX_TRANSLATED_PCM_SAMPLES →
  ∃ a', exec (piece_op StreamStart 0 first) a = (Ok tt, a')
  ∧ streaming e (wd_files (au_world a)) first.2 1 a'.
Proof.
  intros He Hidle Hnew Hne Hmax. simpl.
  unfold accept_stream_write, if_enabled. unfold bind at 1, gets. rewrite He.
  unfold bind at 1, validate_renderer, fail_with. rewrite Hrenderer. simpl.
  unfold stream_start. unfold bind at 1. rewrite Hidle, bool_decide_false by done. simpl.
  unfold bind at 1. rewrite valid_pcm by done.
  unfold bind, now_unix_ms, update_enabled, gets, modify, ret. simpl. rewrite He. simpl.
  match goal with |- context [write_summary _ ?s] =>
    destruct (summary_quiet s) as (a' & E & B); rewrite E end.
  exists a'. split; [done|]. eapply streaming_bookkeeping; [exact B|].
  eexists _, _. split; [reflexivity|]. simpl. rewrite lookup_insert_eq.
  split_and!; try done; by apply slen_pos.
Qed.
Lemma chunk_quiet e0 files samples n a piece :
  streaming e0 files samples n a → piece.2 ≠ [] →
  slen (samples ++ piece.2) ≤ MAX_TRANSLATED_PCM_SAMPLES →
  ∃ a', exec (piece_op StreamChunk n piece) a = (Ok tt, a')
  ∧ streaming e0 files (samples ++ piece.2) (n + 1) a'.
Proof.
  intros (e & p & He & Hf & Hc & Hi & Hd & Hp & P1 & P2 & P3 & P4 & P5 & P6 & P7 & P8 & Hn) Hne Hmax.
  pose proof (slen_pos _ Hne) as Hpos. rewrite slen_app in Hmax.
  assert (0 ≤ slen samples) by (unfold slen; lia). simpl.
  unfold accept_stream_write, if_enabled. unfold bind at 1, gets. rewrite He.
  unfold bind at 1, validate_renderer, fail_with. rewrite Hrenderer. simpl.
  unfold stream_chunk. unfold bind at 1. rewrite valid_pcm by (try done; lia). rewrite Hp.
  unfold bind at 1, validate_stream_identity.
  rewrite P2, P4, P5, P6, P8, !Z.eqb_refl, !bool_decide_true by done. simpl.
  unfold bind at 1. rewrite P3, (proj2 (Z.ltb_ge _ _)) by lia. simpl.
  unfold bind, now_unix_ms, update_enabled, gets, modify, ret. simpl.
  replace (checked_add (ps_accepted_frames p) (slen piece.2))
    with (Some (slen samples + slen piece.2)); [|symmetry; apply checked_add_Some; rewrite P7;
      unfold u64_max, MAX_TRANSLATED_PCM_SAMPLES in *; lia].
  rewrite He. simpl.
  match goal with |- context [write_summary _ ?s] =>
    destruct (summary_quiet s) as (a' & E & B); rewrite E end.
  exists a'. split; [done|]. eapply streaming_bookkeeping; [exact B|].
  eexists _, _. split; [reflexivity|]. simpl. rewrite lookup_insert_eq, slen_app.
  split_and!; try done; simpl; rewrite ?P3, ?P4; try done; try lia.
  unfold u32_max, MAX_TRANSLATED_PCM_SAMPLES in *. lia.
Qed.
Lemma sealed_from_ext e0 e files id response samples r renderer a :
  en_accepted_cues e = en_accepted_cues e0 → en_pcm_directory e = en_pcm_directory e0 →
  sealed_from e files id response samples r renderer a →
  sealed_from e0 files id response samples r renderer a.
Proof.
  intros Hc Hd (e' & record & H). unfold cue_path in H. rewrite Hc, Hd in H.
  by exists e', record.
Qed.
Definition sealed_path (e : EnabledTranslatedPcmAuthority) (samples : list Z) : string :=
  cue_path e (cue_file_name (slen (en_accepted_cues e) + 1) (sha256_hex (pcm_bytes samples))).
Lemma end_quiet e0 files samples n a :
  streaming e0 files samples n a → cue_id ∉ en_accepted_cue_ids e0 →
  files !! sealed_path e0 samples = None →
  ∃ a', exec (piece_op StreamEnd n ("", [])) a = (Ok tt, a')
  ∧ sealed_from e0 files cue_id response_id samples rate (bridge_renderer owner) a'.
Proof.
  intros (e & p & He & Hf & Hc & Hi & Hd & Hp & P1 & P2 & P3 & P4 & P5 & P6 & P7 & P8 & _) Hnew Hfree.
  simpl. unfold accept_stream_write, if_enabled. unfold bind at 1, gets. rewrite He.
  unfold bind at 1, validate_renderer, fail_with. rewrite Hrenderer. simpl.
  unfold stream_end. unfold bind at 1. simpl. rewrite Hp.
  unfold bind at 1, validate_stream_identity.
  rewrite P2, P4, P5, P6, P8, !Z.eqb_refl, !bool_decide_true by done. simpl.
  unfold bind at 1, update_enabled, modify. rewrite P1, P3, P7.
  set (a1 := set_with _ _ _).
  set (e1 := e <| en_active_streams ::= delete cue_id |>).
  assert (au_enabled a1 = Some e1) as He1 by (unfold a1, e1; simpl; by rewrite He).
  destruct (seal_quiet e e1 "bridge_write_accepted" cue_id response_id (ps_request_ids p ++ [""])
    samples rate (slen samples) n (ps_chunks p) (ps_created_at_ms p) (bridge_renderer owner) a1)
    as (a' & E & S); try done.
  - simpl. by rewrite Hi.
  - simpl. rewrite Hc. unfold sealed_path, cue_path in *. simpl. by rewrite Hd, Hf.
  - exists a'. split; [exact E|]. simpl in S. rewrite Hf in S.
    by apply (sealed_from_ext e0 e1).
Qed.
Lemma chunks_quiet e0 files pieces : ∀ samples n a,
  streaming e0 files samples n a → cue_id ∉ en_accepted_cue_ids e0 →
  Forall (λ piece, piece.2 ≠ []) pieces →
  slen (samples ++ concat pieces.*2) ≤ MAX_TRANSLATED_PCM_SAMPLES →
  files !! sealed_path e0 (samples ++ concat pieces.*2) = None →
  ∃ a', exec_all (chunk_ops n pieces) a = (Ok tt, a')
  ∧ sealed_from e0 files cue_id response_id (samples ++ concat pieces.*2) rate
      (bridge_renderer owner) a'.
Proof.
  induction pieces as [|piece pieces IH]; intros samples n a Ha Hnew Hall Hmax Hfree.
  - cbn [fmap list_fmap concat] in *. rewrite app_nil_r in *.
    destruct (end_quiet e0 files samples n a) as (a' & E & S); try done.
    exists a'. split; [|done]. cbn [chunk_ops exec_all fold_right]. unfold bind.
    by rewrite E.
  - apply Forall_cons in Hall as [Hne Hall]. cbn [fmap list_fmap concat] in *.
    rewrite (app_assoc samples) in *.
    destruct (chunk_quiet e0 files samples n a piece) as (a1 & E1 & S1); try done.
    { rewrite slen_app in Hmax. unfold slen in *. lia. }
    destruct (IH (samples ++ piece.2) (n + 1) a1) as (a' & E & S); try done.
    exists a'. split; [|done]. cbn [chunk_ops exec_all fold_right]. unfold bind at 1.
    rewrite E1. exact E.
Qed.

(** C7: A cue streamed in chunks seals exactly what the complete cue would:
    without I/O errors, a stream start, any number of non-empty chunks and a
    stream end all succeed and leave the same files and the same evidence (next
    sequence number, identity, sample counts, digest of the concatenated
    samples) as one [accept_complete_bridge_cue] of the concatenation. *)
Theorem stream_equals_complete_cue a e first rest request :
  let samples := first.2 ++ concat rest.*2 in
  au_enabled a = Some e → cue_id ∉ en_accepted_cue_ids e →
  en_active_streams e !! cue_id = None →
  Forall (λ piece, piece.2 ≠ []) (first :: rest) →
  slen samples ≤ MAX_TRANSLATED_PCM_SAMPLES →
  wd_files (au_world a) !! sealed_path e samples = None →
  ∃ streamed complete,
    exec_all (stream_ops first rest) a = (Ok tt, streamed)
    ∧ exec (PBridgeCue cue_id response_id request samples rate 1 (slen samples) created owner) a
      = (Ok tt, complete)
    ∧ sealed_from e (wd_files (au_world a)) cue_id response_id samples rate
        (bridge_renderer owner) streamed
    ∧ sealed_from e (wd_files (au_world a)) cue_id response_id samples rate
        (bridge_renderer owner) complete.
Proof.
  intros samples He Hnew Hidle Hall Hmax Hfree. unfold samples in *. clear samples.
  apply Forall_cons in Hall as [Hne Hall].
  destruct (start_quiet a e first) as (a1 & E1 & S1); try done.
  { rewrite slen_app in Hmax. unfold slen in *. lia. }
  destruct (chunks_quiet e (wd_files (au_world a)) rest first.2 1 a1) as (streamed & E & S); try done.
  destruct (now_quiet a e He) as (t & a2 & Et & He2 & Hf2).
  set (samples := first.2 ++ concat rest.*2) in *.
  assert (samples ≠ []) as Hs by (unfold samples; by destruct first.2).
  destruct (seal_quiet e e "bridge_write_accepted" cue_id response_id [request] samples rate
    (slen samples) 1 [mk_chunk 0 request 0 (slen samples) t] created (bridge_renderer owner) a2)
    as (complete & Ec & Sc); try done; [by rewrite Hf2|].
  exists streamed, complete. split_and!; [| |done|by rewrite Hf2 in Sc].
  - unfold stream_ops. cbn [exec_all fold_right]. unfold bind at 1. by rewrite E1.
  - cbn [exec_pcm]. unfold accept_complete_bridge_cue, accept_complete_cue_for_renderer, if_enabled.
    unfold bind at 1, gets. rewrite He. unfold bind at 1. rewrite valid_pcm by done.
    unfold bind at 1, validate_renderer, fail_with. rewrite Hrenderer. simpl.
    unfold bind at 1. rewrite Hidle, bool_decide_false by done. simpl.
    unfold bind at 1. rewrite Et. exact Ec.
Qed.
End Stream.
End Quiet.

(** In every reachable state each sealed cue is consistent: cue [i] has
    sequence [i + 1], non-blank identifiers, mono PCM of 1 to 11,520,000 samples
    at a non-zero rate, chunks that tile it, a valid renderer identity, and its
    PCM file holds exactly its samples with the recorded length and digest. Cue
    ids are unique, and no pending stream reuses a sealed id. *)
Theorem sealed_cues_are_consistent a e :
  pcm_reachable a → au_enabled a = Some e →
  (∀ i c, en_accepted_cues e !! i = Some c →
     cue_sealed sha256_hex (wd_files (au_world a)) e i c)
  ∧ NoDup (cu_cue_id <$> en_accepted_cues e)
  ∧ (∀ id p, en_active_streams e !! id = Some p →
       stream_ok id p ∧ ∀ c, c ∈ en_accepted_cues e → cu_cue_id c ≠ id).
Proof.
  intros Hr He.
  pose proof (reachable_inv pcm_fresh step (pcm_inv sha256_hex) a Hr) as H.
  unfold pcm_inv in H. rewrite He in H. destruct H as [H1 H2 H3 H4].
  split_and!; try done. intros id p Hp. destruct (H4 id p Hp) as [? Hn]. split; [done|].
  intros c Hc <-. apply Hn, H2. eauto.
Qed.

(** The state a list of calls ends in, whether they succeed or not. *)
Definition final_state (ops : list pcm_op) (a : TranslatedPcmAuthority) : TranslatedPcmAuthority :=
  fold_left (λ a o, (exec o a).2) ops a.
Lemma run_final ops : ∀ a, run step a ops (final_state ops a).
Proof.
  induction ops as [|o ops IH]; intros a; [apply run_nil|].
  eapply run_cons; [reflexivity|apply IH].
Qed.

(** Evidence is permanent: along any run of calls, failed ones and I/O errors
    included, no sealed cue is changed or dropped, no PCM file is overwritten
    or removed, an enabled artifact stays enabled, and once it is finalized it
    stays finalized with its first terminal reason. *)
Theorem sealed_evidence_is_permanent a ops a' e :
  run step a ops a' → au_enabled a = Some e →
  ∃ e', au_enabled a' = Some e'
  ∧ (∀ i c, en_accepted_cues e !! i = Some c → en_accepted_cues e' !! i = Some c)
  ∧ (∀ path data, wd_files (au_world a) !! path = Some data →
       wd_files (au_world a') !! path = Some data)
  ∧ (en_finalized e = true →
     en_finalized e' = true ∧ en_terminal_reason e' = en_terminal_reason e).
Proof.
  intros Hr He. destruct (run_evolves step artifact_grows op_grows a ops a' Hr) as [Hf H].
  rewrite He in H. destruct (au_enabled a') as [e'|]; [|done]. destruct H as (_ & Hp & Hfin).
  exists e'. split_and!; [done| | |done].
  - intros i c Hc. by eapply prefix_lookup_Some.
  - intros path data Hpath. by eapply lookup_weaken.
Qed.
End Theorems.

(** ** A concrete artifact *)
Definition sample_artifact : TranslatedPcmAuthority :=
  mk_authority (Some (mk_enabled "d" "cell" "lease" "run" 1 "model" "protocol" 100 0 [] ∅ ∅ 0
                        false None)) (mk_world 0 0 ∅ ∅ [] None).
Definition sample_owner : BridgeTranslationSinkOwner := mk_owner "s" "b" 1 "b:s:1" "device-7" 1.
Definition no_error : nat → option string := λ _, None.
Definition sample_digest : list Z → string := λ data, show_uint (slen data).
Definition sample_ops : list pcm_op :=
  stream_ops "c" "r" 48000 0 sample_owner ("q1", [1; 2]) [("q2", [3])] ++ [PFinalize "done"].
Definition sample_end : TranslatedPcmAuthority :=
  final_state no_error Z.of_nat "exists" sample_digest sample_ops sample_artifact.

Lemma sample_run : run (pcm_step no_error Z.of_nat "exists" sample_digest)
  sample_artifact sample_ops sample_end.
Proof. apply run_final. Qed.
Lemma sample_reachable :
  pcm_reachable no_error Z.of_nat "exists" sample_digest sample_end.
Proof. eapply run_reachable; [|exact sample_run]. by apply reach_init. Qed.

Lemma sealed_cues_are_consistent_witness :
  (λ e, length (en_accepted_cues e)) <$> au_enabled sample_end = Some 1%nat
  ∧ ∀ e, au_enabled sample_end = Some e → NoDup (cu_cue_id <$> en_accepted_cues e).
Proof.
  split; [by vm_compute|]. intros e He.
  apply (sealed_cues_are_consistent no_error Z.of_nat "exists" sample_digest sample_end e
           sample_reachable He).
Defined.
Lemma sealed_evidence_is_permanent_witness : is_Some (au_enabled sample_end).
Proof.
  destruct (sealed_evidence_is_permanent no_error Z.of_nat "exists" sample_digest
    sample_artifact sample_ops sample_end _ sample_run eq_refl) as (e' & He & _).
  by exists e'.
Defined.
Lemma stream_equals_complete_cue_witness : ∃ streamed complete,
  exec_all no_error Z.of_nat "exists" sample_digest
    (stream_ops "c" "r" 48000 0 sample_owner ("q1", [1; 2]) [("q2", [3])]) sample_artifact
    = (Ok tt, streamed)
  ∧ exec_pcm no_error Z.of_nat "exists" sample_digest
      (PBridgeCue "c" "r" "q" [1; 2; 3] 48000 1 3 0 sample_owner) sample_artifact
    = (Ok tt, complete)
  ∧ wd_files (au_world streamed) = wd_files (au_world complete).
Proof.
  destruct (stream_equals_complete_cue no_error Z.of_nat "exists" sample_digest
    (λ _, eq_refl) "c" "r" 48000 0 sample_owner (conj eq_refl eq_refl)
    (ltac:(done)) (ltac:(by vm_compute)) sample_artifact _ ("q1", [1; 2]) [("q2", [3])] "q" eq_refl)
    as (streamed & complete & E1 & E2 & S1 & S2).
  - apply not_elem_of_empty.
  - done.
  - by repeat constructor.
  - done.
  - done.
  - exists streamed, complete. split_and!; [exact E1|exact E2|].
    destruct S1 as (e1 & r1 & S1), S2 as (e2 & r2 & S2).
    destruct S1 as (_&_&_&_&_&_&_&_&_&_&_&->), S2 as (_&_&_&_&_&_&_&_&_&_&_&->). done.
Defined.
