(* ===== verification/ProviderInputBudget.v ===== *)
(** * The provider input budget

    Models [audio/omni/provider_input_budget.rs] with its [environment.rs] and
    [strict_media_end_authority.rs]: the paid-input lease that is charged before
    every socket send, its journal and its snapshot ledger.

    One worker owns the budget, so a method is one run of the state and error
    monad. The [k]-th I/O operation fails when [io_error k] gives a message;
    the clock's [k]-th reading is [clock k]. URL parsing, the model registry's
    answers and JSON decoding of the declared identity are parameters. *)
From S2P Require Import Prelude RustStr.

(** ** Constants *)
Definition MAX_PROVIDER_INPUT_AUTHORITY_SAMPLES : Z := 2880000.
Definition STRICT_ORDINARY_CELL_MAX_SAMPLES : Z := 2173045.
Definition STRICT_PROCESS_CELL_MAX_SAMPLES : Z := 2877045.
Definition STRICT_AEC_OPEN_INPUT_MAX_SAMPLES : Z := 2880000.
Definition COMPLETION_POLICY_ENV : string := "OMNI_WATCH_MODE_COMPLETION_POLICY".
Definition AEC_COMPLETION_POLICY : string := "aec-output-quiescent-v2".
Definition MAX_SAMPLES_ENV : string := "OMNI_WATCH_MODE_PROVIDER_INPUT_MAX_SAMPLES".
Definition LEDGER_PATH_ENV : string := "OMNI_WATCH_MODE_PROVIDER_INPUT_LEDGER_PATH".
Definition CELL_ID_ENV : string := "OMNI_WATCH_MODE_CELL_ID".
Definition LEASE_ID_ENV : string := "OMNI_WATCH_MODE_PROVIDER_INPUT_LEASE_ID".
Definition AUTOSTART_ENV : string := "OMNI_WATCH_MODE_AUTOSTART".
Definition RUN_MARKER_ENV : string := "OMNI_WATCH_MODE_RUN_MARKER".
Definition PCM_PATH_ENV : string := "OMNI_WATCH_MODE_PROVIDER_INPUT_PCM_PATH".
Definition MODEL_ENV : string := "OMNI_WATCH_MODE_MODEL_ID".
Definition PROTOCOL_ENV : string := "OMNI_WATCH_MODE_REALTIME_PROTOCOL".
Definition MODEL_PROTOCOL_PROFILE_IDENTITY_ENV : string :=
  "OMNI_WATCH_MODE_MODEL_PROTOCOL_PROFILE_IDENTITY".
Definition STRICT_PAID_AUTHORITY_ENV : string := "OMNI_WATCH_MODE_STRICT_PAID_AUTHORITY".
Definition INCIDENT_REPLAY_AUTHORITY_ENV : string := "OMNI_WATCH_MODE_INCIDENT_REPLAY_AUTHORITY".
Definition LOCAL_SINGLE_SESSION_AUTHORITY_ENV : string :=
  "OMNI_WATCH_MODE_LOCAL_SINGLE_SESSION_AUTHORITY".
Definition INCIDENT_ID_ENV : string := "OMNI_WATCH_MODE_INCIDENT_ID".
Definition EXPECTED_PROVIDER_ID_ENV : string := "OMNI_WATCH_MODE_EXPECTED_PROVIDER_ID".
Definition EXPECTED_TEMPLATE_ID_ENV : string := "OMNI_WATCH_MODE_EXPECTED_PROVIDER_TEMPLATE_ID".
Definition EXPECTED_PROVIDER_KIND_ENV : string := "OMNI_WATCH_MODE_EXPECTED_PROVIDER_KIND".
Definition EXPECTED_ENDPOINT_HOST_ENV : string := "OMNI_WATCH_MODE_EXPECTED_PROVIDER_ENDPOINT_HOST".
Definition EXPECTED_CREDENTIAL_REFERENCE_ENV : string :=
  "OMNI_WATCH_MODE_EXPECTED_PROVIDER_CREDENTIAL_REFERENCE".
Definition STRICT_PROVIDER_ID : string := "provider-dashscope".
Definition STRICT_TEMPLATE_ID : string := "template-dashscope-realtime".
Definition STRICT_PROVIDER_KIND : string := "dashscope".
Definition STRICT_ENDPOINT_HOST : string := "dashscope.aliyuncs.com".
Definition STRICT_CREDENTIAL_REFERENCE : string := "credential://provider/dashscope/default".
Definition STRICT_OMNI_MODEL : string := "qwen3.5-omni-flash-realtime".
Definition STRICT_OMNI_PROTOCOL : string := "dashscope-omni".
Definition STRICT_LIVETRANSLATE_MODEL : string := "qwen3.5-livetranslate-flash-realtime".
Definition STRICT_LIVETRANSLATE_MODEL_V2 : string := "qwen3.8-livetranslate-flash-realtime".
Definition STRICT_LIVETRANSLATE_PROTOCOL : string := "dashscope-livetranslate".
Definition INCIDENT_PLUS_MODEL : string := "qwen3.5-omni-plus-realtime".
Definition INCIDENT_PLUS_PROTOCOL : string := "dashscope-omni".
Definition INCIDENT_PLUS_ID : string := "watch-mode-loss-incident-plus-v1".
Definition AUTHORITATIVE_REFERENCE_FRAMES_ENV : string :=
  "OMNI_WATCH_MODE_AUTHORITATIVE_TRANSFORMED_REFERENCE_FRAMES".
Definition INPUT_SAMPLE_RATE_HZ_ENV : string := "OMNI_WATCH_MODE_INPUT_SAMPLE_RATE_HZ".
Definition AUTHORITY_RUN_MARKER_ENV : string := "OMNI_WATCH_MODE_MEDIA_AUTHORITY_RUN_MARKER".
Definition AUTHORITY_CELL_ID_ENV : string := "OMNI_WATCH_MODE_MEDIA_AUTHORITY_CELL_ID".
Definition AUTHORITY_LEASE_ID_ENV : string := "OMNI_WATCH_MODE_MEDIA_AUTHORITY_LEASE_ID".
Definition MEDIA_SHA256_ENV : string := "OMNI_WATCH_MODE_MEDIA_SHA256".
Definition PROVIDER_INPUT_SAMPLE_RATE_HZ : Z := 16000.

(** String equality as the code's [==] and [matches!]. *)
Definition eqs (a b : string) : bool := bool_decide (a = b).
Definition among (a : string) (l : list string) : bool := existsb (eqs a) l.
Abbreviation Env := (string → option string).
Definition fail_o {A} (msg : string) : outcome A := Err (Fail msg).
Definition reject {A} (b : bool) (msg : string) (k : outcome A) : outcome A :=
  if b then fail_o msg else k.

(** ** The lease of a formal release cell *)
Definition strict_release_cell_max_samples (cell_id : string)
    (completion_policy : option string) : outcome Z :=
  match split_colons cell_id with
  | [tier; model; feedback_mode; device_class] =>
      if negb (among model [STRICT_LIVETRANSLATE_MODEL; STRICT_LIVETRANSLATE_MODEL_V2])
         || negb (eqs device_class "default-speaker")
      then fail_o ("strict paid Provider input cellId is outside the formal LiveTranslate release authority: "
                   +:+ cell_id)
      else if bool_decide (completion_policy = Some AEC_COMPLETION_POLICY) then
        if eqs tier "pairwise-live" && eqs feedback_mode "echo-cancel"
           && eqs model STRICT_LIVETRANSLATE_MODEL_V2
        then Ok STRICT_AEC_OPEN_INPUT_MAX_SAMPLES
        else fail_o "strict AEC completion policy authorizes only the exact 3.8 echo-cancel cell"
      else if match completion_policy with
              | Some policy => negb (eqs policy "media-input-complete-v1") | None => false end
      then fail_o "unsupported strict Provider input completion policy"
      else if eqs feedback_mode "echo-cancel" && eqs model STRICT_LIVETRANSLATE_MODEL_V2
      then fail_o "strict 3.8 AEC requires aec-output-quiescent-v2"
      else if eqs tier "pairwise-live" && among feedback_mode ["virtual-driver"; "echo-cancel"]
      then Ok STRICT_ORDINARY_CELL_MAX_SAMPLES
      else if among tier ["pairwise-live"; "model-stability"] && eqs feedback_mode "process-exclusion"
      then Ok STRICT_PROCESS_CELL_MAX_SAMPLES
      else fail_o ("strict paid Provider input cellId is not an approved formal release cell: "
                   +:+ cell_id)
  | _ => fail_o ("strict paid Provider input cellId is not a formal four-part release cell: "
                 +:+ cell_id)
  end.

(** ** The media-end authority *)
Record StrictMediaEndAuthority := mk_media_end {
  me_authoritative_reference_frames : Z; me_input_sample_rate_hz : Z; me_media_sha256 : string;
  me_run_marker : string; me_cell_id : string; me_lease_id : string;
  me_provider_input_max_samples : Z; me_session_generation : Z
}.
(** [byte.is_ascii_hexdigit() && !byte.is_ascii_uppercase()]. *)
Definition is_lower_hex (a : Ascii.ascii) : bool :=
  let x := byte_of a in ((48 <=? x) && (x <=? 57)) || ((97 <=? x) && (x <=? 102)).
Definition media_required (name : string) (value : option string) : outcome string :=
  required_entry ("strict media-end authority requires " +:+ name) value.
Definition media_end_from_environment (read_env : Env) (strict_paid_authority : bool)
    (run_marker cell_id lease_id : string) (provider_input_max_samples session_generation : Z)
    : outcome (option StrictMediaEndAuthority) :=
  if negb strict_paid_authority then Ok None
  else if bool_decide (read_env COMPLETION_POLICY_ENV = Some AEC_COMPLETION_POLICY) then
    if eqs cell_id "pairwise-live::qwen3.8-livetranslate-flash-realtime::echo-cancel::default-speaker"
       && (provider_input_max_samples =? STRICT_AEC_OPEN_INPUT_MAX_SAMPLES)
    then Ok None
    else fail_o "AEC media-end bypass requires the exact 3.8 c03 open-input lease"
  else if negb (is_Some_b (read_env AUTHORITATIVE_REFERENCE_FRAMES_ENV))
          || negb (is_Some_b (read_env INPUT_SAMPLE_RATE_HZ_ENV))
          || negb (is_Some_b (read_env MEDIA_SHA256_ENV))
  then Ok None
  else
    let? text := media_required AUTHORITATIVE_REFERENCE_FRAMES_ENV
                   (read_env AUTHORITATIVE_REFERENCE_FRAMES_ENV) in
    let? frames := map_err (parse_u64 text)
                     (AUTHORITATIVE_REFERENCE_FRAMES_ENV +:+ " must be a positive integer: ") in
    reject ((frames =? 0) || (provider_input_max_samples <? frames))
      (AUTHORITATIVE_REFERENCE_FRAMES_ENV +:+ " must be within 1..="
       +:+ show_uint provider_input_max_samples)
    (let? text := media_required INPUT_SAMPLE_RATE_HZ_ENV (read_env INPUT_SAMPLE_RATE_HZ_ENV) in
     let? rate := map_err (parse_u32 text)
                    (INPUT_SAMPLE_RATE_HZ_ENV +:+ " must be a positive integer: ") in
     reject (negb (rate =? PROVIDER_INPUT_SAMPLE_RATE_HZ))
       ("strict media-end authority requires " +:+ INPUT_SAMPLE_RATE_HZ_ENV +:+ "="
        +:+ show_uint PROVIDER_INPUT_SAMPLE_RATE_HZ +:+ "; got " +:+ show_uint rate)
     (let? sha := media_required MEDIA_SHA256_ENV (read_env MEDIA_SHA256_ENV) in
      let? marker := media_required AUTHORITY_RUN_MARKER_ENV (read_env AUTHORITY_RUN_MARKER_ENV) in
      let? cell := media_required AUTHORITY_CELL_ID_ENV (read_env AUTHORITY_CELL_ID_ENV) in
      let? lease := media_required AUTHORITY_LEASE_ID_ENV (read_env AUTHORITY_LEASE_ID_ENV) in
      reject (negb (eqs marker run_marker) || negb (eqs cell cell_id) || negb (eqs lease lease_id))
        "strict media-end authority identity does not match the validated run/cell/lease identity"
      (reject (negb (str_len sha =? 64) || negb (forallb is_lower_hex (bytes sha)))
        (MEDIA_SHA256_ENV +:+ " must be a lowercase 64-character sha256")
      (reject (is_blank run_marker || is_blank cell_id || is_blank lease_id
               || (session_generation =? 0))
        "strict media-end authority requires the validated run/cell/lease/session identity"
      (Ok (Some (mk_media_end frames rate sha run_marker cell_id lease_id
                   provider_input_max_samples session_generation))))))).
(** [numerator.div_ceil(denominator).min(u64::MAX)] in 128-bit arithmetic. *)
Definition u128_max : Z := 2 ^ 128 - 1.
Definition div_ceil (a b : Z) : Z := if 0 <? a mod b then a / b + 1 else a / b.
Definition media_end_ms (m : StrictMediaEndAuthority) : Z :=
  Z.min (div_ceil (Z.min (me_authoritative_reference_frames m * 1000) u128_max)
           (me_input_sample_rate_hz m)) u64_max.
Definition authenticates_post_reference_start (m : StrictMediaEndAuthority) (audio_start_ms : Z)
    : bool := media_end_ms m <=? audio_start_ms.

(** ** The provider draft *)
(** The fields of [ProviderDraftInput] the budget reads. *)
Record ProviderAuthRefInput := mk_auth {
  pa_kind : string; pa_reference : string; pa_header_name : string; pa_scheme : string
}.
Record ProviderDraftInput := mk_draft {
  pd_template_id : string; pd_provider_id : string; pd_kind : string; pd_model : string;
  pd_base_url : string; pd_transport : string; pd_auth_ref : ProviderAuthRefInput;
  pd_custom_headers : list (string * string)
}.
(** What the code asks of a parsed [url::Url]. *)
Record Url := mk_url {
  url_scheme : string; url_host_str : option string; url_username : string;
  url_password : option string; url_port : option Z
}.
Record ModelProtocolProfileIdentityRuntime := mk_identity {
  id_registry_version : string; id_profile_id : string; id_profile_version : Z;
  id_operation : string; id_transport : string; id_region : string; id_endpoint_family : string;
  id_endpoint_path : string; id_wire_dialect : string; id_wire_dialect_version : Z;
  id_input_framing : string; id_output_framing : string; id_terminal_lifecycle : string;
  id_adapter_id : string; id_exact_model_id : string
}.
#[export] Instance identity_eq_dec : EqDecision ModelProtocolProfileIdentityRuntime.
Proof. solve_decision. Defined.

(** ** The environment *)
Record BudgetEnvironment := mk_environment {
  be_max_samples : Z; be_ledger_path : string; be_cell_id : string; be_lease_id : string;
  be_run_marker : string; be_strict_paid_authority : bool; be_incident_replay_authority : bool;
  be_local_single_session_authority : bool;
  be_declared_model_protocol_profile_identity : option string
}.
Definition read_authority_flag (read_env : Env) (name : string) : outcome bool :=
  match read_env name with
  | None => Ok false
  | Some value => if eqs (trim value) "1" then Ok true
                  else fail_o (name +:+ " must be exactly 1 when present")
  end.
Definition budget_required (name : string) (value : option string) : outcome string :=
  required_entry ("strict provider input budget requires " +:+ name) value.
Definition read_budget_environment (read_env : Env) : outcome (option BudgetEnvironment) :=
  let max_samples := read_env MAX_SAMPLES_ENV in
  let ledger_path := read_env LEDGER_PATH_ENV in
  let lease_id := read_env LEASE_ID_ENV in
  let? strict := read_authority_flag read_env STRICT_PAID_AUTHORITY_ENV in
  let? incident := read_authority_flag read_env INCIDENT_REPLAY_AUTHORITY_ENV in
  let? local := read_authority_flag read_env LOCAL_SINGLE_SESSION_AUTHORITY_ENV in
  reject (1 <? Z.of_nat (count_if id [strict; incident; local]))
    "strict paid, incident replay, and local single-session provider authorities are mutually exclusive"
  (if negb strict && negb incident && negb local && negb (is_Some_b max_samples)
      && negb (is_Some_b ledger_path) && negb (is_Some_b lease_id)
   then Ok None
   else
     let? text := budget_required MAX_SAMPLES_ENV max_samples in
     let? max_samples := map_err (parse_u64 text)
                           (MAX_SAMPLES_ENV +:+ " must be a positive integer: ") in
     reject ((max_samples =? 0) || (MAX_PROVIDER_INPUT_AUTHORITY_SAMPLES <? max_samples))
       (MAX_SAMPLES_ENV +:+ " must be within 1..=" +:+ show_uint MAX_PROVIDER_INPUT_AUTHORITY_SAMPLES)
     (let? ledger_path := budget_required LEDGER_PATH_ENV ledger_path in
      let? cell_id := budget_required CELL_ID_ENV (read_env CELL_ID_ENV) in
      let? checked :=
        if strict then
          let? expected := strict_release_cell_max_samples cell_id (read_env COMPLETION_POLICY_ENV) in
          reject (negb (max_samples =? expected))
            ("strict paid Provider input cell " +:+ cell_id +:+ " requires exactly "
             +:+ show_uint expected +:+ " samples; got " +:+ show_uint max_samples) (Ok tt)
        else Ok tt in
      let? lease_id := budget_required LEASE_ID_ENV lease_id in
      let? run_marker := budget_required RUN_MARKER_ENV (read_env RUN_MARKER_ENV) in
      let? autostart := budget_required AUTOSTART_ENV (read_env AUTOSTART_ENV) in
      reject (negb (among autostart ["1"; "true"; "TRUE"; "yes"; "YES"]))
        ("strict provider input budget requires " +:+ AUTOSTART_ENV +:+ "=1")
      (Ok (Some (mk_environment max_samples ledger_path cell_id lease_id run_marker strict incident
                   local (read_env MODEL_PROTOCOL_PROFILE_IDENTITY_ENV)))))).

(** ** Construction checks *)
Section Checks.
(** What the model registry answers for the draft: the authorized profile's
    identity, or the registry's error; and whether the formal authorizer accepts it. *)
Context (resolve_realtime_profile : ProviderDraftInput →
           option ModelProtocolProfileIdentityRuntime * option string).
Context (authorize_bailian_native_translate : ProviderDraftInput → outcome unit).
Context (parse_identity : string → outcome ModelProtocolProfileIdentityRuntime).
Context (parse_url : string → option Url).

Definition resolve_model_protocol_identity (provider : ProviderDraftInput)
    (model protocol : string) (strict_paid_authority : bool) (declared_identity : option string)
    : outcome ModelProtocolProfileIdentityRuntime :=
  let (authority, error) := resolve_realtime_profile provider in
  let? identity := ok_or authority
    (default "model_protocol.authorization_identity_mismatch: enabled Provider input budget has no authorized model protocol profile" error) in
  reject (negb (eqs (id_exact_model_id identity) model))
    ("model_protocol.authorization_identity_mismatch: Provider input budget model '" +:+ model
     +:+ "' does not match authorized exactModelId '" +:+ id_exact_model_id identity +:+ "'")
  (reject (negb (eqs STRICT_LIVETRANSLATE_PROTOCOL protocol))
    ("model_protocol.authorization_identity_mismatch: Provider input budget protocol '"
     +:+ protocol +:+ "' does not match enabled LiveTranslate adapter")
  (if strict_paid_authority || is_Some_b declared_identity then
     let? text := budget_required MODEL_PROTOCOL_PROFILE_IDENTITY_ENV declared_identity in
     let? declared := map_err (parse_identity text)
       ("model_protocol.authorization_identity_mismatch: " +:+ MODEL_PROTOCOL_PROFILE_IDENTITY_ENV
        +:+ " must be the exact 15-field identity: ") in
     reject (negb (bool_decide (declared = identity)))
       "model_protocol.authorization_identity_mismatch: signed Watch identity does not match the Desktop-authorized Provider send boundary"
       (Ok identity)
   else Ok identity)).

(** The endpoint part of both canonical checks. *)
Definition canonical_endpoint (endpoint : Url) : bool :=
  among (url_scheme endpoint) ["https"; "wss"] && eqs (url_username endpoint) ""
  && negb (is_Some_b (url_password endpoint)) && negb (is_Some_b (url_port endpoint)).
Definition validate_local_single_session (provider : ProviderDraftInput) (endpoint : Url)
    (session_generation max_samples : Z) (model protocol : string) (read_env : Env)
    : outcome unit :=
  reject (session_generation =? 0)
    "local single-session provider authority requires a non-zero session generation"
  (let? pcm := budget_required PCM_PATH_ENV (read_env PCM_PATH_ENV) in
   let? expected_model := budget_required MODEL_ENV (read_env MODEL_ENV) in
   let? expected_protocol := budget_required PROTOCOL_ENV (read_env PROTOCOL_ENV) in
   let local_v2 := eqs expected_model STRICT_LIVETRANSLATE_MODEL_V2
                   && eqs expected_protocol STRICT_LIVETRANSLATE_PROTOCOL in
   let? authorized :=
     if local_v2 then
       reject (192000 <? max_samples) "local 3.8 software-path authority is capped at 192000 samples"
         (authorize_bailian_native_translate provider)
     else Ok tt in
   reject (negb local_v2
           && negb ((eqs expected_model STRICT_OMNI_MODEL && eqs expected_protocol STRICT_OMNI_PROTOCOL)
                    || (eqs expected_model STRICT_LIVETRANSLATE_MODEL
                        && eqs expected_protocol STRICT_LIVETRANSLATE_PROTOCOL)
                    || (eqs expected_model INCIDENT_PLUS_MODEL
                        && eqs expected_protocol INCIDENT_PLUS_PROTOCOL)))
     ("local single-session provider authority rejected model/protocol pair " +:+ expected_model
      +:+ "/" +:+ expected_protocol)
   (reject (negb (eqs model expected_model) || negb (eqs protocol expected_protocol))
     ("local single-session provider authority runtime pair mismatch: expected=" +:+ expected_model
      +:+ "/" +:+ expected_protocol +:+ " actual=" +:+ model +:+ "/" +:+ protocol)
   (let endpoint_host := to_ascii_lowercase (default "" (url_host_str endpoint)) in
    let auth := pd_auth_ref provider in
    reject (negb (eqs (trim (pd_provider_id provider)) STRICT_PROVIDER_ID)
            || negb (eqs (trim (pd_template_id provider)) STRICT_TEMPLATE_ID)
            || negb (eqs (trim (pd_kind provider)) STRICT_PROVIDER_KIND)
            || (negb local_v2 && negb (eqs endpoint_host STRICT_ENDPOINT_HOST))
            || negb (eqs (pa_kind auth) "credential-ref")
            || negb (eqs (trim (pa_reference auth)) STRICT_CREDENTIAL_REFERENCE)
            || negb (eqs (trim (pa_header_name auth)) "Authorization")
            || negb (eqs (trim (pa_scheme auth)) "bearer")
            || negb (bool_decide (pd_custom_headers provider = []))
            || negb (eqs (pd_transport provider) "websocket")
            || negb (canonical_endpoint endpoint))
      "local single-session provider authority requires the canonical DashScope TLS websocket provider and credential reference"
      (Ok tt)))).

(** The table the strict branch walks: label, actual, expected, fixed. *)
Fixpoint check_expectations (rows : list (string * string * string * string)) : outcome unit :=
  match rows with
  | [] => Ok tt
  | (label, actual, expected, fixed) :: rows =>
      reject (negb (eqs expected fixed))
        ("strict paid provider authority " +:+ label +:+ " expectation must be " +:+ fixed
         +:+ "; got " +:+ expected)
      (reject (negb (eqs actual expected))
        ("strict paid provider authority " +:+ label +:+ " mismatch: expected=" +:+ expected
         +:+ " actual=" +:+ actual)
      (check_expectations rows))
  end.
(** [cell_id.split("::").nth(1)]. *)
Definition cell_model (cell_id : string) : option string := split_colons cell_id !! 1%nat.
Definition validate_strict (provider : ProviderDraftInput) (endpoint : Url)
    (endpoint_host : string) (session_generation : Z) (model protocol : string)
    (strict_paid_authority : bool) (cell_id : string) (read_env : Env) : outcome unit :=
  reject (session_generation =? 0)
    "strict paid provider authority requires a non-zero session generation"
  (let? pcm := budget_required PCM_PATH_ENV (read_env PCM_PATH_ENV) in
   let? expected_model := budget_required MODEL_ENV (read_env MODEL_ENV) in
   let? expected_protocol := budget_required PROTOCOL_ENV (read_env PROTOCOL_ENV) in
   let? expected_provider_id :=
     budget_required EXPECTED_PROVIDER_ID_ENV (read_env EXPECTED_PROVIDER_ID_ENV) in
   let? expected_template_id :=
     budget_required EXPECTED_TEMPLATE_ID_ENV (read_env EXPECTED_TEMPLATE_ID_ENV) in
   let? expected_provider_kind :=
     budget_required EXPECTED_PROVIDER_KIND_ENV (read_env EXPECTED_PROVIDER_KIND_ENV) in
   let? host := budget_required EXPECTED_ENDPOINT_HOST_ENV (read_env EXPECTED_ENDPOINT_HOST_ENV) in
   let expected_endpoint_host := to_ascii_lowercase host in
   let? expected_credential_reference :=
     budget_required EXPECTED_CREDENTIAL_REFERENCE_ENV (read_env EXPECTED_CREDENTIAL_REFERENCE_ENV) in
   let approved_pair :=
     if strict_paid_authority
     then among expected_model [STRICT_LIVETRANSLATE_MODEL; STRICT_LIVETRANSLATE_MODEL_V2]
          && eqs expected_protocol STRICT_LIVETRANSLATE_PROTOCOL
     else eqs expected_model INCIDENT_PLUS_MODEL && eqs expected_protocol INCIDENT_PLUS_PROTOCOL in
   reject (negb approved_pair)
     ("provider authority rejected model/protocol pair " +:+ expected_model +:+ "/"
      +:+ expected_protocol)
   (reject (strict_paid_authority && negb (bool_decide (cell_model cell_id = Some model)))
     "strict paid provider model does not match the authorized cell/lease"
   (let auth := pd_auth_ref provider in
    let credential_reference := trim (pa_reference auth) in
    let fixed_endpoint_host :=
      if strict_paid_authority && eqs model STRICT_LIVETRANSLATE_MODEL_V2
      then expected_endpoint_host else STRICT_ENDPOINT_HOST in
    let? rows := check_expectations
      [("providerId", trim (pd_provider_id provider), expected_provider_id, STRICT_PROVIDER_ID);
       ("templateId", trim (pd_template_id provider), expected_template_id, STRICT_TEMPLATE_ID);
       ("providerKind", trim (pd_kind provider), expected_provider_kind, STRICT_PROVIDER_KIND);
       ("endpointHost", endpoint_host, expected_endpoint_host, fixed_endpoint_host);
       ("credentialReference", credential_reference, expected_credential_reference,
        STRICT_CREDENTIAL_REFERENCE)] in
    reject (negb (eqs model expected_model))
      ("strict paid provider authority model mismatch: expected=" +:+ expected_model
       +:+ " actual=" +:+ model)
    (reject (negb (eqs protocol expected_protocol))
      ("strict paid provider authority protocol mismatch: expected=" +:+ expected_protocol
       +:+ " actual=" +:+ protocol)
    (reject (negb (eqs (pa_kind auth) "credential-ref")
             || negb (String.prefix "credential://" credential_reference)
             || negb (eqs (pa_header_name auth) "Authorization")
             || negb (eqs (pa_scheme auth) "bearer")
             || negb (bool_decide (pd_custom_headers provider = []))
             || negb (eqs (pd_transport provider) "websocket")
             || negb (canonical_endpoint endpoint))
      "strict paid provider authority requires a canonical TLS websocket endpoint, credential-ref bearer authentication, and no custom headers"
    (Ok tt)))))).

(** ** The budget *)
Record BudgetIdentity := mk_budget_identity {
  bi_cell_id : string; bi_lease_id : string; bi_run_marker : string; bi_session_generation : Z;
  bi_strict_paid_authority : bool; bi_incident_replay_authority : bool;
  bi_local_single_session_authority : bool; bi_incident_id : option string;
  bi_provider_id : string; bi_template_id : string; bi_provider_kind : string;
  bi_endpoint_host : string; bi_credential_reference : string; bi_auth_header_name : string;
  bi_auth_scheme : string; bi_custom_header_count : Z; bi_model : string; bi_protocol : string;
  bi_model_protocol_profile_identity : ModelProtocolProfileIdentityRuntime
}.
(** The checks [from_environment] makes before it creates a file: the lease's
    environment, the identity it will record and the media-end authority. *)
Definition validate_budget (provider : ProviderDraftInput) (direction : string)
    (session_generation : Z) (model protocol : string) (read_env : Env)
    : outcome (option (BudgetEnvironment * BudgetIdentity * option StrictMediaEndAuthority)) :=
  let? environment := read_budget_environment read_env in
  match environment with
  | None => Ok None
  | Some env =>
      reject (negb (eqs direction "inbound"))
        "strict provider input budget permits only the inbound Watch route"
      (let model := trim model in
       reject (is_blank model) "strict provider input budget requires an actual provider model"
      (let protocol := trim protocol in
       reject (is_blank protocol) "strict provider input budget requires an actual realtime protocol"
      (let? endpoint := ok_or (parse_url (trim (pd_base_url provider)))
         "strict provider input budget requires a valid provider baseUrl" in
       let? endpoint_host := ok_or (to_ascii_lowercase <$> url_host_str endpoint)
         "strict provider input budget requires a provider baseUrl with a hostname" in
       let? identity := resolve_model_protocol_identity provider model protocol
         (be_strict_paid_authority env) (be_declared_model_protocol_profile_identity env) in
       let? incident_id :=
         if be_incident_replay_authority env then
           let? incident_id := budget_required INCIDENT_ID_ENV (read_env INCIDENT_ID_ENV) in
           reject (negb (eqs incident_id INCIDENT_PLUS_ID))
             ("incident replay provider authority requires " +:+ INCIDENT_ID_ENV +:+ "="
              +:+ INCIDENT_PLUS_ID) (Ok (Some incident_id))
         else Ok None in
       let? local :=
         if be_local_single_session_authority env
         then validate_local_single_session provider endpoint session_generation
                (be_max_samples env) model protocol read_env
         else Ok tt in
       let? strict :=
         if be_strict_paid_authority env || be_incident_replay_authority env
         then validate_strict provider endpoint endpoint_host session_generation model protocol
                (be_strict_paid_authority env) (be_cell_id env) read_env
         else Ok tt in
       let? media_end := media_end_from_environment read_env (be_strict_paid_authority env)
         (be_run_marker env) (be_cell_id env) (be_lease_id env) (be_max_samples env)
         session_generation in
       let auth := pd_auth_ref provider in
       Ok (Some (env, mk_budget_identity (be_cell_id env) (be_lease_id env) (be_run_marker env)
         session_generation (be_strict_paid_authority env) (be_incident_replay_authority env)
         (be_local_single_session_authority env) incident_id (trim (pd_provider_id provider))
         (trim (pd_template_id provider)) (trim (pd_kind provider)) endpoint_host
         (trim (pa_reference auth)) (trim (pa_header_name auth)) (trim (pa_scheme auth))
         (Z.of_nat (length (pd_custom_headers provider))) model protocol identity, media_end)))))
  end.
End Checks.

(** One journal line; the snapshot ledger holds the same numbers. *)
Record BudgetRecord := mk_budget_record {
  br_event : option string; br_sequence : Z; br_occurred_at_ms : Z; br_identity : BudgetIdentity;
  br_attempted_samples : option Z; br_total_attempted_samples : Z; br_max_samples : Z;
  br_append_attempts : Z; br_send_failures : Z; br_initial_connect_attempts : Z;
  br_reconnects : Z; br_budget_exceeded : bool; br_finalized : bool;
  br_terminal_reason : option string
}.
Record EnabledProviderInputBudget := mk_budget {
  bd_identity : BudgetIdentity; bd_strict_media_end_authority : option StrictMediaEndAuthority;
  bd_max_samples : Z; bd_total_attempted_samples : Z; bd_append_attempts : Z;
  bd_send_failures : Z; bd_initial_connect_attempts : Z; bd_reconnect_count : Z;
  bd_budget_exceeded : bool; bd_finalized : bool; bd_terminal_reason : option string;
  bd_next_sequence : Z; bd_last_occurred_at_ms : Z
}.
#[export] Instance budget_settable : Settable EnabledProviderInputBudget := λ b,
  mk_budget (bd_identity b) (bd_strict_media_end_authority b) (bd_max_samples b)
    (bd_total_attempted_samples b) (bd_append_attempts b) (bd_send_failures b)
    (bd_initial_connect_attempts b) (bd_reconnect_count b) (bd_budget_exceeded b)
    (bd_finalized b) (bd_terminal_reason b) (bd_next_sequence b) (bd_last_occurred_at_ms b).
(** The outside world: the oracles' positions, the files that exist, the
    journal's lines, the snapshot and, per [send] closure that ran, its samples. *)
Record BudgetWorld := mk_budget_world {
  bw_io : nat; bw_time : nat; bw_files : gset string; bw_journal : list BudgetRecord;
  bw_final_ledger : option BudgetRecord; bw_sent : list Z
}.
#[export] Instance budget_world_settable : Settable BudgetWorld := λ w,
  mk_budget_world (bw_io w) (bw_time w) (bw_files w) (bw_journal w) (bw_final_ledger w) (bw_sent w).
Record ProviderInputBudget := mk_provider_budget {
  pb_enabled : option EnabledProviderInputBudget; pb_world : BudgetWorld
}.
#[export] Instance provider_budget_settable : Settable ProviderInputBudget := λ p,
  mk_provider_budget (pb_enabled p) (pb_world p).

(** ** The operations *)
Section Budget.
Context (io_error : nat → option string) (clock : nat → Z) (already_exists : string).
Abbreviation B := (M ProviderInputBudget).

Definition update_world (f : BudgetWorld → BudgetWorld) : B unit :=
  modify (λ p, p <| pb_world ::= f |>).
Definition update_budget (f : EnabledProviderInputBudget → EnabledProviderInputBudget) : B unit :=
  modify (λ p, p <| pb_enabled ::= λ e, f <$> e |>).
Definition budget_io (context : string) : B unit :=
  let* k := gets (λ p, bw_io (pb_world p)) in
  update_world (λ w, w <| bw_io := S k |>) ;;;
  match io_error k with Some e => fail (context +:+ e) | None => ret tt end.
Definition now_unix_ms : B Z :=
  let* k := gets (λ p, bw_time (pb_world p)) in
  update_world (λ w, w <| bw_time := S k |>) ;;;
  ret (clock k).
(** [let Some(budget) = self.enabled.as_ref() else { return Ok(()) }]. *)
Definition with_budget (k : EnabledProviderInputBudget → B unit) : B unit :=
  let* e := gets pb_enabled in
  match e with None => ret tt | Some b => k b end.

Definition budget_record (b : EnabledProviderInputBudget) (event : option string)
    (sequence occurred_at_ms : Z) (attempted_samples : option Z) (finalized : bool)
    : BudgetRecord :=
  mk_budget_record event sequence occurred_at_ms (bd_identity b) attempted_samples
    (bd_total_attempted_samples b) (bd_max_samples b) (bd_append_attempts b) (bd_send_failures b)
    (bd_initial_connect_attempts b) (bd_reconnect_count b) (bd_budget_exceeded b) finalized
    (bd_terminal_reason b).
Definition write_final_snapshot (finalized : bool) : B unit :=
  with_budget (λ b,
    budget_io "strict provider input budget ledger reset failed: " ;;;
    budget_io "strict provider input budget ledger reset failed: " ;;;
    update_world (λ w, w <| bw_final_ledger := None |>) ;;;
    budget_io "strict provider input budget ledger serialize failed: " ;;;
    update_world (λ w, w <| bw_final_ledger := Some (budget_record b None 0 0 None finalized) |>) ;;;
    budget_io "strict provider input budget ledger write failed: " ;;;
    budget_io "strict provider input budget ledger write failed: ").
Definition write_event_at (event : string) (attempted_samples : option Z) (finalized : bool)
    (observed_wall_clock_ms : Z) : B unit :=
  with_budget (λ b,
    let sequence := bd_next_sequence b in
    update_budget (λ b, b <| bd_next_sequence ::= λ n, saturating_add n 1 |>) ;;;
    let occurred_at_ms := Z.max observed_wall_clock_ms (bd_last_occurred_at_ms b) in
    budget_io "strict provider input budget journal serialize failed: " ;;;
    update_world (λ w, w <| bw_journal ::= λ j, j ++
      [budget_record b (Some event) sequence occurred_at_ms attempted_samples finalized] |>) ;;;
    budget_io "strict provider input budget journal write failed: " ;;;
    budget_io "strict provider input budget journal write failed: " ;;;
    update_budget (λ b, b <| bd_last_occurred_at_ms := occurred_at_ms |>) ;;;
    write_final_snapshot finalized).
Definition write_event (event : string) (attempted_samples : option Z) (finalized : bool) : B unit :=
  let* now := now_unix_ms in write_event_at event attempted_samples finalized now.

Definition set_terminal_reason (reason : string) : B unit :=
  update_budget (λ b, match bd_terminal_reason b with
                      | None => b <| bd_terminal_reason := Some reason |>
                      | Some _ => b end).
Definition is_strict (b : EnabledProviderInputBudget) : bool :=
  bi_strict_paid_authority (bd_identity b) || bi_incident_replay_authority (bd_identity b)
  || bi_local_single_session_authority (bd_identity b).

Definition record_initial_connect_attempt : B unit :=
  with_budget (λ b,
    if is_strict b && (1 <=? bd_initial_connect_attempts b) then
      set_terminal_reason "initial-connect-retry-forbidden" ;;;
      write_final_snapshot false ;;;
      fail "strict paid provider authority forbids a second initial WebSocket attempt"
    else
      update_budget (λ b, b <| bd_initial_connect_attempts ::= λ n, wrapping_add n 1 |>) ;;;
      write_event "initial_connect_attempt" None false).

(** Whether one more append of [sample_count] fits: the closure of [fetch_update]. *)
Definition next_total (b : EnabledProviderInputBudget) (sample_count : Z) : option Z :=
  match checked_add (bd_total_attempted_samples b) sample_count with
  | Some next => if next <=? bd_max_samples b then Some next else None
  | None => None
  end.
Definition can_append (sample_count : Z) (p : ProviderInputBudget) : bool :=
  match pb_enabled p with
  | None => true
  | Some b => is_Some_b (next_total b sample_count)
  end.
Definition max_samples (p : ProviderInputBudget) : option Z := bd_max_samples <$> pb_enabled p.
Definition strict_media_end_authority (session_generation : Z) (p : ProviderInputBudget)
    : option StrictMediaEndAuthority :=
  match pb_enabled p with
  | None => None
  | Some b => match bd_strict_media_end_authority b with
              | Some a => if me_session_generation a =? session_generation then Some a else None
              | None => None
              end
  end.
Definition strict_paid_authority_enabled (p : ProviderInputBudget) : bool :=
  match pb_enabled p with Some b => is_strict b | None => false end.

Definition reserve_body (sample_count : Z) (b : EnabledProviderInputBudget) : B unit :=
  match next_total b sample_count with
  | None =>
      update_budget (λ b, b <| bd_budget_exceeded := true |>) ;;;
      set_terminal_reason "budget-exceeded" ;;;
      write_event "reserve_rejected" (Some sample_count) false ;;;
      fail ("strict provider input budget exceeded before send: attemptedSamples="
            +:+ show_uint sample_count +:+ " totalAttemptedSamples="
            +:+ show_uint (bd_total_attempted_samples b) +:+ " maxSamples="
            +:+ show_uint (bd_max_samples b))
  | Some next =>
      update_budget (λ b, b <| bd_total_attempted_samples := next |>
                            <| bd_append_attempts ::= λ n, wrapping_add n 1 |>) ;;;
      write_event "reserved" (Some sample_count) false
  end.
Definition reserve (sample_count : Z) : B unit :=
  with_budget (λ b,
    fail_if (sample_count =? 0) "provider input budget cannot reserve an empty append" ;;;
    reserve_body sample_count b).
Definition record_send_failure (sample_count : Z) : B unit :=
  with_budget (λ b,
    update_budget (λ b, b <| bd_send_failures ::= λ n, wrapping_add n 1 |>) ;;;
    write_event "send_failed" (Some sample_count) false).
(** [before_send] and [send] are the outcomes of the caller's closures; the
    result is the socket's. *)
Definition attempt_send {T} (sample_count : Z) (before_send : outcome unit) (send : outcome T)
    : B (outcome T) :=
  reserve sample_count ;;;
  lift before_send ;;;
  update_world (λ w, w <| bw_sent ::= λ l, l ++ [sample_count] |>) ;;;
  when (negb (is_ok send)) (record_send_failure sample_count) ;;;
  ret send.
Definition record_reconnect : B unit :=
  with_budget (λ b,
    update_budget (λ b, b <| bd_reconnect_count ::= λ n, wrapping_add n 1 |>) ;;;
    write_event "reconnect" None false).
(** Runs [m], keeping its error as a value. *)
Definition attempt {A} (m : B A) : B (outcome A) := λ p, let (o, p') := m p in (Ok o, p').
Definition authorize_reconnect_before_connect (trigger : string) : B unit :=
  with_budget (λ b,
    if negb (is_strict b) then ret tt
    else
      let trigger := trim trigger in
      fail_if (negb (among trigger ["send-failure"; "socket-close"; "read-error"; "voice-fallback"]))
        ("strict paid provider authority received an unknown reconnect trigger: " +:+ trigger) ;;;
      set_terminal_reason ("reconnect-forbidden-" +:+ trigger) ;;;
      let* written := attempt (write_event "reconnect_rejected" None false) in
      match written with
      | Err (Fail error) =>
          fail ("strict paid provider authority forbids reconnect after " +:+ trigger
                +:+ "; failed to persist reconnect rejection: " +:+ error)
      | Err e => throw e
      | Ok _ =>
          fail ("strict paid provider authority forbids reconnect after " +:+ trigger
                +:+ " before connector network access")
      end).
Definition finalize (reason : string) : B unit :=
  with_budget (λ b,
    if bd_finalized b then ret tt
    else
      update_budget (λ b, b <| bd_finalized := true |>) ;;;
      set_terminal_reason reason ;;;
      write_event "finalized" None true).
Definition finalize_failure (reason error : string) : B string :=
  let* finalized := attempt (finalize reason) in
  match finalized with
  | Err (Fail finalize_error) =>
      ret (error +:+ " | provider input budget ledger finalization failed: " +:+ finalize_error)
  | Err e => throw e
  | Ok _ => ret error
  end.
(** [Drop]: the error is ignored. *)
Definition drop_budget : B unit := attempt (finalize "worker-drop") ;;; ret tt.

(** ** Construction *)
(** [OpenOptions::new().write(true).create_new(true).open(path)]. *)
Definition open_new (path context : string) : B unit :=
  budget_io context ;;;
  let* files := gets (λ p, bw_files (pb_world p)) in
  fail_if (bool_decide (path ∈ files)) (context +:+ already_exists) ;;;
  update_world (λ w, w <| bw_files ::= λ s, {[path]} ∪ s |>).
Definition new_budget (env : BudgetEnvironment) (identity : BudgetIdentity)
    (media_end : option StrictMediaEndAuthority) : EnabledProviderInputBudget :=
  mk_budget identity media_end (be_max_samples env) 0 0 0 0 0 false false None 1 0.
(** The result of [from_environment]: the budget it built, or its error. The
    [initialized] event's failure drops the budget, which finalizes it. *)
Definition from_environment
    (validated : outcome (option (BudgetEnvironment * BudgetIdentity * option StrictMediaEndAuthority)))
    : B unit :=
  let* v := lift validated in
  match v with
  | None => modify (λ p, p <| pb_enabled := None |>)
  | Some (env, identity, media_end) =>
      open_new (be_ledger_path env)
        "strict provider input budget ledger must be a new exclusive file: " ;;;
      open_new (be_ledger_path env +:+ ".journal.jsonl")
        "strict provider input budget journal must be a new exclusive file: " ;;;
      modify (λ p, p <| pb_enabled := Some (new_budget env identity media_end) |>) ;;;
      let* written := attempt (write_event "initialized" None false) in
      match written with
      | Ok _ => ret tt
      | Err e => drop_budget ;;; modify (λ p, p <| pb_enabled := None |>) ;;; throw e
      end
  end.

(** ** Runs *)
Inductive budget_op :=
| BConnect
| BSend (sample_count : Z) (before_send : outcome unit) (send : outcome unit)
| BReconnect
| BAuthorizeReconnect (trigger : string)
| BFinalize (reason : string)
| BDrop.
Definition exec_budget (o : budget_op) : M ProviderInputBudget unit :=
  match o with
  | BConnect => record_initial_connect_attempt
  | BSend n before send => attempt_send n before send ;;; ret tt
  | BReconnect => record_reconnect
  | BAuthorizeReconnect t => authorize_reconnect_before_connect t
  | BFinalize r => finalize r
  | BDrop => drop_budget
  end.
Definition budget_step (p : ProviderInputBudget) (o : budget_op) (p' : ProviderInputBudget) : Prop :=
  match o with BSend n _ _ => is_u64 n | _ => True end ∧ (exec_budget o p).2 = p'.
(** What [from_environment] leaves over a world with no journal yet. *)
Definition budget_fresh (p : ProviderInputBudget) : Prop :=
  ∃ resolve authorize parse_identity parse_url provider direction generation model protocol env p0,
    pb_enabled p0 = None ∧ bw_journal (pb_world p0) = [] ∧ bw_sent (pb_world p0) = []
    ∧ (from_environment (validate_budget resolve authorize parse_identity parse_url provider
         direction generation model protocol env) p0).2 = p.
Definition budget_reachable : ProviderInputBudget → Prop := reachable budget_fresh budget_step.
End Budget.
