(* ===== verification/ProviderInputBudgetTheorems.v ===== *)
(** * What the provider input budget guarantees

    The lease is never exceeded and is charged before the socket is touched;
    the journal is numbered and closed once; a strict run connects once; a
    validated environment carries exactly the signed cell's lease. *)
From S2P Require Import Prelude RustStr ProviderInputBudget.

#[local] Arguments String.append : simpl never.

(** ** Sums *)
Definition sum_z (l : list Z) : Z := foldr Z.add 0 l.
Lemma sum_z_snoc l x : sum_z (l ++ [x]) = sum_z l + x.
Proof. induction l as [|y l IH]; simpl in *; [lia|]. unfold sum_z in *. simpl. lia. Qed.

(** ** Validated environments *)
Lemma obind_Ok {A B} (o : outcome A) (k : A → outcome B) b :
  obind o k = Ok b → ∃ a, o = Ok a ∧ k a = Ok b.
Proof. destruct o; [by exists a|done]. Qed.
Lemma reject_Ok {A} c msg (k : outcome A) a : reject c msg k = Ok a → c = false ∧ k = Ok a.
Proof. by destruct c. Qed.
Lemma map_err_Ok {A} (o : outcome A) c a : map_err o c = Ok a → o = Ok a.
Proof. by destruct o as [|[|]]. Qed.
Lemma eqs_true a b : eqs a b = true → a = b.
Proof. apply bool_decide_eq_true. Qed.
Ltac checks H :=
  repeat match type of H with
  | obind _ _ = Ok _ => let a := fresh "a" in let E := fresh "E" in
      apply obind_Ok in H as (a & E & H)
  | reject _ _ _ = Ok _ => let E := fresh "G" in apply reject_Ok in H as [E H]
  end.

Lemma among_true a l : among a l = true → a ∈ l.
Proof.
  unfold among. induction l as [|b l IH]; [done|]. simpl. intros [E|E]%orb_true_iff.
  - apply eqs_true in E as ->. left.
  - right. by apply IH.
Qed.
(** The signed lease of a cell. *)
Definition lease_table (policy : option string) (feedback : string) : Z :=
  if decide (policy = Some AEC_COMPLETION_POLICY) then STRICT_AEC_OPEN_INPUT_MAX_SAMPLES
  else if decide (feedback = "process-exclusion") then STRICT_PROCESS_CELL_MAX_SAMPLES
  else STRICT_ORDINARY_CELL_MAX_SAMPLES.
Lemma release_cell_ok cell policy max :
  strict_release_cell_max_samples cell policy = Ok max →
  ∃ tier model feedback, split_colons cell = [tier; model; feedback; "default-speaker"]
    ∧ tier ∈ ["pairwise-live"; "model-stability"]
    ∧ feedback ∈ ["virtual-driver"; "echo-cancel"; "process-exclusion"]
    ∧ max = lease_table policy feedback.
Proof.
  unfold strict_release_cell_max_samples, lease_table.
  destruct (split_colons _) as [|tier [|m [|feedback [|device [|]]]]]; try done.
  destruct (_ || _) eqn:G; [done|]. bool_hyps.
  match goal with E : eqs device _ = true |- _ => apply eqs_true in E as -> end.
  intros Hmax. exists tier, m, feedback. split; [done|]. revert Hmax. destruct (decide (policy = _)) as [Hp|Hp].
  - rewrite bool_decide_true by done. destruct (_ && _ && _) eqn:C; [|done]. bool_hyps. intros [= <-].
    repeat match goal with E : eqs _ _ = true |- _ => apply eqs_true in E end. subst.
    split_and!; [set_solver|set_solver|done].
  - rewrite bool_decide_false by done. destruct (match policy with
                | Some p => negb (eqs p "media-input-complete-v1") | None => false end); [done|].
    destruct (eqs feedback _ && _); [done|].
    destruct (eqs tier _ && _) eqn:C.
    + bool_hyps. intros [= <-].
      match goal with E : eqs _ _ = true |- _ => apply eqs_true in E as -> end.
      match goal with E : among _ _ = true |- _ => apply among_true in E end.
      split_and!; [set_solver|set_solver|]. rewrite decide_False; [done|]. set_solver.
    + destruct (among tier _ && _) eqn:C'; [|done]. bool_hyps. intros [= <-].
      match goal with E : eqs _ _ = true |- _ => apply eqs_true in E as -> end.
      match goal with E : among _ _ = true |- _ => apply among_true in E end.
      split_and!; [set_solver|set_solver|]. by rewrite decide_True.
Qed.
(** The environment a lease is read from. *)
Definition lease_ok (read_env : Env) (env : BudgetEnvironment) : Prop :=
  1 ≤ be_max_samples env ≤ MAX_PROVIDER_INPUT_AUTHORITY_SAMPLES
  ∧ (count_if id [be_strict_paid_authority env; be_incident_replay_authority env;
                  be_local_single_session_authority env] ≤ 1)%nat
  ∧ (be_strict_paid_authority env = true →
     strict_release_cell_max_samples (be_cell_id env) (read_env COMPLETION_POLICY_ENV)
     = Ok (be_max_samples env)).
Lemma read_budget_environment_ok read_env env :
  read_budget_environment read_env = Ok (Some env) → lease_ok read_env env.
Proof.
  unfold read_budget_environment. cbv zeta. intros H. checks H.
  destruct (negb a && _ && _ && _ && _ && _); [done|]. checks H. injection H as <-.
  unfold lease_ok. cbn [be_max_samples be_strict_paid_authority be_incident_replay_authority
    be_local_single_session_authority be_cell_id]. bool_hyps.
  apply map_err_Ok in E3. apply parse_uint_range in E3; [|done].
  split_and!; [lia|lia|lia|]. intros ->. checks E6. bool_hyps. subst. done.
Qed.
Lemma media_end_ok read_env strict marker cell lease max generation m :
  media_end_from_environment read_env strict marker cell lease max generation = Ok (Some m) →
  strict = true
  ∧ 1 ≤ me_authoritative_reference_frames m ≤ max
  ∧ me_input_sample_rate_hz m = PROVIDER_INPUT_SAMPLE_RATE_HZ
  ∧ me_session_generation m = generation ∧ generation ≠ 0
  ∧ me_run_marker m = marker ∧ me_cell_id m = cell ∧ me_lease_id m = lease
  ∧ str_len (me_media_sha256 m) = 64.
Proof.
  unfold media_end_from_environment. destruct strict; [|done]. cbn [negb].
  destruct (bool_decide _).
  { destruct (eqs cell _ && _); done. }
  destruct (_ || _ || _); [done|]. intros H. checks H. injection H as <-. bool_hyps.
  apply map_err_Ok, parse_uint_range in E0; [|done].
  cbn [me_authoritative_reference_frames me_input_sample_rate_hz me_session_generation
       me_run_marker me_cell_id me_lease_id me_media_sha256].
  split_and!; try done; lia.
Qed.
Section Validate.
Context (resolve : ProviderDraftInput → option ModelProtocolProfileIdentityRuntime * option string).
Context (authorize : ProviderDraftInput → outcome unit).
Context (parse_identity : string → outcome ModelProtocolProfileIdentityRuntime).
Context (parse_url : string → option Url).
Abbreviation validate := (validate_budget resolve authorize parse_identity parse_url).
Lemma validate_budget_ok provider direction generation model protocol read_env env identity media_end :
  validate provider direction generation model protocol read_env
    = Ok (Some (env, identity, media_end)) →
  lease_ok read_env env
  ∧ direction = "inbound" ∧ bi_model identity = trim model
  ∧ (be_strict_paid_authority env = true → cell_model (be_cell_id env) = Some (trim model))
  ∧ (∀ m, media_end = Some m →
       media_end_from_environment read_env (be_strict_paid_authority env) (be_run_marker env)
         (be_cell_id env) (be_lease_id env) (be_max_samples env) generation = Ok (Some m)).
Proof.
  unfold validate_budget. intros H. apply obind_Ok in H as ([e|] & He & H); [|done].
  apply read_budget_environment_ok in He. checks H.
  injection H as -> <- <-. bool_hyps. cbn [bi_model].
  split_and!; try done.
  - by apply eqs_true.
  - intros Hs. rewrite Hs in *. cbn [orb] in *. unfold validate_strict in *.
    match goal with E : reject (generation =? 0) _ _ = Ok _ |- _ => checks E end.
    bool_hyps. match goal with E : true && negb _ = false |- _ => simpl in E end.
    bool_hyps. done.
  - by intros m ->.
Qed.
End Validate.
Section Theorems.
Context (io_error : nat → option string) (clock : nat → Z) (already_exists : string).
Abbreviation exec := (exec_budget io_error clock).
Abbreviation step := (budget_step io_error clock).

(** ** What writing an event does *)
Definition logged (fin : bool) (p p' : ProviderInputBudget) : Prop :=
  bw_sent (pb_world p') = bw_sent (pb_world p)
  ∧ match pb_enabled p, pb_enabled p' with
    | None, None => bw_journal (pb_world p') = bw_journal (pb_world p)
    | Some b, Some b' =>
        b' = b <| bd_next_sequence := saturating_add (bd_next_sequence b) 1 |>
               <| bd_last_occurred_at_ms := bd_last_occurred_at_ms b' |>
        ∧ (bw_journal (pb_world p') = bw_journal (pb_world p)
           ∨ ∃ r, bw_journal (pb_world p') = bw_journal (pb_world p) ++ [r]
                  ∧ br_sequence r = bd_next_sequence b ∧ br_finalized r = fin
                  ∧ br_total_attempted_samples r = bd_total_attempted_samples b
                  ∧ bd_last_occurred_at_ms b ≤ br_occurred_at_ms r)
    | _, _ => False
    end.
(** Steps that touch neither the budget, the journal nor the sends. *)
Definition unlogged (p p' : ProviderInputBudget) : Prop :=
  pb_enabled p' = pb_enabled p ∧ bw_journal (pb_world p') = bw_journal (pb_world p)
  ∧ bw_sent (pb_world p') = bw_sent (pb_world p).
#[export] Instance unlogged_preorder : PreOrder unlogged.
Proof.
  split; [by intros p; split_and!|]. intros x y z (?&?&?) (?&?&?). split_and!; congruence.
Qed.
Lemma world_unlogged f :
  (∀ w, bw_journal (f w) = bw_journal w ∧ bw_sent (f w) = bw_sent w) →
  evolves unlogged (update_world f).
Proof. intros Hf p. split; [done|]. apply Hf. Qed.
#[local] Hint Extern 1 (evolves unlogged (update_world _)) =>
  apply world_unlogged; intros ?; by split : evolve.
Lemma budget_io_unlogged c : evolves unlogged (budget_io io_error c).
Proof. unfold budget_io. evolve. Qed.
Lemma now_unlogged : evolves unlogged (now_unix_ms clock).
Proof. unfold now_unix_ms. evolve. Qed.
#[local] Hint Resolve budget_io_unlogged now_unlogged : evolve.
Lemma snapshot_unlogged fin : evolves unlogged (write_final_snapshot io_error fin).
Proof. unfold write_final_snapshot, with_budget. evolve. Qed.
Lemma quiet_then {A B} (m : M ProviderInputBudget A) (k : A → M ProviderInputBudget B)
    (G : ProviderInputBudget → Prop) p :
  evolves unlogged m → (∀ q, unlogged p q → G q) →
  (∀ a q, unlogged p q → G (k a q).2) → G (bind m k p).2.
Proof.
  intros Hm He Hk. specialize (Hm p). unfold bind. destruct (m p) as [[a|e] q]; simpl in *; auto.
Qed.
Lemma logged_unlogged fin p q q' : logged fin p q → unlogged q q' → logged fin p q'.
Proof. intros [Hs Hl] (He & Hj & Hs'). unfold logged. rewrite He, Hj, Hs'. by split. Qed.
Lemma unlogged_logged fin p q q' : unlogged p q → logged fin q q' → logged fin p q'.
Proof. intros (He & Hj & Hs) [Hs' Hl]. unfold logged. rewrite <-He, <-Hj, <-Hs. by split. Qed.

Lemma event_logged event attempted fin p :
  logged fin p (write_event io_error clock event attempted fin p).2.
Proof.
  unfold write_event. pose proof (now_unlogged p) as Hn. unfold bind.
  destruct (now_unix_ms clock p) as [[now|e] p1] eqn:En; [|by inversion En].
  eapply unlogged_logged; [exact Hn|]. clear Hn En. rename p1 into q. simpl.
  unfold write_event_at, with_budget. unfold bind at 1, gets.
  destruct q as [[b|] w]; [|by split]. cbn [pb_enabled].
  unfold update_budget at 1, modify, bind at 1. cbv zeta.
  match goal with |- logged _ ?p _ => set (p0 := p) end.
  match goal with |- context [bind (budget_io _ _) _ ?p] => set (p1 := p) end.
  assert (logged fin p0 p1) as L1 by (split; [done|]; split; [by destruct b|by left]).
  apply quiet_then; [apply budget_io_unlogged|intros q Hq; by eapply logged_unlogged|].
  intros [] q1 Hq1. unfold bind at 1, update_world, modify.
  match goal with |- context [bind (budget_io _ _) _ ?p] => set (p2 := p) end.
  assert (logged fin p0 p2) as L2.
  { destruct Hq1 as (He & Hj & Hs). split; [by simpl; rewrite Hs|]. simpl. rewrite He. simpl.
    split; [by destruct b|]. right. rewrite Hj. eexists. split; [done|]. simpl.
    split_and!; try done. lia. }
  apply quiet_then; [apply budget_io_unlogged|intros q Hq; by eapply logged_unlogged|].
  intros [] q2 Hq2.
  apply quiet_then; [apply budget_io_unlogged|intros q Hq; eapply logged_unlogged; [exact L2|];
    by etransitivity|].
  intros [] q3 Hq3. unfold bind at 1, update_budget, modify.
  eapply logged_unlogged; [|apply snapshot_unlogged].
  assert (logged fin p0 q3) as [Hs L3].
  { eapply logged_unlogged; [exact L2|]. by etransitivity. }
  split; [done|]. simpl in *. destruct (pb_enabled q3) as [b3|] eqn:E3; [|done].
  destruct L3 as [-> L3]. simpl. split; [done|]. done.
Qed.

(** ** The invariant *)
(** The journal's numbering, as long as the 64-bit counter has not saturated. *)
Definition numbered (journal : list BudgetRecord) (next : Z) : Prop :=
  (∀ r, r ∈ journal → 1 ≤ br_sequence r ∧ (br_sequence r < next ∨ next = u64_max))
  ∧ (∀ i j r s, (i < j)%nat → journal !! i = Some r → journal !! j = Some s →
       br_sequence r < br_sequence s ∨ br_sequence s = u64_max).
Lemma numbered_snoc journal next r :
  numbered journal next → 1 ≤ next ≤ u64_max → br_sequence r = next →
  numbered (journal ++ [r]) (saturating_add next 1).
Proof.
  intros [H1 H2] Hn Hr. split.
  - intros s. rewrite elem_of_app, list_elem_of_singleton. intros [[? Hs]%H1| ->]; saturating_lia.
  - intros i j s t Hij Hs Ht. apply lookup_app_Some in Ht as [Ht|[Hj Ht]].
    + apply (H2 i j s t); [done| |done]. apply lookup_app_Some in Hs as [?|[? _]]; [done|].
      apply lookup_lt_Some in Ht. lia.
    + destruct (j - length journal)%nat as [|m] eqn:E; simpl in Ht; [|by destruct m].
      injection Ht as <-. rewrite lookup_app_l in Hs by lia.
      apply list_elem_of_lookup_2 in Hs. apply H1 in Hs. lia.
Qed.
Lemma numbered_skip journal next :
  numbered journal next → 1 ≤ next ≤ u64_max → numbered journal (saturating_add next 1).
Proof. intros [H1 H2] Hn. split; [|done]. intros r Hr%H1. saturating_lia. Qed.

(** [slack] samples are charged and not yet handed to the socket. *)
Record enabled_ok (slack : Z) (w : BudgetWorld) (b : EnabledProviderInputBudget) : Prop := {
  eo_lease : 0 ≤ bd_max_samples b ≤ MAX_PROVIDER_INPUT_AUTHORITY_SAMPLES;
  eo_total : bd_total_attempted_samples b ≤ bd_max_samples b;
  eo_sent : sum_z (bw_sent w) + slack ≤ bd_total_attempted_samples b ∧ Forall (λ n, 0 < n) (bw_sent w);
  eo_journal : Forall (λ r, br_total_attempted_samples r ≤ bd_max_samples b) (bw_journal w);
  eo_next : 1 ≤ bd_next_sequence b ≤ u64_max;
  eo_numbered : numbered (bw_journal w) (bd_next_sequence b);
  eo_final : (count_if br_finalized (bw_journal w) ≤ if bd_finalized b then 1 else 0)%nat;
  eo_connects : 0 ≤ bd_initial_connect_attempts b
                ∧ (is_strict b = true → bd_initial_connect_attempts b ≤ 1)
}.
Definition budget_inv (slack : Z) (p : ProviderInputBudget) : Prop :=
  match pb_enabled p with Some b => enabled_ok slack (pb_world p) b | None => True end.

(** Updates that leave every field the invariant reads. *)
Lemma enabled_ok_fields slack w w' b b' :
  bd_max_samples b' = bd_max_samples b →
  bd_total_attempted_samples b' = bd_total_attempted_samples b →
  bd_next_sequence b' = bd_next_sequence b → bd_finalized b' = bd_finalized b →
  bd_initial_connect_attempts b' = bd_initial_connect_attempts b →
  bd_identity b' = bd_identity b → bw_sent w' = bw_sent w → bw_journal w' = bw_journal w →
  enabled_ok slack w b → enabled_ok slack w' b'.
Proof.
  intros E1 E2 E3 E4 E5 E6 E7 E8 [H1 H2 H3 H4 H5 H6 H7 H8].
  split; rewrite ?E1, ?E2, ?E3, ?E4, ?E5, ?E7, ?E8; try done. unfold is_strict in *.
  by rewrite E6.
Qed.
Lemma inv_update slack f :
  (∀ b, bd_max_samples (f b) = bd_max_samples b
     ∧ bd_total_attempted_samples (f b) = bd_total_attempted_samples b
     ∧ bd_next_sequence (f b) = bd_next_sequence b ∧ bd_finalized (f b) = bd_finalized b
     ∧ bd_initial_connect_attempts (f b) = bd_initial_connect_attempts b
     ∧ bd_identity (f b) = bd_identity b) →
  evolves (preserved (budget_inv slack)) (update_budget f).
Proof.
  intros Hf [[b|] w]; unfold budget_inv; [|done]. intros H. simpl in *.
  destruct (Hf b) as (?&?&?&?&?&?). by eapply enabled_ok_fields.
Qed.
Lemma unlogged_inv slack p p' : unlogged p p' → preserved (budget_inv slack) p p'.
Proof.
  intros (He & Hj & Hs). unfold preserved, budget_inv. rewrite He.
  destruct (pb_enabled p); [|done]. by apply enabled_ok_fields.
Qed.
Lemma logged_inv slack fin p p' :
  logged fin p p' →
  (fin = true → ∀ b, pb_enabled p = Some b →
     bd_finalized b = true ∧ count_if br_finalized (bw_journal (pb_world p)) = O) →
  preserved (budget_inv slack) p p'.
Proof.
  intros [Hs Hl] Hfin. unfold preserved, budget_inv.
  destruct (pb_enabled p) as [b|] eqn:Hb, (pb_enabled p') as [b'|]; try done.
  destruct Hl as [-> Hj]. intros [H1 H2 H3 H4 H5 H6 H7 H8]. split; simpl; rewrite ?Hs; try done.
  - destruct Hj as [->|(r & -> & _ & _ & Hr & _)]; [done|]. apply Forall_app. split; [done|].
    apply Forall_singleton. lia.
  - saturating_lia.
  - destruct Hj as [->|(r & -> & Hr & _)]; [by apply numbered_skip|by apply numbered_snoc].
  - destruct Hj as [->|(r & -> & _ & Hr & _)]; [done|].
    rewrite count_if_app, count_if_cons, Hr. unfold count_if at 2. simpl.
    destruct fin; [|lia]. destruct (Hfin eq_refl b eq_refl) as [-> ->]. lia.
Qed.
Lemma budget_event_inv slack event attempted :
  evolves (preserved (budget_inv slack)) (write_event io_error clock event attempted false).
Proof. intros p. by eapply logged_inv; [apply event_logged|]. Qed.
Lemma snapshot_inv slack fin : evolves (preserved (budget_inv slack)) (write_final_snapshot io_error fin).
Proof. intros p. apply unlogged_inv, snapshot_unlogged. Qed.
Lemma terminal_inv slack reason : evolves (preserved (budget_inv slack)) (set_terminal_reason reason).
Proof. apply inv_update. intros b. by destruct (bd_terminal_reason b). Qed.
#[local] Hint Resolve budget_event_inv snapshot_inv terminal_inv : evolve.
#[local] Hint Extern 1 (evolves (preserved (budget_inv _)) (update_budget _)) =>
  apply inv_update; intros ?; by split_and! : evolve.
Lemma evolves_attempt {A} (R : ProviderInputBudget → ProviderInputBudget → Prop) (m : M ProviderInputBudget A) :
  evolves R m → evolves R (attempt m).
Proof. intros H p. specialize (H p). unfold attempt. by destruct (m p). Qed.
#[local] Hint Resolve evolves_attempt : evolve.
Lemma reconnect_inv : evolves (preserved (budget_inv 0)) (record_reconnect io_error clock).
Proof. unfold record_reconnect, with_budget. evolve. Qed.
Lemma authorize_inv trigger :
  evolves (preserved (budget_inv 0)) (authorize_reconnect_before_connect io_error clock trigger).
Proof. unfold authorize_reconnect_before_connect, with_budget. evolve. Qed.
Lemma send_failure_inv n :
  evolves (preserved (budget_inv 0)) (record_send_failure io_error clock n).
Proof. unfold record_send_failure, with_budget. evolve. Qed.
Lemma connect_inv : evolves (preserved (budget_inv 0)) (record_initial_connect_attempt io_error clock).
Proof.
  intros p Hp. unfold record_initial_connect_attempt, with_budget, bind at 1, gets.
  destruct (pb_enabled p) as [b|] eqn:Hb; [|done].
  destruct (is_strict b && _) eqn:Hs.
  - assert (evolves (preserved (budget_inv 0))
      (set_terminal_reason "initial-connect-retry-forbidden" ;;; write_final_snapshot io_error false ;;;
       fail (A:=unit) "strict paid provider authority forbids a second initial WebSocket attempt"))
      as H by evolve. by apply H.
  - unfold bind, update_budget, modify. apply budget_event_inv.
    unfold budget_inv in *. simpl. rewrite Hb in *. simpl.
    destruct Hp as [H1 H2 H3 H4 H5 H6 H7 [H8 H9]]. split; simpl; try done.
    unfold is_strict in *. simpl. unfold wrapping_add, u64_max in *.
    split; [apply Z.mod_pos_bound; lia|].
    intros E. rewrite E in Hs. simpl in Hs. apply Z.leb_gt in Hs.
    rewrite Z.mod_small; lia.
Qed.
Lemma budget_finalize_inv reason : evolves (preserved (budget_inv 0)) (finalize io_error clock reason).
Proof.
  intros p Hp. unfold finalize, with_budget, bind at 1, gets.
  destruct (pb_enabled p) as [b|] eqn:Hb; [|done]. destruct (bd_finalized b) eqn:Hf; [done|].
  unfold bind, update_budget, set_terminal_reason, modify.
  unfold budget_inv in Hp. rewrite Hb in Hp. destruct Hp as [H1 H2 H3 H4 H5 H6 H7 H8].
  rewrite Hf in H7.
  eapply logged_inv; [apply event_logged| |].
  - intros _ b'. simpl. rewrite Hb. simpl. intros [= <-].
    split; [by destruct (bd_terminal_reason b)|lia].
  - unfold budget_inv. simpl. rewrite Hb. simpl.
    destruct (bd_terminal_reason b); split; simpl; try done; lia.
Qed.
Lemma drop_inv : evolves (preserved (budget_inv 0)) (drop_budget io_error clock).
Proof. unfold drop_budget. pose proof budget_finalize_inv. evolve. Qed.

(** A reservation leaves slack for exactly the samples it charged. *)
Lemma inv_slack slack slack' p : slack' ≤ slack → budget_inv slack p → budget_inv slack' p.
Proof.
  intros H. unfold budget_inv. destruct (pb_enabled p); [|done].
  intros [H1 H2 H3 H4 H5 H6 H7 H8]. split; try done. split; [lia|apply H3].
Qed.
Lemma reserve_inv n : is_u64 n →
  triple (budget_inv 0) (reserve io_error clock n)
    (λ _ p, budget_inv n p ∧ (is_Some (pb_enabled p) → 0 < n)) (budget_inv 0).
Proof.
  intros Hn p Hp. unfold reserve, with_budget, bind at 1, gets.
  destruct (pb_enabled p) as [b|] eqn:Hb.
  2:{ unfold ret. unfold budget_inv. rewrite Hb. split; [done|]. by intros [? ?]. }
  unfold bind at 1, fail_if. destruct (n =? 0) eqn:H0; [done|]. simpl. apply Z.eqb_neq in H0.
  unfold reserve_body.
  destruct (next_total b n) as [next|] eqn:Et.
  - unfold bind, update_budget, modify.
    unfold next_total in Et. destruct (checked_add _ _) as [t|] eqn:Ec; [|done].
    destruct (t <=? _) eqn:El; [|done]. injection Et as ->.
    apply checked_add_Some in Ec as [-> _]. apply Z.leb_le in El.
    match goal with |- context [write_event _ _ _ _ _ ?q] => set (p1 := q) end.
    assert (budget_inv n p1) as H1.
    { unfold budget_inv in *. simpl. rewrite Hb in *. simpl.
      destruct Hp as [P1 P2 P3 P4 P5 P6 P7 P8]. split; simpl; try done. split; [lia|apply P3]. }
    pose proof (budget_event_inv n "reserved" (Some n) p1 H1) as H2.
    destruct (write_event _ _ _ _ _ _) as [[[]|e] p2]; simpl in *.
    + split; [done|]. intros _. unfold is_u64 in Hn. lia.
    + eapply inv_slack; [|exact H2]. unfold is_u64 in Hn. lia.
  - match goal with |- match ?m p with _ => _ end =>
      assert (evolves (preserved (budget_inv 0)) m) as H by evolve; specialize (H p Hp);
      destruct (m p) as [[[]|e] p2] eqn:E end; [|done]. exfalso.
    revert E. unfold bind, fail, throw.
    destruct (update_budget _ p) as [[u1|] q1]; [|done].
    destruct (set_terminal_reason _ q1) as [[u2|] q2]; [|done].
    by destruct (write_event _ _ _ _ _ q2) as [[u3|] q3].
Qed.
Lemma send_inv n before send : is_u64 n →
  evolves (preserved (budget_inv 0)) (exec (BSend n before send)).
Proof.
  intros Hn p Hp. simpl. unfold attempt_send.
  pose proof (reserve_inv n Hn p Hp) as Hr. unfold bind.
  destruct (reserve _ _ n p) as [[[]|e] p1]; [|done]. destruct Hr as [H1 Hpos].
  destruct before as [[]|e]; simpl; [|eapply inv_slack; [|exact H1]; unfold is_u64 in Hn; lia].
  match goal with |- context [when _ _ ?q] => set (p2 := q) end.
  assert (budget_inv 0 p2) as H2.
  { unfold budget_inv in *. simpl. destruct (pb_enabled p1) as [b|]; [|done].
    destruct H1 as [P1 P2 [P3 P3'] P4 P5 P6 P7 P8]. split; simpl; try done.
    rewrite sum_z_snoc. split; [lia|]. apply Forall_app. split; [done|].
    apply Forall_singleton. eauto. }
  unfold when. destruct (negb _); [|done].
  pose proof (send_failure_inv n p2 H2) as H3.
  by destruct (record_send_failure _ _ n p2) as [[[]|e] p3].
Qed.
Lemma fresh_inv p : budget_fresh io_error clock already_exists p → budget_inv 0 p.
Proof.
  intros (res & auth & pid & purl & provider & dir & gen & model & proto & env & p0 & H0 & Hj & Hs & <-).
  unfold from_environment. unfold bind at 1, lift.
  destruct (validate_budget _ _ _ _ _ _ _ _ _ _) as [[[[e i] m]|]|er] eqn:Ev;
    [|done|by unfold budget_inv; simpl; rewrite H0].
  destruct (validate_budget_ok _ _ _ _ _ _ _ _ _ _ _ _ _ Ev) as [[Hmax _] _].
  assert (∀ path c, evolves unlogged (open_new io_error already_exists path c)) as Ho
    by (intros; unfold open_new; evolve).
  assert (unlogged p0 p0) as Hu by done. revert Hu.
  assert (∀ q, unlogged p0 q → budget_inv 0 q) as Hidle.
  { intros q (He & _). unfold budget_inv. by rewrite He, H0. }
  intros _. apply quiet_then; [apply Ho|apply Hidle|]. intros [] q1 U1.
  apply quiet_then; [apply Ho|intros q U; apply Hidle; by etransitivity|]. intros [] q2 U2.
  assert (unlogged p0 q2) as U by (by etransitivity).
  match goal with |- budget_inv 0 (bind (modify ?f) ?k q2).2 =>
    change (budget_inv 0 (k tt (f q2)).2); set (q3 := f q2);
    assert (budget_inv 0 q3) as H3 end.
  { destruct U as (_ & Uj & Us). unfold budget_inv. simpl.
    split; simpl; rewrite ?Uj, ?Us, ?Hj, ?Hs; try done; unfold MAX_PROVIDER_INPUT_AUTHORITY_SAMPLES in *;
      try lia.
    split; [intros r Hr; by apply elem_of_nil in Hr|]. intros i' j r s _ Hr. by rewrite lookup_nil in Hr. }
  unfold bind at 1. pose proof (evolves_attempt _ _ (budget_event_inv 0 "initialized" None) q3 H3) as H4.
  destruct (attempt _ q3) as [[o|er] q4]; [|done]. simpl in H4.
  destruct o as [u|er]; [done|]. unfold bind at 1.
  pose proof (drop_inv q4 H4) as H5. by destruct (drop_budget _ _ q4) as [[[]|e'] q5].
Qed.
#[export] Instance budget_invariant :
  Invariant (budget_fresh io_error clock already_exists) step (budget_inv 0).
Proof.
  split; [apply fresh_inv|]. intros p o p' Hp [Hn <-]. revert Hp.
  destruct o; [apply connect_inv|by apply send_inv|apply reconnect_inv|apply authorize_inv
              |apply budget_finalize_inv|apply drop_inv].
Qed.

(** C8: The paid lease is never exceeded: in every reachable state the samples of
    all [send] closures that ran sum to at most the charged total, the charged
    total is at most the lease, the lease is at most 2,880,000 samples, every
    journal line shows a total within the lease, and a strict run has made at
    most one initial connection attempt. *)
Theorem paid_input_stays_within_lease p b :
  budget_reachable io_error clock already_exists p → pb_enabled p = Some b →
  sum_z (bw_sent (pb_world p)) ≤ bd_total_attempted_samples b
  ∧ bd_total_attempted_samples b ≤ bd_max_samples b ≤ MAX_PROVIDER_INPUT_AUTHORITY_SAMPLES
  ∧ (∀ r, r ∈ bw_journal (pb_world p) → br_total_attempted_samples r ≤ bd_max_samples b)
  ∧ (is_strict b = true → bd_initial_connect_attempts b ≤ 1).
Proof.
  intros Hr Hb. pose proof (reachable_inv _ step (budget_inv 0) p Hr) as H.
  unfold budget_inv in H. rewrite Hb in H. destruct H as [H1 H2 [H3 _] H4 _ _ _ [_ H8]].
  split_and!; try lia; try done. by apply Forall_forall.
Qed.

(** ** What only grows *)
Definition terminal_kept (p p' : ProviderInputBudget) : Prop :=
  bw_journal (pb_world p) `prefix_of` bw_journal (pb_world p')
  ∧ bw_sent (pb_world p) `prefix_of` bw_sent (pb_world p')
  ∧ match pb_enabled p, pb_enabled p' with
    | None, None => True
    | Some b, Some b' =>
        bd_max_samples b' = bd_max_samples b ∧ bd_identity b' = bd_identity b
        ∧ bd_total_attempted_samples b ≤ bd_total_attempted_samples b'
        ∧ (bd_finalized b = true → bd_finalized b' = true)
        ∧ (∀ r, bd_terminal_reason b = Some r → bd_terminal_reason b' = Some r)
    | _, _ => False
    end.
#[export] Instance terminal_kept_preorder : PreOrder terminal_kept.
Proof.
  split.
  - intros p. split_and!; [done..|]. destruct (pb_enabled p); [|done]. split_and!; try done; lia.
  - intros x y z (J1 & S1 & H1) (J2 & S2 & H2). split_and!; [by etransitivity..|].
    destruct (pb_enabled x), (pb_enabled y), (pb_enabled z); try done.
    destruct H1 as (?&?&?&?&?), H2 as (?&?&?&?&?). split_and!; [congruence..|lia|auto|auto].
Qed.
Lemma logged_kept fin p p' : logged fin p p' → terminal_kept p p'.
Proof.
  intros [Hs Hl]. unfold terminal_kept. rewrite Hs.
  destruct (pb_enabled p) as [b|], (pb_enabled p') as [b'|]; try done.
  - destruct Hl as [-> Hj]. split_and!; simpl; try done.
    destruct Hj as [->|(r & -> & _)]; [done|by eexists].
  - rewrite Hl. done.
Qed.
Lemma unlogged_kept p p' : unlogged p p' → terminal_kept p p'.
Proof.
  intros (He & Hj & Hs). unfold terminal_kept. rewrite He, Hj, Hs. split_and!; try done.
  destruct (pb_enabled p); [|done]. split_and!; try done; lia.
Qed.
Lemma update_kept f :
  (∀ b, bd_max_samples (f b) = bd_max_samples b ∧ bd_identity (f b) = bd_identity b
     ∧ bd_total_attempted_samples b ≤ bd_total_attempted_samples (f b)
     ∧ (bd_finalized b = true → bd_finalized (f b) = true)
     ∧ (∀ r, bd_terminal_reason b = Some r → bd_terminal_reason (f b) = Some r)) →
  evolves terminal_kept (update_budget f).
Proof. intros Hf [[b|] w]; (split_and!; [done..|]); simpl; [apply Hf|done]. Qed.
Lemma event_kept event attempted fin :
  evolves terminal_kept (write_event io_error clock event attempted fin).
Proof. intros p. eapply logged_kept, event_logged. Qed.
Lemma snapshot_kept fin : evolves terminal_kept (write_final_snapshot io_error fin).
Proof. intros p. apply unlogged_kept, snapshot_unlogged. Qed.
Lemma terminal_reason_kept reason : evolves terminal_kept (set_terminal_reason reason).
Proof. apply update_kept. intros b. destruct (bd_terminal_reason b) eqn:E; split_and!; simpl; try done; intros; congruence. Qed.
Lemma sent_kept l : evolves terminal_kept (update_world (λ w, w <| bw_sent ::= λ s, s ++ l |>)).
Proof.
  intros p. split_and!; simpl; [done|by eexists|]. destruct (pb_enabled p); [|done].
  split_and!; try done; lia.
Qed.
#[local] Hint Resolve event_kept snapshot_kept terminal_reason_kept sent_kept : evolve.
#[local] Hint Extern 1 (evolves terminal_kept (update_budget _)) =>
  apply update_kept; intros ?; split_and!; simpl; first [done|lia] : evolve.
Lemma reserve_kept n : is_u64 n → evolves terminal_kept (reserve io_error clock n).
Proof.
  intros Hn p. unfold reserve, with_budget, bind at 1, gets.
  destruct (pb_enabled p) as [b|] eqn:Hb; [|done].
  unfold bind at 1, fail_if. destruct (n =? 0); [done|]. simpl. unfold reserve_body.
  destruct (next_total b n) as [next|] eqn:Et.
  - unfold bind, update_budget, modify. etransitivity; [|apply event_kept].
    split_and!; [done..|]. simpl. rewrite Hb. simpl.
    unfold next_total in Et. destruct (checked_add _ _) as [t|] eqn:Ec; [|done].
    destruct (t <=? _); [|done]. injection Et as ->. apply checked_add_Some in Ec as [-> _].
    unfold is_u64 in Hn. split_and!; try done; lia.
  - match goal with |- terminal_kept _ (?m p).2 =>
      assert (evolves terminal_kept m) as H by evolve; apply H end.
Qed.
Lemma op_kept p o p' : step p o p' → terminal_kept p p'.
Proof.
  intros [Hn <-]. revert p. change (evolves terminal_kept (exec o)). destruct o; simpl.
  - unfold record_initial_connect_attempt, with_budget. evolve.
  - pose proof (reserve_kept _ Hn). unfold attempt_send, record_send_failure, with_budget. evolve.
  - unfold record_reconnect, with_budget. evolve.
  - unfold authorize_reconnect_before_connect, with_budget. evolve.
  - unfold finalize, with_budget. evolve.
  - unfold drop_budget. assert (∀ r, evolves terminal_kept (finalize io_error clock r))
      by (intros; unfold finalize, with_budget; evolve). evolve.
Qed.

(** The ledger is closed once and is append-only: in every reachable state at
    most one journal line is final, and only once the budget is finalized;
    lines are numbered from 1, strictly increasing until the 64-bit counter
    saturates; and along any further run of calls, failed ones included, no
    line is lost, and the first terminal reason, the finalized flag, the lease
    and the recorded identity never change. *)
Theorem ledger_is_append_only_and_closed_once p ops p' b :
  budget_reachable io_error clock already_exists p → run step p ops p' → pb_enabled p = Some b →
  numbered (bw_journal (pb_world p)) (bd_next_sequence b)
  ∧ (count_if br_finalized (bw_journal (pb_world p)) ≤ if bd_finalized b then 1 else 0)%nat
  ∧ bw_journal (pb_world p) `prefix_of` bw_journal (pb_world p')
  ∧ ∃ b', pb_enabled p' = Some b' ∧ bd_max_samples b' = bd_max_samples b
      ∧ bd_identity b' = bd_identity b ∧ (bd_finalized b = true → bd_finalized b' = true)
      ∧ (∀ r, bd_terminal_reason b = Some r → bd_terminal_reason b' = Some r).
Proof.
  intros Hr Hrun Hb. pose proof (reachable_inv _ step (budget_inv 0) p Hr) as H.
  unfold budget_inv in H. rewrite Hb in H. destruct H as [_ _ _ _ _ H6 H7 _].
  destruct (run_evolves step terminal_kept op_kept p ops p' Hrun) as (Hj & _ & Hk).
  rewrite Hb in Hk. destruct (pb_enabled p') as [b'|]; [|done].
  destruct Hk as (?&?&_&?&?). split_and!; try done. by exists b'.
Qed.

(** ** Sending *)
Section Quiet.
Context (Hio : ∀ k, io_error k = None).
Lemma budget_io_ok c : always_ok (budget_io io_error c).
Proof. intros p. unfold budget_io, update_world, bind, gets, modify. by rewrite Hio. Qed.
Ltac ok_steps := repeat first
  [apply budget_io_ok | apply always_ok_bind; [|intros ?] | by intros ? | case_match].
Lemma event_ok event attempted fin : always_ok (write_event io_error clock event attempted fin).
Proof.
  unfold write_event, write_event_at, write_final_snapshot, with_budget. cbv zeta. ok_steps.
Qed.
Lemma event_run event attempted p :
  ∃ p', write_event io_error clock event attempted false p = (Ok tt, p') ∧ logged false p p'.
Proof.
  apply (always_ok_run (logged false)); [apply event_ok|intros ?; apply event_logged].
Qed.

Lemma logged_budget fin p p' b : logged fin p p' → pb_enabled p = Some b →
  ∃ b', pb_enabled p' = Some b' ∧ bw_sent (pb_world p') = bw_sent (pb_world p)
  ∧ bd_total_attempted_samples b' = bd_total_attempted_samples b
  ∧ bd_budget_exceeded b' = bd_budget_exceeded b
  ∧ bd_terminal_reason b' = bd_terminal_reason b.
Proof.
  intros [Hs Hl] Hb. rewrite Hb in Hl. destruct (pb_enabled p') as [b'|]; [|done].
  destruct Hl as [-> _]. by eexists.
Qed.
Lemma reserve_run p b n : pb_enabled p = Some b →
  if n =? 0 then ∃ e, reserve io_error clock n p = (Err e, p)
  else match next_total b n with
       | Some next => ∃ p' b', reserve io_error clock n p = (Ok tt, p')
           ∧ pb_enabled p' = Some b' ∧ bw_sent (pb_world p') = bw_sent (pb_world p)
           ∧ bd_total_attempted_samples b' = next
       | None => ∃ e p' b', reserve io_error clock n p = (Err e, p')
           ∧ pb_enabled p' = Some b' ∧ bw_sent (pb_world p') = bw_sent (pb_world p)
           ∧ bd_total_attempted_samples b' = bd_total_attempted_samples b
           ∧ bd_budget_exceeded b' = true ∧ is_Some (bd_terminal_reason b')
       end.
Proof.
  intros Hb.
  assert (∀ r, r = reserve io_error clock n p → r =
    (fail_if (n =? 0) "provider input budget cannot reserve an empty append" ;;;
     reserve_body io_error clock n b) p) as Hr.
  { intros r ->. unfold reserve, with_budget, bind at 1, gets. by rewrite Hb. }
  rewrite (Hr _ eq_refl). clear Hr. unfold bind at 1 2 3, fail_if.
  destruct (n =? 0); [by eexists|]. cbn [ret]. unfold reserve_body.
  destruct (next_total b n) as [next|].
  - unfold bind, update_budget, modify.
    match goal with |- context [write_event _ _ ?e ?a _ ?q] =>
      destruct (event_run e a q) as (p' & E & L); rewrite E;
      destruct (logged_budget false q p' _ L ltac:(simpl; rewrite Hb; reflexivity))
        as (b' & Hb' & Hs & Ht & _) end.
    by exists p', b'.
  - unfold bind, set_terminal_reason, update_budget, modify.
    match goal with |- context [write_event _ _ ?e ?a _ ?q] =>
      destruct (event_run e a q) as (p' & E & L); rewrite E;
      destruct (logged_budget false q p' _ L ltac:(simpl; rewrite Hb; reflexivity))
        as (b' & Hb' & Hs & Ht & Hx & Hr) end.
    eexists _, p', b'. split; [done|]. rewrite Ht, Hx, Hr.
    split_and!; try done; simpl; destruct (bd_terminal_reason b) eqn:Er; simpl; rewrite ?Er; by eauto.
Qed.
Lemma send_failure_run p b n : pb_enabled p = Some b →
  ∃ p' b', record_send_failure io_error clock n p = (Ok tt, p')
  ∧ pb_enabled p' = Some b' ∧ bw_sent (pb_world p') = bw_sent (pb_world p)
  ∧ bd_total_attempted_samples b' = bd_total_attempted_samples b.
Proof.
  intros Hb. unfold record_send_failure, with_budget, bind at 1, gets. rewrite Hb.
  unfold bind, update_budget, modify.
  match goal with |- context [write_event _ _ ?e ?a _ ?q] =>
    destruct (event_run e a q) as (p' & E & L); rewrite E;
    destruct (logged_budget false q p' _ L ltac:(simpl; rewrite Hb; reflexivity))
      as (b' & Hb' & Hs & Ht & _) end.
  by exists p', b'.
Qed.
(** Every send is charged first and exactly when the lease allows it: without
    I/O errors, an empty append is refused and changes nothing; an append that
    [can_append] refuses is refused, sends nothing, charges nothing and marks
    the budget exceeded with a terminal reason; any other append charges
    exactly its samples, and then runs [send] exactly if [before_send] succeeded. *)
Theorem attempt_send_charges_first {T} p b n before (send : outcome T) :
  pb_enabled p = Some b →
  ∃ r p', attempt_send io_error clock n before send p = (r, p') ∧
  if n =? 0 then is_ok r = false ∧ p' = p
  else ∃ b', pb_enabled p' = Some b' ∧
    if can_append n p then
      bd_total_attempted_samples b' = bd_total_attempted_samples b + n
      ∧ match before with
        | Ok _ => r = Ok send ∧ bw_sent (pb_world p') = bw_sent (pb_world p) ++ [n]
        | Err e => r = Err e ∧ bw_sent (pb_world p') = bw_sent (pb_world p)
        end
    else
      is_ok r = false ∧ bw_sent (pb_world p') = bw_sent (pb_world p)
      ∧ bd_total_attempted_samples b' = bd_total_attempted_samples b
      ∧ bd_budget_exceeded b' = true ∧ is_Some (bd_terminal_reason b').
Proof.
  intros Hb. pose proof (reserve_run p b n Hb) as Hr. unfold attempt_send, can_append.
  rewrite Hb. unfold bind at 1. destruct (n =? 0).
  { destruct Hr as [e ->]. by eexists _, _. }
  destruct (next_total b n) as [next|] eqn:Et; cbn [is_Some_b].
  2:{ destruct Hr as (e & p' & b' & -> & Hb' & H). eexists _, p'. split; [done|]. by exists b'. }
  assert (next = bd_total_attempted_samples b + n) as Hnext.
  { unfold next_total in Et. destruct (checked_add _ _) as [t|] eqn:Ec; [|done].
    destruct (t <=? _); [|done]. injection Et as <-. by apply checked_add_Some in Ec as [-> _]. }
  destruct Hr as (p1 & b1 & -> & Hb1 & Hs1 & Ht1). destruct before as [[]|er].
  2:{ eexists _, p1. split; [done|]. exists b1. rewrite Ht1, Hs1. by split_and!. }
  unfold bind at 1, lift. unfold bind at 1, update_world, modify.
  match goal with |- context [bind _ _ ?q] => set (p2 := q) end.
  destruct (send_failure_run p2 b1 n Hb1) as (p3 & b3 & E3 & Hb3 & Hs3 & Ht3).
  unfold bind, when. destruct (negb (is_ok send)).
  - rewrite E3. eexists _, p3. split; [done|]. exists b3. rewrite Ht3, Hs3. simpl. rewrite Hs1.
    split_and!; try done. lia.
  - eexists _, p2. split; [done|]. exists b1. simpl. rewrite Hs1. split_and!; try done. lia.
Qed.
End Quiet.
End Theorems.

(** A validated lease is the signed cell's: the budget's maximum is within
    1..=2,880,000, at most one authority flag is set, and a strict paid run's
    cell is a four-part release cell of an approved tier and feedback mode on
    the default speaker, naming exactly the session's model, with exactly that
    cell's lease. A media-end authority carries the run's own identity, a
    16 kHz rate and no more reference frames than the lease. *)
Theorem strict_lease_is_exact resolve authorize parse_identity parse_url provider direction
    generation model protocol read_env env identity media_end :
  validate_budget resolve authorize parse_identity parse_url provider direction generation model
    protocol read_env = Ok (Some (env, identity, media_end)) →
  1 ≤ be_max_samples env ≤ MAX_PROVIDER_INPUT_AUTHORITY_SAMPLES
  ∧ (count_if id [be_strict_paid_authority env; be_incident_replay_authority env;
                  be_local_single_session_authority env] ≤ 1)%nat
  ∧ (be_strict_paid_authority env = true → ∃ tier feedback,
       split_colons (be_cell_id env) = [tier; trim model; feedback; "default-speaker"]
       ∧ tier ∈ ["pairwise-live"; "model-stability"]
       ∧ feedback ∈ ["virtual-driver"; "echo-cancel"; "process-exclusion"]
       ∧ be_max_samples env = lease_table (read_env COMPLETION_POLICY_ENV) feedback)
  ∧ (∀ m, media_end = Some m →
       be_strict_paid_authority env = true
       ∧ 1 ≤ me_authoritative_reference_frames m ≤ be_max_samples env
       ∧ me_input_sample_rate_hz m = 16000 ∧ me_session_generation m = generation
       ∧ me_cell_id m = be_cell_id env ∧ me_lease_id m = be_lease_id env
       ∧ me_run_marker m = be_run_marker env).
Proof.
  intros H. apply validate_budget_ok in H as [(Hm & Hf & Hs) (_ & _ & Hc & Hme)].
  split_and!; try done.
  - lia.
  - lia.
  - intros Hstrict. specialize (Hs Hstrict). specialize (Hc Hstrict).
    unfold cell_model in Hc. apply release_cell_ok in Hs as (tier & m & feedback & E & H).
    rewrite E in Hc. injection Hc as ->. by exists tier, feedback.
  - intros m E. apply Hme, media_end_ok in E as (?&?&?&?&?&?&?&?&?). split_and!; try done; lia.
Qed.

(** The media-end boundary is the ceiling in milliseconds: for the rate and
    frame counts a validated authority can have, [authenticates_post_reference_start]
    accepts a start time exactly when all reference frames lie at or before it,
    without overflow or rounding error. *)
Theorem media_end_is_the_ceiling m start :
  0 ≤ me_authoritative_reference_frames m ≤ MAX_PROVIDER_INPUT_AUTHORITY_SAMPLES →
  me_input_sample_rate_hz m = PROVIDER_INPUT_SAMPLE_RATE_HZ →
  authenticates_post_reference_start m start = true ↔
  me_authoritative_reference_frames m * 1000 ≤ start * me_input_sample_rate_hz m.
Proof.
  unfold authenticates_post_reference_start, media_end_ms. intros Hf ->.
  unfold MAX_PROVIDER_INPUT_AUTHORITY_SAMPLES, PROVIDER_INPUT_SAMPLE_RATE_HZ, u64_max in *.
  rewrite (Z.min_l (_ * 1000)) by (unfold u128_max; lia).
  set (a := _ * 1000). assert (0 ≤ a ≤ 2880000000) as Ha by (unfold a; lia). clearbody a.
  unfold div_ceil. pose proof (Z.div_mod a 16000 ltac:(lia)).
  pose proof (Z.mod_pos_bound a 16000 ltac:(lia)).
  rewrite Z.leb_le. destruct (0 <? a mod 16000) eqn:Hm; bool_hyps; lia.
Qed.

(** ** A concrete run *)
Definition sample_identity : BudgetIdentity :=
  mk_budget_identity "cell" "lease" "run" 1 true false false None "p" "t" "k" "h" "c" "a" "b" 0
    "m" "r" (mk_identity "" "" 0 "" "" "" "" "" "" 0 "" "" "" "" "m").
Definition v2_cell : string :=
  "pairwise-live::qwen3.8-livetranslate-flash-realtime::process-exclusion::default-speaker".
Definition sample_env : Env := λ name,
  (list_to_map [(MAX_SAMPLES_ENV, "2877045"); (LEDGER_PATH_ENV, "/ledger"); (CELL_ID_ENV, v2_cell);
    (LEASE_ID_ENV, "lease"); (RUN_MARKER_ENV, "run"); (AUTOSTART_ENV, "1");
    (STRICT_PAID_AUTHORITY_ENV, "1"); (PCM_PATH_ENV, "/pcm");
    (MODEL_ENV, STRICT_LIVETRANSLATE_MODEL_V2); (PROTOCOL_ENV, STRICT_LIVETRANSLATE_PROTOCOL);
    (MODEL_PROTOCOL_PROFILE_IDENTITY_ENV, "declared");
    (EXPECTED_PROVIDER_ID_ENV, STRICT_PROVIDER_ID); (EXPECTED_TEMPLATE_ID_ENV, STRICT_TEMPLATE_ID);
    (EXPECTED_PROVIDER_KIND_ENV, STRICT_PROVIDER_KIND); (EXPECTED_ENDPOINT_HOST_ENV, "host.example");
    (EXPECTED_CREDENTIAL_REFERENCE_ENV, STRICT_CREDENTIAL_REFERENCE)] : gmap string string) !! name.
Definition sample_profile : ModelProtocolProfileIdentityRuntime :=
  mk_identity "1" "p" 1 "o" "t" "r" "f" "/" "d" 1 "i" "o" "l" "a" STRICT_LIVETRANSLATE_MODEL_V2.
Definition sample_draft : ProviderDraftInput :=
  mk_draft STRICT_TEMPLATE_ID STRICT_PROVIDER_ID STRICT_PROVIDER_KIND STRICT_LIVETRANSLATE_MODEL_V2
    "wss://host.example/x" "websocket"
    (mk_auth "credential-ref" STRICT_CREDENTIAL_REFERENCE "Authorization" "bearer") [].
Definition sample_validated := validate_budget (λ _, (Some sample_profile, None)) (λ _, Ok tt)
  (λ _, Ok sample_profile) (λ _, Some (mk_url "wss" (Some "host.example") "" None None))
  sample_draft "inbound" 7 STRICT_LIVETRANSLATE_MODEL_V2 STRICT_LIVETRANSLATE_PROTOCOL sample_env.
Definition no_io_error : nat → option string := λ _, None.
Definition sample_start : ProviderInputBudget :=
  (from_environment no_io_error Z.of_nat "exists" sample_validated
     (mk_provider_budget None (mk_budget_world 0 0 ∅ [] None []))).2.
Lemma sample_start_reachable : budget_reachable no_io_error Z.of_nat "exists" sample_start.
Proof.
  apply reach_init.
  exists (λ _, (Some sample_profile, None)), (λ _, Ok tt), (λ _, Ok sample_profile),
    (λ _, Some (mk_url "wss" (Some "host.example") "" None None)), sample_draft, "inbound", 7,
    STRICT_LIVETRANSLATE_MODEL_V2, STRICT_LIVETRANSLATE_PROTOCOL, sample_env,
    (mk_provider_budget None (mk_budget_world 0 0 ∅ [] None [])).
  by split_and!.
Qed.
Definition sample_budget_ops : list budget_op :=
  [BConnect; BSend 1600 (Ok tt) (Ok tt); BConnect; BSend 2877045 (Ok tt) (Ok tt); BFinalize "done"].
Definition sample_budget_end : ProviderInputBudget :=
  fold_left (λ p o, (exec_budget no_io_error Z.of_nat o p).2) sample_budget_ops sample_start.
Lemma sample_budget_run :
  run (budget_step no_io_error Z.of_nat) sample_start sample_budget_ops sample_budget_end.
Proof.
  assert (∀ ops p, Forall (λ o, match o with BSend n _ _ => is_u64 n | _ => True end) ops →
    run (budget_step no_io_error Z.of_nat) p ops
      (fold_left (λ p o, (exec_budget no_io_error Z.of_nat o p).2) ops p)) as H.
  { induction ops as [|o ops IH]; intros p Hops; [apply run_nil|].
    apply Forall_cons in Hops as [Ho Hops].
    eapply run_cons; [split; [exact Ho|reflexivity]|by apply IH]. }
  apply H. unfold sample_budget_ops, is_u64, u64_max. repeat constructor; lia.
Qed.

Lemma sample_end_reachable : budget_reachable no_io_error Z.of_nat "exists" sample_budget_end.
Proof. exact (run_reachable _ _ _ _ _ sample_start_reachable sample_budget_run). Qed.

Lemma paid_input_stays_within_lease_witness :
  ∃ b, pb_enabled sample_budget_end = Some b ∧ bw_sent (pb_world sample_budget_end) = [1600]
  ∧ sum_z (bw_sent (pb_world sample_budget_end)) ≤ bd_total_attempted_samples b.
Proof.
  destruct (pb_enabled sample_budget_end) as [b|] eqn:Hb; [|by vm_compute in Hb].
  exists b. split_and!; [done|by vm_compute|].
  destruct (paid_input_stays_within_lease no_io_error Z.of_nat "exists" sample_budget_end b
              sample_end_reachable Hb) as [H _].
  exact H.
Defined.
Lemma ledger_is_append_only_and_closed_once_witness :
  bw_journal (pb_world sample_start) `prefix_of` bw_journal (pb_world sample_budget_end)
  ∧ length (bw_journal (pb_world sample_budget_end)) = 5%nat.
Proof.
  split; [|by vm_compute]. destruct (pb_enabled sample_start) as [b|] eqn:Hb; [|by vm_compute in Hb].
  destruct (ledger_is_append_only_and_closed_once no_io_error Z.of_nat "exists" sample_start
    sample_budget_ops sample_budget_end b sample_start_reachable sample_budget_run Hb)
    as (_ & _ & H & _).
  exact H.
Defined.
Lemma attempt_send_charges_first_witness :
  ∃ r p', attempt_send no_io_error Z.of_nat 1600 (Ok tt) (Ok tt) sample_start = (r, p')
  ∧ bw_sent (pb_world p') = [1600].
Proof.
  destruct (pb_enabled sample_start) as [b|] eqn:Hb; [|by vm_compute in Hb].
  destruct (attempt_send_charges_first no_io_error Z.of_nat (λ _, eq_refl) sample_start b 1600
    (Ok tt) (Ok tt) Hb) as (r & p' & E & H).
  exists r, p'. split; [done|]. change (1600 =? 0) with false in H. cbv iota in H.
  destruct H as (b' & _ & H).
  replace (can_append 1600 sample_start) with true in H by (by vm_compute).
  destruct H as (_ & _ & ->). by vm_compute.
Defined.
Lemma strict_lease_is_exact_witness :
  ∃ env identity media_end, sample_validated = Ok (Some (env, identity, media_end))
  ∧ be_max_samples env = 2877045 ∧ 1 ≤ be_max_samples env.
Proof.
  destruct sample_validated as [[[[env identity] media_end]|]|] eqn:E; try by vm_compute in E.
  exists env, identity, media_end. split_and!; [done|vm_compute in E; by injection E as <- _ _|].
  destruct (strict_lease_is_exact _ _ _ _ _ _ _ _ _ _ _ _ _ E) as [[H _] _]. exact H.
Defined.
Lemma media_end_is_the_ceiling_witness :
  ∃ m, authenticates_post_reference_start m 125816 = true
  ∧ authenticates_post_reference_start m 125815 = false
  ∧ (authenticates_post_reference_start m 125816 = true ↔
     me_authoritative_reference_frames m * 1000 ≤ 125816 * me_input_sample_rate_hz m).
Proof.
  exists (mk_media_end 2013045 16000 "" "" "" "" 2173045 7).
  split_and!; [done|done|]. apply media_end_is_the_ceiling; done.
Defined.
