(* ===== verification/TranslationScheduler.v ===== *)
(** * The translation scheduler

    Models [audio/translation_scheduler.rs]: the queue of sentences waiting for
    the translation provider, its duplicate suppression, the bounds on queued
    and concurrent work, deadlines and dispatch priority.

    Instants and durations are nanoseconds in [Z]; the clock readings of an
    operation are its arguments. [HashMap] and [HashSet] are [gmap] and [gset].
    [spawn] receives the jobs of a dispatch in order and has no access to the
    scheduler, so a dispatch returns their list. Of [TranslationJob] and
    [ProviderDraftInput] the fields the code reads are kept: the prompt, the
    languages, the glossary and the trace of a job are never looked at. *)
From S2P Require Import Prelude RustStr.
From Stdlib Require Import Ascii.

Definition MAX_RETRIABLE_SENTENCE_ATTEMPTS : Z := 3.
Definition MAX_RATE_LIMIT_ATTEMPTS : Z := 12.
Definition ms (n : Z) : Z := n * 1000000.
Definition RATE_LIMIT_RETRY_INTERVAL : Z := ms 250.
Definition MAX_QUEUED_TRANSLATIONS : nat := 128.
Definition MAX_QUEUED_TRANSLATIONS_PER_CUE : nat := 8.
Definition FORCED_TRANSLATION_DEADLINE : Z := ms 2500.
Definition FINAL_TRANSLATION_DEADLINE : Z := ms 10000.
Definition MIN_PROVIDER_TIMEOUT : Z := ms 1000.

(** ** Retries *)
Record ProviderRuntimeError := {
  pe_code : string;
  pe_retriable : bool;
  pe_http_status : option Z
}.

Definition is_rate_limit_error (error : ProviderRuntimeError) : bool :=
  bool_decide (pe_code error = "rate-limited") ||
  bool_decide (pe_http_status error = Some 429).

Definition max_translation_attempts (error : ProviderRuntimeError) : Z :=
  if is_rate_limit_error error then MAX_RATE_LIMIT_ATTEMPTS
  else MAX_RETRIABLE_SENTENCE_ATTEMPTS.

Definition should_retry_translation (error : ProviderRuntimeError) (attempts : Z) : bool :=
  (pe_retriable error || is_rate_limit_error error)
  && (attempts <? max_translation_attempts error).

Definition rate_limit_retry_delay (error : ProviderRuntimeError) : option Z :=
  if is_rate_limit_error error then Some RATE_LIMIT_RETRY_INTERVAL else None.

(** ** Keys *)

(** [str::split_whitespace]: the maximal runs without whitespace. *)
Definition push_word (word : list ascii) (words : list string) : list string :=
  match word with [] => words | _ => of_bytes (reverse word) :: words end.
Fixpoint split_ws (word : list ascii) (s : list ascii) : list string :=
  match s with
  | [] => push_word word []
  | a :: s1 =>
      if ws1 a then push_word word (split_ws [] s1) else
      match s1 with
      | b :: s2 =>
          if ws2 a b then push_word word (split_ws [] s2) else
          match s2 with
          | c :: s3 =>
              if ws3 a b c then push_word word (split_ws [] s3)
              else split_ws (a :: word) s1
          | [] => split_ws (a :: word) s1
          end
      | [] => push_word (a :: word) []
      end
  end.
Definition split_whitespace (s : string) : list string := split_ws [] (bytes s).

Definition normalize_sentence_key (sentence : string) : string :=
  join " " (split_whitespace sentence).

Definition translation_attempt_key (cue_id sentence : string) : string :=
  cue_id +:+ ":" +:+ normalize_sentence_key sentence.

Record SentenceResult := {
  sr_sentence : string;
  sr_context : list string;
  sr_is_forced : bool;
  sr_is_replacement : bool;
  sr_pending_id : option string
}.

Definition show_bool (b : bool) : string := if b then "true" else "false".

Definition translation_job_key (cue_id : string) (cue_revision : Z)
    (result : SentenceResult) : string :=
  cue_id +:+ ":" +:+ show_uint cue_revision +:+ ":"
  +:+ default "final" (sr_pending_id result) +:+ ":"
  +:+ show_bool (sr_is_forced result) +:+ ":"
  +:+ normalize_sentence_key (sr_sentence result).

(** [TranslationRank::Partial] is never made by this code. *)
Inductive TranslationRank := Partial | Forced | Final | Replacement.
Definition rank_u8 (r : TranslationRank) : Z :=
  match r with Partial => 0 | Forced => 1 | Final => 2 | Replacement => 3 end.

Definition translation_rank (result : SentenceResult) : TranslationRank :=
  if sr_is_replacement result then Replacement
  else if sr_is_forced result then Forced
  else Final.

Definition should_dedupe_written_translation (rank : TranslationRank) : bool :=
  match rank with Final | Replacement => true | _ => false end.

Record TranslationWriteState := { ws_rank : TranslationRank; ws_sequence : Z }.

Definition should_accept_translation (current : option TranslationWriteState)
    (incoming : TranslationWriteState) : bool :=
  match current with
  | None => true
  | Some current =>
      (rank_u8 (ws_rank current) <? rank_u8 (ws_rank incoming))
      || ((rank_u8 (ws_rank incoming) =? rank_u8 (ws_rank current))
          && (ws_sequence current <=? ws_sequence incoming))
  end.

(** ** Jobs *)
Record ProviderDraftInput := { timeout_ms : Z }.
#[export] Instance eta_provider : Settable ProviderDraftInput :=
  fun p => {| timeout_ms := timeout_ms p |}.

Record TranslationJob := {
  tj_key : string;
  tj_sequence : Z;
  tj_cue_revision : Z;
  tj_display_index : Z;
  tj_cue_id : string;
  tj_result : SentenceResult;
  tj_provider : ProviderDraftInput;
  tj_created_at : Z;
  tj_deadline_at : Z
}.

Definition is_forced (job : TranslationJob) : bool := sr_is_forced (tj_result job).

Definition translation_sentence_work_key (job : TranslationJob) : string :=
  tj_cue_id job +:+ ":" +:+ show_uint (tj_cue_revision job) +:+ ":"
  +:+ show_uint (rank_u8 (translation_rank (tj_result job))) +:+ ":"
  +:+ normalize_sentence_key (sr_sentence (tj_result job)).

Definition translation_supersession_key (job : TranslationJob) : string * Z * Z :=
  (tj_cue_id job, tj_cue_revision job, tj_display_index job).

Definition deadline_for (result : SentenceResult) (created_at : Z) : Z :=
  created_at +
  (if sr_is_forced result && negb (sr_is_replacement result)
   then FORCED_TRANSLATION_DEADLINE else FINAL_TRANSLATION_DEADLINE).

Definition provider_with_remaining_timeout (job : TranslationJob) (now : Z) : ProviderDraftInput :=
  let provider := tj_provider job in
  let remaining := saturating_sub (tj_deadline_at job) now in
  let bounded := Z.max (Z.min remaining (ms (timeout_ms provider))) MIN_PROVIDER_TIMEOUT in
  provider <| timeout_ms := bounded / 1000000 |>.

Definition retry_budget_remaining (job : TranslationJob) (now : Z) : bool :=
  RATE_LIMIT_RETRY_INTERVAL <=? saturating_sub (tj_deadline_at job) now.

Inductive TranslationEnqueueResult :=
  Enqueued | Duplicate | RejectedOverflow | RejectedExpired.

(** ** The scheduler *)
Record InFlightJob := {
  if_cue_id : string;
  if_is_forced : bool;
  if_sentence_work_key : string
}.

Record TranslationScheduler := {
  queued : list TranslationJob;
  queued_keys : gset string;
  queued_sentence_keys : gset string;
  in_flight : gmap string InFlightJob;
  max_concurrent : nat;
  max_concurrent_forced : nat;
  dispatch_not_before : option Z;
  expired_terminal_jobs : list TranslationJob
}.
#[export] Instance eta_scheduler : Settable TranslationScheduler :=
  fun s => {| queued := queued s; queued_keys := queued_keys s;
    queued_sentence_keys := queued_sentence_keys s; in_flight := in_flight s;
    max_concurrent := max_concurrent s; max_concurrent_forced := max_concurrent_forced s;
    dispatch_not_before := dispatch_not_before s;
    expired_terminal_jobs := expired_terminal_jobs s |}.

Definition new (max max_forced : nat) : TranslationScheduler := {|
  queued := []; queued_keys := ∅; queued_sentence_keys := ∅; in_flight := ∅;
  max_concurrent := max; max_concurrent_forced := max_forced;
  dispatch_not_before := None; expired_terminal_jobs := [] |}.

Definition set_max_concurrent (max : nat) (s : TranslationScheduler) : TranslationScheduler :=
  s <| max_concurrent := Nat.max max 1 |>.

(** [now] is the reading of [Instant::now()]. *)
Definition defer_dispatch_for (delay now : Z) (s : TranslationScheduler) : TranslationScheduler :=
  if delay =? 0 then s else
  let not_before := now + delay in
  s <| dispatch_not_before :=
    Some (match dispatch_not_before s with
          | Some current => Z.max current not_before
          | None => not_before
          end) |>.

Definition in_flight_jobs (s : TranslationScheduler) : list InFlightJob :=
  (map_to_list (in_flight s)).*2.

(** The two set removals that go with every removal from the queue. *)
Definition forget_keys (job : TranslationJob) (s : TranslationScheduler) : TranslationScheduler :=
  s <| queued_keys ::= λ ks, ks ∖ {[tj_key job]} |>
    <| queued_sentence_keys ::= λ ks, ks ∖ {[translation_sentence_work_key job]} |>.

Definition push_queued (job : TranslationJob) (s : TranslationScheduler) : TranslationScheduler :=
  s <| queued ::= λ q, q ++ [job] |>.

(** One round of the loop that pops the queue and keeps what is not due. *)
Definition drop_expired_job (now : Z) (s : TranslationScheduler) (job : TranslationJob)
    : TranslationScheduler :=
  if now <? tj_deadline_at job then push_queued job s else
  let s := forget_keys job s in
  if negb (is_forced job)
  then s <| expired_terminal_jobs ::= λ e, e ++ [job] |> else s.
Definition drop_expired_queued_at (now : Z) (s : TranslationScheduler) : TranslationScheduler :=
  fold_left (drop_expired_job now) (queued s) (s <| queued := [] |>).

Definition remove_queued_by_key (key : string) (s : TranslationScheduler) : TranslationScheduler :=
  match position (λ job, bool_decide (tj_key job = key)) (queued s) with
  | None => s
  | Some index =>
      match queued s !! index with
      | None => s
      | Some job => forget_keys job (s <| queued ::= delete index |>)
      end
  end.

(** Whether the queued job is a preview the incoming one supersedes. *)
Definition superseded_by (incoming job : TranslationJob) : bool :=
  bool_decide (translation_supersession_key job = translation_supersession_key incoming)
  && (rank_u8 (translation_rank (tj_result job)) <=? rank_u8 (translation_rank (tj_result incoming)))
  && is_forced job.
Definition drop_superseded_preview (incoming : TranslationJob) (s : TranslationScheduler)
    : TranslationScheduler :=
  let keys := tj_key <$> filter (λ job, superseded_by incoming job = true) (queued s) in
  fold_left (λ s key, remove_queued_by_key key s) keys s.

(** Both evictions return whether they removed a job. *)
Definition evict (key : option string) (s : TranslationScheduler) : bool * TranslationScheduler :=
  match key with
  | None => (false, s)
  | Some key => (true, remove_queued_by_key key s)
  end.
Definition evict_preview_for_cue (cue_id : string) (s : TranslationScheduler)
    : bool * TranslationScheduler :=
  evict (tj_key <$> find (λ job, bool_decide (tj_cue_id job = cue_id) && is_forced job) (queued s)) s.

(** [Iterator::min_by_key]: the first of the least elements. *)
Fixpoint min_by {A} (lt : A → A → bool) (l : list A) : option A :=
  match l with
  | [] => None
  | x :: l =>
      match min_by lt l with
      | None => Some x
      | Some y => if lt y x then Some y else Some x
      end
  end.

Definition older (a b : TranslationJob) : bool :=
  (tj_created_at a <? tj_created_at b)
  || ((tj_created_at a =? tj_created_at b) && (tj_sequence a <? tj_sequence b)).
Definition evict_oldest_preview (s : TranslationScheduler) : bool * TranslationScheduler :=
  evict (tj_key <$> min_by older (filter (λ job, is_forced job = true) (queued s))) s.

(** The four duplicate checks. *)
Definition is_duplicate (job : TranslationJob) (s : TranslationScheduler) : bool :=
  let sentence_work_key := translation_sentence_work_key job in
  bool_decide (tj_key job ∈ queued_keys s)
  || is_Some_b (in_flight s !! tj_key job)
  || bool_decide (sentence_work_key ∈ queued_sentence_keys s)
  || existsb (λ j, bool_decide (if_sentence_work_key j = sentence_work_key)) (in_flight_jobs s).

(** [self.queued.iter().filter(|q| q.cue_id == cue_id).count()]. *)
Definition queued_for_cue (cue_id : string) (s : TranslationScheduler) : nat :=
  count_if (λ q, bool_decide (tj_cue_id q = cue_id)) (queued s).

Definition enqueue_with_result_at (job : TranslationJob) (now : Z) (s : TranslationScheduler)
    : TranslationEnqueueResult * TranslationScheduler :=
  let s := drop_expired_queued_at now s in
  if tj_deadline_at job <=? now then (RejectedExpired, s) else
  if is_duplicate job s then (Duplicate, s) else
  let s := drop_superseded_preview job s in
  let '(refused, s) :=
    if (MAX_QUEUED_TRANSLATIONS_PER_CUE <=? queued_for_cue (tj_cue_id job) s)%nat
    then let '(evicted, s) := evict_preview_for_cue (tj_cue_id job) s in (negb evicted, s)
    else (false, s) in
  if refused then (RejectedOverflow, s) else
  let '(refused, s) :=
    if (MAX_QUEUED_TRANSLATIONS <=? length (queued s))%nat
    then let '(evicted, s) := evict_oldest_preview s in (negb evicted, s)
    else (false, s) in
  if refused then (RejectedOverflow, s) else
  (Enqueued,
   push_queued job
     (s <| queued_keys ::= λ ks, {[tj_key job]} ∪ ks |>
        <| queued_sentence_keys ::= λ ks, {[translation_sentence_work_key job]} ∪ ks |>)).

(** ** Dispatch *)
Definition forced_in_flight_count (s : TranslationScheduler) : nat :=
  count_if if_is_forced (in_flight_jobs s).

(** [(Reverse(rank), deadline_at, sequence)], compared lexicographically. *)
Definition before (a b : TranslationJob) : bool :=
  let ra := rank_u8 (translation_rank (tj_result a)) in
  let rb := rank_u8 (translation_rank (tj_result b)) in
  (rb <? ra)
  || ((ra =? rb)
      && ((tj_deadline_at a <? tj_deadline_at b)
          || ((tj_deadline_at a =? tj_deadline_at b) && (tj_sequence a <? tj_sequence b)))).

(** Whether a slot is free for this job. *)
Definition eligible (s : TranslationScheduler) (job : TranslationJob) : bool :=
  negb (is_forced job) || (forced_in_flight_count s <? max_concurrent_forced s)%nat.

Definition next_dispatch_index (s : TranslationScheduler) : option nat :=
  if (max_concurrent s <=? size (in_flight s))%nat then None else
  fst <$> min_by (λ a b, before a.2 b.2)
            (filter (λ p, eligible s p.2 = true) (imap (λ i job, (i, job)) (queued s))).

(** One round of the dispatch loop: the job it hands to [spawn], if any. *)
Definition dispatch_one (s : TranslationScheduler) : option (TranslationJob * TranslationScheduler) :=
  if (size (in_flight s) <? max_concurrent s)%nat then
    match next_dispatch_index s with
    | None => None
    | Some index =>
        match queued s !! index with
        | None => None
        | Some job =>
            let s := forget_keys job (s <| queued ::= delete index |>) in
            Some (job, s <| in_flight ::= <[tj_key job := {|
              if_cue_id := tj_cue_id job;
              if_is_forced := is_forced job;
              if_sentence_work_key := translation_sentence_work_key job |}]> |>)
        end
    end
  else None.

(** The loop, with fuel; a round takes one job from the queue. *)
Fixpoint dispatch_loop (fuel : nat) (s : TranslationScheduler)
    : list TranslationJob * TranslationScheduler :=
  match fuel with
  | O => ([], s)
  | S fuel =>
      match dispatch_one s with
      | None => ([], s)
      | Some (job, s) => let '(jobs, s) := dispatch_loop fuel s in (job :: jobs, s)
      end
  end.

(** [now] is the reading that expires jobs, [now'] the one compared with the
    deferral. The jobs are those passed to [spawn], in order. *)
Definition dispatch_ready (now now' : Z) (s : TranslationScheduler)
    : list TranslationJob * TranslationScheduler :=
  let s := drop_expired_queued_at now s in
  if match dispatch_not_before s with Some not_before => now' <? not_before | None => false end
  then ([], s)
  else let s := s <| dispatch_not_before := None |> in
       dispatch_loop (length (queued s)) s.

Definition finish (key : string) (s : TranslationScheduler) : TranslationScheduler :=
  s <| in_flight ::= delete key |>.

Definition take_expired_terminal_jobs (s : TranslationScheduler)
    : list TranslationJob * TranslationScheduler :=
  (expired_terminal_jobs s, s <| expired_terminal_jobs := [] |>).

Definition has_work_for_cue (cue_id : string) (s : TranslationScheduler) : bool :=
  existsb (λ job, bool_decide (tj_cue_id job = cue_id)) (queued s)
  || existsb (λ j, bool_decide (if_cue_id j = cue_id)) (in_flight_jobs s).

Definition drop_cue_job (cue_id : string) (s : TranslationScheduler) (job : TranslationJob)
    : TranslationScheduler :=
  if bool_decide (tj_cue_id job = cue_id) then forget_keys job s else push_queued job s.
Definition drop_queued_for_cue (cue_id : string) (s : TranslationScheduler) : TranslationScheduler :=
  fold_left (drop_cue_job cue_id) (queued s) (s <| queued := [] |>).

Definition count_kind (n : nat * nat * nat) (job : TranslationJob) : nat * nat * nat :=
  let '(forced, replacement, final_count) := n in
  if sr_is_replacement (tj_result job) then (forced, S replacement, final_count)
  else if is_forced job then (S forced, replacement, final_count)
  else (forced, replacement, S final_count).
Definition counts_by_kind (s : TranslationScheduler) : nat * nat * nat :=
  fold_left count_kind (queued s) (O, O, O).

(** ** Runs

    What one operation does to the scheduler and the jobs it hands over. *)
Inductive SchedulerOp :=
| OpEnqueue (job : TranslationJob) (now : Z)
| OpDispatch (now now' : Z)
| OpFinish (key : string)
| OpTakeExpired
| OpDropForCue (cue_id : string)
| OpDefer (delay now : Z)
| OpSetMax (max : nat).

Record Handed := {
  accepted : list TranslationJob;
  spawned : list TranslationJob;
  taken : list TranslationJob;
  discarded : list TranslationJob
}.
Definition nothing : Handed :=
  {| accepted := []; spawned := []; taken := []; discarded := [] |}.
Definition handed_app (a b : Handed) : Handed := {|
  accepted := accepted a ++ accepted b; spawned := spawned a ++ spawned b;
  taken := taken a ++ taken b; discarded := discarded a ++ discarded b |}.

Definition exec_scheduler (op : SchedulerOp) (s : TranslationScheduler)
    : Handed * TranslationScheduler :=
  match op with
  | OpEnqueue job now =>
      let '(r, s) := enqueue_with_result_at job now s in
      ({| accepted := match r with Enqueued => [job] | _ => [] end;
          spawned := []; taken := []; discarded := [] |}, s)
  | OpDispatch now now' =>
      let '(jobs, s) := dispatch_ready now now' s in
      ({| accepted := []; spawned := jobs; taken := []; discarded := [] |}, s)
  | OpFinish key => (nothing, finish key s)
  | OpTakeExpired =>
      let '(jobs, s) := take_expired_terminal_jobs s in
      ({| accepted := []; spawned := []; taken := jobs; discarded := [] |}, s)
  | OpDropForCue cue_id =>
      ({| accepted := []; spawned := []; taken := [];
          discarded := filter (λ job, tj_cue_id job = cue_id) (queued s) |},
       drop_queued_for_cue cue_id s)
  | OpDefer delay now => (nothing, defer_dispatch_for delay now s)
  | OpSetMax max => (nothing, set_max_concurrent max s)
  end.

Fixpoint exec_scheduler_ops (ops : list SchedulerOp) (s : TranslationScheduler)
    : Handed * TranslationScheduler :=
  match ops with
  | [] => (nothing, s)
  | op :: ops =>
      let '(h, s) := exec_scheduler op s in
      let '(h', s) := exec_scheduler_ops ops s in
      (handed_app h h', s)
  end.

(** ** The source's own cases *)
Example normalized : normalize_sentence_key "  one   two three " = "one two three".
Proof. reflexivity. Qed.
Example normalized_ideographic_space :
  normalize_sentence_key (of_bytes (Ascii.ascii_of_N <$> [65; 227; 128; 128; 66]%N)) = "A B".
Proof. reflexivity. Qed.
