(* ===== verification/TranslationSchedulerFacts.v ===== *)
(** * Facts about the translation scheduler

    The bookkeeping sets against the queue, the loops against list functions,
    and the dispatch order. *)
From stdpp Require Import sorting.
From S2P Require Import Prelude RustStr TranslationScheduler.

(** ** The bookkeeping sets

    [keyed s q]: the two key sets of [s] are those of the jobs [q], whose keys
    are distinct. *)
Record keyed (s : TranslationScheduler) (q : list TranslationJob) : Prop := {
  kd_keys : queued_keys s = list_to_set (tj_key <$> q);
  kd_nodup : NoDup (tj_key <$> q);
  kd_work : queued_sentence_keys s = list_to_set (translation_sentence_work_key <$> q);
  kd_work_nodup : NoDup (translation_sentence_work_key <$> q)
}.

(** What removing queued jobs leaves alone. *)
Record frame (s s' : TranslationScheduler) : Prop := {
  fr_in_flight : in_flight s' = in_flight s;
  fr_max : max_concurrent s' = max_concurrent s;
  fr_max_forced : max_concurrent_forced s' = max_concurrent_forced s;
  fr_not_before : dispatch_not_before s' = dispatch_not_before s
}.
#[export] Instance frame_preorder : PreOrder frame.
Proof. split; [done|]. intros s s' s'' [] []. split; congruence. Qed.

Lemma set_minus_middle (q1 q2 : list string) x :
  NoDup (q1 ++ x :: q2) →
  (list_to_set (q1 ++ x :: q2) : gset string) ∖ {[x]} = list_to_set (q1 ++ q2).
Proof.
  intros (H1 & H2 & H3)%NoDup_app. apply NoDup_cons in H3 as [H3 _].
  assert (x ∉ q1) by (intros Hx; by apply (H2 x Hx); left).
  rewrite !list_to_set_app_L. simpl. set_solver.
Qed.

Lemma keyed_forget s q1 job q2 :
  keyed s (q1 ++ job :: q2) → keyed (forget_keys job s) (q1 ++ q2).
Proof.
  intros [Hk Hn Hw Hwn]. rewrite fmap_app in *. simpl in *.
  split; simpl; rewrite ?fmap_app.
  - by rewrite Hk, set_minus_middle.
  - by eapply NoDup_middle.
  - by rewrite Hw, set_minus_middle.
  - by eapply NoDup_middle.
Qed.

Lemma keyed_push s q job :
  keyed s q → tj_key job ∉ queued_keys s →
  translation_sentence_work_key job ∉ queued_sentence_keys s →
  keyed (s <| queued_keys ::= λ ks, {[tj_key job]} ∪ ks |>
           <| queued_sentence_keys ::= λ ks, {[translation_sentence_work_key job]} ∪ ks |>)
        (q ++ [job]).
Proof.
  intros [Hk Hn Hw Hwn] H1 H2. rewrite Hk, elem_of_list_to_set in H1.
  rewrite Hw, elem_of_list_to_set in H2.
  split; simpl; rewrite ?fmap_app, ?list_to_set_app_L; simpl.
  - rewrite Hk. set_solver.
  - apply NoDup_app. split_and!; [done|set_solver|apply NoDup_singleton].
  - rewrite Hw. set_solver.
  - apply NoDup_app. split_and!; [done|set_solver|apply NoDup_singleton].
Qed.

Lemma keyed_unique s q a b : keyed s q → a ∈ q → b ∈ q → tj_key a = tj_key b → a = b.
Proof.
  intros [_ Hn _ _] [i Ha]%list_elem_of_lookup [j Hb]%list_elem_of_lookup E.
  assert (i = j); [|congruence].
  apply (NoDup_lookup _ i j (tj_key a) Hn); rewrite list_lookup_fmap, ?Ha, ?Hb; simpl; congruence.
Qed.

(** ** The loops over the queue *)

(** A loop that pops the queue, keeps some jobs and forgets the others. *)
Lemma fold_queue (f : TranslationScheduler → TranslationJob → TranslationScheduler)
    (keep : TranslationJob → bool) (out : TranslationJob → list TranslationJob) :
  (∀ s job, f s job = if keep job then push_queued job s
                      else forget_keys job s <| expired_terminal_jobs ::= λ e, e ++ out job |>) →
  ∀ q s, keyed s (queued s ++ q) →
    let s' := fold_left f q s in
    keyed s' (queued s') ∧ frame s s'
    ∧ queued s' = queued s ++ filter (λ job, keep job = true) q
    ∧ expired_terminal_jobs s' =
        expired_terminal_jobs s ++ concat (out <$> filter (λ job, keep job = false) q).
Proof.
  intros Hf q. induction q as [|job q IH]; intros s Hs; simpl.
  - rewrite !app_nil_r in *. split; [done|]. split; [reflexivity|done].
  - rewrite Hf. destruct (keep job) eqn:Hk; rewrite ?filter_cons, ?Hk; simpl.
    + destruct (IH (push_queued job s)) as (H1 & H2 & H3 & H4).
      { simpl. rewrite <- app_assoc. destruct Hs. by split. }
      split_and!; [exact H1|destruct H2; by split| |exact H4].
      rewrite H3. simpl. by rewrite <- app_assoc.
    + set (s1 := forget_keys job s <| expired_terminal_jobs ::= λ e, e ++ out job |>).
      destruct (IH s1) as (H1 & H2 & H3 & H4).
      { apply keyed_forget in Hs. destruct Hs. by split. }
      split_and!; [exact H1|destruct H2; by split|exact H3|].
      etransitivity; [exact H4|]. subst s1. simpl. by rewrite <- app_assoc.
Qed.

(** The queue and the expired jobs after an expiry pass. *)
Definition live (now : Z) (q : list TranslationJob) : list TranslationJob :=
  filter (λ job, (now <? tj_deadline_at job) = true) q.
Definition expired_finals (now : Z) (q : list TranslationJob) : list TranslationJob :=
  filter (λ job, is_forced job = false) (filter (λ job, (now <? tj_deadline_at job) = false) q).

Lemma concat_if_filter {A} (p : A → bool) (l : list A) :
  concat ((λ x, if p x then [] else [x]) <$> l) = filter (λ x, p x = false) l.
Proof.
  induction l as [|x l IH]; [done|]. csimpl. rewrite IH, filter_cons. by destruct (p x).
Qed.

Lemma drop_expired_spec now s : keyed s (queued s) →
  let s' := drop_expired_queued_at now s in
  keyed s' (queued s') ∧ frame s s' ∧ queued s' = live now (queued s)
  ∧ expired_terminal_jobs s' = expired_terminal_jobs s ++ expired_finals now (queued s).
Proof.
  intros Hs. unfold drop_expired_queued_at, expired_finals.
  rewrite <- (concat_if_filter is_forced).
  destruct (fold_queue (drop_expired_job now) (λ job, now <? tj_deadline_at job)
              (λ job, if is_forced job then [] else [job])) with (q := queued s) (s := s <| queued := [] |>)
    as (H1 & H2 & H3 & H4).
  - intros s0 job. unfold drop_expired_job.
    destruct (now <? tj_deadline_at job); [done|]. destruct (is_forced job); [|done].
    simpl. unfold forget_keys. destruct s0; simpl. by rewrite app_nil_r.
  - simpl. destruct Hs. by split.
  - split_and!; [exact H1|destruct H2; by split|exact H3|exact H4].
Qed.

Lemma drop_cue_spec cue_id s : keyed s (queued s) →
  let s' := drop_queued_for_cue cue_id s in
  keyed s' (queued s') ∧ frame s s'
  ∧ queued s' = filter (λ job, tj_cue_id job ≠ cue_id) (queued s)
  ∧ expired_terminal_jobs s' = expired_terminal_jobs s.
Proof.
  intros Hs. unfold drop_queued_for_cue.
  destruct (fold_queue (drop_cue_job cue_id) (λ job, negb (bool_decide (tj_cue_id job = cue_id)))
              (λ _, [])) with (q := queued s) (s := s <| queued := [] |>)
    as (H1 & H2 & H3 & H4).
  - intros s0 job. unfold drop_cue_job. case_bool_decide; [|done].
    simpl. unfold forget_keys. destruct s0; simpl. by rewrite app_nil_r.
  - simpl. destruct Hs. by split.
  - split_and!; [exact H1|destruct H2; by split| |].
    + rewrite H3. simpl. apply list_filter_iff. intros job. by case_bool_decide.
    + rewrite H4. simpl. generalize (filter (λ job, negb (bool_decide (tj_cue_id job = cue_id)) = false) (queued s)).
      intros l. assert (concat ((λ _, []) <$> l) = ([] : list TranslationJob)) as -> by by induction l.
      by rewrite app_nil_r.
Qed.

(** ** Removal by key *)

Lemma remove_queued_spec key s : keyed s (queued s) →
  let s' := remove_queued_by_key key s in
  keyed s' (queued s') ∧ frame s s'
  ∧ queued s' = filter (λ job, tj_key job ≠ key) (queued s)
  ∧ expired_terminal_jobs s' = expired_terminal_jobs s.
Proof.
  intros Hs. unfold remove_queued_by_key.
  destruct (position _ _) as [i|] eqn:E.
  - apply position_Some in E as (job & Hi & Hk & Hlt). rewrite Hi.
    apply bool_decide_eq_true in Hk.
    pose proof (take_drop_middle _ _ _ Hi) as Hq.
    split_and!; [| |simpl|done]; cycle 1.
    + by split.
    + rewrite delete_take_drop. rewrite <- Hq at 3.
      rewrite filter_app, filter_cons_False by (rewrite Hk; tauto).
      rewrite <- filter_app. symmetry. apply filter_all. intros x Hx Hxk.
      destruct Hs as [_ Hn _ _]. rewrite <- Hq, fmap_app in Hn. simpl in Hn.
      apply NoDup_app in Hn as (_ & Hd & [Hn _]%NoDup_cons).
      apply elem_of_app in Hx as [Hx|Hx]; apply (list_elem_of_fmap_2 tj_key) in Hx.
      * apply (Hd _ Hx). rewrite Hxk, Hk. left.
      * apply Hn. by rewrite Hk, <- Hxk.
    + simpl. rewrite delete_take_drop. apply (keyed_forget _ _ job).
      rewrite Hq. destruct Hs. by split.
  - assert (Hne : filter (λ job, tj_key job ≠ key) (queued s) = queued s).
    { apply filter_all. intros x Hx. rewrite position_None in E.
      specialize (E x Hx). by apply bool_decide_eq_false in E. }
    by rewrite Hne.
Qed.

Lemma remove_keys_spec keys s : keyed s (queued s) →
  let s' := fold_left (λ s key, remove_queued_by_key key s) keys s in
  keyed s' (queued s') ∧ frame s s'
  ∧ queued s' = filter (λ job, tj_key job ∉ keys) (queued s)
  ∧ expired_terminal_jobs s' = expired_terminal_jobs s.
Proof.
  revert s. induction keys as [|key keys IH]; intros s Hs; simpl.
  - split_and!; [done|done| |done]. symmetry. apply filter_all. intros x _ Hx.
    by apply elem_of_nil in Hx.
  - destruct (remove_queued_spec key s Hs) as (H1 & H2 & H3 & H4).
    destruct (IH _ H1) as (H5 & H6 & H7 & H8).
    split_and!; [done|by etransitivity| |congruence].
    rewrite H7, H3, list_filter_filter. apply list_filter_iff. set_solver.
Qed.

Definition superseding (job : TranslationJob) (q : list TranslationJob) : list TranslationJob :=
  filter (λ q, superseded_by job q = false) q.

Lemma drop_superseded_spec job s : keyed s (queued s) →
  let s' := drop_superseded_preview job s in
  keyed s' (queued s') ∧ frame s s' ∧ queued s' = superseding job (queued s)
  ∧ expired_terminal_jobs s' = expired_terminal_jobs s.
Proof.
  intros Hs. unfold drop_superseded_preview.
  destruct (remove_keys_spec (tj_key <$> filter (λ q, superseded_by job q = true) (queued s)) s Hs)
    as (H1 & H2 & H3 & H4).
  split_and!; [done|done| |done]. rewrite H3. apply filter_ext_elem.
  intros q Hq. rewrite list_elem_of_fmap. split.
  - intros Hn. destruct (superseded_by job q) eqn:E; [|done]. destruct Hn.
    exists q. split; [done|]. by apply list_elem_of_filter.
  - intros E (q' & Hk & [Hq' ?]%list_elem_of_filter).
    rewrite (keyed_unique s _ q q' Hs) in E by done. congruence.
Qed.

(** ** Evictions

    [lighter s s']: some previews left the queue, and nothing else changed. *)
Definition finals : list TranslationJob → list TranslationJob := filter (λ job, is_forced job = false).
Record lighter (s s' : TranslationScheduler) : Prop := {
  lt_keyed : keyed s' (queued s');
  lt_frame : frame s s';
  lt_sublist : sublist (queued s') (queued s);
  lt_finals : finals (queued s') = finals (queued s);
  lt_expired : expired_terminal_jobs s' = expired_terminal_jobs s
}.
Lemma lighter_refl s : keyed s (queued s) → lighter s s.
Proof. intros Hs. by split. Qed.
Lemma lighter_trans s s' s'' : lighter s s' → lighter s' s'' → lighter s s''.
Proof. intros [] []. split; [done|by etransitivity|by etransitivity|congruence|congruence]. Qed.

Lemma lighter_filter (P : TranslationJob → Prop) `{∀ x, Decision (P x)} s s' :
  keyed s' (queued s') → frame s s' → queued s' = filter P (queued s) →
  expired_terminal_jobs s' = expired_terminal_jobs s →
  (∀ job, job ∈ queued s → is_forced job = false → P job) → lighter s s'.
Proof.
  intros H1 H2 H3 H4 H5. split; [done|done|rewrite H3; apply sublist_filter| |done].
  unfold finals. rewrite H3, list_filter_filter. apply filter_ext_elem. naive_solver.
Qed.

Lemma drop_superseded_lighter job s : keyed s (queued s) → lighter s (drop_superseded_preview job s).
Proof.
  intros (H1 & H2 & H3 & H4)%(drop_superseded_spec job).
  eapply lighter_filter; [done|done|exact H3|done|].
  intros q _ Hq. unfold superseded_by. by rewrite Hq, andb_false_r.
Qed.

Lemma evict_spec (o : option TranslationJob) s b s' :
  keyed s (queued s) → (∀ e, o = Some e → e ∈ queued s ∧ is_forced e = true) →
  evict (tj_key <$> o) s = (b, s') →
  if b then ∃ e, o = Some e ∧ lighter s s' ∧ queued s' = filter (λ job, tj_key job ≠ tj_key e) (queued s)
  else o = None ∧ s' = s.
Proof.
  intros Hs Ho. destruct o as [e|]; simpl; intros [= <- <-]; [|done].
  destruct (Ho e eq_refl) as [He Hf]. exists e. split; [done|].
  destruct (remove_queued_spec (tj_key e) s Hs) as (H1 & H2 & H3 & H4). split; [|done].
  eapply lighter_filter; [done|done|exact H3|done|].
  intros job Hj Hfj E. rewrite (keyed_unique s _ job e Hs) in Hfj by done. congruence.
Qed.

Lemma filter_key_shorter (e : TranslationJob) q :
  e ∈ q → (length (filter (λ job, tj_key job ≠ tj_key e) q) < length q)%nat.
Proof. intros He. apply (length_filter_lt _ _ e); [done|]. by intros []. Qed.
Lemma filter_key_count (e : TranslationJob) p q :
  e ∈ q → p e = true →
  (count_if p (filter (λ job, tj_key job ≠ tj_key e) q) < count_if p q)%nat.
Proof.
  intros He Hp. unfold count_if. rewrite list_filter_filter.
  rewrite (filter_ext_elem _ (λ job, tj_key job ≠ tj_key e ∧ p job = true)) by naive_solver.
  rewrite <- list_filter_filter. apply filter_key_shorter. by apply list_elem_of_filter.
Qed.

Definition of_cue (cue_id : string) (job : TranslationJob) : bool := bool_decide (tj_cue_id job = cue_id).

Lemma evict_cue_spec cue_id s b s' :
  keyed s (queued s) → evict_preview_for_cue cue_id s = (b, s') →
  if b then lighter s s' ∧ (length (queued s') < length (queued s))%nat
            ∧ (queued_for_cue cue_id s' < queued_for_cue cue_id s)%nat
            ∧ ∃ e, e ∈ queued s ∧ tj_cue_id e = cue_id ∧ is_forced e = true
  else s' = s ∧ ∀ job, job ∈ queued s → tj_cue_id job = cue_id → is_forced job = false.
Proof.
  intros Hs E. unfold evict_preview_for_cue in E.
  assert (Hf : ∀ e, find (λ job, bool_decide (tj_cue_id job = cue_id) && is_forced job) (queued s) = Some e →
    e ∈ queued s ∧ tj_cue_id e = cue_id ∧ is_forced e = true).
  { intros e [He Hp]%find_some. apply andb_true_iff in Hp as [Hc ?].
    apply bool_decide_eq_true in Hc. by apply list_elem_of_In in He. }
  apply evict_spec in E; [|done|naive_solver]. destruct b.
  - destruct E as (e & He & HL & Hq). destruct (Hf e He) as (Hin & Hc & Hfe).
    split; [done|]. unfold queued_for_cue. rewrite Hq. split_and!.
    + by apply filter_key_shorter.
    + apply filter_key_count; [done|]. by apply bool_decide_eq_true.
    + by exists e.
  - destruct E as [He ->]. split; [done|]. intros job Hj Hc.
    apply list_elem_of_In in Hj. pose proof (find_none _ _ He job Hj) as Hn.
    simpl in Hn. rewrite bool_decide_eq_true_2 in Hn by done. done.
Qed.

(** ** Least elements *)
Class StrictWeak {A} (lt : A → A → bool) : Prop := {
  sw_asym x y : lt x y = true → lt y x = false;
  sw_negtrans x y z : lt x y = false → lt y z = false → lt x z = false
}.
#[export] Instance older_strict_weak : StrictWeak older.
Proof. split; unfold older; intros; lia. Qed.
#[export] Instance before_strict_weak : StrictWeak before.
Proof.
  split; intros x y; [|intros z]; unfold before; cbv zeta;
    generalize (rank_u8 (translation_rank (tj_result x))), (rank_u8 (translation_rank (tj_result y))).
  - intros; lia.
  - generalize (rank_u8 (translation_rank (tj_result z))). intros; lia.
Qed.
Lemma sw_irrefl {A} (lt : A → A → bool) `{!StrictWeak lt} x : lt x x = false.
Proof. destruct (lt x x) eqn:E; [|done]. by rewrite (sw_asym _ _ E) in E. Qed.

Lemma min_by_Some {A} (lt : A → A → bool) `{!StrictWeak lt} l x :
  min_by lt l = Some x → x ∈ l ∧ ∀ y, y ∈ l → lt y x = false.
Proof.
  revert x. induction l as [|a l IH]; intros x; simpl; [done|].
  destruct (min_by lt l) as [m|] eqn:E.
  - destruct (IH m eq_refl) as [Hm Hl]. destruct (lt m a) eqn:Hlt; intros [= <-].
    + split; [by right|]. intros y [->|Hy]%elem_of_cons; [by apply sw_asym|auto].
    + split; [left|]. intros y [->|Hy]%elem_of_cons; [by apply sw_irrefl|].
      by apply (sw_negtrans y m a); auto.
  - intros [= <-]. split; [left|]. destruct l; [|simpl in E; by repeat case_match].
    intros y [->|Hy%elem_of_nil]%elem_of_cons; [by apply sw_irrefl|done].
Qed.
Lemma min_by_None {A} (lt : A → A → bool) l : min_by lt l = None → l = [].
Proof. destruct l; simpl; [done|]. by repeat case_match. Qed.

Lemma evict_oldest_spec s b s' :
  keyed s (queued s) → evict_oldest_preview s = (b, s') →
  if b then lighter s s' ∧ (length (queued s') < length (queued s))%nat
            ∧ ∃ e, e ∈ queued s ∧ is_forced e = true
  else s' = s ∧ ∀ job, job ∈ queued s → is_forced job = false.
Proof.
  intros Hs E. unfold evict_oldest_preview in E.
  assert (Hf : ∀ e, min_by older (filter (λ job, is_forced job = true) (queued s)) = Some e →
    e ∈ queued s ∧ is_forced e = true).
  { intros e [He _]%min_by_Some; [|apply _]. by apply list_elem_of_filter in He as [??]. }
  apply evict_spec in E; [|done|done]. destruct b.
  - destruct E as (e & He & HL & Hq). split; [done|]. rewrite Hq.
    destruct (Hf e He). split; [by apply filter_key_shorter|by exists e].
  - destruct E as [He%min_by_None ->]. split; [done|]. intros job Hj.
    destruct (is_forced job) eqn:E; [|done].
    assert (job ∈ filter (λ job, is_forced job = true) (queued s)) as Hin by by apply list_elem_of_filter.
    rewrite He in Hin. by apply elem_of_nil in Hin.
Qed.

(** ** Work in flight *)
Lemma in_flight_jobs_elem j s : j ∈ in_flight_jobs s ↔ ∃ key, in_flight s !! key = Some j.
Proof.
  unfold in_flight_jobs. rewrite list_elem_of_fmap. split.
  - intros ([key j'] & -> & H%elem_of_map_to_list). by exists key.
  - intros (key & H%elem_of_map_to_list). by exists (key, j).
Qed.

Lemma forced_count_insert s s' key j :
  in_flight s !! key = None → in_flight s' = <[key := j]> (in_flight s) →
  forced_in_flight_count s' = ((if if_is_forced j then 1 else 0) + forced_in_flight_count s)%nat.
Proof.
  intros Hn E. unfold forced_in_flight_count, in_flight_jobs. rewrite E.
  rewrite (count_if_perm _ _ ((key, j) :: map_to_list (in_flight s)).*2)
    by (by rewrite map_to_list_insert).
  csimpl. by rewrite count_if_cons.
Qed.
Lemma forced_count_delete s s' key :
  in_flight s' = delete key (in_flight s) → (forced_in_flight_count s' ≤ forced_in_flight_count s)%nat.
Proof.
  intros E. unfold forced_in_flight_count, in_flight_jobs. rewrite E.
  destruct (in_flight s !! key) as [j|] eqn:Hk.
  - rewrite (count_if_perm _ (map_to_list (in_flight s)).*2
      ((key, j) :: map_to_list (delete key (in_flight s))).*2)
      by (by rewrite map_to_list_delete).
    csimpl. rewrite count_if_cons. lia.
  - by rewrite delete_id.
Qed.

(** ** One round of the dispatch *)
Definition in_flight_of (job : TranslationJob) : InFlightJob := {|
  if_cue_id := tj_cue_id job; if_is_forced := is_forced job;
  if_sentence_work_key := translation_sentence_work_key job |}.

Lemma next_dispatch_Some s index :
  next_dispatch_index s = Some index →
  ∃ job, queued s !! index = Some job ∧ eligible s job = true
    ∧ ∀ job', job' ∈ queued s → eligible s job' = true → before job' job = false.
Proof.
  unfold next_dispatch_index. case_match; [done|].
  intros ([i job] & Hm & ->)%fmap_Some. apply min_by_Some in Hm as [Hin Hmin].
  - apply list_elem_of_filter in Hin as [He Hin]. simpl in He.
    apply elem_of_lookup_imap in Hin as (i' & job' & [= -> ->] & Hi). exists job'.
    split_and!; [done|done|]. intros x [k Hk]%list_elem_of_lookup Hx.
    apply (Hmin (k, x)), list_elem_of_filter. split; [done|].
    apply elem_of_lookup_imap. eauto.
  - split; intros ?; [|intros ??]; intros.
    + by apply sw_asym.
    + by eapply sw_negtrans.
Qed.
Lemma next_dispatch_None s : (size (in_flight s) < max_concurrent s)%nat →
  next_dispatch_index s = None → ∀ job, job ∈ queued s → eligible s job = false.
Proof.
  unfold next_dispatch_index. intros Hlt. rewrite (proj2 (Nat.leb_gt _ _)) by done.
  intros Hm job [i Hi]%list_elem_of_lookup. apply fmap_None, min_by_None in Hm.
  destruct (eligible s job) eqn:E; [|done].
  assert (Hin : (i, job) ∈ filter (λ p, eligible s p.2 = true) (imap (λ i job, (i, job)) (queued s))).
  { apply list_elem_of_filter. split; [done|]. apply elem_of_lookup_imap. eauto. }
  rewrite Hm in Hin. by apply elem_of_nil in Hin.
Qed.

(** What a round takes from the queue and puts in flight. *)
Record dispatched (s : TranslationScheduler) (job : TranslationJob) (s' : TranslationScheduler) : Prop := {
  dp_queue : ∃ q1 q2, queued s = q1 ++ job :: q2 ∧ queued s' = q1 ++ q2;
  dp_keyed : keyed s' (queued s');
  dp_eligible : eligible s job = true;
  dp_least : ∀ job', job' ∈ queued s → eligible s job' = true → before job' job = false;
  dp_room : (size (in_flight s) < max_concurrent s)%nat;
  dp_in_flight : in_flight s' = <[tj_key job := in_flight_of job]> (in_flight s);
  dp_rest : max_concurrent s' = max_concurrent s ∧ max_concurrent_forced s' = max_concurrent_forced s
    ∧ expired_terminal_jobs s' = expired_terminal_jobs s
    ∧ dispatch_not_before s' = dispatch_not_before s
}.
Lemma dispatch_one_Some s job s' : keyed s (queued s) → dispatch_one s = Some (job, s') → dispatched s job s'.
Proof.
  intros Hs. unfold dispatch_one.
  destruct (Nat.ltb_spec (size (in_flight s)) (max_concurrent s)); [|done].
  destruct (next_dispatch_index s) as [i|] eqn:E; [|done].
  apply next_dispatch_Some in E as (job' & Hi & He & Hl). rewrite Hi. intros [= -> <-].
  pose proof (take_drop_middle _ _ _ Hi) as Hq.
  split; simpl; [|..|done]; try done.
  - exists (take i (queued s)), (drop (S i) (queued s)). by rewrite delete_take_drop.
  - rewrite delete_take_drop. rewrite <- Hq in Hs.
    apply keyed_forget in Hs. destruct Hs. by split.
Qed.
Lemma dispatch_one_None s : dispatch_one s = None →
  (max_concurrent s ≤ size (in_flight s))%nat ∨ ∀ job, job ∈ queued s → eligible s job = false.
Proof.
  unfold dispatch_one. destruct (Nat.ltb_spec (size (in_flight s)) (max_concurrent s)); [|by left].
  destruct (next_dispatch_index s) as [i|] eqn:E.
  - apply next_dispatch_Some in E as (job' & -> & _). done.
  - intros _. right. by apply next_dispatch_None.
Qed.
Lemma dispatched_length s job s' : dispatched s job s' → length (queued s) = S (length (queued s')).
Proof. intros [(q1 & q2 & -> & ->) _ _ _ _ _ _]. rewrite !length_app. simpl. lia. Qed.
Lemma dispatched_perm s job s' : dispatched s job s' → queued s ≡ₚ job :: queued s'.
Proof. intros [(q1 & q2 & -> & ->) _ _ _ _ _ _]. by rewrite Permutation_middle. Qed.
