(* ===== verification/TranslationSchedulerTheorems.v ===== *)
(** * What the translation scheduler guarantees

    Bounds and duplicate suppression in every reachable state, exactly when a
    job is refused, the order and completeness of a dispatch, and that no final
    translation is lost. *)
From stdpp Require Import sorting.
From S2P Require Import Prelude RustStr TranslationScheduler TranslationSchedulerFacts.

#[local] Opaque MAX_QUEUED_TRANSLATIONS MAX_QUEUED_TRANSLATIONS_PER_CUE.

(** ** Enqueueing *)

(** Room is made only from previews, so these queues have none to give. *)
Definition full_of_finals (job : TranslationJob) (q : list TranslationJob) : Prop :=
  ((MAX_QUEUED_TRANSLATIONS_PER_CUE ≤ count_if (of_cue (tj_cue_id job)) q)%nat
   ∧ ∀ j, j ∈ q → tj_cue_id j = tj_cue_id job → is_forced j = false)
  ∨ ((MAX_QUEUED_TRANSLATIONS ≤ length q)%nat ∧ ∀ j, j ∈ q → is_forced j = false).

Record bounded (s : TranslationScheduler) : Prop := {
  bd_length : (length (queued s) ≤ MAX_QUEUED_TRANSLATIONS)%nat;
  bd_per_cue : ∀ cue_id, (queued_for_cue cue_id s ≤ MAX_QUEUED_TRANSLATIONS_PER_CUE)%nat
}.

Lemma bounded_sublist s s' : bounded s → sublist (queued s') (queued s) → bounded s'.
Proof.
  intros [H1 H2] Hl. split.
  - apply sublist_length in Hl. lia.
  - intros c. specialize (H2 c). unfold queued_for_cue in *.
    pose proof (count_if_sublist (λ q, bool_decide (tj_cue_id q = c)) _ _ Hl). lia.
Qed.

(** Superseding a preview leaves room for the job that superseded it. *)
Lemma superseding_cases job q :
  superseding job q = q
  ∨ (∃ e, e ∈ q ∧ tj_cue_id e = tj_cue_id job ∧ is_forced e = true)
    ∧ (length (superseding job q) < length q)%nat
    ∧ (count_if (of_cue (tj_cue_id job)) (superseding job q) < count_if (of_cue (tj_cue_id job)) q)%nat.
Proof.
  destruct (existsb (superseded_by job) q) eqn:Ex.
  - right. apply existsb_exists in Ex as (e & He%list_elem_of_In & Hs). pose proof Hs as Hs'. unfold superseded_by, translation_supersession_key in Hs'. bool_hyps.
    assert (tj_cue_id e = tj_cue_id job) as Hc by congruence.
    split_and!; [by exists e|apply (length_filter_lt _ _ e); [done|congruence]|].
    unfold count_if, superseding. rewrite list_filter_filter.
    rewrite (filter_ext_elem _ (λ q, superseded_by job q = false ∧ of_cue (tj_cue_id job) q = true)) by naive_solver.
    rewrite <- list_filter_filter. apply (length_filter_lt _ _ e); [|congruence].
    apply list_elem_of_filter. split; [by apply bool_decide_eq_true|done].
  - left. apply filter_all. by apply existsb_false.
Qed.

Lemma superseding_id job s : superseding job (queued s) = queued s → drop_superseded_preview job s = s.
Proof.
  intros H. unfold drop_superseded_preview.
  assert (filter (λ q, superseded_by job q = true) (queued s) = []) as ->; [|done].
  rewrite <- H. unfold superseding. rewrite list_filter_filter.
  generalize (queued s). intros q. induction q as [|x q IH]; [done|].
  rewrite filter_cons_False by naive_solver congruence. done.
Qed.

Lemma preview_makes_room job q e :
  e ∈ q → tj_cue_id e = tj_cue_id job → is_forced e = true → ¬ full_of_finals job q.
Proof. intros He Hc Hf [[_ H]|[_ H]]; [specialize (H e He Hc)|specialize (H e He)]; congruence. Qed.

(** What enqueueing does after the expiry pass. *)
Definition enqueue_outcome (job : TranslationJob) (now : Z) (s0 : TranslationScheduler)
    (r : TranslationEnqueueResult) (s' : TranslationScheduler) : Prop :=
  match r with
  | RejectedExpired => s' = s0 ∧ tj_deadline_at job ≤ now
  | Duplicate => s' = s0 ∧ now < tj_deadline_at job ∧ is_duplicate job s0 = true
  | RejectedOverflow =>
      s' = s0 ∧ now < tj_deadline_at job ∧ is_duplicate job s0 = false
      ∧ full_of_finals job (queued s0)
  | Enqueued =>
      now < tj_deadline_at job ∧ is_duplicate job s0 = false
      ∧ ¬ full_of_finals job (queued s0)
      ∧ ∃ kept, queued s' = kept ++ [job]
          ∧ sublist kept (queued s0) ∧ finals kept = finals (queued s0)
          ∧ (length kept < MAX_QUEUED_TRANSLATIONS)%nat
          ∧ (count_if (of_cue (tj_cue_id job)) kept < MAX_QUEUED_TRANSLATIONS_PER_CUE)%nat
          ∧ keyed s' (queued s') ∧ frame s0 s'
          ∧ expired_terminal_jobs s' = expired_terminal_jobs s0
  end.

Lemma enqueue_spec job now s :
  keyed s (queued s) → bounded s →
  let '(r, s') := enqueue_with_result_at job now s in
  enqueue_outcome job now (drop_expired_queued_at now s) r s'.
Proof.
  intros Hs Hb. unfold enqueue_with_result_at.
  destruct (drop_expired_spec now s Hs) as (Hs0 & _ & Hq & _).
  assert (Hb0 : bounded (drop_expired_queued_at now s)).
  { eapply bounded_sublist; [done|]. rewrite Hq. apply sublist_filter. }
  clear Hq Hb Hs. set (s0 := drop_expired_queued_at now s) in *. clearbody s0.
  destruct (Z.leb_spec (tj_deadline_at job) now); [done|].
  destruct (is_duplicate job s0) eqn:Hd; [done|].
  destruct Hb0 as [Hlen Hcue]. specialize (Hcue (tj_cue_id job)).
  pose proof (drop_superseded_lighter job s0 Hs0) as H1.
  pose proof (superseding_cases job (queued s0)) as Hsup.
  pose proof (drop_superseded_spec job s0 Hs0) as (_ & _ & Hq1 & _).
  pose proof (superseding_id job s0) as Hid.
  rewrite <- Hq1 in Hsup, Hid. clear Hq1.
  set (s1 := drop_superseded_preview job s0) in *. clearbody s1.
  assert (Hdone : ∀ s2, lighter s0 s2 →
    (length (queued s2) < MAX_QUEUED_TRANSLATIONS)%nat →
    (queued_for_cue (tj_cue_id job) s2 < MAX_QUEUED_TRANSLATIONS_PER_CUE)%nat →
    ¬ full_of_finals job (queued s0) →
    enqueue_outcome job now s0 Enqueued (push_queued job
      (s2 <| queued_keys ::= λ ks, {[tj_key job]} ∪ ks |>
          <| queued_sentence_keys ::= λ ks, {[translation_sentence_work_key job]} ∪ ks |>))).
  { intros s2 [Hk Hf Hsub Hfin He] HL HC Hn. split_and!; [done|done|done|].
    exists (queued s2). split_and!; try done; [|destruct Hf; by split].
    assert (Hq : ∀ x, x ∈ queued s2 → x ∈ queued s0) by (intros x Hx; by eapply elem_of_sublist).
    unfold is_duplicate in Hd. bool_hyps. destruct Hs0 as [E1 _ E2 _].
    rewrite E1 in *. rewrite E2 in *.
    destruct (keyed_push s2 (queued s2) job Hk) as [? ? ? ?]; [| |by split].
    - destruct Hk as [-> _ _ _]. set_solver.
    - destruct Hk as [_ _ -> _]. set_solver. }
  unfold queued_for_cue in *. fold (of_cue (tj_cue_id job)) in *.
  destruct (Nat.leb_spec MAX_QUEUED_TRANSLATIONS_PER_CUE (count_if (of_cue (tj_cue_id job)) (queued s1))) as [Hfull|Hroom].
  - assert (s1 = s0) as ->. { destruct Hsup as [?|(_ & _ & ?)]; [by apply Hid|lia]. }
    destruct (evict_preview_for_cue _ s0) as [b s2] eqn:E. apply evict_cue_spec in E; [|done].
    destruct b; simpl.
    + destruct E as (HL & Hl2 & Hc2 & e & He & Hec & Hef).
      destruct (Nat.leb_spec MAX_QUEUED_TRANSLATIONS (length (queued s2))); [lia|].
      apply Hdone; [done|done|unfold queued_for_cue, of_cue in *; lia|by eapply preview_makes_room].
    + destruct E as [-> E]. split_and!; [done|done|done|]. by left.
  - destruct (Nat.leb_spec MAX_QUEUED_TRANSLATIONS (length (queued s1))) as [Hfull|Hroom2].
    + assert (s1 = s0) as ->. { destruct Hsup as [?|(_ & ? & _)]; [by apply Hid|lia]. }
      destruct (evict_oldest_preview s0) as [b s2] eqn:E. apply evict_oldest_spec in E; [|done].
      destruct b; simpl.
      * destruct E as (HL & Hl2 & e & He & Hef). apply Hdone; [done|lia| |].
        -- destruct HL as [_ _ Hsub _ _]. apply (count_if_sublist (of_cue (tj_cue_id job))) in Hsub. lia.
        -- intros [[? _]|[_ Hn]]; [lia|]. specialize (Hn e He). congruence.
      * destruct E as [-> E]. split_and!; [done|done|done|]. by right.
    + apply Hdone; [done|lia|lia|]. destruct Hsup as [Heq|((e & He & Hec & Hef) & _)].
      * rewrite Heq in *. intros [[? _]|[? _]]; lia.
      * by eapply preview_makes_room.
Qed.

(** ** The invariant *)
Record scheduler_inv (s : TranslationScheduler) : Prop := {
  si_keyed : keyed s (queued s);
  si_bounded : bounded s;
  si_apart : ∀ job, job ∈ queued s → in_flight s !! tj_key job = None;
  si_work_apart : ∀ job key j, job ∈ queued s → in_flight s !! key = Some j →
    if_sentence_work_key j ≠ translation_sentence_work_key job;
  si_flight_work : ∀ k1 k2 j1 j2, in_flight s !! k1 = Some j1 → in_flight s !! k2 = Some j2 →
    if_sentence_work_key j1 = if_sentence_work_key j2 → k1 = k2;
  si_forced : (forced_in_flight_count s ≤ max_concurrent_forced s)%nat;
  si_expired : Forall (λ job, is_forced job = false) (expired_terminal_jobs s)
}.

Lemma inv_new m f : scheduler_inv (new m f).
Proof.
  assert (Hi : ∀ k, in_flight (new m f) !! k = None) by (intros k; apply lookup_empty).
  split.
  - split; try done; constructor.
  - split; [simpl; lia|]. intros c. unfold queued_for_cue, count_if. simpl. lia.
  - intros job Hj. by apply elem_of_nil in Hj.
  - intros job key j Hj. by apply elem_of_nil in Hj.
  - intros k1 k2 j1 j2. by rewrite Hi.
  - unfold forced_in_flight_count, in_flight_jobs. simpl. rewrite map_to_list_empty.
    unfold count_if. simpl. lia.
  - constructor.
Qed.

(** Jobs leave the queue, and nothing else grows but the expired finals. *)
Lemma inv_shrink s s' :
  scheduler_inv s → keyed s' (queued s') → frame s s' → sublist (queued s') (queued s) →
  Forall (λ job, is_forced job = false) (expired_terminal_jobs s') → scheduler_inv s'.
Proof.
  intros [? ? ? ? ? ? ?] Hk [E1 E2 E3 E4] Hl He.
  assert (Hq : ∀ x, x ∈ queued s' → x ∈ queued s) by (intros x Hx; by eapply elem_of_sublist).
  split; [done|by eapply bounded_sublist|..|done]; rewrite ?E1; eauto.
  unfold forced_in_flight_count, in_flight_jobs in *. by rewrite E1, E3.
Qed.

Lemma expired_finals_ok now q : Forall (λ job, is_forced job = false) (expired_finals now q).
Proof. apply Forall_forall. intros x Hx. by apply list_elem_of_filter in Hx as [? _]. Qed.

Lemma inv_drop_expired now s : scheduler_inv s → scheduler_inv (drop_expired_queued_at now s).
Proof.
  intros Hs. destruct (drop_expired_spec now s (si_keyed _ Hs)) as (H1 & H2 & H3 & H4).
  eapply inv_shrink; [done|done|done|rewrite H3; apply sublist_filter|].
  rewrite H4, Forall_app. split; [apply Hs|apply expired_finals_ok].
Qed.

Lemma is_duplicate_false job s : is_duplicate job s = false →
  in_flight s !! tj_key job = None
  ∧ ∀ key j, in_flight s !! key = Some j → if_sentence_work_key j ≠ translation_sentence_work_key job.
Proof.
  unfold is_duplicate. intros H. bool_hyps. split; [done|]. intros key j Hj E.
  match goal with H : existsb _ _ = false |- _ => rewrite existsb_false in H; specialize (H j) end.
  rewrite in_flight_jobs_elem in *. rewrite E, bool_decide_eq_true_2 in * by done. naive_solver.
Qed.

Lemma inv_enqueue job now s : scheduler_inv s → scheduler_inv (enqueue_with_result_at job now s).2.
Proof.
  intros Hs. pose proof (enqueue_spec job now s (si_keyed _ Hs) (si_bounded _ Hs)) as Ho.
  apply (inv_drop_expired now) in Hs. set (s0 := drop_expired_queued_at now s) in *. clearbody s0.
  destruct (enqueue_with_result_at job now s) as [r s']. simpl. destruct r; simpl in Ho; [|(by destruct Ho as [-> _])..].
  destruct Ho as (_ & Hd & _ & kept & Hq & Hsub & _ & Hl & Hc & Hk & [E1 E2 E3 E4] & Ee).
  apply is_duplicate_false in Hd as [Hd1 Hd2].
  destruct Hs as [_ [_ Hb] Ha Hw Hf Hfo Hx].
  assert (Hin : ∀ x, x ∈ queued s' → x = job ∨ x ∈ queued s0).
  { intros x. rewrite Hq, elem_of_app, list_elem_of_singleton.
    intros [Hy|Hy]; [right; by eapply elem_of_sublist|by left]. }
  split; rewrite ?E1, ?Ee; try done.
  - split.
    + rewrite Hq, length_app. simpl. lia.
    + intros c. unfold queued_for_cue. rewrite Hq, count_if_app, count_if_cons.
      specialize (Hb c). unfold queued_for_cue in Hb.
      apply (count_if_sublist (of_cue c)) in Hsub. unfold of_cue in *.
      change (count_if (λ q, bool_decide (tj_cue_id q = c)) []) with O.
      case_bool_decide; [subst c|]; lia.
  - intros x Hx2. destruct (Hin x Hx2) as [->|?]; auto.
  - intros x key j Hx2. destruct (Hin x Hx2) as [->|?]; eauto.
  - unfold forced_in_flight_count, in_flight_jobs in *. by rewrite E1, E3.
Qed.

Lemma inv_dispatched s job s' : scheduler_inv s → dispatched s job s' → scheduler_inv s'.
Proof.
  intros [Hk Hb Ha Hw Hf Hfo Hx] [(q1 & q2 & E1 & E2) Hk' He _ _ Ei (Em & Emf & Ee & _)].
  assert (Hsub : sublist (queued s') (queued s)).
  { rewrite E1, E2. apply sublist_app; [done|by constructor]. }
  assert (Hj : job ∈ queued s) by (rewrite E1; set_solver).
  assert (Hne : ∀ x, x ∈ queued s' → x ∈ queued s ∧ tj_key x ≠ tj_key job
                ∧ translation_sentence_work_key x ≠ translation_sentence_work_key job).
  { intros x Hin. split; [by eapply elem_of_sublist|].
    destruct Hk as [_ Hn _ Hwn]. rewrite E1, fmap_app, fmap_cons in Hn, Hwn. rewrite E2 in Hin.
    apply NoDup_middle_fresh in Hn, Hwn. rewrite <- fmap_app in Hn, Hwn.
    split; intros E; [apply Hn|apply Hwn]; rewrite <- E; by apply list_elem_of_fmap_2. }
  specialize (Ha job Hj) as Hfresh.
  split; [done|by eapply bounded_sublist|..]; rewrite ?Ei, ?Ee, ?Emf; try done.
  - intros x Hin. destruct (Hne x Hin) as (Hx1 & Hx2 & _). by rewrite lookup_insert_ne, Ha.
  - intros x key j Hin [[<- <-]|[_ Hj']]%lookup_insert_Some; simpl.
    + destruct (Hne x Hin) as (_ & _ & ?). congruence.
    + by eapply Hw; [apply Hne|].
  - intros k1 k2 j1 j2 [[<- <-]|[? H1]]%lookup_insert_Some [[<- <-]|[? H2]]%lookup_insert_Some;
      simpl; intros E; [done|by destruct (Hw _ _ _ Hj H2)|by destruct (Hw _ _ _ Hj H1)|eauto].
  - rewrite (forced_count_insert _ _ _ _ Hfresh Ei). simpl. unfold eligible in He.
    destruct (is_forced job); simpl in *; [apply Nat.ltb_lt in He|]; lia.
Qed.

(** ** The dispatch loop *)

(** A job eligible later in a dispatch was eligible before. *)
Lemma eligible_mono s s' job :
  (forced_in_flight_count s ≤ forced_in_flight_count s')%nat →
  max_concurrent_forced s' = max_concurrent_forced s →
  eligible s' job = true → eligible s job = true.
Proof.
  unfold eligible. intros Hc ->. destruct (is_forced job); simpl; [|done].
  rewrite !Nat.ltb_lt. lia.
Qed.

(** Jobs put in flight: the later ones under their keys, too. *)
Definition flight_of (jobs : list TranslationJob) : gmap string InFlightJob :=
  list_to_map ((λ job, (tj_key job, in_flight_of job)) <$> jobs).

Record loop_result (s : TranslationScheduler) (jobs : list TranslationJob)
    (s' : TranslationScheduler) : Prop := {
  lr_inv : scheduler_inv s';
  lr_done : dispatch_one s' = None;
  lr_perm : queued s ≡ₚ jobs ++ queued s';
  lr_flight : in_flight s' = flight_of jobs ∪ in_flight s;
  lr_sorted : StronglySorted (λ a b, before b a = false) jobs;
  lr_eligible : ∀ job, job ∈ jobs → eligible s job = true;
  lr_least : ∀ job job', job ∈ jobs → job' ∈ queued s' → eligible s' job' = true →
    before job' job = false;
  lr_forced : (forced_in_flight_count s ≤ forced_in_flight_count s')%nat;
  lr_room : (size (in_flight s') ≤ Nat.max (size (in_flight s)) (max_concurrent s))%nat;
  lr_rest : max_concurrent s' = max_concurrent s
    ∧ max_concurrent_forced s' = max_concurrent_forced s
    ∧ expired_terminal_jobs s' = expired_terminal_jobs s
    ∧ dispatch_not_before s' = dispatch_not_before s
}.

Lemma loop_result_stop s : scheduler_inv s → dispatch_one s = None → loop_result s [] s.
Proof.
  intros Hs Hd. split; try done; try constructor; try set_solver; try lia.
  unfold flight_of. simpl. by rewrite (left_id_L ∅ (∪)).
Qed.

Lemma loop_result_step s job s1 jobs s' :
  scheduler_inv s → dispatched s job s1 → loop_result s1 jobs s' → loop_result s (job :: jobs) s'.
Proof.
  intros Hs Hd [Hi Hn Hp Hfl Hso Hel Hle Hfo Hro (R1 & R2 & R3 & R4)].
  pose proof (dispatched_perm _ _ _ Hd) as Hperm.
  destruct Hd as [_ _ He Hl Hroom Hif (M1 & M2 & M3 & M4)].
  assert (Hjob : job ∈ queued s) by (rewrite Hperm; left).
  pose proof (si_apart _ Hs job Hjob) as Hfresh.
  pose proof (forced_count_insert _ _ _ _ Hfresh Hif) as Hcount. simpl in Hcount.
  assert (Hnotin : tj_key job ∉ tj_key <$> jobs).
  { pose proof (kd_nodup _ _ (si_keyed _ Hs)) as Hnd. rewrite Hperm, Hp in Hnd.
    rewrite fmap_cons, fmap_app in Hnd. apply NoDup_cons in Hnd as [Hnd _]. set_solver. }
  assert (Hmono : ∀ x, eligible s1 x = true → eligible s x = true).
  { intros x. by apply eligible_mono; [lia|]. }
  assert (Hmono' : ∀ x, eligible s' x = true → eligible s x = true).
  { intros x. apply eligible_mono; [lia|congruence]. }
  assert (Hafter : ∀ x, x ∈ jobs ++ queued s' → x ∈ queued s).
  { intros x Hx. rewrite Hperm, Hp. by right. }
  split; try done; try lia; [by rewrite Hperm, Hp| | | | | |].
  - rewrite Hfl, Hif. unfold flight_of. rewrite fmap_cons. simpl.
    rewrite <- insert_union_l, insert_union_r; [done|].
    apply not_elem_of_list_to_map_1. rewrite <- list_fmap_compose. done.
  - constructor; [done|]. apply Forall_forall. intros x Hx.
    apply Hl; [apply Hafter; set_solver|by apply Hmono, Hel].
  - intros x [->|Hx]%elem_of_cons; [done|]. by apply Hmono, Hel.
  - intros x x' [->|Hx]%elem_of_cons Hx' He'; [|by eapply Hle].
    apply Hl; [apply Hafter; set_solver|by apply Hmono'].
  - rewrite Hif, map_size_insert_None in Hro by done. lia.
  - split_and!; congruence.
Qed.

Lemma dispatch_loop_spec fuel s :
  scheduler_inv s → (length (queued s) ≤ fuel)%nat →
  loop_result s (dispatch_loop fuel s).1 (dispatch_loop fuel s).2.
Proof.
  revert s. induction fuel as [|fuel IH]; intros s Hs Hf; simpl.
  - apply loop_result_stop; [done|]. unfold dispatch_one.
    destruct (queued s) eqn:E; [|simpl in Hf; lia]. by repeat case_match.
  - destruct (dispatch_one s) as [[job s1]|] eqn:E; [|by apply loop_result_stop].
    apply dispatch_one_Some in E; [|apply Hs].
    specialize (IH s1 (inv_dispatched _ _ _ Hs E)). pose proof (dispatched_length _ _ _ E).
    destruct (dispatch_loop fuel s1) as [jobs s']. simpl in *.
    eapply loop_result_step; [done|exact E|]. apply IH. lia.
Qed.

Definition deferred (now' : Z) (s : TranslationScheduler) : bool :=
  match dispatch_not_before s with Some not_before => now' <? not_before | None => false end.

Lemma dispatch_ready_spec now now' s : scheduler_inv s →
  let s0 := drop_expired_queued_at now s in
  if deferred now' s0 then dispatch_ready now now' s = ([], s0)
  else loop_result (s0 <| dispatch_not_before := None |>)
         (dispatch_ready now now' s).1 (dispatch_ready now now' s).2.
Proof.
  intros Hs. unfold dispatch_ready. fold (deferred now' (drop_expired_queued_at now s)).
  pose proof (inv_drop_expired now s Hs) as H0. set (s0 := drop_expired_queued_at now s) in *.
  clearbody s0. destruct (deferred now' s0); [done|].
  apply dispatch_loop_spec; [|done]. destruct H0 as [[] [] ? ? ? ? ?]. by repeat split.
Qed.

(** ** One operation, and a run *)
Lemma filter_cue_split c (q : list TranslationJob) :
  filter (λ job, tj_cue_id job = c) q ++ filter (λ job, tj_cue_id job ≠ c) q ≡ₚ q.
Proof.
  transitivity (filter (λ j, of_cue c j = true) q ++ filter (λ j, of_cue c j = false) q);
    [|by rewrite <- filter_split].
  apply reflexive_eq. f_equal; apply list_filter_iff; intros x;
    unfold of_cue; by case_bool_decide.
Qed.
Lemma finals_app q1 q2 : finals (q1 ++ q2) = finals q1 ++ finals q2.
Proof. apply filter_app. Qed.
Lemma finals_perm q1 q2 : q1 ≡ₚ q2 → finals q1 ≡ₚ finals q2.
Proof. intros H. unfold finals. by rewrite H. Qed.
Lemma finals_live now q : finals q ≡ₚ finals (live now q) ++ expired_finals now q.
Proof.
  unfold expired_finals. rewrite (finals_perm _ _ (filter_split (λ j, now <? tj_deadline_at j) q)).
  by rewrite finals_app.
Qed.

(** The finals an operation took in are those it handed over or still holds,
    and it hands over and keeps only jobs it had. *)
Record accounted (s : TranslationScheduler) (h : Handed) (s' : TranslationScheduler) : Prop := {
  ac_finals : finals (accepted h ++ queued s) ++ expired_terminal_jobs s
    ≡ₚ finals (spawned h ++ discarded h ++ queued s') ++ taken h ++ expired_terminal_jobs s';
  ac_all : spawned h ++ discarded h ++ queued s' ⊆+ accepted h ++ queued s;
  ac_cap : max_concurrent_forced s' = max_concurrent_forced s
}.

Lemma accounted_kept s s' :
  finals (queued s) ++ expired_terminal_jobs s ≡ₚ finals (queued s') ++ expired_terminal_jobs s' →
  sublist (queued s') (queued s) → max_concurrent_forced s' = max_concurrent_forced s →
  accounted s nothing s'.
Proof. intros H1 H2 H3. split; [done|by apply sublist_submseteq|done]. Qed.

Lemma accounted_drop_expired now s : scheduler_inv s → accounted s nothing (drop_expired_queued_at now s).
Proof.
  intros Hs. destruct (drop_expired_spec now s (si_keyed _ Hs)) as (_ & [_ _ H2 _] & H3 & H4).
  apply accounted_kept; [|rewrite H3; apply sublist_filter|done].
  rewrite H3, H4, (finals_live now (queued s)), <- app_assoc.
  by rewrite (Permutation_app_comm (expired_finals _ _)).
Qed.

Lemma accounted_trans s h s1 h' s' :
  accounted s h s1 → accounted s1 h' s' → accounted s (handed_app h h') s'.
Proof.
  intros [F1 A1 C1] [F2 A2 C2]. split; simpl; [| |congruence].
  - rewrite !finals_app in *. rewrite <- !app_assoc in *.
    transitivity (finals (accepted h') ++ (finals (accepted h) ++ finals (queued s) ++ expired_terminal_jobs s));
      [solve_Permutation|].
    rewrite F1.
    transitivity (finals (spawned h) ++ finals (discarded h) ++ taken h
      ++ (finals (accepted h') ++ finals (queued s1) ++ expired_terminal_jobs s1)); [solve_Permutation|].
    rewrite F2. solve_Permutation.
  - transitivity (spawned h ++ discarded h ++ (spawned h' ++ discarded h' ++ queued s')).
    { apply Permutation_submseteq. solve_Permutation. }
    etransitivity; [do 2 apply submseteq_skips_l; exact A2|].
    transitivity (accepted h' ++ (spawned h ++ discarded h ++ queued s1)).
    { apply Permutation_submseteq. solve_Permutation. }
    etransitivity; [apply submseteq_skips_l; exact A1|].
    apply Permutation_submseteq. solve_Permutation.
Qed.
Lemma accounted_after s s1 h s' : accounted s nothing s1 → accounted s1 h s' → accounted s h s'.
Proof. destruct h as [a b c d]. apply accounted_trans. Qed.

Lemma exec_accounted op s : scheduler_inv s →
  let '(h, s') := exec_scheduler op s in scheduler_inv s' ∧ accounted s h s'.
Proof.
  intros Hs. destruct op as [job now|now now'|key| |cue_id|delay now|max]; simpl.
  - pose proof (inv_enqueue job now s Hs) as Hi.
    pose proof (enqueue_spec job now s (si_keyed _ Hs) (si_bounded _ Hs)) as Ho.
    destruct (enqueue_with_result_at job now s) as [r s']. split; [done|].
    apply (accounted_after _ _ _ _ (accounted_drop_expired now s Hs)).
    apply (inv_drop_expired now) in Hs. set (s0 := drop_expired_queued_at now s) in *. clearbody s0.
    destruct r; simpl in Ho; [|(by destruct Ho as [-> _])..].
    destruct Ho as (_ & _ & _ & kept & Hq & Hsub & Hf & _ & _ & _ & [_ _ E3 _] & Ee).
    split; simpl; [| |done].
    + rewrite Hq, Ee. change (job :: queued s0) with ([job] ++ queued s0).
      rewrite !finals_app, <- Hf. solve_Permutation.
    + rewrite Hq. transitivity (job :: kept); [apply Permutation_submseteq; solve_Permutation|].
      by apply submseteq_skip, sublist_submseteq.
  - pose proof (dispatch_ready_spec now now' s Hs) as Hd.
    pose proof (accounted_drop_expired now s Hs) as Ha. apply (inv_drop_expired now) in Hs.
    set (s0 := drop_expired_queued_at now s) in *. clearbody s0.
    cbv zeta in Hd. revert Hd. destruct (deferred now' s0); [by intros ->|].
    destruct (dispatch_ready now now' s) as [jobs s']. simpl. intros Hd.
    destruct Hd as [Hi _ Hp _ _ _ _ _ _ (_ & R2 & R3 & _)]. split; [done|].
    apply (accounted_after _ _ _ _ Ha). simpl in *.
    split; simpl; [|by apply Permutation_submseteq|done].
    by rewrite R3, (finals_perm _ _ Hp).
  - split; [|by apply accounted_kept].
    destruct Hs as [[] [] Ha Hw Hf Hfo Hx].
    split; simpl; [by split|by split|..|done].
    + intros job Hj. rewrite lookup_delete_None. right. by apply Ha.
    + intros job k j Hj [_ Hl]%lookup_delete_Some. by eapply Hw.
    + intros k1 k2 j1 j2 [_ ?]%lookup_delete_Some [_ ?]%lookup_delete_Some. by eapply Hf.
    + etransitivity; [by eapply (forced_count_delete s)|done].
  - split; [destruct Hs as [[] [] ? ? ? ? ?]; split; try done; by constructor|].
    split; simpl; [by rewrite app_nil_r|done|done].
  - destruct (drop_cue_spec cue_id s (si_keyed _ Hs)) as (H1 & H2 & H3 & H4). split.
    { eapply inv_shrink; [done..|rewrite H3; apply sublist_filter|rewrite H4; apply Hs]. }
    split; simpl; [| |by destruct H2].
    + rewrite H3, H4. by rewrite (finals_perm _ _ (filter_cue_split _ _)).
    + rewrite H3. by apply Permutation_submseteq, filter_cue_split.
  - split; [|by unfold defer_dispatch_for; case_match; apply accounted_kept].
    unfold defer_dispatch_for. case_match; [done|]. destruct Hs as [[] [] ? ? ? ? ?]. by repeat split.
  - split; [|done]. destruct Hs as [[] [] ? ? ? ? ?]. by repeat split.
Qed.

Lemma exec_cap op s : scheduler_inv s →
  let s' := (exec_scheduler op s).2 in
  (size (in_flight s') ≤ Nat.max (size (in_flight s)) (max_concurrent s))%nat
  ∧ max_concurrent s' = match op with OpSetMax max => Nat.max max 1 | _ => max_concurrent s end.
Proof.
  intros Hs. destruct op as [job now|now now'|key| |cue_id|delay now|max]; simpl; try lia.
  - pose proof (enqueue_spec job now s (si_keyed _ Hs) (si_bounded _ Hs)) as Ho.
    destruct (drop_expired_spec now s (si_keyed _ Hs)) as (_ & [E1 E2 _ _] & _).
    destruct (enqueue_with_result_at job now s) as [r s']. simpl.
    assert (in_flight s' = in_flight s ∧ max_concurrent s' = max_concurrent s) as [-> ->]; [|lia].
    destruct r; simpl in Ho; [|(by destruct Ho as [-> _])..].
    destruct Ho as (_ & _ & _ & kept & _ & _ & _ & _ & _ & _ & [E3 E4 _ _] & _).
    split; congruence.
  - pose proof (dispatch_ready_spec now now' s Hs) as Hd.
    destruct (drop_expired_spec now s (si_keyed _ Hs)) as (_ & [E1 E2 _ _] & _).
    cbv zeta in Hd. revert Hd. destruct (deferred now' _).
    + intros ->. simpl. rewrite E1, E2. lia.
    + destruct (dispatch_ready now now' s) as [jobs s']. simpl.
      intros [_ _ _ _ _ _ _ _ Hr (R1 & _)]. simpl in *. rewrite E1, E2 in Hr. split; [done|congruence].
  - split; [|done]. destruct (in_flight s !! key) eqn:E.
    + rewrite map_size_delete_Some by done. lia.
    + rewrite delete_id by done. lia.
  - destruct (drop_cue_spec cue_id s (si_keyed _ Hs)) as (_ & [-> -> _ _] & _). lia.
  - unfold defer_dispatch_for. case_match; simpl; lia.
Qed.

(** The largest cap in force at some point of the run. *)
Definition highest_cap (ops : list SchedulerOp) (cap : nat) : nat :=
  foldr (λ op cap, match op with OpSetMax max => Nat.max (Nat.max max 1) cap | _ => cap end) cap ops.

Lemma exec_ops_spec ops s cap : scheduler_inv s →
  (size (in_flight s) ≤ cap)%nat → (max_concurrent s ≤ cap)%nat →
  let '(h, s') := exec_scheduler_ops ops s in
  scheduler_inv s' ∧ accounted s h s' ∧ (size (in_flight s') ≤ highest_cap ops cap)%nat
  ∧ (cap ≤ highest_cap ops cap)%nat.
Proof.
  revert s cap. induction ops as [|op ops IH]; intros s cap Hs H1 H2; simpl.
  - split_and!; [done|by apply accounted_kept|done|done].
  - pose proof (exec_accounted op s Hs) as Ha. pose proof (exec_cap op s Hs) as [Hc1 Hc2].
    destruct (exec_scheduler op s) as [h s1]. destruct Ha as [Hs1 Ha]. simpl in *.
    set (cap' := Nat.max (match op with OpSetMax max => Nat.max max 1 | _ => O end) cap).
    specialize (IH s1 cap' Hs1). destruct (exec_scheduler_ops ops s1) as [h' s'].
    destruct IH as (Hs' & Ha' & Hsz & _).
    { unfold cap'. lia. }
    { rewrite Hc2. unfold cap'. destruct op; lia. }
    assert (Hm : highest_cap ops cap' = Nat.max (match op with OpSetMax max => Nat.max max 1 | _ => O end)
                   (highest_cap ops cap)).
    { clear. subst cap'. induction ops as [|op' ops IH]; simpl; [done|]. destruct op'; lia. }
    assert (Hm' : (cap ≤ highest_cap ops cap)%nat).
    { clear. induction ops as [|op' ops IH]; simpl; [done|]. destruct op'; lia. }
    split_and!; [done|by eapply accounted_trans|rewrite Hm in Hsz; destruct op; lia|destruct op; lia].
Qed.
Lemma exec_ops_new ops m f :
  let '(h, s') := exec_scheduler_ops ops (new m f) in
  scheduler_inv s' ∧ accounted (new m f) h s' ∧ (size (in_flight s') ≤ highest_cap ops m)%nat.
Proof.
  pose proof (exec_ops_spec ops (new m f) m (inv_new m f)) as H.
  destruct (exec_scheduler_ops ops (new m f)) as [h s']. destruct H as (? & ? & ? & _); [|done|done].
  simpl. rewrite map_size_empty. lia.
Qed.
Lemma exec_ops_inv ops m f : scheduler_inv (exec_scheduler_ops ops (new m f)).2.
Proof. pose proof (exec_ops_new ops m f). destruct (exec_scheduler_ops _ _). naive_solver. Qed.

(** ** Properties *)

(** C11: In every state the scheduler can reach, at most 128 jobs are queued, at
    most 8 of them for one cue, no more previews are in flight than the preview
    cap, no more jobs than the highest cap ever configured; no key and no
    sentence of a cue revision is queued or in flight twice; and the two
    bookkeeping sets are exactly the keys of the queue. *)
Theorem work_is_bounded_and_unique ops m f :
  let s := (exec_scheduler_ops ops (new m f)).2 in
  (length (queued s) ≤ 128)%nat
  ∧ (∀ cue_id, (length (filter (λ job, tj_cue_id job = cue_id) (queued s)) ≤ 8)%nat)
  ∧ (forced_in_flight_count s ≤ f)%nat
  ∧ (size (in_flight s) ≤ highest_cap ops m)%nat
  ∧ NoDup ((tj_key <$> queued s) ++ (map_to_list (in_flight s)).*1)
  ∧ NoDup ((translation_sentence_work_key <$> queued s)
           ++ (if_sentence_work_key <$> (map_to_list (in_flight s)).*2))
  ∧ queued_keys s = list_to_set (tj_key <$> queued s)
  ∧ queued_sentence_keys s = list_to_set (translation_sentence_work_key <$> queued s).
Proof.
  pose proof (exec_ops_new ops m f) as Hn. destruct (exec_scheduler_ops ops (new m f)) as [h s].
  destruct Hn as ([[K1 K2 K3 K4] [B1 B2] A W F Fo _] & [_ _ Hcap] & Hsz). simpl in *.
  split_and!; try done.
  - intros c. specialize (B2 c). unfold queued_for_cue, count_if in B2.
    rewrite (filter_ext_elem _ (λ x, bool_decide (tj_cue_id x = c) = true)); [done|].
    intros x _. by rewrite bool_decide_eq_true.
  - by rewrite <- Hcap.
  - apply NoDup_app. split_and!; [done| |apply NoDup_fst_map_to_list].
    intros k (job & -> & Hj)%list_elem_of_fmap ([k' j] & E & Hin%elem_of_map_to_list)%list_elem_of_fmap.
    simpl in E. subst k'. by rewrite A in Hin.
  - apply NoDup_app. split_and!; [done| |].
    + intros k (job & -> & Hj)%list_elem_of_fmap (j & E & Hin)%list_elem_of_fmap.
      fold (in_flight_jobs s) in Hin. apply in_flight_jobs_elem in Hin as [key Hin].
      by apply (W job key j Hj Hin).
    + rewrite <- list_fmap_compose. apply NoDup_fmap_2_strong; [|apply NoDup_map_to_list].
      intros [k1 j1] [k2 j2] H1%elem_of_map_to_list H2%elem_of_map_to_list E. simpl in E.
      assert (k1 = k2) as -> by (by eapply F). congruence.
Qed.

(** C9: No final translation is lost: along any run, the accepted jobs that are
    not previews are, each exactly as often, those dispatched, those reported as
    expired (already taken or still waiting to be), those dropped with their
    cue, and those still queued. And no job is dispatched, dropped or kept more
    often than it was accepted. *)
Theorem no_final_translation_is_lost ops m f :
  let '(h, s) := exec_scheduler_ops ops (new m f) in
  filter (λ job, is_forced job = false) (accepted h)
    ≡ₚ filter (λ job, is_forced job = false) (spawned h ++ discarded h ++ queued s)
       ++ taken h ++ expired_terminal_jobs s
  ∧ spawned h ++ discarded h ++ queued s ⊆+ accepted h.
Proof.
  pose proof (exec_ops_new ops m f) as Hn. destruct (exec_scheduler_ops ops (new m f)) as [h s].
  destruct Hn as (_ & [Hf Ha _] & _). simpl in *. by rewrite !app_nil_r in *.
Qed.

(** Work the scheduler already has for the job's key or its sentence. *)
Definition duplicate_of (job : TranslationJob) (s : TranslationScheduler) : Prop :=
  (∃ q, q ∈ queued s ∧ (tj_key q = tj_key job
      ∨ translation_sentence_work_key q = translation_sentence_work_key job))
  ∨ (∃ key j, in_flight s !! key = Some j ∧ (key = tj_key job
      ∨ if_sentence_work_key j = translation_sentence_work_key job)).

Lemma is_duplicate_spec job s : scheduler_inv s → is_duplicate job s = true ↔ duplicate_of job s.
Proof.
  intros [[K1 _ K2 _] _ _ _ _ _ _]. unfold is_duplicate, duplicate_of.
  rewrite !orb_true_iff, K1, K2, !bool_decide_eq_true, is_Some_b_true, existsb_exists.
  rewrite !elem_of_list_to_set, !list_elem_of_fmap.
  setoid_rewrite <- list_elem_of_In. setoid_rewrite in_flight_jobs_elem.
  setoid_rewrite bool_decide_eq_true. naive_solver.
Qed.

(** After the jobs past their deadline have left the queue, a job is refused
    exactly when its own deadline passed, when its key or its sentence is
    already queued or in flight, or when the cue's eight places or the queue's
    128 are all taken by final translations; a refusal changes nothing else. An
    accepted job is appended, and only previews may have left the queue for it. *)
Theorem enqueue_decides ops m f job now :
  let s := (exec_scheduler_ops ops (new m f)).2 in
  let s0 := drop_expired_queued_at now s in
  let '(r, s') := enqueue_with_result_at job now s in
  queued s0 = filter (λ j, (now <? tj_deadline_at j) = true) (queued s)
  ∧ (r = RejectedExpired ↔ tj_deadline_at job ≤ now)
  ∧ (r = Duplicate ↔ now < tj_deadline_at job ∧ duplicate_of job s0)
  ∧ (r = RejectedOverflow ↔
       now < tj_deadline_at job ∧ ¬ duplicate_of job s0 ∧ full_of_finals job (queued s0))
  ∧ (r ≠ Enqueued → s' = s0)
  ∧ (r = Enqueued → ∃ kept, queued s' = kept ++ [job] ∧ sublist kept (queued s0)
       ∧ filter (λ j, is_forced j = false) kept = filter (λ j, is_forced j = false) (queued s0)).
Proof.
  pose proof (exec_ops_inv ops m f) as Hs. set (s := (exec_scheduler_ops ops (new m f)).2) in *.
  clearbody s. cbv zeta.
  pose proof (enqueue_spec job now s (si_keyed _ Hs) (si_bounded _ Hs)) as Ho.
  destruct (drop_expired_spec now s (si_keyed _ Hs)) as (_ & _ & Hq & _).
  apply (inv_drop_expired now) in Hs.
  set (s0 := drop_expired_queued_at now s) in *. clearbody s0.
  pose proof (is_duplicate_spec job s0 Hs) as Hdup.
  destruct (enqueue_with_result_at job now s) as [r s'].
  split; [done|]. clear Hq. destruct r; simpl in Ho.
  - destruct Ho as (? & Hd & ? & kept & ? & ? & ? & _).
    assert (¬ duplicate_of job s0) by (rewrite <- Hdup; congruence).
    split_and!; try (split; [done|]); try tauto; try lia; [naive_solver..|].
    intros _. by exists kept.
  - destruct Ho as (-> & ? & Hd%Hdup). split_and!; try (split; [done|]); try tauto; try lia; done.
  - destruct Ho as (-> & ? & Hd & ?).
    assert (¬ duplicate_of job s0) by (rewrite <- Hdup; congruence).
    split_and!; try (split; [done|]); try tauto; try lia; done.
  - destruct Ho as (-> & ?). split_and!; try (split; [done|]); try tauto; try lia; naive_solver lia.
Qed.

(** The priority of the dispatch: rank, then deadline, then sequence. *)
Definition outranks (a b : TranslationJob) : Prop :=
  let ra := rank_u8 (translation_rank (tj_result a)) in
  let rb := rank_u8 (translation_rank (tj_result b)) in
  rb < ra
  ∨ (ra = rb ∧ (tj_deadline_at a < tj_deadline_at b
                ∨ (tj_deadline_at a = tj_deadline_at b ∧ tj_sequence a < tj_sequence b))).
Lemma before_false a b : before a b = false → ¬ outranks a b.
Proof. unfold before, outranks. cbv zeta. intros. lia. Qed.

(** C10: A dispatch that is not deferred ends with every slot taken or nothing
    left that may start (only previews, with the preview cap reached). It
    starts live jobs only, in priority order, none of which is outranked by a
    job that could still start; those jobs and no others leave the queue and go
    in flight. *)
Theorem dispatch_fills_the_slots ops m f now now' :
  let s := (exec_scheduler_ops ops (new m f)).2 in
  let s0 := drop_expired_queued_at now s in
  let '(jobs, s') := dispatch_ready now now' s in
  if deferred now' s0 then jobs = [] ∧ s' = s0
  else ((max_concurrent s ≤ size (in_flight s'))%nat
        ∨ ∀ job, job ∈ queued s' → is_forced job = true ∧ (f ≤ forced_in_flight_count s')%nat)
    ∧ StronglySorted (λ a b, ¬ outranks b a) jobs
    ∧ (∀ job job', job ∈ jobs → job' ∈ queued s' →
         is_forced job' = false ∨ (forced_in_flight_count s' < f)%nat → ¬ outranks job' job)
    ∧ queued s0 ≡ₚ jobs ++ queued s'
    ∧ (∀ job, job ∈ jobs → now < tj_deadline_at job)
    ∧ in_flight s' = flight_of jobs ∪ in_flight s.
Proof.
  pose proof (exec_ops_new ops m f) as Hn.
  destruct (exec_scheduler_ops ops (new m f)) as [h s]. destruct Hn as (Hs & [_ _ Hcap] & _).
  simpl in *. pose proof (dispatch_ready_spec now now' s Hs) as Hd. cbv zeta in Hd.
  destruct (drop_expired_spec now s (si_keyed _ Hs)) as (_ & [E1 E2 E3 _] & Hq & _).
  revert Hd. destruct (deferred now' _); [by intros ->|].
  destruct (dispatch_ready now now' s) as [jobs s']. simpl.
  intros [_ Hn Hp Hf Hso _ Hl _ _ (R1 & R2 & _)]. simpl in *.
  assert (Hmf : max_concurrent_forced s' = f) by congruence.
  assert (Helig : ∀ job, eligible s' job = true ↔ is_forced job = false ∨ (forced_in_flight_count s' < f)%nat).
  { intros job. unfold eligible. rewrite Hmf, orb_true_iff, negb_true_iff, Nat.ltb_lt. done. }
  split_and!.
  - apply dispatch_one_None in Hn as [Hn|Hn]; [left; congruence|right].
    intros job Hj. specialize (Hn job Hj). pose proof (Helig job) as [_ He].
    destruct (is_forced job); [|rewrite He in Hn by (by left); done].
    split; [done|]. destruct (decide (forced_in_flight_count s' < f)%nat); [|lia].
    rewrite He in Hn by (by right). done.
  - clear -Hso. induction Hso as [|a jobs _ IH Ha]; constructor; [done|].
    eapply Forall_impl; [exact Ha|]. intros b. apply before_false.
  - intros job job' Hj Hj' He%Helig. apply before_false. by apply Hl.
  - done.
  - intros job Hj. assert (job ∈ queued (drop_expired_queued_at now s)) as Hin.
    { rewrite Hp. set_solver. }
    rewrite Hq in Hin. unfold live in Hin. apply list_elem_of_filter in Hin as [Hin _]. lia.
  - congruence.
Qed.
