(* ===== verification/SubtitleCues.v ===== *)
(** * Subtitle cues

    Models the overlay's cue store: [audio/state.rs] (the cue operations),
    [state/cue_lifecycle.rs], [state/source_publish.rs],
    [state/report_publish.rs], [state/translation_lifecycle.rs],
    [state/subtitle_store.rs], [state/deferred_translation.rs],
    [state/source_finality.rs], [state/ignored_fragment.rs],
    [state/translation_latency.rs] and [state/metrics.rs].

    The [k]-th clock reading of a run is [unix_ms k] milliseconds when it reads
    the wall clock and [instant k] nanoseconds when it reads the monotonic
    clock. Calls into the history archive and the Watch
    report are kept as a list of effects in the order they are made. Every
    operation holds the overlay's mutex for its whole update, so one operation
    is one step. *)
From S2P Require Import Prelude RustStr.

(** ** Data *)
Inductive SubtitleTranslationStateRuntime := Pending | Streaming | Final | Error | Superseded.
#[export] Instance translation_state_eq_dec : EqDecision SubtitleTranslationStateRuntime.
Proof. solve_decision. Defined.
Record SubtitleDisplaySegmentRuntime := mk_segment {
  sg_source_text : string; sg_translated_text : string; sg_pending : bool
}.
#[export] Instance segment_eq_dec : EqDecision SubtitleDisplaySegmentRuntime.
Proof. solve_decision. Defined.
#[export] Instance segment_settable : Settable SubtitleDisplaySegmentRuntime := λ s,
  mk_segment (sg_source_text s) (sg_translated_text s) (sg_pending s).
Record SubtitleCueRuntime := mk_cue {
  cue_id : string; cue_revision_field : option Z; cue_sequence : option Z;
  cue_route_direction : string; cue_source_text : string; cue_display_source_text : string;
  cue_display_segments : list SubtitleDisplaySegmentRuntime; cue_translated_text : string;
  cue_started_at : string; cue_ended_at : string; cue_committed : bool;
  cue_translation_committed : bool; cue_translation_state : option SubtitleTranslationStateRuntime
}.
#[export] Instance cue_eq_dec : EqDecision SubtitleCueRuntime.
Proof. solve_decision. Defined.
#[export] Instance cue_settable : Settable SubtitleCueRuntime := λ c,
  mk_cue (cue_id c) (cue_revision_field c) (cue_sequence c) (cue_route_direction c)
    (cue_source_text c) (cue_display_source_text c) (cue_display_segments c)
    (cue_translated_text c) (cue_started_at c) (cue_ended_at c) (cue_committed c)
    (cue_translation_committed c) (cue_translation_state c).
Record SubtitleOverlayRuntimeSnapshot := mk_overlay {
  ov_stream_id : string; ov_generation : Z; ov_seq : Z; ov_baseline_included : bool;
  ov_queue_depth : Z; ov_dropped_cue_count : Z; ov_first_translation_average_ms : option Z;
  ov_first_translation_last_ms : option Z; ov_first_translation_sample_count : Z;
  ov_report_session_id : option string; ov_active_cue : option SubtitleCueRuntime;
  ov_recent_cues : list SubtitleCueRuntime
}.
#[export] Instance overlay_settable : Settable SubtitleOverlayRuntimeSnapshot := λ o,
  mk_overlay (ov_stream_id o) (ov_generation o) (ov_seq o) (ov_baseline_included o)
    (ov_queue_depth o) (ov_dropped_cue_count o) (ov_first_translation_average_ms o)
    (ov_first_translation_last_ms o) (ov_first_translation_sample_count o)
    (ov_report_session_id o) (ov_active_cue o) (ov_recent_cues o).
Definition empty_overlay : SubtitleOverlayRuntimeSnapshot :=
  mk_overlay "" 0 0 true 0 0 None None 0 None None [].

(** First-translation latency. *)
Record CueFirstTranslationTiming := mk_timing { tm_first_source_at : option Z; tm_recorded : bool }.
Record FirstTranslationLatencyTracker := mk_tracker {
  tr_cues : gmap string CueFirstTranslationTiming; tr_total_ms : Z; tr_sample_count : Z;
  tr_last_ms : option Z
}.
#[export] Instance tracker_settable : Settable FirstTranslationLatencyTracker := λ t,
  mk_tracker (tr_cues t) (tr_total_ms t) (tr_sample_count t) (tr_last_ms t).
Definition empty_tracker : FirstTranslationLatencyTracker := mk_tracker ∅ 0 0 None.

(** Calls into the history archive and the Watch session report. *)
Inductive effect :=
| ArchiveCue (cue : SubtitleCueRuntime)
| DiscardCue (id : string)
| DiscardReportCue (id : string)
| RecordSource (id direction source_text : string) (final : bool) (revision sequence : Z)
    (state : option SubtitleTranslationStateRuntime)
| RecordPublish (id direction source_text translated_text : string)
    (segments : list SubtitleDisplaySegmentRuntime) (final : bool) (revision sequence : Z)
    (state : option SubtitleTranslationStateRuntime).

(** The part of [AudioStateStore] the cue operations touch. *)
Record Store := mk_store {
  st_overlay : SubtitleOverlayRuntimeSnapshot; st_source_final_cues : gset string;
  st_deferred : gmap string Z; st_subtitle_sequence : Z;
  st_latency : FirstTranslationLatencyTracker; st_inbound_segment_count : Z;
  st_effects : list effect; st_readings : nat
}.
#[export] Instance store_settable : Settable Store := λ s,
  mk_store (st_overlay s) (st_source_final_cues s) (st_deferred s) (st_subtitle_sequence s)
    (st_latency s) (st_inbound_segment_count s) (st_effects s) (st_readings s).
Definition initial_store : Store := mk_store empty_overlay ∅ ∅ 0 empty_tracker 0 [] 0.

(** ** Text *)
(** [text.chars().filter(|c| !c.is_whitespace()).collect()]. *)
Fixpoint drop_whitespace (s : list Ascii.ascii) : list Ascii.ascii :=
  match s with
  | [] => []
  | a :: s1 =>
      if ws1 a then drop_whitespace s1 else
      match s1 with
      | [] => [a]
      | b :: s2 =>
          if ws2 a b then drop_whitespace s2 else
          match s2 with
          | [] => a :: drop_whitespace s1
          | c :: s3 => if ws3 a b c then drop_whitespace s3 else a :: drop_whitespace s1
          end
      end
  end.
Definition comparison_text (text : string) : string := of_bytes (drop_whitespace (bytes text)).
Definition source_replaces_revision (previous incoming : string) : bool :=
  let previous := comparison_text previous in
  let incoming := comparison_text incoming in
  negb (is_empty previous) && negb (bool_decide (previous = incoming))
  && negb (String.prefix previous incoming).
(** [shared::time::unix_millis_marker]. *)
Definition ms_marker (ms : Z) : string := "unix-ms:" +:+ show_uint ms.

(** ** One cue *)
Definition cue_revision (cue : SubtitleCueRuntime) : Z := default 1 (cue_revision_field cue).
Definition finalize_cue_display_segments (cue : SubtitleCueRuntime) : SubtitleCueRuntime :=
  cue <| cue_display_segments ::= fmap (λ s, s <| sg_pending := false |>) |>.
Definition new_subtitle_cue (id route_direction source_text : string) (committed : bool)
    (sequence now : Z) : SubtitleCueRuntime :=
  mk_cue id (Some 1) (Some sequence) route_direction source_text "" [] "" (ms_marker now)
    (ms_marker now) committed false (Some Pending).
Definition route_direction_from_cue_id (id : string) : string :=
  if is_Some_b (String.index 0 "outbound" id) then "outbound" else "inbound".

Definition apply_source_update (source_text : string) (committed : bool) (sequence : Z)
    (cue : SubtitleCueRuntime) : SubtitleCueRuntime :=
  let source_changed := negb (bool_decide (cue_source_text cue = source_text)) in
  let semantic_source_changed :=
    negb (bool_decide (comparison_text (cue_source_text cue) = comparison_text source_text)) in
  let c1 :=
    if semantic_source_changed && source_replaces_revision (cue_source_text cue) source_text then
      cue <| cue_revision_field := Some (saturating_add (cue_revision cue) 1) |>
          <| cue_translation_committed := false |> <| cue_translation_state := Some Pending |>
    else if semantic_source_changed then
      cue <| cue_translation_committed := false |> <| cue_translation_state := Some Pending |>
    else cue in
  let c2 := if source_changed || negb (Bool.eqb (cue_committed c1) committed)
            then c1 <| cue_sequence := Some sequence |> else c1 in
  c2 <| cue_source_text := source_text |> <| cue_committed := committed |>.

Definition transition_allowed (current : option SubtitleTranslationStateRuntime)
    (incoming : SubtitleTranslationStateRuntime) : bool :=
  match default Pending current with
  | Pending => true
  | Streaming => negb (bool_decide (incoming = Pending))
  | Final | Error | Superseded => false
  end.
Record TranslationMutation := mk_mutation {
  mu_expected_revision : option Z; mu_sequence : Z; mu_translated_text : string;
  mu_state : SubtitleTranslationStateRuntime
}.
Definition translation_update_allowed (cue : SubtitleCueRuntime) (m : TranslationMutation) : bool :=
  negb (match mu_expected_revision m with
        | Some expected => negb (expected =? cue_revision cue) | None => false end)
  && transition_allowed (cue_translation_state cue) (mu_state m).
Definition is_terminal (s : SubtitleTranslationStateRuntime) : bool :=
  match s with Final | Error => true | _ => false end.
(** The updated cue, or [None] when the update is refused. *)
Definition apply_translation_update (m : TranslationMutation) (cue : SubtitleCueRuntime)
    : option SubtitleCueRuntime :=
  if negb (translation_update_allowed cue m) then None
  else if bool_decide (cue_translation_state cue = Some (mu_state m))
          && bool_decide (cue_translated_text cue = mu_translated_text m) then None
  else
    let c := cue <| cue_translated_text := mu_translated_text m |>
                 <| cue_sequence := Some (mu_sequence m) |>
                 <| cue_translation_state := Some (mu_state m) |>
                 <| cue_translation_committed := bool_decide (mu_state m = Final) |> in
    Some (if is_terminal (mu_state m) then finalize_cue_display_segments c else c).
Definition apply_display_update (expected_revision : option Z) (sequence : Z)
    (display_source_text : string) (display_segments : list SubtitleDisplaySegmentRuntime)
    (translated_text : string) (state : SubtitleTranslationStateRuntime)
    (cue : SubtitleCueRuntime) : option SubtitleCueRuntime :=
  let m := mk_mutation expected_revision sequence translated_text state in
  if negb (translation_update_allowed cue m) then None
  else
    let updated := apply_translation_update m cue in
    let c := default cue updated in
    let display_changed := negb (bool_decide (cue_display_source_text c = display_source_text))
                           || negb (bool_decide (cue_display_segments c = display_segments)) in
    if negb (is_Some_b updated) && negb display_changed then None
    else Some (c <| cue_display_source_text := display_source_text |>
                 <| cue_display_segments := display_segments |>
                 <| cue_sequence := Some sequence |>).
Definition commit_cue (sequence now : Z) (cue : SubtitleCueRuntime) : SubtitleCueRuntime :=
  let c := cue <| cue_committed := true |> in
  let c := if negb (is_blank (cue_translated_text c))
              && negb (bool_decide (cue_translation_state c = Some Error))
           then c <| cue_translation_committed := true |> <| cue_translation_state := Some Final |>
           else c in
  (finalize_cue_display_segments (c <| cue_sequence := Some sequence |>))
    <| cue_ended_at := ms_marker now |>.

(** ** The cue window *)
Definition MAX_UNFINISHED_SUBTITLE_CUES : Z := 18.
Definition cue_needs_more_time (cue : SubtitleCueRuntime) : bool :=
  if negb (cue_committed cue)
     || negb (bool_decide (cue_translation_state cue = Some Final)
              || bool_decide (cue_translation_state cue = Some Error))
  then true
  else
    let block_layout := existsb (λ s, is_blank (sg_source_text s) && negb (is_blank (sg_translated_text s)))
                          (cue_display_segments cue) in
    negb block_layout
    && existsb (λ s, negb (is_blank (sg_source_text s)) && is_blank (sg_translated_text s))
         (cue_display_segments cue).
(** [iter().rposition(p)]. *)
Fixpoint rposition {A} (p : A → bool) (l : list A) : option nat :=
  match l with
  | [] => None
  | x :: l => match rposition p l with
              | Some i => Some (S i)
              | None => if p x then Some O else None
              end
  end.
(** The [while] loop; every pass removes a cue, so the list's length is fuel enough. *)
Fixpoint trim_loop (fuel : nat) (unfinished_count : Z) (overlay : SubtitleOverlayRuntimeSnapshot)
    : SubtitleOverlayRuntimeSnapshot :=
  match fuel with
  | O => overlay
  | S fuel =>
      if MAX_UNFINISHED_SUBTITLE_CUES <? unfinished_count then
        match rposition cue_needs_more_time (ov_recent_cues overlay) with
        | Some index =>
            trim_loop fuel (unfinished_count - 1)
              (overlay <| ov_recent_cues ::= delete index |>
                       <| ov_dropped_cue_count ::= λ n, wrapping_add n 1 |>)
        | None => overlay
        end
      else overlay
  end.
Definition trim_recent_subtitle_cues (overlay : SubtitleOverlayRuntimeSnapshot)
    : SubtitleOverlayRuntimeSnapshot :=
  let trimmed := trim_loop (length (ov_recent_cues overlay))
    (Z.of_nat (count_if cue_needs_more_time (ov_recent_cues overlay))) overlay in
  trimmed <| ov_queue_depth := Z.of_nat (length (ov_recent_cues trimmed)) |>.
Definition has_id (id : string) (cue : SubtitleCueRuntime) : bool := bool_decide (cue_id cue = id).
Definition find_cue (id : string) (l : list SubtitleCueRuntime) : option SubtitleCueRuntime :=
  List.find (has_id id) l.
(** [for cue in cues.iter_mut() { if cue.cue_id == id { f(cue); break; } }]. *)
Fixpoint update_first (id : string) (f : SubtitleCueRuntime → SubtitleCueRuntime)
    (l : list SubtitleCueRuntime) : list SubtitleCueRuntime :=
  match l with
  | [] => []
  | c :: l => if has_id id c then f c :: l else c :: update_first id f l
  end.
Definition update_active (id : string) (f : SubtitleCueRuntime → SubtitleCueRuntime)
    (active : option SubtitleCueRuntime) : option SubtitleCueRuntime :=
  (λ a, if has_id id a then f a else a) <$> active.
(** A fresh cue at the front, and active. *)
Definition insert_cue (cue : SubtitleCueRuntime) (overlay : SubtitleOverlayRuntimeSnapshot)
    : SubtitleOverlayRuntimeSnapshot :=
  trim_recent_subtitle_cues (overlay <| ov_active_cue := Some cue |>
                                     <| ov_recent_cues ::= cons cue |>).
Definition SubtitleStore_snapshot (cue_limit : nat) (overlay : SubtitleOverlayRuntimeSnapshot)
    : SubtitleOverlayRuntimeSnapshot := overlay <| ov_recent_cues ::= take cue_limit |>.

(** ** The store's operations *)
Section Store.
Context (unix_ms : nat → Z) (instant : nat → Z).

Definition update_overlay (f : SubtitleOverlayRuntimeSnapshot → SubtitleOverlayRuntimeSnapshot)
    (s : Store) : Store := s <| st_overlay ::= f |>.
Definition emit (e : effect) (s : Store) : Store := s <| st_effects ::= λ l, l ++ [e] |>.
(** The sequence the next operation stamps, and the state after drawing it. *)
Definition next_subtitle_sequence (s : Store) : Z * Store :=
  let n := wrapping_add (st_subtitle_sequence s) 1 in (n, s <| st_subtitle_sequence := n |>).
Definition read_unix_ms (s : Store) : Z * Store :=
  (unix_ms (st_readings s), s <| st_readings ::= S |>).
Definition read_instant (s : Store) : Z * Store :=
  (instant (st_readings s), s <| st_readings ::= S |>).

(** *** First-translation latency *)
Definition record_source (id source_text : string) (s : Store) : Store :=
  if is_blank source_text then s
  else
    let cue := default (mk_timing None false) (tr_cues (st_latency s) !! id) in
    let '(cue, s) :=
      match tm_first_source_at cue with
      | None => let '(now, s) := read_instant s in (mk_timing (Some now) (tm_recorded cue), s)
      | Some _ => (cue, s)
      end in
    s <| st_latency ::= λ t, t <| tr_cues ::= <[id := cue]> |> |>.
Definition latency_average (t : FirstTranslationLatencyTracker) : Z :=
  if tr_sample_count t =? 0 then 0
  else Z.min (tr_total_ms t / tr_sample_count t) u64_max.
Definition u128_max : Z := 2 ^ 128 - 1.
Definition record_translation (id translated_text : string) (s : Store)
    : option FirstTranslationLatencyTracker * Store :=
  if is_blank translated_text then (None, s)
  else
    let cue := default (mk_timing None false) (tr_cues (st_latency s) !! id) in
    let s := s <| st_latency ::= λ t, t <| tr_cues ::= <[id := cue]> |> |> in
    if tm_recorded cue then (None, s)
    else
      match tm_first_source_at cue with
      | None => (None, s)
      | Some first =>
          let '(now, s) := read_instant s in
          let elapsed_ms := Z.min (Z.max 0 (now - first) / 1000000) u64_max in
          let s := s <| st_latency ::= λ t, t <| tr_cues ::= <[id := mk_timing (Some first) true]> |>
            <| tr_total_ms ::= λ n, Z.min (n + elapsed_ms) u128_max |>
            <| tr_sample_count ::= λ n, saturating_add n 1 |>
            <| tr_last_ms := Some elapsed_ms |> |> in
          (Some (st_latency s), s)
      end.
Definition note_translation (id translated_text : string) (s : Store) : Store :=
  match record_translation id translated_text s with
  | (None, s) => s
  | (Some t, s) => update_overlay (λ o, o <| ov_first_translation_average_ms := Some (latency_average t) |>
      <| ov_first_translation_last_ms := Some (default 0 (tr_last_ms t)) |>
      <| ov_first_translation_sample_count := tr_sample_count t |>) s
  end.

(** *** Source finality and deferred translations *)
Definition set_source_final (id : string) (final : bool) (s : Store) : Store :=
  s <| st_source_final_cues ::= λ ids, if final then {[id]} ∪ ids else ids ∖ {[id]} |>.
Definition subtitle_source_is_final (id : string) (s : Store) : bool :=
  bool_decide (id ∈ st_source_final_cues s).
Definition defer_subtitle_cue_translation (id : string) (s : Store) : Store :=
  let '(now, s) := read_instant s in s <| st_deferred ::= <[id := now]> |>.
Definition approve_subtitle_cue_translation (id : string) (s : Store) : Store :=
  s <| st_deferred ::= delete id |>.
Definition subtitle_cue_translation_allowed (id : string) (s : Store) : bool :=
  negb (is_Some_b (st_deferred s !! id)).

(** *** Source text *)
(** [source_contract] and the effects both source paths end with. *)
Definition publish_source (id direction source_text : string) (committed : bool) (sequence : Z)
    (s : Store) : Store :=
  let contract := find_cue id (ov_recent_cues (st_overlay s)) in
  let s := record_source id source_text s in
  match contract with
  | None => s
  | Some cue =>
      emit (RecordSource id direction source_text committed (cue_revision cue)
              (default sequence (cue_sequence cue)) (cue_translation_state cue))
        (emit (ArchiveCue cue) s)
  end.
(** A shorter non-empty partial does not overwrite a committed source. *)
Definition ignores_partial (source_text : string) (committed : bool) (cue : SubtitleCueRuntime)
    : bool :=
  cue_committed cue && negb committed && negb (is_empty source_text)
  && (str_len source_text <? str_len (cue_source_text cue)).
Definition source_update (source_text : string) (committed : bool) (sequence : Z)
    (cue : SubtitleCueRuntime) : SubtitleCueRuntime :=
  let c := apply_source_update source_text committed sequence cue in
  if committed then finalize_cue_display_segments c else c.
Definition active_accepts_source (source_text : string) (committed : bool) (a : SubtitleCueRuntime)
    : bool :=
  negb (cue_committed a) || committed || is_empty source_text
  || (str_len (cue_source_text a) <=? str_len source_text).
Definition has_cue (id : string) (overlay : SubtitleOverlayRuntimeSnapshot) : bool :=
  existsb (has_id id) (ov_recent_cues overlay).
Definition update_or_push_stt_cue (id source_text : string) (committed : bool) (s : Store) : Store :=
  let s := set_source_final id committed s in
  let direction := route_direction_from_cue_id id in
  let '(sequence, s) := next_subtitle_sequence s in
  let s :=
    if has_cue id (st_overlay s) then
      update_overlay (λ o, o
        <| ov_recent_cues ::= update_first id (λ c,
             if ignores_partial source_text committed c then c
             else source_update source_text committed sequence c) |>
        <| ov_active_cue ::= update_active id (λ a,
             if active_accepts_source source_text committed a
             then source_update source_text committed sequence a else a) |>) s
    else
      let '(now, s) := read_unix_ms s in
      update_overlay (insert_cue (new_subtitle_cue id direction source_text committed sequence now)) s
  in publish_source id direction source_text committed sequence s.

(** Commits one cue's source; its [ended_at] is one clock reading. *)
Definition commit_source (source_text : string) (sequence now : Z) (cue : SubtitleCueRuntime)
    : SubtitleCueRuntime :=
  (finalize_cue_display_segments (apply_source_update source_text true sequence cue))
    <| cue_ended_at := ms_marker now |>.
(** Reads the clock only if the active cue is the one updated. *)
Definition with_active (id : string) (f : Z → SubtitleCueRuntime → SubtitleCueRuntime) (s : Store)
    : Store :=
  match ov_active_cue (st_overlay s) with
  | Some a =>
      if has_id id a then
        let '(now, s) := read_unix_ms s in
        update_overlay (λ o, o <| ov_active_cue := Some (f now a) |>) s
      else s
  | None => s
  end.
Definition commit_stt_cue (id source_text direction : string) (s : Store) : Store :=
  let s := set_source_final id true s in
  let '(sequence, s) := next_subtitle_sequence s in
  let s :=
    if has_cue id (st_overlay s) then
      let '(now, s) := read_unix_ms s in
      let s := update_overlay (λ o, o
        <| ov_recent_cues ::= update_first id (commit_source source_text sequence now) |>) s in
      with_active id (commit_source source_text sequence) s
    else
      let '(now, s) := read_unix_ms s in
      update_overlay (insert_cue (new_subtitle_cue id direction source_text true sequence now)) s in
  let s := publish_source id direction source_text true sequence s in
  s <| st_inbound_segment_count ::= λ n, wrapping_add n 1 |>.

(** A cue another producer built. *)
Definition push_subtitle_cue (cue : SubtitleCueRuntime) (s : Store) : Store :=
  let '(sequence, s) := next_subtitle_sequence s in
  let state := default
    (if cue_translation_committed cue then Final
     else if is_blank (cue_translated_text cue) then Pending else Streaming)
    (cue_translation_state cue) in
  let cue := cue <| cue_revision_field := Some (cue_revision cue) |>
                 <| cue_sequence := Some (default sequence (cue_sequence cue)) |>
                 <| cue_translation_state := Some state |>
                 <| cue_translation_committed := bool_decide (state = Final) |> in
  let s := set_source_final (cue_id cue) (cue_committed cue) s in
  let cue := if cue_committed cue then finalize_cue_display_segments cue else cue in
  let s := emit (ArchiveCue cue) s in
  let s := update_overlay (insert_cue cue) s in
  let s := record_source (cue_id cue) (cue_source_text cue) s in
  let s := emit (RecordSource (cue_id cue) (cue_route_direction cue) (cue_source_text cue)
             (cue_committed cue) (cue_revision cue) (default sequence (cue_sequence cue))
             (cue_translation_state cue)) s in
  if is_empty (cue_translated_text cue) then s
  else emit (RecordPublish (cue_id cue) (cue_route_direction cue) (cue_source_text cue)
               (cue_translated_text cue) (cue_display_segments cue) (is_terminal state)
               (cue_revision cue) (default sequence (cue_sequence cue)) (cue_translation_state cue)) s.

(** *** Translations *)
(** [record_publish_context]: the cue as it is in the window, the update's state. *)
Definition record_publish_context (id translated_text : string) (cue : SubtitleCueRuntime)
    (sequence : Z) (state : SubtitleTranslationStateRuntime) (s : Store) : Store :=
  emit (RecordPublish id (cue_route_direction cue) (cue_source_text cue) translated_text
          (cue_display_segments cue) (bool_decide (state = Final)) (cue_revision cue)
          (default sequence (cue_sequence cue)) (Some state))
    (emit (ArchiveCue cue) s).
(** Applies an update to the first cue of that id and, when that cue accepted
    it, to the active cue. *)
Definition update_accepted (id : string) (f : SubtitleCueRuntime → option SubtitleCueRuntime)
    (s : Store) : option Store :=
  match find_cue id (ov_recent_cues (st_overlay s)) with
  | None => None
  | Some cue =>
      match f cue with
      | None => None
      | Some cue' => Some (update_overlay (λ o, o
          <| ov_recent_cues ::= update_first id (λ _, cue') |>
          <| ov_active_cue ::= update_active id (λ a, default a (f a)) |>) s)
      end
  end.
Definition apply_subtitle_cue_translation (id : string) (expected_revision : option Z)
    (translated_text : string) (state : SubtitleTranslationStateRuntime) (s : Store) : bool * Store :=
  let '(sequence, s) := next_subtitle_sequence s in
  let m := mk_mutation expected_revision sequence translated_text state in
  match update_accepted id (apply_translation_update m) s with
  | None => (false, s)
  | Some s =>
      let s :=
        if is_terminal state then
          let '(now, s) := read_unix_ms s in
          update_overlay (λ o, o <| ov_recent_cues ::= update_first id
            (λ c, c <| cue_ended_at := ms_marker now |>) |>) s
        else s in
      match find_cue id (ov_recent_cues (st_overlay s)) with
      | None => (false, s)
      | Some cue =>
          let s := if bool_decide (state = Streaming) || bool_decide (state = Final)
                   then note_translation id translated_text s else s in
          (true, record_publish_context id translated_text cue sequence state s)
      end
  end.
Definition update_subtitle_cue_translation (id translated_text : string) (committed : bool)
    (s : Store) : Store :=
  (apply_subtitle_cue_translation id None translated_text
     (if committed then Final else Streaming) s).2.
Definition update_subtitle_cue_translation_for_revision (id : string) (expected_revision : Z)
    (translated_text : string) (state : SubtitleTranslationStateRuntime) (s : Store) : bool * Store :=
  apply_subtitle_cue_translation id (Some expected_revision) translated_text state s.
Definition mark_subtitle_translation_error (id : string) (expected_revision : Z) (message : string)
    (s : Store) : bool * Store :=
  update_subtitle_cue_translation_for_revision id expected_revision message Error s.
Definition mark_current_subtitle_translation_error (id message : string) (s : Store) : bool * Store :=
  apply_subtitle_cue_translation id None message Error s.

Definition update_subtitle_cue_display_segments_for_revision (id : string) (expected_revision : Z)
    (display_source_text : string) (display_segments : list SubtitleDisplaySegmentRuntime)
    (translated_text : string) (state : SubtitleTranslationStateRuntime) (s : Store) : bool * Store :=
  let '(sequence, s) := next_subtitle_sequence s in
  match update_accepted id (apply_display_update (Some expected_revision) sequence
          display_source_text display_segments translated_text state) s with
  | None => (false, s)
  | Some s =>
      match find_cue id (ov_recent_cues (st_overlay s)) with
      | None => (false, s)
      | Some cue =>
          let s := if negb (is_blank translated_text) && negb (bool_decide (state = Error))
                   then note_translation id translated_text s else s in
          (true, record_publish_context id translated_text cue sequence state s)
      end
  end.
Definition update_subtitle_cue_display_segments (id display_source_text : string)
    (display_segments : list SubtitleDisplaySegmentRuntime) (translated_text : string)
    (committed : bool) (s : Store) : Store :=
  match find_cue id (ov_recent_cues (st_overlay s)) with
  | None => s
  | Some cue =>
      let state := if committed then Final else if is_blank translated_text then Pending
                   else Streaming in
      (update_subtitle_cue_display_segments_for_revision id (cue_revision cue) display_source_text
         display_segments translated_text state s).2
  end.
Definition commit_subtitle_cue (id : string) (s : Store) : Store :=
  let '(sequence, s) := next_subtitle_sequence s in
  let s :=
    if has_cue id (st_overlay s) then
      let '(now, s) := read_unix_ms s in
      update_overlay (λ o, o <| ov_recent_cues ::= update_first id (commit_cue sequence now) |>) s
    else s in
  let s := with_active id (commit_cue sequence) s in
  match find_cue id (ov_recent_cues (st_overlay s)) with
  | None => s
  | Some cue =>
      if is_empty (cue_translated_text cue) then s
      else record_publish_context id (cue_translated_text cue) cue sequence
             (default Pending (cue_translation_state cue)) s
  end.

(** *** Discarding *)
(** [recent_cues.retain(keep)], the active cue dropped when it is not kept. *)
Definition retain_cues (keep : SubtitleCueRuntime → bool) (o : SubtitleOverlayRuntimeSnapshot)
    : SubtitleOverlayRuntimeSnapshot :=
  trim_recent_subtitle_cues
    (o <| ov_recent_cues ::= filter (λ c, keep c = true) |>
       <| ov_active_cue ::= λ a, match a with Some c => if keep c then a else None | None => None end |>).
Definition clear_subtitle_cues (s : Store) : Store :=
  s <| st_overlay := empty_overlay |> <| st_latency := empty_tracker |>
    <| st_deferred := ∅ |> <| st_source_final_cues := ∅ |>.
Definition discard_uncommitted_subtitle_cues (s : Store) : Store :=
  update_overlay (retain_cues cue_committed) (s <| st_deferred := ∅ |>).
Definition discard_uncommitted_subtitle_cues_by_direction (direction : string) (s : Store) : Store :=
  update_overlay (retain_cues (λ c,
    cue_committed c || negb (bool_decide (cue_route_direction c = direction)))) s.
Definition discard_uncommitted_subtitle_cue (id : string) (s : Store) : Store :=
  update_overlay (retain_cues (λ c, negb (has_id id c) || cue_committed c))
    (set_source_final id false (approve_subtitle_cue_translation id s)).
Definition discard_ignored_provider_cue (id : string) (s : Store) : Store :=
  emit (DiscardCue id) (emit (DiscardReportCue id)
    (update_overlay (retain_cues (λ c, negb (has_id id c)))
       (set_source_final id false (approve_subtitle_cue_translation id s)))).
(** The map's iteration order is the parameter [order], a permutation of its entries. *)
Definition discard_expired_deferred_subtitle_cues (order : gmap string Z → list (string * Z))
    (max_age : Z) (s : Store) : list string * Store :=
  let '(now, s) := read_instant s in
  let expired := (filter (λ e, max_age ≤ Z.max 0 (now - e.2)) (order (st_deferred s))).*1 in
  let s := s <| st_deferred ::= λ m, foldr delete m expired |> in
  (expired, fold_left (λ s id, discard_uncommitted_subtitle_cue id s) expired s).

(** ** Runs *)
Inductive cue_op :=
| OpSource (id source_text : string) (committed : bool)
| OpCommitSource (id source_text direction : string)
| OpPush (cue : SubtitleCueRuntime)
| OpTranslate (id : string) (expected_revision : option Z) (translated_text : string)
    (state : SubtitleTranslationStateRuntime)
| OpDisplay (id : string) (expected_revision : Z) (display_source_text : string)
    (display_segments : list SubtitleDisplaySegmentRuntime) (translated_text : string)
    (state : SubtitleTranslationStateRuntime)
| OpDisplayAny (id display_source_text : string)
    (display_segments : list SubtitleDisplaySegmentRuntime) (translated_text : string)
    (committed : bool)
| OpCommit (id : string)
| OpClear
| OpDiscardUncommitted
| OpDiscardDirection (direction : string)
| OpDiscard (id : string)
| OpDiscardIgnored (id : string)
| OpDefer (id : string)
| OpApprove (id : string)
| OpExpire (order : gmap string Z → list (string * Z)) (max_age : Z).
Definition exec_cue (o : cue_op) (s : Store) : Store :=
  match o with
  | OpSource id text committed => update_or_push_stt_cue id text committed s
  | OpCommitSource id text direction => commit_stt_cue id text direction s
  | OpPush cue => push_subtitle_cue cue s
  | OpTranslate id r text st => (apply_subtitle_cue_translation id r text st s).2
  | OpDisplay id r src segs text st =>
      (update_subtitle_cue_display_segments_for_revision id r src segs text st s).2
  | OpDisplayAny id src segs text committed =>
      update_subtitle_cue_display_segments id src segs text committed s
  | OpCommit id => commit_subtitle_cue id s
  | OpClear => clear_subtitle_cues s
  | OpDiscardUncommitted => discard_uncommitted_subtitle_cues s
  | OpDiscardDirection direction => discard_uncommitted_subtitle_cues_by_direction direction s
  | OpDiscard id => discard_uncommitted_subtitle_cue id s
  | OpDiscardIgnored id => discard_ignored_provider_cue id s
  | OpDefer id => defer_subtitle_cue_translation id s
  | OpApprove id => approve_subtitle_cue_translation id s
  | OpExpire order max_age => (discard_expired_deferred_subtitle_cues order max_age s).2
  end.
Definition cue_store_step (s : Store) (o : cue_op) (s' : Store) : Prop := exec_cue o s = s'.
Definition cue_store_reachable : Store → Prop := reachable (eq initial_store) cue_store_step.
End Store.
