(* ===== verification/SubtitleCuesFacts.v ===== *)
(** * Facts about the cue store

    The window trimming against its reference, the cue transformers and what
    they keep, and the list updates of the store. *)
From S2P Require Import Prelude RustStr SubtitleCues.

(** ** Trimming *)
(** The reference: the list without the [p]-elements after the first [n] of them. *)
Fixpoint keep_newest {A} (p : A → bool) (n : nat) (l : list A) : list A :=
  match l with
  | [] => []
  | x :: l =>
      if p x then match n with O => keep_newest p O l | S n => x :: keep_newest p n l end
      else x :: keep_newest p n l
  end.
Section Keep.
Context {A : Type} (p : A → bool).
Lemma rposition_None l : rposition p l = None ↔ count_if p l = O.
Proof.
  induction l as [|x l IH]; [done|]. rewrite count_if_cons. simpl.
  destruct (rposition p l) as [i|].
  - split; [done|]. intros H. destruct (count_if p l); [|lia]. by destruct IH as [_ IH]; specialize (IH eq_refl).
  - destruct IH as [IH _]. rewrite IH by done. by destruct (p x).
Qed.
Lemma rposition_delete l i : rposition p l = Some i →
  count_if p l = S (count_if p (delete i l)) ∧ length l = S (length (delete i l))
  ∧ ∀ n, (n < count_if p l)%nat → keep_newest p n (delete i l) = keep_newest p n l.
Proof.
  revert i. induction l as [|x l IH]; intros i; simpl; [done|].
  destruct (rposition p l) as [j|] eqn:Hj.
  - intros [= <-]. destruct (IH j eq_refl) as (Hc & Hl & Hk).
    change (delete (S j) (x :: l)) with (x :: delete j l). rewrite !count_if_cons. simpl length.
    split_and!; [lia|lia|]. intros n Hn. simpl. destruct (p x); [|by rewrite Hk by lia].
    destruct n; [apply Hk; lia|]. by rewrite Hk by lia.
  - destruct (p x) eqn:Hx; [|done]. intros [= <-]. apply rposition_None in Hj.
    change (delete 0%nat (x :: l)) with l. rewrite count_if_cons, Hx, Hj. split_and!; [done..|].
    intros n Hn. assert (n = O) as -> by lia. by rewrite ?Hx.
Qed.
Lemma keep_newest_all n l : (count_if p l ≤ n)%nat → keep_newest p n l = l.
Proof.
  revert n. induction l as [|x l IH]; intros n; [done|]. rewrite count_if_cons. simpl.
  destruct (p x); intros H; [|by rewrite IH by lia]. destruct n; [lia|]. by rewrite IH by lia.
Qed.
Lemma keep_newest_sublist n l : keep_newest p n l `sublist_of` l.
Proof.
  revert n. induction l as [|x l IH]; intros n; simpl; [done|].
  destruct (p x); [destruct n|]; [by apply sublist_cons|by apply sublist_skip|by apply sublist_skip].
Qed.
Lemma keep_newest_elem n l x : x ∈ keep_newest p n l → x ∈ l.
Proof.
  intros Hx. eapply elem_of_submseteq; [exact Hx|]. apply sublist_submseteq, keep_newest_sublist.
Qed.
Lemma keep_newest_count n l : (count_if p (keep_newest p n l) ≤ n)%nat.
Proof.
  revert n. induction l as [|x l IH]; intros n; simpl; [unfold count_if; simpl; lia|].
  destruct (p x) eqn:Hx; [destruct n|]; rewrite ?count_if_cons, ?Hx.
  - apply IH.
  - specialize (IH n). lia.
  - specialize (IH n). lia.
Qed.
Lemma keep_newest_others n l :
  filter (λ x, p x = false) (keep_newest p n l) = filter (λ x, p x = false) l.
Proof.
  revert n. induction l as [|x l IH]; intros n; [done|]. simpl.
  destruct (p x) eqn:Hx; [destruct n|]; rewrite ?filter_cons, ?Hx; simpl; by rewrite IH.
Qed.
End Keep.

Lemma trim_loop_spec fuel overlay :
  let l := ov_recent_cues overlay in
  let n := count_if cue_needs_more_time l in
  (length l ≤ fuel)%nat → 0 ≤ ov_dropped_cue_count overlay ≤ u64_max →
  trim_loop fuel (Z.of_nat n) overlay
  = overlay <| ov_recent_cues := keep_newest cue_needs_more_time 18 l |>
            <| ov_dropped_cue_count ::= λ d, (d + Z.of_nat (n - 18)) mod (u64_max + 1) |>.
Proof.
  cbv zeta. revert overlay. induction fuel as [|fuel IH]; intros overlay Hlen Hd.
  - destruct overlay as [? ? ? ? ? d ? ? ? ? ? l]; simpl in *. destruct l; [|simpl in *; lia].
    unfold count_if. simpl. unfold set_with. simpl. f_equal. rewrite Z.add_0_r. symmetry. apply Z.mod_small. lia.
  - cbn [trim_loop]. unfold MAX_UNFINISHED_SUBTITLE_CUES at 1.
    destruct (18 <? _) eqn:Hc; bool_hyps.
    + destruct (rposition _ _) as [i|] eqn:Hi.
      2:{ apply rposition_None in Hi. rewrite Hi in Hc. lia. }
      apply rposition_delete in Hi as (Hn & Hl & Hk).
      set (o' := overlay <| ov_recent_cues ::= delete i |> <| ov_dropped_cue_count ::= λ n, wrapping_add n 1 |>).
      specialize (IH o'). simpl in IH.
      replace (Z.of_nat (count_if cue_needs_more_time (ov_recent_cues overlay)) - 1)
        with (Z.of_nat (count_if cue_needs_more_time (delete i (ov_recent_cues overlay)))) by lia.
      rewrite IH; [|lia|unfold wrapping_add; split;
        [apply Z.mod_pos_bound|apply Z.lt_succ_r, Z.mod_pos_bound]; done].
      destruct overlay as [? ? ? ? ? d ? ? ? ? ? l]. unfold o', set_with. simpl in *. f_equal.
      * unfold wrapping_add. rewrite Zplus_mod_idemp_l. f_equal. lia.
      * apply Hk. lia.
    + rewrite keep_newest_all by lia.
      destruct overlay as [? ? ? ? ? d ? ? ? ? ? l]. unfold set_with. simpl in *. f_equal.
      replace (_ - 18)%nat with O by lia. rewrite Z.add_0_r. symmetry. apply Z.mod_small. lia.
Qed.
Lemma trim_spec overlay :
  let l := ov_recent_cues overlay in
  let kept := keep_newest cue_needs_more_time 18 l in
  0 ≤ ov_dropped_cue_count overlay ≤ u64_max →
  trim_recent_subtitle_cues overlay
  = overlay <| ov_recent_cues := kept |>
            <| ov_dropped_cue_count ::= λ d,
                 (d + Z.of_nat (count_if cue_needs_more_time l - 18)) mod (u64_max + 1) |>
            <| ov_queue_depth := Z.of_nat (length kept) |>.
Proof.
  cbv zeta. intros Hd. unfold trim_recent_subtitle_cues. cbv zeta.
  by rewrite trim_loop_spec.
Qed.

(** ** What the cue transformers keep *)
(** Equal up to [ended_at], which the window and the active cue read separately. *)
Definition same_but_ended (a c : SubtitleCueRuntime) : Prop :=
  ∃ e, a = c <| cue_ended_at := e |>.
Lemma same_but_ended_refl c : same_but_ended c c.
Proof. exists (cue_ended_at c). by destruct c. Qed.
Lemma same_but_ended_intro c e : same_but_ended (c <| cue_ended_at := e |>) c.
Proof. by exists e. Qed.
(** [f] does not look at [ended_at]. *)
Definition ended_blind (f g : SubtitleCueRuntime → SubtitleCueRuntime) : Prop :=
  ∀ a c, same_but_ended a c → same_but_ended (f a) (g c).
Lemma finalize_ended c e :
  finalize_cue_display_segments (c <| cue_ended_at := e |>)
  = (finalize_cue_display_segments c) <| cue_ended_at := e |>.
Proof. done. Qed.
Lemma apply_source_ended source committed sequence c e :
  apply_source_update source committed sequence (c <| cue_ended_at := e |>)
  = (apply_source_update source committed sequence c) <| cue_ended_at := e |>.
Proof.
  destruct c. unfold apply_source_update, cue_revision. simpl.
  destruct (negb (bool_decide (comparison_text _ = _)) && _); simpl;
    [|destruct (negb (bool_decide (comparison_text _ = _))); simpl];
    by destruct (_ || _).
Qed.
Lemma source_update_blind source committed sequence :
  ended_blind (source_update source committed sequence) (source_update source committed sequence).
Proof.
  intros a c [e ->]. exists e. unfold source_update. destruct committed.
  - exact (f_equal finalize_cue_display_segments (apply_source_ended source true sequence c e)).
  - exact (apply_source_ended source false sequence c e).
Qed.
Lemma commit_source_blind source sequence now now' :
  ended_blind (commit_source source sequence now) (commit_source source sequence now').
Proof.
  intros a c [e ->]. exists (ms_marker now). unfold commit_source.
  exact (f_equal (λ c, (finalize_cue_display_segments c) <| cue_ended_at := ms_marker now |>)
           (apply_source_ended source true sequence c e)).
Qed.
Lemma commit_cue_blind sequence now now' :
  ended_blind (commit_cue sequence now) (commit_cue sequence now').
Proof.
  intros a c [e ->]. exists (ms_marker now). destruct c. unfold commit_cue. simpl.
  by destruct (_ && _).
Qed.
Lemma translation_update_ended m c e :
  apply_translation_update m (c <| cue_ended_at := e |>)
  = (λ c, c <| cue_ended_at := e |>) <$> apply_translation_update m c.
Proof.
  destruct c. unfold apply_translation_update, translation_update_allowed, cue_revision. simpl.
  destruct (negb (_ && _)); [done|]. destruct (_ && _); [done|]. simpl.
  by destruct (is_terminal _).
Qed.
Lemma display_update_ended r q src segs text st c e :
  apply_display_update r q src segs text st (c <| cue_ended_at := e |>)
  = (λ c, c <| cue_ended_at := e |>) <$> apply_display_update r q src segs text st c.
Proof.
  unfold apply_display_update. pose proof (translation_update_ended (mk_mutation r q text st) c e) as E.
  simpl in *. rewrite E. clear E.
  change (translation_update_allowed (c <| cue_ended_at := e |>) ?m)
    with (translation_update_allowed c m).
  destruct (negb (translation_update_allowed _ _)); [done|].
  destruct (apply_translation_update _ c) as [c'|]; simpl; [done|].
  by destruct (_ || _).
Qed.

(** The translation flag is the state [Final], and the state is always set. *)
Definition cue_ok (c : SubtitleCueRuntime) : Prop :=
  is_Some (cue_translation_state c)
  ∧ cue_translation_committed c = bool_decide (cue_translation_state c = Some Final).
Lemma apply_source_ok source committed sequence c :
  cue_ok c → cue_ok (apply_source_update source committed sequence c).
Proof.
  intros [H1 H2]. unfold apply_source_update, cue_ok.
  destruct (negb (bool_decide (comparison_text _ = _)) && _);
    [|destruct (negb (bool_decide (comparison_text _ = _)))];
    destruct (_ || _); simpl; split; try done; eauto.
Qed.
Lemma finalize_ok c : cue_ok c → cue_ok (finalize_cue_display_segments c).
Proof. done. Qed.
Lemma source_update_ok source committed sequence c :
  cue_ok c → cue_ok (source_update source committed sequence c).
Proof. intros H. unfold source_update. destruct committed; by apply apply_source_ok. Qed.
Lemma commit_source_ok source sequence now c :
  cue_ok c → cue_ok (commit_source source sequence now c).
Proof. intros H. by apply (apply_source_ok source true sequence) in H. Qed.
Lemma translation_update_ok m c c' : apply_translation_update m c = Some c' → cue_ok c'.
Proof.
  unfold apply_translation_update. destruct (negb _); [done|]. destruct (_ && _); [done|].
  intros [= <-]. unfold cue_ok. destruct (is_terminal _); simpl; (split; [by eauto|]);
    by destruct (mu_state m).
Qed.
Lemma display_update_ok r q src segs text st c c' :
  cue_ok c → apply_display_update r q src segs text st c = Some c' → cue_ok c'.
Proof.
  unfold apply_display_update. intros Hc. destruct (negb (translation_update_allowed _ _)); [done|].
  destruct (apply_translation_update _ c) as [c1|] eqn:E; simpl.
  - intros [= <-]. by apply translation_update_ok in E.
  - destruct (_ || _); [|done]. by intros [= <-].
Qed.
Lemma commit_cue_ok sequence now c : cue_ok c → cue_ok (commit_cue sequence now c).
Proof. intros H. unfold commit_cue, cue_ok. destruct (_ && _); simpl; [by eauto|done]. Qed.

(** How a cue may change in one operation: its revision never decreases, and
    a finished translation stays as it is while the source text means the same. *)
Definition cue_progress (c c' : SubtitleCueRuntime) : Prop :=
  cue_id c' = cue_id c
  ∧ (0 ≤ cue_revision c ≤ u64_max → cue_revision c ≤ cue_revision c' ≤ u64_max)
  ∧ (comparison_text (cue_source_text c') = comparison_text (cue_source_text c) →
     ∀ st, cue_translation_state c = Some st → is_terminal st = true →
       cue_translation_state c' = Some st ∧ cue_translated_text c' = cue_translated_text c).
Lemma progress_refl c : cue_progress c c.
Proof. split_and!; try done; lia. Qed.
Lemma apply_source_progress source committed sequence c :
  cue_progress c (apply_source_update source committed sequence c).
Proof.
  unfold cue_progress, apply_source_update, source_replaces_revision.
  destruct (decide (comparison_text (cue_source_text c) = comparison_text source)) as [E|E].
  - rewrite (bool_decide_true (comparison_text _ = _)) by done. simpl.
    destruct (_ || _); simpl; split_and!; try done; unfold cue_revision; simpl; lia.
  - rewrite (bool_decide_false (comparison_text _ = _)) by done. cbn [negb andb].
    destruct (_ && _); destruct (_ || _); simpl; split_and!; try done;
      try (intros E'; congruence); unfold cue_revision; simpl; intros; saturating_lia.
Qed.
Lemma finalize_progress c c' : cue_progress c c' → cue_progress c (finalize_cue_display_segments c').
Proof. done. Qed.
Lemma source_update_progress source committed sequence c :
  cue_progress c (source_update source committed sequence c).
Proof.
  unfold source_update. destruct committed; [apply finalize_progress|]; apply apply_source_progress.
Qed.
Lemma commit_source_progress source sequence now c :
  cue_progress c (commit_source source sequence now c).
Proof. apply (apply_source_progress source true sequence). Qed.
Lemma terminal_refuses m c st : cue_translation_state c = Some st → is_terminal st = true →
  translation_update_allowed c m = false.
Proof.
  intros H Ht. unfold translation_update_allowed, transition_allowed. rewrite H. simpl.
  destruct st; try done; by rewrite andb_false_r.
Qed.
Lemma translation_update_progress m c c' :
  apply_translation_update m c = Some c' → cue_progress c c'.
Proof.
  unfold apply_translation_update. destruct (translation_update_allowed c m) eqn:Ha; [|done].
  simpl. destruct (_ && _); [done|]. intros [= <-].
  destruct (is_terminal (mu_state m)); (split_and!; [done|simpl; unfold cue_revision; simpl; lia|]);
    intros _ st Hst Ht; exfalso; rewrite (terminal_refuses m c st) in Ha by done; done.
Qed.
Lemma display_update_progress r q src segs text st c c' :
  apply_display_update r q src segs text st c = Some c' → cue_progress c c'.
Proof.
  unfold apply_display_update.
  destruct (translation_update_allowed c _) eqn:Ha; [|done]. simpl. cbv zeta.
  intros H. assert (cue_progress c (default c (apply_translation_update (mk_mutation r q text st) c))) as [P1 [P2 P3]].
  { destruct (apply_translation_update _ c) as [c1|] eqn:E; simpl; [|apply progress_refl].
    by apply translation_update_progress in E. }
  destruct (negb _ && _); [done|]. injection H as <-. by split_and!.
Qed.
Lemma commit_cue_progress sequence now c : cue_progress c (commit_cue sequence now c).
Proof.
  unfold commit_cue, cue_progress. simpl.
  destruct (negb (is_blank _) && negb (bool_decide _)) eqn:E; simpl;
    (split_and!; [done|unfold cue_revision; simpl; lia|]); intros _ st Hst Ht; [|done].
  bool_hyps. split; [|done]. by destruct st.
Qed.
