(* ===== verification/SubtitleCuesTheorems.v ===== *)
(** * What the cue store guarantees

    The overlay's invariant, how a cue may evolve, when a translation is
    accepted, and the window's trimming against its reference. *)
From S2P Require Import Prelude RustStr SubtitleCues SubtitleCuesFacts.

(** ** List updates *)
Lemma find_cue_Some id l c : find_cue id l = Some c → c ∈ l ∧ cue_id c = id.
Proof.
  intros H. apply List.find_some in H as [Hin Hid].
  split; [by apply list_elem_of_In|]. by apply bool_decide_eq_true in Hid.
Qed.
Lemma has_cue_find id o : has_cue id o = is_Some_b (find_cue id (ov_recent_cues o)).
Proof.
  unfold has_cue, find_cue. induction (ov_recent_cues o) as [|c l IH]; [done|]. simpl.
  by destruct (has_id id c).
Qed.
Lemma has_cue_false id o : has_cue id o = false → id ∉ cue_id <$> ov_recent_cues o.
Proof.
  unfold has_cue. rewrite existsb_false. intros H (c & -> & Hc)%list_elem_of_fmap.
  specialize (H c Hc). unfold has_id in H. by apply bool_decide_eq_false in H.
Qed.
Lemma update_first_elem id f l c' : c' ∈ update_first id f l →
  c' ∈ l ∨ ∃ c, c ∈ l ∧ find_cue id l = Some c ∧ c' = f c.
Proof.
  unfold find_cue. induction l as [|c l IH]; [by left|]. simpl.
  destruct (has_id id c) eqn:Hc.
  - intros [->|H]%elem_of_cons; [right; exists c; split_and!; [left|done|done]|left; by right].
  - intros [->|H]%elem_of_cons; [left; left|].
    destruct (IH H) as [?|(x & Hx & ? & ?)]; [left; by right|right; exists x; split; [by right|done]].
Qed.
Lemma update_first_ext id f g l :
  (∀ c, find_cue id l = Some c → f c = g c) → update_first id f l = update_first id g l.
Proof.
  unfold find_cue. induction l as [|c l IH]; [done|]. simpl.
  destruct (has_id id c); intros H; [by rewrite H|by rewrite IH].
Qed.
Lemma update_first_length id f l : length (update_first id f l) = length l.
Proof. induction l as [|c l IH]; [done|]. simpl. destruct (has_id id c); simpl; congruence. Qed.
Lemma update_first_Forall id f (P : SubtitleCueRuntime → Prop) l :
  (∀ c, P c → P (f c)) → Forall P l → Forall P (update_first id f l).
Proof.
  intros Hf. induction l as [|c l IH]; [done|]. rewrite Forall_cons. intros [Hc Hl]. simpl.
  destruct (has_id id c); apply Forall_cons; split; auto.
Qed.

(** ** The overlay's invariant *)
Record overlay_inv (o : SubtitleOverlayRuntimeSnapshot) : Prop := {
  oi_cues : Forall cue_ok (ov_recent_cues o);
  oi_active a : ov_active_cue o = Some a →
    cue_ok a ∧ ∃ c rest, ov_recent_cues o = c :: rest ∧ same_but_ended a c;
  oi_dropped : 0 ≤ ov_dropped_cue_count o ≤ u64_max;
  oi_depth : ov_queue_depth o = Z.of_nat (length (ov_recent_cues o))
}.
Lemma same_has_id id a c : same_but_ended a c → has_id id a = has_id id c.
Proof. by intros [e ->]. Qed.
Lemma overlay_update id f g o :
  (∀ c, cue_ok c → cue_ok (f c)) → (∀ c, cue_ok c → cue_ok (g c)) → ended_blind g f →
  overlay_inv o →
  overlay_inv (o <| ov_recent_cues ::= update_first id f |> <| ov_active_cue ::= update_active id g |>).
Proof.
  intros Hf Hg Hfg [H1 H2 H3 H4]. split; simpl; [by apply update_first_Forall| |done|
    by rewrite update_first_length].
  intros a. unfold update_active. destruct (ov_active_cue o) as [a0|]; [|done].
  destruct (H2 a0 eq_refl) as (Ha & c & rest & Hr & Hs). intros [= <-]. rewrite Hr. simpl.
  rewrite (same_has_id _ _ _ Hs). destruct (has_id id c).
  - split; [by apply Hg|]. eexists _, _. split; [done|]. by apply Hfg.
  - split; [done|]. eexists _, _. by split.
Qed.
Lemma overlay_trim o :
  Forall cue_ok (ov_recent_cues o) →
  (∀ a, ov_active_cue o = Some a →
    cue_ok a ∧ ∃ c rest, ov_recent_cues o = c :: rest ∧ same_but_ended a c) →
  0 ≤ ov_dropped_cue_count o ≤ u64_max → overlay_inv (trim_recent_subtitle_cues o).
Proof.
  intros H1 H2 H3. rewrite trim_spec by done. split; simpl; [| | |done].
  - apply Forall_forall. intros c Hc. rewrite Forall_forall in H1. apply H1.
    by eapply keep_newest_elem.
  - intros a Ha. destruct (H2 a Ha) as (Hok & c & rest & -> & Hs). split; [done|].
    simpl. destruct (cue_needs_more_time c); by eexists _, _.
  - split; [apply Z.mod_pos_bound|apply Z.lt_succ_r, Z.mod_pos_bound]; done.
Qed.
Lemma overlay_insert cue o : cue_ok cue → overlay_inv o → overlay_inv (insert_cue cue o).
Proof.
  intros Hc [H1 _ H3 _]. apply overlay_trim; simpl; [by apply Forall_cons| |done].
  intros a [= <-]. split; [done|]. eexists _, _. split; [done|apply same_but_ended_refl].
Qed.
Lemma overlay_retain keep o :
  (∀ a c, same_but_ended a c → keep a = keep c) → overlay_inv o → overlay_inv (retain_cues keep o).
Proof.
  intros Hk [H1 H2 H3 _]. apply overlay_trim; simpl; [| |done].
  { rewrite Forall_forall in *. intros c [_ Hc]%list_elem_of_filter. by apply H1. }
  intros a. destruct (ov_active_cue o) as [a0|]; [|done]. destruct (keep a0) eqn:Hkeep; [|done].
  intros [= <-]. destruct (H2 a0 eq_refl) as (Ha & c & rest & -> & Hs). split; [done|].
  rewrite filter_cons, decide_True by (by rewrite <-(Hk _ _ Hs)). by eexists _, _.
Qed.
Lemma overlay_ended id now o : overlay_inv o →
  overlay_inv (o <| ov_recent_cues ::= update_first id (λ c, c <| cue_ended_at := now |>) |>).
Proof.
  intros H. set (f := λ c, c <| cue_ended_at := now |>).
  assert (o <| ov_recent_cues ::= update_first id f |>
    = o <| ov_recent_cues ::= update_first id f |> <| ov_active_cue ::= update_active id (λ c, c) |>) as E.
  { destruct o as [? ? ? ? ? ? ? ? ? ? [a|] ?]; [|done]. unfold update_active, set_with. simpl.
    by destruct (has_id id a). }
  rewrite E. apply overlay_update; try done.
  intros a c [e ->]. exists e. by destruct c.
Qed.

(** ** How the window evolves *)
(** Every cue of [o] comes from a cue of [o0], or has an id [fresh] allows. *)
Definition tracked (fresh : string → Prop) (o0 o : SubtitleOverlayRuntimeSnapshot) : Prop :=
  ∀ c', c' ∈ ov_recent_cues o →
    (∃ c, c ∈ ov_recent_cues o0 ∧ cue_progress c c') ∨ fresh (cue_id c').
Lemma tracked_refl fresh o : tracked fresh o o.
Proof. intros c Hc. left. exists c. split; [done|apply progress_refl]. Qed.
Lemma tracked_quiet fresh o0 o o' :
  tracked fresh o0 o →
  (∀ c', c' ∈ ov_recent_cues o' → ∃ c, c ∈ ov_recent_cues o ∧ same_but_ended c' c) →
  tracked fresh o0 o'.
Proof.
  intros H Hq c' Hc'. destruct (Hq c' Hc') as (c & Hc & e & ->).
  destruct (H c Hc) as [(c0 & H0 & Hp)|Hf]; [|by right]. left. by exists c0.
Qed.
Lemma tracked_update fresh id f o g :
  (∀ c, find_cue id (ov_recent_cues o) = Some c → cue_progress c (f c)) →
  tracked fresh o (o <| ov_recent_cues ::= update_first id f |> <| ov_active_cue ::= g |>).
Proof.
  intros Hf c' [Hc'|(c & Hc & E & ->)]%update_first_elem; left.
  - exists c'. split; [done|apply progress_refl].
  - exists c. split; [done|by apply Hf].
Qed.
Lemma trim_elem o c : 0 ≤ ov_dropped_cue_count o ≤ u64_max →
  c ∈ ov_recent_cues (trim_recent_subtitle_cues o) → c ∈ ov_recent_cues o.
Proof.
  intros Hd. rewrite trim_spec by done. simpl. apply keep_newest_elem.
Qed.
Lemma tracked_insert (fresh : string → Prop) cue o :
  overlay_inv o → fresh (cue_id cue) → tracked fresh o (insert_cue cue o).
Proof.
  intros Ho Hf c' Hc'. apply trim_elem in Hc'; [|apply Ho]. simpl in Hc'.
  apply elem_of_cons in Hc' as [->|Hc']; [by right|]. left. exists c'.
  split; [done|apply progress_refl].
Qed.
Lemma retain_elem keep o c : overlay_inv o →
  c ∈ ov_recent_cues (retain_cues keep o) → c ∈ ov_recent_cues o.
Proof.
  intros Ho Hc. apply trim_elem in Hc; [|apply Ho]. simpl in Hc.
  by apply list_elem_of_filter in Hc as [_ ?].
Qed.
Lemma tracked_retain fresh keep o0 o :
  overlay_inv o → tracked fresh o0 o → tracked fresh o0 (retain_cues keep o).
Proof.
  intros Ho H. eapply tracked_quiet; [exact H|]. intros c Hc. exists c.
  split; [by eapply retain_elem|apply same_but_ended_refl].
Qed.

(** ** The operations on the window *)
Section Ops.
Context (unix_ms instant : nat → Z).
Abbreviation exec := (exec_cue unix_ms instant).
Abbreviation step := (cue_store_step unix_ms instant).

(** Changes that leave the window's cues and counters. *)
Definition same_window (o o' : SubtitleOverlayRuntimeSnapshot) : Prop :=
  ov_recent_cues o' = ov_recent_cues o ∧ ov_active_cue o' = ov_active_cue o
  ∧ ov_dropped_cue_count o' = ov_dropped_cue_count o ∧ ov_queue_depth o' = ov_queue_depth o.
Lemma same_window_inv o o' : same_window o o' → overlay_inv o → overlay_inv o'.
Proof. intros (E1 & E2 & E3 & E4) [H1 H2 H3 H4]. split; by rewrite ?E1, ?E2, ?E3, ?E4. Qed.
Lemma same_window_tracked fresh o0 o o' :
  same_window o o' → tracked fresh o0 o → tracked fresh o0 o'.
Proof. intros (E & _) H c. rewrite E. apply H. Qed.
Lemma record_source_overlay id text s : st_overlay (record_source instant id text s) = st_overlay s.
Proof.
  unfold record_source. destruct (is_blank text); [done|].
  by destruct (tm_first_source_at _).
Qed.
Lemma publish_source_overlay id direction text committed sequence s :
  st_overlay (publish_source instant id direction text committed sequence s) = st_overlay s.
Proof.
  unfold publish_source. destruct (find_cue _ _); simpl; apply record_source_overlay.
Qed.
Lemma note_translation_window id text s :
  same_window (st_overlay s) (st_overlay (note_translation instant id text s)).
Proof.
  unfold note_translation, record_translation. destruct (is_blank text); [done|].
  destruct (tm_recorded _); [done|]. by destruct (tm_first_source_at _).
Qed.
Lemma with_active_overlay id f s : ∃ now,
  st_overlay (with_active unix_ms id f s)
  = (st_overlay s) <| ov_active_cue ::= update_active id (f now) |>.
Proof.
  exists (unix_ms (st_readings s)). unfold with_active.
  destruct (st_overlay s) as [? ? ? ? ? ? ? ? ? ? [a|] ?] eqn:E; simpl; rewrite ?E; [|done].
  destruct (has_id id a) eqn:Hid; simpl; rewrite ?E; unfold set_with, update_active; simpl; by rewrite ?Hid.
Qed.
Lemma update_accepted_overlay id f s s' :
  update_accepted id f s = Some s' →
  st_overlay s' = (st_overlay s)
    <| ov_recent_cues ::= update_first id (λ c, default c (f c)) |>
    <| ov_active_cue ::= update_active id (λ a, default a (f a)) |>
  ∧ ∃ cue cue', find_cue id (ov_recent_cues (st_overlay s)) = Some cue ∧ f cue = Some cue'.
Proof.
  unfold update_accepted. destruct (find_cue _ _) as [cue|] eqn:Hf; [|done].
  destruct (f cue) as [cue'|] eqn:Hc; [|done]. intros [= <-]. split; [|by exists cue, cue'].
  simpl. unfold set_with. simpl. f_equal. apply update_first_ext. intros c E.
  rewrite Hf in E. injection E as <-. by rewrite Hc.
Qed.

(** *** One translation update *)
Lemma find_update_first id f l c : find_cue id l = Some c → cue_id (f c) = cue_id c →
  find_cue id (update_first id f l) = Some (f c).
Proof.
  unfold find_cue. induction l as [|x l IH]; [done|]. simpl.
  destruct (has_id id x) eqn:Hx.
  - intros [= ->] Hid. simpl. unfold has_id in *. by rewrite Hid, Hx.
  - intros Hf Hid. simpl. rewrite Hx. auto.
Qed.
Lemma translation_update_iff m c : is_Some (apply_translation_update m c) ↔
  (∀ expected, mu_expected_revision m = Some expected → expected = cue_revision c)
  ∧ transition_allowed (cue_translation_state c) (mu_state m) = true
  ∧ ¬ (cue_translation_state c = Some (mu_state m) ∧ cue_translated_text c = mu_translated_text m).
Proof.
  unfold apply_translation_update, translation_update_allowed.
  destruct (transition_allowed _ _); [|rewrite andb_false_r; split; [by intros []|by intros (_ & ? & _)]].
  rewrite andb_true_r, negb_involutive. destruct (mu_expected_revision m) as [e|]; simpl.
  - destruct (Z.eqb_spec e (cue_revision c)) as [E|E]; simpl.
    + destruct (_ && _) eqn:Hs.
      * bool_hyps. split; [by intros []|]. tauto.
      * split; [|by eauto]. intros _. split_and!; [by intros ? [= <-]|done|].
        intros [E1 E2]. rewrite E1, E2, !bool_decide_true in Hs by done. done.
    + split; [by intros []|]. intros (He & _). by destruct (E (He e eq_refl)).
  - destruct (_ && _) eqn:Hs.
    + bool_hyps. split; [by intros []|]. tauto.
    + split; [|by eauto]. intros _. split_and!; [done|done|].
      intros [E1 E2]. rewrite E1, E2, !bool_decide_true in Hs by done. done.
Qed.
Definition stamped (m : TranslationMutation) (c : SubtitleCueRuntime) : Prop :=
  cue_translated_text c = mu_translated_text m ∧ cue_translation_state c = Some (mu_state m)
  ∧ cue_translation_committed c = bool_decide (mu_state m = Final)
  ∧ cue_sequence c = Some (mu_sequence m)
  ∧ (is_terminal (mu_state m) = true → Forall (λ g, sg_pending g = false) (cue_display_segments c)).
Lemma translation_update_stamped m c c' : apply_translation_update m c = Some c' →
  cue_id c' = cue_id c ∧ stamped m c'.
Proof.
  unfold apply_translation_update, stamped. destruct (negb _); [done|]. destruct (_ && _); [done|].
  intros [= <-]. destruct (is_terminal _) eqn:Ht; split_and!; try done; rewrite ?Ht; try done; intros _.
  apply Forall_fmap, Forall_forall. done.
Qed.
Lemma note_translation_effects id text s :
  st_effects (note_translation instant id text s) = st_effects s.
Proof.
  unfold note_translation, record_translation. destruct (is_blank text); [done|].
  destruct (tm_recorded _); [done|]. by destruct (tm_first_source_at _).
Qed.
Lemma apply_translation_run id r text st s c c1 :
  let m := mk_mutation r (wrapping_add (st_subtitle_sequence s) 1) text st in
  find_cue id (ov_recent_cues (st_overlay s)) = Some c →
  apply_translation_update m c = Some c1 →
  let result := apply_subtitle_cue_translation unix_ms instant id r text st s in
  ∃ c', same_but_ended c' c1 ∧ result.1 = true
    ∧ find_cue id (ov_recent_cues (st_overlay result.2)) = Some c'
    ∧ st_effects result.2 = st_effects s ++ [ArchiveCue c';
        RecordPublish id (cue_route_direction c') (cue_source_text c') text
          (cue_display_segments c') (bool_decide (st = Final)) (cue_revision c')
          (default (mu_sequence m) (cue_sequence c')) (Some st)].
Proof.
  intros m Hf Hc result. unfold apply_subtitle_cue_translation in result.
  cbn [next_subtitle_sequence] in result. cbv zeta beta iota in result. fold m in result.
  set (s1 := update_overlay (λ o, o <| ov_recent_cues ::= update_first id (λ _, c1) |>
    <| ov_active_cue ::= update_active id (λ a, default a (apply_translation_update m a)) |>)
    (s <| st_subtitle_sequence := wrapping_add (st_subtitle_sequence s) 1 |>)).
  assert (update_accepted id (apply_translation_update m)
    (s <| st_subtitle_sequence := wrapping_add (st_subtitle_sequence s) 1 |>) = Some s1) as E.
  { unfold update_accepted. simpl. by rewrite Hf, Hc. }
  unfold result. rewrite E. clear result E.
  assert (∀ s2 c', find_cue id (ov_recent_cues (st_overlay s2)) = Some c' →
    st_effects s2 = st_effects s → same_but_ended c' c1 →
    let result := match find_cue id (ov_recent_cues (st_overlay s2)) with
      | Some cue => (true, record_publish_context id text cue (wrapping_add (st_subtitle_sequence s) 1) st
          (if bool_decide (st = Streaming) || bool_decide (st = Final)
           then note_translation instant id text s2 else s2))
      | None => (false, s2) end in
    ∃ c', same_but_ended c' c1 ∧ result.1 = true
    ∧ find_cue id (ov_recent_cues (st_overlay result.2)) = Some c'
    ∧ st_effects result.2 = st_effects s ++ [ArchiveCue c';
        RecordPublish id (cue_route_direction c') (cue_source_text c') text
          (cue_display_segments c') (bool_decide (st = Final)) (cue_revision c')
          (default (mu_sequence m) (cue_sequence c')) (Some st)]) as Htail.
  { intros s2 c' H2 He Hs. rewrite H2. exists c'. simpl. split_and!; [done|done| |].
    - destruct (_ || _); [|done]. by destruct (note_translation_window id text s2) as [-> _].
    - rewrite <-app_assoc. simpl. destruct (_ || _); rewrite ?note_translation_effects; by rewrite He. }
  assert (cue_id c1 = cue_id c) as Hid by by apply translation_update_stamped in Hc as [? _].
  assert (find_cue id (ov_recent_cues (st_overlay s1)) = Some c1) as H1
    by exact (find_update_first id (λ _, c1) _ c Hf Hid).
  destruct (is_terminal st).
  - eapply Htail; [|done|apply same_but_ended_intro].
    by apply (find_update_first id (λ c, c <| cue_ended_at := _ |>)).
  - by apply (Htail s1 c1); [..|apply same_but_ended_refl].
Qed.

(** An operation keeps the invariant, and every cue it leaves is tracked. *)
Definition sound (fresh : string → Prop) (o o' : SubtitleOverlayRuntimeSnapshot) : Prop :=
  overlay_inv o → overlay_inv o' ∧ tracked fresh o o'.
Definition unused (o : SubtitleOverlayRuntimeSnapshot) (id : string) : Prop :=
  id ∉ cue_id <$> ov_recent_cues o.
Lemma sound_update fresh id f g o :
  (∀ c, cue_ok c → cue_ok (f c)) → (∀ c, cue_ok c → cue_ok (g c)) → ended_blind g f →
  (∀ c, cue_progress c (f c)) →
  sound fresh o (o <| ov_recent_cues ::= update_first id f |> <| ov_active_cue ::= update_active id g |>).
Proof.
  intros Hf Hg Hb Hp Ho. split; [by apply overlay_update|]. by apply tracked_update.
Qed.
Lemma sound_insert (fresh : string → Prop) cue o :
  cue_ok cue → fresh (cue_id cue) → sound fresh o (insert_cue cue o).
Proof. intros Hc Hf Ho. split; [by apply overlay_insert|by apply tracked_insert]. Qed.
Lemma sound_retain fresh keep o : (∀ a c, same_but_ended a c → keep a = keep c) →
  sound fresh o (retain_cues keep o).
Proof.
  intros Hk Ho. split; [by apply overlay_retain|]. apply tracked_retain; [done|apply tracked_refl].
Qed.
Lemma sound_window fresh o o1 o2 : same_window o1 o2 → sound fresh o o1 → sound fresh o o2.
Proof.
  intros H Hs [H1 H2]%Hs. split; [by eapply same_window_inv|by eapply same_window_tracked].
Qed.
Lemma sound_ended fresh id now o o1 : sound fresh o o1 →
  sound fresh o (o1 <| ov_recent_cues ::= update_first id (λ c, c <| cue_ended_at := now |>) |>).
Proof.
  intros Hs [H1 H2]%Hs. split; [by apply overlay_ended|]. eapply tracked_quiet; [exact H2|].
  intros c' [Hc|(c & Hc & _ & ->)]%update_first_elem.
  - exists c'. split; [done|apply same_but_ended_refl].
  - exists c. split; [done|apply same_but_ended_intro].
Qed.
Lemma sound_refl fresh o : sound fresh o o.
Proof. intros H. split; [done|apply tracked_refl]. Qed.

Lemma new_cue_ok id direction text committed sequence now :
  cue_ok (new_subtitle_cue id direction text committed sequence now).
Proof. by split; [eexists|]. Qed.
Lemma source_sound id text committed s :
  sound (unused (st_overlay s)) (st_overlay s)
    (st_overlay (update_or_push_stt_cue unix_ms instant id text committed s)).
Proof.
  unfold update_or_push_stt_cue. simpl. rewrite publish_source_overlay.
  destruct (has_cue id _) eqn:Hc; simpl.
  - apply sound_update.
    + intros c H. destruct (ignores_partial _ _ _); [done|by apply source_update_ok].
    + intros c H. destruct (active_accepts_source _ _ _); [by apply source_update_ok|done].
    + intros a c H. replace (active_accepts_source text committed a)
        with (negb (ignores_partial text committed c)).
      2:{ destruct H as [e ->]. unfold ignores_partial, active_accepts_source. simpl.
          rewrite Z.leb_antisym. by destruct (cue_committed c), committed, (is_empty text), (_ <? _). }
      destruct (ignores_partial _ _ _); [done|]. by apply source_update_blind.
    + intros c. destruct (ignores_partial _ _ _); [apply progress_refl|apply source_update_progress].
  - apply sound_insert; [apply new_cue_ok|by apply has_cue_false].
Qed.
Lemma commit_source_sound id text direction s :
  sound (unused (st_overlay s)) (st_overlay s)
    (st_overlay (commit_stt_cue unix_ms instant id text direction s)).
Proof.
  unfold commit_stt_cue. simpl. rewrite publish_source_overlay.
  destruct (has_cue id _) eqn:Hc; simpl.
  - destruct (with_active_overlay id (commit_source text (wrapping_add (st_subtitle_sequence s) 1))
      (update_overlay (λ o, o <| ov_recent_cues ::= update_first id
         (commit_source text (wrapping_add (st_subtitle_sequence s) 1) (unix_ms (st_readings s))) |>)
         ((next_subtitle_sequence (set_source_final id true s)).2 <| st_readings ::= S |>)))
      as [now E].
    simpl in E. rewrite E.
    apply sound_update; intros; [by apply commit_source_ok|by apply commit_source_ok
                                |apply commit_source_blind|apply commit_source_progress].
  - apply sound_insert; [apply new_cue_ok|by apply has_cue_false].
Qed.
Lemma accepted_sound fresh id f s s' :
  (∀ c e, f (c <| cue_ended_at := e |>) = (λ c, c <| cue_ended_at := e |>) <$> f c) →
  (∀ c c', cue_ok c → f c = Some c' → cue_ok c') →
  (∀ c c', f c = Some c' → cue_progress c c') →
  update_accepted id f s = Some s' → sound fresh (st_overlay s) (st_overlay s').
Proof.
  intros Hb Hok Hp H. apply update_accepted_overlay in H as [-> _].
  assert (∀ c, cue_ok c → cue_ok (default c (f c))) as Hd
    by (intros c Hc; destruct (f c) eqn:E; [by eapply Hok|done]).
  apply sound_update; [done|done| |].
  - intros a c [e ->]. exists e. rewrite Hb. by destruct (f c).
  - intros c. destruct (f c) eqn:E; [by apply Hp|apply progress_refl].
Qed.
Lemma translation_sound fresh id r text st s :
  sound fresh (st_overlay s)
    (st_overlay (apply_subtitle_cue_translation unix_ms instant id r text st s).2).
Proof.
  unfold apply_subtitle_cue_translation. simpl.
  destruct (update_accepted _ _ _) as [s1|] eqn:Ha; simpl; [|apply sound_refl].
  apply (accepted_sound fresh) in Ha;
    [|intros; apply translation_update_ended|intros ? ? _; apply translation_update_ok
     |intros ? ?; apply translation_update_progress].
  simpl in Ha.
  assert (∀ s2, sound fresh (st_overlay s) (st_overlay s2) →
    sound fresh (st_overlay s) (st_overlay (match find_cue id (ov_recent_cues (st_overlay s2)) with
      | Some cue => (true, record_publish_context id text cue (wrapping_add (st_subtitle_sequence s) 1) st
          (if bool_decide (st = Streaming) || bool_decide (st = Final)
           then note_translation instant id text s2 else s2))
      | None => (false, s2) end).2)) as Htail.
  { intros s2 H2. destruct (find_cue _ _); [|exact H2]. simpl.
    destruct (_ || _); [|exact H2]. eapply sound_window; [apply note_translation_window|exact H2]. }
  destruct (is_terminal st).
  - refine (Htail (update_overlay _ (s1 <| st_readings ::= S |>)) _). by apply sound_ended.
  - by apply Htail.
Qed.
Lemma display_sound fresh id r src segs text st s :
  sound fresh (st_overlay s)
    (st_overlay (update_subtitle_cue_display_segments_for_revision instant id r src segs text st s).2).
Proof.
  unfold update_subtitle_cue_display_segments_for_revision. simpl.
  destruct (update_accepted _ _ _) as [s1|] eqn:Ha; simpl; [|apply sound_refl].
  apply (accepted_sound fresh) in Ha;
    [|intros; apply display_update_ended|intros ? ?; apply display_update_ok
     |intros ? ?; apply display_update_progress].
  simpl in Ha. destruct (find_cue _ _) as [cue|]; simpl; [|done].
  destruct (_ && _); [|done]. eapply sound_window; [apply note_translation_window|done].
Qed.
Lemma commit_sound fresh id s :
  sound fresh (st_overlay s) (st_overlay (commit_subtitle_cue unix_ms id s)).
Proof.
  unfold commit_subtitle_cue. cbn [next_subtitle_sequence read_unix_ms fst snd]. cbv beta iota zeta.
  set (sequence := wrapping_add _ 1).
  set (s1 := if has_cue id _ then _ else _).
  destruct (with_active_overlay id (commit_cue sequence) s1) as [now E].
  assert (sound fresh (st_overlay s) (st_overlay (with_active unix_ms id (commit_cue sequence) s1))) as H.
  { rewrite E. unfold s1. destruct (has_cue id _) eqn:Hc; simpl.
    - apply sound_update; intros; [by apply commit_cue_ok|by apply commit_cue_ok
                                  |apply commit_cue_blind|apply commit_cue_progress].
    - assert (∀ l, existsb (has_id id) l = false → update_first id (λ c, c) l = l) as Hid.
      { induction l as [|c l IH]; [done|]. simpl. intros [-> H]%orb_false_iff. by rewrite IH. }
      intros Ho. assert (ov_active_cue (st_overlay s) = None ∨ ∃ a, ov_active_cue (st_overlay s) = Some a ∧ has_id id a = false) as Ha.
      { destruct (ov_active_cue (st_overlay s)) as [a|] eqn:Ha; [|by left]. right. exists a.
        split; [done|]. destruct (oi_active _ Ho a Ha) as (_ & c & rest & Hr & Hs).
        rewrite (same_has_id _ _ _ Hs). unfold has_cue in Hc. simpl in Hc. rewrite Hr in Hc.
        simpl in Hc. by apply orb_false_iff in Hc as [? _]. }
      eapply sound_window; [|apply sound_refl|exact Ho]. split_and!; try done. simpl.
      destruct Ha as [->|(a & -> & Hid')]; [done|]. simpl. by rewrite Hid'. }
  revert H. generalize (with_active unix_ms id (commit_cue sequence) s1). intros s2 H.
  destruct (find_cue _ _) as [cue|]; [|done]. by destruct (is_empty _).
Qed.
Lemma push_sound cue s :
  sound (λ id, id = cue_id cue) (st_overlay s) (st_overlay (push_subtitle_cue instant cue s)).
Proof.
  unfold push_subtitle_cue. cbn [next_subtitle_sequence]. cbv zeta beta iota.
  set (c1 := cue <| cue_revision_field := _ |> <| cue_sequence := _ |>
                 <| cue_translation_state := _ |> <| cue_translation_committed := _ |>).
  set (c2 := if cue_committed c1 then _ else _).
  assert (cue_ok c2) as Hok.
  { assert (cue_ok c1) as H1.
    { split; simpl; [by eexists|]. by destruct (default _ _). }
    unfold c2. by destruct (cue_committed c1). }
  assert (cue_id c2 = cue_id cue) as Hid by (unfold c2; by destruct (cue_committed c1)).
  destruct (is_empty _); simpl; rewrite record_source_overlay; simpl; by apply sound_insert.
Qed.
Lemma discard_sound fresh id s :
  sound fresh (st_overlay s) (st_overlay (discard_uncommitted_subtitle_cue id s)).
Proof. apply sound_retain. intros a c [e ->]. done. Qed.
Lemma discards_sound fresh ids o s : sound fresh o (st_overlay s) →
  sound fresh o (st_overlay (fold_left (λ s id, discard_uncommitted_subtitle_cue id s) ids s)).
Proof.
  revert s. induction ids as [|id ids IH]; intros s H; [done|]. simpl. apply IH.
  intros [H1 H2]%H. destruct (discard_sound fresh id s H1) as [H3 _]. split; [done|].
  apply (tracked_retain fresh (λ c, negb (has_id id c) || cue_committed c)); done.
Qed.
Definition pushes (o : cue_op) (id : string) : Prop :=
  match o with OpPush cue => id = cue_id cue | _ => False end.
Lemma op_sound o s :
  sound (λ id, unused (st_overlay s) id ∨ pushes o id) (st_overlay s) (st_overlay (exec o s)).
Proof.
  assert (∀ (P Q : string → Prop) o o', (∀ id, P id → Q id) → sound P o o' → sound Q o o') as Hmono.
  { intros P Q o1 o2 HPQ H [H1 H2]%H. split; [done|]. intros c' Hc'.
    destruct (H2 c' Hc') as [?|?]; [by left|right; by apply HPQ]. }
  destruct o; simpl.
  - eapply Hmono; [|apply source_sound]. by left.
  - eapply Hmono; [|apply commit_source_sound]. by left.
  - eapply Hmono; [|apply push_sound]. by right.
  - apply translation_sound.
  - apply display_sound.
  - unfold update_subtitle_cue_display_segments. destruct (find_cue _ _); [|apply sound_refl].
    apply display_sound.
  - apply commit_sound.
  - intros _. split; [|intros c Hc; by apply elem_of_nil in Hc].
    by split.
  - apply sound_retain. by intros a c [e ->].
  - apply sound_retain. by intros a c [e ->].
  - apply discard_sound.
  - apply sound_retain. by intros a c [e ->].
  - apply sound_refl.
  - apply sound_refl.
  - unfold discard_expired_deferred_subtitle_cues. simpl. apply discards_sound. apply sound_refl.
Qed.
#[export] Instance cue_store_invariant :
  Invariant (eq initial_store) step (λ s, overlay_inv (st_overlay s)).
Proof.
  split.
  - intros s <-. by split.
  - intros s o s' H <-. by apply (op_sound o s).
Qed.

(** In every reachable state of the cue store, every cue in the window and
    the active cue carry a translation state and are flagged translated exactly
    when that state is final; the active cue is always the newest cue of the
    window, equal to it in every field but the separately read end time; and
    the published queue depth is the window's length. *)
Theorem active_cue_mirrors_the_newest s :
  cue_store_reachable unix_ms instant s →
  let o := st_overlay s in
  (∀ c, c ∈ ov_recent_cues o → cue_ok c)
  ∧ (∀ a, ov_active_cue o = Some a →
       cue_ok a ∧ ∃ c rest, ov_recent_cues o = c :: rest ∧ same_but_ended a c)
  ∧ ov_queue_depth o = Z.of_nat (length (ov_recent_cues o)).
Proof.
  intros Hr. destruct (reachable_inv _ step (λ s, overlay_inv (st_overlay s)) s Hr) as [H1 H2 _ H4].
  split_and!; [by apply Forall_forall|done|done].
Qed.

(** C12: A finished translation is frozen: in a reachable state whose cue ids are
    distinct, one operation that does not push a cue of the same id leaves a
    cue with the same id, a revision that did not decrease, and — while its
    source text means the same — the same translation and state if that state
    was final or an error. *)
Theorem finished_translations_are_frozen s o id c c' :
  cue_store_reachable unix_ms instant s → NoDup (cue_id <$> ov_recent_cues (st_overlay s)) →
  (∀ cue, o = OpPush cue → cue_id cue ≠ id) →
  find_cue id (ov_recent_cues (st_overlay s)) = Some c →
  find_cue id (ov_recent_cues (st_overlay (exec o s))) = Some c' →
  cue_progress c c'.
Proof.
  intros Hr Hnd Hp Hf Hf'.
  pose proof (reachable_inv _ step (λ s, overlay_inv (st_overlay s)) s Hr) as Hi.
  destruct (op_sound o s Hi) as [_ Ht].
  apply find_cue_Some in Hf as [Hin Hid], Hf' as [Hin' Hid'].
  destruct (Ht c' Hin') as [(c0 & Hin0 & Hprog)|[Hu|Hpush]].
  - assert (c0 = c) as ->; [|done]. destruct Hprog as [Hid0 _].
    apply list_elem_of_lookup in Hin as [i Hi1], Hin0 as [j Hj1].
    assert (i = j) as <-; [|congruence].
    eapply (NoDup_lookup _ i j (cue_id c) Hnd); rewrite list_lookup_fmap;
      rewrite ?Hi1, ?Hj1; simpl; congruence.
  - exfalso. apply Hu. rewrite Hid', <-Hid. apply list_elem_of_fmap. by exists c.
  - exfalso. destruct o; try done. simpl in Hpush. apply (Hp cue eq_refl). congruence.
Qed.

(** A translation is accepted exactly when the cue is in the window, the
    expected revision (if any) is the cue's, its state may move to the incoming
    one and something changes. A refusal changes nothing but the sequence
    counter; an acceptance stamps the cue with the new text, state and sequence,
    settles its segments when the translation is finished, and archives and
    reports exactly that cue. *)
Theorem translation_accepted_exactly_when id r text st s :
  let sequence := wrapping_add (st_subtitle_sequence s) 1 in
  let '(accepted, s') := apply_subtitle_cue_translation unix_ms instant id r text st s in
  (accepted = true ↔ ∃ c, find_cue id (ov_recent_cues (st_overlay s)) = Some c
     ∧ (∀ expected, r = Some expected → expected = cue_revision c)
     ∧ transition_allowed (cue_translation_state c) st = true
     ∧ ¬ (cue_translation_state c = Some st ∧ cue_translated_text c = text))
  ∧ (accepted = false → s' = s <| st_subtitle_sequence := sequence |>)
  ∧ (accepted = true → ∃ c',
       find_cue id (ov_recent_cues (st_overlay s')) = Some c'
       ∧ cue_translated_text c' = text ∧ cue_translation_state c' = Some st
       ∧ cue_translation_committed c' = bool_decide (st = Final)
       ∧ cue_sequence c' = Some sequence
       ∧ (is_terminal st = true → Forall (λ g, sg_pending g = false) (cue_display_segments c'))
       ∧ st_effects s' = st_effects s ++ [ArchiveCue c';
           RecordPublish id (cue_route_direction c') (cue_source_text c') text
             (cue_display_segments c') (bool_decide (st = Final)) (cue_revision c') sequence (Some st)]).
Proof.
  cbv zeta. destruct (apply_subtitle_cue_translation unix_ms instant id r text st s) as [b s'] eqn:E.
  set (m := mk_mutation r (wrapping_add (st_subtitle_sequence s) 1) text st).
  destruct (find_cue id (ov_recent_cues (st_overlay s))) as [c|] eqn:Hf.
  2:{ unfold apply_subtitle_cue_translation, update_accepted in E. simpl in E. rewrite Hf in E.
      injection E as <- <-. split_and!; [|done|done]. split; [done|]. by intros (? & ? & _). }
  destruct (apply_translation_update m c) as [c1|] eqn:Hc.
  - destruct (apply_translation_run id r text st s c c1 Hf Hc) as (c' & [e Hs] & H1 & H2 & H3).
    rewrite E in H1, H2, H3. simpl in H1, H2, H3. subst b.
    apply translation_update_stamped in Hc as Hst. destruct Hst as (_ & R1 & R2 & R3 & R4 & R5).
    assert (is_Some (apply_translation_update m c)) as Hi%translation_update_iff by eauto.
    split_and!; [split; [intros _; exists c; split; [done|exact Hi]|done]|done|]. intros _. exists c'. subst c'.
    subst m. simpl in *. rewrite R4 in H3. split_and!; try done. rewrite R4. exact H3.
  - unfold apply_subtitle_cue_translation, update_accepted in E. simpl in E. fold m in E.
    rewrite Hf, Hc in E. injection E as <- <-. split_and!; [|done|done]. split; [done|].
    intros (? & [= <-] & Hi). apply (translation_update_iff m) in Hi as [? Hi]. congruence.
Qed.
End Ops.

(** The window's trimming loop terminates with its reference result: exactly
    the 18 newest unfinished cues are kept, every finished cue is kept in its
    place, the dropped counter grows by the number removed and the depth is
    the new length. *)
Theorem trim_keeps_the_newest_unfinished overlay :
  let l := ov_recent_cues overlay in
  let kept := keep_newest cue_needs_more_time 18 l in
  0 ≤ ov_dropped_cue_count overlay ≤ u64_max →
  trim_recent_subtitle_cues overlay
  = overlay <| ov_recent_cues := kept |>
            <| ov_dropped_cue_count ::= λ d,
                 (d + Z.of_nat (count_if cue_needs_more_time l - 18)) mod (u64_max + 1) |>
            <| ov_queue_depth := Z.of_nat (length kept) |>
  ∧ (count_if cue_needs_more_time kept ≤ 18)%nat
  ∧ filter (λ c, cue_needs_more_time c = false) kept
    = filter (λ c, cue_needs_more_time c = false) l
  ∧ kept `sublist_of` l.
Proof.
  cbv zeta. intros Hd. split_and!.
  - by apply trim_spec.
  - apply keep_newest_count.
  - apply keep_newest_others.
  - apply keep_newest_sublist.
Qed.

(** ** Instances *)
Definition sample_ms (k : nat) : Z := 1700000000000 + Z.of_nat k.
Definition sample_instant (k : nat) : Z := Z.of_nat k * 5000000.
Definition sample_cue_ops : list cue_op :=
  [OpSource "inbound-1" "Hello" false; OpSource "inbound-1" "Hello there" true;
   OpTranslate "inbound-1" (Some 1) "Hola" Streaming].
Definition sample_cues : Store :=
  fold_left (λ s o, exec_cue sample_ms sample_instant o s) sample_cue_ops initial_store.
Lemma sample_cues_reachable : cue_store_reachable sample_ms sample_instant sample_cues.
Proof.
  eapply run_reachable; [by apply reach_init|].
  exact (run_fold (cue_store_step sample_ms sample_instant) (exec_cue sample_ms sample_instant)
           sample_cue_ops initial_store (λ _ _, eq_refl)).
Qed.
Definition sample_final : cue_op := OpTranslate "inbound-1" (Some 1) "Hola a todos" Final.
Definition sample_late : cue_op := OpTranslate "inbound-1" (Some 1) "Adios" Error.
Definition sample_done : Store := exec_cue sample_ms sample_instant sample_final sample_cues.
Lemma sample_done_reachable : cue_store_reachable sample_ms sample_instant sample_done.
Proof.
  refine (reach_step (eq initial_store) (cue_store_step sample_ms sample_instant)
    sample_cues sample_final sample_done sample_cues_reachable _).
  unfold cue_store_step, sample_done. reflexivity.
Qed.

Lemma active_cue_mirrors_the_newest_witness :
  ∃ a, ov_active_cue (st_overlay sample_cues) = Some a
  ∧ cue_source_text a = "Hello there" ∧ cue_translated_text a = "Hola" ∧ cue_ok a.
Proof.
  destruct (active_cue_mirrors_the_newest sample_ms sample_instant sample_cues
              sample_cues_reachable) as (_ & H & _).
  destruct (ov_active_cue (st_overlay sample_cues)) as [a|] eqn:E; [|by vm_compute in E].
  exists a. destruct (H a eq_refl) as [Hok _]. vm_compute in E. injection E as <-. by split_and!.
Defined.
Lemma finished_translations_are_frozen_witness :
  ∃ c c', find_cue "inbound-1" (ov_recent_cues (st_overlay sample_done)) = Some c
  ∧ find_cue "inbound-1" (ov_recent_cues (st_overlay
      (exec_cue sample_ms sample_instant sample_late sample_done))) = Some c'
  ∧ cue_translation_state c = Some Final ∧ cue_progress c c'.
Proof.
  destruct (find_cue "inbound-1" (ov_recent_cues (st_overlay sample_done))) as [c|] eqn:E;
    [|by vm_compute in E].
  destruct (find_cue "inbound-1" (ov_recent_cues (st_overlay
      (exec_cue sample_ms sample_instant sample_late sample_done)))) as [c'|] eqn:E'; [|by vm_compute in E'].
  exists c, c'. split_and!; [done|done|vm_compute in E; by injection E as <-|].
  refine (finished_translations_are_frozen sample_ms sample_instant sample_done sample_late
    "inbound-1" c c' sample_done_reachable _ _ E E'); [|done].
  vm_compute. apply NoDup_singleton.
Defined.
Lemma trim_keeps_the_newest_unfinished_witness :
  let o := empty_overlay <| ov_recent_cues :=
    replicate 20 (new_subtitle_cue "a" "inbound" "Hi" false 1 1) |> in
  ov_queue_depth (trim_recent_subtitle_cues o) = 18
  ∧ ov_dropped_cue_count (trim_recent_subtitle_cues o) = 2
  ∧ ov_recent_cues (trim_recent_subtitle_cues o) `sublist_of` ov_recent_cues o.
Proof.
  intros o. destruct (trim_keeps_the_newest_unfinished o) as (E & _ & _ & H); [by vm_compute|].
  split_and!; [by vm_compute|by vm_compute|]. rewrite E. exact H.
Defined.
