(* ===== verification/SpeechRoute.v ===== *)
(** * Where translated speech may be played

    Models the final output boundary of translated speech: the route plan and
    its check ([audio/speech/output.rs]), the bounded wait for a Bridge restart
    ([audio/speech/bridge_route_recovery.rs]), the routing of one synthesized
    cue ([audio/speech/playback_engine.rs]) and the Bridge status the check
    reads, with the updates that derive it ([bridge/contracts.rs],
    [bridge/ipc.rs], [bridge/events.rs]).

    The [k]-th snapshot of the Bridge state and the [k]-th clock reading
    (nanoseconds) of a run are those of its environment: the Bridge thread
    changes the state between any two readings. The device and the pipe answer
    with frames or an error; what they are asked is kept as a list. *)
From S2P Require Import Prelude RustStr.

(** ** The Bridge's state ([omni-bridge-protocol], [bridge/contracts.rs]) *)
Inductive SourceCaptureMode := CaptureNone | VirtualDriver | ProcessExclusion.
Inductive CaptureBackend := BackendNone | DriverVirtualSpeaker | WasapiProcessExclusion.
Inductive ProcessLoopbackStatus := Unknown | Probing | Ready | Unsupported | Failed.
#[export] Instance mode_eq_dec : EqDecision SourceCaptureMode.
Proof. solve_decision. Defined.
#[export] Instance backend_eq_dec : EqDecision CaptureBackend.
Proof. solve_decision. Defined.
#[export] Instance loopback_eq_dec : EqDecision ProcessLoopbackStatus.
Proof. solve_decision. Defined.

Definition mode_str (m : SourceCaptureMode) : string :=
  match m with
  | CaptureNone => "none" | VirtualDriver => "virtual-driver" | ProcessExclusion => "process-exclusion"
  end.
Definition backend_str (b : CaptureBackend) : string :=
  match b with
  | BackendNone => "none" | DriverVirtualSpeaker => "driver-virtual-speaker"
  | WasapiProcessExclusion => "wasapi-process-exclusion"
  end.

(** The fields of [BridgeRuntimeSnapshot] that the code below reads or writes. *)
Record BridgeRuntimeSnapshot := mk_bridge {
  br_process_status : string; br_bridge_state : string; br_lifecycle_state : string;
  br_install_phase : string; br_driver_health : string; br_session_id : option string;
  br_translation_playback_enabled : bool; br_source_capture_mode : SourceCaptureMode;
  br_capture_backend : CaptureBackend; br_process_loopback_supported : bool;
  br_process_loopback_status : ProcessLoopbackStatus;
  br_process_loopback_failure_detail : option string; br_windows_build_number : option Z;
  br_process_loopback_minimum_windows_build : Z; br_capture_lifecycle_state : string;
  br_source_subscriber_active : bool; br_source_worker_phase : string;
  br_last_error_code : option string; br_driver_detail : option string;
  br_root_device_count : Z; br_endpoint_name : option string; br_abi_version : option string;
  br_ioctl_available : bool; br_status : string; br_recommended_action : option string
}.
#[export] Instance bridge_settable : Settable BridgeRuntimeSnapshot := λ b,
  mk_bridge (br_process_status b) (br_bridge_state b) (br_lifecycle_state b) (br_install_phase b)
    (br_driver_health b) (br_session_id b) (br_translation_playback_enabled b)
    (br_source_capture_mode b) (br_capture_backend b) (br_process_loopback_supported b)
    (br_process_loopback_status b) (br_process_loopback_failure_detail b)
    (br_windows_build_number b) (br_process_loopback_minimum_windows_build b)
    (br_capture_lifecycle_state b) (br_source_subscriber_active b) (br_source_worker_phase b)
    (br_last_error_code b) (br_driver_detail b) (br_root_device_count b) (br_endpoint_name b)
    (br_abi_version b) (br_ioctl_available b) (br_status b) (br_recommended_action b).

Definition eqs (a b : string) : bool := bool_decide (a = b).

Definition has_installed_driver_evidence (snapshot : BridgeRuntimeSnapshot) : bool :=
  (0 <? br_root_device_count snapshot) || is_Some_b (br_endpoint_name snapshot)
  || is_Some_b (br_abi_version snapshot) || br_ioctl_available snapshot.

Definition restart_code (code : string) : bool :=
  eqs code "bridge.singleton-already-running" || eqs code "bridge.session-mismatch"
  || String.prefix "bridge.stale-" code.

Definition reconcile_bridge_snapshot (snapshot : BridgeRuntimeSnapshot) : BridgeRuntimeSnapshot :=
  let bridge_ok := eqs (br_bridge_state snapshot) "running" in
  let driver_ok := eqs (br_driver_health snapshot) "running" in
  let mode := br_source_capture_mode snapshot in
  let supported := br_process_loopback_supported snapshot in
  let loopback := br_process_loopback_status snapshot in
  let capture_route_ok :=
    match mode with
    | VirtualDriver => driver_ok
    | ProcessExclusion => supported && bool_decide (loopback = Ready)
    | CaptureNone => true
    end in
  let driver_present := driver_ok || has_installed_driver_evidence snapshot in
  let restart_required := default false (restart_code <$> br_last_error_code snapshot) in
  let status :=
    if bridge_ok && capture_route_ok && negb restart_required then "ready"
    else if bool_decide (mode = ProcessExclusion) && bool_decide (loopback = Unsupported)
    then "unsupported" else "warning" in
  let action :=
    if restart_required then "restart-bridge"
    else if bool_decide (mode = ProcessExclusion)
            && (negb supported || bool_decide (loopback = Unsupported)) then "open-diagnostics"
    else if negb bridge_ok then
      if bool_decide (mode = VirtualDriver) && eqs (br_driver_health snapshot) "not-installed"
         && negb driver_present then "reinstall-driver"
      else if bool_decide (mode = VirtualDriver)
              && eqs (br_driver_health snapshot) "version-mismatch" then "rollback-driver"
      else "restart-bridge"
    else "open-diagnostics" in
  snapshot <| br_status := status |> <| br_recommended_action := Some action |>.

(** [apply_process_loopback_probe] ([bridge/ipc.rs]). *)
Record ProbeResponse := mk_probe {
  pr_supported : bool; pr_status : ProcessLoopbackStatus; pr_windows_build : option Z;
  pr_minimum_build : Z; pr_failure_detail : option string; pr_mode : SourceCaptureMode;
  pr_backend : CaptureBackend; pr_error_code : option string
}.
Definition apply_process_loopback_probe (probe : ProbeResponse)
    (snapshot : BridgeRuntimeSnapshot) : BridgeRuntimeSnapshot :=
  let next := snapshot <| br_process_loopback_supported := pr_supported probe |>
    <| br_process_loopback_status := pr_status probe |>
    <| br_windows_build_number := pr_windows_build probe |>
    <| br_process_loopback_minimum_windows_build := pr_minimum_build probe |>
    <| br_process_loopback_failure_detail := pr_failure_detail probe |>
    <| br_source_capture_mode := pr_mode probe |> <| br_capture_backend := pr_backend probe |> in
  let next :=
    match pr_error_code probe with
    | Some error_code => next <| br_last_error_code := Some error_code |>
    | None =>
        if default false (String.prefix "bridge.process-loopback-" <$> br_last_error_code next)
        then next <| br_last_error_code := None |> else next
    end in
  reconcile_bridge_snapshot next.

Definition mark_process_loopback_capture_failed (detail : string)
    (snapshot : BridgeRuntimeSnapshot) : BridgeRuntimeSnapshot :=
  reconcile_bridge_snapshot (snapshot <| br_process_status := "running" |>
    <| br_bridge_state := "degraded" |> <| br_lifecycle_state := "error" |>
    <| br_process_loopback_status := Failed |>
    <| br_process_loopback_failure_detail := Some detail |>
    <| br_capture_lifecycle_state := "failed" |> <| br_source_subscriber_active := false |>
    <| br_source_worker_phase := "process-loopback-failed" |>
    <| br_last_error_code := Some "bridge.process-loopback-capture-failed" |>).

Definition record_bridge_start_error (error_code detail : string)
    (current : BridgeRuntimeSnapshot) : BridgeRuntimeSnapshot :=
  reconcile_bridge_snapshot (current <| br_process_status := "error" |>
    <| br_bridge_state := "degraded" |> <| br_lifecycle_state := "error" |>
    <| br_install_phase := "rollback-required" |> <| br_last_error_code := Some error_code |>
    <| br_driver_detail := Some detail |>).

(** The store's update of [record_translation_output_route_error_runtime]. *)
Definition record_translation_output_route_error (error_code : string)
    (snapshot : BridgeRuntimeSnapshot) : BridgeRuntimeSnapshot :=
  reconcile_bridge_snapshot (snapshot <| br_last_error_code := Some error_code |>).

(** ** What the configuration asks for ([output.rs])

    The three lookups of the JSON configuration, as the options they return. *)
Record OutputConfig := mk_output_config {
  oc_local_playback_enabled : option bool; (* [/speech/localPlaybackEnabled] *)
  oc_virtual_mic_output_enabled : option bool; (* [/speech/virtualMicOutputEnabled] *)
  oc_feedback_loop_prevention : option string (* [/devices/feedbackLoopPrevention] *)
}.
Definition isolated (feedback : option string) : bool :=
  match feedback with
  | Some mode => eqs mode "virtual-driver" || eqs mode "process-exclusion"
  | None => false
  end.
Definition desktop_direct_playback_enabled_for_config (config : OutputConfig) : bool :=
  default true (oc_local_playback_enabled config)
  && negb (isolated (oc_feedback_loop_prevention config)).
Definition bridge_translation_playback_enabled_for_config (config : OutputConfig) : bool :=
  default true (oc_local_playback_enabled config) && isolated (oc_feedback_loop_prevention config).
Definition bridge_owned_capture_mode_for_config (config : OutputConfig) : option SourceCaptureMode :=
  match oc_feedback_loop_prevention config with
  | Some mode =>
      if eqs mode "virtual-driver" then Some VirtualDriver
      else if eqs mode "process-exclusion" then Some ProcessExclusion else None
  | None => None
  end.

(** The part of [SpeechConfig] the routing reads. *)
Record RouteConfig := mk_route_config {
  rc_local_playback_enabled : bool; rc_virtual_mic_output_enabled : bool;
  rc_bridge_playback_enabled : bool; rc_bridge_capture_mode : option SourceCaptureMode
}.
Definition route_config_from_value (config : OutputConfig) : RouteConfig :=
  mk_route_config (desktop_direct_playback_enabled_for_config config)
    (default false (oc_virtual_mic_output_enabled config))
    (bridge_translation_playback_enabled_for_config config)
    (bridge_owned_capture_mode_for_config config).

(** ** The route plan *)
Record SpeechOutputRoutePlan := mk_plan {
  play_to_speaker : bool; write_to_virtual_mic : bool; write_to_bridge_playback : bool
}.
Definition new_plan (local_playback_enabled virtual_mic_output_enabled : bool) :=
  mk_plan local_playback_enabled virtual_mic_output_enabled false.
Definition for_route (route_direction : string)
    (local_playback_enabled virtual_mic_output_enabled : bool) : SpeechOutputRoutePlan :=
  if eqs route_direction "inbound" then new_plan local_playback_enabled false
  else if eqs route_direction "outbound" then
    new_plan (local_playback_enabled && negb virtual_mic_output_enabled) virtual_mic_output_enabled
  else new_plan local_playback_enabled virtual_mic_output_enabled.
Definition for_configured_route (route_direction : string)
    (local_playback_enabled virtual_mic_output_enabled bridge_playback_enabled : bool) :=
  if bridge_playback_enabled && eqs route_direction "inbound" then mk_plan false false true
  else for_route route_direction local_playback_enabled virtual_mic_output_enabled.
Definition has_output (plan : SpeechOutputRoutePlan) : bool :=
  play_to_speaker plan || write_to_virtual_mic plan || write_to_bridge_playback plan.

(** ** The check at the output boundary *)
Definition active_bridge_owned_capture_mode (snapshot : BridgeRuntimeSnapshot) :
    option SourceCaptureMode :=
  if eqs (br_process_status snapshot) "stopped" then None else
  match br_source_capture_mode snapshot with CaptureNone => None | mode => Some mode end.
Definition bridge_translation_route_is_ready (snapshot : BridgeRuntimeSnapshot)
    (expected_mode : SourceCaptureMode) : bool :=
  eqs (br_process_status snapshot) "running" && eqs (br_bridge_state snapshot) "running"
  && eqs (br_lifecycle_state snapshot) "ready" && is_Some_b (br_session_id snapshot)
  && br_translation_playback_enabled snapshot
  && bool_decide (br_source_capture_mode snapshot = expected_mode)
  && match expected_mode with
     | VirtualDriver =>
         bool_decide (br_capture_backend snapshot = DriverVirtualSpeaker)
         && eqs (br_driver_health snapshot) "running"
     | ProcessExclusion =>
         bool_decide (br_capture_backend snapshot = WasapiProcessExclusion)
         && br_process_loopback_supported snapshot
         && bool_decide (br_process_loopback_status snapshot = Ready)
     | CaptureNone => false
     end.
Definition bool_str (b : bool) : string := if b then "true" else "false".
Definition flags_str (plan : SpeechOutputRoutePlan) : string :=
  "(speaker=" +:+ bool_str (play_to_speaker plan) +:+ " virtualMic=" +:+
  bool_str (write_to_virtual_mic plan) +:+ " bridgePlayback=" +:+
  bool_str (write_to_bridge_playback plan) +:+ ")".
Definition option_mode_str (m : option SourceCaptureMode) : string := default "none" (mode_str <$> m).

Definition outbound_route_violation (cue : string) (expected_mode : SourceCaptureMode)
    (plan : SpeechOutputRoutePlan) (snapshot : BridgeRuntimeSnapshot) : option string :=
  if negb (eqs (br_process_status snapshot) "running")
     || negb (eqs (br_bridge_state snapshot) "running")
     || negb (eqs (br_lifecycle_state snapshot) "ready") || negb (is_Some_b (br_session_id snapshot))
  then Some ("bridge.translation-output-bypass: cue=" +:+ cue +:+ " configuredCaptureMode=" +:+
    mode_str expected_mode +:+ " outbound virtual microphone route is not ready (processStatus=" +:+
    br_process_status snapshot +:+ " bridgeState=" +:+ br_bridge_state snapshot +:+
    " lifecycleState=" +:+ br_lifecycle_state snapshot +:+ ")")
  else if play_to_speaker plan || negb (write_to_virtual_mic plan) || write_to_bridge_playback plan
  then Some ("bridge.translation-output-bypass: cue=" +:+ cue +:+ " configuredCaptureMode=" +:+
    mode_str expected_mode +:+ " attempted invalid outbound translation output " +:+ flags_str plan)
  else None.
Definition inbound_route_violation (cue : string) (expected_mode : SourceCaptureMode)
    (plan : SpeechOutputRoutePlan) (snapshot : BridgeRuntimeSnapshot) : option string :=
  if negb (bridge_translation_route_is_ready snapshot expected_mode)
  then Some ("bridge.translation-output-bypass: cue=" +:+ cue +:+ " configuredCaptureMode=" +:+
    mode_str expected_mode +:+ " runtime route is not ready (activeCaptureMode=" +:+
    mode_str (br_source_capture_mode snapshot) +:+ " captureBackend=" +:+
    backend_str (br_capture_backend snapshot) +:+ " processStatus=" +:+ br_process_status snapshot +:+
    " bridgeState=" +:+ br_bridge_state snapshot +:+ " lifecycleState=" +:+
    br_lifecycle_state snapshot +:+ " translationPlaybackEnabled=" +:+
    bool_str (br_translation_playback_enabled snapshot) +:+ ")")
  else if play_to_speaker plan || write_to_virtual_mic plan || negb (write_to_bridge_playback plan)
  then Some ("bridge.translation-output-bypass: cue=" +:+ cue +:+ " configuredCaptureMode=" +:+
    mode_str expected_mode +:+ " attempted non-Bridge translation output " +:+ flags_str plan)
  else None.
Definition translation_output_route_violation (cue route_direction : string)
    (configured_bridge_mode : option SourceCaptureMode) (plan : SpeechOutputRoutePlan)
    (snapshot : BridgeRuntimeSnapshot) : option string :=
  if negb (has_output plan) then None else
  let active_bridge_mode := active_bridge_owned_capture_mode snapshot in
  if negb (bool_decide (configured_bridge_mode = active_bridge_mode))
     && (is_Some_b configured_bridge_mode || is_Some_b active_bridge_mode)
  then Some ("bridge.translation-output-bypass: cue=" +:+ cue +:+ " configuredCaptureMode=" +:+
    option_mode_str configured_bridge_mode +:+ " activeCaptureMode=" +:+
    option_mode_str active_bridge_mode +:+ " captureBackend=" +:+
    backend_str (br_capture_backend snapshot) +:+ " processStatus=" +:+ br_process_status snapshot +:+
    " bridgeState=" +:+ br_bridge_state snapshot)
  else match configured_bridge_mode with
  | Some expected_mode =>
      if eqs route_direction "outbound" then outbound_route_violation cue expected_mode plan snapshot
      else if negb (eqs route_direction "inbound") then
        Some ("bridge.invalid-audio-direction: cue=" +:+ cue +:+ " configuredCaptureMode=" +:+
          mode_str expected_mode +:+ " routeDirection=" +:+ route_direction)
      else inbound_route_violation cue expected_mode plan snapshot
  | None => None
  end.

Definition translation_output_route_error_code (error : string) : string :=
  if String.prefix "bridge.virtual-mic-driver-unavailable:" error then
    "bridge.virtual-mic-driver-unavailable"
  else if String.prefix "bridge.virtual-mic-format-unsupported:" error then
    "bridge.virtual-mic-format-unsupported"
  else if String.prefix "bridge.virtual-mic-session-failed:" error then
    "bridge.virtual-mic-session-failed"
  else if String.prefix "bridge.virtual-mic-write-failed:" error then
    "bridge.virtual-mic-write-failed"
  else if String.prefix "bridge.virtual-mic-output-unavailable:" error then
    "bridge.virtual-mic-output-unavailable"
  else if String.prefix "bridge.invalid-audio-direction:" error then
    "bridge.invalid-audio-direction"
  else "bridge.translation-output-bypass".

(** ** Waiting for a Bridge restart ([bridge_route_recovery.rs]) *)
Definition bridge_translation_route_can_recover (route_direction : string)
    (configured_mode : option SourceCaptureMode) (plan : SpeechOutputRoutePlan)
    (snapshot : BridgeRuntimeSnapshot) : bool :=
  if negb (eqs route_direction "inbound") || negb (write_to_bridge_playback plan)
     || play_to_speaker plan || write_to_virtual_mic plan then false else
  match configured_mode with
  | Some ProcessExclusion =>
      bool_decide (br_capture_backend snapshot = WasapiProcessExclusion)
      && br_process_loopback_supported snapshot
      && negb (bool_decide (br_process_loopback_status snapshot = Unsupported))
  | Some VirtualDriver => bool_decide (br_capture_backend snapshot = DriverVirtualSpeaker)
  | _ => false
  end.

Definition RECOVERY_WAIT : Z := 2000000000.
Definition POLL_INTERVAL : Z := 25000000.
Definition SPEAKER_SAMPLE_RATE_HZ : Z := 48000.
Definition SPEAKER_CHANNEL_COUNT : Z := 2.

Record MixPlan := mk_mix {
  mx_speaker_samples : list Z; mx_virtual_mic_samples : list Z;
  mx_bridge_playback_samples : list Z; mx_sample_rate_hz : Z; mx_channel_count : Z
}.
Inductive OutputCall :=
| PlayToSpeaker (cue : string) (samples : list Z) (sample_rate_hz channel_count : Z)
| WriteProcessPlaybackCue (cue request direction : string) (samples : list Z)
    (sample_rate_hz channel_count created_at_ms estimated_duration_ms : Z)
| WriteVirtualMicFrame (cue request direction : string) (samples : list Z)
    (sample_rate_hz channel_count created_at_ms estimated_duration_ms : Z).

(** What a run reads: the Bridge state, the clock, and the answers to its calls. *)
Record RouteEnv := mk_route_env {
  re_snapshot : nat → BridgeRuntimeSnapshot;
  re_now : nat → Z;
  re_answer : OutputCall → outcome Z
}.
Definition settled (route_direction : string) (configured_mode : option SourceCaptureMode)
    (plan : SpeechOutputRoutePlan) (snapshot : BridgeRuntimeSnapshot) : bool :=
  negb (is_Some_b (translation_output_route_violation "bridge-recovery-probe" route_direction
          configured_mode plan snapshot))
  || negb (bridge_translation_route_can_recover route_direction configured_mode plan snapshot).

(** [k] snapshots were read before; the deadline was set from clock reading 0. *)
Fixpoint wait_loop (fuel : nat) (env : RouteEnv) (settles : BridgeRuntimeSnapshot → bool)
    (deadline : Z) (k : nat) (snapshot : BridgeRuntimeSnapshot) : option (BridgeRuntimeSnapshot * nat) :=
  match fuel with
  | O => None
  | S fuel =>
      if re_now env k <? deadline then
        let snapshot := re_snapshot env k in
        if settles snapshot then Some (snapshot, S k)
        else wait_loop fuel env settles deadline (S k) snapshot
      else Some (snapshot, k)
  end.
(** Enough turns for the whole wait when a sleep lasts at least its interval. *)
Definition wait_fuel : nat := 81.
Definition wait_for_translation_output_route (env : RouteEnv) (route_direction : string)
    (configured_mode : option SourceCaptureMode) (plan : SpeechOutputRoutePlan) :
    option (BridgeRuntimeSnapshot * nat) :=
  let snapshot := re_snapshot env 0 in
  if settled route_direction configured_mode plan snapshot then Some (snapshot, 1%nat) else
  let deadline := re_now env 0 + RECOVERY_WAIT in
  wait_loop wait_fuel env (settled route_direction configured_mode plan) deadline 1 snapshot.

(** ** One synthesized cue ([playback_engine.rs]) *)
Record SpeechPlaybackResult := mk_played {
  sp_speaker_frames : Z; sp_virtual_mic_frames : Z; sp_bridge_playback_frames : Z;
  sp_bridge_playback_queued : bool
}.
(** What one call to [play] did: the calls it made, the error code it recorded in
    the session report and the Bridge state. *)
Record PlayLog := mk_play_log { pl_calls : list OutputCall; pl_route_error : option string }.
#[export] Instance play_log_settable : Settable PlayLog := λ l,
  mk_play_log (pl_calls l) (pl_route_error l).

(** [(len as u64).saturating_mul(1_000).div_ceil(rate * channels)]. *)
Definition estimated_duration_ms (samples : list Z) (sample_rate_hz channel_count : Z) :
    outcome Z :=
  let frames := Z.min (Z.of_nat (length samples) * 1000) u64_max in
  let per_second := sample_rate_hz * channel_count in
  if per_second =? 0 then Err (Panic "attempt to divide by zero")
  else Ok ((frames + per_second - 1) / per_second).

Section Play.
Context (env : RouteEnv) (config : RouteConfig).

Definition call (c : OutputCall) : M PlayLog Z :=
  modify (λ l, l <| pl_calls ::= λ cs, cs ++ [c] |>) ;;; lift (re_answer env c).

Definition play_bridge_or_virtual (cue request direction : string) (mix : MixPlan)
    (created_at_ms : Z) (plan : SpeechOutputRoutePlan) : M PlayLog Z :=
  if write_to_bridge_playback plan then
    let* duration := lift (estimated_duration_ms (mx_bridge_playback_samples mix)
                             SPEAKER_SAMPLE_RATE_HZ SPEAKER_CHANNEL_COUNT) in
    call (WriteProcessPlaybackCue cue request direction (mx_bridge_playback_samples mix)
            SPEAKER_SAMPLE_RATE_HZ SPEAKER_CHANNEL_COUNT created_at_ms duration)
  else
    let* duration := lift (estimated_duration_ms (mx_virtual_mic_samples mix)
                             (mx_sample_rate_hz mix) (mx_channel_count mix)) in
    call (WriteVirtualMicFrame cue request direction (mx_virtual_mic_samples mix)
            (mx_sample_rate_hz mix) (mx_channel_count mix) created_at_ms duration).

Definition play_routed (cue request direction : string) (mix : MixPlan) (created_at_ms : Z)
    (plan : SpeechOutputRoutePlan) : M PlayLog SpeechPlaybackResult :=
  let* speaker_frames :=
    if play_to_speaker plan then
      call (PlayToSpeaker cue (mx_speaker_samples mix) (mx_sample_rate_hz mix) (mx_channel_count mix))
    else ret 0 in
  let* frames :=
    if write_to_virtual_mic plan || write_to_bridge_playback plan then
      play_bridge_or_virtual cue request direction mix created_at_ms plan
    else ret 0 in
  ret (mk_played speaker_frames (if write_to_virtual_mic plan then frames else 0)
         (if write_to_bridge_playback plan then frames else 0) (write_to_bridge_playback plan)).

(** [None]: the wait did not end. *)
Definition play (cue request direction : string) (mix : MixPlan) (created_at_ms : Z) :
    option (M PlayLog SpeechPlaybackResult) :=
  let plan := for_configured_route direction (rc_local_playback_enabled config)
    (rc_virtual_mic_output_enabled config) (rc_bridge_playback_enabled config) in
  match wait_for_translation_output_route env direction (rc_bridge_capture_mode config) plan with
  | None => None
  | Some (snapshot, _) => Some
      match translation_output_route_violation cue direction (rc_bridge_capture_mode config) plan
              snapshot with
      | Some error =>
          modify (λ l, l <| pl_route_error := Some (translation_output_route_error_code error) |>) ;;;
          fail error
      | None => play_routed cue request direction mix created_at_ms plan
      end
  end.
End Play.
