(* ===== verification/SpeechRouteTheorems.v ===== *)
(** * What the output boundary of translated speech proves

    A call to [play] writes to the output that owns translated audio in the
    Bridge state it checked, and to no other; the check fails exactly outside
    the two routes an isolated configuration has; the wait for a restarting
    Bridge ends; a failed Bridge lets nothing through. *)
From S2P Require Import Prelude RustStr SpeechRoute.

Lemma same_str_true a b : eqs a b = true ↔ a = b.
Proof. unfold eqs. apply bool_decide_eq_true. Qed.
Lemma same_str_false a b : eqs a b = false ↔ a ≠ b.
Proof. unfold eqs. apply bool_decide_eq_false. Qed.
Create Rewrite HintDb route.
#[local] Hint Rewrite same_str_true same_str_false andb_true_iff orb_true_iff andb_false_iff orb_false_iff
  negb_true_iff negb_false_iff bool_decide_eq_true bool_decide_eq_false : route.

(** ** Who owns translated audio *)
(** The native Bridge is running, in a session, with nothing to recover. *)
Definition bridge_in_session (s : BridgeRuntimeSnapshot) : Prop :=
  br_process_status s = "running" ∧ br_bridge_state s = "running"
  ∧ br_lifecycle_state s = "ready" ∧ is_Some (br_session_id s).
(** It also plays translated speech itself, from the backend of its mode. *)
Definition bridge_plays (m : SourceCaptureMode) (s : BridgeRuntimeSnapshot) : Prop :=
  bridge_in_session s ∧ br_translation_playback_enabled s = true ∧ br_source_capture_mode s = m
  ∧ match m with
    | VirtualDriver =>
        br_capture_backend s = DriverVirtualSpeaker ∧ br_driver_health s = "running"
    | ProcessExclusion =>
        br_capture_backend s = WasapiProcessExclusion ∧ br_process_loopback_supported s = true
        ∧ br_process_loopback_status s = Ready
    | CaptureNone => False
    end.
(** Nothing captures what the desktop plays. *)
Definition desktop_owns (s : BridgeRuntimeSnapshot) : Prop :=
  br_process_status s = "stopped" ∨ br_source_capture_mode s = CaptureNone.

Lemma is_Some_b_iff {A} (o : option A) : is_Some_b o = true ↔ is_Some o.
Proof. destruct o; simpl; split; [by eexists|done|done|by intros [? [=]]]. Qed.
Lemma route_is_ready_spec s m : bridge_translation_route_is_ready s m = true ↔ bridge_plays m s.
Proof.
  unfold bridge_translation_route_is_ready, bridge_plays, bridge_in_session.
  rewrite !andb_true_iff, is_Some_b_iff.
  destruct m; autorewrite with route; naive_solver.
Qed.
Lemma active_mode_none s : active_bridge_owned_capture_mode s = None ↔ desktop_owns s.
Proof.
  unfold active_bridge_owned_capture_mode, desktop_owns.
  destruct (eqs _ _) eqn:E; autorewrite with route in E; [naive_solver|].
  destruct (br_source_capture_mode s); naive_solver.
Qed.
Lemma active_mode_some s m : active_bridge_owned_capture_mode s = Some m ↔
  br_process_status s ≠ "stopped" ∧ br_source_capture_mode s = m ∧ m ≠ CaptureNone.
Proof.
  unfold active_bridge_owned_capture_mode.
  destruct (eqs _ _) eqn:E; autorewrite with route in E; [naive_solver|].
  destruct (br_source_capture_mode s); naive_solver.
Qed.

(** The outputs a configuration may use in a Bridge state. *)
Definition route_allowed (direction : string) (configured : option SourceCaptureMode)
    (plan : SpeechOutputRoutePlan) (s : BridgeRuntimeSnapshot) : Prop :=
  match configured with
  | None => desktop_owns s
  | Some m =>
      active_bridge_owned_capture_mode s = Some m
      ∧ ((direction = "outbound" ∧ bridge_in_session s ∧ plan = mk_plan false true false)
         ∨ (direction = "inbound" ∧ bridge_plays m s ∧ plan = mk_plan false false true))
  end.

Lemma in_session_spec s :
  negb (eqs (br_process_status s) "running") || negb (eqs (br_bridge_state s) "running")
  || negb (eqs (br_lifecycle_state s) "ready") || negb (is_Some_b (br_session_id s)) = false
  ↔ bridge_in_session s.
Proof.
  unfold bridge_in_session. rewrite !orb_false_iff, !negb_false_iff, is_Some_b_iff, !same_str_true.
  tauto.
Qed.
Lemma outbound_violation_spec cue m plan s :
  outbound_route_violation cue m plan s = None ↔
  bridge_in_session s ∧ plan = mk_plan false true false.
Proof.
  unfold outbound_route_violation. rewrite <- in_session_spec.
  destruct (_ || negb (is_Some_b _)); [naive_solver|].
  destruct plan as [[] [] []]; simpl; naive_solver.
Qed.
Lemma inbound_violation_spec cue m plan s :
  inbound_route_violation cue m plan s = None ↔
  bridge_plays m s ∧ plan = mk_plan false false true.
Proof.
  unfold inbound_route_violation. rewrite <- route_is_ready_spec.
  destruct (bridge_translation_route_is_ready s m); simpl; [|naive_solver].
  destruct plan as [[] [] []]; simpl; naive_solver.
Qed.
Lemma bypass_code (rest : string) :
  translation_output_route_error_code ("bridge.translation-output-bypass: cue=" +:+ rest)
  = "bridge.translation-output-bypass".
Proof. reflexivity. Qed.
Lemma direction_code (rest : string) :
  translation_output_route_error_code ("bridge.invalid-audio-direction: cue=" +:+ rest)
  = "bridge.invalid-audio-direction".
Proof. reflexivity. Qed.

Lemma route_check_spec cue direction configured plan s :
  translation_output_route_violation cue direction configured plan s = None ↔
  has_output plan = false ∨ route_allowed direction configured plan s.
Proof.
  unfold translation_output_route_violation, route_allowed.
  destruct (has_output plan) eqn:Ho; simpl; [|naive_solver].
  destruct configured as [m|]; simpl.
  - case_bool_decide as Hm; simpl; [|naive_solver].
    destruct (eqs direction "outbound") eqn:Eo; autorewrite with route in Eo.
    + rewrite outbound_violation_spec. naive_solver.
    + destruct (eqs direction "inbound") eqn:Ei; autorewrite with route in Ei; simpl.
      * rewrite inbound_violation_spec. naive_solver.
      * naive_solver.
  - rewrite <- active_mode_none. destruct (active_bridge_owned_capture_mode s); simpl.
    + split; [done|intros [|]; done].
    + tauto.
Qed.
Lemma route_check_code cue direction configured plan s error :
  translation_output_route_violation cue direction configured plan s = Some error →
  translation_output_route_error_code error =
    (if is_Some_b configured && bool_decide (configured = active_bridge_owned_capture_mode s)
        && negb (eqs direction "inbound") && negb (eqs direction "outbound")
     then "bridge.invalid-audio-direction" else "bridge.translation-output-bypass").
Proof.
  unfold translation_output_route_violation, outbound_route_violation, inbound_route_violation.
  destruct (eqs direction "outbound") eqn:Eo, (eqs direction "inbound") eqn:Ei;
    intros He; repeat (case_match; simplify_eq/=; bool_hyps); try done;
    case_bool_decide; done.
Qed.

(** A planned output passes the boundary exactly when it is empty or the Bridge
    state gives it to the configured owner: the desktop when nothing captures
    its playback, the virtual microphone for an outbound cue of an isolated
    configuration, the Bridge's own playback for an inbound one. A violation is
    reported under the direction code exactly when the owner matches and the
    direction is neither of the two, and under the bypass code otherwise. *)
Theorem route_passes_exactly_when cue direction configured plan s :
  (translation_output_route_violation cue direction configured plan s = None ↔
   has_output plan = false ∨ route_allowed direction configured plan s)
  ∧ ∀ error, translation_output_route_violation cue direction configured plan s = Some error →
    translation_output_route_error_code error =
      (if is_Some_b configured && bool_decide (configured = active_bridge_owned_capture_mode s)
          && negb (eqs direction "inbound") && negb (eqs direction "outbound")
       then "bridge.invalid-audio-direction" else "bridge.translation-output-bypass").
Proof. split; [apply route_check_spec|apply route_check_code]. Qed.

(** ** A failed Bridge *)
Lemma reconcile_keeps s :
  br_process_status (reconcile_bridge_snapshot s) = br_process_status s
  ∧ br_bridge_state (reconcile_bridge_snapshot s) = br_bridge_state s
  ∧ br_source_capture_mode (reconcile_bridge_snapshot s) = br_source_capture_mode s.
Proof. done. Qed.
Lemma broken_bridge_rejects cue direction configured plan s :
  br_process_status s ≠ "stopped" → br_bridge_state s ≠ "running" →
  br_source_capture_mode s ≠ CaptureNone → has_output plan = true →
  translation_output_route_violation cue direction configured plan s ≠ None.
Proof.
  intros Hp Hb Hm Ho [?|Hr]%route_check_spec; [congruence|].
  destruct configured as [m|]; [|by destruct Hr].
  by destruct Hr as [_ [(_ & (_ & ? & _) & _)|(_ & ((_ & ? & _) & _) & _)]].
Qed.
Lemma broken_bridge_not_ready s :
  br_bridge_state s ≠ "running" → br_status (reconcile_bridge_snapshot s) ≠ "ready".
Proof.
  intros Hb%same_str_false. unfold reconcile_bridge_snapshot. simpl. rewrite Hb. simpl. by case_match.
Qed.

(** Once the process-loopback capture failed, or the Bridge failed to start,
    while a capture mode is in force, no output passes the boundary, whatever
    was configured, and the Bridge is not reported as ready. *)
Theorem failed_bridge_stops_output (code detail cue direction : string)
    (configured : option SourceCaptureMode) (plan : SpeechOutputRoutePlan)
    (s : BridgeRuntimeSnapshot) :
  br_source_capture_mode s ≠ CaptureNone → has_output plan = true →
  ∀ next, next = mark_process_loopback_capture_failed detail s
          ∨ next = record_bridge_start_error code detail s →
  br_status next ≠ "ready"
  ∧ is_Some (translation_output_route_violation cue direction configured plan next).
Proof.
  intros Hm Ho next Hn.
  assert (is_Some (translation_output_route_violation cue direction configured plan next)).
  { apply not_eq_None_Some, broken_bridge_rejects; by destruct Hn as [->| ->]. }
  split; [|done]. destruct Hn as [->| ->]; by apply broken_bridge_not_ready.
Qed.

(** ** The wait ends *)
Section Wait.
Context (env : RouteEnv).

Lemma wait_loop_reads fuel settles deadline k s s' n :
  s = re_snapshot env (k - 1) → (1 ≤ k)%nat →
  wait_loop fuel env settles deadline k s = Some (s', n) →
  (k ≤ n)%nat ∧ s' = re_snapshot env (n - 1)
  ∧ (∀ j, (k ≤ j < n - 1)%nat → settles (re_snapshot env j) = false)
  ∧ (settles s' = true ∨ deadline ≤ re_now env n).
Proof.
  revert k s. induction fuel as [|fuel IH]; intros k s Hs Hk; simpl; [done|].
  destruct (Z.ltb_spec (re_now env k) deadline) as [Hlt|Hge].
  - destruct (settles (re_snapshot env k)) eqn:E.
    + intros [= <- <-]. split_and!; [lia|f_equal; lia|lia|by left].
    + intros Hw. apply IH in Hw as (Hn & -> & Hj & Hend); [|f_equal; lia|lia].
      split_and!; [lia|done| |done]. intros j Hlt'.
      destruct (decide (j = k)) as [->|]; [done|]. apply Hj. lia.
  - intros [= <- <-]. split_and!; [lia|done|lia|by right].
Qed.
Lemma wait_loop_ends fuel settles deadline k s :
  (∀ j, (k ≤ j)%nat → re_now env j + POLL_INTERVAL ≤ re_now env (S j)) →
  deadline ≤ re_now env k + Z.of_nat fuel * POLL_INTERVAL →
  ∃ s' n, wait_loop (S fuel) env settles deadline k s = Some (s', n) ∧ (n ≤ k + fuel)%nat.
Proof.
  revert k s. induction fuel as [|fuel IH]; intros k s Hclock Hdead.
  - exists s, k. split; [|lia]. cbn [wait_loop]. by rewrite (proj2 (Z.ltb_ge _ _)) by lia.
  - cbn [wait_loop]. destruct (re_now env k <? deadline); [|exists s, k; split; [done|lia]].
    destruct (settles (re_snapshot env k)); [exists (re_snapshot env k), (S k); split; [done|lia]|].
    destruct (IH (S k) (re_snapshot env k)) as (s' & n & Hw & Hn).
    { intros j Hj. apply Hclock. lia. }
    { specialize (Hclock k ltac:(lia)). lia. }
    exists s', n. split; [exact Hw|lia].
Qed.
End Wait.

(** A sleep lasts at least its interval; the first two readings have none between. *)
Definition restart_clock (env : RouteEnv) : Prop :=
  re_now env 0 ≤ re_now env 1
  ∧ ∀ k, (1 ≤ k)%nat → re_now env k + POLL_INTERVAL ≤ re_now env (S k).
Lemma wait_ends env direction configured plan :
  restart_clock env →
  ∃ s n, wait_for_translation_output_route env direction configured plan = Some (s, n)
  ∧ (1 ≤ n ≤ 81)%nat ∧ s = re_snapshot env (n - 1)
  ∧ (∀ j, (j < n - 1)%nat → settled direction configured plan (re_snapshot env j) = false)
  ∧ (settled direction configured plan s = true ∨ re_now env 0 + RECOVERY_WAIT ≤ re_now env n).
Proof.
  intros [H0 Hclock]. unfold wait_for_translation_output_route. cbv zeta.
  destruct (settled direction configured plan (re_snapshot env 0)) eqn:E.
  - exists (re_snapshot env 0), 1%nat. split_and!; [done|lia|lia|done|lia|by left].
  - destruct (wait_loop_ends env 80 (settled direction configured plan)
      (re_now env 0 + RECOVERY_WAIT) 1 (re_snapshot env 0) Hclock) as (s & n & Hw & Hn).
    { unfold RECOVERY_WAIT, POLL_INTERVAL. lia. }
    change (S 80) with wait_fuel in Hw. exists s, n. split; [exact Hw|].
    apply wait_loop_reads in Hw as (Hk & -> & Hj & Hend); [|done|lia].
    split_and!; [lia|lia|done| |done]. intros j Hlt.
    destruct j as [|j]; [done|]. apply Hj. lia.
Qed.

(** The wait for a restarting Bridge always ends: when a sleep lasts at least
    its 25 ms, [wait_fuel] turns are enough, at most 81 snapshots are read, and
    the wait stops at the first that needs no recovery, or at the deadline of
    two seconds. *)
Theorem wait_for_restart_ends env direction configured plan :
  restart_clock env →
  ∃ s n, wait_for_translation_output_route env direction configured plan = Some (s, n)
  ∧ (1 ≤ n ≤ 81)%nat ∧ s = re_snapshot env (n - 1)
  ∧ (∀ j, (j < n - 1)%nat → settled direction configured plan (re_snapshot env j) = false)
  ∧ (settled direction configured plan s = true ∨ re_now env 0 + RECOVERY_WAIT ≤ re_now env n).
Proof. apply wait_ends. Qed.

(** ** One owner *)
(** What a plan allows a call to be. *)
Definition planned (plan : SpeechOutputRoutePlan) (c : OutputCall) : Prop :=
  match c with
  | PlayToSpeaker _ _ _ _ => play_to_speaker plan = true
  | WriteProcessPlaybackCue _ _ _ _ _ _ _ _ => write_to_bridge_playback plan = true
  | WriteVirtualMicFrame _ _ _ _ _ _ _ _ =>
      write_to_virtual_mic plan = true ∧ write_to_bridge_playback plan = false
  end.
Definition calls_grow (plan : SpeechOutputRoutePlan) (l l' : PlayLog) : Prop :=
  pl_route_error l' = pl_route_error l
  ∧ ∃ cs, pl_calls l' = pl_calls l ++ cs ∧ Forall (planned plan) cs.
#[local] Instance calls_grow_preorder plan : PreOrder (calls_grow plan).
Proof.
  split.
  - intros l. split; [done|]. exists []. by rewrite app_nil_r.
  - intros l1 l2 l3 [H1 (c1 & E1 & F1)] [H2 (c2 & E2 & F2)]. split; [congruence|].
    exists (c1 ++ c2). rewrite E2, E1, <- app_assoc. split; [done|by apply Forall_app].
Qed.
Lemma called_grows plan c : planned plan c →
  evolves (calls_grow plan) (modify (λ l, l <| pl_calls ::= λ cs, cs ++ [c] |>)).
Proof.
  intros Hc. apply evolves_modify. intros l. split; [done|]. exists [c]. by repeat constructor.
Qed.
Lemma play_routed_grows env cue request direction mix at_ms plan :
  evolves (calls_grow plan) (play_routed env cue request direction mix at_ms plan).
Proof.
  unfold play_routed, play_bridge_or_virtual.
  destruct plan as [[] [] []]; simpl; evolve; by apply called_grows.
Qed.

Lemma play_returns env config cue request direction mix at_ms :
  restart_clock env → is_Some (play env config cue request direction mix at_ms).
Proof.
  intros Hc. unfold play. cbv zeta.
  destruct (wait_ends env direction (rc_bridge_capture_mode config)
    (for_configured_route direction (rc_local_playback_enabled config)
      (rc_virtual_mic_output_enabled config) (rc_bridge_playback_enabled config)) Hc)
    as (s & n & -> & _). by eexists.
Qed.
Lemma wait_reads env direction configured plan s n :
  wait_for_translation_output_route env direction configured plan = Some (s, n) →
  ∃ k, s = re_snapshot env k.
Proof.
  unfold wait_for_translation_output_route. cbv zeta. case_match.
  - intros [= <- _]. by exists 0%nat.
  - intros Hw. apply wait_loop_reads in Hw as (_ & -> & _); [by eexists|done|lia].
Qed.

(** What a call may be under a configuration, given the Bridge state checked. *)
Definition owned_call (config : OutputConfig) (direction : string) (s : BridgeRuntimeSnapshot)
    (c : OutputCall) : Prop :=
  match c with
  | PlayToSpeaker _ _ _ _ =>
      isolated (oc_feedback_loop_prevention config) = false ∧ desktop_owns s
      ∧ (direction = "outbound" → oc_virtual_mic_output_enabled config ≠ Some true)
  | WriteProcessPlaybackCue _ _ _ _ _ _ _ _ =>
      direction = "inbound" ∧ ∃ m, bridge_owned_capture_mode_for_config config = Some m ∧ bridge_plays m s
  | WriteVirtualMicFrame _ _ _ _ _ _ _ _ =>
      direction ≠ "inbound" ∧ oc_virtual_mic_output_enabled config = Some true
      ∧ (if isolated (oc_feedback_loop_prevention config)
         then direction = "outbound" ∧ bridge_in_session s else desktop_owns s)
  end.
Definition plan_of (config : OutputConfig) (direction : string) : SpeechOutputRoutePlan :=
  let c := route_config_from_value config in
  for_configured_route direction (rc_local_playback_enabled c) (rc_virtual_mic_output_enabled c)
    (rc_bridge_playback_enabled c).

Lemma isolated_mode config :
  isolated (oc_feedback_loop_prevention config)
  = is_Some_b (bridge_owned_capture_mode_for_config config).
Proof.
  unfold isolated, bridge_owned_capture_mode_for_config.
  destruct (oc_feedback_loop_prevention config) as [m|]; [|done].
  by destruct (eqs m "virtual-driver"), (eqs m "process-exclusion").
Qed.
Lemma planned_owned config direction s c :
  route_allowed direction (bridge_owned_capture_mode_for_config config) (plan_of config direction) s →
  planned (plan_of config direction) c → owned_call config direction s c.
Proof.
  unfold plan_of, route_config_from_value, for_configured_route, for_route,
    desktop_direct_playback_enabled_for_config, bridge_translation_playback_enabled_for_config. simpl.
  intros Hr Hc. pose proof (isolated_mode config) as Hi.
  destruct (bridge_owned_capture_mode_for_config config) as [m|] eqn:Em; simpl in Hi; rewrite Hi in *.
  - destruct Hr as [_ [(-> & Hs & Hp)|(-> & Hs & Hp)]]; rewrite Hp in Hc;
      destruct c; simpl in Hc; try done.
    + simpl. rewrite Hi. revert Hp. rewrite !andb_false_r. simpl.
      destruct (oc_virtual_mic_output_enabled config) as [[]|]; simpl; naive_solver.
    + simpl. split; [done|]. by exists m.
    + by destruct Hc.
  - simpl in Hr.
    destruct (eqs direction "inbound") eqn:E1; autorewrite with route in E1;
      [|destruct (eqs direction "outbound") eqn:E2; autorewrite with route in E2];
      destruct (oc_virtual_mic_output_enabled config) as [[]|] eqn:Ev,
        (default true (oc_local_playback_enabled config)), c; simpl in *; rewrite ?Hi, ?Ev; intuition congruence.
Qed.

(** C16: Translated speech is written only to its owner: to the speaker only when the
    configuration does not isolate playback and the Bridge captures nothing
    (and, outbound, no virtual microphone is configured); to the Bridge only for
    an inbound cue, when the Bridge runs in the configured mode and plays
    itself; to the virtual microphone never for an inbound cue. A refused cue is
    written nowhere and leaves its error code. *)
Theorem translated_speech_has_one_owner env config cue request direction mix created_at_ms :
  match play env (route_config_from_value config) cue request direction mix created_at_ms with
  | None => True
  | Some run =>
      let '(result, log) := run (mk_play_log [] None) in
      ∃ k, Forall (owned_call config direction (re_snapshot env k)) (pl_calls log)
      ∧ (is_Some (pl_route_error log) → pl_calls log = [] ∧ is_ok result = false)
  end.
Proof.
  unfold play. cbv zeta. change (for_configured_route _ _ _ _) with (plan_of config direction).
  change (rc_bridge_capture_mode _) with (bridge_owned_capture_mode_for_config config).
  destruct (wait_for_translation_output_route _ _ _ _) as [[s n]|] eqn:Ew; [|done].
  apply wait_reads in Ew as [k ->].
  destruct (translation_output_route_violation _ _ _ _ _) as [error|] eqn:Ev.
  { simpl. exists k. split; [constructor|done]. }
  pose proof (play_routed_grows env cue request direction mix created_at_ms
    (plan_of config direction) (mk_play_log [] None)) as [He (cs & Hcs & Hp)].
  destruct (play_routed _ _ _ _ _ _ _ _) as [result log]; simpl in *.
  exists k. rewrite Hcs, He. split; [|by intros [? [=]]].
  apply route_check_spec in Ev as [Ho|Hr].
  - destruct cs as [|c cs]; [constructor|]. apply Forall_inv in Hp. unfold has_output in Ho.
    bool_hyps. destruct c; simpl in Hp; intuition congruence.
  - eapply Forall_impl; [exact Hp|]. intros c. by apply planned_owned.
Qed.

(** ** Concrete runs *)
Definition running_bridge (mode : SourceCaptureMode) (backend : CaptureBackend) : BridgeRuntimeSnapshot :=
  mk_bridge "running" "running" "ready" "ready" "running" (Some "session-1") true mode backend true
    Ready None (Some 26100) 20348 "capturing" true "streaming" None None 1 None None true "ready"
    (Some "open-diagnostics").
(** The Bridge is stopped for the first three readings of a restart. *)
Definition restarting_env : RouteEnv :=
  mk_route_env
    (λ k, if (k <? 3)%nat
          then (running_bridge ProcessExclusion WasapiProcessExclusion) <| br_process_status := "stopped" |>
          else running_bridge ProcessExclusion WasapiProcessExclusion)
    (λ k, Z.of_nat k * POLL_INTERVAL) (λ _, Ok 480).
Definition isolated_config : OutputConfig := mk_output_config (Some true) None (Some "process-exclusion").

Lemma wait_for_restart_ends_witness :
  ∃ s n, wait_for_translation_output_route restarting_env "inbound" (Some ProcessExclusion)
           (plan_of isolated_config "inbound") = Some (s, n)
  ∧ (1 ≤ n ≤ 81)%nat.
Proof.
  destruct (wait_for_restart_ends restarting_env "inbound" (Some ProcessExclusion)
    (plan_of isolated_config "inbound")) as (s & n & Hw & Hn & _).
  - split; [vm_compute; discriminate|]. intros k _. cbn [re_now restarting_env]. lia.
  - exists s, n. exact (conj Hw Hn).
Defined.
Lemma failed_bridge_stops_output_witness :
  is_Some (translation_output_route_violation "cue-1" "inbound" (Some ProcessExclusion)
    (plan_of isolated_config "inbound")
    (mark_process_loopback_capture_failed "lost" (running_bridge ProcessExclusion WasapiProcessExclusion))).
Proof.
  destruct (failed_bridge_stops_output "bridge.timeout" "lost" "cue-1" "inbound" (Some ProcessExclusion)
    (plan_of isolated_config "inbound") (running_bridge ProcessExclusion WasapiProcessExclusion)
    ltac:(done) ltac:(vm_compute; reflexivity) _ (or_introl eq_refl)) as [_ H].
  exact H.
Defined.
(** The restarted Bridge is used: four snapshots, one call to its playback. *)
Example restarted_bridge_plays :
  (λ run : M PlayLog SpeechPlaybackResult, run (mk_play_log [] None)) <$>
    play restarting_env (route_config_from_value isolated_config) "cue-1" "req-1" "inbound"
      (mk_mix [] [] (replicate 96 7) 24000 1) 1000
  = Some (Ok (mk_played 0 0 480 true),
      mk_play_log [WriteProcessPlaybackCue "cue-1" "req-1" "inbound" (replicate 96 7) 48000 2 1000 1] None).
Proof. reflexivity. Qed.
