(* ===== verification/SpeechQueue.v ===== *)
(** * The queue of translated speech

    Models [audio/speech/dispatch.rs] and the task part of
    [audio/speech/planner.rs]: which cues are spoken and as which clauses, the
    bounded memory of what was spoken, admission with its age and depth limits,
    and one turn of the dispatch worker, which synthesizes up to two tasks at a
    time in threads and plays them one by one through [SpeechRoute.play].

    The environment answers each query with the number of queries made before
    it: clocks, which synthesis thread delivers next, the event bus and the
    Bridge. [DefaultHasher]'s algorithm is unspecified, so its [finish] is a
    parameter over the bytes written to it. The runtime status shown to the
    user and the diagnostics log are not modelled. *)
From S2P Require Import Prelude RustStr SubtitleCues SpeechRoute.
From Stdlib Require Import Ascii.

Definition MAX_PROCESSED_CUES : nat := 128.
Definition MAX_TTS_QUEUE_DEPTH : nat := 32.
Definition TTS_START_DEADLINE : Z := 5000000000. (* nanoseconds *)
Definition PLAYBACK_START_DEADLINE_MS : Z := 4000.
Definition MAX_CONCURRENT_SYNTHESIS : nat := 2.

(** ** Clauses of a text *)
Definition byte (n : Z) (a : ascii) : bool := byte_of a =? n.
(** The characters [；], and the three full-width sentence ends [。！？]. *)
Definition wide_semicolon (a b c : ascii) : bool := byte 239 a && byte 188 b && byte 155 c.
Definition wide_stop (a b c : ascii) : bool :=
  (byte 227 a && byte 128 b && byte 130 c)
  || (byte 239 a && byte 188 b && (byte 129 c || byte 159 c)).
(** [current.trim()], kept when it is not empty. *)
Definition clause (current : list ascii) : list string :=
  let value := trim (of_bytes current) in if is_empty value then [] else [value].
Fixpoint clauses_go (current s : list ascii) : list string :=
  match s with
  | [] => clause current
  | a :: s1 =>
      if byte 13 a then clauses_go current s1
      else if byte 10 a || byte 59 a then clause current ++ clauses_go [] s1
      else if byte 33 a || byte 63 a then clause (current ++ [a]) ++ clauses_go [] s1
      else match s1 with
           | b :: c :: s3 =>
               if wide_semicolon a b c then clause current ++ clauses_go [] s3
               else if wide_stop a b c then clause (current ++ [a; b; c]) ++ clauses_go [] s3
               else clauses_go (current ++ [a]) s1
           | _ => clauses_go (current ++ [a]) s1
           end
  end.
Definition split_tts_clauses (text : string) : list string := clauses_go [] (bytes text).
Definition split_secondary_tts_segments (source_text translated_text : string) :
    list (string * string) :=
  let translated_parts := split_tts_clauses translated_text in
  if bool_decide (translated_parts = []) then [] else
  let source_parts := split_tts_clauses source_text in
  if (length source_parts =? length translated_parts)%nat then zip source_parts translated_parts
  else (λ translated, (trim source_text, translated)) <$> translated_parts.
Definition saturating_mul (a b : Z) : Z := Z.min (a * b) u64_max.
Definition secondary_tts_segment_index (display_index part_index : nat) : Z :=
  saturating_add (saturating_mul (Z.of_nat display_index) 1000) (Z.of_nat part_index).

(** ** Amounts of money *)
Definition contains (sub s : string) : bool := is_Some_b (String.index 0 sub s).
(** [str::replace] with a pattern that is not empty. *)
Fixpoint replace_go (skip : nat) (pattern to s : string) : string :=
  match s with
  | EmptyString => EmptyString
  | String a s' =>
      match skip with
      | S skip => replace_go skip pattern to s'
      | O => if String.prefix pattern s
             then to +:+ replace_go (String.length pattern - 1) pattern to s'
             else String a (replace_go O pattern to s')
      end
  end.
Definition replace : string → string → string → string := replace_go 0.
(** [trim_end_matches(['。', '.', ' '])]. *)
Definition trim_end_stops (s : string) : string :=
  of_bytes (reverse (strip (λ a, byte 46 a || byte 32 a) (λ _ _, false)
    (λ c b a, byte 227 a && byte 128 b && byte 130 c) (reverse (bytes s)))).
Definition AMOUNTS : list (string * string) :=
  [("one billion dollars", "十亿美元"); ("five hundred million dollars", "五亿美元");
   ("one hundred million dollars", "一亿美元")].
Definition corrected_money_translation_for_playback (source_text translated_text : string) : string :=
  let source := to_ascii_lowercase source_text in
  match List.find (λ a, contains a.1 source) AMOUNTS with
  | None => translated_text
  | Some (_, expected) =>
      if contains expected translated_text then translated_text else
      let corrected := foldl (λ corrected a,
        if negb (eqs a.2 expected) && contains a.2 corrected then replace a.2 expected corrected
        else corrected) translated_text AMOUNTS in
      if negb (contains expected corrected)
      then trim_end_stops corrected +:+ "（金额为" +:+ expected +:+ "）" else corrected
  end.

(** ** Tasks *)
Record SpeechDispatchTask := mk_task {
  tk_cue : SubtitleCueRuntime; tk_segment_index : Z; tk_source_text : string;
  tk_translated_text : string; tk_segment_mode : bool; tk_queued_at : Z
}.
#[export] Instance task_settable : Settable SpeechDispatchTask := λ t,
  mk_task (tk_cue t) (tk_segment_index t) (tk_source_text t) (tk_translated_text t)
    (tk_segment_mode t) (tk_queued_at t).
#[export] Instance task_eq_dec : EqDecision SpeechDispatchTask.
Proof. solve_decision. Defined.

(** The part of [SpeechConfig] the worker reads. *)
Record SpeechConfig := mk_speech_config {
  sc_enabled : bool; sc_secondary_segment_tts_enabled : bool; sc_outbound_ptt_enabled : bool;
  sc_outbound_ptt_state : string; sc_route : RouteConfig
}.

(** What [Hash] writes for a [str] and for a [usize], and [{:016x}]. *)
Definition hash_str (s : string) : list Z := (byte_of <$> bytes s) ++ [255].
Definition hash_usize (x : Z) : list Z := (λ i, Z.land (Z.shiftr x (8 * Z.of_nat i)) 255) <$> seq 0 8.
Definition hex_digit (x : Z) : ascii := ascii_of_N (Z.to_N (if x <? 10 then 48 + x else 87 + x)).
Definition hex16 (x : Z) : string :=
  of_bytes ((λ i, hex_digit (Z.land (Z.shiftr x (4 * (15 - Z.of_nat i))) 15)) <$> seq 0 16).

Section Keys.
Context (finish : list Z → Z).
Definition key_of (cue : string) (index hash : Z) : string :=
  cue +:+ ":" +:+ show_uint index +:+ ":" +:+ hex16 hash.
Definition dispatch_key (task : SpeechDispatchTask) : string :=
  key_of (cue_id (tk_cue task)) (tk_segment_index task)
    (finish (hash_str (cue_id (tk_cue task)) ++ hash_usize (tk_segment_index task)
             ++ hash_str (tk_source_text task) ++ hash_str (tk_translated_text task))).
Definition segment_slot_key (task : SpeechDispatchTask) : option string :=
  if tk_segment_mode task then
    Some (key_of (cue_id (tk_cue task)) (tk_segment_index task)
            (finish (hash_str (tk_source_text task) ++ hash_str (tk_translated_text task))))
  else None.

Definition is_speech_ready_cue (cue : SubtitleCueRuntime) : bool :=
  if negb (cue_translation_committed cue)
     || negb (bool_decide (cue_translation_state cue = Some Final))
     || is_blank (cue_translated_text cue) then false
  else forallb (λ s, negb (sg_pending s))
         (List.filter (λ s, negb (is_blank (sg_translated_text s))) (cue_display_segments cue)).
Definition spoken_segment (s : SubtitleDisplaySegmentRuntime) : bool :=
  negb (sg_pending s) && negb (is_blank (sg_translated_text s)).
(** [now] is the instant a new task carries until [admit_tasks] replaces it. *)
Definition segment_task (now : Z) (cue : SubtitleCueRuntime) (index part_index : nat)
    (part : string * string) : SpeechDispatchTask :=
  mk_task cue (secondary_tts_segment_index index part_index) part.1
    (corrected_money_translation_for_playback part.1 part.2) true now.
Definition speech_dispatch_tasks_for_cue (now : Z) (config : SpeechConfig)
    (committed_played : gset string) (cue : SubtitleCueRuntime) : list SpeechDispatchTask :=
  if cue_committed cue && bool_decide (cue_id cue ∈ committed_played) then []
  else if negb (cue_translation_committed cue)
          || negb (bool_decide (cue_translation_state cue = Some Final)) then []
  else if sc_secondary_segment_tts_enabled config then
    match position spoken_segment (cue_display_segments cue) with
    | None => []
    | Some index =>
        match cue_display_segments cue !! index with
        | None => []
        | Some segment =>
            imap (segment_task now cue index)
              (split_secondary_tts_segments (sg_source_text segment) (sg_translated_text segment))
        end
    end
  else if negb (is_speech_ready_cue cue) then []
  else
    let source_text := cue_display_source_text cue in
    [mk_task cue 0 source_text
       (corrected_money_translation_for_playback source_text (cue_translated_text cue)) false now].

(** ** The memory of what was spoken *)
Record SpeechDispatchQueue := mk_queue {
  q_processed : gset string; q_processed_order : list string;
  q_processed_segment_slots : gset string; q_processed_segment_slot_order : list string;
  q_committed_played : gset string; q_committed_played_order : list string;
  q_queued_at : gmap string Z
}.
#[export] Instance queue_settable : Settable SpeechDispatchQueue := λ q,
  mk_queue (q_processed q) (q_processed_order q) (q_processed_segment_slots q)
    (q_processed_segment_slot_order q) (q_committed_played q) (q_committed_played_order q)
    (q_queued_at q).
Definition empty_queue : SpeechDispatchQueue := mk_queue ∅ [] ∅ [] ∅ [] ∅.

(** [while order.len() > MAX_PROCESSED_CUES { pop the front and forget it }]. *)
Fixpoint evict (known : gset string) (order : list string) : gset string * list string :=
  match order with
  | [] => (known, order)
  | expired :: rest =>
      if (MAX_PROCESSED_CUES <? length order)%nat then evict (known ∖ {[expired]}) rest
      else (known, order)
  end.
Definition remember_processed (key : string) (known : gset string) (order : list string) :
    gset string * list string :=
  evict ({[key]} ∪ known) (order ++ [key]).
Definition remember_segment_slot_processed (task : SpeechDispatchTask) (slots : gset string)
    (order : list string) : gset string * list string :=
  match segment_slot_key task with
  | None => (slots, order)
  | Some slot_key => evict ({[slot_key]} ∪ slots) (order ++ [slot_key])
  end.
Definition remember_committed_cue_played (id : string) (played : gset string)
    (order : list string) : gset string * list string :=
  if bool_decide (id ∈ played) then (played, order) else evict ({[id]} ∪ played) (order ++ [id]).
Definition is_processed_task (task : SpeechDispatchTask) (processed slots : gset string) : bool :=
  bool_decide (dispatch_key task ∈ processed)
  || default false ((λ slot_key, bool_decide (slot_key ∈ slots)) <$> segment_slot_key task).

Definition queue_contains (q : SpeechDispatchQueue) (task : SpeechDispatchTask) : bool :=
  (cue_committed (tk_cue task) && bool_decide (cue_id (tk_cue task) ∈ q_committed_played q))
  || is_processed_task task (q_processed q) (q_processed_segment_slots q).
Definition remember (task : SpeechDispatchTask) (key : string) (q : SpeechDispatchQueue) :
    SpeechDispatchQueue :=
  let '(processed, order) := remember_processed key (q_processed q) (q_processed_order q) in
  let '(slots, slot_order) :=
    remember_segment_slot_processed task (q_processed_segment_slots q)
      (q_processed_segment_slot_order q) in
  let '(played, played_order) :=
    if cue_committed (tk_cue task)
    then remember_committed_cue_played (cue_id (tk_cue task)) (q_committed_played q)
           (q_committed_played_order q)
    else (q_committed_played q, q_committed_played_order q) in
  mk_queue processed order slots slot_order played played_order (delete key (q_queued_at q)).

(** The age of each task, kept from the first admission that saw its key. *)
Fixpoint stamp_ages (now : Z) (ages : gmap string Z) (tasks : list SpeechDispatchTask) :
    gmap string Z * list SpeechDispatchTask :=
  match tasks with
  | [] => (ages, [])
  | task :: rest =>
      let key := dispatch_key task in
      let at_ := default now (ages !! key) in
      let '(ages, rest) := stamp_ages now (<[key := at_]> ages) rest in
      (ages, (task <| tk_queued_at := at_ |>) :: rest)
  end.
Definition admit_tasks (now : Z) (tasks : list SpeechDispatchTask) (q : SpeechDispatchQueue) :
    (list SpeechDispatchTask * list SpeechDispatchTask) * SpeechDispatchQueue :=
  let current_keys : gset string := list_to_set (dispatch_key <$> tasks) in
  let kept := filter (λ kv, kv.1 ∈ current_keys) (q_queued_at q) in
  let '(ages, tasks) := stamp_ages now kept tasks in
  let overflow_count := (length tasks - MAX_TTS_QUEUE_DEPTH)%nat in
  let overflow := take overflow_count tasks in
  let tasks := drop overflow_count tasks in
  ((tasks, overflow),
   foldl (λ q task, remember task (dispatch_key task) q) (q <| q_queued_at := ages |>) overflow).
End Keys.

(** ** The dispatch worker *)
Record SynthesisOutput := mk_synthesis {
  sy_request_id : string; sy_mix : MixPlan; sy_cache_hit : bool; sy_created_at_ms : Z
}.
(** What the worker did, in order; [Reconnected]: it forgot the cues it had spoken,
    because the provider session had been renewed. *)
Inductive dispatch_event :=
| Reconnected
| Remembered (task : SpeechDispatchTask)
| Skipped (kind : string) (task : SpeechDispatchTask)
| PttBlocked (task : SpeechDispatchTask)
| Played (task : SpeechDispatchTask) (result : SpeechPlaybackResult)
| PlayFailed (task : SpeechDispatchTask) (error : string)
| SynthesisFailed (task : SpeechDispatchTask) (error : string).
Record DispatchEnv := mk_dispatch_env {
  de_finish : list Z → Z;
  de_now : nat → Z; (* [Instant], nanoseconds *)
  de_unix_ms : nat → Z;
  de_emit : nat → outcome unit; (* [emit_audio_snapshot] *)
  de_arrives : nat → nat; (* which thread's result is received *)
  de_synthesis : nat → SpeechDispatchTask → outcome SynthesisOutput; (* in the given turn *)
  de_route : nat → RouteEnv
}.
Record Worker := mk_worker {
  w_queue : SpeechDispatchQueue; w_reconnect_gen : Z; w_turn : nat; w_tick : nat;
  w_inflight : list SpeechDispatchTask; w_log : list dispatch_event
}.
#[export] Instance worker_settable : Settable Worker := λ w,
  mk_worker (w_queue w) (w_reconnect_gen w) (w_turn w) (w_tick w) (w_inflight w) (w_log w).
Definition new_worker (reconnect_gen : Z) : Worker := mk_worker empty_queue reconnect_gen 0 0 [] [].
(** How the loop over one pass ends: all tasks done, an outbound task found
    push-to-talk closed, or [recv] waits for a result no thread will send while
    the loop itself keeps the channel open. *)
Inductive pass_end := Finished | Blocked | Stuck.
#[export] Instance pass_end_eq_dec : EqDecision pass_end.
Proof. solve_decision. Defined.

Section Worker.
Context (env : DispatchEnv) (config : SpeechConfig).

Definition query {A} (f : nat → A) : M Worker A :=
  let* tick := gets w_tick in modify (λ w, w <| w_tick ::= S |>) ;;; ret (f tick).
Definition log (e : dispatch_event) : M Worker unit := modify (λ w, w <| w_log ::= λ l, l ++ [e] |>).
Definition emit : M Worker unit := let* answer := query (de_emit env) in lift answer.
Definition remember_task (task : SpeechDispatchTask) : M Worker unit :=
  modify (λ w, w <| w_queue ::= remember (de_finish env) task (dispatch_key (de_finish env) task) |>) ;;;
  log (Remembered task).
Definition record_speech_skip (kind : string) (task : SpeechDispatchTask) : M Worker unit :=
  log (Skipped kind task) ;;; emit.
Definition ptt_closed (task : SpeechDispatchTask) : bool :=
  eqs (cue_route_direction (tk_cue task)) "outbound" && sc_outbound_ptt_enabled config
  && negb (eqs (sc_outbound_ptt_state config) "recording").

(** The inner loop: starts threads until two run, [true] when it was blocked. *)
Fixpoint spawn (tasks : list SpeechDispatchTask) : M Worker (list SpeechDispatchTask * bool) :=
  let* running := gets (λ w, length (w_inflight w)) in
  if (MAX_CONCURRENT_SYNTHESIS <=? running)%nat then ret (tasks, false) else
  match tasks with
  | [] => ret ([], false)
  | task :: rest =>
      let* now := query (de_now env) in
      if TTS_START_DEADLINE <=? saturating_sub now (tk_queued_at task) then
        remember_task task ;;; record_speech_skip "speech.tts-start-expired" task ;;; spawn rest
      else if ptt_closed task then
        log (PttBlocked task) ;;; emit ;;; ret (rest, true)
      else modify (λ w, w <| w_inflight ::= λ l, l ++ [task] |>) ;;; spawn rest
  end.

(** A panicking thread sends nothing. *)
Definition delivers (turn : nat) (task : SpeechDispatchTask) : bool :=
  negb (is_panic (de_synthesis env turn task)).
Definition play_pcm (task : SpeechDispatchTask) (out : SynthesisOutput) :
    M Worker (option (outcome SpeechPlaybackResult)) :=
  let* shown := query (de_emit env) in
  match shown with
  | Err e => ret (Some (Err e))
  | Ok _ =>
      let* route := query (de_route env) in
      ret ((λ run : M PlayLog SpeechPlaybackResult, (run (mk_play_log [] None)).1) <$>
        play route (sc_route config) (cue_id (tk_cue task)) (sy_request_id out)
          (cue_route_direction (tk_cue task)) (sy_mix out) (sy_created_at_ms out))
  end.
(** One received result; [false] when playback never returns. *)
Definition settle (task : SpeechDispatchTask) (result : outcome SynthesisOutput) : M Worker bool :=
  match result with
  | Ok out =>
      let* now := query (de_unix_ms env) in
      if PLAYBACK_START_DEADLINE_MS <? saturating_sub now (sy_created_at_ms out) then
        remember_task task ;;; record_speech_skip "speech.playback-start-expired" task ;;; ret true
      else
        let* played := play_pcm task out in
        match played with
        | None => ret false
        | Some (Ok playback) => remember_task task ;;; log (Played task playback) ;;; emit ;;; ret true
        | Some (Err (Fail error)) => remember_task task ;;; log (PlayFailed task error) ;;; emit ;;; ret true
        | Some (Err (Panic msg)) => panic msg
        end
  | Err (Fail error) => remember_task task ;;; log (SynthesisFailed task error) ;;; emit ;;; ret true
  | Err (Panic _) => ret false
  end.
(** [synth_rx.recv()]: the next result among the running threads that deliver one. *)
Definition receive : M Worker (option SpeechDispatchTask) :=
  let* w := gets (λ w, w) in
  let* k := query (de_arrives env) in
  let candidates := List.filter (λ i, default false (delivers (w_turn w) <$> w_inflight w !! i))
                      (seq 0 (length (w_inflight w))) in
  match candidates !! (k mod length candidates)%nat with
  | None => ret None
  | Some i =>
      modify (λ w, w <| w_inflight ::= delete i |>) ;;; ret (w_inflight w !! i)
  end.
Fixpoint dispatch_loop (fuel : nat) (tasks : list SpeechDispatchTask) : M Worker pass_end :=
  match fuel with
  | O => ret Stuck
  | S fuel =>
      let* inflight := gets w_inflight in
      if bool_decide (tasks = []) && bool_decide (inflight = []) then ret Finished else
      let* spawned := spawn tasks in
      if spawned.2 then
        (* the remaining results are received and thrown away *)
        modify (λ w, w <| w_inflight := [] |>) ;;; ret Blocked
      else
        let* received := receive in
        match received with
        | None => ret Stuck
        | Some task =>
            let* turn := gets w_turn in
            let* returned := settle task (de_synthesis env turn task) in
            if returned then dispatch_loop fuel spawned.1 else ret Stuck
        end
  end.
Definition dispatch_pass (pending : list SpeechDispatchTask) : M Worker pass_end :=
  dispatch_loop (S (length pending)) pending.

Fixpoint skip_overflow (overflow : list SpeechDispatchTask) : M Worker unit :=
  match overflow with
  | [] => ret tt
  | task :: rest =>
      record_speech_skip "speech.tts-queue-overflow" task ;;; skip_overflow rest
  end.
Definition discovered (now : Z) (q : SpeechDispatchQueue) (recent_cues : list SubtitleCueRuntime) :
    list SpeechDispatchTask :=
  if sc_enabled config then
    List.filter (λ task, negb (queue_contains (de_finish env) q task))
      (reverse recent_cues ≫= speech_dispatch_tasks_for_cue now config (q_committed_played q))
  else [].
Definition discover_pending_speech_tasks (recent_cues : list SubtitleCueRuntime) :
    M Worker (list SpeechDispatchTask) :=
  let* now := query (de_now env) in
  let* q := gets w_queue in
  let '((pending, overflow), q') :=
    admit_tasks (de_finish env) now (discovered now q recent_cues) q in
  modify (λ w, w <| w_queue := q' |> <| w_log ::= λ l, l ++ (Remembered <$> overflow) |>) ;;;
  skip_overflow overflow ;;;
  ret pending.

Definition check_reconnect (current_gen : Z) (w : Worker) : Worker :=
  if negb (current_gen =? w_reconnect_gen w) then
    w <| w_reconnect_gen := current_gen |>
      <| w_queue ::= (λ q, q <| q_committed_played := ∅ |> <| q_committed_played_order := [] |>) |>
      <| w_log ::= λ l, l ++ [Reconnected] |>
  else w.
(** One iteration of [run], given the store's reconnect generation and cues. *)
Definition worker_turn (current_gen : Z) (recent_cues : list SubtitleCueRuntime) : M Worker pass_end :=
  modify (check_reconnect current_gen) ;;;
  let* pending := discover_pending_speech_tasks recent_cues in
  emit ;;;
  let* ended := if negb (sc_enabled config) || bool_decide (pending = []) then ret Finished
                else dispatch_pass pending in
  modify (λ w, w <| w_turn ::= S |>) ;;; ret ended.
End Worker.
