(* ===== verification/SpeechQueueFacts.v ===== *)
(** * The memory and the passes of the speech queue

    The queue's bounded memory is the last 128 keys of the history of what was
    remembered; a pass moves every task from the admitted list through the
    running threads into that history. *)
From S2P Require Import Prelude RustStr FifoMemory SubtitleCues SpeechRoute SpeechQueue.

(** ** Eviction *)
Lemma evict_is_evict_to order known : evict known order = evict_to MAX_PROCESSED_CUES known order.
Proof.
  revert known. induction order as [|x order IH]; intros known; cbn [evict evict_to]; [done|].
  destruct (_ <? _)%nat; [apply IH|done].
Qed.
(** A memory that holds exactly the last keys of a history. *)
Abbreviation holds_last := (holds_last MAX_PROCESSED_CUES).
Lemma evict_holds known order history key :
  holds_last known order history → spaced MAX_PROCESSED_CUES (history ++ [key]) →
  let '(known', order') := evict ({[key]} ∪ known) (order ++ [key]) in
  holds_last known' order' (history ++ [key]).
Proof. intros H Hs. rewrite evict_is_evict_to. by apply evict_to_holds. Qed.

(** ** A dispatch key names one cue and one index *)
Lemma bytes_app s1 s2 : bytes (s1 +:+ s2) = bytes s1 ++ bytes s2.
Proof. induction s1 as [|a s1 IH]; simpl; [done|]. by f_equal. Qed.
Lemma bytes_inj s1 s2 : bytes s1 = bytes s2 → s1 = s2.
Proof. intros H. by rewrite <- (of_bytes_bytes s1), <- (of_bytes_bytes s2), H. Qed.
Lemma app_cons_inj_last {A} (l1 l2 k1 k2 : list A) x :
  x ∉ k1 → x ∉ k2 → l1 ++ x :: k1 = l2 ++ x :: k2 → l1 = l2 ∧ k1 = k2.
Proof.
  intros H1 H2. revert l2. induction l1 as [|a l1 IH]; intros [|b l2]; simpl.
  - by intros [= ->].
  - intros [= <- ->]. destruct H1. apply elem_of_app. right. left.
  - intros [= -> <-]. destruct H2. apply elem_of_app. right. left.
  - intros [= <- H]. by destruct (IH l2 H) as [-> ->].
Qed.

Definition colon : Ascii.ascii := Ascii.Ascii false true false true true true false false.
Lemma digit_not_colon x : pretty_N_char x ≠ colon.
Proof. destruct x as [|p]; [done|]. do 4 (try destruct p as [p|p|]; try done). Qed.
Lemma pretty_go_no_colon x : ∀ s, colon ∉ bytes s → colon ∉ bytes (pretty_N_go x s).
Proof.
  induction (N.lt_wf_0 x) as [x _ IH]; intros s Hs.
  destruct (decide (x = 0%N)) as [->|Hx]; [by rewrite pretty_N_go_0|].
  rewrite pretty_N_go_step by lia. apply IH; [apply N.div_lt; lia|].
  simpl. rewrite not_elem_of_cons. split; [|done]. intros H. by apply (digit_not_colon (x mod 10)).
Qed.
Lemma show_uint_no_colon x : colon ∉ bytes (show_uint x).
Proof.
  unfold show_uint, pretty, pretty_N. case_decide.
  { simpl. rewrite not_elem_of_cons. split; [done|apply not_elem_of_nil]. }
  apply pretty_go_no_colon. apply not_elem_of_nil.
Qed.
Lemma show_uint_inj x y : 0 ≤ x → 0 ≤ y → show_uint x = show_uint y → x = y.
Proof. unfold show_uint. intros Hx Hy H. apply (inj pretty) in H. lia. Qed.
Lemma key_of_inj c1 i1 h1 c2 i2 h2 :
  0 ≤ i1 → 0 ≤ i2 → key_of c1 i1 h1 = key_of c2 i2 h2 → c1 = c2 ∧ i1 = i2.
Proof.
  intros Hi1 Hi2 H. apply (f_equal bytes) in H. unfold key_of in H.
  rewrite !bytes_app in H. rewrite !app_assoc in H.
  apply app_inj_2 in H as [H _]; [|unfold hex16; by rewrite !bytes_of_bytes, !length_fmap].
  change (bytes ":") with [colon] in H.
  apply app_inj_2 in H as [H _]; [|done]. rewrite <- !app_assoc in H. simpl in H.
  apply app_cons_inj_last in H as [Hc Hi]; [|apply show_uint_no_colon..].
  split; [by apply bytes_inj|]. apply show_uint_inj; [done..|]. by apply bytes_inj.
Qed.

(** ** The tasks of an overlay *)
(** The index of a clause is not cut off at the width of [usize]. *)
Definition cue_fits (cue : SubtitleCueRuntime) : Prop :=
  ∀ index segment, cue_display_segments cue !! index = Some segment →
    Z.of_nat index * 1000 + Z.of_nat (length (split_secondary_tts_segments
      (sg_source_text segment) (sg_translated_text segment))) ≤ u64_max.
(** One cue per id, each with indices that fit. *)
Definition overlay_ok (cues : list SubtitleCueRuntime) : Prop :=
  NoDup (cue_id <$> cues) ∧ Forall cue_fits cues.

Lemma segment_index_exact display part n :
  Z.of_nat display * 1000 + Z.of_nat n ≤ u64_max → (part < n)%nat →
  secondary_tts_segment_index display part = Z.of_nat display * 1000 + Z.of_nat part.
Proof. unfold secondary_tts_segment_index, saturating_add, saturating_mul. lia. Qed.

Lemma fmap_bind {A B C} (f : B → C) (g : A → list B) l :
  f <$> (l ≫= g) = l ≫= (λ x, f <$> g x).
Proof. induction l as [|x l IH]; [done|]. csimpl. by rewrite fmap_app, IH. Qed.

Section Tasks.
Context (finish : list Z → Z) (now : Z) (config : SpeechConfig).
Local Abbreviation key := (dispatch_key finish).

Lemma key_inj t1 t2 : 0 ≤ tk_segment_index t1 → 0 ≤ tk_segment_index t2 → key t1 = key t2 →
  cue_id (tk_cue t1) = cue_id (tk_cue t2) ∧ tk_segment_index t1 = tk_segment_index t2.
Proof. intros ??. by apply key_of_inj. Qed.
Lemma task_index_nonneg played cue t :
  t ∈ speech_dispatch_tasks_for_cue now config played cue → 0 ≤ tk_segment_index t.
Proof.
  unfold speech_dispatch_tasks_for_cue. repeat case_match; try by intros ?%elem_of_nil.
  - intros (i & x & -> & _)%elem_of_lookup_imap. simpl.
    unfold secondary_tts_segment_index, saturating_add, saturating_mul.
    pose proof u64_max_pos. lia.
  - intros ->%list_elem_of_singleton. simpl. lia.
Qed.
Lemma task_cue played cue t :
  t ∈ speech_dispatch_tasks_for_cue now config played cue → tk_cue t = cue.
Proof.
  unfold speech_dispatch_tasks_for_cue. repeat case_match; try by intros ?%elem_of_nil.
  - by intros (i & x & -> & _)%elem_of_lookup_imap.
  - by intros ->%list_elem_of_singleton.
Qed.
Lemma task_keys_NoDup played cue : cue_fits cue →
  NoDup (key <$> speech_dispatch_tasks_for_cue now config played cue).
Proof.
  intros Hfit. unfold speech_dispatch_tasks_for_cue. repeat case_match; try by constructor.
  - match goal with H : _ !! _ = Some _ |- _ => specialize (Hfit _ _ H) end.
    rewrite fmap_imap. apply NoDup_alt. intros i j k Hi Hj.
    apply list_lookup_imap_Some in Hi as (x & Hi & ->), Hj as (y & Hj & Hk).
    apply lookup_lt_Some in Hi, Hj. simpl in Hk.
    apply key_inj in Hk as [_ Hk]; simpl in *;
      rewrite ?(segment_index_exact _ i _ Hfit Hi), ?(segment_index_exact _ j _ Hfit Hj) in *; lia.
  - apply NoDup_singleton.
Qed.
Lemma cue_tasks_NoDup played cues : overlay_ok cues →
  NoDup (key <$> (reverse cues ≫= speech_dispatch_tasks_for_cue now config played)).
Proof.
  intros [Hid Hfit]. rewrite fmap_bind. apply NoDup_bind.
  - intros c1 c2 k H1 H2 (t1 & -> & Ht1)%list_elem_of_fmap (t2 & Hk & Ht2)%list_elem_of_fmap.
    pose proof (task_index_nonneg _ _ _ Ht1). pose proof (task_index_nonneg _ _ _ Ht2).
    apply key_inj in Hk as [Hk _]; [|done..].
    rewrite (task_cue _ _ _ Ht1), (task_cue _ _ _ Ht2) in Hk.
    rewrite elem_of_reverse in H1, H2.
    apply list_elem_of_lookup in H1 as [i Hi], H2 as [j Hj].
    assert (i = j) as ->; [|congruence].
    eapply NoDup_lookup; [exact Hid|..]; rewrite list_lookup_fmap, ?Hi, ?Hj; simpl; by rewrite ?Hk.
  - intros c Hc. rewrite elem_of_reverse in Hc. apply task_keys_NoDup.
    by eapply Forall_forall in Hfit.
  - rewrite reverse_Permutation. by eapply NoDup_fmap_1.
Qed.
End Tasks.

(** ** One pass over the admitted tasks *)
Definition remembered (log : list dispatch_event) : list SpeechDispatchTask :=
  omap (λ e, match e with Remembered task => Some task | _ => None end) log.

(** The tasks that got an outcome: spoken, skipped with a notice, or failed. *)
Definition outcome_of (e : dispatch_event) : option SpeechDispatchTask :=
  match e with
  | Skipped _ t | Played t _ | PlayFailed t _ | SynthesisFailed t _ => Some t
  | Reconnected | Remembered _ | PttBlocked _ => None
  end.
Definition outcomes (log : list dispatch_event) : list SpeechDispatchTask := omap outcome_of log.

Lemma remembered_snoc l e :
  remembered (l ++ [e]) = remembered l ++ match e with Remembered t => [t] | _ => [] end.
Proof. unfold remembered. rewrite omap_app. by destruct e. Qed.
Lemma outcomes_snoc l e :
  outcomes (l ++ [e]) = outcomes l ++ match outcome_of e with Some t => [t] | None => [] end.
Proof. unfold outcomes. rewrite omap_app. simpl. by destruct (outcome_of e). Qed.
Lemma outcome_not_remembered e t : outcome_of e = Some t → ∀ t', e ≠ Remembered t'.
Proof. by intros H t' ->. Qed.

Lemma triple_query {A} (f : nat → A) (P : Worker → Prop) (Q : A → Worker → Prop) E :
  (∀ w, P w → Q (f (w_tick w)) (w <| w_tick ::= S |>)) → triple P (query f) Q E.
Proof. intros H w Hw. by apply H. Qed.

Section Pass.
Context (env : DispatchEnv) (config : SpeechConfig).
Local Abbreviation key := (dispatch_key (de_finish env)).

Definition keys (w : Worker) : list string := key <$> remembered (w_log w).
(** The queue holds the last keys of the history, which are spaced. *)
Definition memory_ok (q : SpeechDispatchQueue) (history : list string) : Prop :=
  holds_last (q_processed q) (q_processed_order q) history ∧ spaced MAX_PROCESSED_CUES history.
(** Tasks that may be remembered one after the other. *)
Definition fresh (tasks : list SpeechDispatchTask) (history : list string) : Prop :=
  NoDup (key <$> tasks) ∧ ∀ t, t ∈ tasks → key t ∉ last_n MAX_PROCESSED_CUES history.

Lemma fresh_perm ts ts' h : ts ≡ₚ ts' → fresh ts h → fresh ts' h.
Proof. intros Hp [Hn Hf]. split; [by rewrite <- Hp|]. intros t. rewrite <- Hp. apply Hf. Qed.
Lemma fresh_sub ts ts' h : sublist ts' ts → fresh ts h → fresh ts' h.
Proof.
  intros Hs [Hn Hf]. split; [by eapply sublist_NoDup, fmap_sublist|].
  intros t Ht. apply Hf. by eapply elem_of_sublist.
Qed.
Lemma fresh_next t ts h : fresh (t :: ts) h → fresh ts (h ++ [key t]).
Proof.
  intros [Hn Hf]. rewrite fmap_cons, NoDup_cons in Hn. destruct Hn as [Ht Hn].
  split; [done|]. intros t' Ht' [H|H]%last_n_app_elem.
  - apply (Hf t'); [by right|done].
  - apply list_elem_of_singleton in H. apply Ht. rewrite <- H. by apply list_elem_of_fmap_2.
Qed.
Lemma remember_memory t q h : memory_ok q h → key t ∉ last_n MAX_PROCESSED_CUES h →
  memory_ok (remember (de_finish env) t (key t) q) (h ++ [key t]).
Proof.
  intros [Hh Hs] Hk. assert (spaced MAX_PROCESSED_CUES (h ++ [key t])) as Hs' by by apply spaced_snoc.
  split; [|done]. pose proof (evict_holds _ _ _ (key t) Hh Hs') as He.
  unfold remember, remember_processed. destruct (evict _ _) as [known order]. by repeat case_match.
Qed.

(** [done] tasks of [all] are in the history, [owed] of the history still without
    their outcome; the others run or wait. *)
Definition under_way (all before waiting owed : list SpeechDispatchTask) (turn : nat) (w : Worker) : Prop :=
  w_turn w = turn ∧ memory_ok (w_queue w) (keys w) ∧ fresh (w_inflight w ++ waiting) (keys w)
  ∧ remembered (w_log w) ≡ₚ outcomes (w_log w) ++ owed
  ∧ ∃ done, remembered (w_log w) = before ++ done ∧ done ++ w_inflight w ++ waiting ≡ₚ all.
(** What every end of a pass leaves. *)
Definition memory_kept (w : Worker) : Prop := memory_ok (w_queue w) (keys w).

Context (all before : list SpeechDispatchTask) (turn : nat).
Local Abbreviation P := (under_way all before).

Lemma under_way_kept waiting owed w : P waiting owed turn w → memory_kept w.
Proof. by intros (_ & ? & _). Qed.
Lemma under_way_log e waiting owed : (∀ t, e ≠ Remembered t) →
  triple (P waiting (match outcome_of e with Some t => t :: owed | None => owed end) turn) (log e)
    (λ _, P waiting owed turn) memory_kept.
Proof.
  intros He. apply triple_modify. intros w (Ht & Hm & Hf & Ho & done & Hd & Hp).
  assert (remembered (w_log w ++ [e]) = remembered (w_log w)) as Hr.
  { rewrite remembered_snoc. destruct e as [|task| | | | |]; rewrite ?app_nil_r; [done|by destruct (He task)|done..]. }
  unfold under_way, keys. simpl. rewrite Hr, outcomes_snoc. split_and!; [done..| |by exists done].
  rewrite Ho, <- app_assoc. f_equiv. by destruct (outcome_of e).
Qed.
Lemma under_way_query {A} (f : nat → A) waiting owed :
  triple (P waiting owed turn) (query f) (λ _, P waiting owed turn) memory_kept.
Proof. apply triple_query. by intros w. Qed.
Lemma under_way_emit waiting owed :
  triple (P waiting owed turn) (emit env) (λ _, P waiting owed turn) memory_kept.
Proof.
  unfold emit. eapply triple_bind; [apply under_way_query|]. intros [[]|e]; [by intros w|].
  intros w Hw. by eapply under_way_kept.
Qed.
Lemma under_way_remember t waiting owed :
  triple (P (t :: waiting) owed turn) (remember_task env t) (λ _, P waiting (t :: owed) turn) memory_kept.
Proof.
  intros w (Ht & Hm & Hf & Ho & done & Hd & Hp). unfold remember_task, log, modify, bind. simpl.
  unfold under_way, keys. simpl. rewrite remembered_snoc, outcomes_snoc, fmap_app. simpl.
  split_and!; [done| | | |].
  - apply remember_memory; [done|]. apply Hf. apply elem_of_app. right. left.
  - apply fresh_next. eapply fresh_perm; [|exact Hf]. by rewrite Permutation_middle.
  - rewrite Ho, app_nil_r, <- app_assoc. f_equiv. by rewrite (Permutation_app_comm owed [t]).
  - exists (done ++ [t]). rewrite Hd. split; [by rewrite app_assoc|].
    rewrite <- Hp, <- app_assoc. f_equiv. simpl. by rewrite Permutation_middle.
Qed.
Lemma under_way_skip kind t waiting owed :
  triple (P waiting (t :: owed) turn) (record_speech_skip env kind t) (λ _, P waiting owed turn) memory_kept.
Proof.
  unfold record_speech_skip. eapply triple_bind.
  - exact (under_way_log (Skipped kind t) waiting owed ltac:(done)).
  - intros []. apply under_way_emit.
Qed.
Lemma under_way_outcome e t waiting owed : outcome_of e = Some t →
  triple (P waiting (t :: owed) turn) (log e) (λ _, P waiting owed turn) memory_kept.
Proof.
  intros He. pose proof (under_way_log e waiting owed (outcome_not_remembered _ _ He)) as H.
  by rewrite He in H.
Qed.

Lemma under_way_start t waiting w :
  P (t :: waiting) [] turn w → P waiting [] turn (w <| w_inflight ::= λ l, l ++ [t] |>).
Proof.
  intros (Ht & Hm & Hf & Ho & done & Hd & Hp). split_and!; [done..| |done|].
  - simpl. by rewrite <- app_assoc.
  - exists done. simpl. by rewrite <- app_assoc.
Qed.
Lemma under_way_gets {A} (f : Worker → A) waiting :
  triple (P waiting [] turn) (gets f) (λ _, P waiting [] turn) memory_kept.
Proof. by apply triple_gets. Qed.
Lemma spawn_rule tasks :
  triple (P tasks [] turn) (spawn env config tasks)
    (λ r w, if r.2 then ∃ t, P (t :: r.1) [] turn w else P r.1 [] turn w) memory_kept.
Proof.
  induction tasks as [|t tasks IH]; cbn [spawn];
    (eapply triple_bind; [apply under_way_gets|intros running]);
    (destruct (_ <=? _)%nat; [by apply triple_ret|]).
  - by apply triple_ret.
  - eapply triple_bind; [apply under_way_query|intros now]. case_match.
    { eapply triple_bind; [apply under_way_remember|intros []].
      eapply triple_bind; [apply under_way_skip|intros []]. exact IH. }
    case_match.
    { eapply triple_bind; [exact (under_way_log (PttBlocked t) _ _ ltac:(done))|intros []].
      eapply triple_bind; [apply under_way_emit|intros []]. apply triple_ret. simpl. eauto. }
    apply (triple_bind _ _ _ _ (λ _, P tasks [] turn)); [|intros []; exact IH].
    apply triple_modify. intros w. apply under_way_start.
Qed.
Lemma receive_rule waiting :
  triple (P waiting [] turn) (receive env)
    (λ r w, match r with None => P waiting [] turn w | Some t => P (t :: waiting) [] turn w end) memory_kept.
Proof.
  intros w Hw. unfold receive, query, gets, modify, ret, bind. simpl.
  destruct (_ !! _) as [i|] eqn:Ei; [|exact Hw]. simpl.
  apply list_elem_of_lookup_2, list_elem_of_In, filter_In in Ei as [Hi _].
  apply in_seq in Hi as [_ Hi]. destruct (lookup_lt_is_Some_2 (w_inflight w) i Hi) as [t Ht].
  rewrite Ht. destruct Hw as (Hturn & Hm & Hf & Ho & done & Hd & Hp).
  assert (delete i (w_inflight w) ++ t :: waiting ≡ₚ w_inflight w ++ waiting) as Hperm.
  { rewrite <- Permutation_middle. by rewrite (delete_Permutation _ _ _ Ht) at 2. }
  split_and!; [done..| |done|]; simpl.
  - by eapply fresh_perm; [symmetry|].
  - exists done. split; [done|]. by rewrite Hperm.
Qed.
Lemma settle_rule t result waiting :
  triple (P (t :: waiting) [] turn) (settle env config t result)
    (λ r w, P (if r then waiting else t :: waiting) [] turn w) memory_kept.
Proof.
  assert (∀ e, outcome_of e = Some t →
    triple (P (t :: waiting) [] turn) (remember_task env t;;; log e;;; emit env;;; ret true)
      (λ r w, P (if r then waiting else t :: waiting) [] turn w) memory_kept) as Hdone.
  { intros e He. eapply triple_bind; [apply under_way_remember|intros []].
    eapply triple_bind; [by apply under_way_outcome|intros []].
    eapply triple_bind; [apply under_way_emit|intros []]. by apply triple_ret. }
  unfold settle. destruct result as [out|[error|msg]]; [|by apply Hdone|by apply triple_ret].
  eapply triple_bind; [apply under_way_query|intros now]. case_match.
  { eapply triple_bind; [apply under_way_remember|intros []].
    eapply triple_bind; [apply under_way_skip|intros []]. by apply triple_ret. }
  eapply (triple_bind _ _ _ _ (λ _, P (t :: waiting) [] turn)).
  { unfold play_pcm. eapply triple_bind; [apply under_way_query|intros [shown|e]]; [|by apply triple_ret].
    eapply triple_bind; [apply under_way_query|intros route]. by apply triple_ret. }
  intros [[playback|[error|msg]]|]; [by apply Hdone..| |by apply triple_ret].
  intros w Hw. by eapply under_way_kept.
Qed.

(** How a pass ends: every task done, or some of them lost for the turn. *)
Definition pass_ended (ended : pass_end) (w : Worker) : Prop :=
  w_turn w = turn ∧ memory_kept w ∧ (ended ≠ Stuck → w_inflight w = [])
  ∧ remembered (w_log w) ≡ₚ outcomes (w_log w)
  ∧ ∃ done lost, remembered (w_log w) = before ++ done ∧ done ++ lost ≡ₚ all
    ∧ (ended = Finished → lost = []).
Lemma under_way_ended waiting w : P waiting [] turn w → pass_ended Stuck w.
Proof.
  intros (Ht & Hm & _ & Ho & done & Hd & Hp). rewrite app_nil_r in Ho. split_and!; [done..|].
  by exists done, (w_inflight w ++ waiting).
Qed.
Lemma dispatch_loop_rule fuel : ∀ tasks,
  triple (P tasks [] turn) (dispatch_loop env config fuel tasks) pass_ended memory_kept.
Proof.
  induction fuel as [|fuel IH]; intros tasks; cbn [dispatch_loop].
  { apply triple_ret. intros w. apply under_way_ended. }
  eapply triple_bind.
  { apply (triple_gets _ _ _ (λ inflight w, P tasks [] turn w ∧ inflight = w_inflight w)). by intros w. }
  intros inflight. destruct (bool_decide (tasks = []) && bool_decide (inflight = [])) eqn:Eend.
  { bool_hyps. subst. apply triple_ret. intros w [(Ht & Hm & _ & Ho & done & Hd & Hp) Hw].
    rewrite <- Hw in Hp. rewrite app_nil_r in Ho. split_and!; [done..|]. exists done, []. by rewrite <- Hp. }
  apply (triple_weaken _ _ (P tasks [] turn) _ pass_ended pass_ended); [|tauto|done].
  eapply triple_bind; [apply spawn_rule|intros [rest blocked]]. simpl. destruct blocked.
  { apply (triple_bind _ _ _ _ (λ _, pass_ended Blocked)); [|intros []; by apply triple_ret].
    apply triple_modify. intros w (t & Ht & Hm & _ & Ho & done & Hd & Hp).
    rewrite app_nil_r in Ho. split_and!; [done..|].
    by exists done, (w_inflight w ++ t :: rest). }
  eapply triple_bind; [apply receive_rule|intros [t|]].
  2: { apply triple_ret. intros w. apply under_way_ended. }
  eapply triple_bind; [apply under_way_gets|intros k].
  eapply triple_bind; [apply settle_rule|intros []]; [apply IH|].
  apply triple_ret. intros w. apply under_way_ended.
Qed.
End Pass.
