(* ===== verification/SpeechQueueTheorems.v ===== *)
(** * What the speech queue proves

    Every offered task is final, new and given one outcome; a key is not
    remembered again before 128 others; admission keeps ages and the newest
    tasks; a pass ends except in the one situation in which the worker waits for
    ever. *)
From S2P Require Import Prelude RustStr FifoMemory SubtitleCues SpeechRoute SpeechRouteTheorems SpeechQueue.
From S2P Require Import SpeechQueueFacts.

(** ** Admission *)
Section Admission.
Context (finish : list Z → Z) (now : Z).
Local Abbreviation key := (dispatch_key finish).
Definition aged (ages : gmap string Z) (t : SpeechDispatchTask) : SpeechDispatchTask :=
  t <| tk_queued_at := default now (ages !! key t) |>.

Lemma stamp_ages_spec tasks : ∀ ages,
  (stamp_ages finish now ages tasks).2 = aged ages <$> tasks
  ∧ ∀ k, default now ((stamp_ages finish now ages tasks).1 !! k) = default now (ages !! k).
Proof.
  induction tasks as [|t tasks IH]; intros ages; [done|]. cbn [stamp_ages].
  set (ages' := <[key t := default now (ages !! key t)]> ages).
  assert (∀ k, default now (ages' !! k) = default now (ages !! k)) as Ha.
  { intros k. unfold ages'. destruct (decide (k = key t)) as [->|]; [by rewrite lookup_insert_eq|].
    by rewrite lookup_insert_ne. }
  destruct (IH ages') as [IH1 IH2]. destruct (stamp_ages finish now ages' tasks) as [a l]. simpl in *.
  split; [|intros k; by rewrite IH2].
  rewrite IH1. f_equal. apply list_fmap_ext. intros i t' _. unfold aged. by rewrite Ha.
Qed.
Lemma aged_key ages t : key (aged ages t) = key t.
Proof. done. Qed.
Lemma kept_age q tasks t : t ∈ tasks →
  (filter (λ kv : string * Z, kv.1 ∈ (list_to_set (key <$> tasks) : gset string)) (q_queued_at q)) !! key t
  = q_queued_at q !! key t.
Proof.
  intros Ht. destruct (q_queued_at q !! key t) as [a|] eqn:E.
  - apply map_lookup_filter_Some. split; [done|]. simpl. apply elem_of_list_to_set.
    by apply list_elem_of_fmap_2.
  - apply map_lookup_filter_None. by left.
Qed.
(** The admitted and the overflowing tasks, and what overflow does to the queue. *)
Lemma admit_spec tasks q :
  let n := (length tasks - MAX_TTS_QUEUE_DEPTH)%nat in
  let stamped := aged (q_queued_at q) <$> tasks in
  (admit_tasks finish now tasks q).1 = (drop n stamped, take n stamped)
  ∧ ∃ ages, (admit_tasks finish now tasks q).2 =
      foldl (λ q t, remember finish t (key t) q) (q <| q_queued_at := ages |>) (take n stamped).
Proof.
  cbv zeta. unfold admit_tasks. set (kept := filter _ _).
  pose proof (stamp_ages_spec tasks kept) as [Hs _].
  destruct (stamp_ages finish now kept tasks) as [ages l]. simpl in Hs. subst l.
  assert (aged kept <$> tasks = aged (q_queued_at q) <$> tasks) as ->.
  { apply list_fmap_ext. intros i t Ht. unfold aged, kept. rewrite kept_age; [done|].
    by eapply list_elem_of_lookup_2. }
  rewrite length_fmap. split; [done|]. by exists ages.
Qed.
End Admission.

Lemma remember_order finish t k q :
  q_processed_order (remember finish t k q) = last_n MAX_PROCESSED_CUES (q_processed_order q ++ [k]).
Proof.
  unfold remember, remember_processed. rewrite evict_is_evict_to, evict_to_spec. by repeat case_match.
Qed.
Lemma last_n_app {A} n (l k : list A) : last_n n (last_n n l ++ k) = last_n n (l ++ k).
Proof.
  unfold last_n. rewrite !length_app, length_drop, <- drop_app_le by lia.
  rewrite drop_drop. f_equal. lia.
Qed.
Lemma remember_all_order finish l : ∀ q,
  last_n MAX_PROCESSED_CUES
    (q_processed_order (foldl (λ q t, remember finish t (dispatch_key finish t) q) q l))
  = last_n MAX_PROCESSED_CUES (q_processed_order q ++ (dispatch_key finish <$> l)).
Proof.
  induction l as [|t l IH]; intros q; simpl; [by rewrite app_nil_r|].
  by rewrite IH, remember_order, last_n_app, <- app_assoc.
Qed.

(** Admission hands out the newest 32 of the offered tasks, in order, and
    returns the older ones as overflow, which it remembers; each task carries the
    instant its key was first admitted, if the queue still knows it, else now. *)
Theorem admission_keeps_the_newest finish now tasks q :
  let '((pending, overflow), q') := admit_tasks finish now tasks q in
  overflow ++ pending = aged finish now (q_queued_at q) <$> tasks
  ∧ length pending = Nat.min MAX_TTS_QUEUE_DEPTH (length tasks)
  ∧ last_n MAX_PROCESSED_CUES (q_processed_order q')
    = last_n MAX_PROCESSED_CUES (q_processed_order q ++ (dispatch_key finish <$> overflow)).
Proof.
  destruct (admit_spec finish now tasks q) as [H [ages Hq]].
  destruct (admit_tasks finish now tasks q) as [[pending overflow] q']. simpl in H, Hq.
  injection H as -> ->. split_and!; [apply take_drop|rewrite length_drop, length_fmap; lia|].
  subst q'. by rewrite remember_all_order.
Qed.

(** ** What is offered *)
Section Offered.
Context (env : DispatchEnv) (config : SpeechConfig) (now : Z).
Local Abbreviation key := (dispatch_key (de_finish env)).

Lemma discovered_elem q cues t :
  t ∈ discovered env config now q cues →
  sc_enabled config = true ∧ (∃ cue, cue ∈ cues
    ∧ t ∈ speech_dispatch_tasks_for_cue now config (q_committed_played q) cue)
  ∧ queue_contains (de_finish env) q t = false.
Proof.
  unfold discovered. destruct (sc_enabled config); [|by intros ?%elem_of_nil].
  rewrite list_elem_of_In, filter_In, negb_true_iff, <- list_elem_of_In.
  intros [(cue & Hc & Ht)%list_elem_of_bind Hq]. split_and!; [done| |done].
  exists cue. by rewrite elem_of_reverse in Ht.
Qed.
Lemma discovered_fresh q cues h : memory_ok q h → overlay_ok cues →
  fresh env (discovered env config now q cues) h.
Proof.
  intros [[Ho Hp] _] Hok. split.
  - unfold discovered. destruct (sc_enabled config); [|constructor].
    eapply sublist_NoDup; [by apply (cue_tasks_NoDup (de_finish env) now config (q_committed_played q) cues)|].
    apply fmap_sublist. clear. induction (_ ≫= _) as [|t l IH]; simpl; [done|].
    destruct (negb _); by constructor.
  - intros t (_ & _ & Hc)%discovered_elem. unfold queue_contains, is_processed_task in Hc.
    bool_hyps. rewrite Hp, elem_of_list_to_set, Ho in *. done.
Qed.
(** The text of a task comes from a final translation. *)
Lemma task_final played cue t :
  t ∈ speech_dispatch_tasks_for_cue now config played cue →
  cue_translation_committed cue = true ∧ cue_translation_state cue = Some Final
  ∧ (cue_committed cue = true → cue_id cue ∉ played).
Proof.
  unfold speech_dispatch_tasks_for_cue.
  destruct (cue_committed cue && bool_decide (cue_id cue ∈ played)) eqn:E1; [by intros ?%elem_of_nil|].
  destruct (negb (cue_translation_committed cue) || negb (bool_decide (cue_translation_state cue = Some Final)))
    eqn:E2; [by intros ?%elem_of_nil|]. intros _. bool_hyps. split_and!; [done..|].
  intros Hc. rewrite Hc in E1. simpl in E1. by apply bool_decide_eq_false in E1.
Qed.
End Offered.

(** ** The committed cues it remembers *)
(** What enters a memory of [n] keys: a key it does not hold. *)
Definition enter (n : nat) (history : list string) (key : string) : list string :=
  if bool_decide (key ∈ last_n n history) then history else history ++ [key].
Definition entered (n : nat) (keys : list string) : list string := foldl (enter n) [] keys.
Definition since_reconnect (log : list dispatch_event) : list dispatch_event :=
  foldl (λ l e, match e with Reconnected => [] | _ => l ++ [e] end) [] log.
Definition committed_ids (tasks : list SpeechDispatchTask) : list string :=
  omap (λ t, if cue_committed (tk_cue t) then Some (cue_id (tk_cue t)) else None) tasks.
(** The committed cues of the tasks that got their outcome since the last
    reconnect, in the order they entered the memory. *)
Definition committed_done (w : Worker) : list string :=
  entered MAX_PROCESSED_CUES (committed_ids (remembered (since_reconnect (w_log w)))).

Section Spoken.
Context (env : DispatchEnv) (config : SpeechConfig).
Definition played_ok (q : SpeechDispatchQueue) (history : list string) : Prop :=
  holds_last (q_committed_played q) (q_committed_played_order q) history
  ∧ spaced MAX_PROCESSED_CUES history.
Definition spoken_ok (w : Worker) : Prop := played_ok (w_queue w) (committed_done w).

Lemma since_snoc l e : e ≠ Reconnected → since_reconnect (l ++ [e]) = since_reconnect l ++ [e].
Proof. intros He. unfold since_reconnect. rewrite foldl_app. by destruct e. Qed.
Lemma done_snoc l e : e ≠ Reconnected →
  entered MAX_PROCESSED_CUES (committed_ids (remembered (since_reconnect (l ++ [e]))))
  = foldl (enter MAX_PROCESSED_CUES)
      (entered MAX_PROCESSED_CUES (committed_ids (remembered (since_reconnect l))))
      (committed_ids (match e with Remembered t => [t] | _ => [] end)).
Proof.
  intros He. rewrite since_snoc, remembered_snoc by done. unfold committed_ids, entered.
  by rewrite omap_app, foldl_app.
Qed.
Lemma played_remember t q history : played_ok q history →
  played_ok (remember (de_finish env) t (dispatch_key (de_finish env) t) q)
    (foldl (enter MAX_PROCESSED_CUES) history (committed_ids [t])).
Proof.
  intros [Hh Hs]. unfold remember. destruct (remember_processed _ _ _) as [processed order].
  destruct (remember_segment_slot_processed _ _ _ _) as [slots slot_order].
  unfold committed_ids. cbn [omap list_omap]. destruct (cue_committed (tk_cue t)); [|done].
  cbn [foldl]. unfold enter, remember_committed_cue_played. pose proof Hh as [Ho Hk].
  assert (∀ x, x ∈ q_committed_played q ↔ x ∈ last_n MAX_PROCESSED_CUES history) as Hin.
  { intros x. by rewrite Hk, Ho, elem_of_list_to_set. }
  rewrite (bool_decide_ext _ _ (Hin _)). case_bool_decide as Hnew; [done|].
  pose proof (spaced_snoc _ _ _ Hs Hnew) as Hs'. pose proof (evict_holds _ _ _ _ Hh Hs') as He.
  by destruct (evict _ _) as [played played_order].
Qed.
Lemma spoken_log e : match e with Remembered _ | Reconnected => False | _ => True end →
  evolves (preserved spoken_ok) (log e).
Proof.
  intros He. apply evolves_modify. intros w Hw. unfold spoken_ok, committed_done. simpl.
  rewrite done_snoc by (by intros ->). by destruct e.
Qed.
Lemma spoken_query {A} (f : nat → A) : evolves (preserved spoken_ok) (query f).
Proof. intros w Hw. exact Hw. Qed.
Lemma spoken_emit : evolves (preserved spoken_ok) (emit env).
Proof. unfold emit. apply evolves_bind; [typeclasses eauto|apply spoken_query|]. intros a. evolve. Qed.
Lemma spoken_remember t : evolves (preserved spoken_ok) (remember_task env t).
Proof.
  intros w Hw. unfold spoken_ok, committed_done in *. simpl. rewrite done_snoc by done.
  by apply played_remember.
Qed.
Lemma spoken_inflight f : evolves (preserved spoken_ok) (modify (λ w, w <| w_inflight ::= f |>)).
Proof. intros w Hw. exact Hw. Qed.
#[local] Hint Resolve spoken_query spoken_emit spoken_remember : evolve.
#[local] Hint Extern 1 (evolves _ (log _)) => by apply spoken_log : evolve.
#[local] Hint Extern 1 (evolves _ (modify (λ w, w <| w_inflight ::= _ |>))) => apply spoken_inflight : evolve.

Lemma spoken_spawn tasks : evolves (preserved spoken_ok) (spawn env config tasks).
Proof. induction tasks as [|t tasks IH]; cbn [spawn]; unfold record_speech_skip; evolve. Qed.
Lemma spoken_settle t result : evolves (preserved spoken_ok) (settle env config t result).
Proof. unfold settle, play_pcm, record_speech_skip. evolve. Qed.
Lemma spoken_receive : evolves (preserved spoken_ok) (receive env).
Proof. unfold receive. evolve. Qed.
#[local] Hint Resolve spoken_spawn spoken_settle spoken_receive : evolve.
Lemma spoken_loop fuel : ∀ tasks, evolves (preserved spoken_ok) (dispatch_loop env config fuel tasks).
Proof. induction fuel as [|fuel IH]; intros tasks; cbn [dispatch_loop]; evolve. Qed.
Lemma spoken_overflow overflow : evolves (preserved spoken_ok) (skip_overflow env overflow).
Proof. induction overflow as [|t l IH]; cbn [skip_overflow]; unfold record_speech_skip; evolve. Qed.

Lemma spoken_all l : ∀ w, spoken_ok w →
  played_ok (foldl (λ q t, remember (de_finish env) t (dispatch_key (de_finish env) t) q) (w_queue w) l)
    (committed_done (w <| w_log ::= λ log, log ++ (Remembered <$> l) |>)).
Proof.
  induction l as [|t l IH]; intros w Hw; simpl.
  - unfold spoken_ok, committed_done in *. simpl. by rewrite app_nil_r.
  - specialize (IH (remember_task env t w).2 (spoken_remember t w Hw)). simpl in IH.
    unfold committed_done in *. simpl in *. by rewrite <- app_assoc in IH.
Qed.
Lemma spoken_discover cues : evolves (preserved spoken_ok) (discover_pending_speech_tasks env config cues).
Proof.
  unfold discover_pending_speech_tasks. apply evolves_bind; [typeclasses eauto|apply spoken_query|].
  intros now w Hw. unfold bind at 1. cbn [gets].
  pose proof (admit_spec (de_finish env) now (discovered env config now (w_queue w) cues) (w_queue w)) as [Ha [ages Hq]].
  destruct (admit_tasks _ _ _ _) as [[pending overflow] q']. simpl in Ha, Hq. injection Ha as _ Ho.
  assert (Hm : preserved spoken_ok w (w <| w_queue := q' |> <| w_log ::= λ l, l ++ (Remembered <$> overflow) |>)).
  { intros _. unfold spoken_ok. simpl. rewrite Hq, <-Ho.
    set (w1 := mk_worker ((w_queue w) <| q_queued_at := ages |>) (w_reconnect_gen w) (w_turn w) (w_tick w)
                 (w_inflight w) (w_log w)).
    exact (spoken_all overflow w1 Hw). }
  unfold bind. cbn [modify]. pose proof (spoken_overflow overflow
    (w <| w_queue := q' |> <| w_log ::= λ l, l ++ (Remembered <$> overflow) |>)) as Hs.
  destruct (skip_overflow env overflow _) as [[[]|e] w']; simpl in *; auto.
Qed.
Lemma spoken_reconnect gen w : spoken_ok w → spoken_ok (check_reconnect gen w).
Proof.
  intros Hw. unfold check_reconnect. destruct (negb _); [|done]. unfold spoken_ok, committed_done, since_reconnect.
  simpl. rewrite foldl_app. simpl. split; [by split|apply spaced_nil].
Qed.
Lemma spoken_turn gen cues : evolves (preserved spoken_ok) (worker_turn env config gen cues).
Proof.
  unfold worker_turn. apply evolves_bind; [typeclasses eauto| |intros []].
  { apply evolves_modify. intros w. exact (spoken_reconnect gen w). }
  apply evolves_bind; [typeclasses eauto|apply spoken_discover|]. intros pending. unfold dispatch_pass.
  apply evolves_bind; [typeclasses eauto|apply spoken_emit|]. intros [].
  apply evolves_bind; [typeclasses eauto|evolve; apply spoken_loop|]. intros ended.
  apply evolves_bind; [typeclasses eauto|by intros w Hw|]. intros []. evolve.
Qed.
End Spoken.

(** ** One turn of the worker *)
Section Turn.
Context (env : DispatchEnv).
Local Abbreviation key := (dispatch_key (de_finish env)).

(** Between two turns: nothing runs, every remembered task has its outcome. *)
Definition idle (w : Worker) : Prop :=
  memory_kept env w ∧ w_inflight w = [] ∧ remembered (w_log w) ≡ₚ outcomes (w_log w).

Lemma fresh_app ts1 : ∀ ts2 h, fresh env (ts1 ++ ts2) h → fresh env ts2 (h ++ (key <$> ts1)).
Proof.
  induction ts1 as [|t ts1 IH]; intros ts2 h H; [by rewrite app_nil_r|].
  simpl in *. apply fresh_next, IH in H. by rewrite <- app_assoc in H.
Qed.
Lemma remember_all_memory l : ∀ q h, memory_ok q h → fresh env l h →
  memory_ok (foldl (λ q t, remember (de_finish env) t (key t) q) q l) (h ++ (key <$> l)).
Proof.
  induction l as [|t l IH]; intros q h Hm Hf; [by rewrite app_nil_r|]. simpl.
  rewrite cons_middle, app_assoc. apply IH; [|by apply fresh_next].
  apply remember_memory; [done|]. apply Hf. left.
Qed.
Lemma fresh_aged now ages l h : fresh env l h → fresh env (aged (de_finish env) now ages <$> l) h.
Proof.
  intros [Hn Hf]. split; [by rewrite <- list_fmap_compose|].
  intros t (t' & -> & Ht)%list_elem_of_fmap. rewrite aged_key. by apply Hf.
Qed.
Lemma remembered_all l : remembered (Remembered <$> l) = l ∧ outcomes (Remembered <$> l) = [].
Proof. induction l as [|t l [IH1 IH2]]; [done|]. split; [by apply (f_equal (cons t))|exact IH2]. Qed.
Lemma skip_overflow_rule all before turn waiting overflow :
  triple (under_way env all before waiting overflow turn) (skip_overflow env overflow)
    (λ _, under_way env all before waiting [] turn) (memory_kept env).
Proof.
  induction overflow as [|t overflow IH]; cbn [skip_overflow]; [by apply triple_ret|].
  eapply triple_bind; [apply under_way_skip|intros []]. exact IH.
Qed.

#[local] Instance same_inflight_preorder : PreOrder (λ w w' : Worker, w_inflight w' = w_inflight w).
Proof. split; [done|]. intros w1 w2 w3. congruence. Qed.
Lemma skip_overflow_inflight overflow :
  evolves (λ w w', w_inflight w' = w_inflight w) (skip_overflow env overflow).
Proof.
  induction overflow as [|t overflow IH]; cbn [skip_overflow]; [apply evolves_ret, _|].
  unfold record_speech_skip, log, emit, query. evolve; by apply evolves_modify.
Qed.

Lemma discover_rule config cues w : idle w → overlay_ok cues →
  match discover_pending_speech_tasks env config cues w with
  | (Ok pending, w') => ∃ now overflow,
      under_way env pending (remembered (w_log w) ++ overflow) pending [] (w_turn w) w'
      ∧ w_inflight w' = []
      ∧ key <$> (overflow ++ pending) = key <$> discovered env config now (w_queue w) cues
  | (Err _, w') => memory_kept env w'
  end.
Proof.
  intros (Hm & Hi & Ho) Hok. unfold discover_pending_speech_tasks, query, gets, modify, ret.
  set (now := de_now env (w_tick w)). set (offered := discovered env config now (w_queue w) cues).
  pose proof (discovered_fresh env config now _ cues _ Hm Hok) as Hf. fold offered in Hf.
  pose proof (admit_spec (de_finish env) now offered (w_queue w)) as [Ha [ages Hq]].
  unfold bind. simpl. fold now. fold offered.
  destruct (admit_tasks (de_finish env) now offered (w_queue w)) as [[pending overflow] q'].
  simpl in Ha, Hq. injection Ha as Hpend Hover.
  assert (overflow ++ pending = aged (de_finish env) now (q_queued_at (w_queue w)) <$> offered) as Hall.
  { subst. apply take_drop. }
  apply (fresh_aged now (q_queued_at (w_queue w))) in Hf. rewrite <- Hall in Hf.
  assert (fresh env overflow (keys env w)) as Hfo.
  { eapply fresh_sub; [|exact Hf]. by apply sublist_inserts_r. }
  assert (memory_ok ((w_queue w) <| q_queued_at := ages |>) (keys env w)) as Hm0 by exact Hm.
  assert (memory_ok q' (keys env w ++ (key <$> overflow))) as Hm'.
  { rewrite Hq, <- Hover. exact (remember_all_memory overflow _ _ Hm0 Hfo). }
  destruct (remembered_all overflow) as [Hr Hr2].
  set (w1 := mk_worker q' (w_reconnect_gen w) (w_turn w) (S (w_tick w)) (w_inflight w)
    (w_log w ++ (Remembered <$> overflow))).
  assert (under_way env pending (remembered (w_log w) ++ overflow) pending overflow (w_turn w) w1) as Hw1.
  { assert (remembered (w_log w1) = remembered (w_log w) ++ overflow) as Hlog.
    { unfold w1, remembered. simpl. rewrite omap_app. f_equal. exact Hr. }
    split_and!; [done| | | |].
    - unfold keys. rewrite Hlog, fmap_app. exact Hm'.
    - unfold keys. rewrite Hlog, fmap_app. simpl. rewrite Hi. by apply fresh_app.
    - rewrite Hlog, Ho. unfold w1, outcomes. simpl. rewrite omap_app.
      fold (outcomes (Remembered <$> overflow)). by rewrite Hr2, app_nil_r.
    - exists []. rewrite Hlog, app_nil_r. split; [done|]. simpl. by rewrite Hi. }
  pose proof (skip_overflow_rule _ _ _ _ _ w1 Hw1) as Hskip.
  pose proof (skip_overflow_inflight overflow w1) as Hinf.
  simpl. fold w1. destruct (skip_overflow env overflow w1) as [[[]|e] w2]; [|exact Hskip].
  exists now, overflow. split_and!; [exact Hskip|simpl in Hinf; congruence|].
  by rewrite Hall, <- list_fmap_compose.
Qed.

(** What a turn does to the history, given the keys it offered. *)
Definition turn_done (history : list SpeechDispatchTask) (offered : list string) (ended : pass_end)
    (w : Worker) : Prop :=
  memory_kept env w ∧ (ended ≠ Stuck → w_inflight w = [])
  ∧ remembered (w_log w) ≡ₚ outcomes (w_log w)
  ∧ ∃ done lost, remembered (w_log w) = history ++ done
    ∧ key <$> (done ++ lost) ≡ₚ offered ∧ (ended = Finished → lost = []).

Lemma pass_ended_done all before turn history overflow ended w :
  pass_ended env all before turn ended w → before = history ++ overflow →
  turn_done history (key <$> (overflow ++ all)) ended (w <| w_turn ::= S |>).
Proof.
  intros (_ & Hm & Hi & Ho & done & lost & Hd & Hp & Hl) ->. split_and!; [done..|].
  exists (overflow ++ done), lost. simpl. rewrite Hd. split_and!; [by rewrite app_assoc| |done].
  by rewrite <- Hp, <- app_assoc.
Qed.
Lemma rest_of_turn config pending before turn history overflow :
  before = history ++ overflow → (sc_enabled config = false → pending = []) →
  triple (under_way env pending before pending [] turn)
    (emit env ;;;
     let* ended := if negb (sc_enabled config) || bool_decide (pending = []) then ret Finished
                   else dispatch_pass env config pending in
     modify (λ w, w <| w_turn ::= S |>) ;;; ret ended)
    (turn_done history (key <$> (overflow ++ pending))) (memory_kept env).
Proof.
  intros Hb Hoff. eapply triple_bind; [apply under_way_emit|intros []].
  apply (triple_bind _ _ _ _ (pass_ended env pending before turn)).
  - destruct (negb (sc_enabled config) || bool_decide (pending = [])) eqn:E; [|apply dispatch_loop_rule].
    assert (pending = []) as -> by (apply orb_true_iff in E as [E|E]; bool_hyps; auto).
    apply triple_ret. intros w (Ht & Hm & _ & Ho & done & Hd & Hp). rewrite app_nil_r in Ho.
    apply Permutation_nil_r in Hp. apply app_eq_nil in Hp as [-> Hi].
    rewrite app_nil_r in Hi. split_and!; [done..|]. by exists [], [].
  - intros ended.
    apply (triple_bind _ _ _ _ (λ _, turn_done history (key <$> (overflow ++ pending)) ended));
      [|intros []; by apply triple_ret].
    apply triple_modify. intros w Hw. by eapply pass_ended_done.
Qed.
Lemma turn_rule config gen cues w : idle w → overlay_ok cues →
  match worker_turn env config gen cues w with
  | (Ok ended, w') => ∃ now q, (q = w_queue w
        ∨ q = (w_queue w) <| q_committed_played := ∅ |> <| q_committed_played_order := [] |>)
      ∧ turn_done (remembered (w_log w)) (key <$> discovered env config now q cues) ended w'
  | (Err _, w') => memory_kept env w'
  end.
Proof.
  intros Hidle Hok. unfold worker_turn. unfold bind at 1. cbn [modify].
  set (w1 := check_reconnect gen w).
  assert (remembered (w_log w1) = remembered (w_log w) ∧ outcomes (w_log w1) = outcomes (w_log w)
    ∧ w_inflight w1 = w_inflight w ∧ (w_queue w1 = w_queue w
      ∨ w_queue w1 = (w_queue w) <| q_committed_played := ∅ |> <| q_committed_played_order := [] |>))
    as (Hlog & Hlog2 & Hi1 & Hq).
  { unfold w1, check_reconnect. destruct (negb _); [|by auto]. simpl.
    rewrite remembered_snoc, outcomes_snoc. simpl. rewrite !app_nil_r. auto. }
  assert (Hidle1 : idle w1).
  { destruct Hidle as (Hm & Hi & Ho). split_and!; [|congruence|by rewrite Hlog, Hlog2].
    unfold memory_kept, keys in *. rewrite Hlog. by destruct Hq as [-> | ->]. }
  pose proof (discover_rule config cues w1 Hidle1 Hok) as Hd. unfold bind at 1.
  destruct (discover_pending_speech_tasks env config cues w1) as [[pending|e] w2]; [|exact Hd].
  destruct Hd as (now & overflow & Hu & _ & Hk).
  assert (sc_enabled config = false → pending = []) as Hoff.
  { intros Hc. revert Hk. unfold discovered. rewrite Hc, fmap_app. intros Hk.
    apply app_eq_nil in Hk as [_ Hk]. by destruct pending. }
  pose proof (rest_of_turn config pending _ _ _ _ eq_refl Hoff w2 Hu) as Hr.
  destruct (bind (emit env) _ w2) as [[ended|e] w3]; [|exact Hr].
  exists now, (w_queue w1). split; [done|]. by rewrite <- Hlog, <- Hk.
Qed.

(** The states between turns of one worker; configuration, cues and the
    reconnect generation may differ from turn to turn. *)
Inductive worker_reachable : Worker → Prop :=
| worker_starts gen : worker_reachable (new_worker gen)
| worker_turns w config gen cues ended w' :
    worker_reachable w → overlay_ok cues →
    worker_turn env config gen cues w = (Ok ended, w') → ended ≠ Stuck → worker_reachable w'.
Lemma reachable_idle w : worker_reachable w → idle w.
Proof.
  induction 1 as [gen|w config gen cues ended w' _ IH Hok Ht Hs].
  - split; [|done]. split; [done|apply spaced_nil].
  - pose proof (turn_rule config gen cues w IH Hok) as H. rewrite Ht in H.
    destruct H as (_ & _ & _ & Hm & Hi & Ho & _). split_and!; [done|by apply Hi|done].
Qed.
End Turn.

Lemma reachable_spoken env w : worker_reachable env w → spoken_ok w.
Proof.
  induction 1 as [gen|w config gen cues ended w' _ IH _ Ht _].
  - split; [done|apply spaced_nil].
  - pose proof (spoken_turn env config gen cues w IH) as H. by rewrite Ht in H.
Qed.

(** Within the history of a worker, whatever happens in its turns, a dispatch
    key is remembered again only after 128 other tasks were; the queue's memory
    is exactly the last 128 keys of that history. *)
Theorem keys_are_not_repeated env config gen cues w :
  worker_reachable env w → overlay_ok cues →
  let '(_, w') := worker_turn env config gen cues w in
  spaced MAX_PROCESSED_CUES (keys env w')
  ∧ q_processed_order (w_queue w') = last_n MAX_PROCESSED_CUES (keys env w')
  ∧ ∀ k, k ∈ q_processed (w_queue w') ↔ k ∈ last_n MAX_PROCESSED_CUES (keys env w').
Proof.
  intros Hr Hok. pose proof (turn_rule env config gen cues w (reachable_idle _ _ Hr) Hok) as H.
  assert (∀ w', memory_kept env w' → spaced MAX_PROCESSED_CUES (keys env w')
    ∧ q_processed_order (w_queue w') = last_n MAX_PROCESSED_CUES (keys env w')
    ∧ ∀ k, k ∈ q_processed (w_queue w') ↔ k ∈ last_n MAX_PROCESSED_CUES (keys env w')) as Hkept.
  { intros w' [[Ho Hp] Hs]. split_and!; [done..|]. intros k. by rewrite Hp, Ho, elem_of_list_to_set. }
  destruct (worker_turn env config gen cues w) as [[ended|e] w'].
  - destruct H as (_ & _ & _ & Hm & _). by apply Hkept.
  - by apply Hkept.
Qed.

(** C18: A turn that finishes gives each offered task exactly one outcome (spoken,
    skipped with a notice, or failed); a turn stopped by a closed push-to-talk
    gives one to each of those it does not put off. *)
Theorem finished_turn_settles_every_task env config gen cues w :
  worker_reachable env w → overlay_ok cues →
  match worker_turn env config gen cues w with
  | (Ok ended, w') =>
      ∃ now q settled put_off,
        (q = w_queue w
         ∨ q = (w_queue w) <| q_committed_played := ∅ |> <| q_committed_played_order := [] |>)
        ∧ outcomes (w_log w') ≡ₚ outcomes (w_log w) ++ settled
        ∧ dispatch_key (de_finish env) <$> (settled ++ put_off)
          ≡ₚ (dispatch_key (de_finish env) <$> discovered env config now q cues)
        ∧ (ended = Finished → put_off = [])
  | (Err _, _) => True
  end.
Proof.
  intros Hr Hok. apply reachable_idle in Hr.
  pose proof (turn_rule env config gen cues w Hr Hok) as H.
  destruct (worker_turn env config gen cues w) as [[ended|e] w']; [|done].
  destruct H as (now & q & Hq & Hm & _ & Ho & done & lost & Hd & Hp & Hl).
  exists now, q, done, lost. split_and!; [done| |done..].
  destruct Hr as (_ & _ & Hw). by rewrite <- Ho, Hd, Hw.
Qed.

(** C19: Whatever a turn offers is a clause of a cue in the overlay whose translation
    is final and committed. It is new as far as the bounded memory goes: its key
    is not among the last 128 keys remembered, and if its cue is committed it is
    not among the last 128 committed cues that got an outcome (spoken, skipped or
    failed) since the provider session was last renewed. An older cue that is
    still in the overlay may be offered again. *)
Theorem offered_speech_is_final_and_new env config now gen cues w t :
  worker_reachable env w →
  t ∈ discovered env config now (w_queue (check_reconnect gen w)) cues →
  tk_cue t ∈ cues ∧ cue_translation_committed (tk_cue t) = true
  ∧ cue_translation_state (tk_cue t) = Some Final
  ∧ (dispatch_key (de_finish env) t ∉ last_n MAX_PROCESSED_CUES (keys env w))
  ∧ (cue_committed (tk_cue t) = true →
     cue_id (tk_cue t) ∉ last_n MAX_PROCESSED_CUES (committed_done (check_reconnect gen w))).
Proof.
  intros Hr (_ & (cue & Hc & Ht) & Hq)%discovered_elem.
  destruct (reachable_idle _ _ Hr) as ([[Ho Hp] _] & _).
  destruct (spoken_reconnect gen w (reachable_spoken env w Hr)) as [[Ho2 Hp2] _].
  pose proof (task_cue _ _ _ _ _ Ht) as <-. apply task_final in Ht as (H1 & H2 & H3).
  split_and!; [done..| |].
  - unfold queue_contains, is_processed_task in Hq. bool_hyps.
    rewrite <- Ho, <- (elem_of_list_to_set (C:=gset string)), <- Hp.
    by assert (q_processed (w_queue (check_reconnect gen w)) = q_processed (w_queue w)) as <-
      by (unfold check_reconnect; by case_match).
  - intros Hcom. rewrite <- Ho2, <- (elem_of_list_to_set (C:=gset string)), <- Hp2. auto.
Qed.

(** ** How a pass ends *)
Section Ends.
Context (env : DispatchEnv) (config : SpeechConfig).

(** Every task has been queued for five seconds when the pass looks at it; each one
    skipped costs a clock reading and an emitted snapshot. *)
Definition expired (now : Z) (t : SpeechDispatchTask) : bool :=
  TTS_START_DEADLINE <=? saturating_sub now (tk_queued_at t).
Fixpoint all_skipped (tick : nat) (tasks : list SpeechDispatchTask) : Prop :=
  match tasks with
  | [] => True
  | t :: tasks =>
      expired (de_now env tick) t = true ∧ de_emit env (S tick) = Ok tt ∧ all_skipped (S (S tick)) tasks
  end.

Lemma spawn_shape tasks : ∀ w,
  match spawn env config tasks w with
  | (Ok (rest, false), w') =>
      w_turn w' = w_turn w ∧ (rest = [] ∨ (2 ≤ length (w_inflight w'))%nat)
      ∧ (length (w_inflight w') + length rest ≤ length (w_inflight w) + length tasks)%nat
      ∧ (∀ t, t ∈ w_inflight w' ++ rest → t ∈ w_inflight w ++ tasks)
      ∧ (w_inflight w ≠ [] → w_inflight w' ≠ [])
      ∧ (w_inflight w = [] → w_inflight w' = [] ↔ all_skipped (w_tick w) tasks)
  | (Ok (_, true), _) | (Err _, _) => w_inflight w = [] → ¬ all_skipped (w_tick w) tasks
  end.
Proof.
  induction tasks as [|t tasks IH]; intros w; cbn [spawn]; unfold bind at 1; cbn [gets];
    destruct (Nat.leb_spec MAX_CONCURRENT_SYNTHESIS (length (w_inflight w))) as [H2|H2];
    unfold MAX_CONCURRENT_SYNTHESIS in H2; cbn [ret].
  - split_and!; [done|by left|lia|done|done|]. intros E. rewrite E in H2. simpl in H2. lia.
  - split_and!; [done|by left|lia|done|done|done].
  - split_and!; [done|by right|simpl; lia|done|done|]. intros E. rewrite E in H2. simpl in H2. lia.
  - unfold query, gets, modify, ret, remember_task, record_speech_skip, log, emit, bind. simpl.
    change (TTS_START_DEADLINE <=? saturating_sub (de_now env (w_tick w)) (tk_queued_at t))
      with (expired (de_now env (w_tick w)) t).
    destruct (expired (de_now env (w_tick w)) t) eqn:Ex; [|destruct (ptt_closed config t)]; simpl.
    + destruct (de_emit env (S (w_tick w))) as [[]|e] eqn:Em; simpl; [|naive_solver].
      match goal with |- context [spawn env config tasks ?w0] => specialize (IH w0) end.
      destruct (spawn env config tasks _) as [[[rest []]|e] w'] in IH |- *; simpl in IH.
      * intros E (_ & _ & H). by apply IH.
      * destruct IH as (Ht & Hr & Hl & Hs & Hn & Hi). split_and!; [done|done|lia| |done|].
        { intros x Hx. apply Hs in Hx. rewrite elem_of_app in *. destruct Hx; [by left|right; by right]. }
        { intros E. rewrite Hi by done. naive_solver. }
      * intros E (_ & _ & H). by apply IH.
    + unfold lift. destruct (de_emit env (S (w_tick w))) as [[]|e]; simpl; naive_solver.
    + match goal with |- context [spawn env config tasks ?w0] => specialize (IH w0) end.
      destruct (spawn env config tasks _) as [[[rest []]|e] w'] in IH |- *; simpl in IH; [naive_solver| |naive_solver].
      destruct IH as (Ht & Hr & Hl & Hs & Hn & _). rewrite length_app in Hl. simpl in Hl.
      assert (w_inflight w' ≠ []) as Hne by (apply Hn; by destruct (w_inflight w)).
      split_and!; [done|done|lia| |done|].
      { intros x Hx. apply Hs in Hx. by rewrite <- app_assoc in Hx. }
      { intros _. split; [done|naive_solver]. }
Qed.

Lemma filter_true {A} (p : A → bool) l : (∀ x, x ∈ l → p x = true) → List.filter p l = l.
Proof.
  induction l as [|x l IH]; intros H; simpl; [done|]. rewrite H by left. f_equal.
  apply IH. intros y Hy. apply H. by right.
Qed.
Lemma receive_nothing w : w_inflight w = [] → (receive env w).1 = Ok None.
Proof. intros E. unfold receive, query, gets, modify, ret, bind. simpl. by rewrite E. Qed.
Lemma receive_shape w : w_inflight w ≠ [] →
  (∀ t, t ∈ w_inflight w → delivers env (w_turn w) t = true) →
  ∃ t w', receive env w = (Ok (Some t), w') ∧ w_turn w' = w_turn w ∧ t ∈ w_inflight w
    ∧ S (length (w_inflight w')) = length (w_inflight w) ∧ sublist (w_inflight w') (w_inflight w).
Proof.
  intros Hne Hall. unfold receive, query, gets, modify, ret, bind. simpl.
  rewrite filter_true, length_seq.
  2: { intros i [_ Hi]%list_elem_of_In%in_seq.
       destruct (lookup_lt_is_Some_2 (w_inflight w) i Hi) as [t Ht]. rewrite Ht. simpl.
       apply Hall. by eapply list_elem_of_lookup_2. }
  assert (length (w_inflight w) ≠ 0%nat) as Hlen by (by destruct (w_inflight w)).
  set (i := (de_arrives env (w_tick w) mod length (w_inflight w))%nat).
  assert (i < length (w_inflight w))%nat as Hi by (by apply Nat.mod_upper_bound).
  rewrite lookup_seq_lt by done. simpl.
  destruct (lookup_lt_is_Some_2 (w_inflight w) i Hi) as [t Ht]. rewrite Ht.
  eexists t, _. split; [done|]. simpl. split_and!; [done|by eapply list_elem_of_lookup_2| |apply sublist_delete].
  rewrite length_delete by done. lia.
Qed.

(** Taking a result to its end neither starts nor stops threads, and returns when
    the routes' clocks advance. *)
Definition same_threads (w w' : Worker) : Prop :=
  w_inflight w' = w_inflight w ∧ w_turn w' = w_turn w.
#[local] Instance same_threads_preorder : PreOrder same_threads.
Proof. split; [done|]. intros w1 w2 w3 [??] [??]. split; congruence. Qed.
Lemma settle_threads t result : evolves same_threads (settle env config t result).
Proof.
  unfold settle, play_pcm, remember_task, record_speech_skip, log, emit, query.
  evolve; by apply evolves_modify.
Qed.
Lemma settle_returns t out : (∀ k, restart_clock (de_route env k)) →
  triple (λ _, True) (settle env config t (de_synthesis env out t))
    (λ b _, delivers env out t = true → b = true) (λ _, True).
Proof.
  intros Hclock.
  assert (∀ A B (m : M Worker A) (k : A → M Worker B) P Q,
    (∀ a, triple (λ _, True) (k a) Q (λ _, True)) → triple P (bind m k) Q (λ _, True)) as Hbind.
  { intros A B m k P Q Hk. apply (triple_bind _ _ _ _ (λ _ _, True)); [|done].
    intros w _. by destruct (m w) as [[]]. }
  unfold delivers, settle. destruct (de_synthesis env out t) as [o|[error|msg]].
  - apply Hbind. intros now. case_match; [do 2 (apply Hbind; intros []); by apply triple_ret|].
    eapply (triple_bind _ _ _ _ (λ played _, played ≠ None)).
    + unfold play_pcm. apply Hbind. intros [[]|e]; [|by apply triple_ret].
      unfold query, gets, modify, ret, bind. intros w _. simpl.
      destruct (play_returns (de_route env (w_tick w)) (sc_route config) (cue_id (tk_cue t))
        (sy_request_id o) (cue_route_direction (tk_cue t)) (sy_mix o) (sy_created_at_ms o)
        (Hclock _)) as [run ->]. done.
    + intros [[playback|[error|msg]]|].
      * do 3 (apply Hbind; intros []). by apply triple_ret.
      * do 3 (apply Hbind; intros []). by apply triple_ret.
      * by intros w.
      * intros w Hw. by destruct Hw.
  - do 3 (apply Hbind; intros []). by apply triple_ret.
  - by apply triple_ret.
Qed.

Lemma loop_ends fuel : ∀ tasks w,
  (∀ k, restart_clock (de_route env k)) →
  (∀ t, t ∈ w_inflight w ++ tasks → delivers env (w_turn w) t = true) →
  (length tasks + length (w_inflight w) < fuel)%nat → tasks = [] ∨ w_inflight w ≠ [] →
  (dispatch_loop env config fuel tasks w).1 ≠ Ok Stuck.
Proof.
  induction fuel as [|fuel IH]; intros tasks w Hclock Hall Hfuel Hbusy; [lia|].
  cbn [dispatch_loop]. unfold bind at 1. cbn [gets].
  destruct (bool_decide (tasks = []) && bool_decide (w_inflight w = [])) eqn:Eend; [done|].
  assert (w_inflight w ≠ []) as Hrun.
  { destruct Hbusy as [->|]; [|done]. intros E. by rewrite E in Eend. }
  pose proof (spawn_shape tasks w) as Hs. unfold bind at 1.
  destruct (spawn env config tasks w) as [[[rest []]|e] w1]; [done| |done].
  destruct Hs as (Ht & Hr & Hl & Hsub & Hn & _). cbn [snd fst]. unfold bind at 1.
  destruct (receive_shape w1 (Hn Hrun)) as (t & w2 & -> & Ht2 & Htin & Hlen & Hsub2).
  { intros x Hx. rewrite Ht. apply Hall, Hsub, elem_of_app. by left. }
  unfold bind at 1. cbn [gets]. unfold bind at 1.
  pose proof (settle_threads t (de_synthesis env (w_turn w2) t) w2) as [Hi3 Ht3].
  pose proof (settle_returns t (w_turn w2) Hclock w2 I) as Hret.
  destruct (settle env config t (de_synthesis env (w_turn w2) t) w2) as [[b|e] w3]; [|done].
  simpl in Hi3, Ht3. rewrite Hret; [|rewrite Ht2, Ht; apply Hall, Hsub, elem_of_app; by left].
  apply IH; [done| |rewrite Hi3; lia|].
  - intros x Hx. rewrite Ht3, Ht2, Ht. apply Hall, Hsub. rewrite Hi3 in Hx.
    rewrite elem_of_app in *. destruct Hx; [left; by eapply elem_of_sublist|by right].
  - destruct Hr as [->|Hr]; [by left|right]. rewrite Hi3. intros E. rewrite E in Hlen. simpl in Hlen. lia.
Qed.
End Ends.

(** C17: When synthesis threads do not panic and clocks advance, a pass over the
    admitted tasks ends, except that it waits for ever in exactly one case: it
    has tasks and every one of them is skipped for its age. Then nothing runs
    when the pass asks for the next result, on a channel it keeps open itself. *)
Theorem pass_waits_for_ever_exactly_when env config pending w :
  w_inflight w = [] → (∀ t, t ∈ pending → delivers env (w_turn w) t = true) →
  (∀ k, restart_clock (de_route env k)) →
  (dispatch_pass env config pending w).1 = Ok Stuck
  ↔ pending ≠ [] ∧ all_skipped env (w_tick w) pending.
Proof.
  intros Hi Hall Hclock. unfold dispatch_pass. cbn [dispatch_loop]. unfold bind at 1. cbn [gets].
  rewrite Hi, (bool_decide_true ([] = [])) by done. rewrite andb_true_r.
  case_bool_decide as Hp; [naive_solver|].
  pose proof (spawn_shape env config pending w) as Hs. unfold bind at 1.
  destruct (spawn env config pending w) as [[[rest []]|e] w1]; [naive_solver| |naive_solver].
  destruct Hs as (Ht & Hr & Hl & Hsub & _ & Hskip). specialize (Hskip Hi). rewrite Hi in Hl, Hsub.
  cbn [snd fst]. unfold bind at 1. destruct (decide (w_inflight w1 = [])) as [E|E].
  { pose proof (receive_nothing env w1 E) as Hrec. destruct (receive env w1) as [o w2].
    simpl in Hrec. subst o. naive_solver. }
  destruct (receive_shape env w1 E) as (t & w2 & -> & Ht2 & Htin & Hlen & Hsub2).
  { intros x Hx. rewrite Ht. apply Hall, Hsub, elem_of_app. by left. }
  unfold bind at 1. cbn [gets]. unfold bind at 1.
  pose proof (settle_threads env config t (de_synthesis env (w_turn w2) t) w2) as [Hi3 Ht3].
  pose proof (settle_returns env config t (w_turn w2) Hclock w2 I) as Hret.
  destruct (settle env config t (de_synthesis env (w_turn w2) t) w2) as [[b|e] w3]; [|naive_solver].
  simpl in Hi3, Ht3. rewrite Hret; [|rewrite Ht2, Ht; apply Hall, (Hsub t), elem_of_app; by left].
  pose proof (loop_ends env config (length pending) rest w3 Hclock) as Hend.
  split; [|naive_solver]. intros Hst. exfalso. revert Hst. apply Hend.
  - intros x Hx. rewrite Ht3, Ht2, Ht. apply Hall, (Hsub x). rewrite Hi3 in Hx.
    rewrite elem_of_app in *. destruct Hx; [left; by eapply elem_of_sublist|by right].
  - rewrite Hi3. simpl in Hl. lia.
  - destruct Hr as [->|Hr]; [by left|right]. rewrite Hi3. intros E3. rewrite E3 in Hlen. simpl in Hlen. lia.
Qed.

(** ** Amounts of money *)
Lemma prefix_app p s : String.prefix p (p +:+ s) = true.
Proof. induction p as [|a p IH]; simpl; [by destruct s|]. by destruct (Ascii.ascii_dec a a). Qed.
Lemma contains_here p s : contains p (p +:+ s) = true.
Proof.
  unfold contains. pose proof (prefix_app p s) as H.
  destruct (p +:+ s) as [|a s'] eqn:E; cbn [String.index].
  - destruct p; [done|]. discriminate E.
  - by rewrite H.
Qed.
Lemma contains_cons p a s : contains p s = true → contains p (String a s) = true.
Proof.
  unfold contains. intros H. cbn [String.index]. destruct (String.prefix p (String a s)); [done|].
  by destruct (String.index 0 p s).
Qed.
Lemma contains_app p q s : contains p s = true → contains p (q +:+ s) = true.
Proof. intros H. induction q as [|a q IH]; [done|]. by apply contains_cons. Qed.

(** When the source names one of the known amounts, the spoken text contains the
    Chinese amount it stands for; otherwise, or when the translation already
    contains it, the translation is spoken as it is. *)
Theorem spoken_amount_matches_source source translated :
  match List.find (λ a, contains a.1 (to_ascii_lowercase source)) AMOUNTS with
  | Some (_, expected) =>
      contains expected (corrected_money_translation_for_playback source translated) = true
      ∧ (contains expected translated = true →
         corrected_money_translation_for_playback source translated = translated)
  | None => corrected_money_translation_for_playback source translated = translated
  end.
Proof.
  unfold corrected_money_translation_for_playback.
  destruct (List.find _ AMOUNTS) as [[amount expected]|]; [|done].
  destruct (contains expected translated) eqn:E1; [done|]. split; [|done].
  set (corrected := foldl _ _ _). destruct (contains expected corrected) eqn:E2; [done|].
  simpl. apply contains_app. do 12 apply contains_cons. apply contains_here.
Qed.

(** ** Concrete runs *)
Definition bridge_off : BridgeRuntimeSnapshot :=
  mk_bridge "stopped" "stopped" "idle" "planned" "not-installed" None true CaptureNone BackendNone
    false Unknown None None 20348 "idle" false "idle" None None 0 None None false "warning" None.
Definition sample_cue (id direction translated : string) : SubtitleCueRuntime :=
  mk_cue id (Some 1) (Some 1) direction "source" "source" [mk_segment "source" translated false]
    translated "unix-ms:1" "unix-ms:2" true true (Some Final).
(** The clock stands still at [0] for [quiet] queries, then at six seconds. *)
Definition sample_env (quiet : nat) : DispatchEnv :=
  mk_dispatch_env (λ l, Z.of_nat (length l)) (λ k, if (k <? quiet)%nat then 0 else 6000000000)
    (λ _, 0) (λ _, Ok tt) (λ _, 0%nat)
    (λ _ _, Ok (mk_synthesis "request-1" (mk_mix [1] [] [] 24000 1) false 0))
    (λ _, mk_route_env (λ _, bridge_off) (λ k, Z.of_nat k * POLL_INTERVAL) (λ _, Ok 10)).
Definition speaker_config (ptt_state : string) : SpeechConfig :=
  mk_speech_config true true true ptt_state (mk_route_config true false false None).
Definition spoken (log : list dispatch_event) : list string :=
  omap (λ e, match e with Played t _ => Some (tk_translated_text t) | _ => None end) log.

(** An outbound cue waits for push-to-talk. After five seconds the worker skips it
    and then waits for a result that no thread will send. *)
Definition waiting_turn (quiet : nat) (w : Worker) :=
  worker_turn (sample_env quiet) (speaker_config "idle") 0 [sample_cue "out-1" "outbound" "喂。"] w.
Theorem waiting_for_push_to_talk_hangs_the_worker :
  let '(r1, w1) := waiting_turn 4 (new_worker 0) in
  let '(r2, w2) := waiting_turn 4 w1 in
  r1 = Ok Blocked ∧ r2 = Ok Stuck ∧ w_inflight w2 = []
  ∧ last (w_log w2) = Some (Skipped "speech.tts-start-expired"
      (mk_task (sample_cue "out-1" "outbound" "喂。") 0 "source" "喂。" true 0)).
Proof. vm_compute. done. Qed.

(** Three clauses of a committed inbound cue are followed by an outbound cue. The
    third clause is being synthesized when push-to-talk stops the pass; the cue
    already counts as spoken, so it is never offered again. *)
Definition blocked_cues : list SubtitleCueRuntime :=
  [sample_cue "out-1" "outbound" "喂。"; sample_cue "in-1" "inbound" "一。二。三。"].
Definition blocked_turn (ptt_state : string) (w : Worker) :=
  worker_turn (sample_env 1000) (speaker_config ptt_state) 0 blocked_cues w.
Theorem blocked_pass_drops_a_clause :
  let '(r1, w1) := blocked_turn "idle" (new_worker 0) in
  let '(r2, w2) := blocked_turn "recording" w1 in
  r1 = Ok Blocked ∧ r2 = Ok Finished ∧ spoken (w_log w2) = ["一。"; "二。"; "喂。"]
  ∧ discovered (sample_env 1000) (speaker_config "recording") 0 (w_queue w2) blocked_cues = [].
Proof. vm_compute. done. Qed.

(** A larger amount that ends in a known one gets a false amount added. *)
Example larger_amounts_are_falsified :
  corrected_money_translation_for_playback "It costs twenty-one billion dollars" "约210亿美元。"
  = "约210亿美元（金额为十亿美元）".
Proof. reflexivity. Qed.

Lemma sample_cue_fits id direction translated :
  Z.of_nat (length (split_secondary_tts_segments "source" translated)) ≤ u64_max →
  cue_fits (sample_cue id direction translated).
Proof. intros H [|index] segment; simpl; [|by rewrite lookup_nil]. intros [= <-]. simpl. lia. Qed.
Lemma blocked_cues_ok : overlay_ok blocked_cues.
Proof.
  split; [apply (bool_decide_unpack _); vm_compute; exact I|].
  repeat constructor; apply sample_cue_fits; vm_compute; discriminate.
Qed.
Definition blocked_worker : Worker := (blocked_turn "idle" (new_worker 0)).2.
Lemma blocked_worker_reachable : worker_reachable (sample_env 1000) blocked_worker.
Proof.
  apply (worker_turns _ (new_worker 0) (speaker_config "idle") 0 blocked_cues Blocked);
    [constructor|apply blocked_cues_ok|vm_compute; reflexivity|done].
Qed.

Lemma keys_are_not_repeated_witness :
  let '(_, w') := blocked_turn "recording" blocked_worker in
  spaced MAX_PROCESSED_CUES (keys (sample_env 1000) w') ∧ length (keys (sample_env 1000) w') = 3%nat.
Proof.
  pose proof (keys_are_not_repeated (sample_env 1000) (speaker_config "recording") 0 blocked_cues
    blocked_worker blocked_worker_reachable blocked_cues_ok) as H.
  assert (length (keys (sample_env 1000) (blocked_turn "recording" blocked_worker).2) = 3%nat) as Hl
    by (vm_compute; reflexivity).
  unfold blocked_turn in *. destruct (worker_turn _ _ _ _ _) as [r w']. split; [exact (proj1 H)|exact Hl].
Defined.
Lemma finished_turn_settles_every_task_witness :
  ∃ settled, outcomes (w_log (blocked_turn "recording" blocked_worker).2)
    ≡ₚ outcomes (w_log blocked_worker) ++ settled.
Proof.
  pose proof (finished_turn_settles_every_task (sample_env 1000) (speaker_config "recording") 0
    blocked_cues blocked_worker blocked_worker_reachable blocked_cues_ok) as H.
  assert (is_ok (blocked_turn "recording" blocked_worker).1 = true) as Hok by (vm_compute; reflexivity).
  unfold blocked_turn in *. destruct (worker_turn _ _ _ _ _) as [[e|] w']; [|discriminate Hok].
  destruct H as (_ & _ & settled & _ & _ & H & _). exists settled. exact H.
Defined.
Lemma offered_speech_is_final_and_new_witness :
  ∃ t, t ∈ discovered (sample_env 1000) (speaker_config "idle") 0
             (w_queue (check_reconnect 0 blocked_worker)) blocked_cues
  ∧ cue_translation_state (tk_cue t) = Some Final ∧ committed_done blocked_worker = ["in-1"]
  ∧ cue_id (tk_cue t) ∉ last_n MAX_PROCESSED_CUES (committed_done blocked_worker).
Proof.
  assert (∃ t, t ∈ discovered (sample_env 1000) (speaker_config "idle") 0
    (w_queue (check_reconnect 0 blocked_worker)) blocked_cues ∧ cue_committed (tk_cue t) = true) as (t & Ht & Hcom).
  { eexists. split; [apply list_elem_of_lookup_2 with 0%nat; vm_compute; reflexivity|reflexivity]. }
  exists t. split; [exact Ht|].
  destruct (offered_speech_is_final_and_new _ _ _ 0 _ _ _ blocked_worker_reachable Ht) as (_ & _ & H & _ & Hn).
  assert (E : check_reconnect 0 blocked_worker = blocked_worker) by (vm_compute; reflexivity).
  split; [exact H|]. split; [vm_compute; reflexivity|]. rewrite E in Hn. exact (Hn Hcom).
Defined.
(** The worker of [waiting_for_push_to_talk_hangs_the_worker], at its last pass. *)
Definition aged_task : SpeechDispatchTask :=
  mk_task (sample_cue "out-1" "outbound" "喂。") 0 "source" "喂。" true 0.
Lemma pass_waits_for_ever_exactly_when_witness :
  (dispatch_pass (sample_env 0) (speaker_config "idle") [aged_task] (new_worker 0)).1 = Ok Stuck.
Proof.
  apply (pass_waits_for_ever_exactly_when (sample_env 0) (speaker_config "idle") [aged_task]
    (new_worker 0)).
  - reflexivity.
  - intros t _. reflexivity.
  - intros k. split; [vm_compute; discriminate|]. intros j _. cbn [re_now de_route sample_env]. lia.
  - split; [discriminate|]. vm_compute. auto.
Defined.
