(* ===== verification/BridgeProtocol.v ===== *)
(** * The Bridge protocol: frames, acknowledgements, statuses

    Models the wire contract shared by the desktop and the native Bridge
    ([crates/omni-bridge-protocol/src/lib.rs]) and the checks of one translated
    frame ([validate_translation_frame] of
    [apps/bridge-service-native/src/lib.rs]): the frame header, the two answers
    to a frame, the playback status event with its acknowledgement, the PCM
    codec and the list of error codes the Bridge may send. The enumerations of
    the capture route are [SpeechRoute]'s. *)
From S2P Require Import Prelude RustStr TaskLifecycle SpeechRoute.

(** ** Enumerations *)
Inductive AudioRouteDirection := Inbound | Outbound.
Inductive TranslationAudioSink := PhysicalPlayback | VirtualMic.
Inductive TranslationStreamState := Start | Chunk | End_ | Abort_.
Inductive TranslationPlaybackStatusKind := Queued | Started | Completed | StaleDropped | RouteFailed.

#[export] Instance direction_eq_dec : EqDecision AudioRouteDirection.
Proof. solve_decision. Defined.
#[export] Instance sink_eq_dec : EqDecision TranslationAudioSink.
Proof. solve_decision. Defined.
#[export] Instance stream_state_eq_dec : EqDecision TranslationStreamState.
Proof. solve_decision. Defined.
#[export] Instance status_kind_eq_dec : EqDecision TranslationPlaybackStatusKind.
Proof. solve_decision. Defined.

Definition is_terminal (kind : TranslationPlaybackStatusKind) : bool :=
  match kind with Completed | StaleDropped | RouteFailed => true | _ => false end.

(** ** A frame and its write authority *)
Record AudioFrameHeader := mk_header {
  event_type : string; request_id : string; session_id : string; frame_id : string;
  stream_id : string; sample_rate_hz : Z; channel_count : Z; frame_count : Z;
  timestamp_ms : Z; payload_bytes : Z; bridge_process_id : option Z;
  bridge_instance_id : option string; playback_owner_generation : option Z;
  source_generation : option Z; source_generation_token : option string;
  physical_playback_device_id : option string; cue_id : option string;
  created_at_ms : option Z; estimated_duration_ms : option Z; chunk_index : option Z;
  chunk_count : option Z; stream_state : option TranslationStreamState;
  translated_audio_enhancement_applied : bool;
  translation_sink : option TranslationAudioSink; route_direction : option AudioRouteDirection
}.

Record AudioFrameAck := mk_frame_ack {
  ack_event_type : string; ack_request_id : string; ack_frame_id : string;
  ack_session_id : string; ack_bridge_instance_id : string; ack_source_generation : Z;
  ack_source_generation_token : string; ack_playback_owner_generation : Z;
  ack_physical_playback_device_id : string; ack_accepted_frames : Z;
  ack_playback_frames_written : Z; ack_error_code : option string; ack_message : option string
}.
#[export] Instance frame_ack_eq_dec : EqDecision AudioFrameAck.
Proof. solve_decision. Defined.

Definition accepted_audio_frame_ack (header : AudioFrameHeader) (playback_frames_written : Z)
  : AudioFrameAck :=
  mk_frame_ack "bridge.translation.ack" (request_id header) (frame_id header) (session_id header)
    (default "" (bridge_instance_id header)) (default 0 (source_generation header))
    (default "" (source_generation_token header)) (default 0 (playback_owner_generation header))
    (default "" (physical_playback_device_id header)) (frame_count header)
    playback_frames_written None None.

Definition rejected_audio_frame_ack (header : AudioFrameHeader) (error_code message : string)
  : AudioFrameAck :=
  mk_frame_ack "bridge.translation.nack" (request_id header) (frame_id header) (session_id header)
    (default "" (bridge_instance_id header)) (default 0 (source_generation header))
    (default "" (source_generation_token header)) (default 0 (playback_owner_generation header))
    (default "" (physical_playback_device_id header)) 0 0 (Some error_code) (Some message).

(** ** Playback statuses *)
Record TranslationPlaybackStatusEvent := mk_status {
  st_status_id : string; st_request_id : string; st_session_id : string;
  st_bridge_instance_id : string; st_source_generation : Z;
  st_source_generation_token : string; st_playback_owner_generation : Z;
  st_physical_playback_device_id : string; st_cue_id : string;
  st_playback_status : TranslationPlaybackStatusKind; st_reason : string;
  st_error_code : option string; st_timestamp_ms : Z
}.
#[export] Instance status_event_eq_dec : EqDecision TranslationPlaybackStatusEvent.
Proof. solve_decision. Defined.

Record TranslationPlaybackStatusAck := mk_status_ack {
  sa_status_id : string; sa_session_id : string; sa_bridge_instance_id : string;
  sa_source_generation : Z; sa_source_generation_token : string;
  sa_playback_owner_generation : Z; sa_physical_playback_device_id : string
}.
#[export] Instance status_ack_eq_dec : EqDecision TranslationPlaybackStatusAck.
Proof. solve_decision. Defined.

(** ** The PCM codec *)
Definition encode_pcm16le (samples : list Z) : list Z := flat_map i16_to_le samples.

(** [bytes.chunks_exact(2)]. *)
Fixpoint chunks_exact_2 (bytes : list Z) : list (Z * Z) :=
  match bytes with
  | b0 :: b1 :: rest => (b0, b1) :: chunks_exact_2 rest
  | _ => []
  end.
Definition decode_pcm16le (bytes : list Z) : outcome (list Z) :=
  if negb (Z.of_nat (length bytes) mod 2 =? 0)
  then Err (Fail "pcm16le payload must contain an even number of bytes")
  else Ok ((λ c, i16_of_le c.1 c.2) <$> chunks_exact_2 bytes).

(** ** Error codes *)
Definition BRIDGE_ERROR_CODES : list string := [
  "bridge.singleton-already-running"; "bridge.session-mismatch";
  "bridge.invalid-audio-direction"; "bridge.invalid-pcm-payload"; "bridge.timeout";
  "bridge.queue-overflow"; "bridge.start-failed"; "bridge.process-loopback-unsupported";
  "bridge.process-loopback-activation-failed"; "bridge.process-loopback-capture-failed";
  "bridge.source-flush-failed"; "bridge.physical-playback-rebind-failed";
  "bridge.playback-ownership-barrier-failed"; "bridge.translation-generation-ended";
  "bridge.translation-output-bypass"; "bridge.translation-playback-failed";
  "bridge.virtual-mic-output-unavailable"; "bridge.virtual-mic-driver-unavailable";
  "bridge.virtual-mic-format-unsupported"; "bridge.virtual-mic-session-failed";
  "bridge.virtual-mic-write-failed"; "bridge.stale-pid-invalid";
  "bridge.stale-pid-points-to-desktop-process"; "bridge.stale-process-path-mismatch";
  "bridge.stale-process-open-failed"; "bridge.stale-process-query-failed";
  "bridge.stale-process-terminate-failed" ].

(** ** The checks of one translated frame *)
(** [usize::checked_mul]. *)
Definition checked_mul (a b : Z) : option Z := if a * b <=? u64_max then Some (a * b) else None.

Definition empty_id (id : option string) : bool := from_option is_empty true id.

Definition validate_translation_frame (active_session_id : option string)
    (header : AudioFrameHeader) (payload : list Z) : list Z + AudioFrameAck :=
  let reject code message := inr (rejected_audio_frame_ack header code message) in
  if negb (bool_decide (active_session_id = Some (session_id header)))
  then reject "bridge.session-mismatch"
         "translation frame session does not match the active bridge session" else
  if negb (eqs (event_type header) "bridge.translation.frame")
  then reject "bridge.invalid-audio-direction" "audio pipe accepts translation frames only" else
  if bool_decide (translation_sink header = Some VirtualMic)
     && (empty_id (cue_id header)
         || negb (match chunk_index header, chunk_count header with
                  | Some index, Some count => (0 <? count) && (index <? count)
                  | _, _ => false
                  end))
  then reject "bridge.invalid-pcm-payload"
         "virtual microphone frames require a valid chunkIndex/chunkCount pair" else
  if bool_decide (translation_sink header = Some PhysicalPlayback)
     && is_Some_b (stream_state header)
     && (empty_id (cue_id header) || negb (is_Some_b (chunk_index header))
         || is_Some_b (chunk_count header))
  then reject "bridge.invalid-pcm-payload"
         "streaming physical playback requires cueId/chunkIndex and forbids chunkCount" else
  let expected_bytes :=
    match checked_mul (frame_count header) (channel_count header) with
    | Some samples => checked_mul samples 2
    | None => None
    end in
  if (channel_count header =? 0)
     || negb (bool_decide (expected_bytes = Some (payload_bytes header)))
     || negb (payload_bytes header =? Z.of_nat (length payload))
  then reject "bridge.invalid-pcm-payload" "pcm16le payload length does not match frame metadata" else
  match decode_pcm16le payload with
  | Ok samples => inl samples
  | Err (Fail message) | Err (Panic message) => reject "bridge.invalid-pcm-payload" message
  end.

(** [translation_dispatch_error] ([windows/mod.rs]): error code, reason, message. *)
Definition translation_dispatch_error (header : AudioFrameHeader)
  : option (string * string * string) :=
  match translation_sink header, route_direction header with
  | Some PhysicalPlayback, Some Inbound => None
  | Some VirtualMic, Some Outbound => None
  | _, _ => Some ("bridge.invalid-audio-direction", "invalid-translation-sink-direction",
              "translation frames require physical-playback/inbound or virtual-mic/outbound")
  end.

(** ** Theorems *)
Lemma chunks_exact_encode samples :
  (λ c : Z * Z, i16_of_le c.1 c.2) <$> chunks_exact_2 (encode_pcm16le samples)
  = (λ x, i16_of_le ((x mod 65536) mod 256) (x mod 65536 / 256)) <$> samples.
Proof. induction samples as [|x samples IH]; [done|]. simpl. by f_equal. Qed.

Lemma encode_length samples :
  Z.of_nat (length (encode_pcm16le samples)) = 2 * Z.of_nat (length samples).
Proof. induction samples as [|x samples IH]; [done|]. simpl length. lia. Qed.

Lemma decode_of_encode samples :
  Forall is_i16 samples → decode_pcm16le (encode_pcm16le samples) = Ok samples.
Proof.
  intros Hs. unfold decode_pcm16le. rewrite encode_length.
  replace (2 * _ mod 2) with 0 by (rewrite Z.mul_comm, Z.mod_mul; lia).
  rewrite chunks_exact_encode. simpl. f_equal.
  induction Hs as [|x l Hx Hl IH]; [done|]. rewrite fmap_cons. f_equal; [by apply i16_of_to|done].
Qed.

(** Only frames whose geometry is exact reach the mixer. *)
Lemma validated_frame_geometry active header payload samples :
  validate_translation_frame active header payload = inl samples →
  active = Some (session_id header) ∧ event_type header = "bridge.translation.frame"
  ∧ frame_count header * channel_count header * 2 = payload_bytes header
  ∧ payload_bytes header = Z.of_nat (length payload)
  ∧ decode_pcm16le payload = Ok samples.
Proof.
  unfold validate_translation_frame, eqs, checked_mul. intros H.
  repeat (case_match; simplify_eq/=); bool_hyps; simplify_eq/=.
  all: by split_and!.
Qed.
