(* ===== verification/BridgeCues.v ===== *)
(** * The native Bridge's cue ledgers, playback queue and status outbox

    Models the data the Bridge service keeps about translated cues
    ([apps/bridge-service-native/src/windows/translation.rs] and the virtual
    microphone ledger of [windows/mod.rs]): the chunk ledger of streamed
    physical playback, the chunk ledger of the virtual microphone, the queue of
    complete cues with its five second start budget, and the outbox of playback
    statuses. Each operation is the method of the same name; [admit] is
    [admit_chunk] here. *)
From S2P Require Import Prelude RustStr TaskLifecycle SpeechRoute BridgeProtocol.

Definition saturating_add_u32 (a b : Z) : Z := Z.min (a + b) u32_max.

(** ** [PhysicalTranslationStreamLedger] *)
Module StreamLedger.

Inductive PhysicalStreamAdmission := AdmitStart | AdmitChunk | AdmitEnd | AdmitDuplicate.
#[export] Instance admission_eq_dec : EqDecision PhysicalStreamAdmission.
Proof. solve_decision. Defined.

Record PhysicalTranslationStreamCursor := mk_cursor {
  next_chunk_index : Z; ended : bool; cursor_generation : Z
}.
#[export] Instance cursor_settable : Settable PhysicalTranslationStreamCursor := λ c,
  mk_cursor (next_chunk_index c) (ended c) (cursor_generation c).

Record PhysicalTranslationStreamLedger := mk_stream_ledger {
  active : gmap string PhysicalTranslationStreamCursor;
  completed : gset (string * Z)
}.
#[export] Instance stream_ledger_settable : Settable PhysicalTranslationStreamLedger := λ l,
  mk_stream_ledger (active l) (completed l).

Definition empty_ledger : PhysicalTranslationStreamLedger := mk_stream_ledger ∅ ∅.

Definition set_active cue_id cursor (l : PhysicalTranslationStreamLedger) :=
  l <| active ::= <[cue_id := cursor]> |>.

Definition admit_chunk (cue_id : string) (chunk_index : Z) (state : TranslationStreamState)
    (translation_generation : Z) (l : PhysicalTranslationStreamLedger)
  : outcome PhysicalStreamAdmission * PhysicalTranslationStreamLedger :=
  if bool_decide ((cue_id, translation_generation) ∈ completed l) then (Ok AdmitDuplicate, l) else
  match state with
  | Start =>
      if negb (chunk_index =? 0)
      then (Err (Fail "physical stream start must be the first chunk"), l) else
      match active l !! cue_id with
      | Some active =>
          if cursor_generation active =? translation_generation then (Ok AdmitDuplicate, l)
          else (Err (Fail "physical stream cueId is active in another translation generation"), l)
      | None => (Ok AdmitStart, set_active cue_id (mk_cursor 1 false translation_generation) l)
      end
  | Chunk =>
      match active l !! cue_id with
      | None => (Err (Fail "physical stream chunk requires an active cue"), l)
      | Some next =>
          if negb (cursor_generation next =? translation_generation)
          then (Err (Fail "physical stream chunk belongs to a superseded translation generation"), l)
          else if ended next
          then (Err (Fail "physical stream chunk cannot follow stream end"), l)
          else if chunk_index <? next_chunk_index next then (Ok AdmitDuplicate, l)
          else if negb (chunk_index =? next_chunk_index next)
          then (Err (Fail "physical stream chunks must be contiguous"), l)
          else (Ok AdmitChunk,
                set_active cue_id
                  (next <| next_chunk_index := saturating_add_u32 (next_chunk_index next) 1 |>) l)
      end
  | End_ =>
      match active l !! cue_id with
      | None => (Err (Fail "physical stream end requires an active cue"), l)
      | Some next =>
          if negb (cursor_generation next =? translation_generation)
          then (Err (Fail "physical stream end belongs to a superseded translation generation"), l)
          else if ended next && (chunk_index =? next_chunk_index next) then (Ok AdmitDuplicate, l)
          else if negb (chunk_index =? next_chunk_index next)
          then (Err (Fail "physical stream end must follow the final chunk"), l)
          else (Ok AdmitEnd, set_active cue_id (next <| ended := true |>) l)
      end
  | Abort_ =>
      match active l !! cue_id with
      | None => (Err (Fail "physical stream abort requires an active cue"), l)
      | Some active =>
          if negb (cursor_generation active =? translation_generation)
          then (Err (Fail "physical stream abort belongs to a superseded translation generation"), l)
          else (Ok AdmitEnd, l)
      end
  end.

Definition owns (cue_id : string) (translation_generation : Z)
    (l : PhysicalTranslationStreamLedger) : bool :=
  match active l !! cue_id with
  | Some active => cursor_generation active =? translation_generation
  | None => false
  end.

Definition claim_terminal (cue_id : string) (translation_generation : Z)
    (l : PhysicalTranslationStreamLedger) : bool * PhysicalTranslationStreamLedger :=
  if owns cue_id translation_generation l
  then (true, l <| active ::= delete cue_id |>
                <| completed ::= union {[ (cue_id, translation_generation) ]} |>)
  else (false, l).

Definition reset (l : PhysicalTranslationStreamLedger) : PhysicalTranslationStreamLedger :=
  l <| active := ∅ |> <| completed := ∅ |>.

(** The keys in the order the hash map happens to hold them is a permutation of these. *)
Definition active_cue_ids (l : PhysicalTranslationStreamLedger) : list string :=
  (map_to_list (active l)).*1.

Definition prepare_physical_stream_admission (l : PhysicalTranslationStreamLedger)
    (cue_id : string) (chunk_index : Z) (state : TranslationStreamState)
    (translation_generation : Z)
  : outcome (PhysicalTranslationStreamLedger * PhysicalStreamAdmission) :=
  match admit_chunk cue_id chunk_index state translation_generation l with
  | (Ok admission, next) => Ok (next, admission)
  | (Err e, _) => Err e
  end.
End StreamLedger.

(** ** [VirtualMicCueLedger] *)
Module VirtualMicLedger.

Definition VIRTUAL_MIC_TERMINAL_LEDGER_CAPACITY : nat := 128.

Record VirtualMicCueProgress := mk_progress {
  progress_chunk_count : Z; progress_next : Z; write_in_flight : bool
}.
#[export] Instance progress_settable : Settable VirtualMicCueProgress := λ p,
  mk_progress (progress_chunk_count p) (progress_next p) (write_in_flight p).

Record VirtualMicCueLedger := mk_vmic {
  mic_active : gmap string VirtualMicCueProgress; terminal : list string
}.
#[export] Instance vmic_settable : Settable VirtualMicCueLedger := λ l,
  mk_vmic (mic_active l) (terminal l).

Inductive VirtualMicChunkAdmission := MicWrite (emit_queued : bool) | MicDuplicate.

Definition is_terminal_cue (cue_id : string) (l : VirtualMicCueLedger) : bool :=
  existsb (eqs cue_id) (terminal l).

Definition begin (cue_id : string) (chunk_index chunk_count : Z) (l : VirtualMicCueLedger)
  : outcome VirtualMicChunkAdmission * VirtualMicCueLedger :=
  if is_terminal_cue cue_id l then (Ok MicDuplicate, l) else
  match mic_active l !! cue_id with
  | None =>
      if negb (chunk_index =? 0) then (Err (Fail "virtual-mic-first-chunk-missing"), l)
      else (Ok (MicWrite true), l <| mic_active ::= <[cue_id := mk_progress chunk_count 0 true]> |>)
  | Some progress =>
      if negb (progress_chunk_count progress =? chunk_count)
      then (Err (Fail "virtual-mic-chunk-count-changed"), l)
      else if chunk_index <? progress_next progress then (Ok MicDuplicate, l)
      else if write_in_flight progress || negb (chunk_index =? progress_next progress)
      then (Err (Fail "virtual-mic-chunk-out-of-order"), l)
      else (Ok (MicWrite false),
            l <| mic_active ::= <[cue_id := progress <| write_in_flight := true |>]> |>)
  end.

Definition remember_terminal (cue_id : string) (l : VirtualMicCueLedger) : VirtualMicCueLedger :=
  let l := if bool_decide (length (terminal l) = VIRTUAL_MIC_TERMINAL_LEDGER_CAPACITY)
           then l <| terminal ::= tail |> else l in
  l <| terminal ::= (λ t, t ++ [cue_id]) |>.

Definition complete_success (cue_id : string) (chunk_index : Z) (l : VirtualMicCueLedger)
  : option (bool * bool) * VirtualMicCueLedger :=
  match mic_active l !! cue_id with
  | None => (None, l)
  | Some progress =>
      if negb (write_in_flight progress) || negb (progress_next progress =? chunk_index)
      then (None, l)
      else
        let progress := progress <| write_in_flight := false |>
                          <| progress_next ::= (λ n, saturating_add_u32 n 1) |> in
        let is_first := chunk_index =? 0 in
        let is_final := progress_next progress =? progress_chunk_count progress in
        let l := l <| mic_active ::= <[cue_id := progress]> |> in
        (Some (is_first, is_final),
         if is_final then remember_terminal cue_id (l <| mic_active ::= delete cue_id |>) else l)
  end.

Definition complete_terminal (cue_id : string) (l : VirtualMicCueLedger)
  : bool * VirtualMicCueLedger :=
  if is_terminal_cue cue_id l then (false, l)
  else (true, remember_terminal cue_id (l <| mic_active ::= delete cue_id |>)).

Definition reset (l : VirtualMicCueLedger) : VirtualMicCueLedger :=
  l <| mic_active := ∅ |> <| terminal := [] |>.
End VirtualMicLedger.

(** ** [TranslationPlaybackQueue] *)
Module PlaybackQueue.

Definition TRANSLATION_MAX_PROJECTED_LATENCY_MS : Z := 5000.
Definition INTERNAL_CHANNEL_COUNT : Z := 2.
Definition INTERNAL_SAMPLE_RATE_HZ : Z := 48000.

(** An [f32] sample is an abstract value, here a number nothing computes with. *)
Definition F32 := Z.

Record PlaybackJob := mk_job {
  job_samples : list F32; job_device_id : string; job_volume_level : Z;
  job_ducking_enabled : bool; job_ducking_depth_percent : Z; job_source_generation : Z;
  job_cue_id : option string; job_created_at_ms : Z; job_estimated_duration_ms : Z;
  job_playback_duration_ms : Z; job_translation_generation : Z;
  job_arrival_sequence : Z
}.
#[export] Instance job_eq_dec : EqDecision PlaybackJob.
Proof. solve_decision. Defined.

Definition sample_frames (samples : list F32) : Z :=
  Z.of_nat (length samples) / INTERNAL_CHANNEL_COUNT.

Record ActiveTranslationPlayback := mk_active {
  ac_cue_id : option string; ac_created_at_ms : Z; ac_estimated_duration_ms : Z;
  ac_playback_frames : Z; ac_expected_end_ms : Z
}.
#[export] Instance active_playback_eq_dec : EqDecision ActiveTranslationPlayback.
Proof. solve_decision. Defined.

Record TranslationPlaybackQueue := mk_queue {
  capacity : nat; pending : list PlaybackJob; q_active : option ActiveTranslationPlayback
}.
#[export] Instance queue_settable : Settable TranslationPlaybackQueue := λ q,
  mk_queue (capacity q) (pending q) (q_active q).

Definition new (capacity : nat) : TranslationPlaybackQueue := mk_queue capacity [] None.

Definition translation_would_miss_realtime_budget (created_at_ms projected_start_ms : Z) : bool :=
  TRANSLATION_MAX_PROJECTED_LATENCY_MS <? saturating_sub projected_start_ms created_at_ms.

Definition active_end_ms (now_ms : Z) (q : TranslationPlaybackQueue) : Z :=
  Z.max (from_option ac_expected_end_ms now_ms (q_active q)) now_ms.

Definition projected_start_ms (now_ms : Z) (q : TranslationPlaybackQueue) : Z :=
  fold_left (λ start_ms job, saturating_add start_ms (job_playback_duration_ms job))
    (pending q) (active_end_ms now_ms q).
Definition projected_end_ms := projected_start_ms.

(** The loop of [drain_expired_pending]: the jobs kept and the jobs dropped. *)
Fixpoint split_expired (projected_start_ms : Z) (jobs : list PlaybackJob)
  : list PlaybackJob * list PlaybackJob :=
  match jobs with
  | [] => ([], [])
  | job :: jobs =>
      if translation_would_miss_realtime_budget (job_created_at_ms job) projected_start_ms
      then let '(retained, dropped) := split_expired projected_start_ms jobs in
           (retained, job :: dropped)
      else let '(retained, dropped) :=
             split_expired (saturating_add projected_start_ms (job_playback_duration_ms job)) jobs in
           (job :: retained, dropped)
  end.
Definition drain_expired_pending (now_ms : Z) (q : TranslationPlaybackQueue)
  : list PlaybackJob * TranslationPlaybackQueue :=
  let '(retained, dropped) := split_expired (active_end_ms now_ms q) (pending q) in
  (dropped, q <| pending := retained |>).

Inductive TranslationEnqueueFailureReason := QueueFull | RealtimeBudget.
Record TranslationEnqueueOutcome := mk_enqueued {
  eo_projected_start_ms : Z; eo_projected_end_ms : Z; eo_dropped : list PlaybackJob
}.
Record TranslationEnqueueFailure := mk_enqueue_failure {
  ef_job : PlaybackJob; ef_projected_start_ms : Z; ef_dropped : list PlaybackJob;
  ef_reason : TranslationEnqueueFailureReason
}.

Definition enqueue (job : PlaybackJob) (now_ms : Z) (q : TranslationPlaybackQueue)
  : (TranslationEnqueueOutcome + TranslationEnqueueFailure) * TranslationPlaybackQueue :=
  let '(dropped, q) := drain_expired_pending now_ms q in
  let start_ms := projected_start_ms now_ms q in
  if (capacity q <=? length (pending q))%nat
  then (inr (mk_enqueue_failure job start_ms dropped QueueFull), q)
  else if translation_would_miss_realtime_budget (job_created_at_ms job) start_ms
  then (inr (mk_enqueue_failure job start_ms dropped RealtimeBudget), q)
  else (inl (mk_enqueued start_ms (saturating_add start_ms (job_playback_duration_ms job)) dropped),
        q <| pending ::= (λ p, p ++ [job]) |>).

(** The job to start, if any, and the jobs dropped. *)
Definition start_next (now_ms : Z) (q : TranslationPlaybackQueue)
  : option PlaybackJob * list PlaybackJob * TranslationPlaybackQueue :=
  match q_active q with
  | Some _ => (None, [], q)
  | None =>
      let '(dropped, q) := drain_expired_pending now_ms q in
      match pending q with
      | [] => (None, dropped, q)
      | job :: rest =>
          (Some job, dropped,
           q <| pending := rest |>
             <| q_active := Some (mk_active (job_cue_id job) (job_created_at_ms job)
                  (job_estimated_duration_ms job) (sample_frames (job_samples job))
                  (saturating_add now_ms (job_playback_duration_ms job))) |>)
      end
  end.

Definition finish_active (q : TranslationPlaybackQueue)
  : option ActiveTranslationPlayback * TranslationPlaybackQueue :=
  (q_active q, q <| q_active := None |>).

Definition clear (q : TranslationPlaybackQueue)
  : option ActiveTranslationPlayback * list PlaybackJob * TranslationPlaybackQueue :=
  (q_active q, pending q, q <| q_active := None |> <| pending := [] |>).
End PlaybackQueue.

(** ** [TranslationStatusOutbox] *)
Module StatusOutbox.

Record TranslationStatusOutbox := mk_outbox {
  producer_id : string; next_sequence : Z; ob_pending : list TranslationPlaybackStatusEvent
}.
#[export] Instance outbox_settable : Settable TranslationStatusOutbox := λ o,
  mk_outbox (producer_id o) (next_sequence o) (ob_pending o).

Definition status_id_text (producer_id : string) (sequence : Z) : string :=
  ("bridge-translation-status-" +:+ producer_id +:+ "-" +:+ show_uint sequence)%string.

(** [checked_add(1).expect(..)]: [None] is the panic. *)
Definition next_status_id (o : TranslationStatusOutbox)
  : option (string * TranslationStatusOutbox) :=
  match checked_add (next_sequence o) 1 with
  | Some sequence => Some (status_id_text (producer_id o) sequence, o <| next_sequence := sequence |>)
  | None => None
  end.

Definition push (event : TranslationPlaybackStatusEvent) (o : TranslationStatusOutbox) :=
  o <| ob_pending ::= (λ p, p ++ [event]) |>.
Definition front (o : TranslationStatusOutbox) : option TranslationPlaybackStatusEvent :=
  head (ob_pending o).

(** What a desktop answers to [event] ([acknowledge]'s comparison). *)
Definition ack_of (event : TranslationPlaybackStatusEvent) : TranslationPlaybackStatusAck :=
  mk_status_ack (st_status_id event) (st_session_id event) (st_bridge_instance_id event)
    (st_source_generation event) (st_source_generation_token event)
    (st_playback_owner_generation event) (st_physical_playback_device_id event).

Definition acknowledge (ack : TranslationPlaybackStatusAck) (o : TranslationStatusOutbox)
  : bool * TranslationStatusOutbox :=
  match ob_pending o with
  | [] => (false, o)
  | front :: rest =>
      if negb (eqs (st_status_id front) (sa_status_id ack))
         || negb (eqs (st_session_id front) (sa_session_id ack))
         || negb (eqs (st_bridge_instance_id front) (sa_bridge_instance_id ack))
         || negb (st_source_generation front =? sa_source_generation ack)
         || negb (eqs (st_source_generation_token front) (sa_source_generation_token ack))
         || negb (st_playback_owner_generation front =? sa_playback_owner_generation ack)
         || negb (eqs (st_physical_playback_device_id front) (sa_physical_playback_device_id ack))
      then (false, o) else (true, o <| ob_pending := rest |>)
  end.
End StatusOutbox.
