(* ===== verification/BridgeFrames.v ===== *)
(** * What the native Bridge does with a translated frame

    Models the handlers of the Bridge's audio pipe
    ([apps/bridge-service-native/src/windows/mod.rs], [windows/audio_client.rs]),
    the statuses they emit, and the stop of all accepted playback
    ([request_playback_stop] of [windows/translation.rs]). The fields of
    [BridgeState] these functions read or write are grouped in four records.

    A handler holds the [BridgeState] lock from its first check to its answer, so
    it is one atomic run of the monad; the virtual microphone releases the lock
    around the driver write and is two runs. [unix_ms_at] gives the clock's
    readings in the order they are made, [monitor_mix] is the floating-point
    mixer, [key_order] the order in which the hash map yields its keys and
    [mic_generation] the hash of the session id. A panic (an exhausted [u64]
    sequence) poisons the lock. *)
From S2P Require Import Prelude RustStr TaskLifecycle SpeechRoute BridgeProtocol BridgeCues.
Import StreamLedger VirtualMicLedger PlaybackQueue StatusOutbox.

(** ** State *)
Record Route := mk_route {
  rt_session_id : option string; rt_bridge_instance_id : string;
  rt_source_capture_mode : SourceCaptureMode; rt_capture_backend : CaptureBackend;
  rt_process_loopback_status : ProcessLoopbackStatus;
  rt_process_loopback_failure_detail : option string;
  rt_source_generation : Z; rt_source_subscriber_active : bool;
  rt_physical_playback_device_id : string; rt_resolved_physical_playback_device_id : string;
  rt_physical_playback_status : string; rt_playback_owner_generation : Z;
  rt_init_epoch : Z; rt_playback_owner_reservation : Z; rt_physical_playback_level : Z;
  rt_translation_playback_enabled : bool; rt_source_monitor_playback_enabled : bool;
  rt_virtual_mic_output_requested : bool; rt_bridge_state : string; rt_lifecycle_state : string;
  rt_last_error_code : option string; rt_monitor_playback_state : string;
  rt_process_loopback_supported : bool; rt_windows_build_number : option Z;
  rt_driver_health : string; rt_driver_version : option string;
  rt_process_loopback_shutdown_requested_generation : option Z;
  rt_process_loopback_terminal_generation : option Z;
  rt_process_loopback_terminal_status : option string;
  rt_process_loopback_terminal_timestamp_ms : option Z
}.
#[export] Instance route_settable : Settable Route := λ r,
  mk_route (rt_session_id r) (rt_bridge_instance_id r) (rt_source_capture_mode r)
    (rt_capture_backend r) (rt_process_loopback_status r) (rt_process_loopback_failure_detail r)
    (rt_source_generation r) (rt_source_subscriber_active r) (rt_physical_playback_device_id r)
    (rt_resolved_physical_playback_device_id r) (rt_physical_playback_status r)
    (rt_playback_owner_generation r) (rt_init_epoch r) (rt_playback_owner_reservation r)
    (rt_physical_playback_level r) (rt_translation_playback_enabled r)
    (rt_source_monitor_playback_enabled r) (rt_virtual_mic_output_requested r)
    (rt_bridge_state r) (rt_lifecycle_state r) (rt_last_error_code r)
    (rt_monitor_playback_state r) (rt_process_loopback_supported r) (rt_windows_build_number r)
    (rt_driver_health r) (rt_driver_version r)
    (rt_process_loopback_shutdown_requested_generation r)
    (rt_process_loopback_terminal_generation r) (rt_process_loopback_terminal_status r)
    (rt_process_loopback_terminal_timestamp_ms r).

(** The fields of [MixControl] read outside the mixer. *)
Record Mix := mk_mix {
  mx_translated_audio_enabled : bool; mx_ducking_enabled : bool; mx_ducking_depth_percent : Z
}.

Record Counters := mk_counters {
  ct_translated_frames_accepted : Z; ct_virtual_mic_frames_written : Z;
  ct_virtual_mic_write_failures : Z; ct_virtual_mic_last_generation : Z;
  ct_virtual_mic_output_supported : bool; ct_virtual_mic_output_status : string;
  ct_virtual_mic_session_active : bool; ct_translation_queue_end_timestamp_ms : Z;
  ct_playback_frames_written : Z; ct_dropped_frame_count : Z;
  ct_last_frame_timestamp_ms : option Z; ct_source_pending_bytes : Z;
  ct_source_pacer_queued_frames : Z; ct_monitor_source_queued_frames : Z
}.
#[export] Instance counters_settable : Settable Counters := λ c,
  mk_counters (ct_translated_frames_accepted c) (ct_virtual_mic_frames_written c)
    (ct_virtual_mic_write_failures c) (ct_virtual_mic_last_generation c)
    (ct_virtual_mic_output_supported c) (ct_virtual_mic_output_status c)
    (ct_virtual_mic_session_active c) (ct_translation_queue_end_timestamp_ms c)
    (ct_playback_frames_written c) (ct_dropped_frame_count c) (ct_last_frame_timestamp_ms c)
    (ct_source_pending_bytes c) (ct_source_pacer_queued_frames c)
    (ct_monitor_source_queued_frames c).

Record TranslationCueAuthority := mk_authority {
  au_session_id : string; au_bridge_instance_id : string; au_source_generation : Z;
  au_source_generation_token : string; au_playback_owner_generation : Z;
  au_physical_playback_device_id : string
}.

Record Cues := mk_cues {
  cu_virtual_mic : VirtualMicCueLedger; cu_streams : PhysicalTranslationStreamLedger;
  cu_translation_generation : Z; cu_translation_arrival_sequence : Z;
  cu_authorities : gmap string TranslationCueAuthority; cu_outbox : TranslationStatusOutbox
}.
#[export] Instance cues_settable : Settable Cues := λ c,
  mk_cues (cu_virtual_mic c) (cu_streams c) (cu_translation_generation c)
    (cu_translation_arrival_sequence c) (cu_authorities c) (cu_outbox c).

Record TranslationCueTerminal := mk_terminal {
  tm_cue_id : option string; tm_status : TranslationPlaybackStatusKind;
  tm_reason : string; tm_error_code : option string
}.
Record PlaybackStopRequest := mk_stop {
  sr_reason : string; sr_error_code : option string; sr_recreate_output : bool;
  sr_stop_through_generation : Z; sr_terminated_cues : list TranslationCueTerminal
}.

Inductive PlaybackCommand :=
| Play (job : PlaybackJob) (queued_at : Z)
| TranslationQueued
| TranslationStream (job : PlaybackJob) (state : TranslationStreamState)
| FlushSource (acknowledged : bool).
(** The reply channel of a rebind is named by the epoch of the [bridge.init] that waits on it. *)
Inductive PlaybackControlCommand :=
| StopAll (request : PlaybackStopRequest)
| RebindPhysicalOutput (device_id : string) (reply_epoch : Z)
| TerminateTranslationStream (cue_id : string).

(** [ProcessLoopbackLifecycleState], behind its own lock. *)
Record LoopbackEvidence := mk_evidence { ev_generation : Z; ev_status : string; ev_timestamp_ms : Z }.
Record Lifecycle := mk_lifecycle {
  lc_active_generation : option Z; lc_shutdown_requested : bool;
  lc_blocked_generation : option Z; lc_terminal : option LoopbackEvidence
}.
#[export] Instance lifecycle_settable : Settable Lifecycle := λ l,
  mk_lifecycle (lc_active_generation l) (lc_shutdown_requested l) (lc_blocked_generation l)
    (lc_terminal l).

(** [history] is not a field of the code: it remembers the order in which cue
    authorities were bound and statuses were put into the outbox. *)
Inductive Happened := Bound (cue_id : string) | Reported (event : TranslationPlaybackStatusEvent).

Record Bridge := mk_bridge_service {
  route : Route; mix : Mix; counters : Counters; cues : Cues;
  queue : TranslationPlaybackQueue; commands : list PlaybackCommand;
  controls : list PlaybackControlCommand; worker_gone : bool;
  lifecycle : Lifecycle; clock_reads : nat; history : list Happened
}.
#[export] Instance bridge_service_settable : Settable Bridge := λ b,
  mk_bridge_service (route b) (mix b) (counters b) (cues b) (queue b) (commands b) (controls b)
    (worker_gone b) (lifecycle b) (clock_reads b) (history b).

Definition on_route (f : Route → Route) : M Bridge unit := modify (λ b, b <| route ::= f |>).
Definition on_counters (f : Counters → Counters) : M Bridge unit :=
  modify (λ b, b <| counters ::= f |>).
Definition on_cues (f : Cues → Cues) : M Bridge unit := modify (λ b, b <| cues ::= f |>).
Definition add_dropped (n : Z) : M Bridge unit :=
  on_counters (λ c, c <| ct_dropped_frame_count ::= (λ d, wrapping_add d n) |>).
Definition set_error (code : string) : M Bridge unit :=
  on_route (λ r, r <| rt_last_error_code := Some code |>).

(** [mpsc::sync_channel(128)], an unbounded control channel. *)
Definition PLAYBACK_COMMAND_CAPACITY : nat := 128.
Definition try_send (c : PlaybackCommand) : M Bridge bool := λ b,
  if worker_gone b || (PLAYBACK_COMMAND_CAPACITY <=? length (commands b))%nat
  then (Ok false, b) else (Ok true, b <| commands ::= (λ q, q ++ [c]) |>).
Definition send_control (c : PlaybackControlCommand) : M Bridge bool := λ b,
  if worker_gone b then (Ok false, b) else (Ok true, b <| controls ::= (λ q, q ++ [c]) |>).

(** [source_generation_token(state, generation)]. *)
Definition token_of_generation (r : Route) (generation : Z) : string :=
  (rt_bridge_instance_id r +:+ ":" +:+ default "no-session" (rt_session_id r) +:+ ":"
   +:+ show_uint generation)%string.

(** ** Free functions of [control.rs] and [mod.rs] *)
Definition translation_non_playback_reason
    (playback_enabled translated_audio_enabled monitor_samples_empty : bool) : option string :=
  if negb playback_enabled then Some "translation-playback-disabled"
  else if monitor_samples_empty && negb translated_audio_enabled then Some "translated-audio-muted"
  else if monitor_samples_empty then Some "empty-translation-audio"
  else None.

Definition translation_terminal_status (error_code : option string) : TranslationPlaybackStatusKind :=
  match error_code with Some _ => RouteFailed | None => StaleDropped end.

Definition opt_eqs (a : option string) (b : string) : bool := bool_decide (a = Some b).

Definition translation_frame_has_current_authority (r : Route) (header : AudioFrameHeader) : bool :=
  negb (is_blank (session_id header))
  && eqs (session_id header) (default "" (rt_session_id r))
  && opt_eqs (bridge_instance_id header) (rt_bridge_instance_id r)
  && bool_decide (source_generation header = Some (rt_source_generation r))
  && opt_eqs (source_generation_token header) (token_of_generation r (rt_source_generation r))
  && bool_decide (playback_owner_generation header = Some (rt_playback_owner_generation r))
  && negb (is_blank (rt_resolved_physical_playback_device_id r))
  && opt_eqs (physical_playback_device_id header) (rt_resolved_physical_playback_device_id r).

Definition translation_cue_authority_from_header (header : AudioFrameHeader)
  : option TranslationCueAuthority :=
  match bridge_instance_id header, source_generation header, source_generation_token header,
        playback_owner_generation header, physical_playback_device_id header with
  | Some instance, Some generation, Some token, Some owner, Some device =>
      Some (mk_authority (session_id header) instance generation token owner device)
  | _, _, _, _, _ => None
  end.

Definition non_blank (s : option string) : option string :=
  match s with Some s => if is_blank s then None else Some s | None => None end.

(** The fields of the ledger key are joined with U+001F. *)
Definition key_separator : string := String (Ascii.ascii_of_nat 31) "".
Definition virtual_mic_ledger_key (header : AudioFrameHeader) : string :=
  join key_separator [
    default "" (cue_id header); session_id header; default "" (bridge_instance_id header);
    show_uint (default 0 (source_generation header));
    default "" (source_generation_token header);
    show_uint (default 0 (playback_owner_generation header));
    default "" (physical_playback_device_id header) ].

Definition virtual_mic_output_status_for_error (code : string) : string :=
  if eqs code "bridge.virtual-mic-driver-unavailable"
     || eqs code "bridge.virtual-mic-format-unsupported" then "unsupported" else "failed".

(** [frames.saturating_mul(1_000).div_ceil(INTERNAL_SAMPLE_RATE_HZ)]. *)
Definition duration_ms_of (frames : Z) : Z :=
  (Z.min (frames * 1000) u64_max + INTERNAL_SAMPLE_RATE_HZ - 1) / INTERNAL_SAMPLE_RATE_HZ.

Section Handlers.
Context (unix_ms_at : nat → Z) (key_order : list string → list string)
  (monitor_mix : Mix → AudioFrameHeader → list Z → list F32) (mic_generation : string → Z).

Definition unix_ms : M Bridge Z := λ b,
  (Ok (unix_ms_at (clock_reads b)), b <| clock_reads ::= S |>).

(** ** Statuses *)
Definition emit_translation_status_with_authority (authority : TranslationCueAuthority)
    (cue : option string) (status : TranslationPlaybackStatusKind) (reason : string)
    (error_code : option string) : M Bridge unit :=
  let* outbox := gets (λ b, cu_outbox (cues b)) in
  match next_status_id outbox with
  | None => panic "translation status sequence exhausted"
  | Some (status_id, outbox) =>
      let* timestamp := unix_ms in
      let event := mk_status status_id status_id (au_session_id authority)
        (au_bridge_instance_id authority) (au_source_generation authority)
        (au_source_generation_token authority) (au_playback_owner_generation authority)
        (au_physical_playback_device_id authority) (default "-" cue) status reason error_code
        timestamp in
      on_cues (λ c, c <| cu_outbox := push event outbox |>) ;;;
      modify (λ b, b <| history ::= (λ h, h ++ [Reported event]) |>)
  end.

Definition emit_translation_status (cue : option string) (status : TranslationPlaybackStatusKind)
    (reason : string) (error_code : option string) : M Bridge unit :=
  match cue with
  | None => ret tt
  | Some cue_id =>
      let* authority := gets (λ b, cu_authorities (cues b) !! cue_id) in
      when (is_terminal status)
        (on_cues (λ c, c <| cu_authorities ::= delete cue_id |>)) ;;;
      match authority with
      | None => ret tt
      | Some authority =>
          emit_translation_status_with_authority authority cue status reason error_code
      end
  end.

Definition bind_translation_cue_authority (header : AudioFrameHeader) : M Bridge unit :=
  match non_blank (cue_id header), translation_cue_authority_from_header header with
  | Some cue_id, Some authority =>
      on_cues (λ c, c <| cu_authorities ::= <[cue_id := authority]> |>) ;;;
      modify (λ b, b <| history ::= (λ h, h ++ [Bound cue_id]) |>)
  | _, _ => ret tt
  end.

Definition emit_translation_terminal (terminal : TranslationCueTerminal) : M Bridge unit :=
  emit_translation_status (tm_cue_id terminal) (tm_status terminal) (tm_reason terminal)
    (tm_error_code terminal).

Fixpoint for_each {A} (f : A → M Bridge unit) (l : list A) : M Bridge unit :=
  match l with [] => ret tt | x :: l => f x ;;; for_each f l end.

Definition next_translation_arrival_sequence : M Bridge Z :=
  let* sequence := gets (λ b, cu_translation_arrival_sequence (cues b)) in
  match checked_add sequence 1 with
  | None => panic "translation arrival sequence exhausted"
  | Some sequence =>
      on_cues (λ c, c <| cu_translation_arrival_sequence := sequence |>) ;;; ret sequence
  end.

(** ** Stopping all accepted playback *)
Definition request_playback_stop (reason : string) (error_code : option string)
  : M Bridge PlaybackStopRequest :=
  let recreate_output := eqs reason "physical-playback-device-changed" in
  let status := translation_terminal_status error_code in
  let terminal cue := mk_terminal cue status reason error_code in
  let* stop_through_generation := gets (λ b, cu_translation_generation (cues b)) in
  on_cues (λ c, c <| cu_translation_generation ::= (λ g, wrapping_add g 1) |>) ;;;
  let* cleared := gets (λ b, clear (queue b)) in
  modify (λ b, b <| queue := cleared.2 |>) ;;;
  let '(active, pending) := cleared.1 in
  let* streaming_cues := gets (λ b, key_order (active_cue_ids (cu_streams (cues b)))) in
  on_cues (λ c, c <| cu_streams ::= StreamLedger.reset |>) ;;;
  match active with Some active => add_dropped (ac_playback_frames active) | None => ret tt end ;;;
  for_each (λ job, add_dropped (sample_frames (job_samples job))) pending ;;;
  let terminated_cues :=
    (match active with Some active => [terminal (ac_cue_id active)] | None => [] end)
    ++ ((λ job, terminal (job_cue_id job)) <$> pending)
    ++ ((λ cue, terminal (Some cue)) <$> streaming_cues) in
  let* now := unix_ms in
  on_counters (λ c, c <| ct_translation_queue_end_timestamp_ms := now |>) ;;;
  for_each emit_translation_terminal terminated_cues ;;;
  let request := mk_stop reason error_code recreate_output stop_through_generation terminated_cues in
  send_control (StopAll request) ;;;
  ret request.

(** ** Streamed physical playback *)
Definition is_closing (s : TranslationStreamState) : bool :=
  match s with End_ | Abort_ => true | _ => false end.

Definition accept_frame (header : AudioFrameHeader) : M Bridge AudioFrameAck :=
  let* written := gets (λ b, ct_playback_frames_written (counters b)) in
  ret (accepted_audio_frame_ack header written).
Definition add_accepted (header : AudioFrameHeader) : M Bridge unit :=
  on_counters (λ c, c <| ct_translated_frames_accepted ::= (λ n, wrapping_add n (frame_count header)) |>).

Definition new_job (header : AudioFrameHeader) (samples : list F32) (cue : option string) (now sequence : Z)
    (b : Bridge) : PlaybackJob :=
  let duration := duration_ms_of (sample_frames samples) in
  mk_job samples (rt_physical_playback_device_id (route b))
    (Z.min (rt_physical_playback_level (route b)) 100) (mx_ducking_enabled (mix b))
    (mx_ducking_depth_percent (mix b)) (rt_source_generation (route b)) cue
    (default now (created_at_ms header)) (default duration (estimated_duration_ms header))
    duration (cu_translation_generation (cues b)) sequence.

Definition handle_physical_translation_stream_frame (header : AudioFrameHeader)
    (samples : list F32) (state : TranslationStreamState) : M Bridge AudioFrameAck :=
  let reject code message := ret (rejected_audio_frame_ack header code message) in
  match non_blank (cue_id header), chunk_index header with
  | None, _ => reject "bridge.invalid-audio-frame" "physical translation streams require cueId"
  | _, None => reject "bridge.invalid-audio-frame" "physical translation streams require chunkIndex"
  | Some cue, Some index =>
      let no_samples := bool_decide (samples = []) in
      if is_closing state && negb no_samples
      then reject "bridge.invalid-audio-frame" "physical translation stream end must have an empty payload" else
      if negb (is_closing state) && no_samples
      then reject "bridge.invalid-audio-frame" "physical translation stream audio chunks must not be empty" else
      let* b := gets id in
      match translation_non_playback_reason (rt_translation_playback_enabled (route b))
              (mx_translated_audio_enabled (mix b)) (negb (is_closing state) && no_samples) with
      | Some reason => reject "bridge.translation-playback-disabled" reason
      | None =>
      match prepare_physical_stream_admission (cu_streams (cues b)) cue index state
              (cu_translation_generation (cues b)) with
      | Err (Fail detail) | Err (Panic detail) => reject "bridge.invalid-audio-frame" detail
      | Ok (_, AdmitDuplicate) => accept_frame header
      | Ok (next_ledger, _) =>
          if bool_decide (state = Abort_) then
            let* sent := send_control (TerminateTranslationStream cue) in
            if negb sent
            then reject "bridge.translation-playback-failed"
                   "playback worker is unavailable to terminalize the physical translation stream"
            else
              let '(claimed, ledger) :=
                claim_terminal cue (cu_translation_generation (cues b)) (cu_streams (cues b)) in
              on_cues (λ c, c <| cu_streams := ledger |>) ;;;
              when claimed
                (emit_translation_terminal (mk_terminal (Some cue) RouteFailed
                   "physical-playback-stream-aborted" (Some "bridge.translation-playback-failed"))) ;;;
              accept_frame header
          else
            let* now := unix_ms in
            let* sequence := next_translation_arrival_sequence in
            let* sent := try_send (TranslationStream (new_job header samples (Some cue) now sequence b) state) in
            if negb sent
            then reject "bridge.queue-overflow" "physical translation stream command queue is full"
            else
              on_cues (λ c, c <| cu_streams := next_ledger |>) ;;;
              add_accepted header ;;;
              accept_frame header
      end end
  end.

(** ** Complete cues on the physical speaker *)
Definition report_expired (job : PlaybackJob) : M Bridge unit :=
  add_dropped (sample_frames (job_samples job)) ;;;
  emit_translation_status (job_cue_id job) StaleDropped "realtime-budget" None.

Definition handle_complete_cue (header : AudioFrameHeader) (samples : list F32)
  : M Bridge AudioFrameAck :=
  let* now := unix_ms in
  let* sequence := next_translation_arrival_sequence in
  let* b := gets id in
  let job := new_job header samples (cue_id header) now sequence b in
  let '(result, next_queue) := enqueue job now (queue b) in
  modify (λ b, b <| queue := next_queue |>) ;;;
  match result with
  | inl outcome =>
      for_each report_expired (eo_dropped outcome) ;;;
      on_route (λ r, r <| rt_monitor_playback_state := "queued" |>) ;;;
      on_counters (λ c, c <| ct_translation_queue_end_timestamp_ms := eo_projected_end_ms outcome |>) ;;;
      try_send TranslationQueued ;;;
      emit_translation_status (cue_id header) Queued "accepted" None ;;;
      add_accepted header ;;;
      accept_frame header
  | inr failure =>
      for_each report_expired (ef_dropped failure) ;;;
      on_counters (λ c, c <| ct_translation_queue_end_timestamp_ms := projected_end_ms now next_queue |>) ;;;
      add_dropped (sample_frames samples) ;;;
      set_error "bridge.queue-overflow" ;;;
      emit_translation_status (job_cue_id (ef_job failure)) RouteFailed "queue-overflow"
        (Some "bridge.queue-overflow") ;;;
      ret (rejected_audio_frame_ack header "bridge.queue-overflow"
        match ef_reason failure with
        | QueueFull =>
            "translation queue is full and every pending cue is still within its realtime budget"
        | RealtimeBudget =>
            "translation would start outside the 5 second realtime budget and no expired pending cue can be removed"
        end)
  end.

Definition handle_physical_translation_frame (header : AudioFrameHeader) (samples : list F32)
  : M Bridge AudioFrameAck :=
  let* b := gets id in
  if rt_translation_playback_enabled (route b) && mx_translated_audio_enabled (mix b)
     && negb (eqs (rt_physical_playback_status (route b)) "ready")
  then
    add_dropped (frame_count header) ;;;
    ret (rejected_audio_frame_ack header "bridge.translation-generation-ended"
           "physical translation playback owner is not ready")
  else
  match stream_state header with
  | Some state => handle_physical_translation_stream_frame header samples state
  | None =>
      match translation_non_playback_reason (rt_translation_playback_enabled (route b))
              (mx_translated_audio_enabled (mix b)) (bool_decide (samples = [])) with
      | Some reason =>
          add_dropped (frame_count header) ;;;
          emit_translation_terminal (mk_terminal (cue_id header) StaleDropped reason None) ;;;
          add_accepted header ;;;
          accept_frame header
      | None => handle_complete_cue header samples
      end
  end.

(** ** The virtual microphone *)
Record MicOutcome := mk_mic_outcome { mo_frames_written : Z; mo_session_active : bool }.
Definition MicError : Type := string * string.
(** What the handler writes to the driver after it released the lock. *)
Record MicWriteRequest := mk_mic_request {
  mw_header : AudioFrameHeader; mw_generation : Z; mw_samples : list F32
}.

Definition on_vmic {A} (f : VirtualMicCueLedger → A * VirtualMicCueLedger) : M Bridge A := λ b,
  let '(a, l) := f (cu_virtual_mic (cues b)) in (Ok a, b <| cues ::= (λ c, c <| cu_virtual_mic := l |>) |>).

Definition begin_virtual_mic_frame (header : AudioFrameHeader) (samples : list F32)
  : M Bridge (AudioFrameAck + MicWriteRequest) :=
  let index := default 0 (chunk_index header) in
  let count := default 1 (chunk_count header) in
  let key := virtual_mic_ledger_key header in
  let* requested := gets (λ b, rt_virtual_mic_output_requested (route b)) in
  if negb requested then
    let code := "bridge.virtual-mic-output-unavailable" in
    add_dropped (frame_count header) ;;;
    set_error code ;;;
    let* fresh := on_vmic (complete_terminal key) in
    when fresh (emit_translation_status (cue_id header) RouteFailed
                  "virtual-mic-output-not-requested" (Some code)) ;;;
    ret (inl (rejected_audio_frame_ack header code
                "virtual microphone output was not enabled during bridge.init"))
  else
  let* admission := on_vmic (begin key index count) in
  match admission with
  | Ok MicDuplicate => let* ack := accept_frame header in ret (inl ack)
  | Err (Fail reason) | Err (Panic reason) =>
      let code := "bridge.invalid-pcm-payload" in
      let* fresh := on_vmic (complete_terminal key) in
      add_dropped (frame_count header) ;;;
      set_error code ;;;
      when fresh (emit_translation_status (cue_id header) RouteFailed reason (Some code)) ;;;
      ret (inl (rejected_audio_frame_ack header code
             "virtual microphone cue chunks must be ordered and keep a stable chunkCount"))
  | Ok (MicWrite emit_queued) =>
      let* b := gets id in
      match translation_non_playback_reason true (mx_translated_audio_enabled (mix b))
              (bool_decide (samples = [])) with
      | Some reason =>
          add_dropped (frame_count header) ;;;
          let* fresh := on_vmic (complete_terminal key) in
          when fresh
            (emit_translation_terminal (mk_terminal (cue_id header) StaleDropped reason None)) ;;;
          let* ack := accept_frame header in ret (inl ack)
      | None =>
          when emit_queued
            (emit_translation_status (cue_id header) Queued "virtual-mic-write-queued" None) ;;;
          ret (inr (mk_mic_request header
                      (mic_generation (default "" (rt_session_id (route b)))) samples))
      end
  end.

Definition finish_virtual_mic_frame (request : MicWriteRequest) (result : MicOutcome + MicError)
  : M Bridge AudioFrameAck :=
  let header := mw_header request in
  let index := default 0 (chunk_index header) in
  let key := virtual_mic_ledger_key header in
  let* b := gets id in
  if negb (translation_frame_has_current_authority (route b) header) then
    on_vmic (complete_terminal key) ;;;
    match translation_cue_authority_from_header header with
    | Some authority =>
        emit_translation_status_with_authority authority (cue_id header) RouteFailed
          "virtual-mic-authority-superseded-during-write"
          (Some "bridge.translation-generation-ended")
    | None => ret tt
    end ;;;
    ret (rejected_audio_frame_ack header "bridge.translation-generation-ended"
           "virtual microphone authority changed while the driver write was in flight")
  else
  match result with
  | inl outcome =>
      let* lifecycle := on_vmic (complete_success key index) in
      let '(emit_started, emit_completed) := default (false, false) lifecycle in
      add_accepted header ;;;
      on_counters (λ c, c <| ct_virtual_mic_frames_written ::= (λ n, saturating_add n (mo_frames_written outcome)) |>
        <| ct_virtual_mic_last_generation := mw_generation request |>
        <| ct_virtual_mic_output_supported := true |>
        <| ct_virtual_mic_output_status := "ready" |>
        <| ct_virtual_mic_session_active := true |>) ;;;
      on_route (λ r, r <| rt_last_error_code := None |>) ;;;
      when emit_started
        (emit_translation_status (cue_id header) Started "virtual-mic-write-started" None) ;;;
      when emit_completed
        (emit_translation_status (cue_id header) Completed "virtual-mic-written" None) ;;;
      accept_frame header
  | inr (code, detail) =>
      let* fresh := on_vmic (complete_terminal key) in
      add_dropped (frame_count header) ;;;
      let status := virtual_mic_output_status_for_error code in
      on_counters (λ c, c <| ct_virtual_mic_write_failures ::= (λ n, saturating_add n 1) |>
        <| ct_virtual_mic_output_status := status |>
        <| ct_virtual_mic_output_supported := negb (eqs status "unsupported") |>
        <| ct_virtual_mic_session_active := false |>) ;;;
      set_error code ;;;
      when fresh
        (emit_translation_status (cue_id header) RouteFailed "virtual-mic-write-failed" (Some code)) ;;;
      ret (rejected_audio_frame_ack header code detail)
  end.

(** ** One connection of the audio pipe *)
Definition MAX_AUDIO_FRAME_HEADER_BYTES : Z := 65536.
Definition MAX_AUDIO_FRAME_PAYLOAD_BYTES : Z := 4194304.

(** [handle_audio_client] from the decoded header on. *)
Definition handle_translation_frame (header : AudioFrameHeader) (payload : list Z)
  : M Bridge (AudioFrameAck + MicWriteRequest) :=
  let reject code message := ret (inl (rejected_audio_frame_ack header code message)) in
  let* b := gets id in
  let physical := bool_decide (translation_sink header = Some PhysicalPlayback) in
  if negb (translation_frame_has_current_authority (route b) header) then
    add_dropped (frame_count header) ;;;
    reject "bridge.translation-generation-ended"
      "translation frame belongs to a superseded or incomplete authority tuple"
  else
  match translation_dispatch_error header with
  | Some (code, reason, message) =>
      add_dropped (frame_count header) ;;;
      set_error code ;;;
      emit_translation_status (cue_id header) RouteFailed reason (Some code) ;;;
      reject code message
  | None =>
  if physical && bool_decide (rt_source_capture_mode (route b) = ProcessExclusion)
     && negb (bool_decide (rt_process_loopback_status (route b) = Ready)) then
    let code := match rt_last_error_code (route b) with
                | Some code => if String.prefix "bridge.process-loopback-" code then code
                               else "bridge.process-loopback-capture-failed"
                | None => "bridge.process-loopback-capture-failed"
                end in
    add_dropped (frame_count header) ;;;
    reject code "process-exclusion route is not ready; translation playback was not queued"
  else if physical && rt_translation_playback_enabled (route b)
          && negb (eqs (rt_physical_playback_status (route b)) "ready") then
    add_dropped (frame_count header) ;;;
    reject "bridge.translation-generation-ended"
      "physical translation frame belongs to a superseded playback owner"
  else
  match validate_translation_frame (rt_session_id (route b)) header payload with
  | inr ack =>
      add_dropped (frame_count header) ;;;
      on_route (λ r, r <| rt_last_error_code := ack_error_code ack |>) ;;;
      ret (inl ack)
  | inl samples =>
      bind_translation_cue_authority header ;;;
      on_counters (λ c, c <| ct_last_frame_timestamp_ms := Some (timestamp_ms header) |>) ;;;
      let monitor_samples := monitor_mix (mix b) header samples in
      if bool_decide (translation_sink header = Some VirtualMic)
      then begin_virtual_mic_frame header monitor_samples
      else let* ack := handle_physical_translation_frame header monitor_samples in ret (inl ack)
  end end.

(** What the pipe delivered: the header length, the parsed header, the payload
    bytes read. A connection that breaks off or is malformed gets no answer. *)
Definition handle_audio_client (header_len : Z) (header : option AudioFrameHeader)
    (payload : option (list Z)) : M Bridge (option (AudioFrameAck + MicWriteRequest)) :=
  if (header_len =? 0) || (MAX_AUDIO_FRAME_HEADER_BYTES <? header_len) then ret None else
  match header with
  | None => ret None
  | Some header =>
      if MAX_AUDIO_FRAME_PAYLOAD_BYTES <? payload_bytes header then ret None else
      match payload with
      | None => ret None
      | Some payload => let* result := handle_translation_frame header payload in ret (Some result)
      end
  end.
End Handlers.
