(* ===== verification/BridgeControl.v ===== *)
(** * The native Bridge's control plane

    Models the commands of the control pipe
    ([apps/bridge-service-native/src/windows/control.rs], [control/shutdown.rs]),
    the source subscription ([windows/playback.rs]), the life cycle of process
    loopback capture ([windows/mod.rs]) and its failure
    ([windows/capture_process.rs]). A command that waits gives up the lock: it is
    one run of the monad per lock it takes. What it finds out between two locks
    (Windows build, activation, driver, endpoint) is an argument. *)
From S2P Require Import Prelude RustStr TaskLifecycle SpeechRoute BridgeProtocol BridgeCues BridgeFrames.
Import StreamLedger VirtualMicLedger PlaybackQueue StatusOutbox.

(** ** Capture life cycle ([ProcessLoopbackLifecycle]) *)
Definition on_lifecycle {A} (f : Lifecycle → A * Lifecycle) : M Bridge A := λ b,
  let '(a, l) := f (lifecycle b) in (Ok a, b <| lifecycle := l |>).

Definition begin_generation (generation : Z) (l : Lifecycle) : bool * Lifecycle :=
  if lc_shutdown_requested l then (false, l)
  else (true, l <| lc_active_generation := Some generation |>).

Definition publish_terminal (evidence : LoopbackEvidence) (l : Lifecycle) : Lifecycle :=
  let l := if bool_decide (lc_active_generation l = Some (ev_generation evidence))
           then l <| lc_active_generation := None |> else l in
  l <| lc_terminal := Some evidence |>.

Definition request_shutdown (fallback_generation : Z) (l : Lifecycle) : Z * Lifecycle :=
  let requested := if lc_shutdown_requested l then lc_blocked_generation l else None in
  let blocked := match requested with
                 | Some generation => generation
                 | None => default fallback_generation (lc_active_generation l)
                 end in
  (blocked, l <| lc_shutdown_requested := true |> <| lc_blocked_generation := Some blocked |>).

Definition terminal_of (generation : Z) (l : Lifecycle) : option LoopbackEvidence :=
  match lc_terminal l with
  | Some evidence => if ev_generation evidence =? generation then Some evidence else None
  | None => None
  end.

(** The part of [wait_for_shutdown_terminal] before it blocks: the evidence, or
    the generation whose terminal it waits for. *)
Definition begin_wait (blocked_generation now : Z) (l : Lifecycle)
  : (LoopbackEvidence + Z) * Lifecycle :=
  match terminal_of blocked_generation l with
  | Some evidence => (inl evidence, l)
  | None =>
      match lc_active_generation l with
      | None =>
          let evidence := mk_evidence blocked_generation "not-active" now in
          (inl evidence, l <| lc_terminal := Some evidence |>)
      | Some active => (inr active, l)
      end
  end.
(** One wake-up: [None] waits on, [Some None] is the timeout error. *)
Definition end_wait (active_generation : Z) (timed_out : bool) (l : Lifecycle)
  : option (option LoopbackEvidence) :=
  match terminal_of active_generation l with
  | Some evidence => Some (Some evidence)
  | None => if timed_out then Some None else None
  end.

Definition authorizes_shutdown (requested_generation : Z) (evidence : LoopbackEvidence) : bool :=
  (ev_generation evidence =? requested_generation)
  && (eqs (ev_status evidence) "stopped" || eqs (ev_status evidence) "not-active").

(** ** The source subscription *)
Definition begin_source_subscription (r : Route) : (Z * Z) * Route :=
  let previous := rt_source_generation r in
  let next := wrapping_add previous 1 in
  ((next, previous), r <| rt_source_generation := next |> <| rt_source_subscriber_active := true |>).

Definition source_subscription_is_owner (r : Route) (generation : Z) : bool :=
  rt_source_subscriber_active r && (rt_source_generation r =? generation).

Definition end_source_subscription (generation : Z) (r : Route) : bool * Route :=
  if negb (source_subscription_is_owner r generation) then (false, r)
  else (true, r <| rt_source_subscriber_active := false |>
                <| rt_source_generation ::= (λ g, wrapping_add g 1) |>).

(** [receive_owned_source_payload]: the route before and after the wait, and
    what the wait received. *)
Definition receive_owned_source_payload {A} (before after : Route) (generation : Z) (payload : A)
  : option A :=
  if negb (source_subscription_is_owner before generation) then None
  else if negb (source_subscription_is_owner after generation) then None
  else Some payload.

(** ** Driver and Windows capability *)
Definition PROCESS_LOOPBACK_MINIMUM_WINDOWS_BUILD : Z := 20348.
Definition classify_process_loopback_capability (windows_build_number : option Z)
  : bool * ProcessLoopbackStatus :=
  match windows_build_number with
  | Some build =>
      if PROCESS_LOOPBACK_MINIMUM_WINDOWS_BUILD <=? build then (true, Unknown)
      else (false, Unsupported)
  | None => (false, Failed)
  end.

Record DriverInstallState := mk_install {
  in_driver_backend : string; in_driver_version : string; in_bridge_version : string
}.
Definition classify_driver_health_with_device_evidence (install_state : option DriverInstallState)
    (expected_driver_version expected_bridge_version : string) (control_device_available : bool)
  : string :=
  match install_state with
  | None => if control_device_available then "running" else "not-installed"
  | Some state =>
      if negb (eqs (in_driver_backend state) "sysvad-wave-rt") then "damaged"
      else if negb (eqs (in_driver_version state) expected_driver_version)
              || negb (eqs (in_bridge_version state) expected_bridge_version)
      then "version-mismatch" else "running"
  end.

Definition process_loopback_init_activation (requested : SourceCaptureMode)
    (preserves_active_process_route process_loopback_supported : bool)
    (detected_windows_build : option Z) (activate : option string) : option (string * string) :=
  if negb (bool_decide (requested = ProcessExclusion)) || preserves_active_process_route then None
  else if process_loopback_supported
  then (λ detail, ("bridge.process-loopback-activation-failed", detail)) <$> activate
  else Some ("bridge.process-loopback-unsupported",
    "process loopback exclusion requires Windows build " +:+
    show_uint PROCESS_LOOPBACK_MINIMUM_WINDOWS_BUILD +:+ " or newer; detected build " +:+
    from_option show_uint "unknown" detected_windows_build)%string.

Definition source_monitor_playback_enabled (mode : SourceCaptureMode) (requested : bool) : bool :=
  requested && bool_decide (mode = VirtualDriver).
Definition translation_playback_enabled (mode : SourceCaptureMode) (requested : bool) : bool :=
  requested || bool_decide (mode = ProcessExclusion).
Definition capture_route_is_ready (mode : SourceCaptureMode) (driver_health : string)
    (status : ProcessLoopbackStatus) : bool :=
  match mode with
  | CaptureNone => true
  | VirtualDriver => eqs driver_health "running"
  | ProcessExclusion => bool_decide (status = Ready)
  end.

(** ** Commands and replies *)
Definition BRIDGE_PROTOCOL_VERSION : string := "2026-08-27-audio-routing-v8".

(** The fields of the JSON command [bridge.init], absent or of the wrong type as [None]. *)
Record InitCommand := mk_init {
  ic_protocol_version : option string; ic_source_capture_mode : option string;
  ic_session_id : option string; ic_expected_driver_version : option string;
  ic_expected_bridge_version : option string; ic_virtual_mic_output_requested : option bool;
  ic_physical_playback_device_id : option string;
  ic_previous_playback_owner_generation : option Z; ic_physical_playback_level : option Z;
  ic_monitor_playback_enabled : option bool; ic_translation_playback_enabled : option bool;
  ic_mix : option Mix
}.
(** What the machine answers while [bridge.init] holds no lock. *)
Record InitEnvironment := mk_init_env {
  ie_windows_build_number : option Z; ie_activation_failure : option string;
  ie_install_state : option DriverInstallState; ie_control_device_available : bool;
  ie_virtual_mic_capability : option (bool + MicError)
}.

Inductive ControlReply :=
| InitAck (r : Route)
| ProbeAck (r : Route) (error_code : option string)
| StateSnapshot (r : Route)
| BridgeError (code message : string) (r : Route).

Definition bridge_error (code message : string) : M Bridge ControlReply :=
  let* r := gets route in ret (BridgeError code message r).

Definition capture_mode_of (name : string) : option SourceCaptureMode :=
  if eqs name "none" then Some CaptureNone
  else if eqs name "virtual-driver" then Some VirtualDriver
  else if eqs name "process-exclusion" then Some ProcessExclusion else None.
Definition backend_of (mode : SourceCaptureMode) : CaptureBackend :=
  match mode with
  | CaptureNone => BackendNone | VirtualDriver => DriverVirtualSpeaker
  | ProcessExclusion => WasapiProcessExclusion
  end.

(** What the first lock of [bridge.init] decides: the requested mode and the
    capability kept when the same session keeps its ready process route. *)
Record InitPlan := mk_plan {
  ip_mode : SourceCaptureMode; ip_preserved : option (bool * ProcessLoopbackStatus * option Z)
}.
Definition plan_init (command : InitCommand) : M Bridge (ControlReply + InitPlan) :=
  if negb (eqs (default "" (ic_protocol_version command)) BRIDGE_PROTOCOL_VERSION)
  then let* e := bridge_error "driver.version-mismatch"
                   "desktop and native bridge protocol versions do not match" in ret (inl e)
  else
  let name := default "none" (ic_source_capture_mode command) in
  match capture_mode_of name with
  | None => let* e := bridge_error "bridge.timeout" ("unsupported sourceCaptureMode: " +:+ name) in
            ret (inl e)
  | Some mode =>
      let* r := gets route in
      let preserved :=
        if bool_decide (mode = ProcessExclusion)
           && bool_decide (rt_source_capture_mode r = ProcessExclusion)
           && bool_decide (rt_process_loopback_status r = Ready)
           && bool_decide (rt_session_id r = ic_session_id command)
        then Some (rt_process_loopback_supported r, rt_process_loopback_status r,
                   rt_windows_build_number r)
        else None in
      ret (inr (mk_plan mode preserved))
  end.

(** What [bridge.init] waits for after the second lock. *)
Record RebindWait := mk_rebind_wait { rw_epoch : Z; rw_owner_generation : Z }.

Section Commands.
Context (unix_ms_at : nat → Z) (key_order : list string → list string).
Abbreviation unix_ms := (unix_ms unix_ms_at).
Abbreviation request_playback_stop := (request_playback_stop unix_ms_at key_order).

Definition apply_virtual_mic_capability (capability : option (bool + MicError)) : M Bridge unit :=
  match capability with
  | None => ret tt
  | Some (inl session_active) =>
      on_counters (λ c, c <| ct_virtual_mic_output_supported := true |>
        <| ct_virtual_mic_output_status := "ready" |>
        <| ct_virtual_mic_session_active := session_active |>)
  | Some (inr (code, _)) =>
      let status := virtual_mic_output_status_for_error code in
      on_counters (λ c, c <| ct_virtual_mic_output_status := status |>
        <| ct_virtual_mic_output_supported := negb (eqs status "unsupported") |>)
  end.

Definition reset_source_counters (c : Counters) : Counters :=
  c <| ct_source_pending_bytes := 0 |> <| ct_source_pacer_queued_frames := 0 |>
    <| ct_monitor_source_queued_frames := 0 |>.

Definition accepted_translation_work (b : Bridge) : bool :=
  negb (bool_decide (active_cue_ids (cu_streams (cues b)) = []))
  || is_Some_b (q_active (queue b)) || negb (bool_decide (pending (queue b) = [])).

(** The configuration part of the second lock, up to the activation result. *)
Definition configure_init (command : InitCommand) (plan : InitPlan) (env : InitEnvironment)
  : M Bridge unit :=
  let mode := ip_mode plan in
  let build := match ip_preserved plan with
               | Some (_, _, Some build) => Some build
               | _ => ie_windows_build_number env
               end in
  let '(supported, status) := match ip_preserved plan with
                              | Some (supported, status, _) => (supported, status)
                              | None => classify_process_loopback_capability build
                              end in
  let driver := bool_decide (mode = VirtualDriver) in
  let install := if driver then ie_install_state env else None in
  let available := driver && ie_control_device_available env in
  let mic := default false (ic_virtual_mic_output_requested command) in
  let capability := if mic then ie_virtual_mic_capability env else None in
  let* b := gets id in
  let r := route b in
  on_route (λ r, r <| rt_init_epoch ::= (λ e, wrapping_add e 1) |>) ;;;
  let mode_changed := negb (bool_decide (rt_source_capture_mode r = mode)) in
  let session_changed := negb (bool_decide (rt_session_id r = ic_session_id command)) in
  let mic_changed := negb (eqb (rt_virtual_mic_output_requested r) mic) in
  when (mode_changed || session_changed || mic_changed)
    (on_counters (λ c, c <| ct_virtual_mic_session_active := false |>) ;;;
     on_cues (λ c, c <| cu_virtual_mic ::= VirtualMicLedger.reset |>)) ;;;
  on_route (λ r, r <| rt_virtual_mic_output_requested := mic |>
    <| rt_process_loopback_supported := supported |> <| rt_process_loopback_status := status |>
    <| rt_windows_build_number := build |> <| rt_process_loopback_failure_detail := None |>
    <| rt_last_error_code := None |> <| rt_source_capture_mode := mode |>
    <| rt_capture_backend := backend_of mode |>) ;;;
  apply_virtual_mic_capability capability ;;;
  (if driver then
     let health := classify_driver_health_with_device_evidence install
                     (default "" (ic_expected_driver_version command))
                     (default "" (ic_expected_bridge_version command)) available in
     let damaged := eqs health "running" && negb available in
     on_route (λ r, r <| rt_driver_health := if damaged then "damaged" else health |>
       <| rt_last_error_code := if damaged then Some "driver.control-device-unavailable"
                                else rt_last_error_code r |>
       <| rt_driver_version := in_driver_version <$> install |>)
   else on_route (λ r, r <| rt_driver_health := "not-installed" |> <| rt_driver_version := None |>)) ;;;
  let monitor := default true (ic_monitor_playback_enabled command) in
  let translation := default monitor (ic_translation_playback_enabled command) in
  on_route (λ r, r <| rt_session_id := ic_session_id command |>
    <| rt_physical_playback_device_id := default "" (ic_physical_playback_device_id command) |>
    <| rt_physical_playback_level := Z.min (default 100 (ic_physical_playback_level command)) 100 |>
    <| rt_translation_playback_enabled := translation_playback_enabled mode translation |>
    <| rt_source_monitor_playback_enabled := source_monitor_playback_enabled mode monitor |>) ;;;
  modify (λ b, b <| mix := default (mk_mix true true 35) (ic_mix command) |>) ;;;
  when (mode_changed || session_changed)
    (on_route (λ r, r <| rt_source_subscriber_active := false |>
       <| rt_source_generation ::= (λ g, wrapping_add g 1) |>) ;;;
     on_counters reset_source_counters).

Definition reconfiguration_reason (before : Route) (command : InitCommand) (after : Route)
  : option string :=
  if negb (bool_decide (rt_session_id before = ic_session_id command)) then Some "session-changed"
  else if negb (bool_decide (rt_source_capture_mode before = rt_source_capture_mode after))
  then Some "capture-mode-changed"
  else if negb (eqs (rt_physical_playback_device_id before) (rt_physical_playback_device_id after))
  then Some "physical-playback-device-changed"
  else if negb (eqb (rt_translation_playback_enabled before) (rt_translation_playback_enabled after))
  then Some "translation-playback-setting-changed"
  else None.

Definition finish_route : M Bridge ControlReply :=
  let* r := gets route in
  let ready := capture_route_is_ready (rt_source_capture_mode r) (rt_driver_health r)
                 (rt_process_loopback_status r)
               && (negb (rt_translation_playback_enabled r)
                   || eqs (rt_physical_playback_status r) "ready") in
  on_route (λ r, r <| rt_bridge_state := if ready then "running" else "degraded" |>
    <| rt_lifecycle_state := if ready then "ready" else "error" |>) ;;;
  let* r := gets route in ret (InitAck r).

(** The whole second lock of [bridge.init]. *)
Definition apply_init (command : InitCommand) (plan : InitPlan) (env : InitEnvironment)
  : M Bridge (ControlReply + RebindWait) :=
  let mode := ip_mode plan in
  let* before := gets route in
  configure_init command plan env ;;;
  let* supported := gets (λ b, rt_process_loopback_supported (route b)) in
  let* build := gets (λ b, rt_windows_build_number (route b)) in
  match process_loopback_init_activation mode (is_Some_b (ip_preserved plan)) supported build
          (ie_activation_failure env) with
  | Some (code, detail) =>
      let unsupported := eqs code "bridge.process-loopback-unsupported" in
      on_route (λ r, r
        <| rt_process_loopback_status := if unsupported then Unsupported else Failed |>
        <| rt_process_loopback_failure_detail := Some detail |>
        <| rt_last_error_code := Some code |> <| rt_bridge_state := "degraded" |>
        <| rt_lifecycle_state := "error" |>) ;;;
      request_playback_stop
        (if unsupported then "process-loopback-unsupported"
         else "process-loopback-activation-failed") (Some code) ;;;
      let* e := bridge_error code detail in ret (inl e)
  | None =>
      when (bool_decide (mode = ProcessExclusion))
        (on_route (λ r, r <| rt_process_loopback_status := Ready |>
                          <| rt_last_error_code := None |>)) ;;;
      let* b := gets id in
      let reason := reconfiguration_reason before command (route b) in
      let work := accepted_translation_work b in
      let reset_ledger :=
        negb (bool_decide (rt_source_capture_mode before = mode))
        || negb (bool_decide (rt_session_id before = ic_session_id command)) in
      (if work
       then request_playback_stop (default "bridge-init-owner-change" reason) None ;;; ret tt
       else when reset_ledger (on_cues (λ c, c <| cu_streams ::= StreamLedger.reset |>))) ;;;
      if rt_translation_playback_enabled (route b) then
        on_route (λ r, r <| rt_physical_playback_status := "rebinding" |>
          <| rt_resolved_physical_playback_device_id := "" |> <| rt_bridge_state := "starting" |>
          <| rt_lifecycle_state := "initializing" |>) ;;;
        let* now := unix_ms in
        let* r := gets route in
        let next_owner :=
          Z.max (Z.max (Z.max now
            (saturating_add (default 0 (ic_previous_playback_owner_generation command)) 1))
            (saturating_add (rt_playback_owner_generation r) 1))
            (saturating_add (rt_playback_owner_reservation r) 1) in
        on_route (λ r, r <| rt_playback_owner_reservation := next_owner |>) ;;;
        ret (inr (mk_rebind_wait (rt_init_epoch r) next_owner))
      else
        on_route (λ r, r <| rt_physical_playback_status := "uninitialized" |>
          <| rt_resolved_physical_playback_device_id := "" |>) ;;;
        match reason with
        | Some reason => if work then ret tt else (request_playback_stop reason None ;;; ret tt)
        | None => ret tt
        end ;;;
        let* ack := finish_route in ret (inl ack)
  end.

(** After the lock is dropped the rebind is sent to the playback worker. *)
Definition send_rebind (wait : RebindWait) : M Bridge bool :=
  let* device := gets (λ b, rt_physical_playback_device_id (route b)) in
  send_control (RebindPhysicalOutput device (rw_epoch wait)).

(** The third lock: the endpoint the worker bound, or why it did not. *)
Definition finish_init (wait : RebindWait) (result : string + string) : M Bridge ControlReply :=
  let* r := gets route in
  if negb (rt_init_epoch r =? rw_epoch wait)
  then bridge_error "bridge.timeout" "bridge.init completion was superseded by a newer init owner"
  else
  match result with
  | inl endpoint =>
      on_route (λ r, r <| rt_resolved_physical_playback_device_id := endpoint |>
        <| rt_physical_playback_status := "ready" |>
        <| rt_playback_owner_generation := rw_owner_generation wait |>) ;;;
      finish_route
  | inr detail =>
      on_route (λ r, r <| rt_physical_playback_status := "failed" |>
        <| rt_last_error_code := Some "bridge.physical-playback-rebind-failed" |>
        <| rt_bridge_state := "degraded" |> <| rt_lifecycle_state := "error" |>) ;;;
      bridge_error "bridge.physical-playback-rebind-failed" detail
  end.

(** ** Source flush *)
Definition flush_source_capture : M Bridge unit :=
  on_route (λ r, r <| rt_source_subscriber_active := false |>
    <| rt_source_generation ::= (λ g, wrapping_add g 1) |>) ;;;
  on_counters reset_source_counters.

(** The blocking send of [FlushSource] failed, or its reply channel was dropped. *)
Inductive FlushFailure := FlushDisconnected (error : string) | FlushNotApplied (error : string).
Definition answer_flush (failure : option FlushFailure) : M Bridge ControlReply :=
  match failure with
  | None => let* r := gets route in ret (StateSnapshot r)
  | Some failure =>
      set_error "bridge.source-flush-failed" ;;;
      bridge_error "bridge.source-flush-failed"
        match failure with
        | FlushDisconnected error =>
            "source playback boundary consumer disconnected: " +:+ error
        | FlushNotApplied error => "source playback boundary was not applied: " +:+ error
        end
  end.

(** ** The capability probe ([handle_process_loopback_probe]) *)
Definition loopback_code (code : option string) : option string :=
  match code with
  | Some code => if String.prefix "bridge.process-loopback-" code then Some code else None
  | None => None
  end.
(** What the probe answers while a process route owns the status. *)
Definition active_route_ack (r : Route) : ControlReply :=
  ProbeAck r (if bool_decide (rt_process_loopback_status r = Ready) then None
              else loopback_code (rt_last_error_code r)).

Definition begin_probe (detected_windows_build : option Z)
  : M Bridge (ControlReply + (bool * ProcessLoopbackStatus)) :=
  let* r := gets route in
  if bool_decide (rt_source_capture_mode r = ProcessExclusion) then ret (inl (active_route_ack r))
  else
  let '(supported, classified) := classify_process_loopback_capability detected_windows_build in
  on_route (λ r, r <| rt_windows_build_number := detected_windows_build |>
    <| rt_process_loopback_supported := supported |>
    <| rt_process_loopback_status := if supported then Probing else classified |>
    <| rt_process_loopback_failure_detail := None |>) ;;;
  ret (inr (supported, classified)).

Definition finish_probe (detected_windows_build : option Z) (supported : bool)
    (classified : ProcessLoopbackStatus) (activation_failure : option string)
  : M Bridge ControlReply :=
  let* r := gets route in
  if bool_decide (rt_source_capture_mode r = ProcessExclusion) then ret (active_route_ack r)
  else
  let '(status, code, detail) :=
    if negb supported then
      if bool_decide (classified = Unsupported)
      then (Unsupported, Some "bridge.process-loopback-unsupported",
            Some ("process loopback exclusion requires Windows build " +:+
              show_uint PROCESS_LOOPBACK_MINIMUM_WINDOWS_BUILD +:+ " or newer; detected build " +:+
              from_option show_uint "unknown" detected_windows_build)%string)
      else (Failed, Some "bridge.process-loopback-activation-failed",
            Some "Windows build detection failed before process-loopback activation")
    else match activation_failure with
         | None => (Ready, None, None)
         | Some detail => (Failed, Some "bridge.process-loopback-activation-failed", Some detail)
         end in
  on_route (λ r, r <| rt_process_loopback_status := status |>
    <| rt_process_loopback_failure_detail := detail |>
    <| rt_last_error_code :=
         match code with
         | Some code => Some code
         | None => if is_Some_b (loopback_code (rt_last_error_code r)) then None
                   else rt_last_error_code r
         end |>) ;;;
  let* r := gets route in ret (ProbeAck r code).

(** ** Capture failure *)
Definition fail_process_loopback_route (detail : string) : M Bridge (option PlaybackStopRequest) :=
  let* r := gets route in
  if negb (bool_decide (rt_source_capture_mode r = ProcessExclusion)) then ret None else
  on_route (λ r, r <| rt_process_loopback_status := Failed |>
    <| rt_process_loopback_failure_detail := Some detail |>
    <| rt_last_error_code := Some "bridge.process-loopback-capture-failed" |>
    <| rt_bridge_state := "degraded" |> <| rt_lifecycle_state := "error" |>
    <| rt_source_subscriber_active := false |>
    <| rt_source_generation ::= (λ g, wrapping_add g 1) |>) ;;;
  let* request := request_playback_stop "process-loopback-capture-failed"
                    (Some "bridge.process-loopback-capture-failed") in
  ret (Some request).

(** ** Shutdown ([handle_bridge_shutdown]) *)
Definition reset_translation_cue_ledgers : M Bridge unit :=
  on_cues (λ c, c <| cu_virtual_mic ::= VirtualMicLedger.reset |>
                  <| cu_streams ::= StreamLedger.reset |>).

Definition begin_shutdown : M Bridge Z :=
  let* fallback := gets (λ b, rt_source_generation (route b)) in
  let* generation := on_lifecycle (request_shutdown fallback) in
  on_route (λ r, r <| rt_process_loopback_shutdown_requested_generation := Some generation |>
    <| rt_source_subscriber_active := false |>
    <| rt_source_generation ::= (λ g, wrapping_add g 1) |>
    <| rt_source_capture_mode := CaptureNone |> <| rt_capture_backend := BackendNone |>) ;;;
  on_counters (λ c, reset_source_counters c <| ct_virtual_mic_session_active := false |>) ;;;
  reset_translation_cue_ledgers ;;;
  request_playback_stop "bridge-shutdown" None ;;;
  ret generation.

Definition record_process_loopback_terminal_evidence (evidence : LoopbackEvidence) : M Bridge unit :=
  on_route (λ r, r <| rt_process_loopback_terminal_generation := Some (ev_generation evidence) |>
    <| rt_process_loopback_terminal_status := Some (ev_status evidence) |>
    <| rt_process_loopback_terminal_timestamp_ms := Some (ev_timestamp_ms evidence) |>).

Definition degrade (code : string) : M Bridge unit :=
  on_route (λ r, r <| rt_bridge_state := "degraded" |> <| rt_lifecycle_state := "error" |>
                   <| rt_last_error_code := Some code |>).

Definition rejected_terminal_detail (generation : Z) (evidence : LoopbackEvidence) : string :=
  ("process loopback shutdown terminal was rejected: requestedGeneration=" +:+ show_uint generation
   +:+ ", terminalGeneration=" +:+ show_uint (ev_generation evidence) +:+ ", terminalStatus="
   +:+ ev_status evidence)%string.

(** The answer, once the wait ended with evidence that is recorded, or with the
    timeout's message. *)
Definition finish_shutdown (generation : Z) (result : LoopbackEvidence + string)
  : M Bridge ControlReply :=
  let refuse code detail :=
    degrade code ;;;
    on_route (λ r, r <| rt_process_loopback_failure_detail := Some detail |>) ;;;
    bridge_error code detail in
  match result with
  | inr detail => refuse "bridge.timeout" detail
  | inl evidence =>
      if negb (authorizes_shutdown generation evidence)
      then refuse "bridge.process-loopback-capture-failed"
             (rejected_terminal_detail generation evidence)
      else
        on_route (λ r, r <| rt_session_id := None |> <| rt_bridge_state := "stopped" |>
          <| rt_lifecycle_state := "stopped" |>
          <| rt_physical_playback_status := "uninitialized" |>
          <| rt_resolved_physical_playback_device_id := "" |>) ;;;
        let* r := gets route in ret (StateSnapshot r)
  end.

Definition control_response_authorizes_exit (exit_requested : bool) (response : ControlReply) : bool :=
  exit_requested &&
  match response with
  | StateSnapshot r =>
      is_Some_b (rt_process_loopback_shutdown_requested_generation r)
      && bool_decide (rt_process_loopback_shutdown_requested_generation r
                      = rt_process_loopback_terminal_generation r)
      && (opt_eqs (rt_process_loopback_terminal_status r) "stopped"
          || opt_eqs (rt_process_loopback_terminal_status r) "not-active")
      && is_Some_b (rt_process_loopback_terminal_timestamp_ms r)
      && eqs (rt_bridge_state r) "stopped" && eqs (rt_lifecycle_state r) "stopped"
  | _ => false
  end.
End Commands.
