(* ===== verification/BridgeCuesTheorems.v ===== *)
(** * Theorems about the Bridge's cue ledgers and playback queue

    For any sequence of calls: what the stream ledger lets through per cue, what
    is written to the virtual microphone per cue, and what becomes of each
    complete cue in the playback queue. Each component's calls are collected in
    a type of operations whose run records what the callers were told. *)
From stdpp Require Import sorting.
From S2P Require Import Prelude RustStr TaskLifecycle SpeechRoute BridgeProtocol BridgeCues.

(** Splits a run in a hypothesis on the scrutinees of its definition, innermost first. *)
Ltac split_in H :=
  repeat (match type of H with
          | context [match ?x with _ => _ end] =>
              lazymatch x with
              | context [match _ with _ => _ end] => fail
              | _ => destruct x eqn:?
              end
          end; simplify_eq/=).

(** ** The stream ledger *)
Module StreamRuns.
Import StreamLedger.

Inductive Op :=
| Admit (cue_id : string) (chunk_index : Z) (state : TranslationStreamState) (generation : Z)
| Claim (cue_id : string) (generation : Z).

(** The frames of [(cue, generation)] the ledger let through, in order. *)
Definition passes (cue : string) (generation : Z) (op : Op) (l : PhysicalTranslationStreamLedger)
  : list (TranslationStreamState * Z) :=
  match op with
  | Admit c i s g =>
      match (admit_chunk c i s g l).1 with
      | Ok AdmitDuplicate | Err _ => []
      | Ok _ => if eqs c cue && (g =? generation) && negb (bool_decide (s = Abort_))
                then [(s, i)] else []
      end
  | Claim _ _ => []
  end.
Definition exec (op : Op) (l : PhysicalTranslationStreamLedger) : PhysicalTranslationStreamLedger :=
  match op with
  | Admit c i s g => (admit_chunk c i s g l).2
  | Claim c g => (claim_terminal c g l).2
  end.
Fixpoint passed (cue : string) (generation : Z) (ops : list Op) (l : PhysicalTranslationStreamLedger)
  : list (TranslationStreamState * Z) :=
  match ops with
  | [] => []
  | op :: ops => passes cue generation op l ++ passed cue generation ops (exec op l)
  end.

(** The abstract stream: one start, [chunks] chunks, perhaps the end. *)
Inductive Phase := Idle | Open (next : nat) | Closed (next : nat) | Over.
Definition stream_of (p : nat) (closed : bool) : list (TranslationStreamState * Z) :=
  (Start, 0) :: ((λ i, (Chunk, Z.of_nat i)) <$> seq 1 (p - 1))
  ++ (if closed then [(End_, Z.of_nat p)] else []).

(** [Continues p trace]: from phase [p] the ledger may let [trace] through. *)
Inductive Continues : Phase → list (TranslationStreamState * Z) → Prop :=
| cont_nil p : Continues p []
| cont_start trace : Continues (Open 1) trace → Continues Idle ((Start, 0) :: trace)
| cont_chunk n trace :
    Continues (Open (S n)) trace → Continues (Open n) ((Chunk, Z.of_nat n) :: trace)
| cont_end n trace :
    Continues (Closed n) trace → Continues (Open n) ((End_, Z.of_nat n) :: trace).

Definition phase_of (cue : string) (generation : Z) (l : PhysicalTranslationStreamLedger) : Phase :=
  if bool_decide ((cue, generation) ∈ completed l) then Over else
  match active l !! cue with
  | Some c => if cursor_generation c =? generation
              then (if ended c then Closed else Open) (Z.to_nat (next_chunk_index c)) else Idle
  | None => Idle
  end.

(** Cursors are positive and below [bound]. *)
Definition cursors_below (bound : Z) (l : PhysicalTranslationStreamLedger) : Prop :=
  ∀ cue c, active l !! cue = Some c → 1 ≤ next_chunk_index c ≤ bound.

Lemma exec_cursors op l bound :
  1 ≤ bound → cursors_below bound l → cursors_below (bound + 1) (exec op l).
Proof.
  intros Hb Hl cue c.
  assert (Hold : ∀ cue c, active l !! cue = Some c → 1 ≤ next_chunk_index c ≤ bound + 1)
    by (intros cue' c' H; specialize (Hl _ _ H); lia).
  destruct op as [c' i s g|c' g]; simpl.
  - unfold admit_chunk, set_active. repeat case_match; simpl; intros Hc; eauto;
      apply lookup_insert_Some in Hc as [[<- <-]|[_ Hc]]; eauto; simpl;
      match goal with H : active l !! c' = Some _ |- _ => specialize (Hl _ _ H) | _ => idtac end;
      unfold saturating_add_u32, u32_max; lia.
  - unfold claim_terminal. case_match; simpl; [|eauto].
    intros [_ Hc]%lookup_delete_Some. eauto.
Qed.

Lemma phase_of_set cue generation c cursor l :
  phase_of cue generation (set_active c cursor l)
  = if bool_decide ((cue, generation) ∈ completed l) then Over
    else if bool_decide (c = cue) then
      (if cursor_generation cursor =? generation
       then (if ended cursor then Closed else Open) (Z.to_nat (next_chunk_index cursor)) else Idle)
    else phase_of cue generation l.
Proof.
  unfold phase_of, set_active. simpl. case_bool_decide as Hc; [done|].
  case_bool_decide as He.
  - subst c. by rewrite lookup_insert_eq.
  - by rewrite lookup_insert_ne.
Qed.

Lemma phase_of_claim cue generation c g l :
  phase_of cue generation (claim_terminal c g l).2 = phase_of cue generation l
  ∨ phase_of cue generation (claim_terminal c g l).2 = Over.
Proof.
  unfold claim_terminal, owns, phase_of.
  destruct (active l !! c) as [cur|] eqn:E; simpl; [|by left].
  destruct (cursor_generation cur =? g) eqn:Eg; simpl; [|by left]. bool_hyps.
  repeat case_bool_decide; try (by left); try (by right); try set_solver.
  left. destruct (decide (c = cue)) as [->|Hne]; [|by rewrite lookup_delete_ne].
  rewrite lookup_delete_eq, E. case_match; bool_hyps; [set_solver|done].
Qed.

Lemma passes_other cue generation c i s g l :
  (c, g) ≠ (cue, generation) → passes cue generation (Admit c i s g) l = [].
Proof.
  intros Hne. simpl. repeat case_match; try done;
    destruct (eqs c cue && (g =? generation)) eqn:E; try done;
    unfold eqs in E; bool_hyps; congruence.
Qed.
Lemma phase_other cue generation c i s g l :
  (c, g) ≠ (cue, generation) →
  phase_of cue generation (admit_chunk c i s g l).2 = phase_of cue generation l.
Proof.
  intros Hne. unfold admit_chunk. repeat case_match; simpl; try done;
    rewrite phase_of_set; unfold phase_of; case_bool_decide; try done;
    case_bool_decide; try done; subst; simpl; bool_hyps; simplify_eq/=;
    repeat (match goal with H : active l !! _ = _ |- _ => rewrite H end);
    repeat case_match; bool_hyps; congruence.
Qed.

(** One call moves the phase of every stream along the abstract stream. *)
Lemma exec_continues cue generation op l bound trace :
  cursors_below bound l → bound < u32_max →
  Continues (phase_of cue generation (exec op l)) trace →
  Continues (phase_of cue generation l) (passes cue generation op l ++ trace).
Proof.
  intros Hl Hb. destruct op as [c i s g|c g]; simpl exec.
  2: { destruct (phase_of_claim cue generation c g l) as [->| ->]; [done|].
       intros H. inversion H. constructor. }
  destruct (decide ((c, g) = (cue, generation))) as [[= -> ->]|Hne];
    [|by rewrite passes_other, phase_other].
  simpl. unfold eqs. rewrite bool_decide_true, Z.eqb_refl by done. simpl.
  unfold admit_chunk. case_bool_decide as Hc; [done|].
  assert (Hph : ∀ cur, active l !! cue = Some cur → cursor_generation cur = generation →
    phase_of cue generation l
    = (if ended cur then Closed else Open) (Z.to_nat (next_chunk_index cur))).
  { intros cur E Eg. unfold phase_of. by rewrite bool_decide_false, E, Eg, Z.eqb_refl by done. }
  destruct s; simpl; repeat (case_match; simpl; try done);
    bool_hyps; rewrite phase_of_set, bool_decide_false, bool_decide_true by done; simpl;
    rewrite ?Z.eqb_refl.
  - intros Ht. subst i. replace (phase_of cue generation l) with Idle; [by constructor|].
    unfold phase_of. rewrite bool_decide_false by done. by case_match.
  - replace (cursor_generation p =? generation) with true by (symmetry; by apply Z.eqb_eq).
    pose proof (Hl _ _ ltac:(eassumption)) as Hp. erewrite Hph by done.
    case_match; [done|]. unfold saturating_add_u32. intros Ht.
    replace i with (Z.of_nat (Z.to_nat (next_chunk_index p))) by lia. constructor.
    by replace (S (Z.to_nat (next_chunk_index p)))
      with (Z.to_nat (Z.min (next_chunk_index p + 1) u32_max)) by lia.
  - replace (cursor_generation p =? generation) with true by (symmetry; by apply Z.eqb_eq).
    pose proof (Hl _ _ ltac:(eassumption)) as Hp. erewrite Hph by done. intros Ht.
    destruct (ended p); [by subst i; rewrite Z.eqb_refl in *|].
    replace i with (Z.of_nat (Z.to_nat (next_chunk_index p))) by lia. by constructor.
Qed.

Lemma passed_continues cue generation ops l bound :
  1 ≤ bound → cursors_below bound l → bound + Z.of_nat (length ops) ≤ u32_max →
  Continues (phase_of cue generation l) (passed cue generation ops l).
Proof.
  revert l bound. induction ops as [|op ops IH]; intros l bound Hb1 Hl Hb; [constructor|]. simpl in *.
  eapply exec_continues; [done|lia|]. apply IH with (bound := bound + 1); [lia| |lia].
  by apply exec_cursors.
Qed.

Lemma continues_open n trace :
  Continues (Open n) trace →
  ∃ k closed, trace = ((λ i, (Chunk, Z.of_nat i)) <$> seq n k)
    ++ (if closed : bool then [(End_, Z.of_nat (n + k))] else []).
Proof.
  remember (Open n) as p eqn:E. intros H. revert n E.
  induction H as [p|trace H IH|n trace H IH|n trace H IH]; intros m E; simplify_eq/=.
  - exists O, false. done.
  - destruct (IH (S m) eq_refl) as (k & closed & ->). exists (S k), closed. simpl.
    by rewrite Nat.add_succ_r.
  - exists O, true. inversion H. by rewrite Nat.add_0_r.
Qed.

(** What the ledger lets through of one stream, whatever is sent to it: nothing, or
    the start, the chunks 1, 2, ... without gap or repetition, and at most one end. *)
Lemma passed_is_a_stream cue generation ops :
  Z.of_nat (length ops) < u32_max →
  passed cue generation ops empty_ledger = []
  ∨ ∃ next closed, (1 ≤ next)%nat ∧ passed cue generation ops empty_ledger = stream_of next closed.
Proof.
  intros Hlen.
  pose proof (passed_continues cue generation ops empty_ledger 1 ltac:(lia)
    ltac:(intros ? ? H; cbn in H; by rewrite lookup_empty in H) ltac:(lia)) as H.
  change (phase_of cue generation empty_ledger) with Idle in H.
  inversion H as [p Hp Hn|trace Ht Hn|n trace Ht Hn|n trace Ht Hn]; [by left|right].
  apply continues_open in Ht as (k & closed & ->). exists (S k), closed. split; [lia|].
  unfold stream_of. by rewrite Nat.sub_succ, Nat.sub_0_r.
Qed.

(** The calls that claimed the terminal of [(cue, generation)]. *)
Fixpoint claims (cue : string) (generation : Z) (ops : list Op) (l : PhysicalTranslationStreamLedger) : nat :=
  match ops with
  | [] => 0
  | op :: ops =>
      (match op with
       | Claim c g => if eqs c cue && (g =? generation)%Z && (claim_terminal c g l).1 then 1%nat else O
       | Admit _ _ _ _ => O
       end + claims cue generation ops (exec op l))%nat
  end.

(** A stream that is active has not been completed in its generation. *)
Definition unfinished (l : PhysicalTranslationStreamLedger) : Prop :=
  ∀ cue c, active l !! cue = Some c → (cue, cursor_generation c) ∉ completed l.
Lemma exec_unfinished op l : unfinished l → unfinished (exec op l).
Proof.
  intros Hl. destruct op as [c i s g|c g]; simpl.
  - unfold admit_chunk, set_active. case_bool_decide as Hc; [done|].
    repeat case_match; simpl; try done; bool_hyps; intros c' cur; simpl; intros Hcur;
      apply lookup_insert_Some in Hcur as [[<- <-]|[_ Hcur]]; simpl; eauto.
  - unfold claim_terminal, owns. destruct (active l !! c) as [cur|] eqn:E; [|done].
    case_match; [|done]. intros c' cur'. simpl. intros [Hne Hcur]%lookup_delete_Some.
    specialize (Hl _ _ Hcur). set_solver.
Qed.
Lemma completed_grows op l p : p ∈ completed l → p ∈ completed (exec op l).
Proof.
  destruct op as [c i s g|c g]; simpl.
  - unfold admit_chunk, set_active. repeat case_match; done.
  - unfold claim_terminal. case_match; simpl; set_solver.
Qed.
Lemma no_claim_when_completed cue generation ops l :
  unfinished l → (cue, generation) ∈ completed l → claims cue generation ops l = O.
Proof.
  revert l. induction ops as [|op ops IH]; intros l Hl Hc; [done|]. simpl.
  rewrite IH; [|by apply exec_unfinished|by apply completed_grows].
  destruct op as [c i s g|c g]; [done|]. unfold eqs, claim_terminal, owns.
  destruct (bool_decide (c = cue) && (g =? generation)) eqn:E; [|done]. bool_hyps. subst.
  destruct (active l !! cue) as [cur|] eqn:Ea; [|done].
  destruct (cursor_generation cur =? generation) eqn:Eg; [|done]. bool_hyps. subst.
  by destruct (Hl _ _ Ea).
Qed.
Lemma claimed_at_most_once cue generation ops l :
  unfinished l → (claims cue generation ops l ≤ 1)%nat.
Proof.
  revert l. induction ops as [|op ops IH]; intros l Hl; simpl; [lia|].
  pose proof (IH _ (exec_unfinished op l Hl)) as Hrest.
  destruct op as [c i s g|c g]; [done|].
  destruct (eqs c cue && (g =? generation) && (claim_terminal c g l).1) eqn:E; [|done].
  unfold eqs in E. bool_hyps. subst. rewrite no_claim_when_completed; [done|by apply exec_unfinished|].
  simpl. unfold claim_terminal in *. destruct (owns cue generation l); [|done]. simpl. set_solver.
Qed.
Lemma empty_unfinished : unfinished empty_ledger.
Proof. intros cue c H. cbn in H. by rewrite lookup_empty in H. Qed.

(** A frame sent again at once is answered as a duplicate and changes nothing. *)
Lemma readmission_is_duplicate cue index state generation l admission l' :
  admit_chunk cue index state generation l = (Ok admission, l') → state ≠ Abort_ →
  index < u32_max → admit_chunk cue index state generation l' = (Ok AdmitDuplicate, l').
Proof.
  intros H Hs Hi. unfold admit_chunk in H |- *.
  destruct (bool_decide ((cue, generation) ∈ completed l)) eqn:Hc; [simplify_eq; by rewrite Hc|].
  destruct state; [..|done]; split_in H; bool_hyps; subst; simpl;
    rewrite ?bool_decide_false by done; unfold set_active; simpl; rewrite ?lookup_insert_eq; simpl;
    repeat match goal with H : active _ !! _ = _ |- _ => rewrite H end;
    unfold saturating_add_u32; repeat (case_match; bool_hyps; try done; try lia).
  by match goal with H : ended ?p = true, H1 : ended ?p && _ = false |- _ => rewrite H, Z.eqb_refl in H1 end.
Qed.
End StreamRuns.

(** ** The virtual microphone's ledger *)
Module MicRuns.
Import VirtualMicLedger.

Inductive Op :=
| Begin (cue_id : string) (chunk_index chunk_count : Z)
| Success (cue_id : string) (chunk_index : Z)
| Terminal (cue_id : string).

Definition exec (op : Op) (l : VirtualMicCueLedger) : VirtualMicCueLedger :=
  match op with
  | Begin c i n => (begin c i n l).2
  | Success c i => (complete_success c i l).2
  | Terminal c => (complete_terminal c l).2
  end.
(** The chunks of [cue] whose driver write the ledger recorded. *)
Definition writes (cue : string) (op : Op) (l : VirtualMicCueLedger) : list Z :=
  match op with
  | Success c i => if eqs c cue && is_Some_b (complete_success c i l).1 then [i] else []
  | _ => []
  end.
Fixpoint written (cue : string) (ops : list Op) (l : VirtualMicCueLedger) : list Z :=
  match ops with [] => [] | op :: ops => writes cue op l ++ written cue ops (exec op l) end.
Definition run (ops : list Op) (l : VirtualMicCueLedger) : VirtualMicCueLedger :=
  fold_left (λ l op, exec op l) ops l.

(** Where [cue] stands after [n] recorded writes. *)
Definition stands (cue : string) (n : nat) (l : VirtualMicCueLedger) : Prop :=
  match mic_active l !! cue with
  | Some p => progress_next p = Z.of_nat n ∧ cue ∉ terminal l
  | None => cue ∈ terminal l ∨ n = O
  end.

Lemma is_terminal_cue_spec cue l : is_terminal_cue cue l = true ↔ cue ∈ terminal l.
Proof.
  unfold is_terminal_cue, eqs. rewrite existsb_exists. setoid_rewrite bool_decide_eq_true.
  setoid_rewrite <- list_elem_of_In. naive_solver.
Qed.
Lemma is_terminal_cue_false cue l : is_terminal_cue cue l = false ↔ cue ∉ terminal l.
Proof. rewrite <- is_terminal_cue_spec. by destruct is_terminal_cue. Qed.

Lemma remember_terminal_room cue l :
  (length (terminal (remember_terminal cue l)) < VIRTUAL_MIC_TERMINAL_LEDGER_CAPACITY)%nat →
  terminal (remember_terminal cue l) = terminal l ++ [cue].
Proof.
  unfold remember_terminal. case_bool_decide as H; [|done]. simpl.
  rewrite length_app. destruct (terminal l); simpl in *; [done|]. lia.
Qed.
Lemma remember_terminal_active cue l : mic_active (remember_terminal cue l) = mic_active l.
Proof. unfold remember_terminal. by case_bool_decide. Qed.
Lemma remember_terminal_length cue l :
  (length (terminal l) ≤ VIRTUAL_MIC_TERMINAL_LEDGER_CAPACITY)%nat →
  (length (terminal l) ≤ length (terminal (remember_terminal cue l))
   ≤ VIRTUAL_MIC_TERMINAL_LEDGER_CAPACITY)%nat.
Proof.
  unfold remember_terminal. case_bool_decide as H; simpl; rewrite length_app; simpl; [|lia].
  rewrite <- H. destruct (terminal l); simpl in *; [done|lia].
Qed.

#[local] Opaque remember_terminal.

Lemma exec_length op l :
  (length (terminal l) ≤ VIRTUAL_MIC_TERMINAL_LEDGER_CAPACITY)%nat →
  (length (terminal l) ≤ length (terminal (exec op l)) ≤ VIRTUAL_MIC_TERMINAL_LEDGER_CAPACITY)%nat.
Proof.
  intros H. destruct op as [c i n|c i|c]; simpl; unfold begin, complete_success, complete_terminal;
    repeat case_match; simpl; try lia;
    match goal with |- context [remember_terminal ?c ?l] =>
      exact (remember_terminal_length c l H) end.
Qed.

(** A key that becomes terminal stays so while nothing is evicted. *)
Lemma stands_remember cue c n l l' :
  mic_active l' !! c = None → (∀ k, k ≠ c → mic_active l' !! k = mic_active l !! k) →
  terminal l' = terminal l →
  (length (terminal (remember_terminal c l')) < VIRTUAL_MIC_TERMINAL_LEDGER_CAPACITY)%nat →
  (c ≠ cue → stands cue n l) → stands cue n (remember_terminal c l').
Proof.
  intros Hc Hk Ht Hroom H. unfold stands.
  rewrite (remember_terminal_room _ _ Hroom), remember_terminal_active, Ht.
  destruct (decide (c = cue)) as [->|Hne].
  - rewrite Hc. left. set_solver.
  - rewrite Hk by done. specialize (H Hne). unfold stands in H. case_match; set_solver.
Qed.

Lemma exec_stands cue op n l :
  stands cue n l → Z.of_nat n < u32_max →
  (length (terminal (exec op l)) < VIRTUAL_MIC_TERMINAL_LEDGER_CAPACITY)%nat →
  (writes cue op l = [] ∧ stands cue n (exec op l))
  ∨ (writes cue op l = [Z.of_nat n] ∧ stands cue (S n) (exec op l)).
Proof.
  intros H Hn Hroom. destruct op as [c i k|c i|c]; simpl in *.
  - left. split; [done|]. unfold begin. repeat case_match; simpl; try done;
      match goal with E : is_terminal_cue _ _ = false |- _ => apply is_terminal_cue_false in E end;
      unfold stands in *; simpl;
      (destruct (decide (c = cue)) as [->|Hne];
        [rewrite lookup_insert_eq|by rewrite lookup_insert_ne]);
      match goal with E : mic_active l !! _ = _ |- _ => rewrite E in H end; simpl; naive_solver.
  - unfold complete_success in *. destruct (mic_active l !! c) as [p|] eqn:E; simpl in *;
      [|left; split; [by destruct (eqs c cue)|done]].
    destruct (negb (write_in_flight p) || negb (progress_next p =? i)) eqn:Eb; simpl in *;
      [left; split; [by destruct (eqs c cue)|done]|]. bool_hyps. subst i.
    unfold eqs. case_bool_decide as Hc; simpl.
    + right. subst c. unfold stands in H. rewrite E in H. destruct H as [Hp Ht]. rewrite Hp in *.
      split; [done|]. case_match.
      * apply (stands_remember _ _ _ l); simpl; try done; [apply lookup_delete_eq|].
        intros k Hk. by rewrite lookup_delete_ne, lookup_insert_ne.
      * unfold stands. simpl. rewrite lookup_insert_eq. simpl. split; [|done].
        unfold saturating_add_u32. lia.
    + left. split; [done|]. case_match.
      * apply (stands_remember _ _ _ l); simpl; try done; [apply lookup_delete_eq|].
        intros k Hk. by rewrite lookup_delete_ne, lookup_insert_ne.
      * unfold stands in *. simpl. by rewrite lookup_insert_ne.
  - left. split; [done|]. unfold complete_terminal in *. case_match; [done|]. simpl in *.
    apply (stands_remember _ _ _ l); simpl; try done; [apply lookup_delete_eq|].
    intros k Hk. by rewrite lookup_delete_ne.
Qed.

Lemma run_length ops l :
  (length (terminal l) ≤ VIRTUAL_MIC_TERMINAL_LEDGER_CAPACITY)%nat →
  (length (terminal l) ≤ length (terminal (run ops l)))%nat.
Proof.
  revert l. induction ops as [|op ops IH]; intros l H; [done|].
  change (run (op :: ops) l) with (run ops (exec op l)).
  pose proof (exec_length op l H). specialize (IH (exec op l) ltac:(lia)). lia.
Qed.

Lemma written_from cue ops n l :
  stands cue n l → Z.of_nat n + Z.of_nat (length ops) ≤ u32_max →
  (length (terminal l) ≤ VIRTUAL_MIC_TERMINAL_LEDGER_CAPACITY)%nat →
  (length (terminal (run ops l)) < VIRTUAL_MIC_TERMINAL_LEDGER_CAPACITY)%nat →
  ∃ k, written cue ops l = Z.of_nat <$> seq n k.
Proof.
  revert n l. induction ops as [|op ops IH]; intros n l H Hn Hl Hroom; [by exists O|]. simpl in Hn |- *.
  change (run (op :: ops) l) with (run ops (exec op l)) in Hroom.
  pose proof (exec_length op l Hl). pose proof (run_length ops (exec op l) ltac:(lia)).
  destruct (exec_stands cue op n l H ltac:(lia) ltac:(lia)) as [[-> H']|[-> H']].
  - apply (IH n); [done|lia|lia|done].
  - destruct (IH (S n) (exec op l) H' ltac:(lia) ltac:(lia) Hroom) as [k ->].
    by exists (S k).
Qed.
End MicRuns.

(** ** The queue of complete cues *)
Module QueueRuns.
Import PlaybackQueue.

Inductive Op := Enqueue (job : PlaybackJob) (now : Z) | StartNext (now : Z) | Finish | Clear.

(** What became of the jobs so far. *)
Record Fate := mk_fate {
  accepted : list PlaybackJob; started : list (PlaybackJob * Z);
  expired : list PlaybackJob; stopped : list PlaybackJob
}.
Definition no_fate : Fate := mk_fate [] [] [] [].

Definition exec (op : Op) (s : TranslationPlaybackQueue * Fate) : TranslationPlaybackQueue * Fate :=
  let '(q, f) := s in
  match op with
  | Enqueue job now =>
      match enqueue job now q with
      | (inl outcome, q) =>
          (q, mk_fate (accepted f ++ [job]) (started f) (expired f ++ eo_dropped outcome) (stopped f))
      | (inr failure, q) =>
          (q, mk_fate (accepted f) (started f) (expired f ++ ef_dropped failure) (stopped f))
      end
  | StartNext now =>
      let '(job, dropped, q) := start_next now q in
      (q, mk_fate (accepted f) (started f ++ match job with Some job => [(job, now)] | None => [] end)
            (expired f ++ dropped) (stopped f))
  | Finish => ((finish_active q).2, f)
  | Clear => let '(_, jobs, q) := clear q in
             (q, mk_fate (accepted f) (started f) (expired f) (stopped f ++ jobs))
  end.
Definition run (ops : list Op) (s : TranslationPlaybackQueue * Fate) :=
  fold_left (λ s op, exec op s) ops s.

(** Every job meets its budget if the ones before it play as projected. *)
Fixpoint timely (start_ms : Z) (jobs : list PlaybackJob) : Prop :=
  match jobs with
  | [] => True
  | job :: jobs =>
      translation_would_miss_realtime_budget (job_created_at_ms job) start_ms = false
      ∧ timely (saturating_add start_ms (job_playback_duration_ms job)) jobs
  end.

Lemma split_expired_spec s jobs retained dropped :
  split_expired s jobs = (retained, dropped) →
  sublist retained jobs ∧ jobs ≡ₚ retained ++ dropped ∧ timely s retained.
Proof.
  revert s retained dropped. induction jobs as [|job jobs IH]; simpl; intros s r d H; [by simplify_eq|].
  destruct (translation_would_miss_realtime_budget _ _) eqn:E.
  - destruct (split_expired s jobs) as [r' d'] eqn:Es. simplify_eq.
    destruct (IH _ _ _ Es) as (? & Hp & ?).
    split_and!; [by constructor|by rewrite Hp, Permutation_middle|done].
  - destruct (split_expired _ jobs) as [r' d'] eqn:Es. simplify_eq.
    destruct (IH _ _ _ Es) as (? & Hp & ?). simpl.
    split_and!; [by constructor|by rewrite Hp|done|done].
Qed.
Lemma split_expired_timely s jobs : timely s jobs → split_expired s jobs = (jobs, []).
Proof.
  revert s. induction jobs as [|job jobs IH]; intros s; simpl; [done|]. intros [-> H]. by rewrite IH.
Qed.

(** The invariant that accounts for every accepted job. *)
Definition accounted (s : TranslationPlaybackQueue * Fate) : Prop :=
  let '(q, f) := s in
  (length (pending q) ≤ capacity q)%nat
  ∧ accepted f ≡ₚ (started f).*1 ++ expired f ++ stopped f ++ pending q
  ∧ sublist ((started f).*1 ++ pending q) (accepted f)
  ∧ Forall (λ s, saturating_sub s.2 (job_created_at_ms s.1) ≤ TRANSLATION_MAX_PROJECTED_LATENCY_MS)
      (started f).

Lemma budget_met created start :
  translation_would_miss_realtime_budget created start = false →
  saturating_sub start created ≤ TRANSLATION_MAX_PROJECTED_LATENCY_MS.
Proof. unfold translation_would_miss_realtime_budget. intros H. by bool_hyps. Qed.

Lemma drain_accounted now q f dropped q' :
  accounted (q, f) → drain_expired_pending now q = (dropped, q') →
  accounted (q', mk_fate (accepted f) (started f) (expired f ++ dropped) (stopped f))
  ∧ timely (active_end_ms now q) (pending q') ∧ capacity q' = capacity q ∧ q_active q' = q_active q.
Proof.
  intros (Hc & Hp & Hs & Ht) H. unfold drain_expired_pending in H.
  destruct (split_expired _ _) as [r d] eqn:E. simplify_eq/=.
  destruct (split_expired_spec _ _ _ _ E) as (Hr & Hd & Hb).
  split_and!; try done.
  - apply sublist_length in Hr. lia.
  - rewrite Hp, Hd. solve_Permutation.
  - etransitivity; [|exact Hs]. by apply sublist_app.
Qed.

Lemma exec_keeps_account op s : accounted s → accounted (exec op s).
Proof.
  destruct s as [q f]. intros H. destruct op as [job now|now| |]; simpl.
  - unfold enqueue. destruct (drain_expired_pending now q) as [dropped q'] eqn:E.
    destruct (drain_accounted _ _ _ _ _ H E) as ((Hc & Hp & Hs & Ht) & _).
    destruct (capacity q' <=? length (pending q'))%nat eqn:Ecap; [done|].
    destruct (translation_would_miss_realtime_budget _ _); [done|].
    apply Nat.leb_gt in Ecap. simpl in *.
    split_and!; try done.
    + rewrite length_app. simpl. lia.
    + rewrite Hp. solve_Permutation.
    + rewrite app_assoc. by apply sublist_app.
  - unfold start_next. destruct (q_active q) eqn:Ea.
    { rewrite !app_nil_r. by destruct f. }
    destruct (drain_expired_pending now q) as [dropped q'] eqn:E.
    destruct (drain_accounted _ _ _ _ _ H E) as ((Hc & Hp & Hs & Ht) & Hb & Hcap & _).
    destruct (pending q') as [|job rest] eqn:Eq; simpl in *; rewrite ?app_nil_r, ?Eq; [done|].
    destruct Hb as [Hb _]. unfold active_end_ms in Hb. rewrite Ea in Hb. simpl in Hb.
    rewrite Z.max_id in Hb. rewrite fmap_app. simpl. split_and!.
    + lia.
    + rewrite Hp. solve_Permutation.
    + by rewrite <- app_assoc.
    + apply Forall_app. split; [done|]. apply Forall_singleton. by apply budget_met.
  - exact H.
  - destruct H as (Hc & Hp & Hs & Ht). simpl. split_and!; try done.
    + lia.
    + rewrite Hp. solve_Permutation.
    + etransitivity; [|exact Hs]. apply sublist_app; [done|]. apply sublist_nil_l.
Qed.

Lemma run_accounted ops s : accounted s → accounted (run ops s).
Proof.
  revert s. induction ops as [|op ops IH]; intros s H; [done|]. simpl. apply IH. by apply exec_keeps_account.
Qed.

(** A worker that starts each job exactly when the one before it was expected to end. *)
Fixpoint punctual (n : nat) (at_ms : Z) (q : TranslationPlaybackQueue)
  : list PlaybackJob * list PlaybackJob :=
  match n with
  | O => ([], [])
  | S n =>
      match start_next at_ms (finish_active q).2 with
      | (Some job, dropped, q) =>
          let '(played, dropped') := punctual n (active_end_ms at_ms q) q in
          (job :: played, dropped ++ dropped')
      | (None, dropped, _) => ([], dropped)
      end
  end.

Lemma punctual_plays_timely q at_ms :
  timely at_ms (pending q) → Forall (λ job, 0 ≤ job_playback_duration_ms job) (pending q) →
  0 ≤ at_ms ≤ u64_max →
  punctual (length (pending q)) at_ms q = (pending q, []).
Proof.
  destruct q as [cap jobs act]. simpl. revert at_ms act.
  induction jobs as [|job jobs IH]; intros at_ms act Ht Hd Ha; [done|].
  apply Forall_cons in Hd as [Hd Hds]. destruct Ht as [Hj Ht]. simpl. unfold start_next. simpl.
  unfold drain_expired_pending, active_end_ms. simpl.
  rewrite Z.max_id. simpl. rewrite Hj, split_expired_timely by done. simpl.
  replace (Z.max (saturating_add at_ms (job_playback_duration_ms job)) at_ms)
    with (saturating_add at_ms (job_playback_duration_ms job)) by saturating_lia.
  rewrite IH; [done|done|done|saturating_lia].
Qed.

Lemma enqueue_timely job now q outcome q' :
  enqueue job now q = (inl outcome, q') →
  timely (active_end_ms now q) (pending q') ∧ q_active q' = q_active q
  ∧ ∃ retained, pending q' = retained ++ [job] ∧ sublist retained (pending q).
Proof.
  unfold enqueue. destruct (drain_expired_pending now q) as [dropped q1] eqn:E.
  unfold drain_expired_pending in E. destruct (split_expired _ _) as [r d] eqn:Es. simplify_eq/=.
  destruct (split_expired_spec _ _ _ _ Es) as (Hr & _ & Hb).
  repeat case_match; intros; simplify_eq/=. split_and!; [|done|by exists r].
  assert (Happ : ∀ s l, timely s l →
    translation_would_miss_realtime_budget (job_created_at_ms job)
      (fold_left (λ s j, saturating_add s (job_playback_duration_ms j)) l s) = false →
    timely s (l ++ [job])).
  { intros s l. revert s. induction l as [|j l IH]; intros s; simpl; [done|]. intros [? ?] ?.
    split; [done|]. by apply IH. }
  by apply Happ.
Qed.
End QueueRuns.
