(* ===== verification/BridgeFramesTheorems.v ===== *)
(** * Theorems about the Bridge's frame handlers

    What one handler does to the accepted work (the queue, the stream ledger,
    the generation and the arrival sequence), to the statuses it reports and to
    the frames sent to it again. *)
From S2P Require Import Prelude RustStr TaskLifecycle SpeechRoute BridgeProtocol BridgeCues BridgeFrames BridgeControl BridgeCuesTheorems.
Import StreamLedger VirtualMicLedger PlaybackQueue StatusOutbox.

(** ** What a run may change *)
Definition work (b : Bridge) :=
  (queue b, cu_streams (cues b), cu_translation_generation (cues b),
   cu_translation_arrival_sequence (cues b), commands b, worker_gone b).
Definition same_work (b b' : Bridge) : Prop := work b' = work b ∧ controls b' = controls b.
#[export] Instance same_work_preorder : PreOrder same_work.
Proof. split; [by intros b|]. intros x y z [? ?] [? ?]. split; congruence. Qed.

(** A terminal status of a cue, or the binding of its authority. *)
Definition reports_terminal (cue : string) (h : Happened) : bool :=
  match h with
  | Reported e => eqs (st_cue_id e) cue && is_terminal (st_playback_status e)
  | Bound _ => false
  end.
Definition binds (cue : string) (h : Happened) : bool :=
  match h with Bound c => eqs c cue | Reported _ => false end.
Definition bound_now (cue : string) (b : Bridge) : nat :=
  match cu_authorities (cues b) !! cue with Some _ => 1 | None => 0 end.
(** No more terminals were reported for a cue than its authority was bound, those
    in [extra] apart. *)
Definition terminals_counted (extra : list string) (b : Bridge) : Prop := ∀ cue,
  (count_if (reports_terminal cue) (history b) + bound_now cue b
   ≤ count_if (binds cue) (history b) + count_if (eqs cue) extra)%nat.

(** The complete cue that plays is never replaced: it plays on or is stopped. *)
Definition never_starts (b b' : Bridge) : Prop :=
  q_active (queue b') = q_active (queue b) ∨ q_active (queue b') = None.
#[export] Instance never_starts_preorder : PreOrder never_starts.
Proof.
  split; [by left|]. intros x y z [H|H] [H'|H']; unfold never_starts; rewrite H'; auto.
Qed.

(** What all three notions have in common: they do not look at the other fields. *)
Class Unaffected (R : Bridge → Bridge → Prop) := {
  ua_preorder :: PreOrder R;
  ua_route f b : R b (b <| route ::= f |>);
  ua_counters f b : R b (b <| counters ::= f |>);
  ua_clock b : R b (b <| clock_reads ::= S |>);
  ua_mix m b : R b (b <| mix := m |>);
  ua_vmic l b : R b (b <| cues ::= (λ c, c <| cu_virtual_mic := l |>) |>)
}.
#[export] Instance same_work_unaffected : Unaffected same_work.
Proof. split; try apply _; done. Qed.
#[export] Instance terminals_unaffected extra : Unaffected (preserved (terminals_counted extra)).
Proof. split; try apply _; unfold preserved, terminals_counted, bound_now; done. Qed.
#[export] Instance never_starts_unaffected : Unaffected never_starts.
Proof. split; try apply _; by left. Qed.

Section Primitives.
Context (R : Bridge → Bridge → Prop) `{!Unaffected R} (clock : nat → Z).
Lemma evolves_on_route f : evolves R (on_route f).
Proof. apply evolves_modify. intros b. apply ua_route. Qed.
Lemma evolves_on_counters f : evolves R (on_counters f).
Proof. apply evolves_modify. intros b. apply ua_counters. Qed.
Lemma evolves_add_dropped n : evolves R (add_dropped n).
Proof. apply evolves_on_counters. Qed.
Lemma evolves_add_accepted h : evolves R (add_accepted h).
Proof. apply evolves_on_counters. Qed.
Lemma evolves_set_error code : evolves R (set_error code).
Proof. apply evolves_on_route. Qed.
Lemma evolves_unix_ms : evolves R (unix_ms clock).
Proof. intros b. apply ua_clock. Qed.
Lemma evolves_on_vmic {A} (f : VirtualMicCueLedger → A * VirtualMicCueLedger) : evolves R (on_vmic f).
Proof. intros b. unfold on_vmic. destruct (f _) as [a l]. apply ua_vmic. Qed.
Lemma evolves_accept_frame h : evolves R (accept_frame h).
Proof. apply evolves_bind; [apply _|by intros b; reflexivity|intros ?; by intros b; reflexivity]. Qed.
End Primitives.
Lemma evolves_for_each (R : Bridge → Bridge → Prop) `{!PreOrder R} {A} (f : A → M Bridge unit) l :
  (∀ x, evolves R (f x)) → evolves R (for_each f l).
Proof.
  intros Hf. induction l as [|x l IH]; simpl; [by intros b; reflexivity|].
  apply evolves_bind; [done|apply Hf|by intros _].
Qed.
#[export] Hint Resolve evolves_on_route evolves_on_counters evolves_add_dropped evolves_add_accepted
  evolves_set_error evolves_unix_ms evolves_on_vmic evolves_accept_frame : evolve.
#[export] Hint Extern 1 (Unaffected _) => typeclasses eauto : evolve.

(** Walks a handler whose relation is [Unaffected]. *)
Ltac walk :=
  repeat first
    [ progress (auto with evolve)
    | apply evolves_ret; typeclasses eauto
    | apply evolves_panic; typeclasses eauto
    | apply evolves_gets; typeclasses eauto
    | apply evolves_bind; [typeclasses eauto| |intros ?]
    | apply evolves_when; [typeclasses eauto|]
    | apply evolves_for_each; [typeclasses eauto|intros ?]
    | match goal with
      | |- evolves _ (match ?x with _ => _ end) => destruct x eqn:?
      | |- evolves _ (let _ := _ in _) => cbv zeta
      end ].

(** ** Statuses *)
Section Statuses.
Context (clock : nat → Z) (extra : list string).
Abbreviation emit := (emit_translation_status clock).
Abbreviation emit_with := (emit_translation_status_with_authority clock).

Lemma emit_same_work cue status reason code : evolves same_work (emit cue status reason code).
Proof. unfold emit_translation_status, emit_translation_status_with_authority.
  walk; apply evolves_modify; done. Qed.
Lemma emit_never_starts cue status reason code : evolves never_starts (emit cue status reason code).
Proof. unfold emit_translation_status, emit_translation_status_with_authority.
  walk; apply evolves_modify; by left. Qed.

Lemma emit_with_run authority cue status reason code b :
  match emit_with authority cue status reason code b with
  | (Ok _, b') => ∃ e, history b' = history b ++ [Reported e]
      ∧ ob_pending (cu_outbox (cues b')) = ob_pending (cu_outbox (cues b)) ++ [e]
      ∧ st_cue_id e = default "-" cue ∧ st_playback_status e = status
      ∧ cu_authorities (cues b') = cu_authorities (cues b)
  | (Err _, b') => b' = b
  end.
Proof.
  unfold emit_translation_status_with_authority, bind, gets. simpl.
  destruct (next_status_id _) as [[id outbox]|] eqn:E; [|done]. simpl.
  unfold next_status_id in E. destruct (checked_add _ _); simplify_eq/=.
  eexists. split_and!; reflexivity.
Qed.

(** A terminal status gives up the cue's authority, and only a bound cue is reported. *)
Lemma emit_run cue status reason code b :
  match emit (Some cue) status reason code b with
  | (Ok _, b') =>
      cu_authorities (cues b') = (if is_terminal status then delete cue else id) (cu_authorities (cues b))
      ∧ match cu_authorities (cues b) !! cue with
        | Some _ => ∃ e, history b' = history b ++ [Reported e] ∧ st_cue_id e = cue
            ∧ st_playback_status e = status
            ∧ ob_pending (cu_outbox (cues b')) = ob_pending (cu_outbox (cues b)) ++ [e]
        | None => history b' = history b ∧ cu_outbox (cues b') = cu_outbox (cues b)
        end
  | (Err _, b') =>
      cu_authorities (cues b') = (if is_terminal status then delete cue else id) (cu_authorities (cues b))
      ∧ history b' = history b
  end.
Proof.
  unfold emit_translation_status, bind, gets, when. simpl.
  destruct (cu_authorities (cues b) !! cue) as [authority|] eqn:Ea.
  - destruct (is_terminal status); simpl;
      match goal with |- context [emit_with ?a ?c ?s ?r ?k ?b0] =>
        pose proof (emit_with_run a c s r k b0) as H; destruct (emit_with a c s r k b0) as [[[]|e] b'] end;
      [destruct H as (e' & H1 & H2 & H3 & H4 & H5); split; eauto 10|by subst b'
      |destruct H as (e' & H1 & H2 & H3 & H4 & H5); split; eauto 10|by subst b'].
  - destruct (is_terminal status); simpl; auto.
Qed.

Lemma terminals_after_report b b' e :
  terminals_counted extra b → history b' = history b ++ [Reported e] →
  (∀ cue, (bound_now cue b' + (if reports_terminal cue (Reported e) then 1 else 0)
           ≤ bound_now cue b)%nat) →
  terminals_counted extra b'.
Proof.
  intros H Hh Hb cue. specialize (H cue). specialize (Hb cue). rewrite Hh, !count_if_app.
  unfold count_if at 2 4. rewrite !filter_cons. simpl in *.
  destruct (eqs _ _ && _); simpl in *; repeat case_decide; simpl; try done; lia.
Qed.

Lemma terminals_after_release b b' cue (terminal : bool) :
  terminals_counted extra b → history b' = history b →
  cu_authorities (cues b') = (if terminal then delete cue else id) (cu_authorities (cues b)) →
  terminals_counted extra b'.
Proof.
  intros H Hh Ha c. specialize (H c). rewrite Hh. unfold bound_now in *. rewrite Ha.
  destruct terminal; simpl; [|done].
  destruct (decide (c = cue)) as [->|]; [rewrite lookup_delete_eq; lia|by rewrite lookup_delete_ne].
Qed.

Lemma emit_terminals cue status reason code :
  evolves (preserved (terminals_counted extra)) (emit cue status reason code).
Proof.
  intros b H. destruct cue as [cue|]; [|exact H].
  pose proof (emit_run cue status reason code b) as Hr.
  destruct (emit (Some cue) status reason code b) as [[[]|e] b']; simpl in *;
    [|destruct Hr; by eapply terminals_after_release].
  destruct Hr as [Ha Hr]. destruct (cu_authorities (cues b) !! cue) as [authority|] eqn:Eb;
    [|destruct Hr; by eapply terminals_after_release].
  destruct Hr as (e & Hh & Hc & Hs & _). eapply terminals_after_report; [done..|].
  intros c. unfold bound_now. rewrite Ha. simpl. rewrite Hc, Hs. unfold eqs.
  case_bool_decide as Hcc; simpl.
  - subst c. rewrite Eb. destruct (is_terminal status); simpl; [by rewrite lookup_delete_eq|].
    by rewrite Eb.
  - destruct (is_terminal status); simpl; [rewrite lookup_delete_ne by done|]; lia.
Qed.

Lemma bind_terminals header :
  evolves (preserved (terminals_counted extra)) (bind_translation_cue_authority header).
Proof.
  unfold bind_translation_cue_authority. repeat case_match; try (intros b Hb; exact Hb).
  intros b Hb cue. specialize (Hb cue). simpl. rewrite !count_if_app.
  unfold count_if at 2 4. rewrite !filter_cons. simpl. unfold bound_now, eqs in *. simpl.
  case_bool_decide as Hc; simpl; repeat case_decide; simpl; try done.
  - subst cue. rewrite lookup_insert_eq. case_match; lia.
  - rewrite lookup_insert_ne by done. lia.
Qed.

(** The superseded write reports with the frame's own authority: only its cue's
    count may be one too high afterwards. *)
Lemma on_cues_keeping_authorities (f : Cues → Cues) :
  (∀ c, cu_authorities (f c) = cu_authorities c) → evolves (preserved (terminals_counted extra)) (on_cues f).
Proof.
  intros Hf. apply evolves_modify. intros b H cue. specialize (H cue). unfold bound_now in *. simpl.
  by rewrite Hf.
Qed.
End Statuses.
#[export] Hint Resolve emit_same_work emit_never_starts emit_terminals bind_terminals : evolve.

(** ** Handlers and commands preserve the counting of terminals *)
Lemma evolves_try_send R `{!Unaffected R} c :
  (∀ b, R b (b <| commands ::= (λ q, q ++ [c]) |>)) → evolves R (try_send c).
Proof. intros H b. unfold try_send. case_match; simpl; [reflexivity|apply H]. Qed.
Lemma evolves_send_control R `{!Unaffected R} c :
  (∀ b, R b (b <| controls ::= (λ q, q ++ [c]) |>)) → evolves R (send_control c).
Proof. intros H b. unfold send_control. case_match; simpl; [reflexivity|apply H]. Qed.
Lemma evolves_on_lifecycle {A} R `{!Unaffected R} (f : Lifecycle → A * Lifecycle) :
  (∀ b l, R b (b <| lifecycle := l |>)) → evolves R (on_lifecycle f).
Proof. intros H b. unfold on_lifecycle. destruct (f _) as [a l]. apply H. Qed.
Lemma run_after {A} (R : Bridge → Bridge → Prop) `{!PreOrder R} b b1 (m : M Bridge A) :
  R b b1 → evolves R m → R b (m b1).2.
Proof. intros Hb Hm. etransitivity; [exact Hb|apply Hm]. Qed.

(** Leaves of [walk]: one field other than the authorities or the playing cue changes. *)
Ltac leaf :=
  solve
    [ apply on_cues_keeping_authorities; intros ?; reflexivity
    | apply evolves_try_send; [typeclasses eauto|]; intros ?; first [by left|by intros ?]
    | apply evolves_send_control; [typeclasses eauto|]; intros ?; first [by left|by intros ?]
    | apply evolves_on_lifecycle; [typeclasses eauto|]; intros ? ?; first [by left|by intros ?]
    | apply evolves_modify; intros ?; first [by left|by intros ?] ].

Section Handlers.
Context (extra : list string) (clock : nat → Z) (order : list string → list string)
  (mixer : Mix → AudioFrameHeader → list Z → list F32) (mic : string → Z).

Lemma stream_frame_terminals header samples state :
  evolves (preserved (terminals_counted extra))
    (handle_physical_translation_stream_frame clock header samples state).
Proof.
  unfold handle_physical_translation_stream_frame, next_translation_arrival_sequence,
    emit_translation_terminal. walk; leaf.
Qed.
Lemma stream_frame_never_starts header samples state :
  evolves never_starts (handle_physical_translation_stream_frame clock header samples state).
Proof.
  unfold handle_physical_translation_stream_frame, next_translation_arrival_sequence,
    emit_translation_terminal. walk; leaf.
Qed.
Lemma complete_cue_terminals header samples :
  evolves (preserved (terminals_counted extra)) (handle_complete_cue clock header samples).
Proof.
  unfold handle_complete_cue, next_translation_arrival_sequence, report_expired. walk; leaf.
Qed.
Lemma begin_mic_terminals header samples :
  evolves (preserved (terminals_counted extra)) (begin_virtual_mic_frame clock mic header samples).
Proof. unfold begin_virtual_mic_frame, emit_translation_terminal. walk; leaf. Qed.
Lemma begin_mic_never_starts header samples :
  evolves never_starts (begin_virtual_mic_frame clock mic header samples).
Proof. unfold begin_virtual_mic_frame, emit_translation_terminal. walk; leaf. Qed.
Lemma stop_terminals reason code :
  evolves (preserved (terminals_counted extra)) (request_playback_stop clock order reason code).
Proof. unfold request_playback_stop, emit_translation_terminal. walk; leaf. Qed.

(** The two runs that write the queue: what they write has the playing cue of
    the queue they read, or none. *)
Lemma enqueue_keeps_playing job now q : q_active (enqueue job now q).2 = q_active q.
Proof.
  unfold enqueue, drain_expired_pending. destruct (split_expired _ _) as [r d].
  repeat case_match; simplify_eq/=; done.
Qed.
Lemma complete_cue_never_starts header samples :
  evolves never_starts (handle_complete_cue clock header samples).
Proof.
  unfold handle_complete_cue. apply evolves_bind; [typeclasses eauto|walk|intros now].
  apply evolves_bind; [typeclasses eauto| |intros sequence].
  { unfold next_translation_arrival_sequence. walk; leaf. }
  intros b. unfold bind at 1, gets. cbv beta iota. unfold id.
  pose proof (enqueue_keeps_playing (new_job header samples (cue_id header) now sequence b) now
    (queue b)) as Hq.
  destruct (enqueue _ now (queue b)) as [result next_queue]. simpl in Hq.
  unfold bind at 1. unfold modify at 1. cbv beta iota.
  apply run_after; [typeclasses eauto|by left|].
  destruct result; unfold report_expired; walk; leaf.
Qed.
Lemma stop_never_starts reason code :
  evolves never_starts (request_playback_stop clock order reason code).
Proof.
  unfold request_playback_stop. apply evolves_bind; [typeclasses eauto|walk|intros g].
  apply evolves_bind; [typeclasses eauto|leaf|intros []].
  intros b. unfold bind at 1, gets at 1. cbv beta iota.
  unfold bind at 1, modify at 1. cbv beta iota zeta. simpl clear.
  apply run_after; [typeclasses eauto|by right|].
  unfold emit_translation_terminal. walk; leaf.
Qed.

#[local] Hint Resolve stream_frame_terminals stream_frame_never_starts complete_cue_terminals
  complete_cue_never_starts begin_mic_terminals begin_mic_never_starts stop_terminals
  stop_never_starts : evolve.

Lemma frame_terminals header payload :
  evolves (preserved (terminals_counted extra))
    (handle_translation_frame clock mixer mic header payload).
Proof.
  unfold handle_translation_frame, handle_physical_translation_frame, emit_translation_terminal.
  walk; leaf.
Qed.
Lemma frame_never_starts header payload :
  evolves never_starts (handle_translation_frame clock mixer mic header payload).
Proof.
  unfold handle_translation_frame, handle_physical_translation_frame, emit_translation_terminal,
    bind_translation_cue_authority.
  walk; leaf.
Qed.

(** The finish of a microphone write whose authority still holds. *)
Definition mic_write_is_current (request : MicWriteRequest) (b : Bridge) : bool :=
  translation_frame_has_current_authority (route b) (mw_header request).
Lemma finish_mic_never_starts request result :
  evolves never_starts (finish_virtual_mic_frame clock request result).
Proof. unfold finish_virtual_mic_frame, emit_translation_status_with_authority. walk; leaf. Qed.
Lemma finish_mic_terminals request result b :
  mic_write_is_current request b = true → terminals_counted extra b →
  terminals_counted extra (finish_virtual_mic_frame clock request result b).2.
Proof.
  intros Hc Hb. unfold finish_virtual_mic_frame. unfold bind at 1, gets at 1. cbv beta iota. unfold id.
  unfold mic_write_is_current in Hc. rewrite Hc. cbv beta iota delta [negb].
  revert Hb. match goal with |- _ → terminals_counted extra ?r.2 =>
    match r with ?m b => enough (evolves (preserved (terminals_counted extra)) m) as H by exact (H b) end end.
  walk; leaf.
Qed.

Lemma fail_route_terminals detail :
  evolves (preserved (terminals_counted extra)) (fail_process_loopback_route clock order detail).
Proof. unfold fail_process_loopback_route. walk. Qed.
Lemma fail_route_never_starts detail :
  evolves never_starts (fail_process_loopback_route clock order detail).
Proof. unfold fail_process_loopback_route. walk. Qed.
Lemma begin_shutdown_terminals :
  evolves (preserved (terminals_counted extra)) (begin_shutdown clock order).
Proof. unfold begin_shutdown, reset_translation_cue_ledgers. walk; leaf. Qed.
Lemma begin_shutdown_never_starts : evolves never_starts (begin_shutdown clock order).
Proof. unfold begin_shutdown, reset_translation_cue_ledgers. walk; leaf. Qed.
Lemma configure_terminals command plan env :
  evolves (preserved (terminals_counted extra)) (configure_init command plan env).
Proof. unfold configure_init, apply_virtual_mic_capability. walk; leaf. Qed.
Lemma configure_never_starts command plan env :
  evolves never_starts (configure_init command plan env).
Proof. unfold configure_init, apply_virtual_mic_capability. walk; leaf. Qed.
#[local] Hint Resolve configure_terminals configure_never_starts : evolve.

Lemma apply_init_terminals command plan env :
  evolves (preserved (terminals_counted extra)) (apply_init clock order command plan env).
Proof.
  unfold apply_init, bridge_error, finish_route.
  walk; leaf.
Qed.
Lemma apply_init_never_starts command plan env :
  evolves never_starts (apply_init clock order command plan env).
Proof.
  unfold apply_init, bridge_error, finish_route.
  walk; leaf.
Qed.

(** A superseded write reports one terminal more for its cue. *)
Lemma finish_mic_superseded request result b :
  mic_write_is_current request b = false → terminals_counted extra b →
  terminals_counted (default "-" (cue_id (mw_header request)) :: extra)
    (finish_virtual_mic_frame clock request result b).2.
Proof.
  intros Hc Hb. unfold finish_virtual_mic_frame. unfold bind at 1, gets at 1. cbv beta iota. unfold id.
  unfold mic_write_is_current in Hc. rewrite Hc. cbv beta iota delta [negb].
  set (cue := cue_id (mw_header request)) in *.
  assert (Hmore : ∀ b', terminals_counted extra b' → terminals_counted (default "-" cue :: extra) b').
  { intros b' H c. specialize (H c). rewrite count_if_cons. lia. }
  unfold bind at 1, on_vmic at 1. destruct (complete_terminal _ _) as [fresh l].
  match goal with |- terminals_counted _ (_ ?b').2 => set (b1 := b') end.
  assert (Hv : terminals_counted extra b1) by exact Hb. clearbody b1. unfold bind at 1.
  destruct (translation_cue_authority_from_header _) as [authority|]; [|simpl; by apply Hmore].
  pose proof (emit_with_run clock authority cue RouteFailed
    "virtual-mic-authority-superseded-during-write"
    (Some "bridge.translation-generation-ended") b1) as He.
  destruct (emit_translation_status_with_authority _ _ _ _ _ _ b1) as [[[]|e] b2]; simpl in *;
    [|subst b2; simpl; by apply Hmore].
  destruct He as (e & Hh & _ & Hcue & Hs & Ha). intros c. specialize (Hv c).
  change (from_option (λ x, x) "-" cue) with (default "-" cue).
  generalize dependent (default "-" cue). intros d _ Hcue.
  rewrite Hh, !count_if_app, (count_if_cons (eqs c)), !(count_if_cons _ (Reported e)).
  assert (Hnil : ∀ p : Happened → bool, count_if p [] = O) by done. rewrite !Hnil.
  unfold bound_now in *. rewrite Ha. simpl. rewrite Hcue, Hs, andb_true_r. unfold eqs.
  change (count_if (λ b0, bool_decide (c = b0)) extra) with (count_if (eqs c) extra).
  repeat case_bool_decide; simpl; try congruence; lia.
Qed.
End Handlers.

#[export] Hint Resolve stream_frame_terminals stream_frame_never_starts complete_cue_terminals
  complete_cue_never_starts begin_mic_terminals begin_mic_never_starts stop_terminals
  stop_never_starts frame_terminals frame_never_starts finish_mic_never_starts fail_route_terminals
  fail_route_never_starts begin_shutdown_terminals begin_shutdown_never_starts
  apply_init_terminals apply_init_never_starts : evolve.
