(* ===== verification/BridgePlayback.v ===== *)
(** * The native Bridge's playback worker

    Models [run_playback_worker] and the functions it calls
    ([apps/bridge-service-native/src/windows/playback.rs],
    [finish_completed_physical_stream] of [windows/translation.rs]). The worker
    shares [BridgeFrames.Bridge] with the pipe handlers; its other variables are
    its own. One turn of its loop is cut where it takes a lock: [worker_step]
    runs one such section and says where the turn goes on, so that handlers may
    run between any two sections.

    The output device answers by oracles indexed by the number of questions
    asked so far: is the translation player empty, how long are the players,
    which endpoint does an id open, what time is it (nanoseconds). What the
    worker does to the two players is kept in order in [device]; an appended
    buffer is shown with the job it came from. *)
From S2P Require Import Prelude RustStr TaskLifecycle SpeechRoute BridgeProtocol BridgeCues BridgeFrames.
Import StreamLedger VirtualMicLedger PlaybackQueue StatusOutbox.

(** ** State *)
Record PlaybackOutput := mk_output {
  po_device_id : string; po_resolved_device_id : string; po_source_pending_samples : list F32;
  po_source_volume : Z; po_duck_until : option Z; po_stream_ducking : bool;
  po_translation_generation : option Z
}.
#[export] Instance output_settable : Settable PlaybackOutput := λ o,
  mk_output (po_device_id o) (po_resolved_device_id o) (po_source_pending_samples o)
    (po_source_volume o) (po_duck_until o) (po_stream_ducking o) (po_translation_generation o).

Record ActivePhysicalTranslationStream := mk_stream {
  as_cue_id : string; as_created_at_ms : Z; as_estimated_duration_ms : Z; as_playback_frames : Z;
  as_translation_generation : Z; as_buffering_started_at : Z; as_playback_started : bool;
  as_ducking_enabled : bool; as_ducking_depth_percent : Z; as_ended : bool
}.
#[export] Instance stream_settable : Settable ActivePhysicalTranslationStream := λ s,
  mk_stream (as_cue_id s) (as_created_at_ms s) (as_estimated_duration_ms s) (as_playback_frames s)
    (as_translation_generation s) (as_buffering_started_at s) (as_playback_started s)
    (as_ducking_enabled s) (as_ducking_depth_percent s) (as_ended s).

(** A volume is [level / 100], ducked by a depth in percent where one is given. *)
Inductive DeviceOp :=
| OpenedOutput (device_id : string) | DroppedOutput
| AppendTranslation (job : PlaybackJob) | AppendSource (samples : list F32)
| ClearTranslation | ClearSource | PlayTranslation | PauseTranslation | PlaySource
| TranslationVolume (level : Z) | SourceVolume (level : Z) (ducking_depth : option Z).

Definition StreamCommand : Type := PlaybackJob * TranslationStreamState.

Record Worker := mk_worker {
  wk_output : option PlaybackOutput; wk_stream : option ActivePhysicalTranslationStream;
  wk_cancelled : gset string; wk_pending : list StreamCommand
}.
#[export] Instance worker_settable : Settable Worker := λ w,
  mk_worker (wk_output w) (wk_stream w) (wk_cancelled w) (wk_pending w).

Record Desk := mk_desk {
  bridge : Bridge; worker : Worker; questions : nat; device : list DeviceOp;
  replies : list (Z * (string + string))
}.
#[export] Instance desk_settable : Settable Desk := λ d,
  mk_desk (bridge d) (worker d) (questions d) (device d) (replies d).

Definition on_bridge {A} (m : M Bridge A) : M Desk A := λ d,
  let '(r, b) := m (bridge d) in (r, d <| bridge := b |>).
Definition on_worker (f : Worker → Worker) : M Desk unit := modify (λ d, d <| worker ::= f |>).
Definition output_does (ops : list DeviceOp) : M Desk unit :=
  modify (λ d, d <| device ::= (λ l, l ++ ops) |>).
Definition on_output (f : PlaybackOutput → PlaybackOutput) : M Desk unit :=
  on_worker (λ w, w <| wk_output ::= fmap f |>).

(** Unchecked [*] on a [u64] or [usize]. *)
Definition wrapping_mul (a b : Z) : Z := (a * b) mod (u64_max + 1).

(** ** Which command may use the sink *)
Definition command_cue (c : StreamCommand) : string := default "" (job_cue_id c.1).

Definition pending_physical_stream_command_is_ready (active_cue_id : option string)
    (pending_command : option StreamCommand) (complete_playback_active : bool)
    (pending_complete_sequence : option Z) : bool :=
  match pending_command with
  | None => false
  | Some command =>
      match active_cue_id with
      | Some active => eqs active (command_cue command)
      | None =>
          negb complete_playback_active
          && match pending_complete_sequence with
             | None => true
             | Some sequence => job_arrival_sequence command.1 <? sequence
             end
      end
  end.

Definition take_ready_physical_stream_command (active_cue_id : option string)
    (pending_commands : list StreamCommand) (complete_playback_active : bool)
    (pending_complete_sequence : option Z) : option (StreamCommand * list StreamCommand) :=
  match active_cue_id with
  | Some active =>
      match position (λ c : StreamCommand, opt_eqs (job_cue_id c.1) active) pending_commands with
      | Some i =>
          match pending_commands !! i with
          | Some c => Some (c, delete i pending_commands)
          | None => None
          end
      | None => None
      end
  | None =>
      match pending_commands with
      | [] => None
      | c :: rest =>
          if pending_physical_stream_command_is_ready None (Some c) complete_playback_active
               pending_complete_sequence
          then Some (c, rest) else None
      end
  end.

Definition complete_translation_command_is_ready (physical_stream_active complete_playback_active : bool)
    (pending_complete_sequence pending_stream_sequence : option Z) : bool :=
  if physical_stream_active || complete_playback_active then false else
  match pending_complete_sequence with
  | None => false
  | Some sequence =>
      match pending_stream_sequence with
      | None => true
      | Some stream_sequence => sequence <? stream_sequence
      end
  end.

(** What the worker reads of the queue under its lock. *)
Definition queue_view (q : TranslationPlaybackQueue) : bool * option Z :=
  (is_Some_b (q_active q), job_arrival_sequence <$> head (pending q)).
Definition active_cue (w : Worker) : option string := as_cue_id <$> wk_stream w.

Definition PHYSICAL_TRANSLATION_STREAM_STARTUP_BUFFER_MS : Z := 4000.
Definition PHYSICAL_TRANSLATION_STREAM_STARTUP_MAX_WAIT_MS : Z := 4500.
Definition physical_stream_ready_to_start (playback_frames : Z) (ended : bool) (buffered_for_ns : Z)
  : bool :=
  ended
  || (INTERNAL_SAMPLE_RATE_HZ * PHYSICAL_TRANSLATION_STREAM_STARTUP_BUFFER_MS / 1000 <=? playback_frames)
  || (PHYSICAL_TRANSLATION_STREAM_STARTUP_MAX_WAIT_MS * 1000000 <=? buffered_for_ns).

Definition OMNI_SOURCE_STALE_AFTER_MS : Z := 500.
Definition OMNI_MONITOR_SOURCE_QUEUE_CAPACITY : Z := 25.
Definition OMNI_MONITOR_SOURCE_BATCH_FRAMES : Z := 4800.
Definition MONITOR_VIRTUAL_PLAYBACK_LOOP : string := "monitor.virtual-playback-loop".
Definition source_playback_job_is_stale (job_generation current_generation queued_for_ns : Z) : bool :=
  negb (job_generation =? current_generation)
  || (OMNI_SOURCE_STALE_AFTER_MS * 1000000 <? queued_for_ns).
Definition monitor_source_queue_needs_drop (queued_sources : Z) : bool :=
  OMNI_MONITOR_SOURCE_QUEUE_CAPACITY <=? queued_sources.

Inductive After := NextTurn | RestOfTurn.
Inductive Phase :=
| ControlsFirst | BufferFirst | FinishStream | FinishComplete | TakeStream
| CheckStream (command : StreamCommand) (after : After)
| OpenStream (command : StreamCommand) (after : After)
| AppendStream (job : PlaybackJob) (after : After)
| BufferStream (after : After)
| Receive | ControlsSecond | Dequeue | StartJob (job : PlaybackJob) | PlayJob (job : PlaybackJob).

Section PlaybackWorker.
Context (unix_ms_at : nat → Z).
Context (empty_at : nat → bool) (length_at : nat → Z) (instant_at : nat → Z)
  (open_at open_exact_at : nat → string → string + string) (duration_of_frames : Z → Z).
Abbreviation unix_ms := (on_bridge (unix_ms unix_ms_at)).

Definition emit_translation_status (cue : option string) (status : TranslationPlaybackStatusKind)
    (reason : string) (error_code : option string) : M Desk unit :=
  on_bridge (emit_translation_status unix_ms_at cue status reason error_code).

Definition ask {A} (oracle : nat → A) : M Desk A := λ d,
  (Ok (oracle (questions d)), d <| questions ::= S |>).

Definition flush_source_pending : M Desk unit :=
  let* w := gets worker in
  match wk_output w with
  | Some o =>
      if bool_decide (po_source_pending_samples o = []) then ret tt
      else on_output (λ o, o <| po_source_pending_samples := [] |>) ;;;
           output_does [AppendSource (po_source_pending_samples o)]
  | None => ret tt
  end.

(** [output.stream_ducking = false; output.source_player.set_volume(output.source_volume)] *)
Definition end_ducking : M Desk unit :=
  let* w := gets worker in
  match wk_output w with
  | Some o => on_output (λ o, o <| po_stream_ducking := false |>) ;;;
              output_does [SourceVolume (po_source_volume o) None]
  | None => ret tt
  end.
Definition clear_translation_player : M Desk unit :=
  let* w := gets worker in
  when (is_Some_b (wk_output w)) (output_does [ClearTranslation] ;;; end_ducking).

Definition set_monitor_state (state : string) : M Desk unit :=
  on_bridge (on_route (λ r, r <| rt_monitor_playback_state := state |>)).

Definition claim (cue_id : string) (generation : Z) : M Desk bool :=
  let* b := gets bridge in
  let '(claimed, ledger) := claim_terminal cue_id generation (cu_streams (cues b)) in
  on_bridge (on_cues (λ c, c <| cu_streams := ledger |>)) ;;;
  ret claimed.

(** [output.as_ref().map(|current| !current.translation_player.empty()).unwrap_or(false)] *)
Definition translation_player_busy : M Desk bool :=
  let* w := gets worker in
  match wk_output w with
  | Some _ => let* empty := ask empty_at in ret (negb empty)
  | None => ret false
  end.

(** ** Streams *)
Definition finish_completed_physical_stream : M Desk unit :=
  let* w := gets worker in
  match wk_stream w with
  | None => ret tt
  | Some stream =>
      if negb (as_ended stream) then ret tt else
      let* busy := translation_player_busy in
      if busy then ret tt else
      on_worker (λ w, w <| wk_stream := None |>) ;;;
      end_ducking ;;;
      on_output (λ o, o <| po_translation_generation := None |>) ;;;
      let* now := unix_ms in
      let* claimed := claim (as_cue_id stream) (as_translation_generation stream) in
      when claimed
        (set_monitor_state "ready" ;;;
         on_bridge (on_counters (λ c, c <| ct_translation_queue_end_timestamp_ms := now |>)) ;;;
         emit_translation_status (Some (as_cue_id stream)) Completed
           "physical-playback-stream-completed" None)
  end.

Definition start_buffered_physical_stream_if_ready : M Desk unit :=
  let* w := gets worker in
  match wk_stream w with
  | None => ret tt
  | Some stream =>
      if as_playback_started stream then ret tt else
      let* now := ask instant_at in
      if negb (physical_stream_ready_to_start (as_playback_frames stream) (as_ended stream)
                 (saturating_sub now (as_buffering_started_at stream))) then ret tt
      else
      match wk_output w with
      | None => ret tt
      | Some o =>
          on_worker (λ w, w <| wk_stream := Some (stream <| as_playback_started := true |>) |>) ;;;
          when (as_ducking_enabled stream)
            (on_output (λ o, o <| po_stream_ducking := true |>) ;;;
             output_does [SourceVolume (po_source_volume o) (Some (as_ducking_depth_percent stream))]) ;;;
          output_does [PlayTranslation] ;;;
          unix_ms ;;;
          set_monitor_state "playing" ;;;
          emit_translation_status (Some (as_cue_id stream)) Started
            "physical-playback-stream-started" None
      end
  end.

(** The first lock of [play_physical_translation_stream]. *)
Definition stream_is_current (job : PlaybackJob) : M Desk bool :=
  gets (λ d, job_translation_generation job =? cu_translation_generation (cues (bridge d))).

Definition fail_stream (cue_id : string) (generation : Z) (reason code : string) : M Desk unit :=
  let* claimed := claim cue_id generation in
  when claimed (emit_translation_status (Some cue_id) RouteFailed reason (Some code)).

(** Opens the job's device unless the worker has it open; on an error the
    worker keeps the output it has. *)
Definition ensure_output (device_id : string) : M Desk (option string) :=
  let* w := gets worker in
  if bool_decide (po_device_id <$> wk_output w = Some device_id) then ret None else
  let* opened := ask (λ n, open_at n device_id) in
  match opened with
  | inl resolved =>
      on_worker (λ w, w <| wk_output := Some (mk_output device_id resolved [] 100 None false None) |>) ;;;
      output_does [OpenedOutput device_id] ;;;
      ret None
  | inr error => ret (Some error)
  end.

(** Whether a stream command goes on to append its samples, only looks at the
    start-up buffer, or is done. *)
Inductive StreamNext := Done | Buffer | Append.

Definition append_target (job : PlaybackJob) (cue_id : string) : M Desk StreamNext :=
  let* w := gets worker in
  match wk_stream w, wk_output w with
  | Some stream, Some _ =>
      if eqs (as_cue_id stream) cue_id
         && (as_translation_generation stream =? job_translation_generation job)
      then ret Append else ret Done
  | _, _ => ret Done
  end.

Definition start_stream (job : PlaybackJob) (cue_id : string) : M Desk StreamNext :=
  let* w := gets worker in
  let generation := job_translation_generation job in
  if is_Some_b (wk_stream w) then
    on_bridge (add_dropped (Z.min (job_playback_duration_ms job * INTERNAL_SAMPLE_RATE_HZ) u64_max / 1000)) ;;;
    on_bridge (set_error "bridge.queue-overflow") ;;;
    fail_stream cue_id generation "physical-stream-overlap" "bridge.queue-overflow" ;;;
    ret Done
  else
  let* failure := ensure_output (job_device_id job) in
  match failure with
  | Some error =>
      on_bridge (set_error "bridge.translation-playback-failed") ;;;
      fail_stream cue_id generation ("physical-output-open-failed:" +:+ error)
        "bridge.translation-playback-failed" ;;;
      ret Done
  | None =>
      let* now := ask instant_at in
      on_worker (λ w, w <| wk_stream := Some (mk_stream cue_id (job_created_at_ms job)
        (job_estimated_duration_ms job) 0 generation now false (job_ducking_enabled job)
        (job_ducking_depth_percent job) false) |>) ;;;
      set_monitor_state "queued" ;;;
      emit_translation_status (Some cue_id) Queued "accepted-stream" None ;;;
      output_does [PauseTranslation] ;;;
      append_target job cue_id
  end.

Definition open_stream (command : StreamCommand) : M Desk StreamNext :=
  let '(job, state) := command in
  let cue_id := command_cue command in
  let* w := gets worker in
  let is_active := bool_decide (active_cue w = Some cue_id) in
  if bool_decide (cue_id ∈ wk_cancelled w) then
    when (is_closing state) (on_worker (λ w, w <| wk_cancelled ::= (.∖ {[ cue_id ]}) |>)) ;;;
    ret Done
  else
  match state with
  | Abort_ =>
      when is_active
        (clear_translation_player ;;;
         on_worker (λ w, w <| wk_stream := None |>) ;;;
         let* claimed := claim cue_id (job_translation_generation job) in
         when claimed
           (set_monitor_state "ready" ;;;
            emit_translation_status (Some cue_id) RouteFailed "physical-playback-stream-aborted"
              (Some "bridge.translation-playback-failed"))) ;;;
      ret Done
  | End_ =>
      when is_active
        (on_worker (λ w, w <| wk_stream ::= fmap (λ s, s <| as_ended := true |>) |>)) ;;;
      ret Buffer
  | Start => start_stream job cue_id
  | Chunk => append_target job cue_id
  end.

Definition append_stream (job : PlaybackJob) : M Desk unit :=
  flush_source_pending ;;;
  on_output (λ o, o <| po_translation_generation := Some (job_translation_generation job) |>) ;;;
  let frames := sample_frames (job_samples job) in
  output_does [TranslationVolume (job_volume_level job); AppendTranslation job] ;;;
  on_worker (λ w, w <| wk_stream ::= fmap (λ s, s
    <| as_playback_frames ::= (λ n, saturating_add n frames) |>
    <| as_estimated_duration_ms ::= (λ n, saturating_add n (job_playback_duration_ms job)) |>) |>) ;;;
  let* now := unix_ms in
  let* len := ask length_at in
  let* w := gets worker in
  on_bridge (on_route (λ r, r <| rt_resolved_physical_playback_device_id :=
    from_option po_resolved_device_id (rt_resolved_physical_playback_device_id r) (wk_output w) |>)) ;;;
  on_bridge (on_counters (λ c, c
    <| ct_playback_frames_written ::= (λ n, saturating_add n frames) |>
    <| ct_translation_queue_end_timestamp_ms := saturating_add now (wrapping_mul len 1000) |>)).

(** ** Control commands *)
Definition apply_control_command (command : PlaybackControlCommand) : M Desk unit :=
  let* w := gets worker in
  match command with
  | RebindPhysicalOutput device_id reply_epoch =>
      when (is_Some_b (wk_output w)) (output_does [ClearSource; ClearTranslation; DroppedOutput]) ;;;
      on_worker (λ _, mk_worker None None ∅ []) ;;;
      on_bridge (modify (λ b, b <| queue := (clear (queue b)).2 |>)) ;;;
      let* opened := ask (λ n, open_exact_at n device_id) in
      match opened with
      | inl resolved =>
          on_worker (λ w, w <| wk_output :=
            Some (mk_output device_id resolved [] 100 None false None) |>) ;;;
          output_does [OpenedOutput device_id]
      | inr _ => ret tt
      end ;;;
      modify (λ d, d <| replies ::= (λ l, l ++ [(reply_epoch, opened)]) |>)
  | TerminateTranslationStream cue_id =>
      when (bool_decide (active_cue w = Some cue_id))
        (clear_translation_player ;;; on_worker (λ w, w <| wk_stream := None |>)) ;;;
      on_worker (λ w, w
        <| wk_pending ::= filter (λ c : StreamCommand, job_cue_id c.1 ≠ Some cue_id) |>
        <| wk_cancelled ::= union {[ cue_id ]} |>) ;;;
      set_monitor_state "ready"
  | StopAll request =>
      match wk_output w with
      | Some o =>
          on_output (λ o, o <| po_source_pending_samples := [] |>) ;;;
          output_does [ClearSource] ;;;
          when (from_option (λ g, g <=? sr_stop_through_generation request) true
                  (po_translation_generation o))
            (output_does [ClearTranslation] ;;;
             on_output (λ o, o <| po_translation_generation := None |>) ;;;
             end_ducking)
      | None => ret tt
      end ;;;
      on_worker (λ w, w <| wk_stream := None |> <| wk_cancelled := ∅ |> <| wk_pending := [] |>) ;;;
      when (sr_recreate_output request)
        (on_worker (λ w, w <| wk_output := None |>) ;;; output_does [DroppedOutput]) ;;;
      let* now := unix_ms in
      on_bridge (modify (λ b, b
        <| counters ::= (λ c, c <| ct_monitor_source_queued_frames := 0 |>
             <| ct_translation_queue_end_timestamp_ms := projected_end_ms now (queue b) |>) |>
        <| route ::= (λ r, r <| rt_monitor_playback_state :=
             if is_Some_b (q_active (queue b)) then "playing"
             else if bool_decide (pending (queue b) = []) then "stopped" else "queued" |>) |>))
  end.

(** ** Complete cues *)
Definition finish_completed_translation : M Desk unit :=
  let* busy := translation_player_busy in
  if busy then ret tt else
  let* now := unix_ms in
  let* b := gets bridge in
  let '(completed, next_queue) := finish_active (queue b) in
  match completed with
  | None => ret tt
  | Some completed =>
      on_bridge (modify (λ b, b <| queue := next_queue |>)) ;;;
      on_bridge (on_counters (λ c, c
        <| ct_translation_queue_end_timestamp_ms := projected_end_ms now next_queue |>)) ;;;
      set_monitor_state (if bool_decide (pending next_queue = []) then "ready" else "queued") ;;;
      emit_translation_status (ac_cue_id completed) Completed "physical-playback-completed" None
  end.

(** The first lock of [start_next_translation]. *)
Definition dequeue_translation : M Desk (option PlaybackJob) :=
  let* now := unix_ms in
  let* b := gets bridge in
  let '(job, dropped, next_queue) := start_next now (queue b) in
  on_bridge (modify (λ b, b <| queue := next_queue |>)) ;;;
  on_bridge (for_each (λ dropped,
    add_dropped (sample_frames (job_samples dropped)) ;;;
    BridgeFrames.emit_translation_status unix_ms_at (job_cue_id dropped) StaleDropped
      "realtime-budget-before-start" None) dropped) ;;;
  on_bridge (on_counters (λ c, c
    <| ct_translation_queue_end_timestamp_ms := projected_end_ms now next_queue |>)) ;;;
  set_monitor_state (if is_Some_b job then "queued"
                     else if bool_decide (pending next_queue = []) then "ready" else "queued") ;;;
  ret job.

(** From the output of the job's device to the [Started] status; [false] when it failed. *)
Definition start_job (job : PlaybackJob) : M Desk bool :=
  let* failure := ensure_output (job_device_id job) in
  match failure with
  | Some error =>
      let code := if eqs error MONITOR_VIRTUAL_PLAYBACK_LOOP then error
                  else "bridge.translation-playback-failed" in
      let* b := gets bridge in
      let '(failed, next_queue) := finish_active (queue b) in
      on_bridge (modify (λ b, b <| queue := next_queue |>)) ;;;
      let* now := unix_ms in
      on_bridge (on_counters (λ c, c
        <| ct_translation_queue_end_timestamp_ms := projected_end_ms now next_queue |>)) ;;;
      on_bridge (add_dropped (from_option ac_playback_frames 0 failed)) ;;;
      on_bridge (set_error code) ;;;
      set_monitor_state "blocked" ;;;
      emit_translation_status (job_cue_id job) RouteFailed
        ("physical-output-open-failed:" +:+ error) (Some code) ;;;
      ret false
  | None =>
      flush_source_pending ;;;
      let* w := gets worker in
      let generation := job_translation_generation job in
      when (from_option (λ g, negb (g =? generation)) false
              (wk_output w ≫= po_translation_generation))
        (output_does [ClearTranslation]) ;;;
      on_output (λ o, o <| po_translation_generation := Some generation |>) ;;;
      output_does [PlayTranslation; TranslationVolume (job_volume_level job)] ;;;
      emit_translation_status (job_cue_id job) Started "physical-playback-started" None ;;;
      ret true
  end.

Definition play_job (job : PlaybackJob) : M Desk unit :=
  let* w := gets worker in
  let frames := sample_frames (job_samples job) in
  match wk_output w with
  | None => ret tt
  | Some o =>
      when (job_ducking_enabled job)
        (let* now := ask instant_at in
         output_does [SourceVolume (po_source_volume o) (Some (job_ducking_depth_percent job))] ;;;
         on_output (λ o, o <| po_duck_until := Some (now + duration_of_frames frames) |>)) ;;;
      output_does [AppendTranslation job] ;;;
      on_bridge (on_route (λ r, r
        <| rt_resolved_physical_playback_device_id := po_resolved_device_id o |>
        <| rt_monitor_playback_state := "playing" |>)) ;;;
      on_bridge (on_counters (λ c, c
        <| ct_playback_frames_written ::= (λ n, wrapping_add n frames) |>))
  end.

(** ** Source monitor *)
Definition pending_source_chunks (o : PlaybackOutput) : Z :=
  (sample_frames (po_source_pending_samples o) + 959) / 960.

Definition play_source_job (job : PlaybackJob) (queued_at : Z) : M Desk unit :=
  let* failure := ensure_output (job_device_id job) in
  match failure with
  | Some error =>
      on_bridge (set_error (if eqs error MONITOR_VIRTUAL_PLAYBACK_LOOP then error
                            else "monitor.playback-failed:" +:+ error)%string) ;;;
      set_monitor_state "blocked"
  | None =>
      let* d := gets id in
      match wk_output (worker d) with
      | None => ret tt
      | Some o =>
          on_bridge (on_route (λ r, r
            <| rt_resolved_physical_playback_device_id := po_resolved_device_id o |>)) ;;;
          let* now := ask instant_at in
          if source_playback_job_is_stale (job_source_generation job)
               (rt_source_generation (route (bridge d))) (saturating_sub now queued_at)
          then ret tt else
          let* len := ask length_at in
          if monitor_source_queue_needs_drop len then ret tt else
          on_output (λ o, o <| po_source_volume := job_volume_level job |>) ;;;
          let* now := ask instant_at in
          let elapsed := from_option (λ deadline, deadline <=? now) false (po_duck_until o) in
          when (negb (po_stream_ducking o) && elapsed)
            (output_does [SourceVolume (job_volume_level job) None] ;;;
             on_output (λ o, o <| po_duck_until := None |>)) ;;;
          let* w := gets worker in
          when (from_option (λ o, negb (is_Some_b (po_duck_until o)) && negb (po_stream_ducking o))
                  false (wk_output w))
            (output_does [SourceVolume (job_volume_level job) None]) ;;;
          on_output (λ o, o <| po_source_pending_samples ::= (λ l, l ++ job_samples job) |>) ;;;
          let* w := gets worker in
          when (from_option (λ o, OMNI_MONITOR_SOURCE_BATCH_FRAMES * INTERNAL_CHANNEL_COUNT
                  <=? Z.of_nat (length (po_source_pending_samples o))) false (wk_output w))
            flush_source_pending ;;;
          let* len := ask length_at in
          let* w := gets worker in
          on_bridge (on_counters (λ c, c <| ct_monitor_source_queued_frames :=
            wrapping_add (wrapping_mul len 5) (from_option pending_source_chunks 0 (wk_output w)) |>))
      end
  end.

Definition flush_source : M Desk unit :=
  let* w := gets worker in
  when (is_Some_b (wk_output w))
    (flush_source_pending ;;;
     output_does [ClearSource; PlaySource] ;;;
     on_output (λ o, o <| po_source_pending_samples := [] |>)) ;;;
  on_bridge (on_counters (λ c, c <| ct_monitor_source_queued_frames := 0 |>)).

(** ** The loop *)
Definition after_phase (after : After) : Phase :=
  match after with NextTurn => ControlsFirst | RestOfTurn => ControlsSecond end.

Definition take_control : M Desk (option PlaybackControlCommand) :=
  let* b := gets bridge in
  match controls b with
  | [] => ret None
  | c :: rest => on_bridge (modify (λ b, b <| controls := rest |>)) ;;; ret (Some c)
  end.
Definition take_command : M Desk (option PlaybackCommand) :=
  let* b := gets bridge in
  match commands b with
  | [] => ret None
  | c :: rest => on_bridge (modify (λ b, b <| commands := rest |>)) ;;; ret (Some c)
  end.

Definition worker_step (phase : Phase) : M Desk Phase :=
  match phase with
  | ControlsFirst =>
      let* control := take_control in
      match control with
      | Some c => apply_control_command c ;;; ret ControlsFirst
      | None => ret BufferFirst
      end
  | BufferFirst => start_buffered_physical_stream_if_ready ;;; ret FinishStream
  | FinishStream => finish_completed_physical_stream ;;; ret FinishComplete
  | FinishComplete => finish_completed_translation ;;; ret TakeStream
  | TakeStream =>
      let* d := gets id in
      let '(complete_active, sequence) := queue_view (queue (bridge d)) in
      match take_ready_physical_stream_command (active_cue (worker d)) (wk_pending (worker d))
              complete_active sequence with
      | Some (command, rest) =>
          on_worker (λ w, w <| wk_pending := rest |>) ;;; ret (CheckStream command NextTurn)
      | None => ret Receive
      end
  | CheckStream command after =>
      let* current := stream_is_current command.1 in
      ret (if current then OpenStream command after else after_phase after)
  | OpenStream command after =>
      let* next := open_stream command in
      ret match next with
          | Done => after_phase after
          | Buffer => BufferStream after
          | Append => AppendStream command.1 after
          end
  | AppendStream job after => append_stream job ;;; ret (BufferStream after)
  | BufferStream after => start_buffered_physical_stream_if_ready ;;; ret (after_phase after)
  | Receive =>
      let* command := take_command in
      match command with
      | None | Some TranslationQueued => ret ControlsSecond
      | Some (FlushSource _) => flush_source ;;; ret ControlsSecond
      | Some (Play job queued_at) => play_source_job job queued_at ;;; ret ControlsSecond
      | Some (TranslationStream job state) =>
          let* d := gets id in
          let '(complete_active, sequence) := queue_view (queue (bridge d)) in
          if pending_physical_stream_command_is_ready (active_cue (worker d)) (Some (job, state))
               complete_active sequence
          then ret (CheckStream (job, state) RestOfTurn)
          else on_worker (λ w, w <| wk_pending ::= (λ l, l ++ [(job, state)]) |>) ;;;
               ret ControlsSecond
      end
  | ControlsSecond =>
      let* control := take_control in
      match control with
      | Some c => apply_control_command c ;;; ret ControlsSecond
      | None =>
          let* d := gets id in
          let '(complete_active, sequence) := queue_view (queue (bridge d)) in
          ret (if complete_translation_command_is_ready (is_Some_b (wk_stream (worker d)))
                    complete_active sequence
                    ((λ c : StreamCommand, job_arrival_sequence c.1) <$> head (wk_pending (worker d)))
               then Dequeue else ControlsFirst)
      end
  | Dequeue =>
      let* job := dequeue_translation in
      ret match job with Some job => StartJob job | None => ControlsFirst end
  | StartJob job =>
      let* started := start_job job in
      ret (if started then PlayJob job else ControlsFirst)
  | PlayJob job => play_job job ;;; ret ControlsFirst
  end.
End PlaybackWorker.
