(* ===== verification/BridgeSystem.v ===== *)
(** * The native Bridge as one concurrent system

    The pipe handlers, the control commands, the capture threads and the
    playback worker share one [BridgeState]: a step of the system is one of
    their lock-protected sections ([BridgeFrames], [BridgeControl],
    [BridgePlayback]), and the steps interleave in any order. A section that
    panics poisons the lock, so the system takes no step from there. The
    theorems hold in every state it reaches, for all answers of the clock, the
    device and the drivers. *)
From S2P Require Import Prelude RustStr TaskLifecycle SpeechRoute BridgeProtocol BridgeCues BridgeFrames BridgeControl BridgeCuesTheorems BridgeFramesTheorems BridgePlayback.
Import StreamLedger VirtualMicLedger PlaybackQueue StatusOutbox.

(** ** Steps *)
Inductive Label :=
| Work
| Frame (header : AudioFrameHeader) (payload : list Z)
| MicWritten (request : MicWriteRequest) (result : MicOutcome + MicError)
| Init (command : InitCommand) (plan : InitPlan) (env : InitEnvironment)
| Rebind (wait : RebindWait)
| InitDone (wait : RebindWait) (result : string + string)
| ProbeBegun (build : option Z)
| ProbeDone (build : option Z) (supported : bool) (classified : ProcessLoopbackStatus)
    (failure : option string)
| CaptureFailed (detail : string)
| ShutDown
| ShutDownRecorded (evidence : LoopbackEvidence)
| ShutDownAnswered (generation : Z) (result : LoopbackEvidence + string)
| Subscribed | Unsubscribed (generation : Z) | SourceFlushed
| SourceSent (command : PlaybackCommand)
| Acknowledged (ack : TranslationPlaybackStatusAck).

(** [superseded] remembers the cues of microphone writes whose authority was
    gone when they returned. *)
Record System := mk_system {
  desk : Desk; phase : Phase; mic_writes : list MicWriteRequest; superseded : list string
}.
#[export] Instance system_settable : Settable System := λ s,
  mk_system (desk s) (phase s) (mic_writes s) (superseded s).

Definition is_source_command (c : PlaybackCommand) : bool :=
  match c with Play _ _ | FlushSource _ => true | _ => false end.

Section System.
Context (clock : nat → Z) (order : list string → list string)
  (mixer : Mix → AudioFrameHeader → list Z → list F32) (mic : string → Z).
Context (empty_at : nat → bool) (length_at : nat → Z) (instant_at : nat → Z)
  (open_at open_exact_at : nat → string → string + string) (duration_of_frames : Z → Z).

Definition run_worker : Phase → M Desk Phase :=
  worker_step clock empty_at length_at instant_at open_at open_exact_at duration_of_frames.

(** The section a label other than [Work] runs; a frame may leave a driver write behind. *)
Definition handler (l : Label) : M Bridge (option MicWriteRequest) :=
  match l with
  | Work => ret None
  | Frame header payload =>
      let* result := handle_translation_frame clock mixer mic header payload in
      ret match result with inl _ => None | inr request => Some request end
  | MicWritten request result => finish_virtual_mic_frame clock request result ;;; ret None
  | Init command plan env => apply_init clock order command plan env ;;; ret None
  | Rebind wait => send_rebind wait ;;; ret None
  | InitDone wait result => finish_init wait result ;;; ret None
  | ProbeBegun build => begin_probe build ;;; ret None
  | ProbeDone build supported classified failure =>
      finish_probe build supported classified failure ;;; ret None
  | CaptureFailed detail => fail_process_loopback_route clock order detail ;;; ret None
  | ShutDown => begin_shutdown clock order ;;; ret None
  | ShutDownRecorded evidence => record_process_loopback_terminal_evidence evidence ;;; ret None
  | ShutDownAnswered generation result => finish_shutdown generation result ;;; ret None
  | Subscribed => on_route (λ r, (begin_source_subscription r).2) ;;; ret None
  | Unsubscribed generation => on_route (λ r, (end_source_subscription generation r).2) ;;; ret None
  | SourceFlushed => flush_source_capture ;;; ret None
  | SourceSent command => when (is_source_command command) (try_send command ;;; ret tt) ;;; ret None
  | Acknowledged ack =>
      on_cues (λ c, c <| cu_outbox := (acknowledge ack (cu_outbox c)).2 |>) ;;; ret None
  end.

Inductive step : System → Label → System → Prop :=
| step_work s p d :
    run_worker (phase s) (desk s) = (Ok p, d) →
    step s Work (s <| desk := d |> <| phase := p |>)
| step_mic s before request after result b r :
    mic_writes s = before ++ request :: after →
    handler (MicWritten request result) (bridge (desk s)) = (Ok r, b) →
    step s (MicWritten request result)
      (s <| desk ::= (λ d, d <| bridge := b |>) |>
         <| mic_writes := before ++ after |>
         <| superseded ::= (λ l, if mic_write_is_current request (bridge (desk s)) then l
                                 else default "-" (cue_id (mw_header request)) :: l) |>)
| step_handler s l b r :
    l ≠ Work → (∀ request result, l ≠ MicWritten request result) →
    handler l (bridge (desk s)) = (Ok r, b) →
    step s l (s <| desk ::= (λ d, d <| bridge := b |>) |>
                <| mic_writes ::= (λ l, l ++ match r with Some w => [w] | None => [] end) |>).

(** Initially nothing has been accepted or bound. *)
Definition initial (s : System) : Prop :=
  let b := bridge (desk s) in
  history b = [] ∧ cu_authorities (cues b) = ∅ ∧ cu_streams (cues b) = empty_ledger
  ∧ queue b = new 128 ∧ commands b = [] ∧ controls b = []
  ∧ worker (desk s) = mk_worker None None ∅ [] ∧ phase s = ControlsFirst
  ∧ mic_writes s = [] ∧ superseded s = [].

(** ** Relations on the desk *)
Definition on_bridges (R : Bridge → Bridge → Prop) (d d' : Desk) : Prop := R (bridge d) (bridge d').
#[local] Instance on_bridges_preorder R `{!PreOrder R} : PreOrder (on_bridges R).
Proof. split; unfold on_bridges; [by intros d|intros x y z H1 H2; by etransitivity]. Qed.
Definition no_new_stream (d d' : Desk) : Prop := wk_stream (worker d) = None → wk_stream (worker d') = None.
#[local] Instance no_new_stream_preorder : PreOrder no_new_stream.
Proof. split; unfold no_new_stream; [by intros d|naive_solver]. Qed.
End System.

#[export] Existing Instance on_bridges_preorder.
#[export] Existing Instance no_new_stream_preorder.

Section Desk.
Context (R : Bridge → Bridge → Prop) `{!PreOrder R}.
Lemma evolves_on_bridge {A} (m : M Bridge A) : evolves R m → evolves (on_bridges R) (on_bridge m).
Proof. intros H d. specialize (H (bridge d)). unfold on_bridge, on_bridges. by destruct (m _). Qed.
Lemma on_bridges_on_worker f : evolves (on_bridges R) (on_worker f).
Proof. intros d. unfold on_bridges. cbn. reflexivity. Qed.
Lemma on_bridges_output ops : evolves (on_bridges R) (output_does ops).
Proof. intros d. unfold on_bridges. cbn. reflexivity. Qed.
Lemma on_bridges_ask {A} (o : nat → A) : evolves (on_bridges R) (ask o).
Proof. intros d. unfold on_bridges. cbn. reflexivity. Qed.
Lemma on_bridges_on_output f : evolves (on_bridges R) (on_output f).
Proof. apply on_bridges_on_worker. Qed.
End Desk.
Lemma no_new_stream_on_bridge {A} (m : M Bridge A) : evolves no_new_stream (on_bridge m).
Proof. intros d. unfold on_bridge, no_new_stream. by destruct (m _). Qed.
Lemma no_new_stream_output ops : evolves no_new_stream (output_does ops).
Proof. intros d H. exact H. Qed.
Lemma no_new_stream_ask {A} (o : nat → A) : evolves no_new_stream (ask o).
Proof. intros d H. exact H. Qed.
Lemma no_new_stream_on_output f : evolves no_new_stream (on_output f).
Proof. intros d H. exact H. Qed.
#[export] Hint Resolve evolves_on_bridge on_bridges_on_worker on_bridges_output on_bridges_ask
  on_bridges_on_output no_new_stream_on_bridge no_new_stream_output no_new_stream_ask
  no_new_stream_on_output : evolve.

(** Leaves of [walk] on the desk. *)
Ltac stream_leaf :=
  solve [ intros ?; unfold no_new_stream; simpl; first [done|by intros ->] ].
Ltac queue_leaf :=
  solve [ apply evolves_on_bridge; leaf
        | apply evolves_on_bridge; apply evolves_modify; intros ?; right; simpl;
          unfold finish_active in *; simplify_eq; reflexivity
        | apply evolves_modify; intros ?; unfold on_bridges; simpl; reflexivity
        | apply evolves_on_bridge; walk; leaf ].

Section WorkerParts.
Context (extra : list string) (clock : nat → Z) (empty_at : nat → bool) (length_at : nat → Z) (instant_at : nat → Z)
  (open_at open_exact_at : nat → string → string + string) (duration_of_frames : Z → Z).
Abbreviation start_buffered := (start_buffered_physical_stream_if_ready clock instant_at).
Abbreviation finish_stream := (finish_completed_physical_stream clock empty_at).
Abbreviation finish_complete := (finish_completed_translation clock empty_at).
Abbreviation control := (apply_control_command clock open_exact_at).

(** Unfolds a worker function down to lock sections and walks it. *)
Ltac part :=
  unfold start_buffered_physical_stream_if_ready, finish_completed_physical_stream,
    finish_completed_translation, apply_control_command, dequeue_translation, start_job, play_job,
    play_source_job, flush_source, append_stream, open_stream, start_stream, fail_stream,
    append_target, ensure_output, clear_translation_player, end_ducking, flush_source_pending, claim,
    translation_player_busy, set_monitor_state, stream_is_current, take_control, take_command,
    BridgePlayback.emit_translation_status;
  walk; try queue_leaf; try stream_leaf.

Lemma start_buffered_never_starts : evolves (on_bridges never_starts) start_buffered.
Proof. part. Qed.
Lemma start_buffered_terminals : evolves (on_bridges (preserved (terminals_counted extra))) start_buffered.
Proof. part. Qed.
Lemma finish_stream_never_starts : evolves (on_bridges never_starts) finish_stream.
Proof. part. Qed.
Lemma finish_stream_terminals : evolves (on_bridges (preserved (terminals_counted extra))) finish_stream.
Proof. part. Qed.
Lemma finish_stream_no_new_stream : evolves no_new_stream finish_stream.
Proof. part. Qed.
Lemma finish_complete_never_starts : evolves (on_bridges never_starts) finish_complete.
Proof. part. Qed.
Lemma finish_complete_terminals : evolves (on_bridges (preserved (terminals_counted extra))) finish_complete.
Proof. part. Qed.
Lemma finish_complete_no_new_stream : evolves no_new_stream finish_complete.
Proof. part. Qed.
Lemma control_never_starts c : evolves (on_bridges never_starts) (control c).
Proof. part. Qed.
Lemma control_terminals c : evolves (on_bridges (preserved (terminals_counted extra))) (control c).
Proof. part. Qed.
Lemma control_no_new_stream c : evolves no_new_stream (control c).
Proof. part. Qed.
Lemma append_never_starts job : evolves (on_bridges never_starts) (append_stream clock length_at job).
Proof. part. Qed.
Lemma append_terminals job :
  evolves (on_bridges (preserved (terminals_counted extra))) (append_stream clock length_at job).
Proof. part. Qed.
Lemma open_never_starts c :
  evolves (on_bridges never_starts) (open_stream clock instant_at open_at c).
Proof. part. Qed.
Lemma open_terminals c :
  evolves (on_bridges (preserved (terminals_counted extra))) (open_stream clock instant_at open_at c).
Proof. part. Qed.
Lemma dequeue_terminals :
  evolves (on_bridges (preserved (terminals_counted extra))) (dequeue_translation clock).
Proof. part. Qed.
Lemma dequeue_no_new_stream : evolves no_new_stream (dequeue_translation clock).
Proof. part. Qed.
Lemma start_job_never_starts job : evolves (on_bridges never_starts) (start_job clock open_at job).
Proof. part. Qed.
Lemma start_job_terminals job :
  evolves (on_bridges (preserved (terminals_counted extra))) (start_job clock open_at job).
Proof. part. Qed.
Lemma start_job_no_new_stream job : evolves no_new_stream (start_job clock open_at job).
Proof. part. Qed.
Lemma play_job_never_starts job :
  evolves (on_bridges never_starts) (play_job instant_at duration_of_frames job).
Proof. part. Qed.
Lemma play_job_terminals job :
  evolves (on_bridges (preserved (terminals_counted extra))) (play_job instant_at duration_of_frames job).
Proof. part. Qed.
Lemma source_never_starts job queued_at :
  evolves (on_bridges never_starts) (play_source_job length_at instant_at open_at job queued_at).
Proof. part. Qed.
Lemma source_terminals job queued_at :
  evolves (on_bridges (preserved (terminals_counted extra)))
    (play_source_job length_at instant_at open_at job queued_at).
Proof. part. Qed.
Lemma source_no_new_stream job queued_at :
  evolves no_new_stream (play_source_job length_at instant_at open_at job queued_at).
Proof. part. Qed.
Lemma flush_never_starts : evolves (on_bridges never_starts) flush_source.
Proof. part. Qed.
Lemma flush_terminals : evolves (on_bridges (preserved (terminals_counted extra))) flush_source.
Proof. part. Qed.
Lemma flush_no_new_stream : evolves no_new_stream flush_source.
Proof. part. Qed.
Lemma take_control_never_starts : evolves (on_bridges never_starts) take_control.
Proof. part. Qed.
Lemma take_control_no_new_stream : evolves no_new_stream take_control.
Proof. part. Qed.
End WorkerParts.

#[export] Hint Resolve start_buffered_terminals finish_stream_terminals finish_complete_terminals
  control_terminals append_terminals open_terminals dequeue_terminals start_job_terminals
  play_job_terminals source_terminals flush_terminals : evolve.

Section Invariants.
Context (clock : nat → Z) (order : list string → list string)
  (mixer : Mix → AudioFrameHeader → list Z → list F32) (mic : string → Z).
Context (empty_at : nat → bool) (length_at : nat → Z) (instant_at : nat → Z)
  (open_at open_exact_at : nat → string → string + string) (duration_of_frames : Z → Z).
Abbreviation run_worker :=
  (run_worker clock empty_at length_at instant_at open_at open_exact_at duration_of_frames).
Abbreviation handler := (handler clock order mixer mic).
Abbreviation step := (step clock order mixer mic empty_at length_at instant_at open_at open_exact_at
  duration_of_frames).

(** ** Terminals, over all steps *)
Lemma worker_terminals extra p :
  evolves (on_bridges (preserved (terminals_counted extra))) (run_worker p).
Proof.
  unfold BridgeSystem.run_worker, worker_step, take_control, take_command, stream_is_current.
  destruct p; walk; queue_leaf.
Qed.

Ltac by_handler :=
  unfold BridgeSystem.handler, send_rebind, finish_init, finish_route, bridge_error, begin_probe,
    finish_probe, record_process_loopback_terminal_evidence, finish_shutdown, degrade,
    flush_source_capture; walk; leaf.

Lemma handler_terminals extra l :
  (∀ request result, l ≠ MicWritten request result) →
  evolves (preserved (terminals_counted extra)) (handler l).
Proof. intros Hl. destruct l; try (exfalso; by eapply Hl); by_handler. Qed.
Lemma handler_never_starts l : evolves never_starts (handler l).
Proof. destruct l; by_handler. Qed.

Definition counted (s : System) : Prop := terminals_counted (superseded s) (bridge (desk s)).
Lemma counted_invariant : Invariant initial step counted.
Proof.
  split.
  - intros s (Hh & Ha & _ & _ & _ & _ & _ & _ & _ & Hs) cue.
    unfold bound_now. rewrite Hh, Ha, Hs, lookup_empty. done.
  - intros s l s' Hs H. destruct H as [s p d H|s before request after result b r Hin H|s l b r _ Hl H];
      unfold counted in *; simpl.
    + pose proof (worker_terminals (superseded s) (phase s) (desk s)) as Hw. rewrite H in Hw. by apply Hw.
    + simpl in H. unfold bind at 1 in H.
      destruct (mic_write_is_current request (bridge (desk s))) eqn:Ec.
      * pose proof (finish_mic_terminals _ clock request result _ Ec Hs) as Hm.
        destruct (finish_virtual_mic_frame _ _ _ _) as [[a|e] b']; unfold ret in H; by simplify_eq/=.
      * pose proof (finish_mic_superseded _ clock request result _ Ec Hs) as Hm.
        destruct (finish_virtual_mic_frame _ _ _ _) as [[a|e] b']; unfold ret in H; by simplify_eq/=.
    + pose proof (handler_terminals (superseded s) l Hl (bridge (desk s)) Hs) as Hh. by rewrite H in Hh.
Qed.

(** ** One owner of the sink *)
Definition idle (d : Desk) : Prop := q_active (queue (bridge d)) = None.
Definition streamless (d : Desk) : Prop := wk_stream (worker d) = None.
Definition one_owner (d : Desk) : Prop := wk_stream (worker d) ≠ None → idle d.
Definition owner_of (p : Phase) (d : Desk) : Prop :=
  match p with
  | CheckStream _ _ | OpenStream _ _ | AppendStream _ _ => idle d
  | Dequeue | StartJob _ | PlayJob _ => streamless d
  | _ => one_owner d
  end.
Lemma idle_one_owner d : idle d → one_owner d.
Proof. by intros H _. Qed.
Lemma streamless_one_owner d : streamless d → one_owner d.
Proof. intros H H'. by destruct H'. Qed.
Lemma owner_one_owner p d : owner_of p d → one_owner d.
Proof. destruct p; simpl; auto using idle_one_owner, streamless_one_owner. Qed.

Definition calm {A} (m : M Desk A) : Prop :=
  evolves (on_bridges never_starts) m ∧ evolves no_new_stream m.
Definition anything (d : Desk) : Prop := True.
Lemma keeps_idle {A} (m : M Desk A) :
  evolves (on_bridges never_starts) m → triple idle m (λ _, idle) anything.
Proof.
  intros H d Hd. specialize (H d). destruct (m d) as [[a|e] d']; [|done].
  destruct H as [H|H]; unfold idle in *; simpl in *; congruence.
Qed.
Lemma keeps_streamless {A} (m : M Desk A) :
  evolves no_new_stream m → triple streamless m (λ _, streamless) anything.
Proof. intros H d Hd. specialize (H d Hd). by destruct (m d) as [[a|e] d']. Qed.
Lemma keeps_one_owner {A} (m : M Desk A) : calm m → triple one_owner m (λ _, one_owner) anything.
Proof.
  intros [Hb Hw] d Hd. specialize (Hb d). specialize (Hw d). destruct (m d) as [[a|e] d']; [|done].
  intros Hs. unfold idle, one_owner, no_new_stream, on_bridges in *. simpl in *.
  assert (q_active (queue (bridge d)) = None) as Hq by (apply Hd; intros Hn; by apply Hs, Hw).
  destruct Hb as [Hb|Hb]; congruence.
Qed.

Lemma start_buffered_calm : calm (start_buffered_physical_stream_if_ready clock instant_at).
Proof.
  split; [apply start_buffered_never_starts|]. intros d H.
  unfold start_buffered_physical_stream_if_ready, bind, gets. by rewrite H.
Qed.
Lemma on_worker_calm f :
  (∀ w, wk_stream w = None → wk_stream (f w) = None) → calm (on_worker f).
Proof. intros H. split; [auto with evolve|]. intros d Hd. by apply H. Qed.

(** A section that leaves with [X] for whatever phase it returns. *)
Lemma leaves {A} (P X : Desk → Prop) (m : M Desk A) (k : A → Phase) :
  triple P m (λ _, X) anything → (∀ a d, X d → owner_of (k a) d) →
  triple P (let* a := m in ret (k a)) owner_of anything.
Proof. intros Hm Hk. eapply triple_bind; [exact Hm|]. intros a. apply triple_ret. auto. Qed.

Lemma take_ready_idle (w : Worker) d command rest :
  one_owner d → worker d = w →
  take_ready_physical_stream_command (active_cue w) (wk_pending w)
    (queue_view (queue (bridge d))).1 (queue_view (queue (bridge d))).2 = Some (command, rest) →
  idle d.
Proof.
  intros Hd <-. unfold take_ready_physical_stream_command, active_cue, idle. simpl.
  destruct (wk_stream (worker d)) as [stream|] eqn:Es; simpl; [intros _; apply Hd; congruence|].
  destruct (wk_pending (worker d)); [done|]. destruct (q_active _); [done|]. done.
Qed.
Lemma ready_idle d command :
  one_owner d →
  pending_physical_stream_command_is_ready (active_cue (worker d)) (Some command)
    (queue_view (queue (bridge d))).1 (queue_view (queue (bridge d))).2 = true →
  idle d.
Proof.
  intros Hd. unfold pending_physical_stream_command_is_ready, active_cue, idle. simpl.
  destruct (wk_stream (worker d)) as [stream|] eqn:Es; simpl; [intros _; apply Hd; congruence|].
  by destruct (q_active _).
Qed.

Lemma section_keeps_owner p : triple (owner_of p) (run_worker p) owner_of anything.
Proof.
  unfold BridgeSystem.run_worker, worker_step.
  assert (Hc : ∀ c, calm (apply_control_command clock open_exact_at c))
    by (split; [apply control_never_starts|apply control_no_new_stream]).
  assert (Ht : calm take_control) by (split; [apply take_control_never_starts|apply take_control_no_new_stream]).
  destruct p as [| | | | |command after|command after|job after|after| | | |job|job]; simpl owner_of.
  - eapply triple_bind; [by apply keeps_one_owner|]. intros [c|]; [|by apply triple_ret].
    eapply leaves; [by apply keeps_one_owner|done].
  - eapply leaves; [apply keeps_one_owner, start_buffered_calm|done].
  - eapply leaves; [|done]. apply keeps_one_owner.
    split; [apply finish_stream_never_starts|apply finish_stream_no_new_stream].
  - eapply leaves; [|done]. apply keeps_one_owner.
    split; [apply finish_complete_never_starts|apply finish_complete_no_new_stream].
  - intros d Hd. unfold bind at 1, gets, id. simpl.
    destruct (take_ready_physical_stream_command _ _ _ _) as [[command rest]|] eqn:E; simpl; [|done].
    by eapply (take_ready_idle _ d).
  - eapply triple_bind; [apply keeps_idle|].
    { unfold stream_is_current. apply evolves_gets. typeclasses eauto. }
    intros []; apply triple_ret; [done|]. intros d Hd. destruct after; by apply idle_one_owner.
  - eapply leaves; [apply keeps_idle, open_never_starts|].
    intros [] d Hd; simpl; [destruct after; by apply idle_one_owner| |]; auto using idle_one_owner.
  - eapply leaves; [apply keeps_idle, append_never_starts|intros; by apply idle_one_owner].
  - eapply leaves; [apply keeps_one_owner, start_buffered_calm|]. intros; by destruct after.
  - eapply triple_bind.
    { apply keeps_one_owner. unfold take_command. split; [walk; queue_leaf|walk]. }
    intros [[job queued_at| |job state|acknowledged]|]; try by apply triple_ret.
    + eapply leaves; [|done]. apply keeps_one_owner.
      split; [apply source_never_starts|apply source_no_new_stream].
    + intros d Hd. unfold bind at 1, gets, id. cbv beta iota.
      destruct (queue_view _) as [complete sequence] eqn:Ev.
      destruct (pending_physical_stream_command_is_ready _ _ _ _) eqn:E; [|done].
      eapply ready_idle; [done|]. rewrite Ev. exact E.
    + eapply leaves; [|done]. apply keeps_one_owner.
      split; [apply flush_never_starts|apply flush_no_new_stream].
  - eapply triple_bind; [by apply keeps_one_owner|]. intros [c|].
    { eapply leaves; [by apply keeps_one_owner|done]. }
    intros d Hd. unfold bind, gets, id, ret. simpl.
    destruct (complete_translation_command_is_ready _ _ _ _) eqn:E; [|done].
    unfold complete_translation_command_is_ready in E. unfold streamless.
    unfold owner_of, streamless. by destruct (wk_stream (worker d)).
  - eapply leaves; [apply keeps_streamless, dequeue_no_new_stream|].
    intros [job|] d Hd; simpl; auto using streamless_one_owner.
  - eapply leaves; [apply keeps_streamless, start_job_no_new_stream|].
    intros [] d Hd; simpl; auto using streamless_one_owner.
  - eapply leaves; [apply keeps_streamless|intros; by apply streamless_one_owner].
    unfold play_job. walk; stream_leaf.
Qed.

Definition owned (s : System) : Prop := owner_of (phase s) (desk s).
Lemma owned_invariant : Invariant initial step owned.
Proof.
  split.
  - intros s (_ & _ & _ & Hq & _ & _ & Hw & Hp & _ & _). unfold owned. rewrite Hp. simpl.
    unfold one_owner. by rewrite Hw.
  - assert (Hb : ∀ s b, owned s → never_starts (bridge (desk s)) b →
      owner_of (phase s) ((desk s) <| bridge := b |>)).
    { intros s b Hs Hb. unfold owned in *.
      destruct (phase s); unfold owner_of, one_owner, idle, streamless in *; simpl in *; try done;
        destruct Hb as [Hb|Hb]; rewrite Hb; auto. }
    intros s l s' Hs H. destruct H as [s p d H|s before request after result b r Hin H|s l b r _ Hl H];
      unfold owned; simpl.
    + pose proof (section_keeps_owner (phase s) (desk s) Hs) as Hw. by rewrite H in Hw.
    + apply Hb; [done|]. pose proof (handler_never_starts (MicWritten request result) (bridge (desk s))) as Hh.
      by rewrite H in Hh.
    + apply Hb; [done|]. pose proof (handler_never_starts l (bridge (desk s))) as Hh. by rewrite H in Hh.
Qed.
End Invariants.
