(* ===== verification/BridgeTheorems.v ===== *)
(** * What the native Bridge guarantees

    The properties of the Bridge's ledgers ([BridgeCuesTheorems]), of its
    handlers ([BridgeFramesTheorems]) and of the system they form with the
    playback worker ([BridgeSystem]), with concrete runs. *)
From stdpp Require Import sorting.
From S2P Require Import Prelude RustStr TaskLifecycle SpeechRoute BridgeProtocol BridgeCues BridgeFrames BridgeControl BridgeCuesTheorems BridgeFramesTheorems BridgePlayback BridgeSystem.
Import StreamLedger VirtualMicLedger PlaybackQueue StatusOutbox.

(** ** Reports of a list of terminals *)
Definition talk (b : Bridge) := (history b, cu_authorities (cues b)).
Definition core (b : Bridge) := (talk b, work b, controls b).
Definition same_core (b b' : Bridge) : Prop := core b' = core b.
#[local] Instance same_core_unaffected : Unaffected same_core.
Proof. split; [split; [by intros b|unfold same_core; intros x y z; congruence]|done..]. Qed.

Lemma for_each_ok {A} (f : A → M Bridge unit) l :
  (∀ x, always_ok (f x)) → always_ok (for_each f l).
Proof.
  intros Hf. induction l as [|x l IH]; simpl; [by intros b|].
  apply always_ok_bind; [apply Hf|by intros _].
Qed.

(** Symbolic execution of the first step of a run. *)
Lemma bind_on_cues {B} f (k : () → M Bridge B) b :
  bind (on_cues f) k b = k tt (b <| cues ::= f |>).
Proof. reflexivity. Qed.
Lemma bind_on_route {B} f (k : () → M Bridge B) b :
  bind (on_route f) k b = k tt (b <| route ::= f |>).
Proof. reflexivity. Qed.
Lemma bind_unix_ms {B} clock (k : Z → M Bridge B) b :
  bind (unix_ms clock) k b = k (clock (clock_reads b)) (b <| clock_reads ::= S |>).
Proof. reflexivity. Qed.
Ltac execute :=
  cbv zeta;
  repeat (first [rewrite bind_gets | rewrite bind_on_cues | rewrite bind_modify]; cbv beta iota zeta).
Lemma bind_quiet {B} (R : Bridge → Bridge → Prop) (m : M Bridge unit) (k : () → M Bridge B) b :
  always_ok m → evolves R m → ∃ b', R b b' ∧ bind m k b = k tt b'.
Proof.
  intros Hok He. destruct (always_ok_run R m b Hok He) as (b' & Hr & HR). exists b'.
  split; [done|]. by apply bind_run.
Qed.

Ltac quiet b' H :=
  match goal with |- context [bind ?m ?k ?b0] =>
    destruct (bind_quiet same_core m k b0) as (b' & H & ->) end.

Section Reports.
Context (clock : nat → Z) (order : list string → list string).
Abbreviation report := (emit_translation_terminal clock).

(** The cues a list of terminals is about, and what reporting it did. *)
Definition about (ts : list TranslationCueTerminal) (cue : string) : Prop :=
  ∃ t, t ∈ ts ∧ tm_cue_id t = Some cue.
Definition reported (ts : list TranslationCueTerminal) (b b' : Bridge) : Prop := ∃ new,
  history b' = history b ++ new
  ∧ (∀ cue, cu_authorities (cues b) !! cue = None → cu_authorities (cues b') !! cue = None)
  ∧ (∀ cue, ¬ about ts cue → cu_authorities (cues b') !! cue = cu_authorities (cues b) !! cue
       ∧ ∀ e, Reported e ∈ new → st_cue_id e ≠ cue)
  ∧ (∀ cue, about ts cue → is_Some (cu_authorities (cues b) !! cue) →
       cu_authorities (cues b') !! cue = None
       ∧ ∃ e, Reported e ∈ new ∧ st_cue_id e = cue ∧ is_terminal (st_playback_status e) = true).

Lemma about_cons t ts cue : about (t :: ts) cue ↔ tm_cue_id t = Some cue ∨ about ts cue.
Proof. unfold about. setoid_rewrite elem_of_cons. naive_solver. Qed.
Lemma reported_nil b : reported [] b b.
Proof.
  exists []. rewrite app_nil_r. split_and!; [done|done| |].
  - intros cue _. split; [done|]. intros e He. by apply elem_of_nil in He.
  - intros cue (t & Ht & _). by apply elem_of_nil in Ht.
Qed.
Lemma reported_cons t ts b b1 b2 :
  is_terminal (tm_status t) = true →
  report t b = (Ok tt, b1) → reported ts b1 b2 → reported (t :: ts) b b2.
Proof.
  intros Ht Hr (new & Hh & Hnone & Hother & Habout).
  destruct t as [[cue|] status reason code]; simpl in Ht.
  2: { injection Hr as <-. exists new. split_and!; [done|done| |].
       - intros c Hc. apply Hother. rewrite about_cons in Hc. tauto.
       - intros c Hc. apply Habout. rewrite about_cons in Hc. by destruct Hc. }
  pose proof (emit_run clock cue status reason code b) as He.
  unfold emit_translation_terminal in Hr. cbn [tm_cue_id tm_status tm_reason tm_error_code] in Hr.
  rewrite Hr, Ht in He. destruct He as [Ha He].
  assert (Hskip : ∀ c, c ≠ cue → cu_authorities (cues b1) !! c = cu_authorities (cues b) !! c)
    by (intros c Hc; by rewrite Ha, lookup_delete_ne).
  assert (Hgone : cu_authorities (cues b1) !! cue = None) by (by rewrite Ha, lookup_delete_eq).
  assert (Hnone' : ∀ c, cu_authorities (cues b) !! c = None → cu_authorities (cues b2) !! c = None).
  { intros c Hc. apply Hnone. destruct (decide (c = cue)) as [->|]; [done|by rewrite Hskip]. }
  assert (∃ now, history b1 = history b ++ now
    ∧ (∀ e, Reported e ∈ now → st_cue_id e = cue)
    ∧ (is_Some (cu_authorities (cues b) !! cue) → ∃ e, Reported e ∈ now ∧ st_cue_id e = cue
         ∧ is_terminal (st_playback_status e) = true)) as (now & Hh1 & Hnow & Hsome).
  { destruct (cu_authorities (cues b) !! cue) as [authority|] eqn:Eb.
    - destruct He as (e & Hh1 & Hcue & Hs & _). exists [Reported e]. split_and!; [done| |].
      + by intros e' [= ->]%list_elem_of_singleton.
      + intros _. exists e. rewrite Hs. split_and!; [by apply list_elem_of_singleton|done|done].
    - exists []. rewrite app_nil_r. split_and!; [by destruct He| |].
      + by intros e He'%elem_of_nil.
      + by intros [? ?]. }
  exists (now ++ new). split_and!; [by rewrite Hh, Hh1, app_assoc|done| |].
  - intros c Hc. rewrite about_cons in Hc. simpl in Hc.
    assert (c ≠ cue) as Hne by (intros ->; tauto).
    destruct (Hother c) as [H1 H2]; [tauto|]. split; [by rewrite H1, Hskip|].
    intros e [He'|He']%elem_of_app; [|by apply H2]. by rewrite (Hnow e He').
  - intros c Hc Hb. rewrite about_cons in Hc. simpl in Hc.
    destruct (decide (c = cue)) as [->|Hne].
    + split; [by apply Hnone|]. destruct (Hsome Hb) as (e & ? & ? & ?).
      exists e. rewrite elem_of_app. auto.
    + destruct Hc as [[= ->]|Hc]; [done|]. destruct (Habout c Hc) as (H1 & e & H2 & H3 & H4).
      { by rewrite Hskip. }
      split; [done|]. exists e. rewrite elem_of_app. auto.
Qed.

Lemma for_each_reported ts b :
  Forall (λ t, is_terminal (tm_status t) = true) ts →
  match for_each report ts b with (Ok _, b') => reported ts b b' | (Err _, _) => True end.
Proof.
  intros Hts. revert b. induction Hts as [|t ts Ht Hts IH]; intros b; simpl; [apply reported_nil|].
  unfold bind. destruct (report t b) as [[[]|e] b1] eqn:Er; [|done]. specialize (IH b1).
  destruct (for_each report ts b1) as [[[]|e] b2]; [|done]. by eapply reported_cons.
Qed.

(** ** A stop *)
Definition accepted_terminals (reason : string) (code : option string) (b : Bridge)
  : list TranslationCueTerminal :=
  let terminal cue := mk_terminal cue (translation_terminal_status code) reason code in
  (match q_active (queue b) with Some active => [terminal (ac_cue_id active)] | None => [] end)
  ++ ((λ job, terminal (job_cue_id job)) <$> pending (queue b))
  ++ ((λ cue, terminal (Some cue)) <$> order (active_cue_ids (cu_streams (cues b)))).

Lemma terminal_status_is_terminal code : is_terminal (translation_terminal_status code) = true.
Proof. by destruct code. Qed.
Lemma accepted_terminals_terminal reason code b :
  Forall (λ t, is_terminal (tm_status t) = true) (accepted_terminals reason code b).
Proof.
  pose proof (terminal_status_is_terminal code). unfold accepted_terminals.
  rewrite !Forall_app. split_and!; [by destruct (q_active _); repeat constructor|..];
    by apply Forall_fmap, Forall_true.
Qed.

(** What a stop leaves behind. *)
Definition stopped (b b' : Bridge) : Prop :=
  queue b' = mk_queue (capacity (queue b)) [] None
  ∧ cu_streams (cues b') = empty_ledger
  ∧ cu_translation_generation (cues b') = wrapping_add (cu_translation_generation (cues b)) 1
  ∧ commands b' = commands b.

Lemma stop_run reason code b :
  match request_playback_stop clock order reason code b with
  | (Ok request, b') =>
      sr_terminated_cues request = accepted_terminals reason code b
      ∧ sr_stop_through_generation request = cu_translation_generation (cues b)
      ∧ stopped b b'
      ∧ controls b' = controls b ++ (if worker_gone b then [] else [StopAll request])
      ∧ reported (accepted_terminals reason code b) b b'
  | (Err _, _) => True
  end.
Proof.
  unfold request_playback_stop. execute. unfold clear. cbn [fst snd]. cbv beta iota. execute.
  match goal with |- context [bind (match q_active ?q with _ => _ end) _ ?b0] =>
    change q with (queue b); set (b1 := b0) end.
  match goal with |- context [for_each _ (pending ?q)] => change q with (queue b) end.
  match goal with |- context [for_each report ?l] =>
    change l with (accepted_terminals reason code b) end.
  match goal with |- context [mk_stop _ _ _ _ ?l] =>
    change l with (accepted_terminals reason code b) end.
  quiet b2 H12; [by destruct (q_active _)|destruct (q_active _); walk|].
  quiet b3 H23; [by apply for_each_ok|walk|].
  rewrite bind_unix_ms. cbv beta.
  quiet b4 H34; [done|walk|].
  assert (H14 : same_core b1 b4) by (etransitivity; [exact H12|]; etransitivity; [exact H23|exact H34]).
  clear H12 H23 H34. unfold same_core, core, talk in H14. injection H14 as Hh Ha Hw Hc.
  set (ts := accepted_terminals reason code b).
  pose proof (for_each_reported ts b4 (accepted_terminals_terminal reason code b)) as Hr.
  pose proof (evolves_for_each same_work report ts ltac:(intros t; apply emit_same_work) b4) as Hs.
  unfold bind at 1. destruct (for_each report ts b4) as [[[]|e] b5]; [|done].
  simpl in Hs. destruct Hs as [Hs Hs']. unfold work in Hw, Hs.
  injection Hs as Hq Hl Hg _ Hcm Hgone.
  assert (Hrep : reported ts b b5) by (unfold reported in *; by rewrite Hh, Ha in Hr).
  change (StreamLedger.reset (cu_streams (cues b))) with empty_ledger in Hc.
  assert (Hst : stopped b b5) by (unfold stopped; split_and!; congruence).
  unfold bind, send_control. rewrite Hgone, H2.
  destruct (worker_gone b); simpl; split_and!; first [done|exact Hst|exact Hrep|rewrite ?app_nil_r; congruence].
Qed.

(** ** Shutting down *)
Lemma shutdown_run b :
  match begin_shutdown clock order b with
  | (Ok _, b') => ∃ b1, stopped b1 b' ∧ reported (accepted_terminals "bridge-shutdown" None b1) b b'
      ∧ queue b1 = queue b ∧ cu_streams (cues b1) = empty_ledger
  | (Err _, _) => True
  end.
Proof.
  unfold begin_shutdown. execute. unfold bind at 1, on_lifecycle at 1.
  destruct (request_shutdown _ _) as [generation l]. cbv beta iota.
  quiet b1 H1; [done|walk|]. quiet b2 H2; [done|walk|].
  assert (H12 : core b2 = core b) by (transitivity (core b1); [exact H2|exact H1]).
  unfold core, talk, work in H12. injection H12 as Hh Ha Hq Hl Hg Hs Hcm Hw Hc.
  unfold reset_translation_cue_ledgers. execute.
  match goal with |- context [bind (request_playback_stop _ _ _ _) _ ?b0] => set (b3 := b0) end.
  pose proof (stop_run "bridge-shutdown" None b3) as Hr.
  unfold bind at 1. destruct (request_playback_stop _ _ _ _ b3) as [[request|e] b4]; [|done].
  destruct Hr as (_ & _ & Hst & _ & Hr). exists b3. split_and!; [done| |done|done].
  unfold reported in *. subst b3. cbn in Hr. rewrite Hh, Ha in Hr. exact Hr.
Qed.
End Reports.

(** ** Runs that can be computed *)
Section Execution.
Context (clock : nat → Z) (order : list string → list string)
  (mixer : Mix → AudioFrameHeader → list Z → list F32) (mic : string → Z).
Context (empty_at : nat → bool) (length_at : nat → Z) (instant_at : nat → Z)
  (open_at open_exact_at : nat → string → string + string) (duration_of_frames : Z → Z).
Abbreviation step := (step clock order mixer mic empty_at length_at instant_at open_at open_exact_at
  duration_of_frames).

(** A worker section, the return of the oldest microphone write, or a handler. *)
Inductive Move := Works | MicReturns (result : MicOutcome + MicError) | Handles (l : Label).
Definition is_handler_label (l : Label) : bool :=
  match l with Work | MicWritten _ _ => false | _ => true end.
Definition move (m : Move) (s : System) : option System :=
  match m with
  | Works =>
      match run_worker clock empty_at length_at instant_at open_at open_exact_at duration_of_frames
              (phase s) (desk s) with
      | (Ok p, d) => Some (s <| desk := d |> <| phase := p |>)
      | (Err _, _) => None
      end
  | MicReturns result =>
      match mic_writes s with
      | [] => None
      | request :: rest =>
          match handler clock order mixer mic (MicWritten request result) (bridge (desk s)) with
          | (Ok _, b) => Some (s <| desk ::= (λ d, d <| bridge := b |>) |> <| mic_writes := rest |>
              <| superseded ::= (λ l, if mic_write_is_current request (bridge (desk s)) then l
                   else default "-" (cue_id (mw_header request)) :: l) |>)
          | (Err _, _) => None
          end
      end
  | Handles l =>
      if is_handler_label l then
        match handler clock order mixer mic l (bridge (desk s)) with
        | (Ok r, b) => Some (s <| desk ::= (λ d, d <| bridge := b |>) |>
            <| mic_writes ::= (λ l, l ++ match r with Some w => [w] | None => [] end) |>)
        | (Err _, _) => None
        end
      else None
  end.
Fixpoint moves (ms : list Move) (s : System) : option System :=
  match ms with
  | [] => Some s
  | m :: ms => match move m s with Some s' => moves ms s' | None => None end
  end.

Lemma move_step m s s' : move m s = Some s' → ∃ l, step s l s'.
Proof.
  destruct m as [|result|l]; simpl.
  - destruct (run_worker _ _ _ _ _ _ _ _ _) as [[p|e] d] eqn:E; [|done]. intros [= <-].
    exists Work. by apply step_work.
  - destruct (mic_writes s) as [|request rest] eqn:Em; [done|].
    match goal with |- context [match ?r with _ => _ end] => destruct r as [[r'|e] b] eqn:E end; [|done].
    intros [= <-]. exists (MicWritten request result). by apply (step_mic _ _ _ _ _ _ _ _ _ _ s []) with r'.
  - destruct (is_handler_label l) eqn:El; [|done].
    destruct (handler _ _ _ _ _ _) as [[r|e] b] eqn:E; [|done]. intros [= <-]. exists l.
    apply step_handler; [by intros ->|by intros ? ? ->|done].
Qed.
Lemma moves_reachable ms s s' :
  reachable initial step s → moves ms s = Some s' → reachable initial step s'.
Proof.
  revert s. induction ms as [|m ms IH]; intros s Hs; simpl; [by intros [= <-]|].
  destruct (move m s) as [s1|] eqn:E; [|done]. apply IH. destruct (move_step _ _ _ E) as [l Hl].
  by eapply reach_step.
Qed.
End Execution.

(** A Bridge that has just been initialised, one device, an instant player. *)
Module Demo.
Definition route : Route := mk_route (Some "s") "i" CaptureNone BackendNone Unknown None 7 true
  "speaker" "speaker" "ready" 1 1 1 100 true false true "running" "ready" None "ready" false None
  "not-installed" None None None None None.
Definition counters : Counters := mk_counters 0 0 0 0 true "ready" true 0 0 0 None 0 0 0.
Definition cues : Cues := mk_cues (mk_vmic ∅ []) empty_ledger 0 0 ∅ (mk_outbox "p" 0 []).
Definition bridge : Bridge := mk_bridge_service route (mk_mix true true 35) counters cues (new 128) []
  [] false (mk_lifecycle None false None None) 0 [].
Definition start : System :=
  mk_system (mk_desk bridge (mk_worker None None ∅ []) 0 [] []) ControlsFirst [] [].
Definition header (cue : string) (sink : TranslationAudioSink) (state : option TranslationStreamState)
    (index count : option Z) (frames : Z) : AudioFrameHeader :=
  mk_header "bridge.translation.frame" "r" "s" "f" "st" 48000 1 frames 0 (2 * frames) None (Some "i")
    (Some 1) (Some 7) (Some "i:s:7") (Some "speaker") (Some cue) (Some 1000) None index count state
    false (Some sink) (Some match sink with PhysicalPlayback => Inbound | VirtualMic => Outbound end).
Definition complete (cue : string) : Move :=
  Handles (Frame (header cue PhysicalPlayback None None None 2) [0; 0; 0; 0]).
Definition stream (cue : string) (state : TranslationStreamState) (index : Z) : Move :=
  if is_closing state
  then Handles (Frame (header cue PhysicalPlayback (Some state) (Some index) None 0) [])
  else Handles (Frame (header cue PhysicalPlayback (Some state) (Some index) None 2) [0; 0; 0; 0]).
Definition mic_chunk (cue : string) (index count : Z) : Move :=
  Handles (Frame (header cue VirtualMic None (Some index) (Some count) 2) [0; 0; 0; 0]).
Definition source_frame : Move :=
  Handles (SourceSent (Play (mk_job [0; 0] "speaker" 100 false 0 7 None 0 0 0 0 0) 0)).

Definition clock (_ : nat) : Z := 1000.
Definition order (l : list string) : list string := l.
Definition mixer (m : Mix) (_ : AudioFrameHeader) (samples : list Z) : list F32 :=
  if mx_translated_audio_enabled m then samples else [].
Definition play (ms : list Move) : option System :=
  moves clock order mixer (λ _, 1) (λ _, true) (λ _, 0) (λ _, 0) (λ _ d, inl d) (λ _ d, inl d)
    (λ f, f) ms start.
Definition reached (s : System) : Prop :=
  reachable initial (step clock order mixer (λ _, 1) (λ _, true) (λ _, 0) (λ _, 0) (λ _ d, inl d)
    (λ _ d, inl d) (λ f, f)) s.
Lemma play_reached ms s : play ms = Some s → reached s.
Proof. apply moves_reachable, reach_init. by repeat split. Qed.

(** The statuses reported so far, oldest first. *)
Definition statuses (s : System) : list (string * TranslationPlaybackStatusKind) :=
  omap (λ h, match h with Reported e => Some (st_cue_id e, st_playback_status e) | Bound _ => None end)
    (history (BridgePlayback.bridge (desk s))).
End Demo.

(** ** Streams and chunks *)
(** C23: Whatever frames and terminal claims arrive, in any order and with any
    repetition: of each stream the ledger lets through nothing, or its start, the
    chunks 1, 2, 3, ... without gap or repetition and at most one end; and the
    terminal of the stream is claimed at most once. *)
Theorem stream_frames_pass_once_in_order cue generation ops :
  Z.of_nat (length ops) < u32_max →
  (StreamRuns.passed cue generation ops empty_ledger = []
   ∨ ∃ next closed, (1 ≤ next)%nat
     ∧ StreamRuns.passed cue generation ops empty_ledger = StreamRuns.stream_of next closed)
  ∧ (StreamRuns.claims cue generation ops empty_ledger ≤ 1)%nat.
Proof.
  intros H. split; [by apply StreamRuns.passed_is_a_stream|].
  apply StreamRuns.claimed_at_most_once, StreamRuns.empty_unfinished.
Qed.

(** A stream frame that was acknowledged may be sent again, because its answer was
    lost: it is acknowledged again, and neither the ledger nor the worker's
    commands change. *)
Theorem retried_stream_frame_is_acknowledged clock header samples state b ack b' :
  handle_physical_translation_stream_frame clock header samples state b = (Ok ack, b') →
  ack_error_code ack = None → state ≠ Abort_ → default 0 (chunk_index header) < u32_max →
  ∃ ack', handle_physical_translation_stream_frame clock header samples state b' = (Ok ack', b')
    ∧ ack_error_code ack' = None.
Proof.
  intros H Hack Hstate Hindex. unfold handle_physical_translation_stream_frame in *.
  destruct (non_blank (cue_id header)) as [cue|]; [|by injection H as <- <-].
  destruct (chunk_index header) as [index|]; [|by injection H as <- <-]. simpl in Hindex.
  destruct (is_closing state && negb _) eqn:E1; [by injection H as <- <-|].
  destruct (negb (is_closing state) && bool_decide (samples = [])) eqn:E2; [by injection H as <- <-|].
  rewrite bind_gets in *. unfold id in *.
  destruct (translation_non_playback_reason _ _ _) eqn:E3; [by injection H as <- <-|].
  destruct (prepare_physical_stream_admission _ _ _ _ _) as [[next admission]|[d|d]] eqn:E4;
    [|by injection H as <- <-..].
  assert (Hnext : admit_chunk cue index state (cu_translation_generation (cues b)) (cu_streams (cues b))
                  = (Ok admission, next)).
  { unfold prepare_physical_stream_admission in E4.
    by destruct (admit_chunk _ _ _ _ _) as [[a|e] l]; simplify_eq. }
  pose proof (StreamRuns.readmission_is_duplicate _ _ _ _ _ _ _ Hnext Hstate Hindex) as Hdup.
  rewrite (bool_decide_false (state = Abort_)) in H by done.
  assert (Hdone : cu_streams (cues b') = next ∧ route b' = route b ∧ mix b' = mix b
    ∧ cu_translation_generation (cues b') = cu_translation_generation (cues b)).
  { destruct (decide (admission = AdmitDuplicate)) as [->|Hd].
    - injection H as _ <-. split_and!; try done.
      unfold admit_chunk in Hnext. split_in Hnext; done.
    - assert (Hrun : (let* now := unix_ms clock in
        let* sequence := next_translation_arrival_sequence in
        let* sent := try_send (TranslationStream (new_job header samples (Some cue) now sequence b) state) in
        if negb sent then ret (rejected_audio_frame_ack header "bridge.queue-overflow"
          "physical translation stream command queue is full")
        else on_cues (λ c, c <| cu_streams := next |>) ;;; add_accepted header ;;; accept_frame header) b
        = (Ok ack, b')) by (by destruct admission).
      clear H. rewrite bind_unix_ms in Hrun. unfold next_translation_arrival_sequence, bind at 1 2, gets in Hrun.
      destruct (checked_add _ _) as [sequence|]; [|done].
      unfold bind, on_cues, modify, ret, try_send, add_accepted, accept_frame, on_counters, gets in Hrun.
      cbn in Hrun. destruct (worker_gone b || _); cbn in Hrun; unfold ret in Hrun; simplify_eq/=; by split_and!. }
  destruct Hdone as (Hl & Hr & Hm & Hg). rewrite Hr, Hm, Hg, Hl, E3.
  unfold prepare_physical_stream_admission. rewrite Hdup. eexists. split; [reflexivity|done].
Qed.

(** The driver writes the ledger records for one cue are those of its chunks 0, 1,
    2, ... in order, each once, as long as no remembered cue has been evicted. *)
Theorem microphone_chunks_are_written_once_in_order cue ops :
  Z.of_nat (length ops) ≤ u32_max →
  (length (terminal (MicRuns.run ops (mk_vmic ∅ [])))
     < VIRTUAL_MIC_TERMINAL_LEDGER_CAPACITY)%nat →
  ∃ k, MicRuns.written cue ops (mk_vmic ∅ []) = Z.of_nat <$> seq 0 k.
Proof.
  intros Hn Hroom. apply MicRuns.written_from; [|done|simpl; lia|done].
  unfold MicRuns.stands. simpl. rewrite lookup_empty. by right.
Qed.

(** ** Complete cues *)
(** C24: Every accepted cue is at any time in exactly one place: started, expired,
    stopped or pending. They start in the order of their acceptance, each no later
    than five seconds after its creation, and the queue stays within its bound. *)
Theorem accepted_cues_are_accounted_for capacity ops :
  let '(q, f) := QueueRuns.run ops (new capacity, QueueRuns.no_fate) in
  QueueRuns.accepted f
    ≡ₚ (QueueRuns.started f).*1 ++ QueueRuns.expired f ++ QueueRuns.stopped f ++ pending q
  ∧ sublist ((QueueRuns.started f).*1 ++ pending q) (QueueRuns.accepted f)
  ∧ Forall (λ s, saturating_sub s.2 (job_created_at_ms s.1) ≤ TRANSLATION_MAX_PROJECTED_LATENCY_MS)
      (QueueRuns.started f)
  ∧ (length (pending q) ≤ PlaybackQueue.capacity q)%nat.
Proof.
  pose proof (QueueRuns.run_accounted ops (new capacity, QueueRuns.no_fate)) as H.
  destruct (QueueRuns.run _ _) as [q f].
  destruct H as (? & ? & ? & ?); [|done]. split_and!; [simpl; lia|done|done|constructor].
Qed.

(** C25: The promise made when a cue is accepted: a worker that starts each cue when the
    one before was expected to end plays every cue then pending, in order, and none
    of them expires. *)
Theorem punctual_worker_plays_every_accepted_cue job now q outcome q' :
  enqueue job now q = (inl outcome, q') →
  Forall (λ job, 0 ≤ job_playback_duration_ms job) (pending q') →
  0 ≤ active_end_ms now q ≤ u64_max →
  QueueRuns.punctual (length (pending q')) (active_end_ms now q) q' = (pending q', [])
  ∧ ∃ retained, pending q' = retained ++ [job] ∧ sublist retained (pending q).
Proof.
  intros He Hd Ha. destruct (QueueRuns.enqueue_timely _ _ _ _ _ He) as (Ht & _ & Hr).
  split; [by apply QueueRuns.punctual_plays_timely|done].
Qed.

(** ** The system *)
Section SystemTheorems.
Context (clock : nat → Z) (order : list string → list string)
  (mixer : Mix → AudioFrameHeader → list Z → list F32) (mic : string → Z).
Context (empty_at : nat → bool) (length_at : nat → Z) (instant_at : nat → Z)
  (open_at open_exact_at : nat → string → string + string) (duration_of_frames : Z → Z).
Abbreviation step := (step clock order mixer mic empty_at length_at instant_at open_at open_exact_at
  duration_of_frames).

(** C21: In every interleaving, a cue is reported finished at most as often as a frame
    of it was accepted and bound; the one exception is a microphone write that
    outlived its authority. *)
Theorem terminals_do_not_exceed_bindings s cue :
  reachable initial step s →
  (count_if (reports_terminal cue) (history (bridge (desk s)))
   ≤ count_if (binds cue) (history (bridge (desk s))) + count_if (eqs cue) (superseded s))%nat.
Proof.
  intros Hs. pose proof (reachable_inv initial step counted
    (Invariant0 := counted_invariant clock order mixer mic empty_at length_at instant_at open_at
       open_exact_at duration_of_frames) s Hs cue). lia.
Qed.

(** C22: In every interleaving, a streamed cue and a complete cue never own the speaker
    at the same time. *)
Theorem speaker_has_one_owner s :
  reachable initial step s →
  wk_stream (worker (desk s)) = None ∨ q_active (queue (bridge (desk s))) = None.
Proof.
  intros Hs. pose proof (reachable_inv initial step owned
    (Invariant0 := owned_invariant clock order mixer mic empty_at length_at instant_at open_at
       open_exact_at duration_of_frames) s Hs) as H.
  apply owner_one_owner in H. unfold one_owner, idle in H.
  destruct (wk_stream (worker (desk s))); [right; by apply H|by left].
Qed.
End SystemTheorems.

(** With nothing playing and work of both kinds waiting for the worker, exactly the
    earlier accepted of the two heads may go next. *)
Theorem idle_speaker_serves_the_earlier (command : StreamCommand) rest job others :
  job_arrival_sequence command.1 ≠ job_arrival_sequence job →
  let q := mk_queue 128 (job :: others) None in
  let '(complete_active, sequence) := queue_view q in
  let takes_stream :=
    is_Some_b (take_ready_physical_stream_command None (command :: rest) complete_active sequence) in
  let takes_complete :=
    complete_translation_command_is_ready false complete_active sequence
      (Some (job_arrival_sequence command.1)) in
  takes_stream = (job_arrival_sequence command.1 <? job_arrival_sequence job)
  ∧ takes_complete = negb takes_stream.
Proof.
  intros Hne. unfold take_ready_physical_stream_command, complete_translation_command_is_ready. simpl.
  destruct (Z.ltb_spec (job_arrival_sequence command.1) (job_arrival_sequence job)); simpl;
    split; try done; lia.
Qed.

(** ** Stopping and shutting down *)
(** A cue the Bridge has accepted and not finished. *)
Definition queued_cue (b : Bridge) (cue : string) : Prop :=
  (∃ a, q_active (queue b) = Some a ∧ ac_cue_id a = Some cue)
  ∨ (∃ job, job ∈ pending (queue b) ∧ job_cue_id job = Some cue).
Definition streaming_cue (b : Bridge) (cue : string) : Prop :=
  is_Some (active (cu_streams (cues b)) !! cue).

Lemma about_accepted order reason code b cue :
  (∀ l, order l ≡ₚ l) →
  about (accepted_terminals order reason code b) cue ↔ queued_cue b cue ∨ streaming_cue b cue.
Proof.
  intros Hp. unfold about, accepted_terminals, queued_cue, streaming_cue. split.
  - intros (t & Ht & Hc). rewrite !elem_of_app in Ht. destruct Ht as [Ht|[Ht|Ht]].
    + destruct (q_active (queue b)); [|by apply elem_of_nil in Ht].
      apply list_elem_of_singleton in Ht as ->. left; left. eauto.
    + apply list_elem_of_fmap in Ht as (job & -> & Hj). left; right. eauto.
    + apply list_elem_of_fmap in Ht as (c & -> & Hin). simplify_eq/=. right.
      rewrite Hp in Hin. unfold active_cue_ids in Hin.
      apply list_elem_of_fmap in Hin as ([k v] & -> & Hin). apply elem_of_map_to_list in Hin. by exists v.
  - intros [[(a & Ha & Hc)|(job & Hj & Hc)]|[v Hv]].
    + rewrite Ha. eexists. rewrite elem_of_app. split; [left; by apply list_elem_of_singleton|done].
    + exists (mk_terminal (job_cue_id job) (translation_terminal_status code) reason code).
      rewrite !elem_of_app. split; [right; left|exact Hc].
      apply list_elem_of_fmap. by exists job.
    + exists (mk_terminal (Some cue) (translation_terminal_status code) reason code).
      rewrite !elem_of_app. split; [right; right|done].
      apply list_elem_of_fmap. exists cue. split; [done|]. rewrite Hp. unfold active_cue_ids.
      apply list_elem_of_fmap. exists (cue, v). split; [done|]. by apply elem_of_map_to_list.
Qed.

(** C20: A stop empties the queue and the stream ledger, begins a new generation, tells
    the worker, and reports a terminal for every accepted cue that is bound, which
    it releases; it says nothing about any other cue. *)
Theorem stop_reports_every_accepted_cue clock order reason code b :
  (∀ l, order l ≡ₚ l) →
  match request_playback_stop clock order reason code b with
  | (Ok request, b') => stopped b b'
      ∧ controls b' = controls b ++ (if worker_gone b then [] else [StopAll request])
      ∧ ∃ new, history b' = history b ++ new
      ∧ (∀ cue, queued_cue b cue ∨ streaming_cue b cue → is_Some (cu_authorities (cues b) !! cue) →
           cu_authorities (cues b') !! cue = None
           ∧ ∃ e, Reported e ∈ new ∧ st_cue_id e = cue ∧ is_terminal (st_playback_status e) = true)
      ∧ (∀ e, Reported e ∈ new → queued_cue b (st_cue_id e) ∨ streaming_cue b (st_cue_id e))
  | (Err _, _) => True
  end.
Proof.
  intros Hp. pose proof (stop_run clock order reason code b) as H.
  destruct (request_playback_stop _ _ _ _ _) as [[request|e] b']; [|done].
  destruct H as (_ & _ & Hst & Hc & new & Hh & _ & Hother & Habout). split_and!; [done|done|].
  exists new. split_and!; [done| |].
  - intros cue Hcue. apply Habout. by apply about_accepted.
  - intros e He. rewrite <- (about_accepted order reason code) by done.
    destruct (decide (Exists (λ t, tm_cue_id t = Some (st_cue_id e)) (accepted_terminals order reason code b)))
      as [(t & Ht & Hcue)%Exists_exists|Hno]; [by exists t|].
    destruct (Hother (st_cue_id e)) as [_ Hne]; [|by destruct (Hne e He)].
    intros (t & Ht & Hcue). apply Hno. apply Exists_exists. eauto.
Qed.

(** [bridge.shutdown] resets the ledgers before it stops: a stream that is active
    then is not stopped. No status is reported for it, its authority stays bound,
    and its ledger entry is gone, so that no terminal can be claimed for it later. *)
Theorem shutdown_forgets_streams clock order b cue generation :
  (∀ l, order l ≡ₚ l) → streaming_cue b cue → ¬ queued_cue b cue →
  match begin_shutdown clock order b with
  | (Ok _, b') => ∃ new, history b' = history b ++ new
      ∧ (∀ e, Reported e ∈ new → st_cue_id e ≠ cue)
      ∧ cu_authorities (cues b') !! cue = cu_authorities (cues b) !! cue
      ∧ (claim_terminal cue generation (cu_streams (cues b'))).1 = false
  | (Err _, _) => True
  end.
Proof.
  intros Hp _ Hq. pose proof (shutdown_run clock order b) as H.
  destruct (begin_shutdown _ _ _) as [[g|e] b']; [|done].
  destruct H as (b1 & (_ & Hl & _) & (new & Hh & _ & Hother & _) & Hqueue & Hs).
  destruct (Hother cue) as [Ha Hne].
  { rewrite about_accepted by done. unfold queued_cue, streaming_cue in *. rewrite Hqueue, Hs. simpl.
    rewrite lookup_empty. intros [Hc|[? ?]]; done. }
  exists new. split_and!; [done|done|done|]. rewrite Hl. unfold claim_terminal, owns. simpl.
  by rewrite lookup_empty.
Qed.

(** ** The end of capture *)
Inductive LifecycleOp :=
| GenerationBegins (generation : Z) | TerminalPublished (evidence : LoopbackEvidence)
| ShutdownRequested (fallback : Z) | WaitBegins (blocked now : Z).
Definition lifecycle_exec (op : LifecycleOp) (l : Lifecycle) : Lifecycle :=
  match op with
  | GenerationBegins g => (begin_generation g l).2
  | TerminalPublished e => publish_terminal e l
  | ShutdownRequested f => (request_shutdown f l).2
  | WaitBegins blocked now => (begin_wait blocked now l).2
  end.
Definition lifecycle_run (ops : list LifecycleOp) (l : Lifecycle) : Lifecycle :=
  fold_left (λ l op, lifecycle_exec op l) ops l.

Definition shut (blocked : Z) (l : Lifecycle) : Prop :=
  lc_shutdown_requested l = true ∧ lc_blocked_generation l = Some blocked.
Lemma exec_shut blocked op l : shut blocked l → shut blocked (lifecycle_exec op l).
Proof.
  intros [Hs Hb]. destruct op; unfold lifecycle_exec, begin_generation, publish_terminal,
    request_shutdown, begin_wait; rewrite ?Hs, ?Hb; repeat case_match; by split.
Qed.
Lemma run_shut blocked ops l : shut blocked l → shut blocked (lifecycle_run ops l).
Proof.
  revert l. induction ops as [|op ops IH]; intros l H; [done|]. simpl. by apply IH, exec_shut.
Qed.

(** Once a shutdown was requested, no capture generation begins any more and every
    further request waits for the same generation; and the Bridge's answer lets the
    process exit only on recorded evidence that this generation stopped or never
    ran. *)
Theorem exit_needs_the_end_of_capture fallback ops later generation l evidence b :
  let blocked := (request_shutdown fallback l).1 in
  let l' := lifecycle_run ops (request_shutdown fallback l).2 in
  (begin_generation generation l').1 = false
  ∧ (request_shutdown later l').1 = blocked
  ∧ match finish_shutdown blocked evidence b with
    | (Ok reply, b') => control_response_authorizes_exit true reply = true →
        ∃ ev, evidence = inl ev ∧ ev_generation ev = blocked
          ∧ (ev_status ev = "stopped" ∨ ev_status ev = "not-active")
          ∧ rt_session_id (route b') = None
    | (Err _, _) => False
    end.
Proof.
  intros blocked l'.
  destruct (run_shut blocked ops (request_shutdown fallback l).2) as [Hs Hb]; [by split|].
  fold l' in Hs, Hb.
  split_and!.
  - unfold begin_generation. by rewrite Hs.
  - unfold request_shutdown. by rewrite Hs, Hb.
  - unfold finish_shutdown. destruct evidence as [ev|detail]; [|done].
    unfold authorizes_shutdown, eqs. destruct (negb _) eqn:E; [done|]. intros _. bool_hyps.
    exists ev. split_and!; try done.
    match goal with H : _ || _ = true |- _ => apply orb_true_iff in H as [H|H] end; bool_hyps; auto.
Qed.

(** ** Re-initialisation *)
Definition owner (b : Bridge) := (rt_playback_owner_generation (route b), rt_playback_owner_reservation (route b)).
Definition same_owner (b b' : Bridge) : Prop := owner b' = owner b.
#[local] Instance same_owner_preorder : PreOrder same_owner.
Proof. split; [by intros b|unfold same_owner; intros x y z; congruence]. Qed.
Lemma bind_evolves {A B} (R : Bridge → Bridge → Prop) (m : M Bridge A) (k : A → M Bridge B) b r b' :
  evolves R m → bind m k b = (Ok r, b') → ∃ x b1, R b b1 ∧ k x b1 = (Ok r, b').
Proof.
  intros He H. unfold bind in H. specialize (He b). destruct (m b) as [[x|e] b1]; [|done]. eauto.
Qed.
Ltac owner_leaf := solve [apply evolves_modify; intros ?; reflexivity|intros ?; reflexivity
  |intros ?; unfold send_control, set_error, unix_ms, on_counters, add_dropped; repeat case_match; reflexivity].
Lemma emit_same_owner clock cue status reason code :
  evolves same_owner (BridgeFrames.emit_translation_status clock cue status reason code).
Proof.
  unfold BridgeFrames.emit_translation_status, emit_translation_status_with_authority. walk; owner_leaf.
Qed.
Lemma terminal_same_owner clock t : evolves same_owner (emit_translation_terminal clock t).
Proof. apply emit_same_owner. Qed.
Lemma stop_same_owner clock order reason code :
  evolves same_owner (request_playback_stop clock order reason code).
Proof.
  unfold request_playback_stop. walk; first [apply terminal_same_owner|owner_leaf].
Qed.
Lemma configure_same_owner command plan env : evolves same_owner (configure_init command plan env).
Proof. unfold configure_init, apply_virtual_mic_capability. walk; owner_leaf. Qed.
Lemma finish_route_answers b reply b' : (let* ack := finish_route in ret (@inl ControlReply RebindWait ack)) b
  = (Ok reply, b') → ∃ ack, reply = inl ack.
Proof. unfold bind at 1. destruct (finish_route b) as [[ack|e] b1]; [|done]. intros [= <- _]. eauto. Qed.

(** A [bridge.init] that waits for its endpoint reserves an owner generation above
    every one handed out before; when a newer [bridge.init] has begun meanwhile,
    its completion changes nothing, whatever endpoint it got. *)
Theorem superseded_init_changes_nothing clock order command plan env b wait b1 b2 result :
  apply_init clock order command plan env b = (Ok (inr wait), b1) →
  rt_playback_owner_generation (route b) < u64_max →
  rt_playback_owner_reservation (route b) < u64_max →
  rt_init_epoch (route b2) ≠ rw_epoch wait →
  rt_playback_owner_generation (route b) < rw_owner_generation wait
  ∧ rt_playback_owner_reservation (route b) < rw_owner_generation wait
  ∧ rt_playback_owner_reservation (route b1) = rw_owner_generation wait
  ∧ (finish_init wait result b2).2 = b2.
Proof.
  intros H Hg Hr He. unfold apply_init in H. rewrite bind_gets in H.
  unfold bind at 1 in H. pose proof (configure_same_owner command plan env b) as Hc.
  destruct (configure_init command plan env b) as [[[]|e] b3]; [|done]. simpl in Hc.
  rewrite !bind_gets in H. cbv beta in H.
  destruct (process_loopback_init_activation _ _ _ _ _) as [[code detail]|].
  { apply (bind_evolves same_owner) in H as (? & ? & _ & H); [|owner_leaf].
    apply (bind_evolves same_owner) in H as (? & ? & _ & H); [|apply stop_same_owner].
    by unfold bind, bridge_error, gets, ret in H. }
  apply (bind_evolves same_owner) in H as (? & b4 & H4 & H); [|unfold when; walk; owner_leaf].
  rewrite bind_gets in H. cbv beta zeta in H.
  apply (bind_evolves same_owner) in H as (? & b5 & H5 & H).
  2: { destruct (accepted_translation_work _); [|unfold when; walk; owner_leaf].
       apply evolves_bind; [typeclasses eauto|apply stop_same_owner|intros ?; owner_leaf]. }
  assert (Hb : owner b5 = owner b) by (rewrite H5, H4; exact Hc). unfold id in H.
  destruct (rt_translation_playback_enabled _).
  - rewrite bind_on_route, bind_unix_ms, bind_gets, bind_on_route in H. injection H as <- <-.
    unfold owner in Hb. injection Hb as Hg5 Hr5. simpl. rewrite Hg5, Hr5. unfold saturating_add.
    split_and!; [lia|lia|done|]. unfold finish_init. rewrite bind_gets. cbv beta.
    rewrite (proj2 (Z.eqb_neq _ _)) by exact He. done.
  - rewrite bind_on_route in H.
    apply (bind_evolves (λ _ _, True)) in H as (? & b6 & _ & H).
    2: { intros b6. by case_match. }
    apply finish_route_answers in H as [? ?]. done.
Qed.

(** ** Undocumented error codes *)
(** The protocol crate lists every error code the Bridge can attach to a frame; two
    codes of the stream handler are not in the list. *)
Theorem stream_handler_uses_unlisted_codes :
  ∃ header b code1 code2,
    fst (handle_physical_translation_stream_frame Demo.clock header [0] End_ b)
      = Ok (rejected_audio_frame_ack header code1 "physical translation stream end must have an empty payload")
    ∧ fst (handle_physical_translation_stream_frame Demo.clock header [] End_ b)
      = Ok (rejected_audio_frame_ack header code2 "translation-playback-disabled")
    ∧ code1 ∉ BRIDGE_ERROR_CODES ∧ code2 ∉ BRIDGE_ERROR_CODES.
Proof.
  exists (Demo.header "a" PhysicalPlayback (Some End_) (Some 1) None 0),
    (Demo.bridge <| route ::= (λ r, r <| rt_translation_playback_enabled := false |>) |>),
    "bridge.invalid-audio-frame", "bridge.translation-playback-disabled".
  split_and!; [vm_compute; reflexivity|vm_compute; reflexivity|..];
    by apply (bool_decide_unpack _).
Qed.

(** ** Runs the code does not intend *)
(** Complete cues are queued by the handler, stream commands travel to the worker
    through its channel: a stream accepted first, whose command has not been
    received yet, is overtaken by a complete cue accepted later. *)
Theorem complete_cue_overtakes_an_unreceived_stream :
  match Demo.play ([Demo.source_frame; Demo.stream "a" Start 0; Demo.complete "b"] ++ replicate 30 Works) with
  | Some s => Demo.statuses s = [("b", Queued); ("b", Started); ("b", Completed); ("a", Queued)]
  | None => False
  end
  ∧ match Demo.play [Demo.source_frame; Demo.stream "a" Start 0; Demo.complete "b"] with
    | Some s => ∃ seq_a seq_b,
        omap (λ c, match c with TranslationStream a _ => Some (job_arrival_sequence a) | _ => None end)
          (commands (BridgePlayback.bridge (desk s))) = [seq_a]
        ∧ job_arrival_sequence <$> pending (queue (BridgePlayback.bridge (desk s))) = [seq_b]
        ∧ seq_a < seq_b
    | None => False
    end.
Proof. split; vm_compute; [reflexivity|]. eexists _, _. split_and!; reflexivity. Qed.

(** A chunk that arrives while the write of another is in progress fails its cue;
    when the source is flushed before that write returns, the result of
    [complete_terminal] is ignored and the cue is reported failed again. *)
Theorem superseded_microphone_write_reports_twice :
  match Demo.play [Demo.mic_chunk "m" 0 2; Demo.mic_chunk "m" 1 2; Handles SourceFlushed;
                   MicReturns (inl (mk_mic_outcome 2 true))] with
  | Some s => Demo.statuses s = [("m", Queued); ("m", RouteFailed); ("m", RouteFailed)]
  | None => False
  end.
Proof. vm_compute. reflexivity. Qed.

(** ** Witnesses *)
Lemma stream_frames_pass_once_in_order_witness : ∃ ops,
  length ops = 5%nat
  ∧ StreamRuns.passed "a" 0 ops empty_ledger = [(Start, 0); (Chunk, 1); (End_, 2)]
  ∧ (StreamRuns.claims "a" 0 ops empty_ledger ≤ 1)%nat.
Proof.
  pose (ops := [StreamRuns.Admit "a" 0 Start 0; StreamRuns.Admit "a" 0 Start 0;
    StreamRuns.Admit "a" 1 Chunk 0; StreamRuns.Admit "a" 2 End_ 0; StreamRuns.Claim "a" 0]).
  destruct (stream_frames_pass_once_in_order "a" 0 ops) as [_ Hc]; [reflexivity|].
  exists ops. split; [reflexivity|]. split; [vm_compute; reflexivity|exact Hc].
Defined.

Lemma retried_stream_frame_is_acknowledged_witness :
  let header := Demo.header "a" PhysicalPlayback (Some Start) (Some 0) None 2 in
  ∃ ack b' ack',
    handle_physical_translation_stream_frame Demo.clock header [0; 0] Start Demo.bridge = (Ok ack, b')
    ∧ handle_physical_translation_stream_frame Demo.clock header [0; 0] Start b' = (Ok ack', b')
    ∧ ack_error_code ack' = None.
Proof.
  intros header.
  destruct (handle_physical_translation_stream_frame Demo.clock header [0; 0] Start Demo.bridge)
    as [[ack|e] b'] eqn:E; [|vm_compute in E; discriminate].
  assert (Ha : ack_error_code ack = None) by (vm_compute in E; injection E as <- _; reflexivity).
  destruct (retried_stream_frame_is_acknowledged _ _ _ _ _ _ _ E Ha) as (ack' & H1 & H2);
    [discriminate|reflexivity|].
  exists ack, b', ack'. split; [reflexivity|]. split; [exact H1|exact H2].
Defined.

Lemma microphone_chunks_are_written_once_in_order_witness : ∃ ops k,
  MicRuns.written "m" ops (mk_vmic ∅ []) = [0; 1]
  ∧ MicRuns.written "m" ops (mk_vmic ∅ []) = Z.of_nat <$> seq 0 k.
Proof.
  pose (ops := [MicRuns.Begin "m" 0 2; MicRuns.Success "m" 0; MicRuns.Begin "m" 1 2;
                MicRuns.Success "m" 1; MicRuns.Begin "m" 1 2]).
  destruct (microphone_chunks_are_written_once_in_order "m" ops) as [k Hk];
    [vm_compute; discriminate|vm_compute; lia|].
  exists ops, k. split; [vm_compute; reflexivity|exact Hk].
Defined.

Definition demo_job (cue : string) (duration created arrival : Z) : PlaybackJob :=
  mk_job [0; 0] "speaker" 100 true 0 7 (Some cue) created 0 duration 0 arrival.
Lemma punctual_worker_plays_every_accepted_cue_witness : ∃ q',
  (enqueue (demo_job "b" 300 20 2) 20 (mk_queue 4 [demo_job "a" 500 10 1] None)).2 = q'
  ∧ length (pending q') = 2%nat
  ∧ QueueRuns.punctual (length (pending q')) 20 q' = (pending q', []).
Proof.
  destruct (enqueue (demo_job "b" 300 20 2) 20 (mk_queue 4 [demo_job "a" 500 10 1] None))
    as [[outcome|e] q'] eqn:E; [|vm_compute in E; discriminate].
  exists q'. split; [reflexivity|].
  destruct (punctual_worker_plays_every_accepted_cue _ _ _ _ _ E) as [Hp _].
  - vm_compute in E. injection E as _ <-. repeat constructor; vm_compute; discriminate.
  - vm_compute; split; discriminate.
  - split; [vm_compute in E; injection E as _ <-; reflexivity|exact Hp].
Defined.

Lemma terminals_do_not_exceed_bindings_witness : ∃ s, Demo.reached s
  ∧ count_if (reports_terminal "a") (history (BridgePlayback.bridge (desk s))) = 1%nat
  ∧ (count_if (reports_terminal "a") (history (BridgePlayback.bridge (desk s)))
     ≤ count_if (binds "a") (history (BridgePlayback.bridge (desk s))) + count_if (eqs "a") (superseded s))%nat.
Proof.
  destruct (Demo.play (Demo.complete "a" :: replicate 24 Works)) as [s|] eqn:E;
    [|vm_compute in E; discriminate].
  pose proof (Demo.play_reached _ _ E) as Hr. exists s. split; [exact Hr|].
  split; [vm_compute in E; injection E as <-; vm_compute; reflexivity|].
  exact (terminals_do_not_exceed_bindings _ _ _ _ _ _ _ _ _ _ s "a" Hr).
Defined.

Lemma speaker_has_one_owner_witness : ∃ s, Demo.reached s
  ∧ is_Some_b (q_active (queue (BridgePlayback.bridge (desk s)))) = true
  ∧ (wk_stream (worker (desk s)) = None ∨ q_active (queue (BridgePlayback.bridge (desk s))) = None).
Proof.
  destruct (Demo.play (Demo.source_frame :: Demo.complete "a" :: replicate 8 Works)) as [s|] eqn:E;
    [|vm_compute in E; discriminate].
  pose proof (Demo.play_reached _ _ E) as Hr. exists s. split; [exact Hr|].
  split; [vm_compute in E; injection E as <-; vm_compute; reflexivity|].
  exact (speaker_has_one_owner _ _ _ _ _ _ _ _ _ _ s Hr).
Defined.

Lemma idle_speaker_serves_the_earlier_witness :
  let '(complete_active, sequence) := queue_view (mk_queue 128 [demo_job "b" 300 20 2] None) in
  is_Some_b (take_ready_physical_stream_command None [(demo_job "a" 300 10 1, Start)]
    complete_active sequence) = true
  ∧ complete_translation_command_is_ready false complete_active sequence (Some 1) = false.
Proof.
  destruct (idle_speaker_serves_the_earlier (demo_job "a" 300 10 1, Start) [] (demo_job "b" 300 20 2) [])
    as [Hs Hc]; [vm_compute; discriminate|].
  split; [exact Hs|exact (eq_trans Hc (f_equal negb Hs))].
Defined.

Definition streaming_demo : option System :=
  Demo.play [Demo.source_frame; Demo.stream "a" Start 0; Demo.complete "b"].
Lemma stop_reports_every_accepted_cue_witness :
  match streaming_demo with
  | Some s =>
      let b := BridgePlayback.bridge (desk s) in
      streaming_cue b "a" ∧ queued_cue b "b"
      ∧ match request_playback_stop Demo.clock Demo.order "stop" None b with
        | (Ok _, b') => stopped b b'
        | (Err _, _) => False
        end
  | None => False
  end.
Proof.
  destruct streaming_demo as [s|] eqn:E; [|vm_compute in E; discriminate].
  set (b := BridgePlayback.bridge (desk s)).
  assert (is_Some (active (cu_streams (cues b)) !! "a"))
    by (subst b; vm_compute in E; injection E as <-; vm_compute; eauto).
  split; [exact H|].
  split.
  { right. subst b. vm_compute in E. injection E as <-. eexists. split; [vm_compute; left|reflexivity]. }
  pose proof (stop_reports_every_accepted_cue Demo.clock Demo.order "stop" None b) as Hs.
  destruct (request_playback_stop Demo.clock Demo.order "stop" None b) as [[r|e] b'] eqn:Er.
  - destruct Hs as [Hs _]; [intros l; reflexivity|exact Hs].
  - exfalso. subst b. vm_compute in E. injection E as <-. vm_compute in Er. discriminate.
Defined.

Lemma shutdown_forgets_streams_witness :
  match streaming_demo with
  | Some s =>
      let b := BridgePlayback.bridge (desk s) in
      match begin_shutdown Demo.clock Demo.order b with
      | (Ok _, b') => is_Some_b (cu_authorities (cues b) !! "a") = true
          ∧ cu_authorities (cues b') !! "a" = cu_authorities (cues b) !! "a"
          ∧ (claim_terminal "a" 0 (cu_streams (cues b'))).1 = false
      | (Err _, _) => False
      end
  | None => False
  end.
Proof.
  destruct streaming_demo as [s|] eqn:E; [|vm_compute in E; discriminate].
  cbv zeta. set (b := BridgePlayback.bridge (desk s)).
  pose proof (shutdown_forgets_streams Demo.clock Demo.order b "a" 0) as Hs.
  destruct (begin_shutdown Demo.clock Demo.order b) as [[r|e] b'] eqn:Er.
  - destruct Hs as (new & _ & _ & Ha & Hc).
    + intros l; reflexivity.
    + subst b. vm_compute in E. injection E as <-. vm_compute. eauto.
    + subst b. clear Er. vm_compute in E. injection E as <-. intros [(a & Ha & _)|(job & Hj & Hc)].
      * vm_compute in Ha. discriminate.
      * vm_compute in Hj. apply list_elem_of_singleton in Hj as ->. vm_compute in Hc. discriminate.
    + split; [|split; [exact Ha|exact Hc]].
      subst b. vm_compute in E. injection E as <-. vm_compute. reflexivity.
  - exfalso. subst b. vm_compute in E. injection E as <-. vm_compute in Er. discriminate.
Defined.

Definition demo_init : InitCommand :=
  mk_init (Some BRIDGE_PROTOCOL_VERSION) (Some "none") (Some "s") None None None None (Some 6) None
    None (Some true) None.
Definition demo_plan : InitPlan := mk_plan CaptureNone None.
Definition demo_env : InitEnvironment := mk_init_env None None None false None.
Lemma superseded_init_changes_nothing_witness : ∃ wait b1,
  apply_init Demo.clock Demo.order demo_init demo_plan demo_env Demo.bridge = (Ok (inr wait), b1)
  ∧ rt_playback_owner_generation (route Demo.bridge) < rw_owner_generation wait
  ∧ (finish_init wait (inl "speaker") Demo.bridge).2 = Demo.bridge.
Proof.
  destruct (apply_init Demo.clock Demo.order demo_init demo_plan demo_env Demo.bridge)
    as [[[reply|wait]|e] b1] eqn:E; [vm_compute in E; discriminate| |vm_compute in E; discriminate].
  exists wait, b1.
  destruct (superseded_init_changes_nothing _ _ _ _ _ _ _ _ Demo.bridge (inl "speaker") E) as (H1 & _ & _ & H2).
  - vm_compute. reflexivity.
  - vm_compute. reflexivity.
  - vm_compute in E. injection E as <- _. vm_compute. discriminate.
  - split; [reflexivity|]. split; [exact H1|exact H2].
Defined.
