(* ===== verification/PlaybackOwnership.v ===== *)
(** * Ownership of the physical speaker

    Models [audio/playback_ownership.rs]: a permit lets one render client of the
    desktop submit PCM; the process-exclusion barrier cancels every permit and
    waits until all of them are dropped.

    Every method body between two lock acquisitions is one computation on the
    shared state. A method that waits on the condition variable is split at the
    wait: its entry runs to the first wait or return, each wake-up runs to the
    next. Clock readings, the condition variable's timeout flag and the order in
    which threads take the lock are the labels of the step relation. The
    iteration of a [BTreeMap] is by ascending key. *)
From stdpp Require Import sorting.
From S2P Require Import Prelude RustStr.

(** ** Data *)
Inductive PlaybackOwner := Desktop | ProcessExclusionTransition | ProcessExclusion.
#[export] Instance playback_owner_eq_dec : EqDecision PlaybackOwner.
Proof. solve_decision. Defined.
Definition PlaybackOwner_as_str (o : PlaybackOwner) : string :=
  match o with
  | Desktop => "desktop"
  | ProcessExclusionTransition => "process-exclusion-transition"
  | ProcessExclusion => "process-exclusion"
  end.
Record ActivePlayback := mk_playback {
  ap_generation : Z; ap_cue_id : string; ap_source : string; ap_cancelled : bool;
  ap_cleanup_failures : list string
}.
#[export] Instance active_playback_eq_dec : EqDecision ActivePlayback.
Proof. solve_decision. Defined.
#[export] Instance playback_settable : Settable ActivePlayback := λ p,
  mk_playback (ap_generation p) (ap_cue_id p) (ap_source p) (ap_cancelled p) (ap_cleanup_failures p).
Record PlaybackOwnershipState := mk_ownership {
  po_owner : PlaybackOwner; po_generation : Z; po_next_permit_id : Z;
  po_active : gmap Z ActivePlayback; po_cancellation_failures : list string
}.
#[export] Instance ownership_settable : Settable PlaybackOwnershipState := λ s,
  mk_ownership (po_owner s) (po_generation s) (po_next_permit_id s) (po_active s)
    (po_cancellation_failures s).
Definition ownership_default : PlaybackOwnershipState := mk_ownership Desktop 1 1 ∅ [].
Record DesktopPlaybackPermit := mk_permit { pp_permit_id : Z; pp_generation : Z }.
#[export] Instance permit_eq_dec : EqDecision DesktopPlaybackPermit.
Proof. solve_decision. Defined.

(** ** Messages *)
Definition PLAYBACK_OWNERSHIP_BARRIER_ERROR_CODE : string :=
  "bridge.playback-ownership-barrier-failed".
Definition DESKTOP_PLAYBACK_CANCELLED_CODE : string :=
  "audio.desktop-playback-ownership-cancelled".
Definition desktop_playback_was_cancelled (error : string) : bool :=
  String.prefix DESKTOP_PLAYBACK_CANCELLED_CODE error.
Definition cancelled_error (cue_id source : string) (owner : PlaybackOwner) (generation : Z)
    : string :=
  DESKTOP_PLAYBACK_CANCELLED_CODE +:+ ": cue=" +:+ cue_id +:+ " source=" +:+ source +:+ " owner="
  +:+ PlaybackOwner_as_str owner +:+ " generation=" +:+ show_uint generation.
Definition barrier_error (detail : string) : string :=
  PLAYBACK_OWNERSHIP_BARRIER_ERROR_CODE +:+ ": " +:+ detail.
Definition key_le {A} (a b : Z * A) : Prop := a.1 ≤ b.1.
#[export] Instance key_le_dec {A} : RelDecision (key_le (A:=A)).
Proof. intros a b. unfold key_le. apply _. Defined.
(** [BTreeMap::values]. *)
Definition values {A} (m : gmap Z A) : list A := (merge_sort key_le (map_to_list m)).*2.
Definition active_playback_detail (s : PlaybackOwnershipState) : string :=
  join "," ((λ p, "cue=" +:+ ap_cue_id p +:+ "/source=" +:+ ap_source p +:+ "/generation="
                 +:+ show_uint (ap_generation p)) <$> values (po_active s)).
(** [if !list.contains(&item) { list.push(item) }]. *)
Definition push_new (item : string) (l : list string) : list string :=
  if bool_decide (item ∈ l) then l else l ++ [item].

(** ** Operations under the lock *)
Abbreviation Own := (M PlaybackOwnershipState).

Definition acquire (cue_id source : string) : Own DesktopPlaybackPermit :=
  let* s := gets id in
  if negb (bool_decide (po_owner s = Desktop))
  then fail (cancelled_error cue_id source (po_owner s) (po_generation s))
  else
    let permit_id := po_next_permit_id s in
    modify (λ s, s <| po_next_permit_id := saturating_add permit_id 1 |>
                   <| po_active ::= <[permit_id := mk_playback (po_generation s) cue_id source false []]> |>);;;
    ret (mk_permit permit_id (po_generation s)).

(** What a method that waits has come to. *)
Inductive progress (A : Type) := Waiting | Returned (a : A).
#[global] Arguments Waiting {A}.
#[global] Arguments Returned {A} _.

Definition drain_timed_out : Own (progress unit) :=
  let* detail := gets active_playback_detail in
  fail (barrier_error ("timed out waiting for Desktop playback to drain; active=" +:+ detail)).
Definition drain_finish : Own (progress unit) :=
  let* failures := gets po_cancellation_failures in
  if negb (bool_decide (failures = []))
  then fail (barrier_error ("Desktop playback cancellation failed: " +:+ join " | " failures))
  else modify (λ s, s <| po_owner := ProcessExclusion |>);;; ret (Returned tt).
(** The loop from its head to the next wait. *)
Definition drain_loop (deadline now : Z) : Own (progress unit) :=
  let* active := gets po_active in
  if bool_decide (active = ∅) then drain_finish
  else if bool_decide (deadline ≤ now) then drain_timed_out
  else ret Waiting.
Definition close_desktop (s : PlaybackOwnershipState) : PlaybackOwnershipState :=
  s <| po_owner := ProcessExclusionTransition |>
    <| po_generation ::= λ g, saturating_add g 1 |>
    <| po_cancellation_failures := [] |>
    <| po_active ::= fmap (λ p, p <| ap_cancelled := true |>) |>.
Definition cancel_and_drain_for_process_exclusion (deadline now : Z) : Own (progress unit) :=
  let* s := gets id in
  if bool_decide (po_owner s = ProcessExclusion) && bool_decide (po_active s = ∅)
  then ret (Returned tt)
  else when (bool_decide (po_owner s = Desktop)) (modify close_desktop);;; drain_loop deadline now.
Definition drain_wake (timed_out : bool) (deadline now : Z) : Own (progress unit) :=
  let* active := gets po_active in
  if timed_out && negb (bool_decide (active = ∅)) then drain_timed_out
  else drain_loop deadline now.
Definition run_after_process_exclusion_drain {A} (drained : outcome unit) (after_drain : outcome A)
    : outcome A := obind drained (λ _, after_drain).

Definition is_match (cue_id source : string) (p : ActivePlayback) : bool :=
  bool_decide (ap_cue_id p = cue_id) && bool_decide (ap_source p = source).
Definition any_match (cue_id source : string) (s : PlaybackOwnershipState) : bool :=
  existsb (is_match cue_id source) (values (po_active s)).
Definition match_timed_out (cue_id source : string) : Own (progress bool) :=
  fail (PLAYBACK_OWNERSHIP_BARRIER_ERROR_CODE +:+ ": timed out stopping cue=" +:+ cue_id
        +:+ " source=" +:+ source).
Definition match_loop (cue_id source : string) (deadline now : Z) : Own (progress bool) :=
  let* any := gets (any_match cue_id source) in
  if negb any then ret (Returned true)
  else if bool_decide (deadline ≤ now) then match_timed_out cue_id source
  else ret Waiting.
Definition cancel_and_drain_matching (cue_id source : string) (deadline now : Z)
    : Own (progress bool) :=
  let* matched := gets (any_match cue_id source) in
  if negb matched then ret (Returned false)
  else
    modify (λ s, s <| po_active ::= fmap (λ p,
      if is_match cue_id source p then p <| ap_cancelled := true |> else p) |>);;;
    match_loop cue_id source deadline now.
Definition match_wake (cue_id source : string) (timed_out : bool) (deadline now : Z)
    : Own (progress bool) :=
  let* any := gets (any_match cue_id source) in
  if timed_out && any then match_timed_out cue_id source
  else match_loop cue_id source deadline now.

Definition release_to_desktop : Own unit :=
  modify (λ s, s <| po_owner := Desktop |> <| po_generation ::= λ g, saturating_add g 1 |>
                 <| po_cancellation_failures := [] |>).

Definition validate (permit : DesktopPlaybackPermit) (s : PlaybackOwnershipState) : outcome unit :=
  match po_active s !! pp_permit_id permit with
  | None => Err (Fail (DESKTOP_PLAYBACK_CANCELLED_CODE +:+ ": playback permit is no longer active"))
  | Some p =>
      if negb (bool_decide (po_owner s = Desktop)) || ap_cancelled p
         || negb (ap_generation p =? pp_generation permit)
         || negb (po_generation s =? pp_generation permit)
      then Err (Fail (cancelled_error (ap_cue_id p) (ap_source p) (po_owner s) (pp_generation permit)))
      else Ok tt
  end.
Definition ensure_active (permit : DesktopPlaybackPermit) : Own unit :=
  let* r := gets (validate permit) in lift r.
(** [result] is what the physical submission returns when it runs. *)
Definition submit {A} (permit : DesktopPlaybackPermit) (result : outcome A) : Own A :=
  ensure_active permit;;; lift result.
(** The wait in between changes nothing; its wake-up checks again. *)
Definition wait_for_endpoint_poll : DesktopPlaybackPermit → Own unit := ensure_active.
Definition record_cancellation_failure (permit : DesktopPlaybackPermit) (detail : string) : Own unit :=
  let* s := gets id in
  match po_active s !! pp_permit_id permit with
  | None => ret tt
  | Some p =>
      let cancelled := ap_cancelled p || negb (bool_decide (po_owner s = Desktop)) in
      let failure := "cue=" +:+ ap_cue_id p +:+ " source=" +:+ ap_source p +:+ " detail=" +:+ detail in
      modify (λ s, s <| po_active ::= <[pp_permit_id permit :=
        p <| ap_cleanup_failures ::= push_new failure |>]> |>);;;
      when cancelled (modify (λ s, s <| po_cancellation_failures ::= push_new failure |>))
  end.
Definition drop_permit (permit : DesktopPlaybackPermit) : Own unit :=
  let* s := gets id in
  match po_active s !! pp_permit_id permit with
  | None => ret tt
  | Some p =>
      modify (λ s, s <| po_active ::= delete (pp_permit_id permit) |>);;;
      when (ap_cancelled p || negb (bool_decide (po_owner s = Desktop)))
        (modify (λ s, s <| po_cancellation_failures ::= λ l,
           fold_left (λ l f, push_new f l) (ap_cleanup_failures p) l |>))
  end.

(** ** Interleavings *)
Inductive event :=
| Acquired (permit : DesktopPlaybackPermit)
| Submitted (permit : DesktopPlaybackPermit)
| Drained (thread : Z) (result : outcome unit)
| Stopped (thread : Z) (result : outcome bool)
| Released.
(** The shared state, the permits alive, the threads waiting in a drain (with
    their deadlines) and what happened so far. *)
Record World := mk_world {
  w_state : PlaybackOwnershipState; w_permits : list DesktopPlaybackPermit;
  w_drains : gmap Z Z; w_matching : gmap Z (string * string * Z); w_log : list event
}.
#[export] Instance world_settable : Settable World := λ w,
  mk_world (w_state w) (w_permits w) (w_drains w) (w_matching w) (w_log w).
Definition initial_world : World := mk_world ownership_default [] ∅ ∅ [].
Definition log (e : event) (w : World) : World := w <| w_log ::= λ l, l ++ [e] |>.

Inductive label :=
| LAcquire (cue_id source : string)
| LDrain (thread deadline now : Z)
| LDrainWake (thread : Z) (timed_out : bool) (now : Z)
| LMatch (thread : Z) (cue_id source : string) (deadline now : Z)
| LMatchWake (thread : Z) (timed_out : bool) (now : Z)
| LRelease
| LSubmit (permit : DesktopPlaybackPermit)
| LEnsure (permit : DesktopPlaybackPermit)
| LRecordFailure (permit : DesktopPlaybackPermit) (detail : string)
| LDrop (permit : DesktopPlaybackPermit).

Definition drain_step (thread deadline : Z) (m : Own (progress unit)) (w : World) : World :=
  let '(r, s) := m (w_state w) in
  let w := w <| w_state := s |> in
  match r with
  | Ok Waiting => w <| w_drains ::= <[thread := deadline]> |>
  | Ok (Returned _) => log (Drained thread (Ok tt)) (w <| w_drains ::= delete thread |>)
  | Err e => log (Drained thread (Err e)) (w <| w_drains ::= delete thread |>)
  end.
Definition match_step (thread : Z) (key : string * string * Z) (m : Own (progress bool)) (w : World)
    : World :=
  let '(r, s) := m (w_state w) in
  let w := w <| w_state := s |> in
  match r with
  | Ok Waiting => w <| w_matching ::= <[thread := key]> |>
  | Ok (Returned b) => log (Stopped thread (Ok b)) (w <| w_matching ::= delete thread |>)
  | Err e => log (Stopped thread (Err e)) (w <| w_matching ::= delete thread |>)
  end.
(** A thread that waits in a drain starts no other; a permit is used while it is alive. *)
Definition exec_label (l : label) (w : World) : option World :=
  match l with
  | LAcquire cue_id source =>
      let '(r, s) := acquire cue_id source (w_state w) in
      let w := w <| w_state := s |> in
      Some (match r with
            | Ok p => log (Acquired p) (w <| w_permits ::= cons p |>)
            | Err _ => w
            end)
  | LDrain thread deadline now =>
      if is_Some_b (w_drains w !! thread) then None
      else Some (drain_step thread deadline (cancel_and_drain_for_process_exclusion deadline now) w)
  | LDrainWake thread timed_out now =>
      deadline ← w_drains w !! thread;
      Some (drain_step thread deadline (drain_wake timed_out deadline now) w)
  | LMatch thread cue_id source deadline now =>
      if is_Some_b (w_matching w !! thread) then None
      else Some (match_step thread (cue_id, source, deadline)
                   (cancel_and_drain_matching cue_id source deadline now) w)
  | LMatchWake thread timed_out now =>
      '(cue_id, source, deadline) ← w_matching w !! thread;
      Some (match_step thread (cue_id, source, deadline)
              (match_wake cue_id source timed_out deadline now) w)
  | LRelease => Some (log Released (w <| w_state ::= λ s, (release_to_desktop s).2 |>))
  | LSubmit p =>
      if bool_decide (p ∈ w_permits w) then
        let '(r, s) := submit p (Ok tt) (w_state w) in
        let w := w <| w_state := s |> in
        Some (match r with Ok _ => log (Submitted p) w | Err _ => w end)
      else None
  | LEnsure p =>
      if bool_decide (p ∈ w_permits w) then Some (w <| w_state ::= λ s, (ensure_active p s).2 |>)
      else None
  | LRecordFailure p detail =>
      if bool_decide (p ∈ w_permits w)
      then Some (w <| w_state ::= λ s, (record_cancellation_failure p detail s).2 |>) else None
  | LDrop p =>
      if bool_decide (p ∈ w_permits w)
      then Some (w <| w_state ::= λ s, (drop_permit p s).2 |>
                   <| w_permits ::= filter (λ q, q ≠ p) |>) else None
  end.
Definition ownership_step (w : World) (l : label) (w' : World) : Prop := exec_label l w = Some w'.
Definition ownership_reachable : World → Prop := reachable (eq initial_world) ownership_step.
