(* ===== verification/PlaybackOwnershipTheorems.v ===== *)
(** * What playback ownership guarantees

    The barrier is a linearization point for physical PCM, and a cancelled
    permit stays cancelled in every interleaving. *)
From S2P Require Import Prelude RustStr PlaybackOwnership.

(** ** One operation *)
(** The invariant of the shared state. *)
Record own_ok (s : PlaybackOwnershipState) : Prop := {
  oo_closed : po_owner s = ProcessExclusion → po_active s = ∅ ∧ po_cancellation_failures s = [];
  oo_cancelled : po_owner s ≠ Desktop → ∀ i p, po_active s !! i = Some p → ap_cancelled p = true;
  oo_generation i p : po_active s !! i = Some p → ap_generation p ≤ po_generation s
}.
(** What any operation may do to the permits issued so far: it never issues one
    again, never revives one and never changes its generation. *)
Record later (s s' : PlaybackOwnershipState) : Prop := {
  la_next : po_next_permit_id s ≤ po_next_permit_id s';
  la_generation : po_generation s ≤ po_generation s';
  la_active i p' : i < po_next_permit_id s → po_active s' !! i = Some p' →
    ∃ p, po_active s !! i = Some p ∧ ap_generation p' = ap_generation p
      ∧ (ap_cancelled p = true → ap_cancelled p' = true)
}.
(** Both, for states whose counters are 64-bit. *)
Record own_evolves (s s' : PlaybackOwnershipState) : Prop := {
  oe_bounds : po_next_permit_id s ≤ u64_max ∧ po_generation s ≤ u64_max →
    (po_next_permit_id s' ≤ u64_max ∧ po_generation s' ≤ u64_max) ∧ later s s' ∧ (own_ok s → own_ok s')
}.
#[export] Instance own_evolves_preorder : PreOrder own_evolves.
Proof.
  split.
  - intros s. split. intros H. split_and!; [by destruct H..| |done]. split; [lia|lia|].
    intros i p _ Hp. by exists p.
  - intros s1 s2 s3 [H1] [H2]. split. intros (B2 & [N1 G1 A1] & O1)%H1.
    destruct (H2 B2) as (B3 & [N2 G2 A2] & O2). split_and!; [by destruct B3..| |auto].
    split; [lia|lia|]. intros i p3 Hi (p2 & Hp2 & E2 & C2)%A2; [|lia].
    destruct (A1 i p2 Hi Hp2) as (p1 & Hp1 & E1 & C1). exists p1. split_and!; [done|congruence|auto].
Qed.
(** The owner stays closed: true of everything but the release. *)
Definition stays_closed (s s' : PlaybackOwnershipState) : Prop :=
  po_owner s ≠ Desktop → po_owner s' ≠ Desktop.
#[export] Instance stays_closed_preorder : PreOrder stays_closed.
Proof. split; [by intros s|]. intros s1 s2 s3 H1 H2 H. auto. Qed.
Lemma stays_same s s' : po_owner s' = po_owner s → stays_closed s s'.
Proof. unfold stays_closed. by intros ->. Qed.

Lemma evolves_shrink s s' :
  po_owner s' = po_owner s → po_generation s' = po_generation s →
  po_next_permit_id s' = po_next_permit_id s →
  (∀ i p', po_active s' !! i = Some p' → ∃ p, po_active s !! i = Some p
     ∧ ap_generation p' = ap_generation p ∧ (ap_cancelled p = true → ap_cancelled p' = true)) →
  (po_active s = ∅ → po_active s' = ∅ ∧ po_cancellation_failures s' = po_cancellation_failures s) →
  own_evolves s s'.
Proof.
  intros Ho Hg Hn Ha Hc. split. intros B. rewrite Hn, Hg. split_and!; [lia|lia| |].
  - split; [lia|lia|]. intros i p' _ Hp. by apply Ha.
  - intros [H1 H2 H3]. split; rewrite ?Ho, ?Hg.
    + intros [E1 E2]%H1. destruct (Hc E1) as [-> ->]. done.
    + intros Hd i p' (p & Hp & _ & Hcc)%Ha. apply Hcc. by eapply H2.
    + intros i p' (p & Hp & -> & _)%Ha. by eapply H3.
Qed.
Lemma acquire_evolves cue source : evolves own_evolves (acquire cue source).
Proof.
  intros s. unfold acquire, bind, gets. simpl. destruct (decide (po_owner s = Desktop)) as [Ho|Ho];
    [rewrite bool_decide_true by done|by rewrite bool_decide_false by done]. simpl. split. intros B.
  split_and!; simpl; [saturating_lia|lia| |].
  - split; simpl; [saturating_lia|lia|]. intros i p' Hi. rewrite lookup_insert_ne by lia.
    intros Hp. by exists p'.
  - intros [H1 H2 H3]. split; simpl; [congruence|congruence|].
    intros i p [[<- <-]|[_ Hp]]%lookup_insert_Some; [done|by eapply H3].
Qed.
Lemma release_evolves : evolves own_evolves release_to_desktop.
Proof.
  intros s. split. simpl. intros B. split_and!; [lia|saturating_lia| |].
  - split; simpl; [lia|saturating_lia|]. intros i p _ Hp. by exists p.
  - intros [H1 H2 H3]. split; simpl; [done|done|]. intros i p Hp%H3. saturating_lia.
Qed.
Lemma close_evolves s : po_owner s = Desktop → own_evolves s (close_desktop s).
Proof.
  intros Ho. split. simpl. intros B. split_and!; [lia|saturating_lia| |].
  - split; simpl; [lia|saturating_lia|].
    intros i p' _ (p & <- & Hp)%lookup_fmap_Some. by exists p.
  - intros [H1 H2 H3]. split; simpl; [done| |].
    + intros _ i p' (p & <- & Hp)%lookup_fmap_Some. done.
    + intros i p' (p & <- & Hp%H3)%lookup_fmap_Some. simpl. saturating_lia.
Qed.
Lemma drain_loop_evolves deadline now : evolves own_evolves (drain_loop deadline now).
Proof.
  intros s. unfold drain_loop, bind, gets. simpl.
  destruct (decide (po_active s = ∅)) as [Ha|Ha].
  - rewrite bool_decide_true by done. unfold drain_finish, bind, gets. simpl.
    destruct (decide (po_cancellation_failures s = [])) as [Hf|Hf];
      [rewrite bool_decide_true by done|by rewrite bool_decide_false by done].
    simpl. split. intros B. split_and!; simpl; [lia|lia| |].
    + split; simpl; [lia|lia|]. intros i p _ Hp. by exists p.
    + intros [H1 H2 H3]. split; simpl; [done| |done]. rewrite Ha. intros _ i p. by rewrite lookup_empty.
  - rewrite bool_decide_false by done. by destruct (bool_decide _).
Qed.
Lemma drain_evolves deadline now :
  evolves own_evolves (cancel_and_drain_for_process_exclusion deadline now).
Proof.
  intros s. unfold cancel_and_drain_for_process_exclusion, bind at 1, gets. simpl.
  destruct (_ && _); [done|]. destruct (decide (po_owner s = Desktop)) as [Ho|Ho].
  - rewrite bool_decide_true by done. simpl. etransitivity; [by apply close_evolves|].
    apply drain_loop_evolves.
  - rewrite bool_decide_false by done. apply drain_loop_evolves.
Qed.
Lemma drain_wake_evolves b deadline now : evolves own_evolves (drain_wake b deadline now).
Proof.
  intros s. unfold drain_wake, bind at 1, gets. simpl.
  destruct (_ && _); [done|]. apply drain_loop_evolves.
Qed.
Lemma match_loop_same cue source deadline now s : (match_loop cue source deadline now s).2 = s.
Proof.
  unfold match_loop, bind, gets. simpl. destruct (negb _); [done|]. by destruct (bool_decide _).
Qed.
Lemma match_wake_same cue source b deadline now s : (match_wake cue source b deadline now s).2 = s.
Proof.
  unfold match_wake, bind at 1, gets. simpl. destruct (_ && _); [done|]. apply match_loop_same.
Qed.
Lemma match_evolves cue source deadline now :
  evolves own_evolves (cancel_and_drain_matching cue source deadline now).
Proof.
  intros s. unfold cancel_and_drain_matching, bind, gets. simpl. destruct (negb _); [done|]. simpl.
  rewrite match_loop_same. apply evolves_shrink; try done; simpl.
  - intros i p' (p & <- & Hp)%lookup_fmap_Some. exists p. split; [done|]. by destruct (is_match _ _ p).
  - intros ->. by rewrite fmap_empty.
Qed.
Lemma ensure_same p s : (ensure_active p s).2 = s.
Proof. unfold ensure_active, bind, gets, lift. simpl. by destruct (validate p s). Qed.
Lemma record_evolves p detail : evolves own_evolves (record_cancellation_failure p detail).
Proof.
  intros s. unfold record_cancellation_failure, bind, gets. simpl.
  destruct (po_active s !! pp_permit_id p) as [a|] eqn:Ha; [|done]. simpl.
  apply evolves_shrink.
  1-3: by destruct (_ || _).
  - intros i p'. destruct (_ || _); simpl; (intros [[<- <-]|[_ Hp]]%lookup_insert_Some; [by exists a|by exists p']).
  - intros E. by rewrite E, lookup_empty in Ha.
Qed.
Lemma drop_evolves p : evolves own_evolves (drop_permit p).
Proof.
  intros s. unfold drop_permit, bind, gets. simpl.
  destruct (po_active s !! pp_permit_id p) as [a|] eqn:Ha; [|done]. simpl.
  apply evolves_shrink.
  1-3: by destruct (_ || _).
  - intros i p'. destruct (_ || _); simpl; (intros [_ Hp]%lookup_delete_Some; by exists p').
  - intros E. by rewrite E, lookup_empty in Ha.
Qed.

(** ** One step of the interleaving *)
(** What a step that logs an event has done. *)
Definition explains (w : World) (l : label) (w' : World) (e : event) : Prop :=
  match e with
  | Acquired _ => po_owner (w_state w) = Desktop
  | Submitted p => validate p (w_state w) = Ok tt
  | Drained _ (Ok tt) => po_owner (w_state w') = ProcessExclusion ∧ po_active (w_state w') = ∅
  | Released => l = LRelease
  | _ => True
  end.
Definition logs (w : World) (l : label) (w' : World) : Prop :=
  ∃ evs, w_log w' = w_log w ++ evs ∧ ∀ e, e ∈ evs → explains w l w' e.
Lemma logs_nothing w l w' : w_log w' = w_log w → logs w l w'.
Proof. unfold logs. intros ->. exists []. rewrite app_nil_r. split; [done|]. by intros e ?%elem_of_nil. Qed.
Lemma logs_one w l w' e : w_log w' = w_log w ++ [e] → explains w l w' e → logs w l w'.
Proof. unfold logs. intros ->. exists [e]. split; [done|]. by intros e' ->%list_elem_of_singleton. Qed.

Lemma drain_loop_returns deadline now s :
  match drain_loop deadline now s with
  | (Ok (Returned _), s') => po_owner s' = ProcessExclusion ∧ po_active s' = ∅
  | (_, s') => po_owner s' = po_owner s
  end.
Proof.
  unfold drain_loop, bind at 1, gets. simpl. destruct (decide (po_active s = ∅)) as [Ha|Ha].
  - rewrite bool_decide_true by done. unfold drain_finish, bind, gets. simpl.
    by destruct (bool_decide (po_cancellation_failures s = [])).
  - rewrite bool_decide_false by done. by destruct (bool_decide _).
Qed.
Lemma drain_returns deadline now s :
  match cancel_and_drain_for_process_exclusion deadline now s with
  | (Ok (Returned _), s') => po_owner s' = ProcessExclusion ∧ po_active s' = ∅
  | (_, s') => stays_closed s s'
  end.
Proof.
  unfold cancel_and_drain_for_process_exclusion, bind at 1, gets. simpl.
  destruct (_ && _) eqn:E; bool_hyps; [done|]. unfold when.
  destruct (decide (po_owner s = Desktop)) as [Ho|Ho].
  - rewrite bool_decide_true by done. simpl.
    pose proof (drain_loop_returns deadline now (close_desktop s)) as H. unfold bind, modify.
    destruct (drain_loop _ _ _) as [[[|]|] s']; simpl in H; try done; unfold stays_closed; by rewrite H.
  - rewrite bool_decide_false by done. pose proof (drain_loop_returns deadline now s) as H.
    unfold bind, ret. destruct (drain_loop _ _ _) as [[[|]|] s']; try done; unfold stays_closed; by rewrite H.
Qed.
Lemma drain_wake_returns b deadline now s :
  match drain_wake b deadline now s with
  | (Ok (Returned _), s') => po_owner s' = ProcessExclusion ∧ po_active s' = ∅
  | (_, s') => stays_closed s s'
  end.
Proof.
  unfold drain_wake, bind at 1, gets. simpl.
  destruct (_ && _); [exact (λ H, H)|].
  pose proof (drain_loop_returns deadline now s) as H.
  destruct (drain_loop _ _ _) as [[[|]|] s']; try done; unfold stays_closed; by rewrite H.
Qed.
Lemma drain_step_fact thread deadline l (m : M PlaybackOwnershipState (progress unit)) w :
  evolves own_evolves m →
  match m (w_state w) with
  | (Ok (Returned _), s') => po_owner s' = ProcessExclusion ∧ po_active s' = ∅
  | (_, s') => stays_closed (w_state w) s'
  end →
  let w' := drain_step thread deadline m w in
  own_evolves (w_state w) (w_state w') ∧ stays_closed (w_state w) (w_state w')
  ∧ w_permits w' = w_permits w ∧ logs w l w'.
Proof.
  intros He Hr. specialize (He (w_state w)). unfold drain_step.
  destruct (m (w_state w)) as [[[|[]]|e] s']; simpl in *; split_and!; try done.
  - by apply logs_nothing.
  - unfold stays_closed. by destruct Hr as [-> _].
  - by eapply logs_one.
  - by eapply logs_one.
Qed.
Lemma match_step_fact thread key l (m : M PlaybackOwnershipState (progress bool)) w :
  evolves own_evolves m → stays_closed (w_state w) (m (w_state w)).2 →
  let w' := match_step thread key m w in
  own_evolves (w_state w) (w_state w') ∧ stays_closed (w_state w) (w_state w')
  ∧ w_permits w' = w_permits w ∧ logs w l w'.
Proof.
  intros He Hr. specialize (He (w_state w)). unfold match_step.
  destruct (m (w_state w)) as [[[|b]|e] s']; simpl in *; split_and!; try done.
  - by apply logs_nothing.
  - by eapply logs_one.
  - by eapply logs_one.
Qed.
Lemma match_closed cue source deadline now s :
  stays_closed s (cancel_and_drain_matching cue source deadline now s).2.
Proof.
  unfold cancel_and_drain_matching, bind, gets. simpl. destruct (negb _); [exact (λ H, H)|]. simpl.
  rewrite match_loop_same. exact (λ H, H).
Qed.

(** Permits are unused or below the counter, unless the counter has saturated. *)
Definition issued (w : World) (p : DesktopPlaybackPermit) : Prop :=
  pp_permit_id p < po_next_permit_id (w_state w) ∨ pp_permit_id p = u64_max.
Lemma step_facts w l w' : ownership_step w l w' →
  own_evolves (w_state w) (w_state w')
  ∧ (l ≠ LRelease → stays_closed (w_state w) (w_state w'))
  ∧ (po_next_permit_id (w_state w) ≤ u64_max → ∀ p, p ∈ w_permits w' → p ∈ w_permits w ∨ issued w' p)
  ∧ logs w l w'.
Proof.
  unfold ownership_step. destruct l; simpl.
  - pose proof (acquire_evolves cue_id source (w_state w)) as He. revert He.
    unfold acquire, bind, gets. simpl. destruct (decide (po_owner (w_state w) = Desktop)) as [Ho|Ho];
      [rewrite bool_decide_true by done|rewrite bool_decide_false by done]; simpl; intros He [= <-];
      simpl in *; split_and!; try done; try (intros _; by apply stays_same).
    + intros B p [->|Hp]%elem_of_cons; [|by left]. right. unfold issued. simpl. saturating_lia.
    + by eapply logs_one.
    + intros _ p Hp. by left.
    + by apply logs_nothing.
  - destruct (is_Some_b _); [done|]. intros [= <-].
    destruct (drain_step_fact thread deadline (LDrain thread deadline now) _ w
      (drain_evolves deadline now) (drain_returns deadline now (w_state w))) as (? & ? & Hp & ?).
    split_and!; try done. intros _ p. rewrite Hp. by left.
  - destruct (w_drains w !! thread) as [deadline|]; [|done]. intros [= <-].
    destruct (drain_step_fact thread deadline (LDrainWake thread timed_out now) _ w
      (drain_wake_evolves timed_out deadline now) (drain_wake_returns timed_out deadline now (w_state w)))
      as (? & ? & Hp & ?).
    split_and!; try done. intros _ p. rewrite Hp. by left.
  - destruct (is_Some_b _); [done|]. intros [= <-].
    destruct (match_step_fact thread (cue_id, source, deadline) (LMatch thread cue_id source deadline now)
      _ w (match_evolves cue_id source deadline now) (match_closed cue_id source deadline now (w_state w)))
      as (? & ? & Hp & ?).
    split_and!; try done. intros _ p. rewrite Hp. by left.
  - destruct (w_matching w !! thread) as [[[cue source] deadline]|]; [|done]. intros [= <-].
    destruct (match_step_fact thread (cue, source, deadline) (LMatchWake thread timed_out now)
      (match_wake cue source timed_out deadline now) w) as (? & ? & Hp & ?).
    { intros s. by rewrite match_wake_same. }
    { by rewrite match_wake_same. }
    split_and!; try done. intros _ p. rewrite Hp. by left.
  - intros [= <-]. simpl. split_and!; [apply (release_evolves (w_state w))|done|by left|].
    by eapply logs_one.
  - destruct (bool_decide _); [|done]. unfold submit, ensure_active, bind, gets, lift. simpl.
    destruct (validate permit (w_state w)) as [[]|e] eqn:Hv; intros [= <-]; simpl;
      split_and!; try done; try (by left); try (intros _; by apply stays_same);
      [by eapply logs_one|by apply logs_nothing].
  - destruct (bool_decide _); [|done]. intros [= H].
    assert (w' = w) as ->; [|split_and!; try done; [by left|by apply logs_nothing]].
    subst w'. unfold set_with. pose proof (ensure_same permit (w_state w)) as E.
    destruct w as [s1 ps ds ms lg]. cbn [w_state w_permits w_drains w_matching w_log] in *. exact (f_equal (λ x, mk_world x ps ds ms lg) E).
  - destruct (bool_decide _); [|done]. intros [= <-]. simpl.
    split_and!; [apply (record_evolves permit detail (w_state w))| |by left|by apply logs_nothing].
    intros _. apply stays_same. unfold record_cancellation_failure, bind, gets. simpl.
    destruct (po_active (w_state w) !! _); [|done]. simpl. by destruct (_ || _).
  - destruct (bool_decide _); [|done]. intros [= <-]. simpl.
    split_and!; [apply (drop_evolves permit (w_state w))| | |by apply logs_nothing].
    + intros _. apply stays_same. unfold drop_permit, bind, gets. simpl.
      destruct (po_active (w_state w) !! _); [|done]. simpl. by destruct (_ || _).
    + intros _ p [_ Hp]%list_elem_of_filter. by left.
Qed.

(** ** Reachable worlds and runs *)
Record world_ok (w : World) : Prop := {
  wo_bounds : po_next_permit_id (w_state w) ≤ u64_max ∧ po_generation (w_state w) ≤ u64_max;
  wo_own : own_ok (w_state w);
  wo_issued p : p ∈ w_permits w → issued w p
}.
Lemma step_later w l w' : world_ok w → ownership_step w l w' →
  later (w_state w) (w_state w') ∧ world_ok w'.
Proof.
  intros [B O I] H. destruct (step_facts w l w' H) as ([He] & _ & Hp & _).
  destruct (He B) as (B' & L & O'). split; [done|]. split; [done|auto|].
  intros p [Hin|Hi]%Hp; [|done|lia]. destruct (I p Hin) as [Hlt|Hmax]; [|by right].
  left. destruct L. lia.
Qed.
#[export] Instance world_ok_invariant : Invariant (eq initial_world) ownership_step world_ok.
Proof.
  split.
  - intros w <-. split; [done| |intros p Hp; by apply elem_of_nil in Hp].
    split; simpl; [done|done|]. intros i p. by rewrite lookup_empty.
  - intros w l w' Hw H. by eapply step_later.
Qed.

Definition refused (p : DesktopPlaybackPermit) (s : PlaybackOwnershipState) : Prop :=
  validate p s ≠ Ok tt.
Lemma refused_iff p s : own_ok s → refused p s ↔
  ∀ a, po_active s !! pp_permit_id p = Some a →
    ap_cancelled a = true ∨ ap_generation a ≠ pp_generation p ∨ pp_generation p < po_generation s.
Proof.
  intros [H1 H2 H3]. unfold refused, validate.
  destruct (po_active s !! pp_permit_id p) as [a|] eqn:Ha; [|by split].
  destruct (_ || _) eqn:E.
  - split; [|done]. intros _ a' [= <-]. rewrite !orb_true_iff in E.
    destruct E as [[[E|E]|E]|E]; bool_hyps; [left; by eapply H2|by left|by right; left|].
    destruct (decide (ap_generation a = pp_generation p)) as [Eg|]; [|by right; left].
    right. right. apply H3 in Ha. lia.
  - split; [done|]. intros H. exfalso. rewrite !orb_false_iff in E.
    destruct E as [[[E1 E2] E3] E4]; bool_hyps.
    destruct (H a eq_refl) as [?|[?|?]]; [congruence|done|lia].
Qed.
Lemma refused_later p s s' : own_ok s → own_ok s' → later s s' →
  pp_permit_id p < po_next_permit_id s → refused p s → refused p s'.
Proof.
  intros O O' [L1 L2 L3] Hlt. rewrite !refused_iff by done. intros H a' Ha'.
  destruct (L3 _ _ Hlt Ha') as (a & Ha & Eg & Hc).
  destruct (H a Ha) as [?|[?|?]]; [left; auto|right; left; congruence|right; right; lia].
Qed.
(** A run extends the log by what its steps explain. *)
Lemma run_log (P : World → Prop) (Q : event → Prop) :
  (∀ w l w', P w → ownership_step w l w' → P w' ∧ ∀ e, explains w l w' e → Q e) →
  ∀ w ls w', P w → run ownership_step w ls w' →
  P w' ∧ ∃ evs, w_log w' = w_log w ++ evs ∧ ∀ e, e ∈ evs → Q e.
Proof.
  intros Hstep w ls w' Hw Hr. induction Hr as [w|w l w1 ls w2 H _ IH].
  - split; [done|]. exists []. rewrite app_nil_r. split; [done|]. by intros e ?%elem_of_nil.
  - destruct (Hstep w l w1 Hw H) as [H1 HQ]. destruct (IH H1) as [H2 (evs & E & Hevs)].
    destruct (step_facts w l w1 H) as (_ & _ & _ & evs0 & E0 & Hevs0).
    split; [done|]. exists (evs0 ++ evs). rewrite E, E0, app_assoc. split; [done|].
    intros e [He|He]%elem_of_app; [by apply HQ, Hevs0|by apply Hevs].
Qed.
Lemma refused_run p w ls w' :
  world_ok w → pp_permit_id p < po_next_permit_id (w_state w) → refused p (w_state w) →
  run ownership_step w ls w' →
  refused p (w_state w') ∧ ∃ evs, w_log w' = w_log w ++ evs ∧ Submitted p ∉ evs.
Proof.
  intros Hw Hlt Hr Hrun.
  destruct (run_log
    (λ w, world_ok w ∧ pp_permit_id p < po_next_permit_id (w_state w) ∧ refused p (w_state w))
    (λ e, e ≠ Submitted p)) with (w := w) (ls := ls) (w' := w') as [(_ & _ & H) (evs & E & Hevs)].
  - intros w0 l w1 (H1 & H2 & H3) Hs. destruct (step_later _ _ _ H1 Hs) as [HL H1'].
    split_and!; [done|destruct HL; lia|by eapply refused_later; [apply H1|apply H1'|..]|].
    intros e He ->. simpl in He. done.
  - done.
  - done.
  - split; [done|]. exists evs. split; [done|]. intros Hin. by apply (Hevs _ Hin).
Qed.
Lemma closed_run w ls w' : LRelease ∉ ls → po_owner (w_state w) ≠ Desktop →
  run ownership_step w ls w' →
  po_owner (w_state w') ≠ Desktop ∧ ∃ evs, w_log w' = w_log w ++ evs
    ∧ ∀ p, (Submitted p ∉ evs) ∧ (Acquired p ∉ evs).
Proof.
  intros Hnr Ho Hrun. induction Hrun as [w|w l w1 ls w2 H Hrun IH].
  - split; [done|]. exists []. rewrite app_nil_r. split; [done|]. intros p.
    split; by intros ?%elem_of_nil.
  - rewrite not_elem_of_cons in Hnr. destruct Hnr as [Hl Hnr].
    destruct (step_facts w l w1 H) as (_ & Hc & _ & evs0 & E0 & Hevs0).
    destruct (IH Hnr (Hc (not_eq_sym Hl) Ho)) as [H2 (evs & E & Hevs)]. split; [done|].
    exists (evs0 ++ evs). rewrite E, E0, app_assoc. split; [done|]. intros p.
    rewrite !not_elem_of_app. destruct (Hevs p) as [Hs Ha]. split_and!; try done.
    + intros Hin. specialize (Hevs0 _ Hin). simpl in Hevs0. unfold validate in Hevs0.
      destruct (po_active (w_state w) !! _); [|done]. by rewrite bool_decide_false in Hevs0.
    + intros Hin. exact (Ho (Hevs0 _ Hin)).
Qed.

(** C13: The barrier is a linearization point. When a drain returns successfully,
    process exclusion owns the speaker, no permit is active and no cancellation
    failed. From then on, whatever the interleaving: until the desktop is
    released again no PCM is submitted and no permit is issued, and even after a
    release no permit issued before the barrier ever submits again. *)
Theorem no_pcm_after_the_barrier w l w1 ls w2 thread :
  ownership_reachable w → ownership_step w l w1 →
  w_log w1 = w_log w ++ [Drained thread (Ok tt)] →
  run ownership_step w1 ls w2 →
  po_owner (w_state w1) = ProcessExclusion ∧ po_active (w_state w1) = ∅
  ∧ po_cancellation_failures (w_state w1) = []
  ∧ ∃ evs, w_log w2 = w_log w1 ++ evs
    ∧ (LRelease ∉ ls → po_owner (w_state w2) ≠ Desktop
         ∧ ∀ p, (Submitted p ∉ evs) ∧ (Acquired p ∉ evs))
    ∧ (∀ p, pp_permit_id p < po_next_permit_id (w_state w1) → Submitted p ∉ evs).
Proof.
  intros Hr Hs Hlog Hrun. pose proof (reachable_inv _ ownership_step world_ok w Hr) as Hw.
  destruct (step_later _ _ _ Hw Hs) as [_ Hw1].
  destruct (step_facts w l w1 Hs) as (_ & _ & _ & evs0 & E0 & Hevs0).
  assert (evs0 = [Drained thread (Ok tt)]) as -> by (rewrite E0 in Hlog; by simplify_list_eq).
  destruct (Hevs0 (Drained thread (Ok tt))) as [Ho Ha]; [left|].
  destruct (oo_closed _ (wo_own _ Hw1) Ho) as [_ Hf]. split_and!; [done..|].
  destruct (run_log (λ _, True) (λ _, True)) with (w := w1) (ls := ls) (w' := w2)
    as [_ (evs & E & _)]; [done..|].
  exists evs. split_and!; [done| |].
  - intros Hnr. destruct (closed_run w1 ls w2 Hnr) as [H (evs' & E' & H')]; [by rewrite Ho|done|].
    assert (evs' = evs) as -> by (rewrite E in E'; by simplify_list_eq). done.
  - intros p Hp. destruct (refused_run p w1 ls w2 Hw1 Hp) as [_ (evs' & E' & H')]; [|done|].
    + unfold refused, validate. by rewrite Ha, lookup_empty.
    + assert (evs' = evs) as -> by (rewrite E in E'; by simplify_list_eq). done.
Qed.

(** Cancellation is permanent: once a live permit's submission would be
    refused — after a barrier, after its cue was stopped, or because the desktop
    generation moved on — no interleaving of any length makes it submit again. *)
Theorem cancellation_is_permanent w ls w' p :
  ownership_reachable w → p ∈ w_permits w → pp_permit_id p < u64_max →
  validate p (w_state w) ≠ Ok tt → run ownership_step w ls w' →
  validate p (w_state w') ≠ Ok tt ∧ ∃ evs, w_log w' = w_log w ++ evs ∧ Submitted p ∉ evs.
Proof.
  intros Hr Hin Hmax Hv Hrun. pose proof (reachable_inv _ ownership_step world_ok w Hr) as Hw.
  destruct (wo_issued _ Hw p Hin) as [Hlt|]; [|lia]. by eapply refused_run.
Qed.

(** ** Instances *)
Definition cue_permit : DesktopPlaybackPermit := mk_permit 1 1.
(** A permit plays, the barrier closes over it, it is dropped, the drain
    returns, the desktop is released and another permit is issued. *)
Definition before_return : list label :=
  [LAcquire "cue-1" "native-omni"; LSubmit cue_permit; LDrain 7 100 10; LSubmit cue_permit;
   LDrop cue_permit].
Definition after_return : list label := [LRelease; LAcquire "cue-2" "history"].
Definition run_labels (ls : list label) (w : World) : World :=
  fold_left (λ w l, default w (exec_label l w)) ls w.
Lemma run_labels_run ls : ∀ w,
  forallb (λ n, is_Some_b (exec_label (nth n ls LRelease) (run_labels (take n ls) w)))
    (seq 0 (length ls)) = true →
  run ownership_step w ls (run_labels ls w).
Proof.
  induction ls as [|l ls IH]; intros w H; [constructor|]. simpl in H.
  apply andb_true_iff in H as [H1 H2]. destruct (exec_label l w) as [w1|] eqn:E; [|done].
  econstructor; [exact E|]. unfold run_labels. simpl. rewrite E. simpl. apply IH.
  rewrite forallb_forall in H2 |- *. intros n Hn%List.in_seq.
  specialize (H2 (S n)). simpl in H2. unfold run_labels in H2. simpl in H2. rewrite E in H2.
  apply H2. apply List.in_seq. lia.
Qed.
Definition drained_world : World := run_labels before_return initial_world.
Lemma drained_world_reachable : ownership_reachable drained_world.
Proof.
  eapply run_reachable; [by apply reach_init|]. apply (run_labels_run before_return initial_world).
  by vm_compute.
Qed.
Definition open_world : World := run_labels [LDrainWake 7 false 20] drained_world.
Lemma no_pcm_after_the_barrier_witness :
  po_owner (w_state open_world) = ProcessExclusion
  ∧ w_log drained_world = [Acquired cue_permit; Submitted cue_permit]
  ∧ w_log (run_labels after_return open_world)
    = w_log open_world ++ [Released; Acquired (mk_permit 2 3)].
Proof.
  assert (ownership_step drained_world (LDrainWake 7 false 20) open_world) as Hs by by vm_compute.
  assert (run ownership_step open_world after_return (run_labels after_return open_world)) as Hrun
    by (apply run_labels_run; by vm_compute).
  assert (w_log open_world = w_log drained_world ++ [Drained 7 (Ok tt)]) as Hl by by vm_compute.
  destruct (no_pcm_after_the_barrier drained_world (LDrainWake 7 false 20) open_world after_return
    (run_labels after_return open_world) 7 drained_world_reachable Hs Hl Hrun) as (H & _).
  split_and!; [exact H|by vm_compute|by vm_compute].
Defined.
Definition closed_world : World := run_labels (take 4 before_return) initial_world.
Lemma closed_world_reachable : ownership_reachable closed_world.
Proof.
  eapply run_reachable; [by apply reach_init|].
  apply (run_labels_run (take 4 before_return) initial_world). by vm_compute.
Qed.
Lemma cancellation_is_permanent_witness :
  validate cue_permit (w_state (run_labels [LRelease; LSubmit cue_permit] closed_world)) ≠ Ok tt.
Proof.
  assert (cue_permit ∈ w_permits closed_world) as Hin by (vm_compute; left).
  assert (validate cue_permit (w_state closed_world) ≠ Ok tt) as Hv by (by vm_compute).
  assert (run ownership_step closed_world [LRelease; LSubmit cue_permit]
    (run_labels [LRelease; LSubmit cue_permit] closed_world)) as Hrun
    by (apply run_labels_run; by vm_compute).
  destruct (cancellation_is_permanent closed_world [LRelease; LSubmit cue_permit] _ cue_permit
    closed_world_reachable Hin eq_refl Hv Hrun) as [H _].
  exact H.
Defined.
