(* ===== verification/RenderSubmit.v ===== *)
(** * Rendering translated speech on the physical speaker

    Models [audio/speech/render_submit_tracker.rs], [audio/speech/output/support.rs]
    and [render_wasapi_frames] of [audio/speech/output.rs]: the PCM of one cue is
    written to the endpoint, and the echo canceller receives every reference
    window after the stream has started.

    The world outside is read through [Env]. Its [k]-th answer is what the [k]-th
    call sees: the ownership state other threads left at that lock acquisition,
    the endpoint's results, the callback's results and the clocks. The padding is
    read by its own counter and may depend on whether the stream runs and on how
    much was written. A sample is an [f32] and stays abstract; the player position
    of a frame event is kept in frames, before its conversion to seconds. *)
From S2P Require Import Prelude RustStr PlaybackOwnership.

(** ** The submit tracker *)
Record RenderReferenceWindow := mk_window {
  rw_start_frame : Z; rw_end_frame : Z; rw_submitted_frames : Z;
  rw_endpoint_padding_frames : Z; rw_played_frames : Z
}.
Record RenderSubmitTracker := mk_submit_tracker {
  rt_total_frames : Z; rt_total_reference_frames : Z; rt_reference_frames : Z;
  rt_physical_prefix_frames : Z; rt_reference_start_frame : Z; rt_submitted_frames : Z;
  rt_submitted_frame_base : Z
}.
#[export] Instance submit_tracker_settable : Settable RenderSubmitTracker := λ t,
  mk_submit_tracker (rt_total_frames t) (rt_total_reference_frames t) (rt_reference_frames t)
    (rt_physical_prefix_frames t) (rt_reference_start_frame t) (rt_submitted_frames t)
    (rt_submitted_frame_base t).
Definition new_with_reference_at_and_prefix (total_frames total_reference_frames reference_frames
    physical_prefix_frames submitted_frame_base : Z) : RenderSubmitTracker :=
  let physical_prefix_frames := Z.min physical_prefix_frames total_frames in
  mk_submit_tracker total_frames
    (Z.min total_reference_frames (saturating_sub total_frames physical_prefix_frames))
    (Z.max reference_frames 1) physical_prefix_frames 0 0 submitted_frame_base.
Definition next_write_frames (t : RenderSubmitTracker) (available_frames : Z) : Z :=
  let remaining_frames := saturating_sub (rt_total_frames t) (rt_submitted_frames t) in
  if rt_submitted_frames t <? rt_physical_prefix_frames t then
    Z.min (Z.min available_frames (rt_physical_prefix_frames t - rt_submitted_frames t)) remaining_frames
  else if rt_total_reference_frames t <=? rt_reference_start_frame t then
    Z.min available_frames remaining_frames
  else
    let next_reference_end :=
      Z.min (saturating_add (rt_physical_prefix_frames t)
               (Z.min (rt_reference_start_frame t + rt_reference_frames t)
                  (rt_total_reference_frames t))) (rt_total_frames t) in
    let pending_reference_frames :=
      Z.min (saturating_sub next_reference_end (rt_submitted_frames t)) remaining_frames in
    if pending_reference_frames <=? available_frames then pending_reference_frames else 0.
(** [&mut self] returning [Result<Option<_>, String>]. *)
Definition record_write (written_frames endpoint_padding_frames : Z)
    : M RenderSubmitTracker (option RenderReferenceWindow) :=
  let* t := gets id in
  if (written_frames =? 0)
     || (rt_total_frames t <? saturating_add (rt_submitted_frames t) written_frames)
  then fail "invalid WASAPI render write progress"
  else
    modify (λ t, t <| rt_submitted_frames ::= λ n, n + written_frames |>);;;
    let* t := gets id in
    if rt_submitted_frames t <? endpoint_padding_frames
    then fail ("WASAPI render padding " +:+ show_uint endpoint_padding_frames
               +:+ " exceeds submitted position " +:+ show_uint (rt_submitted_frames t))
    else if rt_submitted_frames t <=? rt_physical_prefix_frames t then ret None
    else
      let reference_end_frame :=
        Z.min (saturating_sub (rt_submitted_frames t) (rt_physical_prefix_frames t))
          (rt_total_reference_frames t) in
      let expected_reference_end :=
        Z.min (rt_reference_start_frame t + rt_reference_frames t) (rt_total_reference_frames t) in
      if negb (reference_end_frame =? expected_reference_end) then ret None
      else
        let reference_start_frame := rt_reference_start_frame t in
        let window := mk_window reference_start_frame reference_end_frame
          (saturating_add (rt_submitted_frame_base t) (rt_submitted_frames t))
          endpoint_padding_frames
          (Z.min (saturating_add (rt_submitted_frame_base t)
                    (saturating_sub (rt_submitted_frames t) endpoint_padding_frames)) u64_max) in
        modify (λ t, t <| rt_reference_start_frame := reference_end_frame |>);;;
        ret (if reference_start_frame <? reference_end_frame then Some window else None).
Definition is_complete (t : RenderSubmitTracker) : bool :=
  rt_submitted_frames t =? rt_total_frames t.

(** ** Underruns, and the frames kept until the stream has started *)
Definition observe (reported_in_session started : bool) (submitted_frames padding_frames : Z)
    : bool * bool :=
  if negb reported_in_session && started && (0 <? submitted_frames) && (padding_frames =? 0)
  then (true, true) else (false, reported_in_session).
Definition SPEAKER_SAMPLE_RATE_HZ : Z := 48000.
Definition SPEAKER_CHANNEL_COUNT : Z := 2.
Definition RENDER_REFERENCE_FRAME_MS : Z := 10.

Section Render.
Context {sample : Type}.

Record DeferredRenderFrame := mk_frame {
  fr_render_session_id : Z; fr_samples : list sample; fr_sample_rate_hz : Z; fr_channel_count : Z;
  fr_played_frames : Z; fr_submitted_frames : Z; fr_submitted_qpc_100ns : option Z;
  fr_endpoint_padding_frames : Z; fr_physical_prefix_offset_frames : Z; fr_observed_at : Z
}.
Inductive SpeakerRenderEvent :=
| StreamStarted (session_id : Z) (endpoint_id renderer_instance_id : string) (owner_generation : Z)
    (observed_at : Z)
| DeviceFault (reason : string) (observed_at : Z)
| Frame (frame : DeferredRenderFrame).
Record Render := mk_render {
  rn_tracker : RenderSubmitTracker; rn_started : bool; rn_stream_started_authority : bool;
  rn_reported_in_session : bool; rn_deferred_frames : list DeferredRenderFrame;
  rn_events : list SpeakerRenderEvent; rn_written : list sample;
  rn_cancellation_failures : list string; rn_calls : nat; rn_padding_reads : nat
}.
#[export] Instance render_settable : Settable Render := λ r,
  mk_render (rn_tracker r) (rn_started r) (rn_stream_started_authority r) (rn_reported_in_session r)
    (rn_deferred_frames r) (rn_events r) (rn_written r) (rn_cancellation_failures r) (rn_calls r)
    (rn_padding_reads r).
Record Env := mk_env {
  ev_ownership : nat → PlaybackOwnershipState;
  ev_device : nat → outcome unit;
  ev_padding : nat → bool → Z → outcome Z;
  ev_callback : nat → outcome unit;
  ev_qpc : nat → option Z;
  ev_instant : nat → Z
}.
(** The arguments of one [render_wasapi_frames] call. *)
Record Job := mk_job {
  jb_reference_samples : list sample; jb_physical_samples : list sample;
  jb_physical_prefix_offset_frames : Z; jb_submitted_frame_base : Z; jb_buffer_frames : Z;
  jb_permit : DesktopPlaybackPermit; jb_render_session_id : Z; jb_endpoint_id : string;
  jb_renderer_instance_id : string
}.
Context (env : Env) (job : Job).
Abbreviation Ren := (M Render).

(** [samples[from..to]], which panics out of range. *)
Definition slice (samples : list sample) (from to : Z) : Ren (list sample) :=
  if (0 <=? from) && (from <=? to) && (to <=? Z.of_nat (length samples))
  then ret (take (Z.to_nat (to - from)) (drop (Z.to_nat from) samples))
  else panic "slice index out of range".

Definition frame_count (samples : list sample) : Z :=
  Z.of_nat (length samples) / SPEAKER_CHANNEL_COUNT.

(** *** The outside world *)
Definition ask {A} (answer : nat → A) : Ren A :=
  let* k := gets rn_calls in modify (λ r, r <| rn_calls ::= S |>);;; ret (answer k).
(** Runs a permit operation on the ownership state this lock acquisition sees. *)
Definition with_permit {A} (op : DesktopPlaybackPermit → M PlaybackOwnershipState A) : Ren A :=
  let* s := ask (ev_ownership env) in lift (op (jb_permit job) s).1.
Definition device_call : Ren unit := let* result := ask (ev_device env) in lift result.
Definition get_current_padding : Ren Z :=
  let* k := gets rn_padding_reads in
  let* started := gets rn_started in
  let* written := gets (λ r, frame_count (rn_written r)) in
  modify (λ r, r <| rn_padding_reads ::= S |>);;; lift (ev_padding env k started written).
Definition observed_now : Ren Z := ask (ev_instant env).
Definition on_render_event (event : SpeakerRenderEvent) : Ren unit :=
  modify (λ r, r <| rn_events ::= λ l, l ++ [event] |>);;;
  let* result := ask (ev_callback env) in lift result.

(** *** Ownership checks *)
Definition error_of {A} (o : outcome A) : option string :=
  match o with Ok _ => None | Err (Fail message) | Err (Panic message) => Some message end.
(** The result of a call that may fail, as a value. *)
Definition attempt {A} (m : Ren A) : Ren (outcome A) := λ r, let '(o, r) := m r in (Ok o, r).
Definition cancel_wasapi_render {A} (started : bool) (cancellation : string) : Ren A :=
  let* stop := (if started then attempt device_call else ret (Ok tt)) in
  let* reset := attempt device_call in
  let cleanup_error :=
    match error_of stop, error_of reset with
    | None, None => None
    | Some stop, None => Some ("IAudioClient::Stop failed: " +:+ stop)
    | None, Some reset => Some ("IAudioClient::Reset failed: " +:+ reset)
    | Some stop, Some reset => Some ("IAudioClient::Stop failed: " +:+ stop
        +:+ "; IAudioClient::Reset failed: " +:+ reset)
    end in
  match cleanup_error with
  | Some cleanup_error =>
      modify (λ r, r <| rn_cancellation_failures ::= λ l, l ++ [cleanup_error] |>);;;
      fail (cancellation +:+ "; " +:+ cleanup_error)
  | None => fail cancellation
  end.
(** Turns a refusal of [m] into the cancelled render's error. *)
Definition or_cancel (m : Ren unit) : Ren unit :=
  let* started := gets rn_started in
  let* result := attempt m in
  match result with
  | Ok tt => ret tt
  | Err (Fail error) => cancel_wasapi_render started error
  | Err (Panic message) => panic message
  end.
Definition ensure_render_ownership : Ren unit := or_cancel (with_permit ensure_active).
(** The permit is checked before and after the wait. *)
Definition wait_for_render_poll : Ren unit :=
  or_cancel (with_permit wait_for_endpoint_poll;;; with_permit wait_for_endpoint_poll).
(** The submission runs under the ownership lock the check took. *)
Definition submit_render_action (action : Ren unit) : Ren unit :=
  let* started := gets rn_started in
  let* result := attempt (with_permit ensure_active;;; action) in
  match result with
  | Ok tt => ret tt
  | Err (Fail error) =>
      if desktop_playback_was_cancelled error then cancel_wasapi_render started error else fail error
  | Err (Panic message) => panic message
  end.

(** *** Publishing *)
Definition publish_render_stream_started : Ren unit :=
  let* authority := gets rn_stream_started_authority in
  if authority then ret tt
  else
    let* now := observed_now in
    on_render_event (StreamStarted (jb_render_session_id job) (jb_endpoint_id job)
      (jb_renderer_instance_id job) (pp_generation (jb_permit job)) now);;;
    modify (λ r, r <| rn_stream_started_authority := true |>).
Definition publish (frame : DeferredRenderFrame) : Ren unit := on_render_event (Frame frame).
(** A frame whose callback fails goes back to the front. *)
Fixpoint flush_frames (frames : list DeferredRenderFrame) : Ren unit :=
  match frames with
  | [] => ret tt
  | frame :: rest =>
      modify (λ r, r <| rn_deferred_frames := rest |>);;;
      let* result := attempt (publish frame) in
      match result with
      | Ok tt => flush_frames rest
      | Err e => modify (λ r, r <| rn_deferred_frames ::= cons frame |>);;; throw e
      end
  end.
Definition flush : Ren unit := let* frames := gets rn_deferred_frames in flush_frames frames.
Definition publish_render_stream_started_and_flush : Ren unit :=
  publish_render_stream_started;;; flush.
Definition publish_or_defer (frame : DeferredRenderFrame) : Ren unit :=
  let* authority := gets rn_stream_started_authority in
  if authority then publish frame
  else modify (λ r, r <| rn_deferred_frames ::= λ l, l ++ [frame] |>).

(** *** The render loop *)
Definition reference_frames : Z :=
  Z.max (SPEAKER_SAMPLE_RATE_HZ * RENDER_REFERENCE_FRAME_MS / 1000) 1.
Definition prefill_frames : Z := Z.min (reference_frames * 2) (jb_buffer_frames job).
Definition new_tracker : RenderSubmitTracker :=
  new_with_reference_at_and_prefix (frame_count (jb_physical_samples job))
    (frame_count (jb_reference_samples job)) reference_frames
    (jb_physical_prefix_offset_frames job) (jb_submitted_frame_base job).
Definition start_stream : Ren unit :=
  submit_render_action device_call;;;
  modify (λ r, r <| rn_started := true |>);;;
  publish_render_stream_started_and_flush.
Definition report_underrun (padding_before : Z) : Ren unit :=
  let* r := gets id in
  let '(fault, reported) := observe (rn_reported_in_session r) (rn_started r)
    (rt_submitted_frames (rn_tracker r)) padding_before in
  modify (λ r, r <| rn_reported_in_session := reported |>);;;
  when fault (let* now := observed_now in on_render_event (DeviceFault "wasapi-render-underrun" now)).
Definition write_to_device (bytes : list sample) : Ren unit :=
  device_call;;; modify (λ r, r <| rn_written ::= λ l, l ++ bytes |>).
Definition on_tracker {A} (m : M RenderSubmitTracker A) : Ren A := λ r,
  let '(o, t) := m (rn_tracker r) in (o, r <| rn_tracker := t |>).
Definition write_window (write_frames : Z) : Ren unit :=
  let* t := gets rn_tracker in
  let sample_start := rt_submitted_frames t * SPEAKER_CHANNEL_COUNT in
  let sample_end := (rt_submitted_frames t + write_frames) * SPEAKER_CHANNEL_COUNT in
  let* bytes := slice (jb_physical_samples job) sample_start sample_end in
  submit_render_action (write_to_device bytes);;;
  let* observed_at := observed_now in
  let* submitted_qpc_100ns := ask (ev_qpc env) in
  let* endpoint_padding_frames := get_current_padding in
  let* window := on_tracker (record_write write_frames endpoint_padding_frames) in
  match window with
  | None => ret tt
  | Some window =>
      let* samples := slice (jb_reference_samples job) (rw_start_frame window * SPEAKER_CHANNEL_COUNT)
                        (rw_end_frame window * SPEAKER_CHANNEL_COUNT) in
      publish_or_defer (mk_frame (jb_render_session_id job) samples SPEAKER_SAMPLE_RATE_HZ
        SPEAKER_CHANNEL_COUNT (rw_played_frames window) (rw_submitted_frames window)
        submitted_qpc_100ns (rw_endpoint_padding_frames window)
        (jb_physical_prefix_offset_frames job) observed_at)
  end;;;
  let* r := gets id in
  when (negb (rn_started r) && (is_complete (rn_tracker r)
         || (prefill_frames <=? rt_submitted_frames (rn_tracker r)))) start_stream.
(** One pass of the loop's body. *)
Definition render_pass : Ren unit :=
  ensure_render_ownership;;;
  let* padding_before := get_current_padding in
  report_underrun padding_before;;;
  let available_frames := saturating_sub (jb_buffer_frames job) padding_before in
  let* r := gets id in
  if available_frames =? 0 then
    when (negb (rn_started r)) start_stream;;; wait_for_render_poll
  else
    let write_frames := next_write_frames (rn_tracker r) available_frames in
    if write_frames =? 0 then
      (if rn_started r then ret tt
       else if 0 <? rt_submitted_frames (rn_tracker r) then start_stream
       else fail ("WASAPI render buffer (" +:+ show_uint (jb_buffer_frames job)
              +:+ " frames) cannot hold one complete AEC reference frame ("
              +:+ show_uint reference_frames +:+ " frames)"));;;
      wait_for_render_poll
    else write_window write_frames.
(** [false] when the passes ran out first. *)
Fixpoint render_loop (passes : nat) : Ren bool :=
  let* t := gets rn_tracker in
  if is_complete t then ret true
  else match passes with
       | O => ret false
       | S passes => render_pass;;; render_loop passes
       end.
Fixpoint drain_endpoint (passes : nat) : Ren bool :=
  match passes with
  | O => ret false
  | S passes =>
      ensure_render_ownership;;;
      let* padding := get_current_padding in
      if padding =? 0 then ret true else wait_for_render_poll;;; drain_endpoint passes
  end.
Definition render_wasapi_frames (passes : nat) : Ren bool :=
  let* rendered := render_loop passes in
  if negb rendered then ret false
  else
    let* started := gets rn_started in
    when (negb started) start_stream;;;
    let* drained := drain_endpoint passes in
    if negb drained then ret false
    else submit_render_action device_call;;; ret true.
Definition initial_render (stream_started_authority : bool) : Render :=
  mk_render new_tracker false stream_started_authority false [] [] [] [] 0 0.
End Render.
#[global] Arguments DeferredRenderFrame : clear implicits.
#[global] Arguments SpeakerRenderEvent : clear implicits.
#[global] Arguments Render : clear implicits.
#[global] Arguments Job : clear implicits.
