(* ===== verification/RenderSubmitFacts.v ===== *)
(** * Facts about rendering

    The submit tracker against its arithmetic, and what every step of the render
    loop keeps: a Hoare logic over the loop's monad whose error states are those
    some call of the outside world refused. *)
From S2P Require Import Prelude RustStr PlaybackOwnership RenderSubmit.

(** ** The tracker *)
(** Every write after the prefix ended at a reference boundary. *)
Record tracker_ok (t : RenderSubmitTracker) : Prop := {
  to_total : 0 ≤ rt_total_frames t ≤ u64_max;
  to_prefix : 0 ≤ rt_physical_prefix_frames t ≤ rt_total_frames t;
  to_reference : 0 ≤ rt_total_reference_frames t ≤ rt_total_frames t - rt_physical_prefix_frames t;
  to_window : 1 ≤ rt_reference_frames t;
  to_submitted : 0 ≤ rt_submitted_frames t ≤ rt_total_frames t;
  to_start : rt_reference_start_frame t
    = Z.max 0 (Z.min (rt_submitted_frames t - rt_physical_prefix_frames t) (rt_total_reference_frames t))
}.
Lemma next_write_bounds t available : tracker_ok t → 0 ≤ available →
  0 ≤ next_write_frames t available ≤ available
  ∧ rt_submitted_frames t + next_write_frames t available ≤ rt_total_frames t.
Proof.
  intros [H1 H2 H3 H4 H5 H6] Ha. unfold next_write_frames, saturating_sub, saturating_add.
  destruct (_ <? _) eqn:E1; bool_hyps; [lia|]. destruct (_ <=? rt_reference_start_frame t) eqn:E2;
    bool_hyps; [lia|]. destruct (_ <=? available) eqn:E3; bool_hyps; lia.
Qed.
(** With room for a whole reference window the tracker always moves on. *)
Lemma next_write_progress t available : tracker_ok t →
  rt_reference_frames t ≤ available → rt_submitted_frames t < rt_total_frames t →
  0 < next_write_frames t available.
Proof.
  intros [H1 H2 H3 H4 H5 H6] Ha Hr. unfold next_write_frames, saturating_sub, saturating_add.
  destruct (_ <? _) eqn:E1; bool_hyps; [lia|]. destruct (_ <=? rt_reference_start_frame t) eqn:E2;
    bool_hyps; [lia|]. destruct (_ <=? available) eqn:E3; bool_hyps; lia.
Qed.
(** A write stays in the prefix, follows the last window, or is a whole window. *)
Lemma next_write_cases t available : tracker_ok t → 0 ≤ available →
  let w := next_write_frames t available in
  rt_submitted_frames t < rt_physical_prefix_frames t
    ∧ rt_submitted_frames t + w ≤ rt_physical_prefix_frames t
  ∨ rt_physical_prefix_frames t ≤ rt_submitted_frames t
    ∧ (rt_total_reference_frames t ≤ rt_reference_start_frame t ∨ w = 0
       ∨ w = Z.min (rt_reference_start_frame t + rt_reference_frames t) (rt_total_reference_frames t)
             - rt_reference_start_frame t).
Proof.
  intros [H1 H2 H3 H4 H5 H6] Ha. cbv zeta. unfold next_write_frames, saturating_sub, saturating_add.
  destruct (_ <? _) eqn:E1; bool_hyps; [lia|]. destruct (_ <=? rt_reference_start_frame t) eqn:E2;
    bool_hyps; [lia|]. destruct (_ <=? available) eqn:E3; bool_hyps; lia.
Qed.
Definition advance (w : Z) (t : RenderSubmitTracker) : RenderSubmitTracker :=
  t <| rt_submitted_frames ::= λ n, n + w |>
    <| rt_reference_start_frame := Z.max 0 (Z.min (rt_submitted_frames t + w - rt_physical_prefix_frames t)
                                      (rt_total_reference_frames t)) |>.
Lemma advance_ok w t : tracker_ok t → 0 ≤ w → rt_submitted_frames t + w ≤ rt_total_frames t →
  tracker_ok (advance w t).
Proof. intros [H1 H2 H3 H4 H5 H6] Hw Ht. split; simpl; lia. Qed.
(** Recording the write the tracker asked for: it advances, and hands out the
    window between the two reference positions when it is not empty. *)
Lemma record_next_write t available padding :
  let w := next_write_frames t available in
  tracker_ok t → 0 ≤ available → 0 < w → padding ≤ rt_submitted_frames t + w →
  ∃ window, record_write w padding t = (Ok window, advance w t)
  ∧ match window with
    | None => rt_reference_start_frame (advance w t) = rt_reference_start_frame t
    | Some win => rw_start_frame win = rt_reference_start_frame t
        ∧ rw_end_frame win = rt_reference_start_frame (advance w t)
        ∧ rw_start_frame win < rw_end_frame win
    end.
Proof.
  cbv zeta. intros Hok Ha. destruct (next_write_bounds t available Hok Ha) as [Hb Ht].
  pose proof (next_write_cases t available Hok Ha) as Hcases. cbv zeta in Hcases. revert Hb Ht Hcases.
  generalize (next_write_frames t available). intros w Hb Ht Hcases Hw Hp.
  destruct Hok as [H1 H2 H3 H4 H5 H6].
  unfold record_write, bind, gets, modify, ret. cbn [id].
  rewrite (proj2 (Z.eqb_neq w 0)) by lia. cbn [orb].
  unfold saturating_add at 1. rewrite (proj2 (Z.ltb_ge _ _)) by lia. simpl.
  rewrite (proj2 (Z.ltb_ge _ padding)) by lia.
  destruct (rt_submitted_frames t + w <=? rt_physical_prefix_frames t) eqn:E1; bool_hyps.
  - exists None. split; [|simpl; lia]. unfold advance, set_with. destruct t. simpl in *.
    do 2 f_equal. lia.
  - unfold saturating_sub.
    assert (Z.min (Z.max (rt_submitted_frames t + w - rt_physical_prefix_frames t) 0)
              (rt_total_reference_frames t)
            = Z.min (rt_reference_start_frame t + rt_reference_frames t) (rt_total_reference_frames t))
      as E by lia.
    rewrite E, Z.eqb_refl. cbn [negb]. rewrite <-E.
    eexists. split.
    { apply (f_equal2 pair eq_refl). unfold advance, set_with. destruct t. simpl in *. f_equal. lia. }
    destruct (_ <? _) eqn:E4; bool_hyps; simpl; lia.
Qed.
Lemma record_write_err t available padding :
  let w := next_write_frames t available in
  tracker_ok t → 0 ≤ available → 0 < w → ∀ window,
  (record_write w padding t).1 = Ok window → padding ≤ rt_submitted_frames t + w.
Proof.
  cbv zeta. intros Hok Ha Hw window. destruct (next_write_bounds t available Hok Ha) as [Hb Ht].
  unfold record_write, bind, gets, modify, ret. cbn [id].
  destruct (_ || _); [done|]. simpl. destruct (_ <? padding) eqn:E; [done|]. bool_hyps. lia.
Qed.
Lemma new_tracker_ok total reference window prefix base :
  0 ≤ total ≤ u64_max → 0 ≤ reference → 0 ≤ prefix →
  tracker_ok (new_with_reference_at_and_prefix total reference window prefix base).
Proof.
  intros Ht Hr Hp. unfold new_with_reference_at_and_prefix, saturating_sub. split; simpl; lia.
Qed.

(** ** The loop's assertions *)
Section Hoare.
Context {sample : Type} (env : Env) (job : Job sample).
(** Whether the stream had started before this call. *)
Context (started_before : bool).
(** Within so many readings a running endpoint is seen empty. *)
Context (poll_bound : nat).
Abbreviation physical := (jb_physical_samples job).
Abbreviation reference := (jb_reference_samples job).
Implicit Types r : Render sample.

Definition frames_of (l : list (SpeakerRenderEvent sample)) : list (DeferredRenderFrame sample) :=
  omap (λ e, match e with Frame f => Some f | _ => None end) l.
Definition pcm (l : list (DeferredRenderFrame sample)) : list sample := concat (fr_samples <$> l).
Definition stream_start (e : SpeakerRenderEvent sample) : bool :=
  match e with StreamStarted _ _ _ _ _ => true | _ => false end.
(** No frame before the stream has started. *)
Definition ordered (l : list (SpeakerRenderEvent sample)) : Prop :=
  ∀ pre f post, l = pre ++ Frame f :: post → started_before = true ∨ existsb stream_start pre = true.
(** What holds at every moment, errors included. *)
Record weak r : Prop := {
  wk_written : rn_written r `prefix_of` physical;
  wk_frames : pcm (frames_of (rn_events r)) `prefix_of` reference;
  wk_ordered : ordered (rn_events r)
}.
(** The outside world grants everything, and a running endpoint drains. *)
Record laws : Prop := {
  lw_owner k : validate (jb_permit job) (ev_ownership env k) = Ok tt;
  lw_device k : ev_device env k = Ok tt;
  lw_callback k : ev_callback env k = Ok tt;
  lw_padding k started n : 0 ≤ n →
    ∃ p, ev_padding env k started n = Ok p ∧ 0 ≤ p ≤ Z.min n (jb_buffer_frames job);
  lw_drains k : ∃ i, (i < poll_bound)%nat ∧ ∀ n, 0 ≤ n → ev_padding env (k + i) true n = Ok 0;
  lw_buffer : reference_frames ≤ jb_buffer_frames job
}.
(** An error is some call's refusal. *)
Definition refused_by_world r : Prop := weak r ∧ ¬ laws.
(** The reference frames that are published: what follows the prefix, at most. *)
Definition reference_total : Z := rt_total_reference_frames (new_tracker job).
Lemma reference_total_le : reference_total ≤ frame_count reference.
Proof. unfold reference_total, new_tracker, new_with_reference_at_and_prefix. simpl. lia. Qed.
(** [ahead] frames are written and not yet recorded. *)
Record base (ahead : Z) (deferred : list (DeferredRenderFrame sample)) r : Prop := {
  ba_tracker : tracker_ok (rn_tracker r);
  ba_total : rt_total_frames (rn_tracker r) = frame_count physical;
  ba_reference : rt_total_reference_frames (rn_tracker r) = reference_total;
  ba_window : rt_reference_frames (rn_tracker r) = reference_frames;
  ba_ahead : 0 ≤ ahead ∧ rt_submitted_frames (rn_tracker r) + ahead ≤ rt_total_frames (rn_tracker r);
  ba_written : rn_written r = take (Z.to_nat ((rt_submitted_frames (rn_tracker r) + ahead) * 2)) physical;
  ba_frames : pcm (frames_of (rn_events r)) ++ pcm deferred
    = take (Z.to_nat (rt_reference_start_frame (rn_tracker r) * 2)) reference;
  ba_ordered : ordered (rn_events r);
  ba_authority : rn_stream_started_authority r = true →
    started_before = true ∨ existsb stream_start (rn_events r) = true
}.
(** Between two statements: the tracker, whether the stream runs, the padding
    readings made and the authority are known. *)
Record at_ (ahead : Z) (t : RenderSubmitTracker) (st : bool) (n : nat) r : Prop := {
  at_base : base ahead (rn_deferred_frames r) r;
  at_settled : rn_stream_started_authority r = true → rn_deferred_frames r = [];
  at_running : rn_started r = true → rn_stream_started_authority r = true;
  at_tracker : rn_tracker r = t;
  at_started : rn_started r = st;
  at_reads : rn_padding_reads r = n
}.
(** Equal up to the call counter and the recorded cancellation failures. *)
Definition same r r' : Prop :=
  rn_tracker r' = rn_tracker r ∧ rn_started r' = rn_started r
  ∧ rn_stream_started_authority r' = rn_stream_started_authority r
  ∧ rn_deferred_frames r' = rn_deferred_frames r ∧ rn_events r' = rn_events r
  ∧ rn_written r' = rn_written r ∧ rn_padding_reads r' = rn_padding_reads r.
Definition stable (P : Render sample → Prop) : Prop := ∀ r r', same r r' → P r → P r'.
Lemma weak_stable : stable weak.
Proof. intros r r' (_&_&_&_&E1&E2&_) [H1 H2 H3]. split; by rewrite ?E1, ?E2. Qed.
Lemma base_same ahead d r r' : same r r' → base ahead d r → base ahead d r'.
Proof.
  intros (E1&_&E2&_&E3&E4&_) [H1 H2 H3 H4 H5 H6 H7 H8 H9]. by split; rewrite ?E1, ?E2, ?E3, ?E4.
Qed.
Lemma at_stable ahead t st n : stable (at_ ahead t st n).
Proof.
  intros r r' Hs [H1 H2 H3 H4 H5 H6]. pose proof Hs as (E1&E2&E3&E4&E5&E6&E7).
  split; rewrite ?E1, ?E2, ?E3, ?E4, ?E7; try done. by eapply base_same.
Qed.
Lemma refused_stable : stable refused_by_world.
Proof. intros r r' Hs [H1 H2]. split; [by eapply weak_stable|done]. Qed.
Lemma base_weak ahead d r : base ahead d r → weak r.
Proof.
  intros [H1 H2 H3 H4 H5 H6 H7 H8 H9]. split; [rewrite H6; apply prefix_take| |done].
  etransitivity; [|apply prefix_take]. rewrite <-H7. by apply prefix_app_r.
Qed.

(** ** Rules for the calls *)
Abbreviation E := refused_by_world.
Lemma ask_rule {A} P (answer : nat → A) : stable P →
  triple P (ask answer) (λ a r, P r ∧ ∃ k, a = answer k) E.
Proof.
  intros HP r Hr. simpl. split; [|by eexists]. eapply HP; [|exact Hr]. by repeat split.
Qed.
Lemma permit_rule P : stable P → (∀ r, P r → weak r) →
  triple P (with_permit env job ensure_active) (λ _, P) E.
Proof.
  intros HP Hw. unfold with_permit. eapply triple_bind; [by apply ask_rule|].
  intros s r [Hr (k & ->)]. unfold ensure_active, lift, bind, gets. simpl.
  destruct (validate _ _) as [[]|e] eqn:Hv; [done|]. split; [by apply Hw|].
  intros HL. by rewrite (lw_owner HL) in Hv.
Qed.
Lemma device_rule P : stable P → (∀ r, P r → weak r) → triple P (device_call env) (λ _, P) E.
Proof.
  intros HP Hw. unfold device_call. eapply triple_bind; [by apply ask_rule|].
  intros s r [Hr (k & ->)]. unfold lift. destruct (ev_device env k) as [[]|e] eqn:Hv; [done|].
  split; [by apply Hw|]. intros HL. by rewrite (lw_device HL) in Hv.
Qed.
Lemma attempt_rule {A} P (m : M (Render sample) A) Q :
  triple P m Q E → triple P (attempt m) (λ o r, match o with Ok a => Q a r | Err _ => E r end) E.
Proof.
  intros Hm r Hr. specialize (Hm r Hr). unfold attempt. by destruct (m r) as [[a|e] r'].
Qed.
Lemma cancel_rule {A} started cancellation Q :
  triple E (cancel_wasapi_render (A:=A) env started cancellation) Q E.
Proof.
  unfold cancel_wasapi_render.
  assert (∀ r, E r → weak r) as Hw by by intros r [].
  eapply (triple_bind E E _ _ (λ _, E)).
  { destruct started; [|by apply triple_ret]. eapply triple_weaken;
      [apply attempt_rule, (device_rule E refused_stable Hw)|done|]. by intros o r; destruct o. }
  intros stop. eapply (triple_bind E E _ _ (λ _, E)).
  { eapply triple_weaken; [apply attempt_rule, (device_rule E refused_stable Hw)|done|].
    by intros o r; destruct o. }
  intros reset. destruct (error_of stop), (error_of reset); [..|by apply triple_fail];
    (eapply (triple_bind E E _ _ (λ _, E)); [|intros; by apply triple_fail]);
    apply triple_modify; intros r Hr; (eapply refused_stable; [|exact Hr]); by repeat split.
Qed.
Lemma or_cancel_rule P m Q : triple P m (λ _, Q) E → triple P (or_cancel env m) (λ _, Q) E.
Proof.
  intros Hm. unfold or_cancel. eapply triple_bind; [by apply (triple_gets E P _ (λ _, P))|].
  intros started. eapply triple_bind; [by apply attempt_rule|].
  intros [[]|[error|message]]; [by apply triple_ret|apply cancel_rule|].
  intros r Hr. exact Hr.
Qed.
Lemma submit_rule P m Q : stable P → (∀ r, P r → weak r) →
  triple P m (λ _, Q) E → triple P (submit_render_action env job m) (λ _, Q) E.
Proof.
  intros HP Hw Hm. unfold submit_render_action.
  eapply triple_bind; [by apply (triple_gets E P _ (λ _, P))|]. intros started.
  eapply triple_bind.
  { apply attempt_rule. eapply triple_bind; [by apply (permit_rule P)|]. intros x. exact Hm. }
  intros [[]|[error|message]]; [by apply triple_ret| |intros r Hr; exact Hr].
  destruct (desktop_playback_was_cancelled error); [apply cancel_rule|by apply triple_fail].
Qed.
Lemma wait_rule P : stable P → (∀ r, P r → weak r) →
  triple P (wait_for_render_poll env job) (λ _, P) E.
Proof.
  intros HP Hw. apply or_cancel_rule. eapply triple_bind; [by apply (permit_rule P)|].
  intros x. by apply permit_rule.
Qed.
Lemma ownership_rule P : stable P → (∀ r, P r → weak r) →
  triple P (ensure_render_ownership env job) (λ _, P) E.
Proof. intros HP Hw. by apply or_cancel_rule, permit_rule. Qed.

(** ** Rules for the loop's parts *)
Lemma frame_count_take n : 0 ≤ n ≤ frame_count physical →
  frame_count (take (Z.to_nat (n * 2)) physical) = n.
Proof.
  unfold frame_count, SPEAKER_CHANNEL_COUNT. intros Hn. rewrite length_take, Nat2Z.inj_min, Z2Nat.id by lia.
  pose proof (Z.div_mod (Z.of_nat (length physical)) 2). pose proof (Z.mod_pos_bound (Z.of_nat (length physical)) 2).
  rewrite Z.min_l by lia. apply Z.div_mul. lia.
Qed.
Lemma at_weak ahead t st n r : at_ ahead t st n r → weak r.
Proof. intros H. eapply base_weak, H. Qed.
Lemma padding_rule ahead t st n :
  triple (at_ ahead t st n) (get_current_padding env)
    (λ p r, at_ ahead t st (S n) r ∧ ev_padding env n st (rt_submitted_frames t + ahead) = Ok p) E.
Proof.
  intros r Hr. unfold get_current_padding, bind, gets, modify, lift.
  destruct Hr as [H1 H2 H3 H4 H5 H6].
  assert (frame_count (rn_written r) = rt_submitted_frames t + ahead) as Hw.
  { rewrite (ba_written _ _ _ H1), H4. apply frame_count_take.
    destruct (ba_tracker _ _ _ H1), (ba_ahead _ _ _ H1). rewrite <-(ba_total _ _ _ H1), <-H4. lia. }
  rewrite Hw, H5, H6.
  assert (base ahead (rn_deferred_frames r) (r <| rn_padding_reads ::= S |>)) as Hb
    by by destruct H1.
  destruct (ev_padding env n st _) as [p|e] eqn:Hp.
  - split; [|done]. split; simpl; try done. by rewrite H6.
  - split; [by eapply base_weak|]. intros HL.
    destruct (lw_padding HL n st (rt_submitted_frames t + ahead)) as (p & Hp' & _); [|congruence].
    destruct (ba_tracker _ _ _ H1), (ba_ahead _ _ _ H1). rewrite <-H4. lia.
Qed.
Lemma event_rule P Q e : (∀ r, P r → Q (r <| rn_events ::= λ l, l ++ [e] |>)) → stable Q →
  (∀ r, Q r → weak r) → triple P (on_render_event env e) (λ _, Q) E.
Proof.
  intros HPQ HQ Hw. unfold on_render_event. eapply triple_bind.
  { by apply (triple_modify E P _ (λ _, Q)). }
  intros x. eapply triple_bind; [by apply ask_rule|]. intros s r [Hr (k & ->)]. unfold lift.
  destruct (ev_callback env k) as [[]|err] eqn:Hc; [done|]. split; [by apply Hw|].
  intros HL. by rewrite (lw_callback HL) in Hc.
Qed.
Lemma ordered_snoc l e : ordered l →
  (∀ f, e = Frame f → started_before = true ∨ existsb stream_start l = true) → ordered (l ++ [e]).
Proof.
  intros H He pre f post Hl. destruct post as [|x post _] using rev_ind.
  - apply app_inj_tail in Hl as [<- He']. by eapply He.
  - rewrite app_comm_cons, app_assoc in Hl. apply app_inj_tail in Hl as [Hl _]. by eapply H.
Qed.
Lemma frames_of_snoc l e : frames_of (l ++ [e])
  = frames_of l ++ match e with Frame f => [f] | _ => [] end.
Proof. unfold frames_of. rewrite omap_app. simpl. by destruct e. Qed.
Lemma pcm_app l l' : pcm (l ++ l') = pcm l ++ pcm l'.
Proof. unfold pcm. by rewrite fmap_app, concat_app. Qed.
Lemma base_event ahead d r e :
  (∀ f, e ≠ Frame f) → base ahead d r → base ahead d (r <| rn_events ::= λ l, l ++ [e] |>).
Proof.
  intros He [H1 H2 H3 H4 H5 H6 H7 H8 H9]. split; try done; simpl.
  - rewrite frames_of_snoc. destruct e; [by rewrite app_nil_r..|by destruct (He frame)].
  - apply ordered_snoc; [done|]. intros f ->. by destruct (He f).
  - rewrite existsb_app. intros HA; destruct (H9 HA) as [HB|HB]; [by left|right; by rewrite HB].
Qed.
Lemma base_frame ahead d r f : rn_stream_started_authority r = true →
  base ahead (f :: d) r → base ahead d (r <| rn_events ::= λ l, l ++ [Frame f] |>).
Proof.
  intros Ha [H1 H2 H3 H4 H5 H6 H7 H8 H9]. split; try done; simpl.
  - rewrite frames_of_snoc, pcm_app, <-H7, <-app_assoc. f_equal. unfold pcm. simpl. by rewrite app_nil_r.
  - apply ordered_snoc; [done|]. intros _ _. auto.
  - rewrite existsb_app. intros HA; destruct (H9 HA) as [HB|HB]; [by left|right; by rewrite HB].
Qed.

(** While the stream is being announced: frames may still be deferred. *)
Record pending (t : RenderSubmitTracker) (st : bool) (n : nat) r : Prop := {
  pe_base : base 0 (rn_deferred_frames r) r;
  pe_tracker : rn_tracker r = t;
  pe_started : rn_started r = st;
  pe_reads : rn_padding_reads r = n
}.
Lemma pending_stable t st n : stable (pending t st n).
Proof.
  intros r r' Hs [H1 H2 H3 H4]. pose proof Hs as (E1&E2&E3&E4&E5&E6&E7).
  split; rewrite ?E1, ?E2, ?E4, ?E7; try done. by eapply base_same.
Qed.
Definition announced (t : RenderSubmitTracker) (st : bool) (n : nat) r : Prop :=
  pending t st n r ∧ rn_stream_started_authority r = true.
Lemma announced_stable t st n : stable (announced t st n).
Proof.
  intros r r' Hs [H1 H2]. split; [by eapply pending_stable|]. by destruct Hs as (_&_&->&_).
Qed.
Lemma flush_rule t st n frames :
  triple (λ r, announced t st n r ∧ rn_deferred_frames r = frames) (flush_frames env frames)
    (λ _, at_ 0 t st n) E.
Proof.
  induction frames as [|f frames IH]; simpl.
  - apply triple_ret. intros r [[[H1 H2 H3 H4] Ha] Hd]. by split.
  - eapply (triple_bind E _ _ _ (λ _ r, base 0 (f :: frames) r ∧ rn_tracker r = t ∧ rn_started r = st
      ∧ rn_padding_reads r = n ∧ rn_stream_started_authority r = true ∧ rn_deferred_frames r = frames)).
    { apply triple_modify. intros r [[[H1 H2 H3 H4] Ha] Hd]. split_and!; try done. rewrite <-Hd. by destruct H1. }
    intros x. eapply triple_bind.
    { apply attempt_rule. apply (event_rule _ (λ r, announced t st n r ∧ rn_deferred_frames r = frames)).
      - intros r (H1 & H2 & H3 & H4 & H5 & H6). split; [|done]. split; [|done].
        rewrite <-H6 in H1. split; try done. exact (base_frame 0 _ r f H5 H1).
      - intros r r' Hs [H1 H2]. split; [by eapply announced_stable|]. by destruct Hs as (_&_&_&->&_).
      - intros r [[H1 _] _]. by eapply base_weak, H1. }
    intros [[]|e]; [exact IH|]. intros r Hr. simpl. destruct Hr as [[H1 H2 H3] HL]. by split.
Qed.
Lemma announce_rule t st n :
  triple (pending t st n) (publish_render_stream_started_and_flush env job) (λ _, at_ 0 t st n) E.
Proof.
  unfold publish_render_stream_started_and_flush. eapply (triple_bind E _ _ _ (λ _, announced t st n)).
  - unfold publish_render_stream_started.
    eapply (triple_bind E _ _ _ (λ a r, pending t st n r ∧ rn_stream_started_authority r = a));
      [by apply triple_gets|]. intros [|]; [by apply triple_ret|].
    eapply (triple_bind E _ _ _ (λ _, pending t st n)).
    { eapply triple_weaken; [apply (ask_rule _ _ (pending_stable t st n))|by intros r []|by intros a r []]. }
    intros now. eapply (triple_bind E _ _ _ (λ _ r, pending t st n r ∧ existsb stream_start (rn_events r) = true)).
    + apply (event_rule _ (λ r, pending t st n r ∧ existsb stream_start (rn_events r) = true)).
      * intros r [H1 H2 H3 H4]. split; [|simpl; by rewrite existsb_app, orb_true_r].
        split; try done. by apply base_event.
      * intros r r' Hs [H1 H2]. split; [by eapply pending_stable|]. by destruct Hs as (_&_&_&_&->&_).
      * intros r [[H1 _ _ _] _]. by eapply base_weak.
    + intros x. apply triple_modify. intros r [[[G1 G2 G3 G4 G5 G6 G7 G8 G9] H2 H3 H4] Hs].
      split; [|done]. split; try done. split; try done. intros _. by right.
  - intros x. unfold flush. eapply (triple_bind E _ _ _ (λ fs r, announced t st n r ∧ rn_deferred_frames r = fs));
      [by apply triple_gets|]. intros fs. apply flush_rule.
Qed.
Lemma start_rule t st n :
  triple (at_ 0 t st n) (start_stream env job) (λ _, at_ 0 t true n) E.
Proof.
  unfold start_stream. eapply (triple_bind E _ _ _ (λ _, at_ 0 t st n)).
  { apply submit_rule; [apply at_stable|apply at_weak|].
    apply device_rule; [apply at_stable|apply at_weak]. }
  intros x. eapply (triple_bind E _ _ _ (λ _, pending t true n)); [|intros y; apply announce_rule].
  apply triple_modify. intros r [H1 H2 H3 H4 H5 H6]. split; try done. by destruct H1.
Qed.
Lemma underrun_rule t st n p :
  triple (at_ 0 t st n) (report_underrun env p) (λ _, at_ 0 t st n) E.
Proof.
  unfold report_underrun. eapply (triple_bind E _ _ _ (λ _, at_ 0 t st n)); [by apply triple_gets|].
  intros r0. destruct (observe _ _ _ _) as [fault reported].
  eapply (triple_bind E _ _ _ (λ _, at_ 0 t st n)).
  { apply triple_modify. intros r [H1 H2 H3 H4 H5 H6]. split; try done. by destruct H1. }
  intros x. destruct fault; [|by apply triple_ret]. simpl.
  eapply (triple_bind E _ _ _ (λ _, at_ 0 t st n)).
  { eapply triple_weaken; [apply (ask_rule _ _ (at_stable 0 t st n))|done|by intros a r []]. }
  intros now. apply event_rule; [|apply at_stable|apply at_weak].
  intros r [H1 H2 H3 H4 H5 H6]. split; try done. by apply base_event.
Qed.

(** ** Writing one window *)
Lemma slice_rule P (l : list sample) from to : 0 ≤ from ≤ to → to ≤ Z.of_nat (length l) →
  triple P (slice l from to)
    (λ x r, P r ∧ x = take (Z.to_nat (to - from)) (drop (Z.to_nat from) l)) E.
Proof.
  intros [H1 H2] H3 r Hr. unfold slice.
  rewrite (proj2 (Z.leb_le 0 from)), (proj2 (Z.leb_le from to)), (proj2 (Z.leb_le to _)) by lia. by split.
Qed.
Lemma take_slice (l : list sample) a b : 0 ≤ a ≤ b →
  take (Z.to_nat a) l ++ take (Z.to_nat (b - a)) (drop (Z.to_nat a) l) = take (Z.to_nat b) l.
Proof. intros H. rewrite take_take_drop. f_equal. lia. Qed.
Lemma count_length (l : list sample) n : n ≤ frame_count l → n * 2 ≤ Z.of_nat (length l).
Proof.
  unfold frame_count, SPEAKER_CHANNEL_COUNT. intros H.
  pose proof (Z.mul_div_le (Z.of_nat (length l)) 2). lia.
Qed.
Lemma write_rule w t st n (bytes : list sample) : 0 ≤ w → rt_submitted_frames t + w ≤ rt_total_frames t →
  bytes = take (Z.to_nat ((rt_submitted_frames t + w) * 2 - rt_submitted_frames t * 2))
            (drop (Z.to_nat (rt_submitted_frames t * 2)) physical) →
  triple (at_ 0 t st n) (submit_render_action env job (write_to_device env bytes))
    (λ _, at_ w t st n) E.
Proof.
  intros Hw Ht Hb. apply submit_rule; [apply at_stable|apply at_weak|].
  unfold write_to_device. eapply (triple_bind E _ _ _ (λ _, at_ 0 t st n)).
  { apply device_rule; [apply at_stable|apply at_weak]. }
  intros x. apply triple_modify. intros r [[G1 G2 G3 G4 G5 G6 G7 G8 G9] H2 H3 H4 H5 H6].
  split; try done. split; try done; simpl.
  - rewrite H4. lia.
  - destruct G1. rewrite H4 in *. rewrite G6, Hb, Z.add_0_r. apply take_slice. lia.
Qed.
(** The frame between two reference positions, about to be published. *)
Definition unpublished (t t' : RenderSubmitTracker) (st : bool) (n : nat) r : Prop :=
  (∀ f, fr_samples f = take (Z.to_nat (rt_reference_start_frame t' * 2 - rt_reference_start_frame t * 2))
                         (drop (Z.to_nat (rt_reference_start_frame t * 2)) reference) →
     base 0 (rn_deferred_frames r ++ [f]) r)
  ∧ (rn_stream_started_authority r = true → rn_deferred_frames r = [])
  ∧ (rn_started r = true → rn_stream_started_authority r = true)
  ∧ rn_tracker r = t' ∧ rn_started r = st ∧ rn_padding_reads r = n.
Lemma record_rule t st n available p :
  let w := next_write_frames t available in
  0 ≤ available → 0 < w →
  triple (λ r, at_ w t st (S n) r ∧ ev_padding env n st (rt_submitted_frames t + w) = Ok p)
    (on_tracker (record_write w p))
    (λ window r, match window with
       | None => at_ 0 (advance w t) st (S n) r
       | Some win => unpublished t (advance w t) st (S n) r
           ∧ rw_start_frame win = rt_reference_start_frame t
           ∧ rw_end_frame win = rt_reference_start_frame (advance w t)
           ∧ rw_start_frame win < rw_end_frame win
       end) E.
Proof.
  cbv zeta. set (w := next_write_frames t available). intros Ha Hw r [Hr Hp].
  pose proof (at_weak _ _ _ _ _ Hr) as Hweak.
  destruct Hr as [[G1 G2 G3 G4 G5 G6 G7 G8 G9] H2 H3 H4 H5 H6].
  unfold on_tracker. rewrite H4 in *. destruct (decide (p ≤ rt_submitted_frames t + w)) as [Hle|Hgt].
  - pose proof (record_next_write t available p G1 Ha Hw Hle) as Hrec. fold w in Hrec.
    destruct Hrec as (window & Hrw & Hwin). rewrite Hrw.
    assert (tracker_ok (advance w t)) as Hok by (apply advance_ok; [done|lia|apply G5]).
    assert (∀ d, pcm (frames_of (rn_events r)) ++ pcm d
        = take (Z.to_nat (rt_reference_start_frame (advance w t) * 2)) reference →
      base 0 d (r <| rn_tracker := advance w t |>)) as Hbase.
    { intros d Hd. split; try done; simpl; [lia|]. rewrite G6. f_equal. lia. }
    destruct window as [win|].
    + split; [|exact Hwin]. split_and!; try done. intros f Hf. apply Hbase. simpl.
      rewrite pcm_app, app_assoc, G7. unfold pcm. simpl. rewrite app_nil_r, Hf. apply take_slice.
      destruct G1, Hok. destruct Hwin as (? & ? & ?). lia.
    + split; try done. apply Hbase. rewrite Hwin. exact G7.
  - pose proof (record_write_err t available p G1 Ha Hw) as Herr. fold w in Herr.
    destruct (record_write w p t) as [o t']. destruct o as [window|e].
    { exfalso. by apply Hgt, (Herr window). }
    split; [by destruct Hweak|]. intros HL.
    destruct (lw_padding HL n st (rt_submitted_frames t + w)) as (p' & Hp' & Hb); [destruct G1; lia|].
    rewrite Hp in Hp'. injection Hp' as <-. lia.
Qed.
Lemma publish_rule t t' st n f :
  fr_samples f = take (Z.to_nat (rt_reference_start_frame t' * 2 - rt_reference_start_frame t * 2))
                   (drop (Z.to_nat (rt_reference_start_frame t * 2)) reference) →
  triple (unpublished t t' st n) (publish_or_defer env f) (λ _, at_ 0 t' st n) E.
Proof.
  intros Hf. unfold publish_or_defer.
  eapply (triple_bind E _ _ _ (λ a r, unpublished t t' st n r ∧ rn_stream_started_authority r = a));
    [by apply triple_gets|]. intros [|].
  - apply event_rule; [|apply at_stable|apply at_weak].
    intros r [(H1 & H2 & H3 & H4 & H5 & H6) Ha]. split; try done.
    specialize (H1 f Hf). rewrite (H2 Ha) in H1.
    pose proof (base_frame 0 [] r f Ha H1) as Hb. by rewrite <-(H2 Ha) in Hb at 1.
  - apply triple_modify. intros r [(H1 & H2 & H3 & H4 & H5 & H6) Ha].
    split; try done; simpl; [|congruence]. by destruct (H1 f Hf).
Qed.
Lemma write_window_rule t st n available :
  let w := next_write_frames t available in
  0 ≤ available → 0 < w →
  triple (at_ 0 t st n) (write_window env job w)
    (λ _ r, ∃ st', at_ 0 (advance w t) st' (S n) r ∧ (st = true → st' = true)) E.
Proof.
  cbv zeta. set (w := next_write_frames t available). intros Ha Hw. unfold write_window.
  eapply (triple_bind E _ _ _ (λ t0 r, at_ 0 t st n r ∧ t0 = t)).
  { apply triple_gets. intros r Hr. split; [done|apply Hr]. }
  intros t0. apply (triple_pure E). intros r0 Hr0 ->.
  destruct Hr0 as [[G1 G2 G3 G4 G5 G6 G7 G8 G9] H2 H3 H4 H5 H6]. rewrite H4 in *.
  destruct (next_write_bounds t available G1 Ha) as [_ Hle]. fold w in Hle.
  unfold SPEAKER_CHANNEL_COUNT.
  eapply triple_bind.
  { apply slice_rule; [destruct G1; lia|]. apply count_length. lia. }
  intros bytes. apply (triple_pure E). intros _ _ Hbytes.
  eapply triple_bind; [apply (write_rule w t st n); [lia|exact Hle|exact Hbytes]|]. intros u1.
  eapply (triple_bind E _ _ _ (λ _, at_ w t st n)).
  { eapply triple_weaken; [apply (ask_rule _ _ (at_stable w t st n))|done|by intros a r []]. }
  intros observed_at. eapply (triple_bind E _ _ _ (λ _, at_ w t st n)).
  { eapply triple_weaken; [apply (ask_rule _ _ (at_stable w t st n))|done|by intros a r []]. }
  intros qpc. eapply triple_bind; [apply padding_rule|]. intros p.
  eapply triple_bind; [by apply (record_rule t st n available p)|]. intros window. fold w.
  eapply (triple_bind E _ _ _ (λ _, at_ 0 (advance w t) st (S n))).
  { destruct window as [win|]; [|by apply triple_ret].
    apply (triple_pure E). intros r1 Hr1 (-> & -> & Hlt).
    assert (tracker_ok (advance w t)) as Hok by (apply advance_ok; [done|lia|done]).
    eapply triple_bind.
    { apply slice_rule; [destruct G1; lia|]. apply count_length. pose proof reference_total_le.
      destruct Hok. simpl in *. lia. }
    intros samples. apply (triple_pure E). intros _ _ Hsamples. by apply publish_rule. }
  intros u2. eapply (triple_bind E _ _ _ (λ _, at_ 0 (advance w t) st (S n))); [by apply triple_gets|].
  intros r1. destruct (negb _ && _); simpl.
  - eapply triple_weaken; [apply start_rule|done|]. intros u r Hr. by exists true.
  - apply triple_ret. intros r Hr. by exists st.
Qed.

(** ** One pass, and the loops *)
(** A pass writes, or starts the stream, or waits because the running endpoint
    was not yet empty. *)
Definition moved (t : RenderSubmitTracker) (st : bool) (n : nat)
    (t' : RenderSubmitTracker) (st' : bool) (n' : nat) : Prop :=
  n' = S (S n) ∧ rt_submitted_frames t < rt_submitted_frames t' ∧ (st = true → st' = true)
  ∨ n' = S n ∧ t' = t ∧ st' = true
    ∧ (laws → st = true → ev_padding env n true (rt_submitted_frames t) ≠ Ok 0).
Lemma drained_writes t available : tracker_ok t → rt_submitted_frames t < rt_total_frames t →
  rt_reference_frames t = reference_frames → available = jb_buffer_frames job → laws →
  available ≠ 0 ∧ 0 < next_write_frames t available.
Proof.
  intros Hok Hlt Hw -> HL. pose proof (lw_buffer HL) as Hb.
  assert (0 < reference_frames) by done. split; [lia|]. apply next_write_progress; [done|lia|done].
Qed.
Lemma pass_rule t st n : rt_submitted_frames t < rt_total_frames t →
  triple (at_ 0 t st n) (render_pass env job)
    (λ _ r, ∃ t' st' n', at_ 0 t' st' n' r ∧ moved t st n t' st' n') E.
Proof.
  intros Hlt. unfold render_pass.
  eapply (triple_bind E _ _ _ (λ _, at_ 0 t st n)).
  { apply ownership_rule; [apply at_stable|apply at_weak]. }
  intros u1. eapply triple_bind; [apply padding_rule|]. intros p.
  apply (triple_pure E). intros r0 Hr0 Hp. rewrite Z.add_0_r in Hp.
  assert (tracker_ok t ∧ rt_reference_frames t = reference_frames) as [Hok Hw].
  { destruct Hr0 as [[G1 _ _ G4 _ _ _ _ _] _ _ <- _ _]. by split. }
  clear r0 Hr0.
  eapply (triple_bind E _ _ _ (λ _, at_ 0 t st (S n))); [apply underrun_rule|]. intros u2.
  eapply (triple_bind E _ _ _ (λ r0 r, at_ 0 t st (S n) r ∧ (rn_tracker r0 = t ∧ rn_started r0 = st))).
  { apply triple_gets. intros r Hr. split; [done|split; apply Hr]. }
  intros r0. apply (triple_pure E). intros r1 Hr1 [-> ->]. clear r1 Hr1.
  set (available := saturating_sub _ p).
  assert (laws → p = 0 → available = jb_buffer_frames job) as Hfull.
  { intros HL ->. unfold available, saturating_sub. pose proof (lw_buffer HL).
    assert (0 < reference_frames) by done. lia. }
  assert (0 ≤ available) as Ha by (unfold available, saturating_sub; lia).
  assert (∀ m : M (Render sample) unit,
    triple (at_ 0 t st (S n)) m (λ _, at_ 0 t true (S n)) E →
    (laws → st = true → p ≠ 0) →
    triple (at_ 0 t st (S n)) (m;;; wait_for_render_poll env job)
      (λ _ r, ∃ t' st' n', at_ 0 t' st' n' r ∧ moved t st n t' st' n') E) as Hwait.
  { intros m Hm Hne. eapply triple_bind; [exact Hm|]. intros u3.
    eapply triple_weaken; [apply (wait_rule _ (at_stable 0 t true (S n))), at_weak|done|].
    intros u4 r Hr. exists t, true, (S n). split; [done|]. right. split_and!; try done.
    intros HL -> E0. rewrite Hp in E0. injection E0 as ->. by apply Hne. }
  assert (∀ m : M (Render sample) unit, triple (at_ 0 t false (S n)) m (λ _, at_ 0 t true (S n)) E →
    triple (at_ 0 t st (S n)) (if st then ret tt else m) (λ _, at_ 0 t true (S n)) E) as Hif.
  { intros m Hm. destruct st; [by apply triple_ret|done]. }
  destruct (available =? 0) eqn:Ez; bool_hyps.
  - apply Hwait.
    + destruct st; simpl; [by apply triple_ret|apply start_rule].
    + intros HL _ ->. destruct (drained_writes t available); auto.
  - destruct (next_write_frames t available =? 0) eqn:Ew; bool_hyps.
    + assert (laws → p ≠ 0) as Hne.
      { intros HL ->. destruct (drained_writes t available); auto; lia. }
      apply Hwait; [|auto]. apply Hif.
      destruct (0 <? rt_submitted_frames t) eqn:Es; bool_hyps; [apply start_rule|].
      apply triple_fail. intros r Hr. split; [by eapply at_weak|]. intros HL. apply Hne; [done|].
      destruct (lw_padding HL n st (rt_submitted_frames t)) as (p' & Hp' & Hb);
        [destruct Hok; lia|]. rewrite Hp in Hp'. injection Hp' as <-. destruct Hok. lia.
    + pose proof (next_write_bounds t available Hok Ha) as [Hb _].
      eapply triple_weaken; [apply (write_window_rule t st (S n) available Ha); lia|done|].
      intros u3 r (st' & Hr & Hs). exists (advance (next_write_frames t available) t), st', (S (S n)).
      split; [done|]. left. split_and!; [done|simpl; lia|done].
Qed.
Definition somewhere (b : bool) r : Prop :=
  ∃ t st n, at_ 0 t st n r ∧ (b = true → rt_submitted_frames t = rt_total_frames t).
Lemma loop_rule passes : ∀ t st n,
  triple (at_ 0 t st n) (render_loop env job passes) somewhere E.
Proof.
  induction passes as [|passes IH]; intros t st n; simpl;
    (eapply (triple_bind E _ _ _ (λ t0 r, at_ 0 t st n r ∧ t0 = t));
      [apply triple_gets; intros r Hr; split; [done|apply Hr]|]);
    intros t0; apply (triple_pure E); intros r0 Hr0 ->; unfold is_complete;
    destruct (_ =? _) eqn:Ec; bool_hyps.
  1,3: apply triple_ret; intros r Hr; by exists t, st, n.
  - apply triple_ret. intros r Hr. by exists t, st, n.
  - eapply triple_bind.
    { apply pass_rule. destruct Hr0 as [[[] _ _ _ _ _ _ _ _] _ _ <- _ _]. lia. }
    intros u r (t' & st' & n' & Hr & _). by apply (IH t' st' n').
Qed.
(** Readings until the running endpoint is next seen empty. *)
Definition drains_within (d n : nat) : Prop :=
  ∃ i, (i ≤ d)%nat ∧ ∀ m, 0 ≤ m → ev_padding env (n + i) true m = Ok 0.
Lemma drains_soon n : laws → drains_within poll_bound n.
Proof. intros HL. destruct (lw_drains HL n) as (i & Hi & H). exists i. split; [lia|done]. Qed.
Lemma drains_later d n m : 0 ≤ m → drains_within d n → ev_padding env n true m ≠ Ok 0 →
  ∃ d', d = S d' ∧ drains_within d' (S n).
Proof.
  intros Hm (i & Hi & H) Hn. destruct i as [|i]; [rewrite Nat.add_0_r in H; by destruct Hn; apply H|].
  exists (d - 1)%nat. split; [lia|]. exists i. split; [lia|]. intros m' Hm'.
  specialize (H m' Hm'). by replace (n + S i)%nat with (S n + i)%nat in H by lia.
Qed.
Definition needed (t : RenderSubmitTracker) (st : bool) (d : nat) : nat :=
  Z.to_nat (rt_total_frames t - rt_submitted_frames t) * (poll_bound + 2)
  + (if st then d else poll_bound + 1).
Lemma loop_completes (HL : laws) passes : ∀ t st n d, (needed t st d ≤ passes)%nat →
  (st = true → drains_within d n) →
  triple (at_ 0 t st n) (render_loop env job passes) (λ b r, b = true ∧ somewhere true r) E.
Proof.
  induction passes as [|passes IH]; intros t st n d Hn Hd; simpl;
    (eapply (triple_bind E _ _ _ (λ t0 r, at_ 0 t st n r ∧ t0 = t));
      [apply triple_gets; intros r Hr; split; [done|apply Hr]|]);
    intros t0; apply (triple_pure E); intros r0 Hr0 ->; unfold is_complete;
    (assert (tracker_ok t) as Hok by by destruct Hr0 as [[] _ _ <- _ _]);
    destruct (_ =? _) eqn:Ec; bool_hyps.
  1,3: apply triple_ret; intros r Hr; split; [done|by exists t, st, n].
  - exfalso. unfold needed in Hn. destruct Hok. nia.
  - eapply triple_bind; [apply pass_rule; destruct Hok; lia|].
    intros u r (t' & st' & n' & Hr & Hm).
    assert (rt_total_frames t' = rt_total_frames t) as Htot.
    { destruct Hr as [[_ G2 _ _ _ _ _ _ _] _ _ E2 _ _], Hr0 as [[_ F2 _ _ _ _ _ _ _] _ _ F3 _ _].
      rewrite E2 in G2. rewrite F3 in F2. congruence. }
    assert (tracker_ok t') as Hok' by by destruct Hr as [[] _ _ <- _ _].
    destruct Hm as [(-> & Hlt & Hs)|(-> & -> & -> & Hne)].
    + apply (IH t' st' (S (S n)) poll_bound); [|by intros _; apply drains_soon|done].
      unfold needed in *. rewrite Htot. destruct Hok, Hok', st, st'; nia.
    + destruct st.
      * destruct (drains_later d n (rt_submitted_frames t)) as (d' & -> & Hd'); [destruct Hok; lia|auto|auto|].
        apply (IH t true (S n) d'); [unfold needed in *; lia|done|done].
      * apply (IH t true (S n) poll_bound); [unfold needed in *; lia|by intros _; apply drains_soon|done].
Qed.
Lemma drain_rule passes : ∀ t n,
  triple (at_ 0 t true n) (drain_endpoint env job passes) (λ b r, ∃ n', at_ 0 t true n' r) E.
Proof.
  induction passes as [|passes IH]; intros t n; simpl.
  - apply triple_ret. intros r Hr. by exists n.
  - eapply (triple_bind E _ _ _ (λ _, at_ 0 t true n));
      [apply ownership_rule; [apply at_stable|apply at_weak]|]. intros u1.
    eapply triple_bind; [apply padding_rule|]. intros p. apply (triple_pure E). intros _ _ _.
    destruct (p =? 0); [apply triple_ret; intros r Hr; by exists (S n)|].
    eapply (triple_bind E _ _ _ (λ _, at_ 0 t true (S n)));
      [apply wait_rule; [apply at_stable|apply at_weak]|]. intros u2. apply IH.
Qed.
Lemma drain_completes passes : ∀ t n d, (d < passes)%nat → drains_within d n →
  triple (at_ 0 t true n) (drain_endpoint env job passes)
    (λ b r, b = true ∧ ∃ n', at_ 0 t true n' r) E.
Proof.
  induction passes as [|passes IH]; intros t n d Hd Hdr; [lia|]. simpl.
  eapply (triple_bind E _ _ _ (λ _, at_ 0 t true n));
    [apply ownership_rule; [apply at_stable|apply at_weak]|]. intros u1.
  eapply triple_bind; [apply padding_rule|]. intros p. apply (triple_pure E). intros r0 Hr0 Hp.
  destruct (p =? 0) eqn:Ep; bool_hyps; [apply triple_ret; intros r Hr; split; [done|by exists (S n)]|].
  destruct (drains_later d n (rt_submitted_frames t + 0)) as (d' & -> & Hd'); [|done|congruence|].
  { destruct Hr0 as [[[] _ _ _ _ _ _ _ _] _ _ <- _ _]. lia. }
  eapply (triple_bind E _ _ _ (λ _, at_ 0 t true (S n)));
    [apply wait_rule; [apply at_stable|apply at_weak]|]. intros u2. apply (IH _ _ d'); [lia|done].
Qed.
End Hoare.
