(* ===== verification/RenderSubmitTheorems.v ===== *)
(** * What the speaker renderer guarantees

    Whatever the endpoint, the owner of the speaker and the callback do, PCM and
    reference windows are submitted in order; when they cooperate, rendering
    completes. *)
From S2P Require Import Prelude RustStr PlaybackOwnership RenderSubmit RenderSubmitFacts.

Section Render.
Context {sample : Type} (env : Env) (job : Job sample) (started_before : bool) (poll_bound : nat).
Abbreviation E := (refused_by_world env job started_before poll_bound).
Abbreviation somewhere := (somewhere job started_before).

(** Sizes the code's [usize] arithmetic admits. *)
Definition sized : Prop :=
  frame_count (jb_physical_samples job) ≤ u64_max ∧ 0 ≤ jb_physical_prefix_offset_frames job.
Lemma frame_count_nonneg (l : list sample) : 0 ≤ frame_count l.
Proof. unfold frame_count, SPEAKER_CHANNEL_COUNT. apply Z.div_pos; lia. Qed.
Lemma initial_at : sized →
  at_ job started_before 0 (new_tracker job) false 0 (initial_render job started_before).
Proof.
  intros [Hs Hp]. split; try done. split; try done; simpl.
  - apply new_tracker_ok; [split; [apply frame_count_nonneg|done]|apply frame_count_nonneg|done].
  - pose proof (frame_count_nonneg (jb_physical_samples job)). lia.
  - intros pre f post Hl. by destruct pre.
  - by left.
Qed.
(** Everything was written and every reference window published. *)
Definition rendered (r : Render sample) : Prop :=
  rn_written r = take (Z.to_nat (frame_count (jb_physical_samples job) * 2)) (jb_physical_samples job)
  ∧ pcm (frames_of (rn_events r)) = take (Z.to_nat (reference_total job * 2)) (jb_reference_samples job).
Lemma at_end t n r : at_ job started_before 0 t true n r →
  rt_submitted_frames t = rt_total_frames t → rendered r.
Proof.
  intros [[[H1 H2 H3 H4 H5 H6] G2 G3 G4 G5 G6 G7 G8 G9] Hs Hr Ht Hst Hn] He.
  rewrite Ht in *. split.
  - rewrite G6, He, G2. do 2 f_equal. lia.
  - rewrite (Hs (Hr Hst)) in G7. unfold pcm at 2 in G7. simpl in G7. rewrite app_nil_r in G7.
    rewrite G7. do 2 f_equal. rewrite H6, G3 in *. lia.
Qed.
Lemma ending_rule passes t st n : rt_submitted_frames t = rt_total_frames t →
  triple (at_ job started_before 0 t st n)
    (let* started := gets rn_started in
     when (negb started) (start_stream env job);;;
     let* drained := drain_endpoint env job passes in
     if negb drained then ret false
     else submit_render_action env job (device_call env);;; ret true)
    (λ b r, weak job started_before r ∧ (b = true → rendered r)) E.
Proof.
  intros He.
  eapply (triple_bind E _ _ _ (λ st0 r, at_ job started_before 0 t st n r ∧ st0 = st)).
  { apply triple_gets. intros r Hr. split; [done|apply Hr]. }
  intros st0. apply (triple_pure E). intros _ _ ->.
  eapply (triple_bind E _ _ _ (λ _, at_ job started_before 0 t true n)).
  { destruct st; simpl; [by apply triple_ret|apply start_rule]. }
  intros u. eapply triple_bind; [apply drain_rule|]. intros drained r (n' & Hr). revert r Hr.
  change (triple (at_ job started_before 0 t true n')
    (if negb drained then ret false else submit_render_action env job (device_call env);;; ret true)
    (λ b r, weak job started_before r ∧ (b = true → rendered r)) E).
  destruct drained; simpl.
  - eapply (triple_bind E _ _ _ (λ _, at_ job started_before 0 t true n')).
    + apply submit_rule; [apply at_stable|apply at_weak|].
      apply device_rule; [apply at_stable|apply at_weak].
    + intros u2. apply triple_ret. intros r Hr. split; [by eapply at_weak|]. intros _. by eapply at_end.
  - apply triple_ret. intros r Hr. split; [by eapply at_weak|done].
Qed.
Lemma render_rule passes : sized →
  triple (λ r, r = initial_render job started_before) (render_wasapi_frames env job passes)
    (λ b r, weak job started_before r ∧ (b = true → rendered r)) E.
Proof.
  intros Hs. unfold render_wasapi_frames. eapply triple_bind.
  { eapply triple_weaken; [apply (loop_rule env job started_before poll_bound passes (new_tracker job) false 0)| |done].
    intros r ->. by apply initial_at. }
  intros [|] r (t & st & n & Hr & Hb); simpl.
  - by apply (ending_rule passes t st n (Hb eq_refl)).
  - split; [by eapply at_weak|done].
Qed.

(** C15: Whatever the endpoint, the owner of the speaker, the clocks and the event
    callback do, and after any number of passes: the PCM written is a prefix of
    the cue's physical samples, the reference windows published are in order and
    together a prefix of the reference samples, none of them comes before the
    stream's start was announced, and a successful return has written every
    whole frame and published the whole reference that follows the prefix. *)
Theorem rendered_audio_is_in_order passes :
  sized →
  let '(result, r) := render_wasapi_frames env job passes (initial_render job started_before) in
  rn_written r `prefix_of` jb_physical_samples job
  ∧ pcm (frames_of (rn_events r)) `prefix_of` jb_reference_samples job
  ∧ (∀ pre f post, rn_events r = pre ++ Frame f :: post →
       started_before = true ∨ existsb stream_start pre = true)
  ∧ (result = Ok true →
       rn_written r = take (Z.to_nat (frame_count (jb_physical_samples job) * 2)) (jb_physical_samples job)
       ∧ pcm (frames_of (rn_events r)) = take (Z.to_nat (reference_total job * 2)) (jb_reference_samples job)).
Proof.
  intros Hs. pose proof (render_rule passes Hs _ eq_refl) as H.
  destruct (render_wasapi_frames _ _ _ _) as [[b|e] r].
  - destruct H as [[H1 H2 H3] H4]. split_and!; [done..|]. intros [= ->]. by apply H4.
  - destruct H as [[H1 H2 H3] _]. by split_and!.
Qed.

(** C14: Rendering terminates: when the permit stays valid, the device and the
    callback accept every call, the endpoint never reports more padding than was
    written or than its buffer, a running endpoint is seen empty at least once in
    any [poll_bound] readings and its buffer holds one reference window, then
    [frames * (poll_bound + 2) + poll_bound + 1] passes of the loop are enough
    for the call to succeed, without any panic. *)
Theorem rendering_completes passes :
  sized → laws env job poll_bound →
  (Z.to_nat (frame_count (jb_physical_samples job)) * (poll_bound + 2) + (poll_bound + 1) ≤ passes)%nat →
  (render_wasapi_frames env job passes (initial_render job started_before)).1 = Ok true.
Proof.
  intros Hs HL Hp. pose proof (initial_at Hs) as H0.
  assert (triple (at_ job started_before 0 (new_tracker job) false 0)
    (render_wasapi_frames env job passes) (λ b _, b = true) E) as H.
  { unfold render_wasapi_frames. eapply triple_bind.
    { apply (loop_completes env job started_before poll_bound HL passes _ _ _ O); [|done].
      unfold needed. simpl. rewrite Z.sub_0_r. lia. }
    intros b r [-> (t & st & n & Hr & Hb)]. revert r Hr. simpl.
    eapply (triple_bind E _ _ _ (λ st0 r, at_ job started_before 0 t st n r ∧ st0 = st)).
    { apply triple_gets. intros r Hr. split; [done|apply Hr]. }
    intros st0. apply (triple_pure E). intros _ _ ->.
    eapply (triple_bind E _ _ _ (λ _, at_ job started_before 0 t true n)).
    { destruct st; simpl; [by apply triple_ret|apply start_rule]. }
    intros u. eapply triple_bind.
    { apply (drain_completes env job started_before poll_bound passes t n poll_bound); [lia|].
      by apply (drains_soon env job). }
    intros drained r [-> (n' & Hr)]. revert r Hr. simpl.
    eapply (triple_bind E _ _ _ (λ _, at_ job started_before 0 t true n')); [|intros u2; by apply triple_ret].
    apply submit_rule; [apply at_stable|apply at_weak|].
    apply device_rule; [apply at_stable|apply at_weak]. }
  specialize (H _ H0). destruct (render_wasapi_frames _ _ _ _) as [[b|e] r]; [by subst b|].
  by destruct H.
Qed.
End Render.

(** ** Instances *)
(** A permit that stays valid and an endpoint that plays at once when it runs. *)
Definition sample_permit : DesktopPlaybackPermit := mk_permit 1 1.
Definition sample_env : Env :=
  mk_env (λ _, mk_ownership Desktop 1 2 {[ 1 := mk_playback 1 "cue-1" "native-omni" false [] ]} [])
    (λ _, Ok tt) (λ _ started n, Ok (if started : bool then 0 else Z.min n 480))
    (λ _, Ok tt) (λ _, None) Z.of_nat.
(** One frame of silence, then two frames of speech. *)
Definition sample_job : Job Z :=
  mk_job [1; 2; 3; 4] [0; 0; 1; 2; 3; 4] 1 0 480 sample_permit 7 "endpoint" "desktop-process-1".
Lemma sample_laws : laws sample_env sample_job 1.
Proof.
  split; simpl; try done.
  - intros k st n Hn. destruct st; eexists; (split; [done|]); simpl; lia.
  - intros k. exists O. split; [lia|]. done.
Qed.
Lemma rendering_completes_witness :
  (render_wasapi_frames sample_env sample_job 12 (initial_render sample_job false)).1 = Ok true.
Proof.
  apply (rendering_completes sample_env sample_job false 1 12);
    [by vm_compute|exact sample_laws|vm_compute; lia].
Defined.
Lemma rendered_audio_is_in_order_witness :
  ∃ r, render_wasapi_frames sample_env sample_job 12 (initial_render sample_job false) = (Ok true, r)
  ∧ rn_written r = [0; 0; 1; 2; 3; 4] ∧ pcm (frames_of (rn_events r)) = [1; 2; 3; 4]
  ∧ (rn_written r `prefix_of` jb_physical_samples sample_job).
Proof.
  pose proof (rendered_audio_is_in_order sample_env sample_job false 1 12 ltac:(by vm_compute)) as H.
  destruct (render_wasapi_frames sample_env sample_job 12 (initial_render sample_job false))
    as [o r] eqn:Hr.
  destruct H as (H & _). exists r. vm_compute in Hr. injection Hr as <- <-.
  split_and!; [done|by vm_compute|by vm_compute|exact H].
Defined.
