(* ===== verification/PlaybackQuiescenceTheorems.v ===== *)
(** * What playback quiescence guarantees

    The restart barrier excludes every reservation, and the pending audio is the
    exact sum over queue and cues, in whatever order the hash map iterates. *)
From S2P Require Import Prelude RustStr PlaybackQuiescence.

(** ** The pending audio against its closed form *)
Definition known (c : BridgePlaybackCue) : option (Z * Z) :=
  match bc_pending_audio_frames c, bc_output_sample_rate_hz c with
  | Some frames, Some rate => Some (frames, rate)
  | _, _ => None
  end.
Definition all_equal (rates : list Z) : bool :=
  match rates with [] => true | r :: rates => forallb (Z.eqb r) rates end.
Definition sum_frames (l : list (Z * Z)) : Z := foldr (λ x n, x.1 + n) 0 l.
Definition rate_list (rate : option Z) : list Z := match rate with Some r => [r] | None => [] end.
(** The reference: every duration known and one common rate, then the sum. *)
Definition pending_reference (cues : list BridgePlaybackCue) (queued : Z) (rate : option Z)
    : option (Z * option Z) :=
  match mapM known cues with
  | None => None
  | Some l =>
      let rates := rate_list rate ++ l.*2 in
      if all_equal rates then Some (Z.min (queued + sum_frames l) u64_max, head rates) else None
  end.
Definition frames_ok (c : BridgePlaybackCue) : Prop :=
  ∀ frames, bc_pending_audio_frames c = Some frames → 0 ≤ frames.
Lemma mapM_cons {A B} (f : A → option B) x l :
  mapM f (x :: l) = match f x with
    | Some y => match mapM f l with Some k => Some (y :: k) | None => None end
    | None => None end.
Proof. simpl. destruct (f x); simpl; [|done]. by destruct (mapM f l). Qed.
Lemma mapM_known l k : mapM known l = Some k → Forall frames_ok l → 0 ≤ sum_frames k.
Proof.
  intros Hm Hok. apply mapM_Some in Hm. induction Hm as [|c x l k Hc Hm IH]; [done|].
  apply Forall_cons in Hok as [Hx Hok]. simpl. specialize (IH Hok). unfold known in Hc.
  destruct (bc_pending_audio_frames c) as [f|] eqn:E; [|done].
  destruct (bc_output_sample_rate_hz c); [|done]. injection Hc as <-. simpl. specialize (Hx f E). lia.
Qed.
Lemma sum_pending_spec cues : ∀ total rate,
  Forall frames_ok cues → 0 ≤ total ≤ u64_max →
  sum_pending cues total rate = pending_reference cues total rate.
Proof.
  induction cues as [|c cues IH]; intros total rate Hok Ht.
  - unfold pending_reference. simpl. destruct rate; simpl; by rewrite Z.add_0_r, Z.min_l by lia.
  - apply Forall_cons in Hok as [Hc Hok]. unfold pending_reference. rewrite mapM_cons. simpl.
    destruct (known c) as [[f r]|] eqn:Hk; unfold known in Hk;
      destruct (bc_pending_audio_frames c) as [f'|] eqn:Ef; try done;
      destruct (bc_output_sample_rate_hz c) as [r'|]; try done.
    injection Hk as -> ->. specialize (Hc f Ef). simpl.
    assert (0 ≤ saturating_add total f ≤ u64_max) as Ht' by (pose proof u64_max_pos; unfold saturating_add; lia).
    destruct rate as [q|].
    + destruct (q =? r) eqn:E; bool_hyps; simpl.
      * rewrite IH by done. unfold pending_reference.
        destruct (mapM known cues) as [k|] eqn:Ek; [|done]. simpl.
        rewrite E, Z.eqb_refl. simpl. destruct (forallb _ _); [|done].
        pose proof (mapM_known _ _ Ek Hok). unfold saturating_add. do 2 f_equal. lia.
      * destruct (mapM known cues) as [k|]; [|done]. simpl. by rewrite (proj2 (Z.eqb_neq q r)).
    + rewrite IH by done. unfold pending_reference.
      destruct (mapM known cues) as [k|] eqn:Ek; [|done]. simpl. destruct (forallb _ _); [|done].
      pose proof (mapM_known _ _ Ek Hok). unfold saturating_add. do 2 f_equal. lia.
Qed.
Lemma all_equal_perm l l' : l ≡ₚ l' → all_equal l = all_equal l'.
Proof.
  assert (∀ l, all_equal l = true ↔ ∀ x y, x ∈ l → y ∈ l → x = y) as H.
  { intros [|r k]; simpl; [split; [by intros _ x y Hx%elem_of_nil|done]|].
    rewrite forallb_forall. setoid_rewrite <-list_elem_of_In. setoid_rewrite Z.eqb_eq.
    setoid_rewrite elem_of_cons. split.
    - intros Hall x y [->|Hx] [->|Hy]; [done|auto|symmetry; auto|by rewrite <-(Hall x), <-(Hall y)].
    - intros Hall x Hx. auto. }
  intros Hp. apply eq_true_iff_eq. rewrite !H. by setoid_rewrite Hp.
Qed.
Lemma sum_frames_perm l l' : l ≡ₚ l' → sum_frames l = sum_frames l'.
Proof. unfold sum_frames. induction 1; simpl; lia. Qed.
Lemma all_equal_head l l' : l ≡ₚ l' → all_equal l = true → head l = head l'.
Proof.
  intros Hp He. destruct l as [|x l].
  { by apply Permutation_nil_l in Hp as ->. }
  destruct l' as [|y l']; [by apply Permutation_nil_r in Hp|]. simpl. f_equal. simpl in He.
  assert (y ∈ x :: l) as [->|Hy]%elem_of_cons by (rewrite Hp; left); [done|].
  rewrite forallb_forall in He. apply Z.eqb_eq, He. by apply list_elem_of_In.
Qed.
Lemma mapM_perm {A B} (f : A → option B) l l' : l ≡ₚ l' →
  match mapM f l, mapM f l' with
  | Some k, Some k' => k ≡ₚ k' | None, None => True | _, _ => False
  end.
Proof.
  induction 1 as [|x l l' _ IH|x y l|l l' l'' _ IH1 _ IH2]; simpl; [done| | |].
  - destruct (f x); simpl; [|done]. destruct (mapM f l), (mapM f l'); simpl; try done. by constructor.
  - destruct (f x), (f y); simpl; try done; destruct (mapM f l); simpl; try done. constructor.
  - destruct (mapM f l), (mapM f l'), (mapM f l''); try done. by etransitivity.
Qed.
Lemma pending_reference_perm l l' queued rate : l ≡ₚ l' →
  pending_reference l queued rate = pending_reference l' queued rate.
Proof.
  intros Hp. unfold pending_reference. pose proof (mapM_perm known l l' Hp) as H.
  destruct (mapM known l) as [k|], (mapM known l') as [k'|]; try done.
  assert (rate_list rate ++ k.*2 ≡ₚ rate_list rate ++ k'.*2) as Hr by by rewrite H.
  rewrite <-(all_equal_perm _ _ Hr), (sum_frames_perm _ _ H).
  destruct (all_equal _) eqn:E; [|done]. by rewrite (all_equal_head _ _ Hr E).
Qed.

Section Quiescence.
Context (values : gmap string BridgePlaybackCue → list BridgePlaybackCue)
  (Hvalues : ∀ m, values m ≡ₚ (map_to_list m).*2).
Abbreviation step := (quiescence_step values).

(** ** The guards *)
(** What the guards depend on. *)
Definition guard_view (s : TranslationPlaybackQuiescenceState) : bool * Z * Z * bool :=
  let q := qt_snapshot s in
  (qs_pending_native_audio q, qs_pending_playback_submissions q, qs_pending_bridge_acks q,
   qs_restart_barrier q).
Lemma refresh_view s : guard_view (refresh_pending_audio values s) = guard_view s.
Proof. unfold refresh_pending_audio. by destruct (sum_pending _ _ _) as [[]|]. Qed.
Lemma status_view cue_id status s :
  guard_view (observe_bridge_playback_status values cue_id status s) = guard_view s.
Proof.
  unfold observe_bridge_playback_status, recount.
  destruct (_ || _); [by rewrite refresh_view|]. destruct (is_terminal_status _); [by rewrite refresh_view|done].
Qed.
Lemma expect_view cue_id authority frames rate s :
  guard_view (expect_bridge_playback_cue_for_owner values cue_id authority frames rate s) = guard_view s.
Proof.
  unfold expect_bridge_playback_cue_for_owner, recount. destruct (is_blank _); [done|].
  by rewrite refresh_view.
Qed.
Lemma status_owner_view cue_id status authority s :
  guard_view (observe_bridge_playback_status_for_owner values cue_id status authority s).2 = guard_view s.
Proof.
  unfold observe_bridge_playback_status_for_owner, recount. destruct (negb _); [done|].
  destruct (is_terminal_status _); [|done]. simpl. by rewrite refresh_view.
Qed.
Record guards_inv (g : Guards) : Prop := {
  gi_acks : qs_pending_bridge_acks (qt_snapshot (gd_state g)) = gd_acks g ∧ 0 ≤ gd_acks g ≤ u64_max;
  gi_submissions : qs_pending_playback_submissions (qt_snapshot (gd_state g)) = gd_submissions g
    ∧ 0 ≤ gd_submissions g ≤ u64_max;
  gi_barrier : if barrier g
    then gd_restarts g = 1 ∧ gd_acks g = 0 ∧ gd_submissions g = 0
         ∧ qs_pending_native_audio (qt_snapshot (gd_state g)) = false
    else gd_restarts g = 0
}.
Lemma guards_inv_view g s :
  guard_view s = guard_view (gd_state g) → guards_inv g → guards_inv (g <| gd_state := s |>).
Proof.
  unfold guard_view. intros [= E1 E2 E3 E4] [H1 H2 H3].
  split; unfold barrier in *; simpl; by rewrite ?E1, ?E2, ?E3, ?E4.
Qed.
Lemma guards_exec g l g' : guards_inv g → exec_quiescence values l g = Some g' → guards_inv g'.
Proof.
  intros Hi H. pose proof Hi as [[H1 H1'] [H2 H2'] H3].
  destruct l; simpl in H.
  - destruct (_ && _) eqn:E; [done|]. injection H as <-. split; simpl; try done.
    unfold barrier in *. simpl. destruct (qs_restart_barrier _); [|done].
    rewrite andb_true_r in E. destruct H3 as (? & ? & ? & _). by split_and!.
  - injection H as <-. unfold set_with. apply guards_inv_view; [unfold set_queue_state; by rewrite refresh_view|done].
  - destruct (_ || _) eqn:E; [done|]. injection H as <-. bool_hyps. unfold barrier in *.
    split; simpl; [rewrite H1; split; unfold saturating_add; lia|done|].
    unfold barrier. simpl. destruct (qs_restart_barrier _); [done|done].
  - destruct (_ <=? _) eqn:E; [done|]. injection H as <-. bool_hyps. unfold barrier in *.
    split; simpl; [rewrite H1; split; unfold saturating_sub; lia|done|].
    unfold barrier. simpl. destruct (qs_restart_barrier _); [lia|done].
  - injection H as <-. unfold set_with. apply guards_inv_view; [apply status_view|done].
  - destruct (_ && _); [done|]. injection H as <-. unfold set_with.
    apply guards_inv_view; [apply expect_view|done].
  - injection H as <-. unfold set_with. apply guards_inv_view; [apply status_owner_view|done].
  - destruct (_ || _) eqn:E; [done|]. injection H as <-. bool_hyps. unfold barrier in *.
    split; simpl; [done|rewrite H2; split; unfold saturating_add; lia|].
    unfold barrier. simpl. destruct (qs_restart_barrier _); [done|done].
  - destruct (_ <=? _) eqn:E; [done|]. injection H as <-. bool_hyps. unfold barrier in *.
    split; simpl; [done|rewrite H2; split; unfold saturating_sub; lia|].
    unfold barrier. simpl. destruct (qs_restart_barrier _); [lia|done].
  - injection H as <-. unfold try_begin_restart_barrier. destruct (is_quiescent _) eqn:E; [|done].
    unfold is_quiescent in E. bool_hyps. split; simpl; [done|done|]. unfold barrier in *. simpl.
    destruct (qs_restart_barrier _); [done|]. rewrite H3. split_and!; [done|congruence|congruence|done].
  - destruct (_ <=? _) eqn:E; [done|]. injection H as <-. bool_hyps. split; simpl; [done|done|].
    unfold barrier in *. simpl. destruct (qs_restart_barrier _); lia.
Qed.
Lemma guards_step g l g' : guards_inv g → step g l g' → guards_inv g'.
Proof. intros Hi [_ H]. by eapply guards_exec. Qed.
#[local] Instance guards_invariant : Invariant (eq initial_guards) step guards_inv.
Proof. split; [intros g <-; by split|]. intros g l g' Hi H. by eapply guards_step. Qed.
Lemma guards_reachable g : quiescence_reachable values g → guards_inv g.
Proof. apply (reachable_inv _ step guards_inv). Qed.

(** ** The pending audio *)
Definition queue_rate (s : TranslationPlaybackQuiescenceState) : option Z :=
  if 0 <? qt_queued_audio_sample_rate_hz s then Some (qt_queued_audio_sample_rate_hz s) else None.
Definition exact (s : TranslationPlaybackQuiescenceState) : Prop :=
  (qs_pending_audio_frames (qt_snapshot s), qs_output_sample_rate_hz (qt_snapshot s))
  = match pending_reference (map_to_list (qt_active_bridge_cues s)).*2 (qt_queued_audio_frames s)
            (queue_rate s) with
    | Some (total, rate) => (Some total, rate)
    | None => (None, None)
    end
  ∧ qs_active_bridge_cues (qt_snapshot s) = Z.of_nat (size (qt_active_bridge_cues s)).
(** Before the first update nothing is known, and nothing is there. *)
Definition untouched (s : TranslationPlaybackQuiescenceState) : Prop :=
  qs_pending_audio_frames (qt_snapshot s) = None ∧ qs_active_bridge_cues (qt_snapshot s) = 0
  ∧ qt_active_bridge_cues s = ∅ ∧ qt_queued_audio_frames s = 0.
Definition inputs_ok (s : TranslationPlaybackQuiescenceState) : Prop :=
  0 ≤ qt_queued_audio_frames s ≤ u64_max
  ∧ map_Forall (λ _ c, frames_ok c) (qt_active_bridge_cues s).
Definition audio_inv (s : TranslationPlaybackQuiescenceState) : Prop :=
  inputs_ok s ∧ (exact s ∨ untouched s).
Lemma refresh_exact s : inputs_ok s →
  qs_active_bridge_cues (qt_snapshot s) = Z.of_nat (size (qt_active_bridge_cues s)) →
  audio_inv (refresh_pending_audio values s).
Proof.
  intros [Hq Hc] Hs.
  assert (sum_pending (values (qt_active_bridge_cues s)) (qt_queued_audio_frames s) (queue_rate s)
    = pending_reference (map_to_list (qt_active_bridge_cues s)).*2 (qt_queued_audio_frames s) (queue_rate s)) as E.
  { rewrite sum_pending_spec; [by apply pending_reference_perm, Hvalues| |done].
    rewrite (Hvalues _). apply Forall_forall. intros c (kc & -> & Hin)%list_elem_of_fmap.
    destruct kc as [k c]. apply elem_of_map_to_list in Hin. by apply (Hc k c). }
  unfold refresh_pending_audio. fold (queue_rate s). rewrite E.
  destruct (pending_reference _ _ _) as [[total rate]|] eqn:Er; (split; [by split|]); left;
    (split; [|done]); unfold queue_rate in *; simpl; by rewrite Er.
Qed.
Lemma recount_exact s : inputs_ok s → audio_inv (recount values s).
Proof. intros H. by apply refresh_exact. Qed.
(** The view the pending audio depends on is the rest of the state. *)
Lemma audio_inv_snapshot f s :
  (∀ q, qs_pending_audio_frames (f q) = qs_pending_audio_frames q
     ∧ qs_output_sample_rate_hz (f q) = qs_output_sample_rate_hz q
     ∧ qs_active_bridge_cues (f q) = qs_active_bridge_cues q) →
  audio_inv s → audio_inv (snapshot f s).
Proof.
  intros Hf [Hi H]. destruct (Hf (qt_snapshot s)) as (E1 & E2 & E3).
  split; [done|]. destruct H as [[H1 H2]|(H1 & H2 & H3 & H4)]; [left|right].
  - split; simpl; rewrite ?E1, ?E2, ?E3; done.
  - split_and!; simpl; rewrite ?E1, ?E3; done.
Qed.
Lemma saturating_add_nonneg a b : 0 ≤ a → 0 ≤ b → 0 ≤ saturating_add a b.
Proof. pose proof u64_max_pos. unfold saturating_add. lia. Qed.
Lemma expect_audio cue_id authority frames rate s : 0 ≤ frames → audio_inv s →
  audio_inv (expect_bridge_playback_cue_for_owner values cue_id authority frames rate s).
Proof.
  intros Hf [[Hq Hc] H]. unfold expect_bridge_playback_cue_for_owner. destruct (is_blank _); [done|].
  apply recount_exact. split; [done|]. apply map_Forall_insert_2; [|done].
  assert (frames_ok (default (mk_bridge_cue (Some authority) (Some 0) (Some rate))
    (qt_active_bridge_cues s !! cue_id))) as Hd.
  { destruct (qt_active_bridge_cues s !! cue_id) as [c|] eqn:E; simpl; [by eapply Hc|].
    intros n [= <-]. done. }
  revert Hd. generalize (default (mk_bridge_cue (Some authority) (Some 0) (Some rate))
    (qt_active_bridge_cues s !! cue_id)). intros c Hd. cbv zeta.
  destruct (bool_decide (bc_authority c = _)); [destruct (bool_decide _)|]; intros n; simpl.
  - destruct (bc_pending_audio_frames c) as [m|] eqn:E; simpl; [|done]. intros [= <-].
    apply saturating_add_nonneg; [by apply Hd|done].
  - done.
  - by intros [= <-].
Qed.
Lemma audio_step g l g' : audio_inv (gd_state g) → step g l g' → audio_inv (gd_state g').
Proof.
  intros Hi [Hl H]. destruct l; simpl in H.
  - destruct (_ && _); [done|]. injection H as <-. by apply audio_inv_snapshot.
  - injection H as <-. destruct Hi as [[Hq Hc] Hi]. destruct Hl as (_ & _ & Hl & _).
    apply refresh_exact; [by split|]. simpl.
    destruct Hi as [[_ E]|(_ & E & -> & _)]; [done|]. by rewrite E, map_size_empty.
  - destruct (_ || _); [done|]. injection H as <-. by apply audio_inv_snapshot.
  - destruct (_ <=? _); [done|]. injection H as <-. by apply audio_inv_snapshot.
  - injection H as <-. simpl. unfold set_with, observe_bridge_playback_status.
    destruct Hi as [[Hq Hc] Hi].
    destruct (_ || _); [|destruct (is_terminal_status _); [|by split]]; apply recount_exact; (split; [done|]);
      simpl; destruct (qt_active_bridge_cues (gd_state g) !! cue_id) as [c|] eqn:E; try done.
    + by apply map_Forall_insert_2.
    + destruct (is_Some_b _); [done|]. by apply map_Forall_delete.
  - destruct (_ && _); [done|]. injection H as <-. destruct Hl as [Hl _]. apply expect_audio; [lia|done].
  - injection H as <-. simpl. unfold set_with, observe_bridge_playback_status_for_owner.
    destruct (negb _); [done|]. destruct (is_terminal_status _); [|done]. simpl.
    destruct Hi as [[Hq Hc] _]. apply recount_exact. split; [done|]. by apply map_Forall_delete.
  - destruct (_ || _); [done|]. injection H as <-. by apply audio_inv_snapshot.
  - destruct (_ <=? _); [done|]. injection H as <-. by apply audio_inv_snapshot.
  - injection H as <-. unfold try_begin_restart_barrier. destruct (negb _); [done|].
    by apply audio_inv_snapshot.
  - destruct (_ <=? _); [done|]. injection H as <-. by apply audio_inv_snapshot.
Qed.
#[local] Instance audio_invariant : Invariant (eq initial_guards) step (λ g, audio_inv (gd_state g)).
Proof.
  split; [|intros g l g' Hi H; by eapply audio_step].
  intros g <-. split; [split; [done|by apply map_Forall_empty]|]. by right.
Qed.

(** C28: The restart barrier is exclusive. In every reachable state at most one
    restart guard is alive, the barrier is up exactly while it is, and then no
    bridge acknowledgement, no playback submission and no native audio is
    pending; the pending counts are the guards alive. A restart guard is handed
    out only when nothing at all is queued, active or reserved. *)
Theorem restart_barrier_is_exclusive g :
  quiescence_reachable values g →
  (if barrier g
   then gd_restarts g = 1 ∧ gd_acks g = 0 ∧ gd_submissions g = 0
        ∧ qs_pending_native_audio (qt_snapshot (gd_state g)) = false
   else gd_restarts g = 0)
  ∧ qs_pending_bridge_acks (qt_snapshot (gd_state g)) = gd_acks g
  ∧ qs_pending_playback_submissions (qt_snapshot (gd_state g)) = gd_submissions g
  ∧ ∀ g', step g QTryRestart g' → g' ≠ g →
      barrier g = false ∧ barrier g' = true ∧ gd_acks g = 0 ∧ gd_submissions g = 0
      ∧ qs_queued_commands (qt_snapshot (gd_state g)) = 0
      ∧ qs_active_commands (qt_snapshot (gd_state g)) = 0
      ∧ qt_active_bridge_cues (gd_state g) = ∅
      ∧ (∀ n, qs_pending_audio_frames (qt_snapshot (gd_state g)) = Some n → n ≤ 0).
Proof.
  intros Hr. destruct (guards_reachable g Hr) as [[H1 _] [H2 _] H3].
  destruct (reachable_inv _ step (λ g, audio_inv (gd_state g)) g Hr) as [_ Ha].
  split_and!; [done..|]. intros g' [_ H] Hne. simpl in H. injection H as <-. revert Hne.
  unfold try_begin_restart_barrier. destruct (is_quiescent _) eqn:E; simpl; [|done]. intros _.
  unfold is_quiescent in E. bool_hyps. split_and!; try done; try congruence.
  - destruct Ha as [[_ Es]|(_ & _ & Es & _)]; [|done]. apply map_size_empty_iff. lia.
  - intros n En. rewrite En in *. bool_hyps. lia.
Qed.

(** The pending audio is exact. In every reachable state, whatever order the
    hash map iterates in, the published duration and rate are those of the
    reference: unknown when some active cue's duration is unknown or two rates
    differ, and otherwise the queue's frames plus every active cue's, capped at
    64 bits, at their common rate — or nothing was ever queued or announced. The
    published cue count is the number of active cues. *)
Theorem pending_audio_is_exact g :
  quiescence_reachable values g →
  let s := gd_state g in
  let q := qt_snapshot s in
  qs_active_bridge_cues q = Z.of_nat (size (qt_active_bridge_cues s))
  ∧ ((qs_pending_audio_frames q, qs_output_sample_rate_hz q)
     = match pending_reference (map_to_list (qt_active_bridge_cues s)).*2 (qt_queued_audio_frames s)
               (if 0 <? qt_queued_audio_sample_rate_hz s
                then Some (qt_queued_audio_sample_rate_hz s) else None) with
       | Some (total, rate) => (Some total, rate)
       | None => (None, None)
       end
     ∨ qs_pending_audio_frames q = None ∧ qt_active_bridge_cues s = ∅ ∧ qt_queued_audio_frames s = 0).
Proof.
  intros Hr. destruct (reachable_inv _ step (λ g, audio_inv (gd_state g)) g Hr) as [_ [[H1 H2]|(H1 & H2 & H3 & H4)]].
  - split; [done|]. by left.
  - cbv zeta. split; [by rewrite H2, H3, map_size_empty|]. right. by split_and!.
Qed.
End Quiescence.

(** ** Instances *)
Definition list_values (m : gmap string BridgePlaybackCue) : list BridgePlaybackCue :=
  (map_to_list m).*2.
Lemma quiescence_reach ls : ∀ g g',
  quiescence_reachable list_values g → Forall label_ok ls →
  foldl (λ o l, o ≫= exec_quiescence list_values l) (Some g) ls = Some g' →
  quiescence_reachable list_values g'.
Proof.
  induction ls as [|l ls IH]; intros g g' Hg Hls; simpl; [by intros [= <-]|].
  apply Forall_cons in Hls as [Hl Hls]. destruct (exec_quiescence list_values l g) as [g1|] eqn:E.
  - apply IH; [|done]. eapply reach_step; [exact Hg|]. split; [exact Hl|exact E].
  - assert (∀ ls, foldl (λ o l, o ≫= exec_quiescence list_values l) None ls = None) as Hn
      by (clear; induction ls; done). by rewrite Hn.
Qed.
Definition sample_authority : TranslationPlaybackAuthority :=
  mk_authority "session" "instance" 1 "token" 1 "device".
Definition busy_labels : list quiescence_label :=
  [QSubmission; QExpect "cue" sample_authority 24000 24000; QDropSubmission;
   QExpect "cue" sample_authority 48000 24000; QQueue 1 0 1000 24000].
Definition restart_labels : list quiescence_label :=
  busy_labels ++ [QStatusForOwner "cue" "completed" sample_authority; QQueue 0 0 0 24000].
Definition after_labels (ls : list quiescence_label) : Guards :=
  default initial_guards
    (foldl (λ o l, o ≫= exec_quiescence list_values l) (Some initial_guards) ls).
Lemma pending_audio_is_exact_witness :
  qs_pending_audio_frames (qt_snapshot (gd_state (after_labels busy_labels))) = Some 73000
  ∧ qs_active_bridge_cues (qt_snapshot (gd_state (after_labels busy_labels))) = 1.
Proof.
  assert (quiescence_reachable list_values (after_labels busy_labels)) as Hr.
  { apply (quiescence_reach busy_labels initial_guards); [by apply reach_init| |by vm_compute].
    repeat constructor; by vm_compute. }
  destruct (pending_audio_is_exact list_values (λ m, reflexivity _) _ Hr) as [H _].
  split; [by vm_compute|]. rewrite H. by vm_compute.
Defined.
Lemma restart_barrier_is_exclusive_witness :
  ∃ g', quiescence_step list_values (after_labels restart_labels) QTryRestart g'
  ∧ gd_restarts g' = 1 ∧ qt_active_bridge_cues (gd_state (after_labels restart_labels)) = ∅.
Proof.
  assert (quiescence_reachable list_values (after_labels restart_labels)) as Hr.
  { apply (quiescence_reach restart_labels initial_guards); [by apply reach_init| |by vm_compute].
    repeat constructor; by vm_compute. }
  destruct (exec_quiescence list_values QTryRestart (after_labels restart_labels)) as [g'|] eqn:E;
    [|by vm_compute in E].
  assert (quiescence_step list_values (after_labels restart_labels) QTryRestart g') as Hs by by split.
  exists g'. split_and!; [exact Hs|vm_compute in E; by injection E as <-|].
  destruct (restart_barrier_is_exclusive list_values (λ m, reflexivity _) _ Hr) as (_ & _ & _ & H).
  destruct (H g' Hs) as (_ & _ & _ & _ & _ & _ & Hm & _); [|exact Hm].
  intros ->. by vm_compute in E.
Defined.
