(* ===== verification/SubtitleDelta.v ===== *)
(** * Subtitle deltas, from the store to the renderer

    Models [audio/state/subtitle_delta.rs], the two snapshot methods of
    [audio/state.rs] that use it, and the index the renderer keeps
    ([applySubtitleDeltaToIndex] and [indexSubtitleBaseline] of
    [apps/desktop/src/stores/app-store.ts]).

    The renderer's numbers are doubles; they are integers here, which is exact
    up to [2^53 - 1]. A JavaScript object used as a map is a finite map. The
    snapshot's fields are those the code below reads. *)
From S2P Require Import Prelude RustStr SubtitleCues.

(** ** The dispatch side *)
Definition SUBTITLE_BASELINE_LIMIT : nat := 32.
Definition AGGREGATE_EMIT_INTERVAL : Z := 100000000.
Record AudioRouteRuntimeSnapshot := mk_route {
  ar_capture_state : string; ar_stream_bound : bool; ar_last_error : option string;
  ar_last_error_code : option string
}.
Record AudioRuntimeSnapshot := mk_audio {
  au_snapshot_seq : Z; au_status : string; au_inbound : AudioRouteRuntimeSnapshot;
  au_outbound : AudioRouteRuntimeSnapshot; au_subtitle_overlay : SubtitleOverlayRuntimeSnapshot;
  au_speech_dispatch_state : string; au_speech_last_error : option string;
  au_stt_state : string; au_stt_last_disconnect_reason : option string;
  au_session_started_at : option string
}.
#[export] Instance audio_settable : Settable AudioRuntimeSnapshot := λ a,
  mk_audio (au_snapshot_seq a) (au_status a) (au_inbound a) (au_outbound a) (au_subtitle_overlay a)
    (au_speech_dispatch_state a) (au_speech_last_error a) (au_stt_state a)
    (au_stt_last_disconnect_reason a) (au_session_started_at a).
Record UrgentSnapshotFingerprint := mk_fingerprint {
  uf_status : string;
  uf_inbound_capture_state : string; uf_inbound_stream_bound : bool;
  uf_inbound_error : option string; uf_inbound_error_code : option string;
  uf_outbound_capture_state : string; uf_outbound_stream_bound : bool;
  uf_outbound_error : option string; uf_outbound_error_code : option string;
  uf_speech_state : string; uf_speech_error : option string;
  uf_stt_state : string; uf_stt_error : option string; uf_session_started_at : option string
}.
#[export] Instance fingerprint_eq_dec : EqDecision UrgentSnapshotFingerprint.
Proof. solve_decision. Defined.
Definition from_snapshot (a : AudioRuntimeSnapshot) : UrgentSnapshotFingerprint :=
  mk_fingerprint (au_status a)
    (ar_capture_state (au_inbound a)) (ar_stream_bound (au_inbound a))
    (ar_last_error (au_inbound a)) (ar_last_error_code (au_inbound a))
    (ar_capture_state (au_outbound a)) (ar_stream_bound (au_outbound a))
    (ar_last_error (au_outbound a)) (ar_last_error_code (au_outbound a))
    (au_speech_dispatch_state a) (au_speech_last_error a)
    (au_stt_state a) (au_stt_last_disconnect_reason a) (au_session_started_at a).
Inductive delta_operation := Upsert | Remove | Reset.
#[export] Instance delta_operation_eq_dec : EqDecision delta_operation.
Proof. solve_decision. Defined.
Record SubtitleDeltaRuntime := mk_delta {
  de_stream_id : string; de_generation : Z; de_seq : Z; de_operation : delta_operation;
  de_cue : option SubtitleCueRuntime
}.
Record SubtitleDeltaStream := mk_stream {
  sd_stream_id : string; sd_generation : Z; sd_seq : Z;
  sd_known_cues : gmap string SubtitleCueRuntime; sd_ordered_cue_ids : list string;
  sd_last_aggregate_emit_at : option Z;
  sd_last_urgent_fingerprint : option UrgentSnapshotFingerprint
}.
#[export] Instance stream_settable : Settable SubtitleDeltaStream := λ s,
  mk_stream (sd_stream_id s) (sd_generation s) (sd_seq s) (sd_known_cues s) (sd_ordered_cue_ids s)
    (sd_last_aggregate_emit_at s) (sd_last_urgent_fingerprint s).
(** [new], with the id [Uuid::new_v4] gave. *)
Definition new_stream (stream_id : string) : SubtitleDeltaStream :=
  mk_stream stream_id 1 0 ∅ [] None None.
Record SubtitleDispatchBatch := mk_batch {
  ba_deltas : list SubtitleDeltaRuntime; ba_emit_audio_snapshot : bool;
  ba_emit_runtime_snapshot : bool
}.
Definition apply_cursor (s : SubtitleDeltaStream) (baseline_included : bool)
    (overlay : SubtitleOverlayRuntimeSnapshot) : SubtitleOverlayRuntimeSnapshot :=
  let overlay := overlay <| ov_stream_id := sd_stream_id s |> <| ov_generation := sd_generation s |>
    <| ov_seq := sd_seq s |> <| ov_baseline_included := baseline_included |> in
  if negb baseline_included
  then overlay <| ov_active_cue := None |> <| ov_recent_cues := [] |>
  else overlay <| ov_recent_cues ::= take SUBTITLE_BASELINE_LIMIT |>.

Definition push_delta (operation : delta_operation) (cue : option SubtitleCueRuntime)
    (x : SubtitleDeltaStream * list SubtitleDeltaRuntime)
    : SubtitleDeltaStream * list SubtitleDeltaRuntime :=
  let '(s, deltas) := x in
  let s := s <| sd_seq ::= λ n, Z.max (wrapping_add n 1) 1 |> in
  (s, deltas ++ [mk_delta (sd_stream_id s) (sd_generation s) (sd_seq s) operation cue]).
(** [collect::<HashMap<_, _>>()]: a later entry of the same key wins. *)
Definition collect_by_id (cues : list SubtitleCueRuntime) : gmap string SubtitleCueRuntime :=
  fold_left (λ m cue, <[cue_id cue := cue]> m) cues ∅.
Definition removed_cues (s : SubtitleDeltaStream) (current : gmap string SubtitleCueRuntime)
    : list SubtitleCueRuntime :=
  omap (λ id, sd_known_cues s !! id)
    (filter (λ id, current !! id = None) (reverse (sd_ordered_cue_ids s))).
Definition changed_cues (s : SubtitleDeltaStream) (cues : list SubtitleCueRuntime)
    : list SubtitleCueRuntime :=
  filter (λ cue, sd_known_cues s !! cue_id cue ≠ Some cue) (reverse cues).
Definition dispatch_deltas (s : SubtitleDeltaStream) (cues : list SubtitleCueRuntime)
    : SubtitleDeltaStream * list SubtitleDeltaRuntime :=
  if bool_decide (cues = []) && negb (bool_decide (sd_ordered_cue_ids s = [])) then
    push_delta Reset None
      (s <| sd_generation ::= λ g, Z.max (wrapping_add g 1) 1 |> <| sd_seq := 0 |>, [])
  else
    let x := fold_left (λ x cue, push_delta Remove (Some cue) x)
               (removed_cues s (collect_by_id cues)) (s, []) in
    fold_left (λ x cue, push_delta Upsert (Some cue) x) (changed_cues s cues) x.
Definition prepare_dispatch (overlay : SubtitleOverlayRuntimeSnapshot) (audio : AudioRuntimeSnapshot)
    (now : Z) (s : SubtitleDeltaStream) : SubtitleDispatchBatch * SubtitleDeltaStream :=
  let current_cues := take SUBTITLE_BASELINE_LIMIT (ov_recent_cues overlay) in
  let '(s, deltas) := dispatch_deltas s current_cues in
  let s := s <| sd_known_cues := collect_by_id current_cues |>
             <| sd_ordered_cue_ids := cue_id <$> current_cues |> in
  let urgent_fingerprint := from_snapshot audio in
  let urgent_changed :=
    negb (bool_decide (sd_last_urgent_fingerprint s = Some urgent_fingerprint)) in
  let aggregate_due :=
    match sd_last_aggregate_emit_at s with
    | None => true
    | Some last => AGGREGATE_EMIT_INTERVAL <=? Z.max 0 (now - last)
    end in
  let emit_audio_snapshot := urgent_changed || aggregate_due in
  let s := if emit_audio_snapshot then s <| sd_last_aggregate_emit_at := Some now |> else s in
  let s := if urgent_changed then s <| sd_last_urgent_fingerprint := Some urgent_fingerprint |> else s in
  (mk_batch deltas emit_audio_snapshot urgent_changed, s).

(** The store's two ways out: a baseline on request, and the events. *)
Record Audio := mk_audio_state {
  as_inner : AudioRuntimeSnapshot; as_overlay : SubtitleOverlayRuntimeSnapshot;
  as_stream : SubtitleDeltaStream; as_snapshot_seq : Z
}.
#[export] Instance audio_state_settable : Settable Audio := λ a,
  mk_audio_state (as_inner a) (as_overlay a) (as_stream a) (as_snapshot_seq a).
Definition outgoing (report_session_id : option string) (a : Audio) : AudioRuntimeSnapshot :=
  (as_inner a) <| au_subtitle_overlay :=
    (SubtitleStore_snapshot SUBTITLE_BASELINE_LIMIT (as_overlay a))
      <| ov_report_session_id := report_session_id |> |>.
Definition audio_snapshot (report_session_id : option string) (a : Audio)
    : AudioRuntimeSnapshot * Audio :=
  let next := wrapping_add (as_snapshot_seq a) 1 in
  ((outgoing report_session_id a) <| au_subtitle_overlay ::= apply_cursor (as_stream a) true |>
                                  <| au_snapshot_seq := next |>,
   a <| as_snapshot_seq := next |>).
Definition prepare_event_dispatch (report_session_id : option string) (now : Z) (a : Audio)
    : (AudioRuntimeSnapshot * SubtitleDispatchBatch) * Audio :=
  let next := wrapping_add (as_snapshot_seq a) 1 in
  let snapshot := (outgoing report_session_id a) <| au_snapshot_seq := next |> in
  let overlay := SubtitleStore_snapshot SUBTITLE_BASELINE_LIMIT (as_overlay a) in
  let '(batch, s) := prepare_dispatch overlay snapshot now (as_stream a) in
  ((snapshot <| au_subtitle_overlay ::= apply_cursor s false |>, batch),
   a <| as_snapshot_seq := next |> <| as_stream := s |>).

(** ** The renderer side *)
Definition SUBTITLE_WINDOW_LIMIT : nat := 32.
Record SubtitleCueIndex := mk_index {
  ix_cueById : gmap string SubtitleCueRuntime; ix_orderedCueIds : list string;
  ix_streamId : string; ix_generation : Z; ix_seq : Z
}.
Inductive SubtitleDeltaApplyResult := Applied | Ignored | Resync.
#[export] Instance apply_result_eq_dec : EqDecision SubtitleDeltaApplyResult.
Proof. solve_decision. Defined.
Definition indexSubtitleBaseline (overlay : SubtitleOverlayRuntimeSnapshot) : SubtitleCueIndex :=
  let recentCues := take SUBTITLE_WINDOW_LIMIT (ov_recent_cues overlay) in
  let '(cueById, orderedCueIds) :=
    fold_left (λ x cue, let '(m, ids) := x in
      if is_Some_b (m !! cue_id cue) then x else (<[cue_id cue := cue]> m, ids ++ [cue_id cue]))
      recentCues (∅, []) in
  mk_index cueById orderedCueIds (ov_stream_id overlay) (ov_generation overlay) (ov_seq overlay).
Definition applySubtitleDeltaToIndex (current : SubtitleCueIndex) (delta : SubtitleDeltaRuntime)
    : SubtitleDeltaApplyResult * SubtitleCueIndex :=
  if is_empty (ix_streamId current) then (Resync, current)
  else if negb (bool_decide (de_stream_id delta = ix_streamId current)) then (Resync, current)
  else
    let isExpectedReset := bool_decide (de_operation delta = Reset)
      && (de_generation delta =? ix_generation current + 1) && (de_seq delta =? 1) in
    if negb (de_generation delta =? ix_generation current) && negb isExpectedReset
    then (Resync, current)
    else if negb isExpectedReset && (de_seq delta <=? ix_seq current) then (Ignored, current)
    else if negb isExpectedReset && negb (de_seq delta =? ix_seq current + 1) then (Resync, current)
    else if isExpectedReset
    then (Applied, mk_index ∅ [] (de_stream_id delta) (de_generation delta) (de_seq delta))
    else
      match de_cue delta with
      | None => (Resync, current)
      | Some cue =>
          let finish cueById orderedCueIds :=
            let removedIds := drop SUBTITLE_WINDOW_LIMIT orderedCueIds in
            (Applied, mk_index (foldr delete cueById removedIds)
               (take SUBTITLE_WINDOW_LIMIT orderedCueIds) (ix_streamId current)
               (ix_generation current) (de_seq delta)) in
          match de_operation delta with
          | Remove =>
              if negb (is_Some_b (ix_cueById current !! cue_id cue))
              then (Applied, mk_index (ix_cueById current) (ix_orderedCueIds current)
                      (ix_streamId current) (ix_generation current) (de_seq delta))
              else finish (delete (cue_id cue) (ix_cueById current))
                     (filter (λ id, id ≠ cue_id cue) (ix_orderedCueIds current))
          | Upsert =>
              let isNew := negb (is_Some_b (ix_cueById current !! cue_id cue)) in
              finish (<[cue_id cue := cue]> (ix_cueById current))
                (if isNew then cue_id cue :: ix_orderedCueIds current else ix_orderedCueIds current)
          | Reset => (Resync, current)
          end
      end.
(** The deltas of a batch in the order they are emitted; stops at the first one
    that is not applied. *)
Fixpoint apply_all (index : SubtitleCueIndex) (deltas : list SubtitleDeltaRuntime)
    : SubtitleDeltaApplyResult * SubtitleCueIndex :=
  match deltas with
  | [] => (Applied, index)
  | delta :: deltas =>
      match applySubtitleDeltaToIndex index delta with
      | (Applied, index) => apply_all index deltas
      | (result, index) => (result, index)
      end
  end.
