(* ===== verification/SubtitleDeltaTheorems.v ===== *)
(** * What the subtitle deltas guarantee

    A renderer that starts from a baseline applies every delta and ends up with
    the cues of the store's window; where its order can differ is shown too. *)
From S2P Require Import Prelude RustStr SubtitleCues SubtitleDelta.

(** ** Cues by id *)
Definition ids (l : list SubtitleCueRuntime) : list string := cue_id <$> l.
Lemma list_filter_iff' {A} (P Q : A → Prop) `{!∀ x, Decision (P x), !∀ x, Decision (Q x)} (l : list A) :
  (∀ x, x ∈ l → P x ↔ Q x) → filter P l = filter Q l.
Proof.
  induction l as [|x l IH]; intros Hall; [done|]. rewrite !filter_cons.
  assert (filter P l = filter Q l) as -> by (apply IH; intros y Hy; apply Hall; by right).
  destruct (decide (P x)) as [Hp|Hp], (decide (Q x)) as [Hq|Hq]; try done; exfalso;
    (assert (P x ↔ Q x) by (apply Hall; left)); tauto.
Qed.
Lemma find_cue_unique l c : NoDup (ids l) → c ∈ l → find_cue (cue_id c) l = Some c.
Proof.
  unfold find_cue, ids. induction l as [|x l IH]; [by intros _ ?%elem_of_nil|].
  rewrite fmap_cons, NoDup_cons. intros [Hx Hl] [->|Hc]%elem_of_cons; simpl; unfold has_id.
  - by rewrite bool_decide_true.
  - rewrite bool_decide_false; [by apply IH|]. intros E. apply Hx. rewrite E.
    apply list_elem_of_fmap. by exists c.
Qed.
Lemma find_cue_spec l id c : NoDup (ids l) → find_cue id l = Some c ↔ c ∈ l ∧ cue_id c = id.
Proof.
  intros Hl. split; [|intros [Hc <-]; by apply find_cue_unique].
  intros [Hc Hid]%List.find_some. unfold has_id in Hid. bool_hyps. split; [by apply list_elem_of_In|done].
Qed.
Lemma find_cue_none l id : find_cue id l = None ↔ id ∉ ids l.
Proof.
  unfold find_cue, ids. induction l as [|x l IH]; simpl; [split; [by intros _ ?%elem_of_nil|done]|].
  rewrite not_elem_of_cons. unfold has_id at 1. destruct (decide (cue_id x = id)) as [E|E].
  - rewrite bool_decide_true by done. split; [done|]. intros [Hn _]. by destruct Hn.
  - rewrite bool_decide_false by done. rewrite IH. naive_solver.
Qed.
Definition upsert_map (m : gmap string SubtitleCueRuntime) (l : list SubtitleCueRuntime)
    : gmap string SubtitleCueRuntime := fold_left (λ m c, <[cue_id c := c]> m) l m.
Lemma upsert_map_lookup l : ∀ m id, NoDup (ids l) →
  upsert_map m l !! id = match find_cue id l with Some c => Some c | None => m !! id end.
Proof.
  unfold upsert_map, find_cue, ids. induction l as [|x l IH]; intros m id; [done|].
  rewrite fmap_cons, NoDup_cons. intros [Hx Hl]. simpl. rewrite IH by done. unfold has_id at 2.
  destruct (decide (cue_id x = id)) as [<-|E].
  - rewrite bool_decide_true by done.
    destruct (List.find _ l) as [c|] eqn:Hf; [|by rewrite lookup_insert_eq].
    exfalso. apply find_cue_spec in Hf as [Hin Hid]; [|done]. apply Hx. apply list_elem_of_fmap. by exists c.
  - rewrite bool_decide_false by done. by rewrite lookup_insert_ne.
Qed.
Lemma collect_lookup l id : NoDup (ids l) → collect_by_id l !! id = find_cue id l.
Proof.
  intros Hl. change (upsert_map ∅ l !! id = find_cue id l). rewrite upsert_map_lookup by done.
  by destruct (find_cue id l).
Qed.
Definition upsert_ids (l0 : list string) (l : list SubtitleCueRuntime) : list string :=
  fold_left (λ l0 c, if bool_decide (cue_id c ∈ l0) then l0 else cue_id c :: l0) l l0.
Lemma upsert_ids_elem l : ∀ l0 id, id ∈ upsert_ids l0 l ↔ id ∈ l0 ∨ id ∈ ids l.
Proof.
  unfold upsert_ids, ids. induction l as [|c l IH]; intros l0 id; simpl.
  - rewrite elem_of_nil. tauto.
  - rewrite IH, elem_of_cons. destruct (decide (cue_id c ∈ l0)) as [Hc|Hc].
    + rewrite bool_decide_true by done. naive_solver.
    + rewrite bool_decide_false by done. rewrite elem_of_cons. tauto.
Qed.
Lemma upsert_ids_NoDup l : ∀ l0, NoDup l0 → NoDup (upsert_ids l0 l).
Proof.
  unfold upsert_ids. induction l as [|c l IH]; intros l0 Hl; simpl; [done|]. apply IH.
  destruct (decide (cue_id c ∈ l0)) as [Hc|Hc]; [by rewrite bool_decide_true|].
  rewrite bool_decide_false by done. by apply NoDup_cons.
Qed.

(** ** One delta *)
(** The index holds exactly these cues, at the stream's cursor. *)
Record at_cursor (s : SubtitleDeltaStream) (m : gmap string SubtitleCueRuntime) (l : list string)
    (ix : SubtitleCueIndex) : Prop := {
  ac_stream : ix_streamId ix = sd_stream_id s ∧ sd_stream_id s ≠ "";
  ac_generation : ix_generation ix = sd_generation s;
  ac_seq : ix_seq ix = sd_seq s;
  ac_cues : ix_cueById ix = m;
  ac_ids : ix_orderedCueIds ix = l
}.
(** The ids listed are those of the map, once each. *)
Record listed (m : gmap string SubtitleCueRuntime) (l : list string) : Prop := {
  li_nodup : NoDup l;
  li_elem id : id ∈ l ↔ is_Some (m !! id)
}.
Definition safe_integer : Z := 2 ^ 53 - 1.
Lemma apply_all_app ix l l' : apply_all ix (l ++ l') =
  match apply_all ix l with (Applied, ix) => apply_all ix l' | r => r end.
Proof.
  revert ix. induction l as [|d l IH]; intros ix; [done|]. simpl.
  destruct (applySubtitleDeltaToIndex ix d) as [[] ix']; auto.
Qed.
Lemma push_applied op cue s deltas ix ix1 m l : op ≠ Reset →
  apply_all ix deltas = (Applied, ix1) → at_cursor s m l ix1 → 0 ≤ sd_seq s < safe_integer →
  let '(s', deltas') := push_delta op (Some cue) (s, deltas) in
  sd_seq s' = sd_seq s + 1 ∧ s' = s <| sd_seq := sd_seq s + 1 |>
  ∧ apply_all ix deltas' = applySubtitleDeltaToIndex ix1
      (mk_delta (sd_stream_id s) (sd_generation s) (sd_seq s + 1) op (Some cue)).
Proof.
  intros Hop Ha Hc Hs. unfold push_delta.
  assert (Z.max (wrapping_add (sd_seq s) 1) 1 = sd_seq s + 1) as E.
  { unfold wrapping_add, safe_integer in *. rewrite Z.mod_small; [lia|]. unfold u64_max. lia. }
  simpl. unfold set_with. rewrite E. split_and!; [done|done|]. rewrite apply_all_app, Ha. simpl.
  by destruct (applySubtitleDeltaToIndex _ _) as [[] ?].
Qed.
Lemma next_delta s m l ix op cue : op ≠ Reset → at_cursor s m l ix →
  applySubtitleDeltaToIndex ix
    (mk_delta (sd_stream_id s) (sd_generation s) (sd_seq s + 1) op (Some cue))
  = let finish cueById orderedCueIds :=
      (Applied, mk_index (foldr delete cueById (drop SUBTITLE_WINDOW_LIMIT orderedCueIds))
         (take SUBTITLE_WINDOW_LIMIT orderedCueIds) (sd_stream_id s) (sd_generation s) (sd_seq s + 1)) in
    match op with
    | Upsert => finish (<[cue_id cue := cue]> m)
                  (if is_Some_b (m !! cue_id cue) then l else cue_id cue :: l)
    | _ => if is_Some_b (m !! cue_id cue) then finish (delete (cue_id cue) m) (filter (λ id, id ≠ cue_id cue) l)
           else (Applied, mk_index m l (sd_stream_id s) (sd_generation s) (sd_seq s + 1))
    end.
Proof.
  intros Hop [[H1 H1'] H2 H3 H4 H5]. unfold applySubtitleDeltaToIndex. simpl. rewrite H1, H2, H3, H4, H5.
  unfold is_empty. rewrite (bool_decide_false (sd_stream_id s = "")) by done.
  rewrite (bool_decide_true (sd_stream_id s = sd_stream_id s)) by done.
  rewrite (bool_decide_false (op = Reset)) by done. rewrite !Z.eqb_refl. simpl.
  rewrite (proj2 (Z.leb_gt _ _)) by lia.
  destruct op; [|by destruct (is_Some_b _)|done]. by destruct (is_Some_b _).
Qed.
Lemma finish_short {A} (m : gmap string A) (l : list string) : (length l ≤ 32)%nat →
  foldr delete m (drop SUBTITLE_WINDOW_LIMIT l) = m ∧ take SUBTITLE_WINDOW_LIMIT l = l.
Proof. intros H. unfold SUBTITLE_WINDOW_LIMIT. by rewrite drop_ge, take_ge. Qed.

(** ** The two loops of a dispatch *)
Definition remove_map (m : gmap string SubtitleCueRuntime) (l : list SubtitleCueRuntime)
    : gmap string SubtitleCueRuntime := fold_left (λ m c, delete (cue_id c) m) l m.
Definition remove_ids (l0 : list string) (l : list SubtitleCueRuntime) : list string :=
  fold_left (λ l0 c, filter (λ id, id ≠ cue_id c) l0) l l0.
Lemma remove_loop cues : ∀ s deltas ix ix1 m l,
  apply_all ix deltas = (Applied, ix1) → at_cursor s m l ix1 → (length l ≤ 32)%nat →
  (∀ id, id ∈ l ↔ is_Some (m !! id)) →
  0 ≤ sd_seq s → sd_seq s + Z.of_nat (length cues) ≤ safe_integer →
  let '(s', deltas') := fold_left (λ x cue, push_delta Remove (Some cue) x) cues (s, deltas) in
  s' = s <| sd_seq := sd_seq s + Z.of_nat (length cues) |>
  ∧ ∃ ix', apply_all ix deltas' = (Applied, ix')
    ∧ at_cursor s' (remove_map m cues) (remove_ids l cues) ix'.
Proof.
  induction cues as [|c cues IH]; intros s deltas ix ix1 m l Ha Hc Hl Hml H0 Hs.
  - simpl. rewrite Z.add_0_r. split; [by destruct s|]. by exists ix1.
  - assert (∀ x : SubtitleDeltaStream * list SubtitleDeltaRuntime,
      fold_left (λ x cue, push_delta Remove (Some cue) x) (c :: cues) x
      = fold_left (λ x cue, push_delta Remove (Some cue) x) cues (push_delta Remove (Some c) x)) as -> by done.
    simpl length in Hs. pose proof (push_applied Remove c s deltas ix ix1 m l) as Hp.
    destruct (push_delta Remove (Some c) (s, deltas)) as [s1 deltas1].
    destruct Hp as (Hseq & Hs1 & Hap); [done|done|done|lia|].
    rewrite (next_delta s m l ix1 Remove c) in Hap by done. cbv beta zeta in Hap.
    destruct (finish_short (delete (cue_id c) m) (filter (λ id, id ≠ cue_id c) l)) as [E1 E2].
    { pose proof (length_filter (λ id, id ≠ cue_id c) l). lia. }
    rewrite E1, E2 in Hap.
    assert (∃ ix2, apply_all ix deltas1 = (Applied, ix2)
      ∧ at_cursor s1 (delete (cue_id c) m) (filter (λ id, id ≠ cue_id c) l) ix2) as (ix2 & Ha2 & Hc2).
    { destruct Hc as [[G1 G1'] G2 G3 G4 G5].
      destruct (is_Some_b _) eqn:Em; eexists; (split; [exact Hap|]); subst s1; split; simpl; try done.
      - apply is_Some_b_false in Em. by rewrite delete_id.
      - symmetry. apply filter_all. intros id Hid ->. apply is_Some_b_false in Em.
        apply Hml in Hid. rewrite Em in Hid. by destruct Hid. }
    specialize (IH s1 deltas1 ix ix2 (delete (cue_id c) m) (filter (λ id, id ≠ cue_id c) l) Ha2 Hc2).
    destruct (fold_left _ cues (s1, deltas1)) as [s2 deltas2].
    destruct IH as [-> (ix' & H1 & H2)].
    + pose proof (length_filter (λ id, id ≠ cue_id c) l). lia.
    + intros id. rewrite list_elem_of_filter, Hml. destruct (decide (id = cue_id c)) as [->|Hne].
      * rewrite lookup_delete_eq. split; [by intros []|by intros []].
      * rewrite lookup_delete_ne by done. tauto.
    + lia.
    + lia.
    + subst s1. split; [unfold set_with; simpl; f_equal; lia|]. by exists ix'.
Qed.
Lemma upsert_loop cues limit : ∀ s deltas ix ix1 m l,
  apply_all ix deltas = (Applied, ix1) → at_cursor s m l ix1 →
  NoDup l → (∀ id, id ∈ l ∨ id ∈ ids cues → id ∈ limit) → (length limit ≤ 32)%nat →
  (∀ id, id ∈ l ↔ is_Some (m !! id)) →
  0 ≤ sd_seq s → sd_seq s + Z.of_nat (length cues) ≤ safe_integer →
  let '(s', deltas') := fold_left (λ x cue, push_delta Upsert (Some cue) x) cues (s, deltas) in
  s' = s <| sd_seq := sd_seq s + Z.of_nat (length cues) |>
  ∧ ∃ ix', apply_all ix deltas' = (Applied, ix')
    ∧ at_cursor s' (upsert_map m cues) (upsert_ids l cues) ix'.
Proof.
  induction cues as [|c cues IH]; intros s deltas ix ix1 m l Ha Hc Hnd Hlim Hl Hml H0 Hs.
  - simpl. rewrite Z.add_0_r. split; [by destruct s|]. by exists ix1.
  - assert (∀ x : SubtitleDeltaStream * list SubtitleDeltaRuntime,
      fold_left (λ x cue, push_delta Upsert (Some cue) x) (c :: cues) x
      = fold_left (λ x cue, push_delta Upsert (Some cue) x) cues (push_delta Upsert (Some c) x)) as -> by done.
    simpl length in Hs. pose proof (push_applied Upsert c s deltas ix ix1 m l) as Hp.
    destruct (push_delta Upsert (Some c) (s, deltas)) as [s1 deltas1].
    destruct Hp as (Hseq & Hs1 & Hap); [done|done|done|lia|].
    rewrite (next_delta s m l ix1 Upsert c) in Hap by done. cbv beta zeta in Hap.
    set (l1 := if bool_decide (cue_id c ∈ l) then l else cue_id c :: l).
    assert ((if is_Some_b (m !! cue_id c) then l else cue_id c :: l) = l1) as El.
    { unfold l1. destruct (decide (cue_id c ∈ l)) as [Hin|Hin].
      - rewrite bool_decide_true by done. apply Hml in Hin as [x Hx]. by rewrite Hx.
      - rewrite bool_decide_false by done. destruct (m !! cue_id c) eqn:E; [|done].
        exfalso. apply Hin, Hml. eauto. }
    rewrite El in Hap.
    assert (NoDup l1) as Hnd1.
    { unfold l1. destruct (decide (cue_id c ∈ l)); [by rewrite bool_decide_true|].
      rewrite bool_decide_false by done. by apply NoDup_cons. }
    assert (∀ id, id ∈ l1 ↔ id = cue_id c ∨ id ∈ l) as Hl1.
    { intros id. unfold l1. destruct (decide (cue_id c ∈ l)).
      - rewrite bool_decide_true by done. naive_solver.
      - rewrite bool_decide_false by done. apply elem_of_cons. }
    assert (∀ id, id ∈ l1 ∨ id ∈ ids cues → id ∈ limit) as Hlim1.
    { intros id Hid. apply Hlim. unfold ids in *. rewrite fmap_cons, elem_of_cons, Hl1 in *. tauto. }
    destruct (finish_short (<[cue_id c := c]> m) l1) as [E1 E2].
    { etransitivity; [|exact Hl]. apply submseteq_length, NoDup_submseteq; [done|]. intros id Hid.
      apply Hlim1. by left. }
    rewrite E1, E2 in Hap.
    specialize (IH s1 deltas1 ix _ (<[cue_id c := c]> m) l1 Hap).
    destruct (fold_left _ cues (s1, deltas1)) as [s2 deltas2].
    destruct IH as [-> (ix' & H1 & H2)]; [..|subst s1; split; [unfold set_with; simpl; f_equal; lia|]; by exists ix'];
      try done; try lia.
    + destruct Hc as [[G1 G1'] G2 G3 G4 G5]. subst s1. by split.
    + intros id. rewrite Hl1, Hml. destruct (decide (cue_id c = id)) as [<-|Hne].
      * rewrite lookup_insert_eq. split; [eauto|by left].
      * rewrite lookup_insert_ne by done. split; [intros [?|?]; [by destruct Hne|done]|by right].
Qed.
Lemma remove_map_lookup l : ∀ m id,
  remove_map m l !! id = if bool_decide (id ∈ ids l) then None else m !! id.
Proof.
  unfold remove_map, ids. induction l as [|c l IH]; intros m id; simpl; [done|]. rewrite IH.
  destruct (decide (id ∈ cue_id <$> l)) as [Hin|Hin].
  - rewrite !bool_decide_true; [done| |done]. by right.
  - rewrite (bool_decide_false (id ∈ cue_id <$> l)) by done. destruct (decide (cue_id c = id)) as [<-|Hne].
    + rewrite bool_decide_true by left. apply lookup_delete_eq.
    + rewrite bool_decide_false; [by rewrite lookup_delete_ne|]. rewrite elem_of_cons. naive_solver.
Qed.
Lemma remove_ids_filter l : ∀ l0, remove_ids l0 l = filter (λ id, id ∉ ids l) l0.
Proof.
  unfold remove_ids, ids. induction l as [|c l IH]; intros l0; simpl.
  - symmetry. apply filter_all. intros x _. apply not_elem_of_nil.
  - rewrite IH, list_filter_filter. apply list_filter_iff. intros id. rewrite not_elem_of_cons. tauto.
Qed.

(** ** A whole dispatch *)
(** Between two windows cues only enter at the front; the others keep their order. *)
Definition enters_at_front (prev cur : list SubtitleCueRuntime) : Prop :=
  ∃ new, ids cur = new ++ filter (λ id, id ∈ ids cur) (ids prev) ∧ ∀ id, id ∈ new → id ∉ ids prev.
Section Dispatch.
Context (s : SubtitleDeltaStream) (prev cur : list SubtitleCueRuntime)
  (Hprev : NoDup (ids prev)) (Hcur : NoDup (ids cur))
  (Hknown : sd_known_cues s = collect_by_id prev) (Hordered : sd_ordered_cue_ids s = ids prev).
Abbreviation removed := (removed_cues s (collect_by_id cur)).
Abbreviation changed := (changed_cues s cur).
Lemma removed_elem id : id ∈ ids removed ↔ id ∈ ids prev ∧ id ∉ ids cur.
Proof.
  unfold removed_cues. rewrite Hknown, Hordered. unfold ids at 1. rewrite list_elem_of_fmap. split.
  - intros (c & -> & Hc). apply list_elem_of_omap in Hc as (id & Hid & Hc).
    apply list_elem_of_filter in Hid as [Hn Hid]. rewrite elem_of_reverse in Hid.
    rewrite collect_lookup in Hn, Hc by done. apply find_cue_spec in Hc as [_ ->]; [|done].
    split; [done|]. by apply find_cue_none.
  - intros [Hin Hn]. destruct (find_cue id prev) as [c|] eqn:Hc; [|by apply find_cue_none in Hc].
    pose proof Hc as [_ Hid]%find_cue_spec; [|done]. exists c. split; [done|].
    apply list_elem_of_omap. exists id. rewrite collect_lookup by done. split; [|done].
    apply list_elem_of_filter. rewrite elem_of_reverse, collect_lookup by done.
    split; [by apply find_cue_none|done].
Qed.
Lemma changed_elem c : c ∈ changed ↔ c ∈ cur ∧ find_cue (cue_id c) prev ≠ Some c.
Proof.
  unfold changed_cues. rewrite Hknown, list_elem_of_filter, elem_of_reverse, collect_lookup by done. tauto.
Qed.
Lemma changed_nodup : NoDup (ids changed).
Proof.
  unfold changed_cues, ids.
  eapply (sublist_NoDup _ (cue_id <$> reverse cur)); [|apply fmap_sublist, sublist_filter].
  rewrite fmap_reverse. by rewrite reverse_Permutation.
Qed.
Lemma find_changed id : find_cue id changed =
  match find_cue id cur with
  | Some c => if bool_decide (find_cue id prev = Some c) then None else Some c
  | None => None
  end.
Proof.
  pose proof changed_nodup as Hn. destruct (find_cue id cur) as [c|] eqn:Hc.
  - pose proof Hc as [Hin Hid]%find_cue_spec; [|done].
    destruct (decide (find_cue id prev = Some c)) as [E|E].
    + rewrite bool_decide_true by done. destruct (find_cue id changed) as [c'|] eqn:Hch; [|done].
      exfalso. apply find_cue_spec in Hch as [Hin' Hid']; [|done].
      apply changed_elem in Hin' as [Hin' Hne]. rewrite Hid' in Hne.
      assert (find_cue id cur = Some c') as E' by by apply find_cue_spec. congruence.
    + rewrite bool_decide_false by done. apply find_cue_spec; [done|]. split; [|done].
      apply changed_elem. by rewrite Hid.
  - apply find_cue_none. intros (c & -> & [Hin _]%changed_elem)%list_elem_of_fmap.
    apply find_cue_none in Hc. apply Hc, list_elem_of_fmap. by exists c.
Qed.
Lemma dispatch_map : upsert_map (remove_map (collect_by_id prev) removed) changed = collect_by_id cur.
Proof.
  apply map_eq. intros id. rewrite upsert_map_lookup by apply changed_nodup.
  rewrite remove_map_lookup, !collect_lookup, find_changed by done.
  destruct (find_cue id cur) as [c|] eqn:Hc.
  - destruct (decide (find_cue id prev = Some c)) as [E|E]; [|by rewrite bool_decide_false].
    rewrite bool_decide_true by done. rewrite bool_decide_false; [done|].
    rewrite removed_elem. intros [_ Hn]. apply find_cue_none in Hn. congruence.
  - destruct (decide (id ∈ ids removed)) as [Hr|Hr]; [by rewrite bool_decide_true|].
    rewrite bool_decide_false by done. apply find_cue_none. intros Hp. apply Hr, removed_elem.
    split; [done|by apply find_cue_none].
Qed.
Lemma dispatch_elem l id : (∀ id, id ∈ l ↔ id ∈ ids prev) →
  id ∈ upsert_ids (remove_ids l removed) changed ↔ id ∈ ids cur.
Proof.
  intros Hl. rewrite upsert_ids_elem, remove_ids_filter, list_elem_of_filter, removed_elem, Hl. split.
  - intros [[Hn Hp]|(c & -> & [Hc _]%changed_elem)%list_elem_of_fmap].
    + destruct (decide (id ∈ ids cur)); [done|]. by destruct Hn.
    + apply list_elem_of_fmap. by exists c.
  - intros Hc. destruct (find_cue id cur) as [c|] eqn:E; [|by apply find_cue_none in E].
    destruct (find_cue id changed) as [c'|] eqn:E'.
    + right. apply find_cue_spec in E' as [Hin <-]; [|apply changed_nodup].
      apply list_elem_of_fmap. by exists c'.
    + left. split; [tauto|]. rewrite find_changed, E in E'.
      destruct (decide (find_cue id prev = Some c)) as [Ep|Ep]; [|by rewrite bool_decide_false in E'].
      apply find_cue_spec in Ep as [Hin <-]; [|done]. apply list_elem_of_fmap. by exists c.
Qed.
Lemma upsert_ids_app l l1 l2 : upsert_ids l (l1 ++ l2) = upsert_ids (upsert_ids l l1) l2.
Proof. apply fold_left_app. Qed.
Lemma upsert_ids_old l l1 : (∀ c, c ∈ l1 → cue_id c ∈ l) → upsert_ids l l1 = l.
Proof.
  induction l1 as [|c l1 IH]; intros Hall; [done|]. unfold upsert_ids in *. simpl.
  rewrite bool_decide_true by (apply Hall; left). apply IH. intros x Hx. apply Hall. by right.
Qed.
Lemma upsert_ids_new l1 : ∀ l, NoDup (ids l1) → (∀ c, c ∈ l1 → cue_id c ∉ l) →
  upsert_ids l l1 = reverse (ids l1) ++ l.
Proof.
  unfold upsert_ids, ids. induction l1 as [|c l1 IH]; intros l; [done|].
  rewrite fmap_cons, NoDup_cons. intros [Hc Hn] Hall. simpl.
  rewrite bool_decide_false by (apply Hall; left). rewrite IH; [|done|].
  - by rewrite reverse_cons, <-app_assoc.
  - intros x Hx. rewrite elem_of_cons. intros [E|Hin]; [|by apply (Hall x); [right|]].
    apply Hc. rewrite <-E. apply list_elem_of_fmap. by exists x.
Qed.
Lemma dispatch_order : enters_at_front prev cur →
  upsert_ids (remove_ids (ids prev) removed) changed = ids cur.
Proof.
  intros (new & E & Hnew). set (kept := filter (λ id, id ∈ ids cur) (ids prev)) in *.
  assert (remove_ids (ids prev) removed = kept) as ->.
  { rewrite remove_ids_filter. apply list_filter_iff'. intros id Hid. rewrite removed_elem.
    destruct (decide (id ∈ ids cur)); tauto. }
  pose proof (take_drop (length new) cur) as Hsplit.
  set (fresh := take (length new) cur) in *. set (old := drop (length new) cur) in *.
  assert (ids fresh = new ∧ ids old = kept) as [Hfresh Hold].
  { pose proof (f_equal length E) as El. rewrite length_app in El. unfold ids in El at 1.
    rewrite length_fmap in El. assert (ids fresh ++ ids old = new ++ kept) as E'.
    { unfold ids. rewrite <-fmap_app, Hsplit. exact E. }
    apply app_inj_1 in E'; [done|]. unfold ids, fresh. rewrite length_fmap, length_take. lia. }
  assert (changed = filter (λ c, sd_known_cues s !! cue_id c ≠ Some c) (reverse old) ++ reverse fresh) as ->.
  { unfold changed_cues. rewrite <-Hsplit, reverse_app, filter_app. f_equal. apply filter_all.
    intros c Hc. rewrite elem_of_reverse in Hc. rewrite Hknown, collect_lookup by done.
    destruct (find_cue (cue_id c) prev) as [c'|] eqn:Ef; [|done]. exfalso.
    apply (Hnew (cue_id c)); [rewrite <-Hfresh; apply list_elem_of_fmap; by exists c|].
    apply find_cue_spec in Ef as [Hin' <-]; [|done]. apply list_elem_of_fmap. by exists c'. }
  rewrite upsert_ids_app, (upsert_ids_old kept).
  2:{ intros c [_ Hc]%list_elem_of_filter. rewrite elem_of_reverse in Hc. rewrite <-Hold. apply list_elem_of_fmap. by exists c. }
  rewrite upsert_ids_new.
  - unfold ids at 1. rewrite fmap_reverse, reverse_involutive. by rewrite E, <-Hfresh.
  - unfold ids. rewrite fmap_reverse. rewrite reverse_Permutation. fold (ids fresh). rewrite Hfresh.
    rewrite E in Hcur. by apply NoDup_app in Hcur as [? _].
  - intros c Hc [_ Hin]%list_elem_of_filter. rewrite elem_of_reverse in Hc.
    apply (Hnew (cue_id c)); [rewrite <-Hfresh; apply list_elem_of_fmap; by exists c|done].
Qed.
End Dispatch.

(** ** The renderer along a run *)
Definition window (overlay : SubtitleOverlayRuntimeSnapshot) : list SubtitleCueRuntime :=
  take SUBTITLE_BASELINE_LIMIT (ov_recent_cues overlay).
Record tracks (s : SubtitleDeltaStream) (prev : list SubtitleCueRuntime) : Prop := {
  tk_nodup : NoDup (ids prev);
  tk_length : (length prev ≤ 32)%nat;
  tk_known : sd_known_cues s = collect_by_id prev;
  tk_ordered : sd_ordered_cue_ids s = ids prev;
  tk_stream : sd_stream_id s ≠ "";
  tk_generation : 1 ≤ sd_generation s;
  tk_seq : 0 ≤ sd_seq s
}.
Definition in_sync (s : SubtitleDeltaStream) (prev : list SubtitleCueRuntime) (ix : SubtitleCueIndex)
    : Prop :=
  at_cursor s (collect_by_id prev) (ix_orderedCueIds ix) ix ∧ ix_orderedCueIds ix ≡ₚ ids prev.
Lemma length_omap_le {A B} (f : A → option B) (l : list A) : (length (omap f l) ≤ length l)%nat.
Proof. induction l as [|x l IH]; csimpl; [done|]. destruct (f x); csimpl; lia. Qed.
Lemma listed_ids prev l : NoDup (ids prev) → l ≡ₚ ids prev →
  ∀ id, id ∈ l ↔ is_Some (collect_by_id prev !! id).
Proof.
  intros Hn Hl id. rewrite Hl, collect_lookup by done. destruct (find_cue id prev) as [c|] eqn:E.
  - apply find_cue_spec in E as [Hin <-]; [|done]. split; [eauto|]. intros _.
    apply list_elem_of_fmap. by exists c.
  - apply find_cue_none in E. split; [done|by intros []].
Qed.
Lemma short_ids (l : list SubtitleCueRuntime) : (length l ≤ 32)%nat → (length (ids l) ≤ 32)%nat.
Proof. unfold ids. by rewrite length_fmap. Qed.
Lemma dispatch_applied s prev cur ix :
  tracks s prev → in_sync s prev ix → NoDup (ids cur) → (length cur ≤ 32)%nat →
  sd_seq s + 64 ≤ safe_integer → sd_generation s + 1 ≤ safe_integer →
  let '(s', deltas) := dispatch_deltas s cur in
  sd_stream_id s' = sd_stream_id s ∧ 0 ≤ sd_seq s' ≤ sd_seq s + 64
  ∧ sd_generation s ≤ sd_generation s' ≤ sd_generation s + 1
  ∧ ∃ ix' l', apply_all ix deltas = (Applied, ix') ∧ at_cursor s' (collect_by_id cur) l' ix'
    ∧ l' ≡ₚ ids cur
    ∧ (ix_orderedCueIds ix = ids prev → enters_at_front prev cur → l' = ids cur).
Proof.
  intros [T1 T2 T3 T4 T5 T6 T7] [Hc Hl] Hcur Hlen Hs Hg. unfold dispatch_deltas.
  destruct (bool_decide (cur = []) && negb (bool_decide (sd_ordered_cue_ids s = []))) eqn:E; bool_hyps.
  - subst cur. simpl.
    assert (Z.max (wrapping_add (sd_generation s) 1) 1 = sd_generation s + 1) as Eg.
    { unfold wrapping_add, safe_integer in *. rewrite Z.mod_small; [lia|]. unfold u64_max. lia. }
    change (Z.max (wrapping_add 0 1) 1) with 1. rewrite !Eg. split_and!; try done; try lia.
    destruct Hc as [[G1 G1'] G2 G3 G4 G5]. eexists _, []. unfold applySubtitleDeltaToIndex. simpl.
    rewrite G1, G2. unfold is_empty. rewrite (bool_decide_false (sd_stream_id s = "")) by done.
    rewrite bool_decide_true by done. rewrite Z.eqb_refl. simpl. rewrite !andb_false_r. split_and!; [done|by split|done|done].
  - clear E. pose proof (removed_elem s prev cur T1 Hcur T3 T4) as Hr.
    pose proof (changed_nodup s cur Hcur) as Hchn.
    pose proof (dispatch_map s prev cur T1 Hcur T3 T4) as Hmap.
    pose proof (dispatch_elem s prev cur T1 Hcur T3 T4 (ix_orderedCueIds ix)) as Helem.
    pose proof (dispatch_order s prev cur T1 Hcur T3 T4) as Horder.
    assert (length (removed_cues s (collect_by_id cur)) ≤ 32)%nat as Hrl.
    { unfold removed_cues. etransitivity; [apply length_omap_le|]. etransitivity; [apply length_filter|].
      rewrite length_reverse, T4. by apply short_ids. }
    assert (length (changed_cues s cur) ≤ 32)%nat as Hcl.
    { unfold changed_cues. etransitivity; [apply length_filter|]. by rewrite length_reverse. }
    pose proof (remove_loop (removed_cues s (collect_by_id cur)) s [] ix ix _ _ eq_refl Hc) as H1.
    destruct (fold_left _ (removed_cues _ _) (s, [])) as [s1 deltas1].
    destruct H1 as [-> (ix1 & Ha1 & Hc1)]; [rewrite Hl; by apply short_ids|by apply listed_ids|lia|lia|].
    pose proof (upsert_loop (changed_cues s cur) (ids cur) _ _ ix ix1 _ _ Ha1 Hc1) as H2.
    destruct (fold_left _ (changed_cues _ _) _) as [s2 deltas2].
    destruct H2 as [-> (ix2 & Ha2 & Hc2)]; simpl; try lia.
    + rewrite remove_ids_filter. apply NoDup_filter. by rewrite Hl.
    + intros id. rewrite <-Helem by (intros id'; by rewrite Hl). apply upsert_ids_elem.
    + by apply short_ids.
    + intros id. rewrite remove_ids_filter, list_elem_of_filter, remove_map_lookup.
      destruct (decide (id ∈ ids (removed_cues s (collect_by_id cur)))) as [Hin|Hin].
      * rewrite bool_decide_true by done. split; [by intros []|by intros []].
      * rewrite bool_decide_false by done. rewrite <-(listed_ids prev _ T1 Hl id). tauto.
    + rewrite Hmap in Hc2. split_and!; try done; try lia. eexists ix2, _. split_and!; [done|exact Hc2| |].
      * apply NoDup_Permutation; [|done|].
        { apply upsert_ids_NoDup. rewrite remove_ids_filter. apply NoDup_filter. by rewrite Hl. }
        intros id. apply Helem. intros id'. by rewrite Hl.
      * intros -> He. by apply Horder.
Qed.
Abbreviation dispatch_input := (SubtitleOverlayRuntimeSnapshot * AudioRuntimeSnapshot * Z)%type.
(** Dispatches one after the other, each batch applied by the renderer. *)
Fixpoint follow (s : SubtitleDeltaStream) (ix : SubtitleCueIndex) (l : list dispatch_input)
    : SubtitleDeltaApplyResult * SubtitleDeltaStream * SubtitleCueIndex :=
  match l with
  | [] => (Applied, s, ix)
  | (overlay, audio, now) :: l =>
      let '(batch, s) := prepare_dispatch overlay audio now s in
      match apply_all ix (ba_deltas batch) with
      | (Applied, ix) => follow s ix l
      | (result, ix) => (result, s, ix)
      end
  end.
Definition last_window (first : list SubtitleCueRuntime) (l : list dispatch_input)
    : list SubtitleCueRuntime := default first (last ((λ x, window x.1.1) <$> l)).
Fixpoint fronts (prev : list SubtitleCueRuntime) (l : list dispatch_input) : Prop :=
  match l with
  | [] => True
  | x :: l => enters_at_front prev (window x.1.1) ∧ fronts (window x.1.1) l
  end.
Lemma window_length overlay : (length (window overlay) ≤ 32)%nat.
Proof. unfold window, SUBTITLE_BASELINE_LIMIT. rewrite length_take. lia. Qed.
Lemma prepare_dispatch_deltas overlay audio now s :
  let '(s1, deltas) := dispatch_deltas s (window overlay) in
  let '(batch, s') := prepare_dispatch overlay audio now s in
  ba_deltas batch = deltas ∧ sd_stream_id s' = sd_stream_id s1 ∧ sd_generation s' = sd_generation s1
  ∧ sd_seq s' = sd_seq s1 ∧ sd_known_cues s' = collect_by_id (window overlay)
  ∧ sd_ordered_cue_ids s' = ids (window overlay).
Proof.
  unfold prepare_dispatch. fold (window overlay).
  destruct (dispatch_deltas s (window overlay)) as [s1 deltas]. simpl.
  destruct (_ || _), (negb _); by split_and!.
Qed.
Lemma follow_applied l : ∀ s prev ix,
  tracks s prev → in_sync s prev ix → Forall (λ x, NoDup (ids (window x.1.1))) l →
  sd_seq s + 64 * Z.of_nat (length l) ≤ safe_integer →
  sd_generation s + Z.of_nat (length l) ≤ safe_integer →
  ∃ s' ix', follow s ix l = (Applied, s', ix')
  ∧ tracks s' (last_window prev l) ∧ in_sync s' (last_window prev l) ix'
  ∧ (ix_orderedCueIds ix = ids prev → fronts prev l → ix_orderedCueIds ix' = ids (last_window prev l)).
Proof.
  induction l as [|[[overlay audio] now] l IH]; intros s prev ix Ht Hs Hl Hseq Hgen.
  - exists s, ix. by split_and!.
  - apply Forall_cons in Hl as [Hn Hl]. simpl in Hn, Hseq, Hgen. simpl follow.
    pose proof (prepare_dispatch_deltas overlay audio now s) as Hp.
    pose proof (dispatch_applied s prev (window overlay) ix Ht Hs Hn (window_length overlay)) as Hd.
    destruct (dispatch_deltas s (window overlay)) as [s1 deltas].
    destruct (prepare_dispatch overlay audio now s) as [batch s2].
    destruct Hp as (-> & E1 & E2 & E3 & E4 & E5).
    destruct Hd as (D1 & D2 & D3 & ix' & l' & -> & Hc & Hl' & Ho); [lia|lia|].
    assert (tracks s2 (window overlay)) as Ht2.
    { destruct Ht. split; [done|apply window_length|done|done|congruence|lia|lia]. }
    assert (in_sync s2 (window overlay) ix') as Hs2.
    { destruct Hc as [G1 G2 G3 G4 G5]. split; [|by rewrite G5].
      split; rewrite ?E1, ?E2, ?E3; done. }
    destruct (IH s2 (window overlay) ix' Ht2 Hs2 Hl) as (s' & ix'' & Hf & H1 & H2 & H3); [lia|lia|].
    assert (last_window prev ((overlay, audio, now) :: l) = last_window (window overlay) l) as ->.
    { unfold last_window. rewrite fmap_cons, last_cons. by destruct (last _). }
    exists s', ix''. split_and!; [done..|]. intros Hi [Hfr Hfrs]. apply H3; [|exact Hfrs].
    destruct Hc as [_ _ _ _ ->]. by apply Ho.
Qed.
Lemma baseline_loop l : ∀ m l0, NoDup (l0 ++ ids l) → (∀ id, is_Some (m !! id) → id ∈ l0) →
  fold_left (λ x cue, let '(m, ids) := x in
    if is_Some_b (m !! cue_id cue) then x else (<[cue_id cue := cue]> m, ids ++ [cue_id cue])) l (m, l0)
  = (upsert_map m l, l0 ++ ids l).
Proof.
  induction l as [|c l IH]; intros m l0 Hn Hm; simpl; [by rewrite app_nil_r|].
  assert (is_Some_b (m !! cue_id c) = false) as ->.
  { apply is_Some_b_false. destruct (m !! cue_id c) eqn:E; [|done]. exfalso.
    apply NoDup_app in Hn as (_ & Hd & _). apply (Hd (cue_id c)); [apply Hm; eauto|left]. }
  unfold ids in *. rewrite fmap_cons in Hn. rewrite IH.
  - by rewrite <-app_assoc.
  - by rewrite <-app_assoc.
  - intros id. rewrite elem_of_app. destruct (decide (cue_id c = id)) as [<-|Hne]; [right; left|].
    rewrite lookup_insert_ne by done. intros Hid. left. by apply Hm.
Qed.
Lemma baseline_in_sync s overlay : tracks s (window overlay) →
  let ix := indexSubtitleBaseline (apply_cursor s true overlay) in
  in_sync s (window overlay) ix ∧ ix_orderedCueIds ix = ids (window overlay).
Proof.
  intros [T1 T2 T3 T4 T5 T6 T7]. cbv zeta. unfold indexSubtitleBaseline, apply_cursor. simpl.
  change (take SUBTITLE_BASELINE_LIMIT (ov_recent_cues overlay)) with (window overlay).
  rewrite (take_ge (window overlay)) by exact T2.
  rewrite baseline_loop; [|done|by intros id; rewrite lookup_empty; intros []]. simpl.
  split; [|done]. split; [|done]. by split.
Qed.

(** C29: The renderer follows the store. A renderer that indexes a baseline taken
    right after a dispatch applies every later delta — none is ignored, none
    asks for a resync — and after any number of dispatches of windows with
    distinct cue ids it holds exactly the cues of the store's current window, at
    the stream's cursor; when cues only ever enter the window at the front it
    also shows them in the store's order. *)
Theorem renderer_follows_the_store s0 overlay audio now l :
  let s := (prepare_dispatch overlay audio now s0).2 in
  let index := indexSubtitleBaseline (apply_cursor s true overlay) in
  sd_stream_id s ≠ "" → 1 ≤ sd_generation s → 0 ≤ sd_seq s →
  sd_seq s + 64 * Z.of_nat (length l) ≤ safe_integer →
  sd_generation s + Z.of_nat (length l) ≤ safe_integer →
  NoDup (ids (window overlay)) → Forall (λ x, NoDup (ids (window x.1.1))) l →
  ∃ s' index', follow s index l = (Applied, s', index')
  ∧ ix_cueById index' = collect_by_id (last_window (window overlay) l)
  ∧ ix_orderedCueIds index' ≡ₚ ids (last_window (window overlay) l)
  ∧ ix_generation index' = sd_generation s' ∧ ix_seq index' = sd_seq s'
  ∧ (fronts (window overlay) l →
       ix_orderedCueIds index' = ids (last_window (window overlay) l)).
Proof.
  cbv zeta. intros Hid Hg0 Hs0 Hs Hg Hn Hl.
  pose proof (prepare_dispatch_deltas overlay audio now s0) as Hp.
  destruct (dispatch_deltas s0 (window overlay)) as [s1 deltas].
  destruct (prepare_dispatch overlay audio now s0) as [batch s]. simpl in *.
  destruct Hp as (_ & _ & _ & _ & Hk & Ho).
  assert (tracks s (window overlay)) as Ht by (split; [done|apply window_length|done..]).
  destruct (baseline_in_sync s overlay Ht) as [Hsync Hord].
  destruct (follow_applied l s (window overlay) _ Ht Hsync Hl Hs Hg) as (s' & ix' & Hf & _ & [Hc Hp] & Hfr).
  exists s', ix'. destruct Hc as [_ C2 C3 C4 _]. split_and!; [done..|]. by apply Hfr.
Qed.

(** ** Instances, and where the renderer diverges *)
Definition plain_cue (n : nat) : SubtitleCueRuntime :=
  mk_cue ("cue-" +:+ pretty n) (Some 1) (Some (Z.of_nat n)) "inbound" "source" "" [] "" "unix:1" "unix:2"
    true false (Some Pending).
Definition plain_overlay (l : list nat) : SubtitleOverlayRuntimeSnapshot :=
  empty_overlay <| ov_recent_cues := plain_cue <$> l |>.
Definition idle_route : AudioRouteRuntimeSnapshot := mk_route "idle" false None None.
Definition idle_audio : AudioRuntimeSnapshot :=
  mk_audio 0 "preview" idle_route idle_route empty_overlay "idle" None "idle" None None.
Definition dispatch_of (l : list nat) : dispatch_input := (plain_overlay l, idle_audio, 0).
Lemma renderer_follows_the_store_witness :
  let s := (prepare_dispatch (plain_overlay [2; 1]%nat) idle_audio 0 (new_stream "stream")).2 in
  let index := indexSubtitleBaseline (apply_cursor s true (plain_overlay [2; 1]%nat)) in
  let run := [dispatch_of [3; 2; 1]; dispatch_of [4; 3; 1]; dispatch_of []; dispatch_of [5]]%nat in
  ∃ s' index', follow s index run = (Applied, s', index')
  ∧ ix_cueById index' = {[ "cue-5" := plain_cue 5 ]} ∧ ix_generation index' = 2.
Proof.
  intros s index run.
  destruct (renderer_follows_the_store (new_stream "stream") (plain_overlay [2; 1]%nat) idle_audio 0 run)
    as (s' & index' & Hf & Hc & _ & Hg & _);
    [done|done|done|by vm_compute|by vm_compute|by vm_compute; repeat constructor; vm_compute; set_solver| |].
  { repeat constructor; vm_compute; set_solver. }
  exists s', index'. split_and!; [exact Hf|rewrite Hc; by vm_compute|].
  vm_compute in Hf. by injection Hf as <- <-.
Defined.

(** A cue older than the window re-enters it when a newer cue is discarded; the
    renderer takes it for new and shows it first. *)
Definition newest_first (n : nat) : list nat := reverse (seq 1 n).
Lemma reentering_cue_is_shown_first :
  let s := (prepare_dispatch (plain_overlay (newest_first 33)) idle_audio 0 (new_stream "stream")).2 in
  let index := indexSubtitleBaseline (apply_cursor s true (plain_overlay (newest_first 33))) in
  let run := [dispatch_of (filter (λ n, n ≠ 20%nat) (newest_first 33))] in
  let '(result, _, index') := follow s index run in
  result = Applied
  ∧ head (ix_orderedCueIds index') = Some "cue-1"
  ∧ last (ids (last_window [] run)) = Some "cue-1".
Proof. vm_compute. by split_and!. Qed.
(** A cue a baseline showed before any dispatch announced it, and that is
    discarded before the next dispatch, is never removed from the renderer. *)
Lemma unannounced_cue_is_never_removed :
  let s := (prepare_dispatch (plain_overlay [1]%nat) idle_audio 0 (new_stream "stream")).2 in
  let index := indexSubtitleBaseline (apply_cursor s true (plain_overlay [2; 1]%nat)) in
  let run := [dispatch_of [1]; dispatch_of [3; 1]]%nat in
  let '(result, _, index') := follow s index run in
  result = Applied ∧ ix_orderedCueIds index' = ["cue-3"; "cue-2"; "cue-1"]
  ∧ ids (last_window [] run) = ["cue-3"; "cue-1"].
Proof. vm_compute. by split_and!. Qed.
