(* ===== verification/BridgeDelivery.v ===== *)
(** * Delivery of the Bridge's playback statuses to the desktop

    The Bridge keeps its statuses in an outbox until the desktop acknowledges
    them; the desktop applies each once. Models the two ends and the pipe:

    - [write_pending_translation_statuses] of
      [apps/bridge-service-native/src/windows/playback.rs] over
      [BridgeCues.StatusOutbox];
    - [audio/state/bridge_translation_receipts.rs], the dispositions and source
      identities of [audio/engine/bridge_source_io.rs] and
      [handle_bridge_translation_status] of [audio/engine/bridge_playback_ack.rs]
      (paths below [apps/desktop/src-tauri/src/]).

    The desktop's handler uses the desktop's other ledgers as they are:
    [PlaybackQuiescence] (with its guards), [WatchTerminal] and the owner of
    [TranslatedPcm]. It is cut where it takes a lock, waits or writes the pipe:
    [handle_step] runs one section. [move] is one step of the whole: any number
    of source-pipe connections, each of which may break at any time, and the
    other threads of the desktop. *)
From S2P Require Import Prelude RustStr FifoMemory WatchTerminal PlaybackQuiescence TranslatedPcm SpeechRoute BridgeProtocol BridgeCues.
Import StatusOutbox.

(** ** Receipts ([BridgeTranslationStatusReceipts]) *)
Definition BRIDGE_TRANSLATION_STATUS_RECEIPT_CAPACITY : nat := Z.to_nat 4096.
Record BridgeTranslationStatusReceipts := mk_receipts { rc_order : list string; rc_ids : gset string }.
Fixpoint expire (ids : gset string) (order : list string) : gset string * list string :=
  match order with
  | [] => (ids, order)
  | expired :: rest =>
      if (BRIDGE_TRANSLATION_STATUS_RECEIPT_CAPACITY <? length order)%nat
      then expire (ids ∖ {[expired]}) rest else (ids, order)
  end.
Definition insert_receipt (status_id : string) (r : BridgeTranslationStatusReceipts)
  : bool * BridgeTranslationStatusReceipts :=
  if is_blank status_id || bool_decide (status_id ∈ rc_ids r) then (false, r)
  else let '(ids, order) := expire ({[status_id]} ∪ rc_ids r) (rc_order r ++ [status_id]) in
       (true, mk_receipts order ids).
Definition accept_bridge_translation_status_once (status_id : string)
    (r : BridgeTranslationStatusReceipts) : bool * BridgeTranslationStatusReceipts :=
  if is_blank status_id then (false, r) else insert_receipt status_id r.

Inductive BridgeTranslationStatusDisposition := Apply | DuplicateReplay | SessionMismatch.
#[export] Instance disposition_eq_dec : EqDecision BridgeTranslationStatusDisposition.
Proof. solve_decision. Defined.
Definition bridge_translation_status_disposition_for_authority (status_id : string)
    (authority_matches : bool) (r : BridgeTranslationStatusReceipts)
  : BridgeTranslationStatusDisposition * BridgeTranslationStatusReceipts :=
  if negb authority_matches then (SessionMismatch, r)
  else let '(accepted, r) := accept_bridge_translation_status_once status_id r in
       (if accepted then Apply else DuplicateReplay, r).

(** ** Source envelopes *)
Record BridgeSourceFrameIdentity := mk_identity {
  bi_bridge_process_id : Z; bi_bridge_instance_id : string; bi_session_id : string;
  bi_source_generation : Z; bi_source_generation_token : string;
  bi_frame_timestamp_ms : Z; bi_read_timestamp_ms : Z
}.
#[export] Instance runtime_settable : Settable TranslatedPcm.BridgeRuntimeSnapshot := λ s,
  mk_runtime (br_resolved_physical_playback_device_id s) (br_physical_playback_status s)
    (br_source_generation s) (br_playback_owner_generation s) (TranslatedPcm.br_session_id s)
    (br_bridge_instance_id s) (br_source_generation_token s).
(** The fields of the desktop's [BridgeRuntimeSnapshot] the source worker reads
    and writes, beside those of [TranslatedPcm]. *)
Record SourceView := mk_view {
  sv_runtime : TranslatedPcm.BridgeRuntimeSnapshot; sv_bridge_process_id : option Z;
  sv_source_subscriber_active : bool; sv_source_worker_phase : string;
  sv_source_worker_last_progress_timestamp_ms : option Z; sv_last_frame_timestamp_ms : option Z
}.
#[export] Instance view_settable : Settable SourceView := λ v,
  mk_view (sv_runtime v) (sv_bridge_process_id v) (sv_source_subscriber_active v)
    (sv_source_worker_phase v) (sv_source_worker_last_progress_timestamp_ms v)
    (sv_last_frame_timestamp_ms v).

Inductive BridgeSourceIdentityDisposition := Current | Rebind | Reject (reason : string).
Definition shown (o : option string) : string := default "none" o.
Definition bridge_source_identity_disposition (v : SourceView) (identity : BridgeSourceFrameIdentity)
  : BridgeSourceIdentityDisposition :=
  let current := sv_runtime v in
  if negb (bool_decide (sv_bridge_process_id v = Some (bi_bridge_process_id identity)))
  then Reject ("bridge-process-mismatch expected=" +:+ shown (show_uint <$> sv_bridge_process_id v)
         +:+ " actual=" +:+ show_uint (bi_bridge_process_id identity))
  else if negb (bool_decide (br_bridge_instance_id current = Some (bi_bridge_instance_id identity)))
  then Reject ("bridge-instance-mismatch expected=" +:+ shown (br_bridge_instance_id current)
         +:+ " actual=" +:+ bi_bridge_instance_id identity)
  else if negb (bool_decide (TranslatedPcm.br_session_id current = Some (bi_session_id identity)))
  then Reject ("bridge-session-mismatch expected=" +:+ shown (TranslatedPcm.br_session_id current)
         +:+ " actual=" +:+ bi_session_id identity)
  else if negb (is_Some_b (br_source_generation_token current))
  then Reject "bridge-source-incarnation-revoked"
  else if negb (eqs (bi_source_generation_token identity)
            (generation_token (bi_bridge_instance_id identity) (bi_session_id identity)
               (bi_source_generation identity)))
  then Reject "source-generation-token-invalid"
  else if bi_source_generation identity <? br_source_generation current
  then Reject ("stale-source-generation expectedAtLeast=" +:+ show_uint (br_source_generation current)
         +:+ " actual=" +:+ show_uint (bi_source_generation identity))
  else if bi_source_generation identity =? br_source_generation current
  then if bool_decide (br_source_generation_token current = Some (bi_source_generation_token identity))
       then Current else Reject "source-generation-token-mismatch"
  else Rebind.

Definition apply_bridge_source_identity_observation (identity : BridgeSourceFrameIdentity)
    (disposition : BridgeSourceIdentityDisposition) (is_pcm_frame : bool) (v : SourceView)
  : bool * SourceView :=
  match disposition with
  | Reject _ => (false, v)
  | _ =>
      let v := match disposition with
               | Rebind => v <| sv_runtime ::= (λ s, s
                   <| br_source_generation := bi_source_generation identity |>
                   <| br_source_generation_token := Some (bi_source_generation_token identity) |>) |>
               | _ => v
               end in
      let v := v <| sv_source_subscriber_active := true |> in
      (true,
       if is_pcm_frame
       then v <| sv_source_worker_phase := "source-frame-delivered" |>
              <| sv_source_worker_last_progress_timestamp_ms ::= (λ t,
                   Some (Z.max (default 0 t) (bi_read_timestamp_ms identity))) |>
              <| sv_last_frame_timestamp_ms ::= (λ t,
                   Some (Z.max (default 0 t) (bi_frame_timestamp_ms identity))) |>
       else v)
  end.
(** [accept_bridge_source_identity], under the Bridge state lock. *)
Definition accept_bridge_source_identity (identity : BridgeSourceFrameIdentity) (is_pcm_frame : bool)
    (v : SourceView) : bool * SourceView :=
  apply_bridge_source_identity_observation identity (bridge_source_identity_disposition v identity)
    is_pcm_frame v.

(** ** The desktop's handler *)
Definition status_str (kind : TranslationPlaybackStatusKind) : string :=
  match kind with
  | Queued => "queued" | Started => "started" | Completed => "completed"
  | StaleDropped => "stale-dropped" | RouteFailed => "route-failed"
  end.
(** The authority a status carries, and the owner's. *)
Definition authority_of (e : TranslationPlaybackStatusEvent) : TranslationPlaybackAuthority :=
  PlaybackQuiescence.mk_authority (st_session_id e) (st_bridge_instance_id e) (st_source_generation e)
    (st_source_generation_token e) (st_playback_owner_generation e) (st_physical_playback_device_id e).
Definition playback_authority (o : BridgeTranslationSinkOwner) : TranslationPlaybackAuthority :=
  PlaybackQuiescence.mk_authority (ow_session_id o) (ow_bridge_instance_id o) (ow_source_generation o)
    (ow_source_generation_token o) (ow_playback_owner_generation o) (ow_physical_playback_device_id o).

(** [dt_issues] is the session report; [dt_history] (not a field of the code)
    remembers what the receipts accepted, [dt_refused] what was acknowledged for
    another authority. *)
Record Desktop := mk_desktop {
  dt_receipts : BridgeTranslationStatusReceipts; dt_view : SourceView;
  dt_route : SpeechRoute.BridgeRuntimeSnapshot; dt_monitor_playback_state : string;
  dt_guards : Guards; dt_watch : WatchLifecycle; dt_issues : list (string * string);
  dt_recorded : list TranslationPlaybackStatusEvent;
  dt_history : list TranslationPlaybackStatusEvent; dt_refused : list TranslationPlaybackStatusEvent
}.
#[export] Instance desktop_settable : Settable Desktop := λ d,
  mk_desktop (dt_receipts d) (dt_view d) (dt_route d) (dt_monitor_playback_state d) (dt_guards d)
    (dt_watch d) (dt_issues d) (dt_recorded d) (dt_history d) (dt_refused d).

Definition record_bridge_translation_status (e : TranslationPlaybackStatusEvent) : M Desktop unit :=
  modify (λ d, d <| dt_recorded ::= (λ l, l ++ [e]) |>) ;;;
  match st_playback_status e with
  | RouteFailed =>
      let stable_code := default "bridge.translation-playback-failed" (st_error_code e) in
      modify (λ d, d <| dt_issues ::= (λ l, l ++ [("bridge-translation-playback-failed", "error")]) |>
        <| dt_monitor_playback_state := "blocked" |>
        <| dt_route ::= (λ r, reconcile_bridge_snapshot (r <| br_last_error_code := Some stable_code |>)) |>)
  | StaleDropped =>
      modify (λ d, d <| dt_issues ::= (λ l, l ++ [("bridge-translation-stale-dropped", "warning")]) |>)
  | _ => ret tt
  end.

(** Where a handler stands. *)
Inductive Handling :=
| TakeBarrier (e : TranslationPlaybackStatusEvent)
| ReadSnapshot (e : TranslationPlaybackStatusEvent)
| MatchCue (e : TranslationPlaybackStatusEvent) (owner_matches : bool)
| Dispose (e : TranslationPlaybackStatusEvent) (authority_matches : bool)
| RecordStatus (e : TranslationPlaybackStatusEvent)
| WriteAck (e : TranslationPlaybackStatusEvent) (d : BridgeTranslationStatusDisposition)
| RecheckCue (e : TranslationPlaybackStatusEvent)
| RecordRendererAck (e : TranslationPlaybackStatusEvent)
| Observe (e : TranslationPlaybackStatusEvent)
| Release (e : TranslationPlaybackStatusEvent) (handled : bool).

Section Handler.
Context (values : gmap string BridgePlaybackCue → list BridgePlaybackCue).

Definition cue_matches (e : TranslationPlaybackStatusEvent) (d : Desktop) : bool :=
  bridge_playback_cue_matches_owner (st_cue_id e) (authority_of e) (gd_state (dt_guards d)).
Definition on_watch {A} (m : M WatchLifecycle A) : M Desktop (outcome A) := λ d,
  let '(o, w) := m (dt_watch d) in (Ok o, d <| dt_watch := w |>).

(** One section of the handler: where it goes on, or what it returned. A wait for
    the restart barrier stays where it is. *)
Definition handle_step (ack_written : bool) (now1 now2 : Z) (h : Handling)
  : M Desktop (Handling + bool) :=
  match h with
  | TakeBarrier e =>
      let* g := gets dt_guards in
      match exec_quiescence values QAck g with
      | Some g => modify (λ d, d <| dt_guards := g |>) ;;; ret (inl (ReadSnapshot e))
      | None => ret (inl (TakeBarrier e))
      end
  | ReadSnapshot e =>
      let* view := gets dt_view in
      ret (inl (MatchCue e
        match from_snapshot (sv_runtime view) with
        | Some owner => bool_decide (playback_authority owner = authority_of e)
        | None => false
        end))
  | MatchCue e owner_matches =>
      let* matches := gets (cue_matches e) in ret (inl (Dispose e (owner_matches && matches)))
  | Dispose e authority_matches =>
      let* receipts := gets dt_receipts in
      let '(disposition, receipts) :=
        bridge_translation_status_disposition_for_authority (st_status_id e) authority_matches receipts in
      modify (λ d, d <| dt_receipts := receipts |>
        <| dt_history ::= (λ l, if bool_decide (disposition = Apply) then l ++ [e] else l) |>
        <| dt_refused ::= (λ l, if bool_decide (disposition = SessionMismatch) then l ++ [e] else l) |>) ;;;
      ret (inl (if bool_decide (disposition = Apply) then RecordStatus e else WriteAck e disposition))
  | RecordStatus e => record_bridge_translation_status e ;;; ret (inl (WriteAck e Apply))
  | WriteAck e disposition =>
      ret (inl (if negb ack_written then Release e false
                else if bool_decide (disposition = Apply) then RecheckCue e else Release e true))
  | RecheckCue e =>
      let* matches := gets (cue_matches e) in
      ret (inl (if negb matches then Release e false
                else if bool_decide (st_playback_status e = Completed) then RecordRendererAck e
                else Observe e))
  | RecordRendererAck e =>
      let* recorded := on_watch (record_renderer_ack (st_cue_id e) "bridge-translation-status-ack"
                                   (st_status_id e) now1 now2) in
      ret (inl (match recorded with Ok _ => Observe e | Err _ => Release e false end))
  | Observe e =>
      let status := status_str (st_playback_status e) in
      let* g := gets dt_guards in
      let observed := (observe_bridge_playback_status_for_owner values (st_cue_id e) status
                         (authority_of e) (gd_state g)).1 in
      match exec_quiescence values (QStatusForOwner (st_cue_id e) status (authority_of e)) g with
      | Some g => modify (λ d, d <| dt_guards := g |>)
      | None => ret tt
      end ;;;
      ret (inl (Release e observed))
  | Release e handled =>
      let* g := gets dt_guards in
      match exec_quiescence values QDropAck g with
      | Some g => modify (λ d, d <| dt_guards := g |>)
      | None => ret tt
      end ;;;
      ret (inr handled)
  end.

(** The handler on its own: the barrier is down and no other thread interferes.
    It has ten sections at most. *)
Fixpoint handle (fuel : nat) (ack_written : bool) (now1 now2 : Z) (h : Handling) : M Desktop bool :=
  match fuel with
  | O => fail "handler has more sections"
  | S fuel =>
      let* next := handle_step ack_written now1 now2 h in
      match next with inl h => handle fuel ack_written now1 now2 h | inr handled => ret handled end
  end.
Definition handle_bridge_translation_status (ack_written : bool) (now1 now2 : Z)
    (e : TranslationPlaybackStatusEvent) : M Desktop bool :=
  handle 10 ack_written now1 now2 (TakeBarrier e).

(** ** The Bridge's loop *)
(** [exchange] writes the status and reads the answer; [None] is a pipe error.
    The loop ends when the outbox is empty; a turn that goes on removes one. *)
Inductive Delivered := AllDelivered | PipeFailed | AckMismatch.
Fixpoint write_pending_translation_statuses {S} (fuel : nat)
    (exchange : TranslationPlaybackStatusEvent → S → option TranslationPlaybackStatusAck * S)
    (o : TranslationStatusOutbox) (s : S) : option (Delivered * TranslationStatusOutbox * S) :=
  match front o with
  | None => Some (AllDelivered, o, s)
  | Some event =>
      match fuel with
      | O => None
      | S fuel =>
          let '(answer, s) := exchange event s in
          match answer with
          | None => Some (PipeFailed, o, s)
          | Some ack =>
              let '(acknowledged, o) := acknowledge ack o in
              if acknowledged then write_pending_translation_statuses fuel exchange o s
              else Some (AckMismatch, o, s)
          end
      end
  end.

(** ** Both ends and the pipes between them *)
(** A source-pipe connection: the event the Bridge waits an answer for, what is
    in the pipe each way, and what the desktop's worker is doing. *)
Record Link := mk_link {
  lk_open : bool; lk_awaits : option TranslationPlaybackStatusEvent;
  lk_events : list TranslationPlaybackStatusEvent; lk_handling : option Handling;
  lk_acks : list TranslationPlaybackStatusAck
}.
#[export] Instance link_settable : Settable Link := λ l,
  mk_link (lk_open l) (lk_awaits l) (lk_events l) (lk_handling l) (lk_acks l).
Definition new_link : Link := mk_link true None [] None [].

(** [sy_emitted] and [sy_removed] remember what entered and left the outbox;
    [sy_other_acks] counts the acknowledgement guards of other threads. *)
Record System := mk_system {
  sy_outbox : TranslationStatusOutbox; sy_desktop : Desktop; sy_links : list Link;
  sy_other_acks : Z; sy_emitted : list TranslationPlaybackStatusEvent;
  sy_removed : list TranslationPlaybackStatusEvent
}.
#[export] Instance delivery_settable : Settable System := λ s,
  mk_system (sy_outbox s) (sy_desktop s) (sy_links s) (sy_other_acks s) (sy_emitted s) (sy_removed s).

Inductive Label :=
| Emits (event : TranslationPlaybackStatusEvent)
| Connects
| Sends (i : nat) | Reads (i : nat)
| Handles (i : nat) (ack_written : bool) (now1 now2 : Z)
| AckArrives (i : nat)
| Closes (i : nat)
| QuiescenceMoves (l : quiescence_label)
| ViewMoves (v : SourceView)
| WatchMoves (w : WatchLifecycle).

Definition set_link (i : nat) (l : Link) (s : System) : System := s <| sy_links ::= <[i := l]> |>.
(** What the desktop writes at this section. *)
Definition ack_written_at (h : Handling) (ack_written : bool) : list TranslationPlaybackStatusAck :=
  match h with WriteAck e _ => if ack_written then [ack_of e] else [] | _ => [] end.

Definition move (l : Label) (s : System) : option System :=
  match l with
  | Emits event =>
      match next_status_id (sy_outbox s) with
      | Some (status_id, outbox) =>
          if eqs (st_status_id event) status_id
          then Some (s <| sy_outbox := push event outbox |> <| sy_emitted ::= (λ l, l ++ [event]) |>)
          else None
      | None => None
      end
  | Connects => Some (s <| sy_links ::= (λ l, l ++ [new_link]) |>)
  | Sends i =>
      match sy_links s !! i, front (sy_outbox s) with
      | Some link, Some event =>
          if lk_open link && negb (is_Some_b (lk_awaits link))
          then Some (set_link i (link <| lk_awaits := Some event |>
                                      <| lk_events ::= (λ l, l ++ [event]) |>) s)
          else None
      | _, _ => None
      end
  | Reads i =>
      match sy_links s !! i with
      | Some link =>
          match lk_handling link, lk_events link with
          | None, event :: rest =>
              if is_blank (st_status_id event)
              then Some (set_link i (link <| lk_events := rest |> <| lk_open := false |>) s)
              else Some (set_link i (link <| lk_events := rest |>
                                          <| lk_handling := Some (TakeBarrier event) |>) s)
          | _, _ => None
          end
      | None => None
      end
  | Handles i ack_written now1 now2 =>
      match sy_links s !! i with
      | Some link =>
          match lk_handling link with
          | Some h =>
              match handle_step ack_written now1 now2 h (sy_desktop s) with
              | (Ok next, d) =>
                  let link := link <| lk_acks ::= (λ l, l ++ ack_written_at h ack_written) |> in
                  Some (set_link i
                    match next with
                    | inl h => link <| lk_handling := Some h |>
                    | inr handled => link <| lk_handling := None |>
                                          <| lk_open ::= (λ o, o && handled) |>
                    end (s <| sy_desktop := d |>))
              | (Err _, _) => None
              end
          | None => None
          end
      | None => None
      end
  | AckArrives i =>
      match sy_links s !! i with
      | Some link =>
          match lk_open link, lk_awaits link, lk_acks link with
          | true, Some event, ack :: rest =>
              let link := link <| lk_acks := rest |> in
              if is_blank (sa_status_id ack) then Some (set_link i (link <| lk_open := false |>) s)
              else
              let '(acknowledged, outbox) := acknowledge ack (sy_outbox s) in
              let removed := if acknowledged then take 1 (ob_pending (sy_outbox s)) else [] in
              Some (set_link i (if acknowledged then link <| lk_awaits := None |>
                                else link <| lk_open := false |>)
                      (s <| sy_outbox := outbox |> <| sy_removed ::= (λ l, l ++ removed) |>))
          | _, _, _ => None
          end
      | None => None
      end
  | Closes i =>
      match sy_links s !! i with
      | Some link => Some (set_link i (link <| lk_open := false |>) s)
      | None => None
      end
  | QuiescenceMoves l =>
      let own := match l with QAck => 1 | QDropAck => -1 | _ => 0 end in
      if sy_other_acks s + own <? 0 then None
      else
      match exec_quiescence values l (dt_guards (sy_desktop s)) with
      | Some g => Some (s <| sy_desktop ::= (λ d, d <| dt_guards := g |>) |>
                          <| sy_other_acks ::= (λ n, n + own) |>)
      | None => None
      end
  | ViewMoves v => Some (s <| sy_desktop ::= (λ d, d <| dt_view := v |>) |>)
  | WatchMoves w => Some (s <| sy_desktop ::= (λ d, d <| dt_watch := w |>) |>)
  end.
Definition delivery_step (s : System) (l : Label) (s' : System) : Prop :=
  match l with QuiescenceMoves l => label_ok l | _ => True end ∧ move l s = Some s'.
Definition delivery_initial (s : System) : Prop :=
  ob_pending (sy_outbox s) = [] ∧ 0 ≤ next_sequence (sy_outbox s)
  ∧ dt_receipts (sy_desktop s) = mk_receipts [] ∅ ∧ dt_guards (sy_desktop s) = initial_guards
  ∧ dt_history (sy_desktop s) = [] ∧ dt_refused (sy_desktop s) = []
  ∧ sy_links s = [] ∧ sy_other_acks s = 0 ∧ sy_emitted s = [] ∧ sy_removed s = [].
Definition delivery_reachable : System → Prop := reachable delivery_initial delivery_step.
End Handler.
