(* ===== verification/BridgeDeliveryTheorems.v ===== *)
(** * What the delivery of the Bridge's statuses guarantees

    Invariants of [BridgeDelivery.move] in every interleaving of connections,
    failures and other threads; the effect of one handled status on every
    branch; and the status that is lost when its acknowledgement is not written. *)
From S2P Require Import Prelude RustStr FifoMemory WatchTerminal PlaybackQuiescence PlaybackQuiescenceTheorems TranslatedPcm SpeechRoute BridgeProtocol BridgeCues BridgeDelivery.
Import StatusOutbox.

Abbreviation Event := TranslationPlaybackStatusEvent.
Abbreviation capacity := BRIDGE_TRANSLATION_STATUS_RECEIPT_CAPACITY.

(** ** Status ids *)
#[local] Instance show_uint_inj_nonneg : ∀ m n : N, Inj eq eq (λ n : N, show_uint (Z.of_N n)).
Proof. intros _ _ m n H. unfold show_uint in H. rewrite !N2Z.id in H. by apply pretty_N_inj. Qed.
Lemma status_id_inj producer m n :
  0 ≤ m → 0 ≤ n → status_id_text producer m = status_id_text producer n → m = n.
Proof.
  intros Hm Hn H. unfold status_id_text in H. apply (inj (String.append _)) in H.
  apply (inj (String.append _)), (inj (String.append _)) in H. unfold show_uint in H.
  apply pretty_N_inj in H. lia.
Qed.
Definition numbered (producer : string) (first : Z) (l : list Event) : Prop :=
  st_status_id <$> l = status_id_text producer <$> seqZ first (Z.of_nat (length l)).
Lemma numbered_unique producer first l i j e e' :
  0 ≤ first → numbered producer first l → l !! i = Some e → l !! j = Some e' →
  st_status_id e = st_status_id e' → i = j.
Proof.
  intros Hf Hl Hi Hj He.
  assert (∀ k x, l !! k = Some x → st_status_id x = status_id_text producer (first + Z.of_nat k)) as Hk.
  { intros k x Hx. pose proof (lookup_lt_Some _ _ _ Hx).
    assert (Hs : (st_status_id <$> l) !! k = Some (st_status_id x)) by (by rewrite list_lookup_fmap, Hx).
    rewrite Hl, list_lookup_fmap, lookup_seqZ_lt in Hs by lia. by injection Hs as <-. }
  rewrite (Hk i e Hi), (Hk j e' Hj) in He. apply status_id_inj in He; lia.
Qed.
Lemma numbered_elem producer first l e e' :
  0 ≤ first → numbered producer first l → e ∈ l → e' ∈ l → st_status_id e = st_status_id e' → e = e'.
Proof.
  intros Hf Hl [i Hi]%list_elem_of_lookup [j Hj]%list_elem_of_lookup He.
  rewrite (numbered_unique producer first l i j e e') in Hi by done. congruence.
Qed.
Lemma numbered_event_snoc producer first l e :
  numbered producer first l → st_status_id e = status_id_text producer (first + Z.of_nat (length l)) →
  numbered producer first (l ++ [e]).
Proof.
  unfold numbered. intros Hl He. rewrite fmap_app, Hl, length_app. simpl.
  replace (Z.of_nat (length l + 1)) with (Z.of_nat (length l) + 1) by lia.
  rewrite seqZ_app by lia. rewrite fmap_app. f_equal. rewrite (seqZ_cons _ 1) by lia. simpl. by rewrite He.
Qed.

(** ** Receipts *)
Lemma expire_is_evict_to order ids : expire ids order = evict_to capacity ids order.
Proof.
  revert ids. induction order as [|x order IH]; intros ids; cbn [expire evict_to]; [done|].
  destruct (_ <? _)%nat; [apply IH|done].
Qed.
(** What the receipts hold of a history of accepted ids. *)
Definition receipts_hold (r : BridgeTranslationStatusReceipts) (history : list string) : Prop :=
  holds_last capacity (rc_ids r) (rc_order r) history ∧ spaced capacity history.
Lemma accept_holds id r history :
  receipts_hold r history →
  let '(accepted, r') := accept_bridge_translation_status_once id r in
  accepted = negb (is_blank id) && negb (bool_decide (id ∈ rc_ids r))
  ∧ receipts_hold r' (if accepted then history ++ [id] else history).
Proof.
  intros [Hh Hs]. unfold accept_bridge_translation_status_once, insert_receipt.
  destruct (is_blank id); simpl; [done|]. case_bool_decide as Hin; simpl; [done|].
  pose proof (holds_last_spaced _ _ _ _ _ Hh Hs Hin) as Hs'.
  pose proof (evict_to_holds _ _ _ _ _ Hh Hs') as He. rewrite expire_is_evict_to.
  destruct (evict_to _ _ _) as [ids order]. by split_and!.
Qed.
Lemma receipts_elem r history id : receipts_hold r history → id ∈ rc_ids r → id ∈ history.
Proof.
  intros [[Ho Hi] _] H. rewrite Hi, Ho, elem_of_list_to_set in H.
  apply elem_of_last_n in H as (i & Hx & _). by eapply list_elem_of_lookup_2.
Qed.

(** ** One section of the handler *)
Definition event_of (h : Handling) : Event :=
  match h with
  | TakeBarrier e | ReadSnapshot e | MatchCue e _ | Dispose e _ | RecordStatus e | WriteAck e _
  | RecheckCue e | RecordRendererAck e | Observe e | Release e _ => e
  end.
(** The receipts have been asked about the event. *)
Definition disposed (h : Handling) : bool :=
  match h with TakeBarrier _ | ReadSnapshot _ | MatchCue _ _ | Dispose _ _ => false | _ => true end.
(** The handler holds its acknowledgement guard. *)
Definition guarded (h : Handling) : bool := match h with TakeBarrier _ => false | _ => true end.
Definition settled (d : Desktop) (e : Event) : Prop := e ∈ dt_history d ∨ e ∈ dt_refused d.
Definition ledger (d : Desktop) := (dt_receipts d, dt_history d, dt_refused d).

Section Delivery.
Context (values : gmap string BridgePlaybackCue → list BridgePlaybackCue).
Abbreviation hstep := (handle_step values).
Abbreviation qstep := (quiescence_step values).

Lemma record_ledger e d : ledger (record_bridge_translation_status e d).2 = ledger d
  ∧ dt_guards (record_bridge_translation_status e d).2 = dt_guards d
  ∧ is_ok (record_bridge_translation_status e d).1 = true.
Proof. unfold record_bridge_translation_status, bind. simpl. by destruct (st_playback_status e). Qed.

(** What a section does to the ledger of a history whose ids are known. *)
Definition section_ok (emitted : list Event) (e : Event) (d : Desktop) (next : Handling + bool)
    (d' : Desktop) : Prop :=
  receipts_hold (dt_receipts d') (st_status_id <$> dt_history d')
  ∧ (∀ x, settled d x → settled d' x)
  ∧ (∀ x, settled d' x → settled d x ∨ x = e)
  ∧ dt_history d' ⊆ emitted
  ∧ match next with
    | inl h => event_of h = e ∧ (disposed h = true → settled d' e)
    | inr _ => True
    end.
Lemma handle_step_ledger written n1 n2 h d (emitted : list Event) :
  receipts_hold (dt_receipts d) (st_status_id <$> dt_history d) →
  (∀ e e', e ∈ emitted → e' ∈ emitted → st_status_id e = st_status_id e' → e = e') →
  dt_history d ⊆ emitted → event_of h ∈ emitted → is_blank (st_status_id (event_of h)) = false →
  (disposed h = true → settled d (event_of h)) →
  match hstep written n1 n2 h d with
  | (Ok next, d') => section_ok emitted (event_of h) d next d'
  | (Err _, _) => False
  end.
Proof.
  intros Hr Hu Hh He Hb Hd.
  assert (Hwith : ∀ d' next, ledger d' = ledger d →
    match next with
    | inl h' => event_of h' = event_of h ∧ (disposed h' = true → disposed h = true)
    | inr _ => True
    end → section_ok emitted (event_of h) d next d').
  { unfold ledger, section_ok, settled. intros d' next [= -> -> ->] Hn.
    split_and!; [done|auto|auto|done|]. destruct next as [h'|]; [|done]. destruct Hn as [? Hn].
    split; [done|]. intros Hd'. by apply Hd, Hn. }
  destruct h; cbn [handle_step]; unfold bind, gets, modify, ret, on_watch; cbn [event_of disposed] in *.
  - destruct (exec_quiescence _ _ _); by apply Hwith.
  - by apply Hwith.
  - by apply Hwith.
  - pose proof (accept_holds (st_status_id e) _ _ Hr) as Ha.
    unfold bridge_translation_status_disposition_for_authority. destruct authority_matches; simpl.
    + destruct (accept_bridge_translation_status_once _ _) as [accepted r] eqn:Eacc.
      destruct Ha as [Hacc Ha]. destruct accepted; simpl.
      * unfold section_ok, settled; simpl. rewrite fmap_app. split_and!; [done|..].
        -- intros x [?|?]; rewrite elem_of_app; auto.
        -- intros x. rewrite elem_of_app, list_elem_of_singleton. tauto.
        -- intros x [?|Hx%list_elem_of_singleton]%elem_of_app; [auto|by subst].
        -- done.
        -- intros _. left. rewrite elem_of_app, list_elem_of_singleton. auto.
      * split_and!; [done|auto|auto|done|done|]. intros _. left. simpl.
        rewrite Hb in Hacc. simpl in Hacc. symmetry in Hacc. apply negb_false_iff, bool_decide_eq_true in Hacc.
        pose proof (receipts_elem _ _ _ Hr Hacc) as Hin.
        apply list_elem_of_fmap in Hin as (e' & Hid & Hin). rewrite (Hu e e'); auto.
    + unfold section_ok, settled; simpl. split_and!; [done|..].
      * intros x [?|?]; rewrite ?elem_of_app; auto.
      * intros x. rewrite elem_of_app, list_elem_of_singleton. tauto.
      * done.
      * done.
      * intros _. right. rewrite elem_of_app, list_elem_of_singleton. auto.
  - pose proof (record_ledger e d) as (Hl & _ & Hok).
    destruct (record_bridge_translation_status e d) as [[[]|err] d']; [|done]. by apply Hwith.
  - apply Hwith; [done|]. by destruct written, d0.
  - apply Hwith; [done|]. destruct (cue_matches _ _); simpl; [|done]. by case_bool_decide.
  - destruct (record_renderer_ack _ _ _ _ _ _) as [o w]. apply Hwith; [done|]. by destruct o.
  - destruct (exec_quiescence _ _ _); by apply Hwith.
  - destruct (exec_quiescence _ _ _); by apply Hwith.
Qed.

(** ** The ledgers of the whole *)
Definition handling_ok (emitted : list Event) (done : Event → Prop) (h : Handling) : Prop :=
  event_of h ∈ emitted ∧ is_blank (st_status_id (event_of h)) = false
  ∧ (disposed h = true → done (event_of h)).
Record link_ok (emitted : list Event) (done : Event → Prop) (l : Link) : Prop := {
  lo_events : ∀ e, e ∈ lk_events l → e ∈ emitted;
  lo_handling : ∀ h, lk_handling l = Some h → handling_ok emitted done h;
  lo_acks : ∀ a, a ∈ lk_acks l → ∃ e, a = ack_of e ∧ e ∈ emitted ∧ done e
}.
Lemma link_ok_grows emitted emitted' (done done' : Event → Prop) l :
  emitted ⊆ emitted' → (∀ e, done e → done' e) → link_ok emitted done l → link_ok emitted' done' l.
Proof.
  intros He Hd [H1 H2 H3]. split.
  - intros e ?. by apply He, H1.
  - intros h Hh. destruct (H2 h Hh) as (? & ? & ?). split_and!; [by apply He|done|auto].
  - intros a Ha. destruct (H3 a Ha) as (e & ? & ? & ?). exists e. split_and!; [done|by apply He|auto].
Qed.

Record delivery_inv (s : System) : Prop := {
  di_fifo : sy_emitted s = sy_removed s ++ ob_pending (sy_outbox s);
  di_ids : ∃ first, 0 ≤ first ∧ numbered (producer_id (sy_outbox s)) first (sy_emitted s)
    ∧ next_sequence (sy_outbox s) + 1 = first + Z.of_nat (length (sy_emitted s));
  di_receipts : receipts_hold (dt_receipts (sy_desktop s)) (st_status_id <$> dt_history (sy_desktop s));
  di_settled : ∀ e, settled (sy_desktop s) e → e ∈ sy_emitted s;
  di_links : Forall (link_ok (sy_emitted s) (settled (sy_desktop s))) (sy_links s);
  di_removed : ∀ e, e ∈ sy_removed s → settled (sy_desktop s) e
}.
Lemma inv_unique s e e' : delivery_inv s →
  e ∈ sy_emitted s → e' ∈ sy_emitted s → st_status_id e = st_status_id e' → e = e'.
Proof. intros [_ (first & Hf & Hn & _) _ _ _ _]. by eapply numbered_elem. Qed.
Lemma inv_link s i l : delivery_inv s → sy_links s !! i = Some l →
  link_ok (sy_emitted s) (settled (sy_desktop s)) l.
Proof. intros H Hi. by eapply Forall_lookup_1; [apply (di_links s H)|]. Qed.

(** A step that only changes one link. *)
Lemma inv_set_link s i l : delivery_inv s →
  link_ok (sy_emitted s) (settled (sy_desktop s)) l → delivery_inv (set_link i l s).
Proof.
  intros [H1 H2 H3 H4 H5 H6] Hl. split; simpl; try done. by apply Forall_insert.
Qed.
(** A step that only changes what the ledgers do not depend on. *)
Lemma inv_desktop s s' : delivery_inv s →
  sy_outbox s' = sy_outbox s → sy_links s' = sy_links s → sy_emitted s' = sy_emitted s →
  sy_removed s' = sy_removed s → ledger (sy_desktop s') = ledger (sy_desktop s) → delivery_inv s'.
Proof.
  intros [H1 H2 H3 H4 H5 H6] Eo El Ee Er Hl. unfold ledger in Hl. injection Hl as E1 E2 E3.
  assert (∀ e, settled (sy_desktop s) e ↔ settled (sy_desktop s') e) as Hs
    by (intros e; unfold settled; by rewrite E2, E3).
  split; rewrite ?Eo, ?El, ?Ee, ?Er, ?E1, ?E2; try done.
  - intros e He. apply H4. by apply Hs.
  - eapply Forall_impl; [exact H5|]. intros l. apply link_ok_grows; [done|]. intros e. apply Hs.
  - intros e He. apply Hs. auto.
Qed.

Lemma acknowledge_front ack o o' : acknowledge ack o = (true, o') →
  ∃ e rest, ob_pending o = e :: rest ∧ o' = o <| ob_pending := rest |> ∧ st_status_id e = sa_status_id ack.
Proof.
  unfold acknowledge. destruct (ob_pending o) as [|e rest]; [done|].
  destruct (_ || _) eqn:E; [done|]. intros [= <-]. exists e, rest. split_and!; [done|done|].
  unfold eqs in E. by bool_hyps.
Qed.

Lemma delivery_step_inv s l s' : delivery_inv s → move values l s = Some s' → delivery_inv s'.
Proof.
  intros Hi H. destruct l; cbn [move] in H.
  - destruct (next_status_id _) as [[id outbox]|] eqn:En; [|done]. unfold eqs in H.
    case_bool_decide as Hid; [|done]. injection H as <-. subst id.
    unfold next_status_id, checked_add in En. destruct (_ <=? _); [|done]. injection En as En <-.
    destruct Hi as [H1 (first & Hf & Hn & Hs) H3 H4 H5 H6].
    assert (Hsub : sy_emitted s ⊆ sy_emitted s ++ [event]) by (intros x Hx; rewrite elem_of_app; auto).
    split; simpl; [by rewrite H1, app_assoc| |done| | |done].
    + exists first. split_and!; [done| |rewrite length_app; simpl; lia].
      apply numbered_event_snoc; [done|]. rewrite <- En. f_equal. lia.
    + intros e He. by apply Hsub, H4.
    + eapply Forall_impl; [exact H5|]. intros l. by apply link_ok_grows.
  - injection H as <-. destruct Hi as [H1 H2 H3 H4 H5 H6]. split; simpl; try done.
    apply Forall_app. split; [done|]. constructor; [|done]. split; simpl; [|done|];
      by intros ? ?%elem_of_nil.
  - destruct (sy_links s !! i) as [link|] eqn:El; [|done].
    destruct (front (sy_outbox s)) as [event|] eqn:Ef; [|done].
    destruct (_ && _); [|done]. injection H as <-. apply inv_set_link; [done|].
    pose proof (inv_link s i link Hi El) as [H1 H2 H3]. split; simpl; [|done|done].
    intros e [?|He%list_elem_of_singleton]%elem_of_app; [auto|]. subst e.
    rewrite (di_fifo s Hi), elem_of_app. right. unfold front in Ef.
    destruct (ob_pending _); [done|]. injection Ef as ->. left.
  - destruct (sy_links s !! i) as [link|] eqn:El; [|done].
    destruct (lk_handling link) eqn:Eh; [done|]. destruct (lk_events link) as [|event rest] eqn:Ee; [done|].
    pose proof (inv_link s i link Hi El) as [H1 H2 H3].
    assert (Hin : ∀ e, e ∈ event :: rest → e ∈ sy_emitted s) by (rewrite <- Ee; exact H1).
    destruct (is_blank _) eqn:Eb; injection H as <-; (apply inv_set_link; [done|]); split; simpl.
    + intros e He. apply Hin. by right.
    + by rewrite Eh.
    + done.
    + intros e He. apply Hin. by right.
    + intros h [= <-]. split_and!; [|done|done]. apply Hin. left.
    + done.
  - destruct (sy_links s !! i) as [link|] eqn:El; [|done].
    destruct (lk_handling link) as [h|] eqn:Eh; [|done].
    pose proof (inv_link s i link Hi El) as [L1 L2 L3]. destruct (L2 h Eh) as (He & Hb & Hd).
    pose proof (handle_step_ledger ack_written now1 now2 h (sy_desktop s) (sy_emitted s)
      (di_receipts s Hi) (λ e e', inv_unique s e e' Hi)
      (λ e He, di_settled s Hi e (or_introl He)) He Hb Hd) as Hstep.
    destruct (hstep _ _ _ _ _) as [[next|err] d]; [|done]. injection H as <-.
    destruct Hstep as (Hr & Hgrow & Hnew & Hh & Hnext).
    set (s1 := s <| sy_desktop := d |>).
    assert (Hi1 : delivery_inv s1).
    { destruct Hi as [H1 H2 H3 H4 H5 H6]. split; simpl; try done.
      - intros e Hs. destruct (Hnew e Hs) as [?| ->]; auto.
      - eapply Forall_impl; [exact H5|]. intros l. by apply link_ok_grows.
      - auto. }
    assert (Hacks : ∀ a, a ∈ lk_acks link ++ ack_written_at h ack_written →
      ∃ e, a = ack_of e ∧ e ∈ sy_emitted s ∧ settled d e).
    { intros a [Ha|Ha]%elem_of_app.
      - destruct (L3 a Ha) as (e & ? & ? & ?). eauto.
      - destruct h; try by apply elem_of_nil in Ha. simpl in Ha.
        destruct ack_written; [|by apply elem_of_nil in Ha]. apply list_elem_of_singleton in Ha as ->.
        exists e. split_and!; [done|done|]. apply Hgrow. by apply Hd. }
    apply (inv_set_link s1); [done|]. destruct next as [h'|handled]; split; simpl; try done.
    destruct Hnext as [Hev Hd']. intros h'' [= <-]. unfold handling_ok. rewrite Hev. auto.
  - destruct (sy_links s !! i) as [link|] eqn:El; [|done].
    destruct (lk_open link); [|done]. destruct (lk_awaits link); [|done].
    destruct (lk_acks link) as [|ack rest] eqn:Ea; [done|].
    pose proof (inv_link s i link Hi El) as [L1 L2 L3]. rewrite Ea in L3.
    assert (Hlink : ∀ o w, link_ok (sy_emitted s) (settled (sy_desktop s))
      (link <| lk_acks := rest |> <| lk_open := o |> <| lk_awaits := w |>)).
    { intros o w. split; simpl; [done|done|]. intros a Ha. apply L3. by right. }
    destruct (is_blank _) eqn:Eb.
    { injection H as <-. apply inv_set_link; [done|]. apply (Hlink false (lk_awaits link)). }
    destruct (acknowledge ack (sy_outbox s)) as [[] outbox] eqn:Eack; injection H as <-.
    + apply acknowledge_front in Eack as (f & pending & Ep & -> & Hid).
      match goal with |- delivery_inv (set_link i _ ?s1) =>
        apply (inv_set_link s1); [|apply (Hlink (lk_open link) None)] end.
      assert (Hf : f ∈ sy_emitted s) by (rewrite (di_fifo s Hi), Ep, elem_of_app; right; left).
      assert (settled (sy_desktop s) f) as Hset.
      { destruct (L3 ack) as (e & -> & He & Hs); [left|]. simpl in Hid.
        by rewrite (inv_unique s f e Hi). }
      rewrite Ep. destruct Hi as [H1 H2 H3 H4 H5 H6]. split; simpl; try done.
      * by rewrite H1, Ep, <- app_assoc.
      * intros e [?|He%list_elem_of_singleton]%elem_of_app; [auto|by subst].
    + unfold acknowledge in Eack.
      assert (outbox = sy_outbox s) as -> by (destruct (ob_pending _); [by simplify_eq|]; by case_match; simplify_eq).
      match goal with |- delivery_inv (set_link i _ ?s1) => apply (inv_set_link s1) end.
      * destruct Hi as [H1 H2 H3 H4 H5 H6]. split; simpl; rewrite ?app_nil_r; done.
      * apply (Hlink false (lk_awaits link)).
  - destruct (sy_links s !! i) as [link|] eqn:El; [|done]. injection H as <-.
    apply inv_set_link; [done|]. pose proof (inv_link s i link Hi El) as [L1 L2 L3]. by split.
  - destruct (_ <? _); [done|]. destruct (exec_quiescence _ _ _) as [g|]; [|done]. injection H as <-.
    by apply (inv_desktop s).
  - injection H as <-. by apply (inv_desktop s).
  - injection H as <-. by apply (inv_desktop s).
Qed.
#[export] Instance delivery_invariant : Invariant delivery_initial (delivery_step values) delivery_inv.
Proof.
  split; [|intros s l s' Hi [_ H]; by eapply delivery_step_inv].
  intros s (Ho & Hn & Hr & _ & Hh & Hrf & Hl & _ & He & Hrm). split.
  - by rewrite He, Hrm, Ho.
  - exists (next_sequence (sy_outbox s) + 1). rewrite He. split_and!; [lia|done|simpl; lia].
  - rewrite Hr, Hh. split; [by split|apply spaced_nil].
  - unfold settled. rewrite Hh, Hrf. intros e [?%elem_of_nil|?%elem_of_nil]; done.
  - by rewrite Hl.
  - rewrite Hrm. by intros e ?%elem_of_nil.
Qed.

(** ** The restart barrier *)
Definition link_guarded (l : Link) : bool :=
  match lk_handling l with Some h => guarded h | None => false end.
Definition held (next : Handling + bool) : Z :=
  match next with inl h => if guarded h then 1 else 0 | inr _ => 0 end.

Lemma count_if_insert {A} (p : A → bool) (l : list A) i x y : l !! i = Some x →
  (count_if p (<[i:=y]> l) + (if p x then 1 else 0) = count_if p l + (if p y then 1 else 0))%nat.
Proof.
  revert i. induction l as [|z l IH]; intros i; [done|]. destruct i as [|i]; simpl.
  - intros [= ->]. rewrite !count_if_cons. lia.
  - intros Hi. rewrite !count_if_cons. specialize (IH i Hi). lia.
Qed.
Lemma count_if_lookup {A} (p : A → bool) (l : list A) i x :
  l !! i = Some x → p x = true → (1 ≤ count_if p l)%nat.
Proof.
  intros Hi Hp. destruct (count_if p l) eqn:E; [|lia]. rewrite count_if_zero in E.
  rewrite (E x) in Hp; [done|]. by eapply list_elem_of_lookup_2.
Qed.

Lemma handle_step_guards written n1 n2 h d :
  guards_inv (dt_guards d) → (guarded h = true → 1 ≤ gd_acks (dt_guards d)) →
  match hstep written n1 n2 h d with
  | (Ok next, d') => guards_inv (dt_guards d')
      ∧ gd_acks (dt_guards d') = gd_acks (dt_guards d) + held next - (if guarded h then 1 else 0)
  | (Err _, _) => True
  end.
Proof.
  intros Hi Hg. destruct h; cbn [handle_step]; unfold bind, gets, modify, ret, on_watch.
  - destruct (exec_quiescence _ _ _) as [g|] eqn:E; simpl; [|by split; [|lia]].
    split; [apply (guards_step values _ QAck _ Hi); by split|]. simpl in E.
    destruct (_ || _); simplify_eq/=. lia.
  - simpl. split; [done|lia].
  - simpl. split; [done|lia].
  - destruct (bridge_translation_status_disposition_for_authority _ _ _) as [disp r].
    split; [done|]. destruct (bool_decide (disp = Apply)); simpl; lia.
  - pose proof (record_ledger e d) as (_ & E & _).
    destruct (record_bridge_translation_status e d) as [[[]|err] d']; [|done]. simpl in *.
    rewrite E. split; [done|lia].
  - split; [done|]. destruct written; cbn [negb]; [destruct (bool_decide _)|]; simpl; lia.
  - split; [done|]. destruct (cue_matches _ _); cbn [negb]; [destruct (bool_decide _)|]; simpl; lia.
  - destruct (record_renderer_ack _ _ _ _ _ _) as [o w]. simpl. split; [done|]. destruct o; simpl; lia.
  - simpl. split; [|lia].
    apply (guards_step values _ (QStatusForOwner (st_cue_id e) (status_str (st_playback_status e)) (authority_of e)) _ Hi).
    by split.
  - destruct (exec_quiescence _ _ _) as [g|] eqn:E; simpl.
    + split; [apply (guards_step values _ QDropAck _ Hi); by split|]. simpl in E.
      destruct (_ <=? _); simplify_eq/=. lia.
    + simpl in *. specialize (Hg eq_refl). destruct (Z.leb_spec (gd_acks (dt_guards d)) 0); [lia|done].
Qed.

Record barrier_inv (s : System) : Prop := {
  ba_guards : guards_inv (dt_guards (sy_desktop s));
  ba_acks : gd_acks (dt_guards (sy_desktop s))
            = sy_other_acks s + Z.of_nat (count_if link_guarded (sy_links s));
  ba_other : 0 ≤ sy_other_acks s
}.
Lemma barrier_set_link s i link link' : barrier_inv s → sy_links s !! i = Some link →
  link_guarded link' = link_guarded link → barrier_inv (set_link i link' s).
Proof.
  intros [H1 H2 H3] Hl Hg. split; simpl; [done| |done]. rewrite H2.
  pose proof (count_if_insert link_guarded _ i link link' Hl) as E. rewrite Hg in E. lia.
Qed.
Lemma barrier_step s l s' : barrier_inv s → delivery_step values s l s' → barrier_inv s'.
Proof.
  intros Hi [Hok H]. destruct l; cbn [move] in H.
  - destruct (next_status_id _) as [[id outbox]|]; [|done]. destruct (eqs _ _); [|done].
    injection H as <-. destruct Hi as [H1 H2 H3]. by split.
  - injection H as <-. destruct Hi as [H1 H2 H3]. split; simpl; [done| |done].
    rewrite count_if_app. unfold count_if at 2. simpl. rewrite H2. lia.
  - destruct (sy_links s !! i) as [link|] eqn:El; [|done]. destruct (front _); [|done].
    destruct (_ && _); [|done]. injection H as <-. by eapply barrier_set_link.
  - destruct (sy_links s !! i) as [link|] eqn:El; [|done].
    destruct (lk_handling link) eqn:Eh; [done|]. destruct (lk_events link) as [|event rest]; [done|].
    destruct (is_blank _); injection H as <-; (eapply barrier_set_link; [done..|]);
      unfold link_guarded; simpl; by rewrite Eh.
  - destruct (sy_links s !! i) as [link|] eqn:El; [|done].
    destruct (lk_handling link) as [h|] eqn:Eh; [|done]. destruct Hi as [H1 H2 H3].
    assert (Hg : link_guarded link = guarded h) by (unfold link_guarded; by rewrite Eh).
    pose proof (handle_step_guards ack_written now1 now2 h (sy_desktop s) H1) as Hs.
    destruct (hstep _ _ _ _ _) as [[next|err] d]; [|done]. injection H as <-.
    destruct Hs as [Hs1 Hs2].
    { intros Hh. rewrite H2. rewrite Hh in Hg. pose proof (count_if_lookup _ _ _ _ El Hg). lia. }
    split; simpl; [done| |done]. rewrite Hs2, H2.
    match goal with |- context [<[i:=?l]> _] =>
      pose proof (count_if_insert link_guarded _ i link l El) as E;
      assert (link_guarded l = match next with inl h => guarded h | inr _ => false end) as Hl
        by (by destruct next) end.
    rewrite Hl, Hg in E. destruct next as [h'|]; simpl in *; destruct (guarded h); try destruct (guarded h'); lia.
  - destruct (sy_links s !! i) as [link|] eqn:El; [|done].
    destruct (lk_open link); [|done]. destruct (lk_awaits link); [|done].
    destruct (lk_acks link) as [|ack rest] eqn:Ea; [done|].
    destruct (is_blank _). { injection H as <-. by eapply barrier_set_link. }
    destruct (acknowledge ack (sy_outbox s)) as [acked outbox]. injection H as <-.
    eapply barrier_set_link; [destruct Hi as [H1 H2 H3]; by split|exact El|by destruct acked].
  - destruct (sy_links s !! i) as [link|] eqn:El; [|done]. injection H as <-. by eapply barrier_set_link.
  - destruct (Z.ltb_spec (sy_other_acks s + match l with QAck => 1 | QDropAck => -1 | _ => 0 end) 0);
      [done|]. destruct (exec_quiescence _ _ _) as [g|] eqn:E; [|done]. injection H as <-.
    destruct Hi as [H1 H2 H3]. split; simpl; [eapply guards_step; [exact H1|split; [exact Hok|exact E]]| |done].
    assert (gd_acks g = gd_acks (dt_guards (sy_desktop s)) + match l with QAck => 1 | QDropAck => -1 | _ => 0 end).
    { destruct l; simpl in E; repeat (case_match; simplify_eq/=); simplify_eq/=;
        repeat case_match; simpl; lia. }
    lia.
  - injection H as <-. destruct Hi as [H1 H2 H3]. by split.
  - injection H as <-. destruct Hi as [H1 H2 H3]. by split.
Qed.
#[export] Instance barrier_invariant : Invariant delivery_initial (delivery_step values) barrier_inv.
Proof.
  split; [|intros s l s' Hi H; by eapply barrier_step].
  intros s (_ & _ & _ & Hg & _ & _ & Hl & Ho & _). split.
  - rewrite Hg. by split.
  - by rewrite Hg, Hl, Ho.
  - by rewrite Ho.
Qed.

(** ** One status, handled without interference *)
Definition cues_of (d : Desktop) : gmap string BridgePlaybackCue := qt_active_bridge_cues (gd_state (dt_guards d)).
Definition owner_matches (e : Event) (d : Desktop) : bool :=
  match from_snapshot (sv_runtime (dt_view d)) with
  | Some owner => bool_decide (playback_authority owner = authority_of e)
  | None => false
  end.
Definition fresh (e : Event) (d : Desktop) : bool :=
  negb (is_blank (st_status_id e)) && negb (bool_decide (st_status_id e ∈ rc_ids (dt_receipts d))).
Definition applies (e : Event) (d : Desktop) : bool :=
  (owner_matches e d && cue_matches e d) && fresh e d.

Lemma handle_S n written n1 n2 h d :
  handle values (S n) written n1 n2 h d =
  match hstep written n1 n2 h d with
  | (Ok (inl h'), d') => handle values n written n1 n2 h' d'
  | (Ok (inr handled), d') => (Ok handled, d')
  | (Err err, d') => (Err err, d')
  end.
Proof. simpl. unfold bind. by destruct (hstep written n1 n2 h d) as [[[h'|handled]|err] d']. Qed.

(** What a handled status leaves alone whatever happens. *)
Lemma release_cues e handled d : ∃ d', hstep false 0 0 (Release e handled) d = (Ok (inr handled), d')
  ∧ cues_of d' = cues_of d ∧ dt_watch d' = dt_watch d ∧ dt_recorded d' = dt_recorded d
  ∧ dt_receipts d' = dt_receipts d.
Proof.
  cbn [handle_step]. unfold bind, gets, modify, ret.
  destruct (exec_quiescence _ _ _) as [g|] eqn:E; (eexists; split; [reflexivity|]); [|done].
  simpl in E. destruct (_ <=? _); [done|]. by injection E as <-.
Qed.
Lemma handle_release n written n1 n2 e handled d : ∃ d',
  handle values (S n) written n1 n2 (Release e handled) d = (Ok handled, d')
  ∧ cues_of d' = cues_of d ∧ dt_watch d' = dt_watch d ∧ dt_recorded d' = dt_recorded d
  ∧ dt_receipts d' = dt_receipts d.
Proof.
  destruct (release_cues e handled d) as (d' & E & H). exists d'. split; [|done].
  rewrite handle_S. change (hstep written n1 n2 (Release e handled) d) with (hstep false 0 0 (Release e handled) d).
  by rewrite E.
Qed.
Lemma handle_ack n written n1 n2 e disposition d : disposition ≠ Apply → ∃ d',
  handle values (S (S n)) written n1 n2 (WriteAck e disposition) d = (Ok written, d')
  ∧ cues_of d' = cues_of d ∧ dt_watch d' = dt_watch d ∧ dt_recorded d' = dt_recorded d
  ∧ dt_receipts d' = dt_receipts d.
Proof.
  intros Hd. rewrite handle_S. cbn [handle_step]. unfold ret. cbv beta iota.
  destruct written; cbn [negb]; [rewrite bool_decide_false by done|]; apply handle_release.
Qed.

(** The part after the acknowledgement of an applied status. *)
Definition terminal_effect (n1 n2 : Z) (e : Event) (d : Desktop) : outcome unit * WatchLifecycle :=
  if bool_decide (st_playback_status e = Completed)
  then record_renderer_ack (st_cue_id e) "bridge-translation-status-ack" (st_status_id e) n1 n2 (dt_watch d)
  else (Ok tt, dt_watch d).
Lemma recount_cues s : qt_active_bridge_cues (recount values s) = qt_active_bridge_cues s.
Proof. unfold recount, refresh_pending_audio. by destruct (sum_pending _ _ _) as [[]|]. Qed.
Lemma terminal_status kind : is_terminal_status (status_str kind) = is_terminal kind.
Proof. by destruct kind. Qed.
#[local] Opaque recount bridge_playback_cue_matches_owner.
Lemma handle_observe n n1 n2 e d : cue_matches e d = true → ∃ d',
  handle values (S (S n)) true n1 n2 (Observe e) d = (Ok true, d')
  ∧ cues_of d' = (if is_terminal (st_playback_status e) then delete (st_cue_id e) (cues_of d) else cues_of d)
  ∧ dt_watch d' = dt_watch d ∧ dt_recorded d' = dt_recorded d ∧ dt_receipts d' = dt_receipts d.
Proof.
  intros Hm. rewrite handle_S. cbn [handle_step exec_quiescence]. unfold bind, gets, modify, ret.
  unfold observe_bridge_playback_status_for_owner. unfold cue_matches in Hm. rewrite Hm.
  rewrite terminal_status. cbn [negb]. cbv beta iota.
  destruct (is_terminal _); cbn [fst snd];
    match goal with |- ∃ d', handle _ _ _ _ _ (Release _ ?b) ?d1 = _ ∧ _ =>
      destruct (handle_release n true n1 n2 e b d1) as (d' & E & Hc & Hrest) end;
    exists d'; (split; [exact E|]); rewrite Hc; (split; [|exact Hrest]).
  - unfold cues_of. simpl. rewrite Hm. simpl. by rewrite recount_cues.
  - unfold cues_of. simpl. by rewrite Hm.
Qed.
#[local] Transparent recount bridge_playback_cue_matches_owner.
Lemma handle_applied n n1 n2 e d : cue_matches e d = true → ∃ handled d',
  handle values (S (S (S (S (S n))))) true n1 n2 (WriteAck e Apply) d = (Ok handled, d')
  ∧ dt_recorded d' = dt_recorded d ∧ dt_receipts d' = dt_receipts d
  ∧ match terminal_effect n1 n2 e d with
    | (Ok _, w) => handled = true ∧ dt_watch d' = w
        ∧ cues_of d' = (if is_terminal (st_playback_status e) then delete (st_cue_id e) (cues_of d) else cues_of d)
    | (Err _, w) => handled = false ∧ dt_watch d' = w ∧ cues_of d' = cues_of d
    end.
Proof.
  intros Hm. rewrite handle_S. cbn [handle_step]. unfold ret at 1. cbv beta iota. cbn [negb].
  rewrite bool_decide_true by done. rewrite handle_S. cbn [handle_step]. unfold bind, gets, ret. rewrite Hm.
  cbv beta iota. cbn [negb]. unfold terminal_effect. destruct (bool_decide (st_playback_status e = Completed)).
  - rewrite handle_S. cbn [handle_step]. unfold bind, ret, on_watch.
    destruct (record_renderer_ack _ _ _ _ _ _) as [o w]. cbv beta iota. destruct o as [[]|err].
    + destruct (handle_observe n n1 n2 e (d <| dt_watch := w |>)) as (d' & E & Hc & Hw & Hr & Hi); [exact Hm|].
      exists true, d'. by split_and!.
    + destruct (handle_release (S n) true n1 n2 e false (d <| dt_watch := w |>)) as (d' & E & Hc & Hw & Hr & Hi).
      exists false, d'. by split_and!.
  - destruct (handle_observe (S n) n1 n2 e d Hm) as (d' & E & Hc & Hw & Hr & Hi). exists true, d'. by split_and!.
Qed.

Lemma handle_begins n written n1 n2 e d :
  barrier (dt_guards d) = false → gd_acks (dt_guards d) < u64_max → ∃ d1,
  handle values (S (S (S n))) written n1 n2 (TakeBarrier e) d
    = handle values n written n1 n2 (Dispose e (owner_matches e d && cue_matches e d)) d1
  ∧ cues_of d1 = cues_of d ∧ dt_watch d1 = dt_watch d ∧ dt_recorded d1 = dt_recorded d
  ∧ dt_receipts d1 = dt_receipts d ∧ cue_matches e d1 = cue_matches e d ∧ dt_history d1 = dt_history d.
Proof.
  intros Hb Ha. rewrite handle_S. cbn [handle_step exec_quiescence]. unfold bind, gets, modify, ret.
  rewrite Hb. destruct (Z.leb_spec u64_max (gd_acks (dt_guards d))); [lia|]. cbn [orb]. cbv beta iota.
  rewrite handle_S. cbn [handle_step]. unfold bind, gets, ret. rewrite handle_S. cbn [handle_step].
  unfold bind, gets, ret. eexists. split; [reflexivity|]. by split_and!.
Qed.

Lemma accept_fresh e d :
  receipts_hold (dt_receipts d) (st_status_id <$> dt_history d) →
  let d' := d <| dt_receipts := (accept_bridge_translation_status_once (st_status_id e) (dt_receipts d)).2 |> in
  (fresh e d = true → st_status_id e ∈ rc_ids (dt_receipts d'))
  ∧ (accept_bridge_translation_status_once (st_status_id e) (dt_receipts d)).1 = fresh e d
  ∧ (fresh e d = false → dt_receipts d' = dt_receipts d).
Proof.
  intros Hr d'. pose proof (accept_holds (st_status_id e) _ _ Hr) as Ha. subst d'. simpl.
  unfold fresh. destruct (accept_bridge_translation_status_once _ _) as [accepted r] eqn:E. simpl.
  destruct Ha as [Hacc [Hh _]]. split_and!; [|done|].
  - intros Hf. rewrite <- Hacc in Hf. subst accepted. rewrite Hf in Hh. destruct Hh as [Ho Hi].
    rewrite Hi, Ho, elem_of_list_to_set, elem_of_last_n. exists (length (st_status_id <$> dt_history d)).
    split; [by apply list_lookup_middle|]. rewrite length_app. simpl.
    assert (1 ≤ capacity)%nat by (vm_compute; lia). lia.
  - intros Hf. rewrite Hf in Hacc. subst accepted. revert E.
    unfold accept_bridge_translation_status_once, insert_receipt.
    destruct (is_blank _); [by intros [= <-]|]. simpl in *. destruct (bool_decide _); [by intros [= <-]|].
    by destruct (expire _ _).
Qed.
Lemma record_effect e d : ∃ d', record_bridge_translation_status e d = (Ok tt, d')
  ∧ dt_recorded d' = dt_recorded d ++ [e] ∧ dt_guards d' = dt_guards d ∧ dt_watch d' = dt_watch d
  ∧ dt_receipts d' = dt_receipts d.
Proof.
  unfold record_bridge_translation_status, bind. simpl.
  destruct (st_playback_status e); eexists; (split; [reflexivity|]); by split_and!.
Qed.
End Delivery.

(** What one handled status does, on every branch. *)
Definition status_effect (written : bool) (n1 n2 : Z) (e : Event) (d : Desktop)
    (r : outcome bool * Desktop) : Prop :=
  match r with
  | (Ok handled, d') =>
      if applies e d then
        dt_recorded d' = dt_recorded d ++ [e] ∧ st_status_id e ∈ rc_ids (dt_receipts d')
        ∧ (if written then
             match terminal_effect n1 n2 e d with
             | (Ok _, w) => handled = true ∧ dt_watch d' = w
                 ∧ cues_of d' = (if is_terminal (st_playback_status e)
                                 then delete (st_cue_id e) (cues_of d) else cues_of d)
             | (Err _, w) => handled = false ∧ dt_watch d' = w ∧ cues_of d' = cues_of d
             end
           else handled = false ∧ dt_watch d' = dt_watch d ∧ cues_of d' = cues_of d)
      else handled = written ∧ dt_recorded d' = dt_recorded d ∧ dt_receipts d' = dt_receipts d
           ∧ dt_watch d' = dt_watch d ∧ cues_of d' = cues_of d
  | (Err _, _) => False
  end.
Lemma handle_status_effect values written n1 n2 e d :
  receipts_hold (dt_receipts d) (st_status_id <$> dt_history d) →
  barrier (dt_guards d) = false → gd_acks (dt_guards d) < u64_max →
  status_effect written n1 n2 e d (handle_bridge_translation_status values written n1 n2 e d).
Proof.
  intros Hr Hb Ha. unfold status_effect.
  unfold handle_bridge_translation_status, applies.
  destruct (handle_begins values 7 written n1 n2 e d Hb Ha) as (d1 & -> & Hc1 & Hw1 & Hl1 & Hr1 & Hm1 & _).
  rewrite handle_S. cbn [handle_step]. unfold bind, gets, modify, ret.
  unfold bridge_translation_status_disposition_for_authority.
  destruct (owner_matches e d && cue_matches e d) eqn:Em; cbn [negb andb].
  2: { destruct (handle_ack values 4 written n1 n2 e SessionMismatch
         (d1 <| dt_refused ::= (λ l, l ++ [e]) |>)) as (d2 & E2 & Hc & Hw & Hl & Hrc); [done|].
       change (if bool_decide (SessionMismatch = Apply) then RecordStatus e else WriteAck e SessionMismatch)
         with (WriteAck e SessionMismatch).
       match goal with |- context [handle _ _ _ _ _ _ ?d'] =>
         change d' with (d1 <| dt_refused ::= (λ l, l ++ [e]) |>) end.
       rewrite E2. split_and!; [done|by rewrite Hl, <- Hl1|by rewrite Hrc, <- Hr1|by rewrite Hw|].
       rewrite Hc. exact Hc1. }
  destruct (accept_fresh e d Hr) as (Hin & Hacc & Hsame). rewrite Hr1.
  destruct (accept_bridge_translation_status_once _ _) as [acc r] eqn:Eacc. simpl in Hacc, Hin, Hsame. subst acc.
  destruct (fresh e d) eqn:Ef.
  - rewrite bool_decide_true by done. rewrite handle_S. cbn [handle_step]. unfold bind, ret.
    match goal with |- context [record_bridge_translation_status e ?d'] => set (d2 := d') end.
    destruct (record_effect e d2) as (d3 & E3 & Hl3 & Hg3 & Hw3 & Hr3). rewrite E3. cbv beta iota.
    assert (cues_of d3 = cues_of d) as Hc3 by (unfold cues_of; rewrite Hg3; exact Hc1).
    assert (cue_matches e d3 = true) as Hm3.
    { bool_hyps. unfold cue_matches in *. rewrite Hg3. by rewrite <- Hm1 in H0. }
    destruct written.
    + destruct (handle_applied values 0 n1 n2 e d3 Hm3) as (handled & d4 & -> & Hl4 & Hr4 & H4).
      split_and!; [by rewrite Hl4, Hl3, <- Hl1|by rewrite Hr4, Hr3; apply Hin|].
      assert (terminal_effect n1 n2 e d3 = terminal_effect n1 n2 e d) as Et
        by (unfold terminal_effect; by rewrite Hw3, <- Hw1).
      rewrite Et in H4. destruct (terminal_effect n1 n2 e d) as [[[]|err] w]; by rewrite Hc3 in H4.
    + rewrite handle_S. cbn [handle_step negb]. unfold ret. cbv beta iota.
      destruct (handle_release values 3 false n1 n2 e false d3) as (d4 & -> & Hc & Hw & Hl & Hrc).
      split_and!; [by rewrite Hl, Hl3, <- Hl1|by rewrite Hrc, Hr3; apply Hin|done|by rewrite Hw, Hw3|by rewrite Hc].
  - rewrite bool_decide_false by done.
    match goal with |- context [handle _ _ _ _ _ _ ?d'] => set (d2 := d') end.
    destruct (handle_ack values 4 written n1 n2 e DuplicateReplay d2) as (d3 & -> & Hc & Hw & Hl & Hrc); [done|].
    split_and!; [done|by rewrite Hl, <- Hl1|rewrite Hrc; by apply Hsame|by rewrite Hw|by rewrite Hc].
Qed.

(** The history grows at one section only. *)
Lemma disposed_step values written n1 n2 h d : disposed h = true →
  dt_history (handle_step values written n1 n2 h d).2 = dt_history d
  ∧ match (handle_step values written n1 n2 h d).1 with Ok (inl h') => disposed h' = true | _ => True end.
Proof.
  destruct h as [e|e|e m|e m|e|e disposition|e|e|e|e handled]; intros Hh; try discriminate Hh;
    cbn [handle_step]; unfold bind, gets, modify, ret, on_watch.
  - unfold record_bridge_translation_status, bind. by destruct (st_playback_status e).
  - cbn. split; [done|]. by repeat case_match.
  - cbn. split; [done|]. by repeat case_match.
  - destruct (record_renderer_ack _ _ _ _ _ _) as [[] w]; by split.
  - destruct (exec_quiescence _ _ _); by split.
  - destruct (exec_quiescence _ _ _); by split.
Qed.
Lemma disposed_history values n written n1 n2 h : ∀ d, disposed h = true →
  dt_history (handle values n written n1 n2 h d).2 = dt_history d.
Proof.
  revert h. induction n as [|n IH]; intros h d Hh; [done|]. rewrite handle_S.
  destruct (disposed_step values written n1 n2 h d Hh) as [Hd Hnext].
  destruct (handle_step values written n1 n2 h d) as [[[h'|handled]|err] d']; cbn [fst snd] in *;
    [by rewrite IH|done..].
Qed.
Lemma applied_history values written n1 n2 e d :
  receipts_hold (dt_receipts d) (st_status_id <$> dt_history d) →
  barrier (dt_guards d) = false → gd_acks (dt_guards d) < u64_max → applies e d = true →
  dt_history (handle_bridge_translation_status values written n1 n2 e d).2 = dt_history d ++ [e].
Proof.
  intros Hr Hb Ha Happ. unfold applies in Happ. apply andb_true_iff in Happ as [Hm Hf].
  unfold handle_bridge_translation_status.
  destruct (handle_begins values 7 written n1 n2 e d Hb Ha) as (d1 & -> & _ & _ & _ & Hr1 & _ & Hh1).
  rewrite Hm, handle_S. cbn [handle_step]. unfold bind, gets, modify, ret.
  unfold bridge_translation_status_disposition_for_authority. cbn [negb].
  destruct (accept_fresh e d Hr) as (_ & Hacc & _). rewrite Hr1.
  destruct (accept_bridge_translation_status_once _ _) as [acc r]. simpl in Hacc. subst acc. rewrite Hf.
  rewrite bool_decide_true by done. rewrite disposed_history by done. simpl. by rewrite Hh1.
Qed.

(** ** The theorems *)
Section DeliveryTheorems.
Context (values : gmap string BridgePlaybackCue → list BridgePlaybackCue).

(** C26: Whatever connections come, break and overlap, and whatever the desktop's other
    threads do: what the Bridge emitted is what it removed from its outbox
    followed by what is still there; a status is removed only after the desktop
    accepted it once or refused it for another authority; and the desktop accepts
    the same status again only after 4,096 others. *)
Theorem statuses_are_settled_before_removal s :
  delivery_reachable values s →
  let d := sy_desktop s in
  sy_emitted s = sy_removed s ++ ob_pending (sy_outbox s)
  ∧ (∀ e, e ∈ sy_removed s → e ∈ dt_history d ∨ e ∈ dt_refused d)
  ∧ (∀ e, e ∈ dt_history d → e ∈ sy_emitted s)
  ∧ (∀ i j e, dt_history d !! i = Some e → dt_history d !! j = Some e → (i < j)%nat → (i + capacity < j)%nat).
Proof.
  intros Hs d. destruct (reachable_inv _ _ delivery_inv s Hs) as [H1 _ [_ H3] H4 _ H6].
  split_and!; [done|done|intros e He; apply H4; by left|].
  subst d. intros i j e Hi Hj Hlt.
  apply (H3 i j (st_status_id e)); [|by rewrite list_lookup_fmap, Hj|done]. by rewrite list_lookup_fmap, Hi.
Qed.

(** While the restart barrier is up, every handler of a status waits for it: none
    is between its guard and its terminal effect. *)
Theorem restart_waits_for_statuses s i link h :
  delivery_reachable values s → barrier (dt_guards (sy_desktop s)) = true →
  sy_links s !! i = Some link → lk_handling link = Some h → ∃ e, h = TakeBarrier e.
Proof.
  intros Hs Hb Hl Hh. destruct (reachable_inv _ _ barrier_inv s Hs) as [[_ _ H3] Ha Ho].
  rewrite Hb in H3. destruct H3 as (_ & H0 & _).
  assert (count_if link_guarded (sy_links s) = O) as Hc by lia. rewrite count_if_zero in Hc.
  specialize (Hc link (list_elem_of_lookup_2 _ _ _ Hl)). unfold link_guarded in Hc. rewrite Hh in Hc.
  destruct h; try done. by eexists.
Qed.

(** The effect of one status handled without interference, on every branch. One
    that the receipts refuse or that is for another authority is acknowledged and
    changes nothing else. An applied one is recorded first; when its
    acknowledgement is written, a completed cue is acknowledged to the Watch
    ledger before it stops being active, and any other terminal status ends it;
    when it is not written, neither happens. *)
Theorem handled_status_effects written n1 n2 e s :
  delivery_reachable values s →
  let d := sy_desktop s in
  barrier (dt_guards d) = false → gd_acks (dt_guards d) < u64_max →
  status_effect written n1 n2 e d (handle_bridge_translation_status values written n1 n2 e d).
Proof.
  intros Hs d. apply handle_status_effect. exact (di_receipts s (reachable_inv _ _ delivery_inv s Hs)).
Qed.

(** C27: The effect of a status comes after its acknowledgement, its receipt before
    it. When the acknowledgement of an applied status is not written, the status
    is recorded, but neither the active cues nor the Watch ledger change; and when
    it is handled again, in any later state of the system in which fewer than
    4,096 other statuses were applied since, it is acknowledged as a replay and
    again changes neither: the effect of that status is lost. (Another status of
    the same cue, if the Bridge sends one, can still end it.) *)
Theorem failed_ack_loses_the_effect n1 n2 e s :
  delivery_reachable values s → barrier (dt_guards (sy_desktop s)) = false →
  gd_acks (dt_guards (sy_desktop s)) < u64_max → applies e (sy_desktop s) = true →
  let '(o, d) := handle_bridge_translation_status values false n1 n2 e (sy_desktop s) in
  o = Ok false ∧ e ∈ dt_recorded d ∧ cues_of d = cues_of (sy_desktop s)
  ∧ dt_watch d = dt_watch (sy_desktop s)
  ∧ ∀ s' later written n1' n2',
     delivery_reachable values s' →
     dt_history (sy_desktop s') = dt_history d ++ later → (length later < capacity)%nat →
     barrier (dt_guards (sy_desktop s')) = false → gd_acks (dt_guards (sy_desktop s')) < u64_max →
     let '(o', d') := handle_bridge_translation_status values written n1' n2' e (sy_desktop s') in
     o' = Ok written ∧ cues_of d' = cues_of (sy_desktop s') ∧ dt_watch d' = dt_watch (sy_desktop s').
Proof.
  intros Hs Hb Ha Happ. pose proof (di_receipts s (reachable_inv _ _ delivery_inv s Hs)) as Hr.
  pose proof (handle_status_effect values false n1 n2 e (sy_desktop s) Hr Hb Ha) as H.
  pose proof (applied_history values false n1 n2 e (sy_desktop s) Hr Hb Ha Happ) as Hh.
  unfold status_effect in H. rewrite Happ in H.
  destruct (handle_bridge_translation_status values false n1 n2 e (sy_desktop s)) as [[handled|err] d]; [|done].
  cbn [snd] in Hh. destruct H as (Hl & _ & -> & Hw & Hc). split_and!; [done| |done|done|].
  { rewrite Hl, elem_of_app, list_elem_of_singleton. auto. }
  intros s' later written n1' n2' Hs' Hlater Hlen Hb' Ha'.
  pose proof (di_receipts s' (reachable_inv _ _ delivery_inv s' Hs')) as Hr'.
  pose proof (handle_status_effect values written n1' n2' e (sy_desktop s') Hr' Hb' Ha') as H.
  assert (st_status_id e ∈ rc_ids (dt_receipts (sy_desktop s'))) as Hin.
  { destruct Hr' as [[Ho Hi] _]. rewrite Hi, Ho, elem_of_list_to_set, elem_of_last_n, Hlater, Hh.
    exists (length (dt_history (sy_desktop s))). rewrite !fmap_app, !length_app, !length_fmap. simpl. split; [|lia].
    rewrite <-app_assoc. apply list_lookup_middle. by rewrite length_fmap. }
  assert (applies e (sy_desktop s') = false) as Hno.
  { unfold applies, fresh. rewrite bool_decide_true by done. simpl. by rewrite !andb_false_r. }
  unfold status_effect in H. rewrite Hno in H.
  destruct (handle_bridge_translation_status values written n1' n2' e (sy_desktop s')) as [[handled'|err'] d']; [|done].
  destruct H as (-> & _ & _ & ? & ?). done.
Qed.
End DeliveryTheorems.

(** ** The Bridge's loop *)
Lemma acknowledge_own e rest o : ob_pending o = e :: rest →
  acknowledge (ack_of e) o = (true, o <| ob_pending := rest |>).
Proof.
  intros Ho. unfold acknowledge. rewrite Ho. simpl. unfold eqs.
  rewrite !bool_decide_true, !Z.eqb_refl by done. done.
Qed.
Lemma acknowledge_drops ack o o' acked : acknowledge ack o = (acked, o') →
  if acked then ∃ e, ob_pending o = e :: ob_pending o' else o' = o.
Proof.
  unfold acknowledge. destruct (ob_pending o) as [|e rest] eqn:E; [by intros [= <- <-]|].
  destruct (_ || _); intros [= <- <-]; [done|]. by exists e.
Qed.

(** Writing the pending statuses ends after at most one exchange for each. What is
    left is a suffix of what was pending, empty exactly when the loop reports
    success; a desktop that answers each status with its own acknowledgement
    receives every one in order. *)
Theorem write_pending_ends {S} (exchange : Event → S → option TranslationPlaybackStatusAck * S) o s :
  ∃ result o' s' delivered,
    write_pending_translation_statuses (length (ob_pending o)) exchange o s = Some (result, o', s')
    ∧ ob_pending o = delivered ++ ob_pending o'
    ∧ (result = AllDelivered ↔ ob_pending o' = [])
    ∧ ((∀ e s, (exchange e s).1 = Some (ack_of e)) →
         result = AllDelivered ∧ s' = fold_left (λ s e, (exchange e s).2) (ob_pending o) s).
Proof.
  remember (length (ob_pending o)) as n eqn:En. revert o s En.
  induction n as [|n IH]; intros o s En; simpl.
  all: unfold front; destruct (ob_pending o) as [|e rest] eqn:Eo; [|try done].
  - exists AllDelivered, o, s, []. by rewrite Eo.
  - done.
  - simpl in *. injection En as En. destruct (exchange e s) as [[ack|] s1] eqn:Ex.
    + destruct (acknowledge ack o) as [[] o1] eqn:Ea; apply acknowledge_drops in Ea as Hd.
      * destruct Hd as [e' Hd]. rewrite Eo in Hd. injection Hd as <- Hd.
        destruct (IH o1 s1) as (result & o' & s' & delivered & -> & Hp & Hr & Hc); [by rewrite <- Hd|].
        exists result, o', s', (e :: delivered). split_and!; [done|by rewrite Hd, Hp|done|].
        intros Hx. destruct (Hc Hx) as [-> ->]. by rewrite Hd.
      * subst o1. exists AckMismatch, o, s1, []. rewrite Eo. split_and!; [done|done|done|].
        intros Hx. specialize (Hx e s). rewrite Ex in Hx. injection Hx as ->.
        by rewrite (acknowledge_own e rest o Eo) in Ea.
    + exists PipeFailed, o, s1, []. rewrite Eo. split_and!; [done|done|done|].
      intros Hx. specialize (Hx e s). by rewrite Ex in Hx.
Qed.

(** ** Source identities *)
Lemma accepted_identity v identity :
  match bridge_source_identity_disposition v identity with
  | Reject _ => True
  | disposition =>
      let current := sv_runtime v in
      let token := generation_token (bi_bridge_instance_id identity) (bi_session_id identity)
                     (bi_source_generation identity) in
      sv_bridge_process_id v = Some (bi_bridge_process_id identity)
      ∧ br_bridge_instance_id current = Some (bi_bridge_instance_id identity)
      ∧ TranslatedPcm.br_session_id current = Some (bi_session_id identity)
      ∧ is_Some (br_source_generation_token current)
      ∧ bi_source_generation_token identity = token
      ∧ match disposition with
        | Current => br_source_generation current = bi_source_generation identity
                     ∧ br_source_generation_token current = Some token
        | _ => br_source_generation current < bi_source_generation identity
        end
  end.
Proof.
  unfold bridge_source_identity_disposition, eqs.
  destruct (negb (bool_decide (sv_bridge_process_id v = _))) eqn:E1; [done|].
  destruct (negb (bool_decide (br_bridge_instance_id _ = _))) eqn:E2; [done|].
  destruct (negb (bool_decide (TranslatedPcm.br_session_id _ = _))) eqn:E3; [done|].
  destruct (negb (is_Some_b _)) eqn:E4; [done|].
  destruct (negb (bool_decide (bi_source_generation_token _ = _))) eqn:E5; [done|].
  bool_hyps. destruct (Z.ltb_spec (bi_source_generation identity) (br_source_generation (sv_runtime v))); [done|].
  destruct (Z.eqb_spec (bi_source_generation identity) (br_source_generation (sv_runtime v))).
  - destruct (bool_decide _) eqn:E6; [|done]. bool_hyps. split_and!; eauto; congruence.
  - split_and!; eauto. lia.
Qed.
(** An envelope is accepted only from the Bridge process, instance and session the
    desktop knows, with the token of its own generation; the generation never goes
    back, an accepted envelope leaves exactly its generation and token, and nothing
    is accepted while the token is revoked. A refused envelope changes nothing. *)
Theorem source_identity_is_monotone identity is_pcm_frame v :
  let '(accepted, v') := accept_bridge_source_identity identity is_pcm_frame v in
  let before := sv_runtime v in let after := sv_runtime v' in
  br_source_generation before ≤ br_source_generation after
  ∧ (br_source_generation_token before = None → accepted = false)
  ∧ (accepted = false → v' = v)
  ∧ (accepted = true →
       sv_bridge_process_id v = Some (bi_bridge_process_id identity)
       ∧ br_bridge_instance_id before = Some (bi_bridge_instance_id identity)
       ∧ TranslatedPcm.br_session_id before = Some (bi_session_id identity)
       ∧ after = before <| br_source_generation := bi_source_generation identity |>
                        <| br_source_generation_token :=
                             Some (generation_token (bi_bridge_instance_id identity)
                                     (bi_session_id identity) (bi_source_generation identity)) |>
       ∧ sv_source_subscriber_active v' = true).
Proof.
  unfold accept_bridge_source_identity. pose proof (accepted_identity v identity) as H.
  destruct (bridge_source_identity_disposition v identity) as [| |reason]; simpl in H |- *.
  3: { split_and!; [lia|done|done|done]. }
  - destruct H as (H1 & H2 & H3 & [t H4] & H5 & H6 & H7).
    destruct v as [[] ? ? ? ? ?], is_pcm_frame; simpl in *; split_and!; try done; try lia; try congruence;
      intros _; split_and!; congruence.
  - destruct H as (H1 & H2 & H3 & [t H4] & H5 & H6).
    destruct v as [[] ? ? ? ? ?], is_pcm_frame; simpl in *; split_and!; try done; try lia; try congruence;
      intros _; split_and!; congruence.
Qed.

(** ** A run *)
Module DeliveryDemo.
Definition owner : TranslationPlaybackAuthority :=
  PlaybackQuiescence.mk_authority "s" "i" 7 "i:s:7" 100 "speaker".
Definition view : SourceView :=
  mk_view (mk_runtime "speaker" "ready" 7 100 (Some "s") (Some "i") (Some "i:s:7")) (Some 42) true
    "source-frame-delivered" None None.
Definition route : SpeechRoute.BridgeRuntimeSnapshot :=
  SpeechRoute.mk_bridge "running" "running" "ready" "ready" "running" (Some "s") true CaptureNone
    BackendNone true Unknown None None 20348 "ready" true "source-frame-delivered" None None 0 None None
    true "ready" None.
Definition values (m : gmap string BridgePlaybackCue) : list BridgePlaybackCue := (map_to_list m).*2.
Definition start : System :=
  mk_system (mk_outbox "p" 0 [])
    (mk_desktop (mk_receipts [] ∅) view route "ready" initial_guards lifecycle_default [] [] [] [])
    [] 0 [] [].
Definition status (n : string) (kind : TranslationPlaybackStatusKind) : Event :=
  let id := ("bridge-translation-status-p-" +:+ n)%string in
  mk_status id id "s" "i" 7 "i:s:7" 100 "speaker" "cue" kind "reason" None 0.
Definition expects : Label := QuiescenceMoves (QExpect "cue" owner 480 48000).
Fixpoint moves (ls : list Label) (s : System) : option System :=
  match ls with
  | [] => Some s
  | l :: ls => match move values l s with Some s => moves ls s | None => None end
  end.
Definition allowed (l : Label) : Prop := match l with QuiescenceMoves l => label_ok l | _ => True end.
Lemma demo_moves_reachable ls s : Forall allowed ls → moves ls start = Some s → delivery_reachable values s.
Proof.
  assert (∀ s0, delivery_reachable values s0 → Forall allowed ls → moves ls s0 = Some s →
    delivery_reachable values s) as H.
  { induction ls as [|l ls IH]; intros s0 Hs0 Hls; simpl; [by intros [= <-]|].
    apply Forall_cons in Hls as [Hl Hls]. destruct (move values l s0) as [s1|] eqn:E; [|done].
    apply IH; [|done]. by eapply reach_step. }
  apply H, reach_init. by repeat split.
Qed.
(** A handler's sections on connection [i], the acknowledgement written or not. *)
Definition handles (i n : nat) (ack_written : bool) : list Label := replicate n (Handles i ack_written 1 2).
Definition delivered (i : nat) : list Label := [Connects; Sends i; Reads i].

(** The completion of a cue, its acknowledgement lost, then replayed. *)
Definition lost : list Label :=
  [expects; Emits (status "1" Completed)]
  ++ delivered 0 ++ handles 0 5 true ++ handles 0 2 false
  ++ delivered 1 ++ handles 1 6 true ++ [AckArrives 1].
(** The same without the failure. *)
Definition kept : list Label :=
  [expects; Emits (status "1" RouteFailed)]
  ++ delivered 0 ++ handles 0 9 true ++ [AckArrives 0].
End DeliveryDemo.

(** A completed cue whose acknowledgement failed: its status was recorded, replayed
    and removed from the outbox, both connections are idle, and the cue is still
    active, so that a restart is refused. *)
Theorem completion_can_be_lost :
  match DeliveryDemo.moves DeliveryDemo.lost DeliveryDemo.start with
  | Some s =>
      let g := dt_guards (sy_desktop s) in
      ob_pending (sy_outbox s) = []
      ∧ Forall (λ l, lk_handling l = None ∧ lk_events l = [] ∧ lk_acks l = []) (sy_links s)
      ∧ dt_recorded (sy_desktop s) = [DeliveryDemo.status "1" Completed]
      ∧ qs_active_bridge_cues (qt_snapshot (gd_state g)) = 1
      ∧ try_begin_restart_barrier (gd_state g) = None
  | None => False
  end.
Proof. vm_compute. split_and!; try reflexivity. repeat constructor. Qed.

(** ** Witnesses *)
Lemma delivery_lost_allowed : Forall DeliveryDemo.allowed DeliveryDemo.lost.
Proof. repeat constructor; vm_compute; discriminate. Qed.
Lemma statuses_are_settled_before_removal_witness :
  match DeliveryDemo.moves DeliveryDemo.lost DeliveryDemo.start with
  | Some s => sy_removed s = [DeliveryDemo.status "1" Completed]
      ∧ ∀ e, e ∈ sy_removed s → e ∈ dt_history (sy_desktop s) ∨ e ∈ dt_refused (sy_desktop s)
  | None => False
  end.
Proof.
  destruct (DeliveryDemo.moves DeliveryDemo.lost DeliveryDemo.start) as [s|] eqn:E;
    [|vm_compute in E; discriminate].
  pose proof (DeliveryDemo.demo_moves_reachable _ _ delivery_lost_allowed E) as Hr.
  destruct (statuses_are_settled_before_removal _ s Hr) as (_ & H & _).
  split; [vm_compute in E; injection E as <-; reflexivity|exact H].
Defined.

Lemma restart_waits_for_statuses_witness :
  match DeliveryDemo.moves
          ([Emits (DeliveryDemo.status "1" Queued)] ++ DeliveryDemo.delivered 0
           ++ [QuiescenceMoves QTryRestart; Handles 0 true 1 2]) DeliveryDemo.start with
  | Some s => barrier (dt_guards (sy_desktop s)) = true
      ∧ ∃ link h e, sy_links s !! 0%nat = Some link ∧ lk_handling link = Some h ∧ h = TakeBarrier e
  | None => False
  end.
Proof.
  destruct (DeliveryDemo.moves _ DeliveryDemo.start) as [s|] eqn:E; [|vm_compute in E; discriminate].
  assert (Hr : delivery_reachable DeliveryDemo.values s)
    by (eapply DeliveryDemo.demo_moves_reachable; [|exact E]; repeat constructor).
  assert (Hb : barrier (dt_guards (sy_desktop s)) = true)
    by (vm_compute in E; injection E as <-; reflexivity).
  split; [exact Hb|].
  destruct (sy_links s !! 0%nat) as [link|] eqn:El; [|vm_compute in E; injection E as <-; discriminate].
  destruct (lk_handling link) as [h|] eqn:Eh;
    [|vm_compute in E; injection E as <-; injection El as <-; discriminate].
  destruct (restart_waits_for_statuses _ s 0 link h Hr Hb El Eh) as [e He].
  exists link, h, e. split_and!; [reflexivity|exact Eh|exact He].
Defined.

(** A cue is expected and its completion emitted. *)
Definition expected_cue : option System :=
  DeliveryDemo.moves [DeliveryDemo.expects; Emits (DeliveryDemo.status "1" Completed)] DeliveryDemo.start.
Lemma expected_cue_reachable s : expected_cue = Some s → delivery_reachable DeliveryDemo.values s.
Proof. intros E. eapply DeliveryDemo.demo_moves_reachable; [|exact E]. repeat constructor; vm_compute; discriminate. Qed.
Lemma handled_status_effects_witness :
  match expected_cue with
  | Some s => applies (DeliveryDemo.status "1" Completed) (sy_desktop s) = true
      ∧ status_effect true 1 2 (DeliveryDemo.status "1" Completed) (sy_desktop s)
          (handle_bridge_translation_status DeliveryDemo.values true 1 2
             (DeliveryDemo.status "1" Completed) (sy_desktop s))
  | None => False
  end.
Proof.
  destruct expected_cue as [s|] eqn:E; [|vm_compute in E; discriminate].
  split; [vm_compute in E; injection E as <-; vm_compute; reflexivity|].
  apply (handled_status_effects DeliveryDemo.values true 1 2 _ s).
  - exact (expected_cue_reachable s E).
  - vm_compute in E. injection E as <-. reflexivity.
  - vm_compute in E. injection E as <-. reflexivity.
Defined.

(** The completion again, after the run of [completion_can_be_lost]. *)
Lemma failed_ack_loses_the_effect_witness :
  match expected_cue, DeliveryDemo.moves DeliveryDemo.lost DeliveryDemo.start with
  | Some s, Some s' =>
      let e := DeliveryDemo.status "1" Completed in
      (handle_bridge_translation_status DeliveryDemo.values false 1 2 e (sy_desktop s)).1 = Ok false
      ∧ let '(o', d') := handle_bridge_translation_status DeliveryDemo.values true 1 2 e (sy_desktop s') in
        o' = Ok true ∧ cues_of d' = cues_of (sy_desktop s') ∧ size (cues_of d') = 1%nat
  | _, _ => False
  end.
Proof.
  destruct expected_cue as [s|] eqn:E; [|vm_compute in E; discriminate].
  destruct (DeliveryDemo.moves DeliveryDemo.lost DeliveryDemo.start) as [s'|] eqn:E'; [|vm_compute in E'; discriminate].
  assert (Hr' : delivery_reachable DeliveryDemo.values s')
    by (eapply DeliveryDemo.demo_moves_reachable; [exact delivery_lost_allowed|exact E']).
  pose proof (failed_ack_loses_the_effect DeliveryDemo.values 1 2 (DeliveryDemo.status "1" Completed) s
    (expected_cue_reachable s E)) as H.
  vm_compute in E, E'. injection E as <-. injection E' as <-.
  specialize (H ltac:(vm_compute; reflexivity) ltac:(vm_compute; reflexivity) ltac:(vm_compute; reflexivity)).
  destruct (handle_bridge_translation_status DeliveryDemo.values false 1 2 _ _) as [o d] eqn:Ed.
  vm_compute in Ed. injection Ed as <- <-.
  destruct H as (Ho & _ & _ & _ & H). split; [exact Ho|].
  specialize (H _ [] true 1 2 Hr' ltac:(vm_compute; reflexivity) ltac:(vm_compute; lia)
    ltac:(vm_compute; reflexivity) ltac:(vm_compute; reflexivity)).
  destruct (handle_bridge_translation_status DeliveryDemo.values true 1 2 _ _) as [o' d'] eqn:Ed'.
  destruct H as (Ho' & Hc & _). split; [exact Ho'|]. split; [exact Hc|]. rewrite Hc. vm_compute. reflexivity.
Defined.
