(* ===== verification/DesktopTimeline.v ===== *)
(** * Evidence of one desktop playback

    Models [audio/omni/protocol/desktop_timeline_evidence.rs] and the timeline
    record of [audio/speech/output/native_streaming.rs]: an append-only file of
    playback milestones and the terminal document that seals it. Both files are
    created exclusively. I/O answers are an oracle indexed by the number of
    operations made; the JSON encoding of a row and SHA-256 are parameters. *)
From S2P Require Import Prelude RustStr.

(** ** Data *)
Inductive CleanupPath := CleanupExplicit | DropFallback.
Inductive SchedulingState := RegistrationFailed | SchedulingActive | Restored | RestoreFailed.
Inductive RestoreFailureKind := NativeError | OwnerThreadMismatch | Unwound.
Record MmcssAudioReceipt := mk_mmcss {
  mm_schema_version : Z; mm_task_name : string; mm_owner_thread_id : Z;
  mm_registration_attempted : bool; mm_registration_succeeded : bool; mm_task_index : option Z;
  mm_registration_error_code : option Z; mm_cleanup_attempted : bool; mm_revert_attempted : bool;
  mm_revert_succeeded : bool; mm_revert_thread_id : option Z; mm_revert_error_code : option Z;
  mm_restore_failure_kind : option RestoreFailureKind; mm_cleanup_path : option CleanupPath;
  mm_state : SchedulingState
}.
Record DesktopPlaybackTimeline := mk_timeline {
  dt_cue_id : string; dt_response_id : string; dt_first_audio_delta_at_ms : Z;
  dt_first_audio_delta_qpc_100ns : option Z; dt_first_audible_audio_delta_at_ms : option Z;
  dt_first_audible_audio_delta_qpc_100ns : option Z; dt_audio_done_at_ms : option Z;
  dt_audio_done_qpc_100ns : option Z; dt_render_start_at_ms : option Z;
  dt_render_start_qpc_100ns : option Z; dt_render_complete_at_ms : option Z;
  dt_render_complete_qpc_100ns : option Z; dt_renderer_ack_at_ms : option Z;
  dt_renderer_ack_qpc_100ns : option Z; dt_renderer_ack_receipt_id : option string;
  dt_continuous_stream_id : option string; dt_render_session_id : option Z;
  dt_physical_playback_device_id : option string; dt_renderer_instance_id : option string;
  dt_renderer_owner_generation : option Z; dt_stream_start_count : Z;
  dt_accepted_source_frames : Z; dt_source_sample_rate_hz : Z; dt_render_sample_rate_hz : Z;
  dt_rendered_frames : Z; dt_aborted : bool; dt_mmcss_audio : option MmcssAudioReceipt
}.
#[export] Instance timeline_settable : Settable DesktopPlaybackTimeline := λ t,
  mk_timeline (dt_cue_id t) (dt_response_id t) (dt_first_audio_delta_at_ms t)
    (dt_first_audio_delta_qpc_100ns t) (dt_first_audible_audio_delta_at_ms t)
    (dt_first_audible_audio_delta_qpc_100ns t) (dt_audio_done_at_ms t)
    (dt_audio_done_qpc_100ns t) (dt_render_start_at_ms t) (dt_render_start_qpc_100ns t)
    (dt_render_complete_at_ms t) (dt_render_complete_qpc_100ns t) (dt_renderer_ack_at_ms t)
    (dt_renderer_ack_qpc_100ns t) (dt_renderer_ack_receipt_id t) (dt_continuous_stream_id t)
    (dt_render_session_id t) (dt_physical_playback_device_id t) (dt_renderer_instance_id t)
    (dt_renderer_owner_generation t) (dt_stream_start_count t) (dt_accepted_source_frames t)
    (dt_source_sample_rate_hz t) (dt_render_sample_rate_hz t) (dt_rendered_frames t)
    (dt_aborted t) (dt_mmcss_audio t).
Definition timeline_default : DesktopPlaybackTimeline :=
  mk_timeline "" "" 0 None None None None None None None None None None None None None None None
    None None 0 0 0 0 0 false None.

(** The frozen identity: three environment variables, absent when unset. *)
Record EvidenceIdentity := mk_evidence_identity {
  ei_run_marker : option string; ei_cell_id : option string; ei_lease_id : option string
}.
Record TimelineRow := mk_row {
  rw_sequence : Z; rw_identity : EvidenceIdentity; rw_milestone : string;
  rw_observed_at_unix_ms : Z; rw_observed_qpc_100ns : option Z; rw_timeline : DesktopPlaybackTimeline
}.
Record TimelineTerminal := mk_timeline_terminal {
  tt_identity : EvidenceIdentity; tt_complete : bool; tt_error : option string;
  tt_completed_responses : Z; tt_pending_responses : gset string; tt_bytes : Z; tt_rows : Z;
  tt_sha256 : string
}.
(** [te_file] is whether the file is open; [te_hashed] what the hasher absorbed.
    The last three fields are the disk: the rows written, the terminal document,
    and the number of I/O operations made. *)
Record TimelineEvidence := mk_evidence {
  te_directory : option string; te_file : bool; te_hashed : list Z; te_bytes : Z; te_rows : Z;
  te_failure : option string; te_identity : EvidenceIdentity; te_sealed : bool; te_started : bool;
  te_active_responses : gset string; te_completed_responses : Z;
  te_last_owner : option (string * string);
  te_written : list TimelineRow; te_terminal : option TimelineTerminal; te_io : nat
}.
#[export] Instance evidence_settable : Settable TimelineEvidence := λ e,
  mk_evidence (te_directory e) (te_file e) (te_hashed e) (te_bytes e) (te_rows e) (te_failure e)
    (te_identity e) (te_sealed e) (te_started e) (te_active_responses e)
    (te_completed_responses e) (te_last_owner e) (te_written e) (te_terminal e) (te_io e).

(** [{:?}] of a set of strings. The set's canonical order stands for the
    [BTreeSet]'s; only the text of a message depends on it. *)
Definition quote : string := String (Ascii.ascii_of_nat 34) EmptyString.
Definition show_responses (s : gset string) : string :=
  "{" +:+ join ", " ((λ x, quote +:+ x +:+ quote) <$> elements s) +:+ "}".

Section Evidence.
Context (io_answer : nat → outcome unit) (encode : TimelineRow → outcome (list Z)).
Context (sha256_hex : list Z → string).
Abbreviation Ev := (M TimelineEvidence).

Definition disk : Ev (outcome unit) :=
  let* k := gets te_io in modify (λ e, e <| te_io := S k |>) ;;; ret (io_answer k).
Definition evidence_fail (reason : string) (e : TimelineEvidence) : TimelineEvidence :=
  if is_Some_b (te_directory e) && negb (is_Some_b (te_failure e))
  then e <| te_failure := Some reason |> else e.
Definition describe (o : outcome unit) : string :=
  match o with Ok _ => "" | Err (Fail error) => error | Err (Panic error) => error end.
(** The exclusive creation of the timeline file. *)
Definition create_timeline : Ev unit :=
  let* answer := disk in
  modify (match answer with
          | Ok _ => λ e, e <| te_file := true |>
          | Err _ => evidence_fail ("timeline exclusive create failed: " +:+ describe answer)
          end).
(** [open(None, identity)] with the directory stored, and the check [from_env] makes. *)
Definition from_env (directory : option string) (identity : EvidenceIdentity) : TimelineEvidence :=
  let directory := match directory with Some "" => None | d => d end in
  let e := mk_evidence directory false [] 0 0 None identity false false ∅ 0 None [] None 0 in
  let missing value := match value with Some s => is_blank s | None => true end in
  if is_Some_b directory
     && existsb missing [ei_run_marker identity; ei_cell_id identity; ei_lease_id identity]
  then evidence_fail "playback timeline missing startup-frozen media authority identity" e
  else e.

Definition positive (q : option Z) : bool :=
  match q with Some q => 0 <? q | None => false end.
(** [at.is_none() || qpc.is_some()]. *)
Definition stamped (at_ms qpc : option Z) : bool := negb (is_Some_b at_ms) || is_Some_b qpc.
Definition qpc_required (observed : option Z) (t : DesktopPlaybackTimeline) : bool :=
  positive (dt_first_audio_delta_qpc_100ns t) && positive observed
  && stamped (dt_audio_done_at_ms t) (dt_audio_done_qpc_100ns t)
  && stamped (dt_render_start_at_ms t) (dt_render_start_qpc_100ns t)
  && stamped (dt_render_complete_at_ms t) (dt_render_complete_qpc_100ns t)
  && stamped (dt_renderer_ack_at_ms t) (dt_renderer_ack_qpc_100ns t).
(** The negation of the guard of a [renderer-ack] row, the membership test apart. *)
Definition physical_authority (t : DesktopPlaybackTimeline) : bool :=
  (dt_stream_start_count t =? 1) && is_Some_b (dt_render_session_id t)
  && is_Some_b (dt_audio_done_at_ms t) && is_Some_b (dt_render_complete_at_ms t)
  && is_Some_b (dt_renderer_ack_at_ms t) && is_Some_b (dt_renderer_ack_receipt_id t)
  && (dt_source_sample_rate_hz t =? 24000) && (dt_render_sample_rate_hz t =? 48000)
  && negb (dt_accepted_source_frames t =? 0)
  && (dt_rendered_frames t =? Z.min (dt_accepted_source_frames t * 2) u64_max).

(** The closure of [append] that writes one row. *)
Definition append_row (observed_qpc : option Z) (observed_ms : Z) (milestone : string)
    (t : DesktopPlaybackTimeline) : Ev unit :=
  let response := dt_response_id t in
  fail_if (is_blank response || is_blank (dt_cue_id t))
    "playback timeline requires actual response/cue identity" ;;;
  let* active := gets te_active_responses in
  fail_if (bool_decide (milestone = "audio-delta") && bool_decide (response ∈ active))
    "duplicate first delta evidence for an active response" ;;;
  fail_if (bool_decide (milestone = "renderer-ack")
           && (negb (bool_decide (response ∈ active)) || negb (physical_authority t)))
    "playback timeline ACK lacks complete continuous physical authority" ;;;
  let* e := gets id in
  let row := mk_row (wrapping_add (te_rows e) 1) (te_identity e) milestone observed_ms observed_qpc t in
  let* data := lift (encode row) in
  fail_if (negb (te_file e)) "playback timeline file unavailable" ;;;
  let* written := disk in
  lift written ;;;
  modify (λ e, e <| te_hashed ::= λ h, h ++ data |>
                 <| te_bytes ::= λ b, wrapping_add b (Z.of_nat (length data)) |>
                 <| te_rows ::= λ r, wrapping_add r 1 |>
                 <| te_written ::= λ rows, rows ++ [row] |>) ;;;
  when (bool_decide (milestone = "audio-delta"))
    (modify (λ e, e <| te_active_responses ::= λ a, {[response]} ∪ a |>)) ;;;
  when (bool_decide (milestone = "renderer-ack"))
    (modify (λ e, e <| te_active_responses ::= λ a, a ∖ {[response]} |>
                    <| te_completed_responses ::= λ n, wrapping_add n 1 |>)) ;;;
  fail_if (bool_decide (milestone = "aborted"))
    "playback response aborted before immutable successful ACK".

Definition append (observed_qpc : option Z) (observed_ms : Z) (milestone : string)
    (t : DesktopPlaybackTimeline) : Ev unit :=
  let* directory := gets te_directory in
  match directory with
  | None => ret tt
  | Some _ =>
      modify (λ e, e <| te_last_owner := Some (dt_cue_id t, dt_response_id t) |>) ;;;
      let* sealed := gets te_sealed in
      fail_if sealed "playback timeline append after immutable seal" ;;;
      let* started := gets te_started in
      when (negb started)
        (modify (λ e, e <| te_started := true |>) ;;;
         let* failure := gets te_failure in
         when (negb (is_Some_b failure)) create_timeline) ;;;
      let* failure := gets te_failure in
      match failure with
      | Some error => fail error
      | None =>
          if negb (qpc_required observed_qpc t) then
            let error := "playback timeline missing authoritative QPC timestamp" in
            modify (evidence_fail error) ;;; fail error
          else λ e,
            match append_row observed_qpc observed_ms milestone t e with
            | (Ok _, e) => (Ok tt, e)
            | (Err (Fail error), e) =>
                (Err (Fail error), evidence_fail ("playback timeline append failed: " +:+ error) e)
            | (Err (Panic msg), e) => (Err (Panic msg), e)
            end
      end
  end.

Definition evidence_outcome (e : TimelineEvidence) : outcome unit :=
  if negb (is_Some_b (te_directory e)) || negb (te_started e) then Ok tt else
  match te_failure e with
  | Some error => Err (Fail error)
  | None => if te_sealed e then Ok tt else Err (Fail "enabled playback timeline was never sealed")
  end.
Definition failure_result (e : TimelineEvidence) : outcome unit :=
  match te_failure e with Some error => Err (Fail error) | None => Ok tt end.
Definition terminal_of (e : TimelineEvidence) : TimelineTerminal :=
  mk_timeline_terminal (te_identity e) (negb (is_Some_b (te_failure e))) (te_failure e)
    (te_completed_responses e) (te_active_responses e) (te_bytes e) (te_rows e)
    (sha256_hex (te_hashed e)).
(** Create, write, then newline, flush and sync: one answer each. *)
Definition write_terminal (terminal : TimelineTerminal) : Ev unit :=
  let* created := disk in lift created ;;;
  let* written := disk in lift written ;;;
  modify (λ e, e <| te_terminal := Some terminal |>) ;;;
  let* synced := disk in lift synced.
(** [seal] up to the terminal document. *)
Definition close_file : Ev unit :=
  modify (λ e, e <| te_sealed := true |>) ;;;
  let* e := gets id in
  when (te_rows e =? 0) (modify (evidence_fail "playback timeline has no authoritative output milestones")) ;;;
  when (negb (bool_decide (te_active_responses e = ∅)))
    (modify (evidence_fail ("playback timeline has unacknowledged responses: "
                            +:+ show_responses (te_active_responses e)))) ;;;
  (if te_file e then
     modify (λ e, e <| te_file := false |>) ;;;
     let* flushed := disk in
     when (negb (is_ok flushed))
       (modify (evidence_fail ("playback timeline flush/sync failed: " +:+ describe flushed)))
   else modify (evidence_fail "playback timeline file missing at seal")).
Definition seal_active : Ev unit :=
  close_file ;;;
  let* terminal := gets terminal_of in
  λ e, match write_terminal terminal e with
       | (Ok _, e) => (failure_result e, e)
       | (Err error, e) =>
           let e := evidence_fail ("playback timeline seal failed: " +:+ describe (Err error)) e in
           (failure_result e, e)
       end.
Definition seal : Ev unit :=
  let* e := gets id in
  if negb (is_Some_b (te_directory e)) || negb (te_started e) then ret tt
  else if te_sealed e then lift (failure_result e)
  else seal_active.

(** ** Any use of the evidence *)
Inductive evidence_op :=
| EvFail (reason : string)
| EvAppend (observed_qpc : option Z) (observed_ms : Z) (milestone : string)
    (timeline : DesktopPlaybackTimeline)
| EvSeal.
Definition exec_evidence (o : evidence_op) (e : TimelineEvidence) : TimelineEvidence :=
  match o with
  | EvFail reason => evidence_fail reason e
  | EvAppend qpc ms milestone t => (append qpc ms milestone t e).2
  | EvSeal => (seal e).2
  end.
Definition run_evidence (ops : list evidence_op) (e : TimelineEvidence) : TimelineEvidence :=
  fold_left (λ e o, exec_evidence o e) ops e.
End Evidence.
