(* ===== verification/DesktopTimelineTheorems.v ===== *)
(** * What the playback evidence proves

    [file_facts] relates the fields of [TimelineEvidence] to the rows on disk
    after any sequence of operations; [complete_terminal_is_acknowledged] reads a
    terminal document that says it is complete. *)
From S2P Require Import Prelude RustStr DesktopTimeline.

(** ** What the rows say *)
Definition is_delta (r : TimelineRow) : bool := bool_decide (rw_milestone r = "audio-delta").
Definition is_ack (r : TimelineRow) : bool := bool_decide (rw_milestone r = "renderer-ack").
Definition is_aborted (r : TimelineRow) : bool := bool_decide (rw_milestone r = "aborted").
Definition row_response (r : TimelineRow) : string := dt_response_id (rw_timeline r).
(** The responses a file leaves open. *)
Definition open_after (a : gset string) (r : TimelineRow) : gset string :=
  if is_delta r then {[row_response r]} ∪ a
  else if is_ack r then a ∖ {[row_response r]} else a.
Definition open_responses (rows : list TimelineRow) : gset string := fold_left open_after rows ∅.
(** A row has its identity, and an ack its physical authority; a delta opens a
    response that is closed, an ack closes one that is open. *)
Definition row_ok (a : gset string) (r : TimelineRow) : Prop :=
  is_blank (row_response r) = false ∧ is_blank (dt_cue_id (rw_timeline r)) = false
  ∧ qpc_required (rw_observed_qpc_100ns r) (rw_timeline r) = true
  ∧ (is_delta r = true → row_response r ∉ a)
  ∧ (is_ack r = true → row_response r ∈ a ∧ physical_authority (rw_timeline r) = true).
Definition rows_ok (rows : list TimelineRow) : Prop :=
  ∀ k r, rows !! k = Some r → row_ok (open_responses (take k rows)) r.

Lemma open_responses_snoc rows r : open_responses (rows ++ [r]) = open_after (open_responses rows) r.
Proof. unfold open_responses. by rewrite fold_left_app. Qed.
Lemma rows_ok_snoc rows r : rows_ok rows → row_ok (open_responses rows) r → rows_ok (rows ++ [r]).
Proof.
  intros H Hr k x. rewrite lookup_app_Some. intros [Hk|[Hk Hx]].
  - rewrite take_app_le by (apply lookup_lt_Some in Hk; lia). by apply H.
  - apply list_lookup_singleton_Some in Hx as [Hx <-].
    replace k with (length rows) by lia. by rewrite take_app_length.
Qed.

(** A response opened in a file is acknowledged later or still open at its end. *)
Lemma opened_is_closed_or_open rows i r :
  rows !! i = Some r → is_delta r = true →
  row_response r ∈ open_responses rows
  ∨ ∃ j r', (i < j)%nat ∧ rows !! j = Some r' ∧ is_ack r' = true ∧ row_response r' = row_response r.
Proof.
  induction rows as [|x rows IH] using rev_ind; [by rewrite lookup_nil|].
  intros Hi Hd. rewrite open_responses_snoc.
  apply lookup_app_Some in Hi as [Hi|[Hi Hx]].
  - destruct (IH Hi Hd) as [Ho|(j & r' & Hij & Hj & Ha & He)].
    + unfold open_after. destruct (is_delta x) eqn:Ex; [set_solver|].
      destruct (is_ack x) eqn:Ea; [|by left].
      destruct (decide (row_response x = row_response r)) as [E|E]; [|set_solver].
      right. exists (length rows), x. apply lookup_lt_Some in Hi.
      split_and!; [lia|by rewrite list_lookup_middle|done|done].
    + right. exists j, r'. split_and!; [done| |done|done].
      by apply lookup_app_l_Some.
  - apply list_lookup_singleton_Some in Hx as [_ <-]. left.
    unfold open_after. rewrite Hd. set_solver.
Qed.
(** Without an open response the acks are as many as the deltas. *)
Lemma acks_and_open rows : rows_ok rows →
  (count_if is_ack rows + size (open_responses rows))%nat = count_if is_delta rows.
Proof.
  induction rows as [|x rows IH] using rev_ind; [done|]. intros H.
  assert (rows_ok rows) as Hrows.
  { intros k r Hk. specialize (H k r). rewrite take_app_le in H by (apply lookup_lt_Some in Hk; lia).
    apply H. by apply lookup_app_l_Some. }
  specialize (IH Hrows). specialize (H (length rows) x).
  rewrite take_app_length, list_lookup_middle in H by done.
  destruct (H eq_refl) as (_ & _ & _ & Hd & Ha).
  rewrite open_responses_snoc, !count_if_app. unfold open_after.
  assert (∀ p : TimelineRow → bool, count_if p [x] = if p x then 1%nat else 0%nat) as Hone.
  { intros p. rewrite count_if_cons. unfold count_if. simpl. by destruct (p x). }
  rewrite !Hone. destruct (is_delta x) eqn:Ed; destruct (is_ack x) eqn:Ea.
  - exfalso. unfold is_delta, is_ack in *. bool_hyps. congruence.
  - rewrite size_union by set_solver. rewrite size_singleton. lia.
  - destruct Ha as [Hin _]; [done|]. rewrite size_difference by set_solver. rewrite size_singleton.
    assert (size (open_responses rows) ≠ 0%nat) by (intros E%size_empty_inv; set_solver). lia.
  - lia.
Qed.

(** ** The operations *)
Section Facts.
Context (io_answer : nat → outcome unit) (encode : TimelineRow → outcome (list Z)).
Context (sha256_hex : list Z → string).
Abbreviation run_evidence := (run_evidence io_answer encode sha256_hex).

Definition row_bytes (r : TimelineRow) : list Z := match encode r with Ok d => d | Err _ => [] end.
Definition wrap (n : nat) : Z := Z.of_nat n mod (u64_max + 1).

(** What a terminal document says of the file it seals. *)
Definition terminal_facts (e : TimelineEvidence) (t : TimelineTerminal) : Prop :=
  te_sealed e = true ∧ tt_identity t = te_identity e ∧ tt_rows t = te_rows e
  ∧ tt_sha256 t = sha256_hex (te_hashed e) ∧ tt_completed_responses t = te_completed_responses e
  ∧ tt_pending_responses t = te_active_responses e
  ∧ (tt_complete t = true →
     tt_error t = None ∧ te_active_responses e = ∅ ∧ te_rows e ≠ 0
     ∧ count_if is_aborted (te_written e) = 0%nat).
Record file_facts (e : TimelineEvidence) : Prop := {
  ff_rows_ok : rows_ok (te_written e);
  ff_active : te_active_responses e = open_responses (te_written e);
  ff_rows : te_rows e = wrap (length (te_written e));
  ff_numbers : ∀ k r, te_written e !! k = Some r →
    rw_sequence r = wrapping_add (wrap k) 1 ∧ rw_identity r = te_identity e;
  ff_completed : te_completed_responses e = wrap (count_if is_ack (te_written e));
  ff_hashed : te_hashed e = concat (row_bytes <$> te_written e);
  ff_aborted : te_failure e = None → count_if is_aborted (te_written e) = 0%nat;
  ff_terminal : ∀ t, te_terminal e = Some t → terminal_facts e t
}.

(** Nothing of the file changed; a failure may have been recorded. *)
Definition same_file (e e' : TimelineEvidence) : Prop :=
  te_written e' = te_written e ∧ te_active_responses e' = te_active_responses e
  ∧ te_rows e' = te_rows e ∧ te_completed_responses e' = te_completed_responses e
  ∧ te_hashed e' = te_hashed e ∧ te_identity e' = te_identity e
  ∧ (te_failure e' = None → te_failure e = None).
#[local] Instance same_file_preorder : PreOrder same_file.
Proof. split; unfold same_file; [intros e; tauto|intros x y z; intuition congruence]. Qed.
Definition same_seal (e e' : TimelineEvidence) : Prop :=
  te_sealed e' = te_sealed e ∧ te_terminal e' = te_terminal e.

Lemma file_facts_same e e' : same_file e e' → same_seal e e' → file_facts e → file_facts e'.
Proof.
  intros (Ew & Ea & Er & Ec & Eh & Ei & Hf) [Es Et] [].
  constructor; rewrite ?Ew, ?Ea, ?Er, ?Ec, ?Eh, ?Et, ?Ei; try done; [auto|].
  intros t Ht. specialize (ff_terminal0 t Ht). unfold terminal_facts in *.
  by rewrite Ew, Ea, Er, Ec, Eh, Es, Ei.
Qed.
Lemma evidence_fail_same reason e :
  let e' := evidence_fail reason e in
  same_file e e' ∧ same_seal e e' ∧ te_directory e' = te_directory e.
Proof. unfold evidence_fail. by destruct (_ && _). Qed.

(** [append] before its row: the file may be opened, nothing is written. *)
Lemma create_timeline_same e :
  let e' := create_timeline io_answer e in
  is_ok e'.1 = true ∧ same_file e e'.2 ∧ same_seal e e'.2 ∧ te_directory e'.2 = te_directory e.
Proof.
  unfold create_timeline, disk, bind, gets, modify, ret. cbn [fst snd].
  split; [done|]. destruct (io_answer (te_io e)) as [[]|a]; [done|].
  destruct (evidence_fail_same ("timeline exclusive create failed: " +:+ describe (Err a))
              (e <| te_io := S (te_io e) |>)) as (? & ? & ->). done.
Qed.

(** [e'] is [e] with one more row. *)
Definition row_added (qpc : option Z) (milestone : string) (t : DesktopPlaybackTimeline)
    (e e' : TimelineEvidence) : Prop :=
  ∃ r data, row_ok (te_active_responses e) r ∧ encode r = Ok data
    ∧ rw_sequence r = wrapping_add (te_rows e) 1 ∧ rw_identity r = te_identity e
    ∧ rw_milestone r = milestone ∧ rw_timeline r = t
    ∧ te_written e' = te_written e ++ [r] ∧ te_hashed e' = te_hashed e ++ data
    ∧ te_rows e' = wrapping_add (te_rows e) 1
    ∧ te_active_responses e' = open_after (te_active_responses e) r
    ∧ te_completed_responses e'
      = (if is_ack r then wrapping_add (te_completed_responses e) 1 else te_completed_responses e)
    ∧ te_identity e' = te_identity e.
Definition keeps (e e' : TimelineEvidence) : Prop :=
  same_seal e e' ∧ te_directory e' = te_directory e ∧ te_failure e' = te_failure e.

Lemma append_row_cases qpc ms milestone t e :
  qpc_required qpc t = true →
  let run := append_row io_answer encode qpc ms milestone t e in
  keeps e run.2
  ∧ ((same_file e run.2 ∧ is_ok run.1 = false)
     ∨ (row_added qpc milestone t e run.2
        ∧ if bool_decide (milestone = "aborted") then ∃ msg, run.1 = Err (Fail msg) else run.1 = Ok tt)).
Proof.
  intros Hq. unfold append_row, disk. unmonad. cbn [fst snd].
  destruct (is_blank (dt_response_id t) || is_blank (dt_cue_id t)) eqn:Hb; cbn -[bool_decide];
    [split; [done|left; split; [done|done]]|]. apply orb_false_iff in Hb as [Hb1 Hb2].
  destruct (bool_decide (milestone = "audio-delta") && _) eqn:Hd; cbn -[bool_decide];
    [split; [done|left; split; [done|done]]|].
  destruct (bool_decide (milestone = "renderer-ack") && _) eqn:Ha; cbn -[bool_decide];
    [split; [done|left; split; [done|done]]|].
  destruct (encode _) as [data|err] eqn:He; cbn -[bool_decide];
    [|split; [done|left; split; [done|done]]].
  destruct (te_file e); cbn -[bool_decide]; [|split; [done|left; split; [done|done]]].
  destruct (io_answer (te_io e)) as [[]|err]; cbn -[bool_decide];
    [|split; [done|left; split; [done|done]]].
  set (r := mk_row _ _ _ _ _ _) in *.
  assert (row_ok (te_active_responses e) r) as Hrow.
  { unfold row_ok, is_delta, is_ack; simpl. split_and!; [done|done|done| |].
    - intros E. rewrite E in Hd. simpl in Hd. by apply bool_decide_eq_false in Hd.
    - intros E. rewrite E in Ha. simpl in Ha. apply orb_false_iff in Ha as [Hi Hp].
      apply negb_false_iff in Hi, Hp. by apply bool_decide_eq_true in Hi. }
  destruct (bool_decide (milestone = "audio-delta")) eqn:Ed; cbn -[bool_decide];
  destruct (bool_decide (milestone = "renderer-ack")) eqn:Ea; cbn -[bool_decide];
  destruct (bool_decide (milestone = "aborted")) eqn:Eb; cbn -[bool_decide];
    try (exfalso; bool_hyps; congruence);
    (split; [done|right; split; [|eauto]]; exists r, data;
     unfold open_after, is_delta, is_ack; cbn -[bool_decide]; rewrite ?Ed, ?Ea; split_and!; done).
Qed.

Lemma open_file_same e :
  let e' := (when (negb (te_started e))
               (modify (λ e, e <| te_started := true |>) ;;;
                let* failure := gets te_failure in
                when (negb (is_Some_b failure)) (create_timeline io_answer)) e) in
  is_ok e'.1 = true ∧ same_file e e'.2 ∧ same_seal e e'.2 ∧ te_directory e'.2 = te_directory e.
Proof.
  destruct (te_started e); [done|].
  unfold when at 1. unfold bind, modify, gets. cbn [fst snd negb].
  set (e1 := e <| te_started := true |>).
  destruct (is_Some_b (te_failure e1)); [done|].
  exact (create_timeline_same e1).
Qed.

Lemma append_cases qpc ms milestone t e :
  let e' := (append io_answer encode qpc ms milestone t e).2 in
  same_seal e e' ∧ te_directory e' = te_directory e
  ∧ (same_file e e'
     ∨ (te_sealed e = false ∧ te_failure e = None ∧ row_added qpc milestone t e e'
        ∧ (te_directory e ≠ None → te_failure e' = None → milestone ≠ "aborted"))).
Proof.
  unfold append. rewrite bind_gets. cbv beta.
  destruct (te_directory e) as [dir|] eqn:Hdir; [|split_and!; [done|exact Hdir|by left]].
  rewrite bind_modify. cbv beta. set (e1 := e <| te_last_owner := _ |>).
  assert (same_file e e1 ∧ same_seal e e1 ∧ te_directory e1 = Some dir) as (F1 & S1 & D1) by done.
  rewrite bind_gets. cbv beta. destruct (te_sealed e1) eqn:Hs; [split_and!; [done|exact D1|by left]|].
  unfold fail_if. rewrite bind_ret, bind_gets. cbv beta.
  pose proof (open_file_same e1) as (O2 & F2 & S2 & D2). cbn zeta in *.
  destruct (when (negb (te_started e1)) _ e1) as [[[]|?] e2] eqn:Hopen; [|done].
  rewrite (bind_run _ _ _ _ _ Hopen), bind_gets. cbv beta. cbn [fst snd] in *.
  assert (same_file e e2) as F by (by etransitivity).
  assert (same_seal e e2) as HS by (destruct S1, S2; split; congruence).
  destruct (te_failure e2) as [msg|] eqn:Hf;
    [split; [done|split; [exact (eq_trans D2 D1)|by left]]|].
  destruct (negb (qpc_required qpc t)) eqn:Hq.
  { unfold bind, modify, fail, throw. cbn [fst snd].
    destruct (evidence_fail_same "playback timeline missing authoritative QPC timestamp" e2) as (F3 & [S3 T3] & D3).
    destruct HS. split_and!; [split; congruence|congruence|left; by etransitivity]. }
  apply negb_false_iff in Hq.
  pose proof (append_row_cases qpc ms milestone t e2 Hq) as ([[S3 T3] [D3 F3]] & Hcases).
  destruct (append_row _ _ _ _ _ _ e2) as [o e3]. cbn [fst snd] in *.
  destruct HS as [HS1 HS2]. destruct F as (Ew & Ea & Er & Ec & Eh & Ei & Hfe).
  destruct Hcases as [[Hsame Hok]|[Hadd Hres]].
  - assert (same_file e e3) as F4 by (transitivity e2; [unfold same_file; tauto|done]).
    destruct o as [[]|[error|msg]]; [done| |]; cbn [fst snd].
    + destruct (evidence_fail_same ("playback timeline append failed: " +:+ error) e3) as (F5 & [S5 T5] & D5).
      split_and!; [split; congruence|congruence|left; by etransitivity].
    + split_and!; [split; congruence|congruence|by left].
  - assert (∀ e', te_written e' = te_written e3 → te_hashed e' = te_hashed e3 → te_rows e' = te_rows e3
      → te_active_responses e' = te_active_responses e3 → te_identity e' = te_identity e3
      → te_completed_responses e' = te_completed_responses e3 → row_added qpc milestone t e e') as Hany.
    { intros e' H1 H2 H3 H4 H5 H6. unfold row_added in *.
      rewrite Ew, Ea, Er, Ec, Eh, Ei in Hadd. rewrite H1, H2, H3, H4, H5, H6. done. }
    assert (te_sealed e = false) as Hsealed by (destruct S1; congruence).
    destruct (bool_decide (milestone = "aborted")) eqn:Hab.
    + destruct Hres as [msg ->]. cbn [fst snd].
      unfold evidence_fail. rewrite D3, D2, D1, F3, Hf. cbn.
      split_and!; [split; cbn; congruence|congruence|right; split_and!; [done|auto|by apply Hany|done]].
    + rewrite Hres. cbn [fst snd].
      split_and!; [split; congruence|congruence|right; split_and!; [done|auto|by apply Hany|]].
      intros _ _. by apply bool_decide_eq_false in Hab.
Qed.

Lemma row_added_facts qpc milestone t e e' :
  te_failure e = None → file_facts e → row_added qpc milestone t e e' →
  (te_failure e' = None → milestone ≠ "aborted") → same_seal e e' → te_sealed e = false →
  file_facts e'.
Proof.
  intros Hf HF (r & data & Hok & He & Hn & Hi & Hm & Ht & Ew & Eh & Er & Ea & Ec & Ei) Hab [Es Et] Hs.
  destruct HF. constructor; rewrite ?Ew, ?Eh, ?Er, ?Ea, ?Ec, ?Ei, ?Et.
  - apply rows_ok_snoc; [done|]. by rewrite <- ff_active0.
  - by rewrite open_responses_snoc, <- ff_active0.
  - rewrite length_app, ff_rows0. unfold wrapping_add, wrap. simpl.
    rewrite Nat2Z.inj_add, Zplus_mod_idemp_l. done.
  - intros k x. rewrite lookup_app_Some. intros [Hk|[Hk Hx]]; [by apply ff_numbers0|].
    apply list_lookup_singleton_Some in Hx as [Hx <-].
    replace k with (length (te_written e)) by lia. by rewrite Hn, ff_rows0.
  - rewrite count_if_app, count_if_cons, ff_completed0. unfold count_if at 3. simpl.
    destruct (is_ack r).
    + unfold wrapping_add, wrap. rewrite Nat2Z.inj_add, Zplus_mod_idemp_l. done.
    + by rewrite Nat.add_0_r.
  - rewrite fmap_app, concat_app. simpl. unfold row_bytes at 2. rewrite He, app_nil_r.
    by rewrite ff_hashed0.
  - intros Hnone. rewrite count_if_app, ff_aborted0, count_if_cons by done. unfold count_if. simpl.
    unfold is_aborted. rewrite Hm. by rewrite bool_decide_eq_false_2 by auto.
  - intros x Hx. destruct (ff_terminal0 x Hx) as [Hsealed _]. congruence.
Qed.

(** [seal] leaves the rows alone and writes what they say. *)
Lemma close_file_cases e :
  te_directory e ≠ None →
  ∃ e0, close_file io_answer e = (Ok tt, e0) ∧ same_file e e0
    ∧ te_sealed e0 = true ∧ te_terminal e0 = te_terminal e ∧ te_directory e0 = te_directory e
    ∧ (te_failure e0 = None → te_rows e ≠ 0 ∧ te_active_responses e = ∅).
Proof.
  destruct e as [[dir|] file h b rows failure id s st active c lo w t k]; [|done]. intros _.
  unfold close_file, disk, evidence_fail. unmonad. cbn -[bool_decide].
  destruct (rows =? 0) eqn:Hr; cbn -[bool_decide];
  destruct (bool_decide (active = ∅)) eqn:Ha; cbn -[bool_decide];
  destruct failure; cbn -[bool_decide]; destruct file; cbn -[bool_decide];
  try destruct (io_answer k) as [[]|a]; cbn -[bool_decide];
  (eexists; split; [reflexivity|]; unfold same_file; cbn -[bool_decide];
   bool_hyps; split_and!; try done; congruence).
Qed.
Lemma write_terminal_cases terminal e :
  let e' := (write_terminal io_answer terminal e).2 in
  same_file e e' ∧ te_sealed e' = te_sealed e
  ∧ (te_terminal e' = te_terminal e ∨ te_terminal e' = Some terminal).
Proof.
  unfold write_terminal, disk. unmonad. cbn.
  destruct (io_answer (te_io e)) as [[]|a]; cbn; [|by split_and!; [..|left]].
  destruct (io_answer (S (te_io e))) as [[]|a]; cbn; [|by split_and!; [..|left]].
  destruct (io_answer (S (S (te_io e)))) as [[]|a]; cbn; by split_and!; [..|right].
Qed.

Lemma seal_facts e : file_facts e → file_facts (seal io_answer sha256_hex e).2.
Proof.
  intros HF. unfold seal. rewrite bind_gets. cbv beta. cbn [id].
  destruct (negb (is_Some_b (te_directory e)) || negb (te_started e)) eqn:Hon; [done|].
  apply orb_false_iff in Hon as [Hdir _]. apply negb_false_iff, is_Some_b_true in Hdir as [dir Hdir].
  destruct (te_sealed e) eqn:Hs; [done|].
  destruct (close_file_cases e) as (e0 & Hrun & F0 & S0 & T0 & D0 & Hf0); [congruence|].
  unfold seal_active. rewrite (bind_run _ _ _ _ _ Hrun), bind_gets. cbv beta.
  assert (te_terminal e = None) as Ht.
  { destruct (te_terminal e) as [t|] eqn:E; [|done]. destruct (ff_terminal e HF t E). congruence. }
  pose proof (write_terminal_cases (terminal_of sha256_hex e0) e0) as (F1 & S1 & T1).
  destruct (write_terminal io_answer _ e0) as [o e1]. cbn [snd] in *.
  match goal with |- file_facts ?x => assert (same_file e1 x ∧ same_seal e1 x) as (F2 & S2 & T2);
    [|generalize dependent x; intros e2 F2 S2 T2] end.
  { destruct o as [u|a]; [done|].
    destruct (evidence_fail_same ("playback timeline seal failed: " +:+ describe (Err a)) e1)
      as (? & ? & _). done. }
  assert (same_file e e2) as F by (do 2 (etransitivity; [eassumption|]); done).
  destruct F as (Ew & Ea & Er & Ec & Eh & Ei & Hf). destruct F0 as (Ew0 & Ea0 & Er0 & Ec0 & Eh0 & Ei0 & Hfe0).
  destruct HF. constructor; rewrite ?Ew, ?Ea, ?Er, ?Ec, ?Eh, ?Ei; try done; [by auto|].
  intros t Hte. rewrite T2 in Hte. destruct T1 as [T1|T1]; [congruence|].
  assert (t = terminal_of sha256_hex e0) as -> by congruence.
  unfold terminal_facts, terminal_of; simpl. rewrite Ew, Ea, Er, Ec, Eh, Ei, Ea0, Er0, Ec0, Eh0, Ei0.
  split_and!; try done; [congruence|].
  intros Hc%negb_true_iff%is_Some_b_false. split; [done|]. destruct (Hf0 Hc). auto.
Qed.

Lemma exec_evidence_facts o e : file_facts e → file_facts (exec_evidence io_answer encode sha256_hex o e).
Proof.
  intros HF. destruct o as [reason|qpc ms milestone t|]; simpl.
  - destruct (evidence_fail_same reason e) as (? & ? & _). by eapply file_facts_same.
  - pose proof (append_cases qpc ms milestone t e) as (HS & Hd & [Hsame|(Hs & Hf & Hadd & Hab)]);
      [by eapply file_facts_same|].
    assert (te_directory e ≠ None) as Hdir.
    { intros Hnone. revert Hadd. unfold append. rewrite bind_gets. cbv beta. rewrite Hnone. simpl.
      intros (r & _ & _ & _ & _ & _ & _ & _ & Ew & _). apply (f_equal length) in Ew.
      rewrite length_app in Ew. simpl in Ew. lia. }
    eapply row_added_facts; eauto.
  - by apply seal_facts.
Qed.
Lemma from_env_facts directory identity : file_facts (from_env directory identity).
Proof.
  unfold from_env. cbv zeta. set (e := mk_evidence _ _ _ _ _ _ _ _ _ _ _ _ _ _ _).
  assert (file_facts e) as HF by (by constructor).
  destruct (_ && _); [|done].
  destruct (evidence_fail_same "playback timeline missing startup-frozen media authority identity" e)
    as (? & ? & _). by eapply file_facts_same.
Qed.
Lemma run_evidence_facts ops e : file_facts e → file_facts (run_evidence ops e).
Proof.
  revert e. induction ops as [|o ops IH]; intros e HF; [done|]. simpl. by apply IH, exec_evidence_facts.
Qed.
Lemma exec_evidence_frozen o e : file_facts e → te_sealed e = true →
  let e' := exec_evidence io_answer encode sha256_hex o e in
  te_written e' = te_written e ∧ te_terminal e' = te_terminal e ∧ te_sealed e' = true.
Proof.
  intros HF Hs. destruct o as [reason|qpc ms milestone t|]; simpl.
  - destruct (evidence_fail_same reason e) as ((Ew & _) & [Es Et] & _). split_and!; congruence.
  - destruct (append_cases qpc ms milestone t e) as ([Es Et] & _ & [(Ew & _)|(H & _)]);
      [split_and!; congruence|congruence].
  - unfold seal. rewrite bind_gets. cbv beta. cbn [id]. rewrite Hs. by destruct (_ || _).
Qed.
Lemma run_evidence_frozen ops e : file_facts e → te_sealed e = true →
  te_written (run_evidence ops e) = te_written e ∧ te_terminal (run_evidence ops e) = te_terminal e.
Proof.
  revert e. induction ops as [|o ops IH]; intros e HF Hs; [done|]. simpl.
  destruct (exec_evidence_frozen o e HF Hs) as (Ew & Et & Es).
  destruct (IH _ (exec_evidence_facts o e HF) Es) as [IHw IHt]. split; congruence.
Qed.
Lemma run_evidence_identity ops e : te_identity (run_evidence ops e) = te_identity e.
Proof.
  revert e. induction ops as [|o ops IH]; intros e; [done|]. simpl. rewrite IH. clear IH.
  destruct o as [reason|qpc ms milestone t|]; simpl.
  - by destruct (evidence_fail_same reason e) as ((_ & _ & _ & _ & _ & Ei & _) & _).
  - destruct (append_cases qpc ms milestone t e) as (_ & _ & [(_ & _ & _ & _ & _ & Ei & _)|(_ & _ & Hadd & _)]);
      [done|]. by destruct Hadd as (r & data & ? & ? & ? & ? & ? & ? & ? & ? & ? & ? & ? & Ei).
  - unfold seal. rewrite bind_gets. cbv beta. cbn [id].
    destruct (negb (is_Some_b (te_directory e)) || negb (te_started e)) eqn:Hon; [done|].
    apply orb_false_iff in Hon as [Hdir _]. apply negb_false_iff, is_Some_b_true in Hdir as [dir Hdir].
    destruct (te_sealed e); [done|].
    destruct (close_file_cases e) as (e0 & Hrun & F0 & _); [congruence|].
    unfold seal_active. rewrite (bind_run _ _ _ _ _ Hrun), bind_gets. cbv beta.
    pose proof (write_terminal_cases (terminal_of sha256_hex e0) e0) as (F1 & _).
    destruct F0 as (_ & _ & _ & _ & _ & Ei0 & _). destruct F1 as (_ & _ & _ & _ & _ & Ei1 & _).
    destruct (write_terminal io_answer _ e0) as [[u|a] e1]; simpl in *; [congruence|].
    destruct (evidence_fail_same ("playback timeline seal failed: " +:+ describe (Err a)) e1)
      as ((_ & _ & _ & _ & _ & Ei2 & _) & _). simpl in *. congruence.
Qed.

(** C33: A terminal document of the desktop playback evidence that says it is
    complete is true and final, for any sequence of appends, failures and seals
    and any I/O answers: it carries the frozen identity, the number and the digest
    of the rows written, some row was written, every first-delta row is followed
    by an acknowledgement of the same response with full physical authority, no
    row records an abort, and it counts as many completed responses as there are
    first deltas (modulo 2^64). Nothing later changes the rows or the document. *)
Theorem complete_terminal_is_acknowledged directory identity ops t :
  let e := run_evidence ops (from_env directory identity) in
  te_terminal e = Some t → tt_complete t = true →
  tt_identity t = identity ∧ tt_error t = None ∧ tt_pending_responses t = ∅
  ∧ tt_rows t = wrap (length (te_written e)) ∧ te_written e ≠ []
  ∧ tt_sha256 t = sha256_hex (concat (row_bytes <$> te_written e))
  ∧ tt_completed_responses t = wrap (count_if is_delta (te_written e))
  ∧ (∀ i r, te_written e !! i = Some r → is_delta r = true →
       ∃ j r', (i < j)%nat ∧ te_written e !! j = Some r' ∧ is_ack r' = true
         ∧ row_response r' = row_response r ∧ physical_authority (rw_timeline r') = true)
  ∧ (∀ r, r ∈ te_written e → rw_milestone r ≠ "aborted")
  ∧ (∀ more, te_written (run_evidence more e) = te_written e
             ∧ te_terminal (run_evidence more e) = Some t).
Proof.
  intros e Ht Hc. assert (file_facts e) as HF by apply run_evidence_facts, from_env_facts.
  assert (te_identity e = identity) as Hid.
  { unfold e. rewrite run_evidence_identity. unfold from_env. cbv zeta.
    destruct (_ && _); [|done]. unfold evidence_fail. by destruct (_ && _). }
  destruct (ff_terminal e HF t Ht) as (Hs & Hti & Hr & Hsha & Hcr & Hp & Hall).
  destruct (Hall Hc) as (Herr & Ha & Hrows & Hab).
  assert (open_responses (te_written e) = ∅) as Hopen by (by rewrite <- (ff_active e HF)).
  split_and!.
  - congruence.
  - done.
  - congruence.
  - rewrite Hr. apply HF.
  - intros Hnil. apply Hrows. rewrite (ff_rows e HF), Hnil. done.
  - rewrite Hsha. f_equal. apply HF.
  - rewrite Hcr, (ff_completed e HF). f_equal.
    pose proof (acks_and_open _ (ff_rows_ok e HF)) as Hn. rewrite Hopen, size_empty in Hn. lia.
  - intros i r Hi Hd. destruct (opened_is_closed_or_open _ i r Hi Hd) as [Ho|(j & r' & Hij & Hj & Hack & He)].
    + rewrite Hopen in Ho. set_solver.
    + exists j, r'. split_and!; try done.
      destruct (ff_rows_ok e HF j r' Hj) as (_ & _ & _ & _ & H). by apply H.
  - intros r Hin Hm. rewrite count_if_zero in Hab. specialize (Hab r Hin).
    unfold is_aborted in Hab. by apply bool_decide_eq_false in Hab.
  - intros more. destruct (run_evidence_frozen more e HF Hs) as [-> ->]. done.
Qed.
End Facts.

(** ** A run *)
Module TimelineDemo.
Definition identity : EvidenceIdentity := mk_evidence_identity (Some "run") (Some "cell") (Some "lease").
Definition opened : DesktopPlaybackTimeline := timeline_default
  <| dt_cue_id := "cue" |> <| dt_response_id := "response" |>
  <| dt_first_audio_delta_at_ms := 1 |> <| dt_first_audio_delta_qpc_100ns := Some 100 |>.
Definition acknowledged : DesktopPlaybackTimeline := opened
  <| dt_audio_done_at_ms := Some 2 |> <| dt_audio_done_qpc_100ns := Some 200 |>
  <| dt_render_complete_at_ms := Some 3 |> <| dt_render_complete_qpc_100ns := Some 300 |>
  <| dt_renderer_ack_at_ms := Some 4 |> <| dt_renderer_ack_qpc_100ns := Some 400 |>
  <| dt_renderer_ack_receipt_id := Some "receipt" |> <| dt_render_session_id := Some 1 |>
  <| dt_stream_start_count := 1 |> <| dt_source_sample_rate_hz := 24000 |>
  <| dt_render_sample_rate_hz := 48000 |> <| dt_accepted_source_frames := 24 |>
  <| dt_rendered_frames := 48 |>.
Definition ops : list evidence_op :=
  [EvAppend (Some 1) 1 "audio-delta" opened; EvAppend (Some 2) 5 "renderer-ack" acknowledged; EvSeal].
Definition io_ok (_ : nat) : outcome unit := Ok tt.
Definition encode (r : TimelineRow) : outcome (list Z) := Ok [rw_sequence r].
Definition sha (l : list Z) : string := show_uint (Z.of_nat (length l)).
Definition final : TimelineEvidence := run_evidence io_ok encode sha ops (from_env (Some "dir") identity).
End TimelineDemo.
Lemma complete_terminal_is_acknowledged_witness :
  ∃ t, te_terminal TimelineDemo.final = Some t ∧ tt_complete t = true
    ∧ tt_completed_responses t = 1 ∧ length (te_written TimelineDemo.final) = 2%nat
    ∧ te_written TimelineDemo.final ≠ [].
Proof.
  destruct (te_terminal TimelineDemo.final) as [t|] eqn:E; [|by vm_compute in E].
  exists t. assert (tt_complete t = true) as Hc by (vm_compute in E; by injection E as <-).
  destruct (complete_terminal_is_acknowledged TimelineDemo.io_ok TimelineDemo.encode TimelineDemo.sha
    (Some "dir") TimelineDemo.identity TimelineDemo.ops t E Hc) as (_ & _ & _ & _ & Hne & _).
  split_and!; [done|done|vm_compute in E; by injection E as <-|by vm_compute|exact Hne].
Defined.
