(* ===== verification/OmniPlaybackQueue.v ===== *)
(** * The queue of natively translated speech

    Models [OmniPlaybackQueue] of [audio/omni/protocol.rs]: the bounded queue
    between the provider session and the playback worker. A method is one section
    under the queue's mutex; every change is published to [PlaybackQuiescence].
    [recv_timeout] waits on a condition variable: [recv_pass] is one turn of its
    loop, [recv_wake] the turn after a wake-up. Instants are nanoseconds. *)
From S2P Require Import Prelude RustStr DesktopTimeline PlaybackOwnership TranslatedPcm WatchTerminal PlaybackQuiescence.

Definition OMNI_OUTPUT_SAMPLE_RATE_HZ : Z := 24000.
Definition OMNI_PLAYBACK_QUEUE_CAPACITY : nat := Z.to_nat 260.
Definition OMNI_PLAYBACK_MAX_QUEUE_AGE : Z := 5000000000.
Definition from_millis (ms : Z) : Z := ms * 1000000.
Definition u128_max : Z := 340282366920938463463374607431768211455.

(** ** Data *)
(** The fields both variants of [OmniPlaybackCommand] have. *)
Record CueAudio := mk_cue_audio {
  ca_samples : list Z; ca_cue_id : string; ca_response_id : option string;
  ca_sample_rate_hz : Z; ca_queued_at : Z; ca_created_at_ms : Z; ca_estimated_duration_ms : Z
}.
Inductive OmniPlaybackCommand :=
| Play (audio : CueAudio)
| Stream (audio : CueAudio) (chunk_index : Z) (stream_state : TranslationStreamState)
    (bridge_owner : option BridgeTranslationSinkOwner).
#[export] Instance stream_state_eq_dec : EqDecision TranslationStreamState.
Proof. solve_decision. Defined.
#[export] Instance cue_audio_eq_dec : EqDecision CueAudio.
Proof. solve_decision. Defined.
#[export] Instance sink_owner_eq_dec : EqDecision BridgeTranslationSinkOwner.
Proof. solve_decision. Defined.
#[export] Instance playback_command_eq_dec : EqDecision OmniPlaybackCommand.
Proof. solve_decision. Defined.
Definition command_audio (c : OmniPlaybackCommand) : CueAudio :=
  match c with Play a => a | Stream a _ _ _ => a end.
Definition command_cue (c : OmniPlaybackCommand) : string := ca_cue_id (command_audio c).
Definition estimated_duration (c : OmniPlaybackCommand) : Z :=
  from_millis (ca_estimated_duration_ms (command_audio c)).
Definition is_stream_of (cue_id : string) (c : OmniPlaybackCommand) : bool :=
  match c with Stream a _ _ _ => bool_decide (ca_cue_id a = cue_id) | Play _ => false end.

Inductive OmniPlaybackOverflowReason := QueueFull | RealtimeBudget.
Record OmniPlaybackStaleDrop := mk_stale {
  sd_cue_id : string; sd_projected_start_delay_ms : Z; sd_observed_queue_age_ms : Z
}.
Inductive OmniPlaybackEnqueueOutcome :=
| Queued
| QueuedAfterDroppingStale (dropped : list OmniPlaybackStaleDrop)
| Overflow (reason : OmniPlaybackOverflowReason) (dropped : list OmniPlaybackStaleDrop)
    (projected_start_delay_ms : Z)
| Terminated
| Stopped.
Inductive OmniPlaybackShutdown := Running | Finishing | Draining | Aborted.
#[export] Instance shutdown_eq_dec : EqDecision OmniPlaybackShutdown.
Proof. solve_decision. Defined.
Record OmniPlaybackQueueState := mk_queue {
  oq_pending : list OmniPlaybackCommand; oq_active_expected_end : option Z;
  oq_terminated_stream_cues : gset string;
  oq_desktop_timelines : gmap string DesktopPlaybackTimeline;
  oq_desktop_stream_active : bool; oq_shutdown : OmniPlaybackShutdown
}.
#[export] Instance queue_settable : Settable OmniPlaybackQueueState := λ s,
  mk_queue (oq_pending s) (oq_active_expected_end s) (oq_terminated_stream_cues s)
    (oq_desktop_timelines s) (oq_desktop_stream_active s) (oq_shutdown s).
Definition queue_new : OmniPlaybackQueueState := mk_queue [] None ∅ ∅ false Running.
Inductive OmniPlaybackReceiveOutcome :=
| Command (command : OmniPlaybackCommand) (dropped : list OmniPlaybackStaleDrop)
| StaleDropped (dropped : list OmniPlaybackStaleDrop)
| ReceiveTimeout
| ReceiveStopped.

(** What a session's playback touches: its queue, its evidence, the process-wide
    quiescence and Watch ledger, and the issues of the session report. *)
Record Playback := mk_playback_state {
  pb_queue : OmniPlaybackQueueState; pb_evidence : TimelineEvidence; pb_guards : Guards;
  pb_watch : WatchLifecycle; pb_issues : list (string * string)
}.
#[export] Instance playback_state_settable : Settable Playback := λ p,
  mk_playback_state (pb_queue p) (pb_evidence p) (pb_guards p) (pb_watch p) (pb_issues p).

Section Queue.
Context (capacity : nat) (values : gmap string BridgePlaybackCue → list BridgePlaybackCue).
Context (io_answer : nat → outcome unit) (encode : TimelineRow → outcome (list Z)).
Abbreviation P := (M Playback).

(** ** Projection and publication *)
Definition projected_start (s : OmniPlaybackQueueState) (now : Z) : Z :=
  fold_left (λ start command, start + estimated_duration command) (oq_pending s)
    (Z.max (default now (oq_active_expected_end s)) now).
Definition pending_frames (s : OmniPlaybackQueueState) (now : Z) : Z :=
  let pending_duration := Z.max (projected_start s now - now) 0 in
  let scaled := Z.min (Z.min (pending_duration * OMNI_OUTPUT_SAMPLE_RATE_HZ) u128_max + 999999999)
                  u128_max in
  Z.min (scaled / 1000000000) u64_max.
Definition queue_active (s : OmniPlaybackQueueState) : bool :=
  is_Some_b (oq_active_expected_end s) || oq_desktop_stream_active s.
(** With a quiescence: a queue without one occurs only in tests. *)
Definition publish_state (now : Z) : P unit :=
  modify (λ p, p <| pb_guards ::= (λ g, g <| gd_state ::=
    set_queue_state values (Z.of_nat (length (oq_pending (pb_queue p))))
      (if queue_active (pb_queue p) then 1 else 0) (pending_frames (pb_queue p) now)
      OMNI_OUTPUT_SAMPLE_RATE_HZ |>) |>).
Definition update_queue (f : OmniPlaybackQueueState → OmniPlaybackQueueState) : P unit :=
  modify (λ p, p <| pb_queue ::= f |>).
Definition on_evidence (f : TimelineEvidence → TimelineEvidence) : P unit :=
  modify (λ p, p <| pb_evidence ::= f |>).

(** ** The producer's side *)
(** It removes nothing: an accepted command is never revoked for its age. *)
Definition drain_expired_pending (s : OmniPlaybackQueueState) (now : Z)
    : list OmniPlaybackStaleDrop * OmniPlaybackQueueState := ([], s).
Definition omni_playback_queue_age_expired (age : Z) : bool := OMNI_PLAYBACK_MAX_QUEUE_AGE <? age.
(** The age that admission limits: only the start of a stream has one. *)
Definition realtime_start_age (command : OmniPlaybackCommand) (unix_ms : Z) : option Z :=
  match command with
  | Stream a _ StreamStart _ => Some (from_millis (saturating_sub unix_ms (ca_created_at_ms a)))
  | _ => None
  end.
(** [now], [published] and [unix_ms] are its clock readings, in order. *)
Definition enqueue (command : OmniPlaybackCommand) (now published unix_ms : Z)
    : P OmniPlaybackEnqueueOutcome :=
  let* s := gets pb_queue in
  match oq_shutdown s with
  | Draining | Aborted => ret Stopped
  | _ =>
      if match command with
         | Stream a _ _ _ => bool_decide (ca_cue_id a ∈ oq_terminated_stream_cues s)
         | Play _ => false
         end then ret Terminated else
      let '(dropped, s) := drain_expired_pending s now in
      update_queue (λ _, s) ;;;
      let delay := Z.max (projected_start s now - ca_queued_at (command_audio command)) 0 in
      let delay_ms := Z.min (delay / 1000000) u64_max in
      if (capacity <=? length (oq_pending s))%nat then
        publish_state published ;;; ret (Overflow QueueFull dropped delay_ms)
      else if match realtime_start_age command unix_ms with
              | Some age => omni_playback_queue_age_expired age | None => false
              end then
        publish_state published ;;; ret (Overflow RealtimeBudget dropped delay_ms)
      else
        update_queue (λ s, s <| oq_pending ::= λ l, l ++ [command] |>) ;;;
        publish_state published ;;;
        ret (match dropped with [] => Queued | _ => QueuedAfterDroppingStale dropped end)
  end.
(** The marker [abort_stream] puts at the head of the queue. *)
Definition abort_marker (cue_id : string) (chunk_index created_at_ms now : Z) : OmniPlaybackCommand :=
  Stream (mk_cue_audio [] cue_id None OMNI_OUTPUT_SAMPLE_RATE_HZ now created_at_ms 0)
    chunk_index StreamAbort None.
Definition abort_stream (cue_id : string) (chunk_index created_at_ms now published : Z) : P unit :=
  let* s := gets pb_queue in
  if bool_decide (oq_shutdown s = Aborted) then ret tt
  else if bool_decide (cue_id ∈ oq_terminated_stream_cues s) then ret tt
  else
    update_queue (λ s, s
      <| oq_terminated_stream_cues ::= λ cues, {[cue_id]} ∪ cues |>
      <| oq_pending ::= λ l, abort_marker cue_id chunk_index created_at_ms now
           :: filter (λ c, is_stream_of cue_id c = false) l |>) ;;;
    publish_state published.

(** ** The worker's side *)
Definition recv_pass (deadline now published : Z) : P (progress OmniPlaybackReceiveOutcome) :=
  let* s := gets pb_queue in
  if bool_decide (oq_shutdown s = Aborted) then ret (Returned ReceiveStopped) else
  let '(dropped, s) := drain_expired_pending s now in
  update_queue (λ _, s) ;;;
  match oq_pending s with
  | command :: rest =>
      update_queue (λ s, s <| oq_pending := rest |>
                          <| oq_active_expected_end := Some (now + estimated_duration command) |>) ;;;
      publish_state published ;;;
      ret (Returned (Command command dropped))
  | [] =>
      match dropped with
      | _ :: _ => publish_state published ;;; ret (Returned (StaleDropped dropped))
      | [] =>
          if bool_decide (oq_shutdown s = Draining) then ret (Returned ReceiveStopped)
          else if deadline <=? now then ret (Returned ReceiveTimeout)
          else ret Waiting
      end
  end.
(** After the condition variable was signalled, or its wait timed out. *)
Definition recv_wake (timed_out : bool) (deadline now published : Z)
    : P (progress OmniPlaybackReceiveOutcome) :=
  let* s := gets pb_queue in
  match oq_pending s with
  | [] => if timed_out then ret (Returned ReceiveTimeout) else recv_pass deadline now published
  | _ => recv_pass deadline now published
  end.
Definition finish_active (published : Z) : P unit :=
  update_queue (λ s, s <| oq_active_expected_end := None |>) ;;; publish_state published.
Definition return_pending (command : OmniPlaybackCommand) (published : Z) : P unit :=
  let* s := gets pb_queue in
  when (negb (bool_decide (oq_shutdown s = Aborted)))
    (update_queue (λ s, s <| oq_pending ::= λ l, command :: l |>) ;;; publish_state published).
Definition set_desktop_stream_active (active : bool) (published : Z) : P unit :=
  update_queue (λ s, s <| oq_desktop_stream_active := active |>) ;;; publish_state published.
Definition stream_cancelled (cue_id : string) (s : OmniPlaybackQueueState) : bool :=
  bool_decide (oq_shutdown s = Aborted) || bool_decide (cue_id ∈ oq_terminated_stream_cues s).

(** ** Shutdown *)
Definition drain_and_stop (published : Z) : P unit :=
  update_queue (λ s, match oq_shutdown s with
                     | Running | Finishing => s <| oq_shutdown := Draining |>
                     | _ => s
                     end) ;;; publish_state published.
Definition begin_provider_finishing (published : Z) : P unit :=
  update_queue (λ s, match oq_shutdown s with
                     | Running => s <| oq_shutdown := Finishing |>
                     | _ => s
                     end) ;;; publish_state published.
Definition abort (published : Z) : P unit :=
  on_evidence (evidence_fail "playback worker aborted before successful drain") ;;;
  update_queue (λ s, s <| oq_shutdown := Aborted |> <| oq_pending := [] |>
    <| oq_terminated_stream_cues := ∅ |> <| oq_desktop_timelines := ∅ |>
    <| oq_active_expected_end := None |>) ;;; publish_state published.

(** ** The timelines of desktop responses *)
(** [qpc] and [ms] are the readings the evidence makes for its row. *)
Definition append_desktop_timeline (qpc : option Z) (ms : Z) (milestone : string)
    (t : DesktopPlaybackTimeline) : P unit :=
  zoom pb_evidence (append io_answer encode qpc ms milestone t).
Definition issue (code severity : string) : P unit :=
  modify (λ p, p <| pb_issues ::= λ l, l ++ [(code, severity)] |>).
(** [result.and_then(..)] observed as a value; a panic propagates. *)
Definition observe {A} (m : P A) : P (option string) := λ p,
  match m p with
  | (Ok _, p) => (Ok None, p)
  | (Err (Fail error), p) => (Ok (Some error), p)
  | (Err (Panic msg), p) => (Err (Panic msg), p)
  end.
Definition fail_desktop_evidence (cue_id response_id error : string) (now published : Z) : P unit :=
  let reason := "native-desktop-evidence-failed: " +:+ error in
  let* edge := observe (zoom pb_watch (record_renderer_cue_submitted cue_id response_id now ;;;
                                       record_renderer_failure cue_id reason)) in
  let failure := match edge with
                 | None => reason
                 | Some edge_error =>
                     reason +:+ "; typed renderer failure edge rejected: " +:+ edge_error
                 end in
  on_evidence (evidence_fail failure) ;;;
  abort published ;;;
  issue "native-desktop-evidence-failed" "error" ;;;
  fail failure.
Definition record_desktop_audio_delta (cue_id response_id : string) (now_ms : Z) (qpc_100ns : option Z)
    (audible : bool) (qpc : option Z) (ms : Z) : P unit :=
  let* s := gets pb_queue in
  let existing := oq_desktop_timelines s !! response_id in
  fail_if (negb (is_Some_b existing) && (capacity <=? size (oq_desktop_timelines s))%nat)
    "bounded playback timeline response inventory is full" ;;;
  let entry := default (timeline_default <| dt_cue_id := cue_id |> <| dt_response_id := response_id |>
      <| dt_first_audio_delta_at_ms := now_ms |> <| dt_first_audio_delta_qpc_100ns := qpc_100ns |>
      <| dt_source_sample_rate_hz := 24000 |> <| dt_render_sample_rate_hz := 48000 |>) existing in
  let first_audible := audible && negb (is_Some_b (dt_first_audible_audio_delta_at_ms entry)) in
  let entry := if first_audible
               then entry <| dt_first_audible_audio_delta_at_ms := Some now_ms |>
                          <| dt_first_audible_audio_delta_qpc_100ns := qpc_100ns |>
               else entry in
  update_queue (λ s, s <| oq_desktop_timelines ::= <[response_id := entry]> |>) ;;;
  if negb (is_Some_b existing) then append_desktop_timeline qpc ms "audio-delta" entry
  else when first_audible (append_desktop_timeline qpc ms "first-audible-audio-delta" entry).
Definition record_desktop_audio_done (response_id : string) (now_ms : Z) (qpc_100ns : option Z)
    (qpc : option Z) (ms : Z) : P unit :=
  let* s := gets pb_queue in
  match oq_desktop_timelines s !! response_id with
  | None => ret tt
  | Some timeline =>
      fail_if (is_Some_b (dt_audio_done_at_ms timeline)) "duplicate typed desktop audio.done" ;;;
      let timeline := timeline <| dt_audio_done_at_ms := Some now_ms |>
                               <| dt_audio_done_qpc_100ns := qpc_100ns |> in
      update_queue (λ s, s <| oq_desktop_timelines ::= <[response_id := timeline]> |>) ;;;
      append_desktop_timeline qpc ms "audio-done" timeline
  end.
Definition desktop_timeline (response_id : string) (s : OmniPlaybackQueueState)
    : option DesktopPlaybackTimeline := oq_desktop_timelines s !! response_id.
Definition remove_desktop_timeline (response_id : string) : P unit :=
  update_queue (λ s, s <| oq_desktop_timelines ::= delete response_id |>).
End Queue.
