(* ===== verification/OmniAudioOut.v ===== *)
(** * From provider audio to playback commands

    Models [process_audio_delta] and [process_audio_done] of
    [audio/omni/event_processor.rs] with [event_processor/playback_admission.rs]:
    how the audio of one provider response becomes commands of
    [OmniPlaybackQueue]. A handler is a run over the list of calls it made to the
    rest of the program; what those calls answer and what the clocks read is an
    arbitrary function of that list. JSON and base64 decoding are inputs. *)
From S2P Require Import Prelude RustStr TranslatedPcm SpeechRoute OmniPlaybackQueue.

(** ** Data *)
(** The fields of [OmniSpeechConfig] the modelled code reads, the gains apart. *)
Record OmniSpeechConfig := mk_speech_config {
  os_enabled : bool; os_route : RouteConfig; os_speaker_device_id : option string
}.
Definition configured_route (direction : string) (config : OmniSpeechConfig) : SpeechOutputRoutePlan :=
  for_configured_route direction (rc_local_playback_enabled (os_route config))
    (rc_virtual_mic_output_enabled (os_route config)) (rc_bridge_playback_enabled (os_route config)).

Record OmniAudioOutputState := mk_audio_output {
  ao_delta_count : Z; ao_delta_base64_bytes : Z; ao_response_id : option string;
  ao_buffer : list Z; ao_stream_cue_id : option string; ao_stream_chunk_index : Z;
  ao_stream_created_at_ms : option Z; ao_stream_aborted : bool
}.
#[export] Instance audio_output_settable : Settable OmniAudioOutputState := λ s,
  mk_audio_output (ao_delta_count s) (ao_delta_base64_bytes s) (ao_response_id s) (ao_buffer s)
    (ao_stream_cue_id s) (ao_stream_chunk_index s) (ao_stream_created_at_ms s) (ao_stream_aborted s).
Definition audio_output_new : OmniAudioOutputState := mk_audio_output 0 0 None [] None 0 None false.
(** [evt["delta"]]: its length and what decoding it gives; [evt["response_id"]]. *)
Record AudioDelta := mk_delta {
  ad_delta : option (Z * outcome (list Z)); ad_response_id : option string
}.

(** ** Calls to the rest of the program *)
Inductive PortCall :=
| SetPendingNativeAudio (pending : bool)
| ArchiveTranslatedPcm (cue_id : string) (samples : list Z)
| EnqueueCommand (command : OmniPlaybackCommand)
| AbortStream (cue_id : string) (chunk_index created_at_ms : Z)
| RecordAudioDelta (cue_id response_id : string) (now_ms : Z) (qpc : option Z) (audible : bool)
| RecordAudioDone (response_id : string) (now_ms : Z) (qpc : option Z)
| FailDesktopEvidence (cue_id response_id error : string)
| RendererFailure (cue_id reason : string)
| RecordStale (dropped : list OmniPlaybackStaleDrop)
| SessionIssue (code severity : string).
Record AudioEnv := mk_audio_env {
  ae_unix_ms : list PortCall → Z; ae_instant : list PortCall → Z; ae_qpc : list PortCall → option Z;
  ae_config : list PortCall → option OmniSpeechConfig;
  ae_owner : list PortCall → option BridgeTranslationSinkOwner;
  ae_enqueue : list PortCall → OmniPlaybackEnqueueOutcome;
  ae_record : list PortCall → outcome unit
}.
Definition BRIDGE_STREAM_BATCH_SAMPLES : nat := Z.to_nat OMNI_OUTPUT_SAMPLE_RATE_HZ.
Definition DESKTOP_STREAM_BATCH_SAMPLES : nat := Z.to_nat (OMNI_OUTPUT_SAMPLE_RATE_HZ / 10).
(** [(len as u64).saturating_mul(1_000).div_ceil(OMNI_OUTPUT_SAMPLE_RATE_HZ)]. *)
Definition duration_ms (samples : list Z) : Z :=
  (Z.min (Z.of_nat (length samples) * 1000) u64_max + OMNI_OUTPUT_SAMPLE_RATE_HZ - 1)
    / OMNI_OUTPUT_SAMPLE_RATE_HZ.
Definition saturating_add_u32 (a b : Z) : Z := Z.min (a + b) u32_max.
(** [matches!(outcome, Overflow { .. } | Stopped)]. *)
Definition rejected (o : OmniPlaybackEnqueueOutcome) : bool :=
  match o with Overflow _ _ _ | Stopped => true | _ => false end.
Definition present (cue_id : option string) : option string :=
  match cue_id with Some c => if is_blank c then None else Some c | None => None end.
Definition rejection_issue (o : OmniPlaybackEnqueueOutcome) : option (string * string) :=
  match o with
  | Overflow RealtimeBudget _ _ => Some ("native-playback-stream-stale-dropped", "warning")
  | Overflow QueueFull _ _ => Some ("native-playback-stream-overflow", "error")
  | Stopped => Some ("native-playback-stream-stopped", "warning")
  | _ => None
  end.

Section AudioOut.
Context (env : AudioEnv).
Abbreviation A := (M (list PortCall)).

Definition port (c : PortCall) : A unit := modify (λ calls, calls ++ [c]).
Definition now_unix_ms : A Z := gets (ae_unix_ms env).
Definition session_issue (code severity : string) : A unit := port (SessionIssue code severity).
Definition record_stream_enqueue_rejection (o : OmniPlaybackEnqueueOutcome) : A unit :=
  match rejection_issue o with Some (code, severity) => session_issue code severity | None => ret tt end.
(** The Bridge owner is read after the reservation [OmniSystem] models. *)
Definition enqueue_playback_command
    (command : option BridgeTranslationSinkOwner → OmniPlaybackCommand) : A OmniPlaybackEnqueueOutcome :=
  let* owner := gets (ae_owner env) in
  port (EnqueueCommand (command owner)) ;;; gets (ae_enqueue env).
(** An evidence call whose error the caller handles. *)
Definition recording (c : PortCall) : A (option string) :=
  port c ;;;
  let* answer := gets (ae_record env) in
  match answer with
  | Ok _ => ret None | Err (Fail error) => ret (Some error) | Err (Panic msg) => panic msg
  end.
Definition publish_pending_native_audio (s : OmniAudioOutputState) : A OmniAudioOutputState :=
  port (SetPendingNativeAudio
    (is_Some_b (ao_response_id s) || negb (bool_decide (ao_buffer s = []))
     || is_Some_b (ao_stream_cue_id s) || (0 <? ao_stream_chunk_index s)
     || is_Some_b (ao_stream_created_at_ms s))) ;;; ret s.

(** ** One delta *)
(** A response other than the one the open desktop stream belongs to. *)
Definition owner_changed (s : OmniAudioOutputState) (incoming : option string) : bool :=
  match ao_response_id s, incoming with
  | Some owner, Some incoming => negb (bool_decide (owner = incoming)) | _, _ => false
  end.
Definition check_response_owner (route : SpeechOutputRoutePlan) (incoming : option string)
    (received_ms : Z) (s : OmniAudioOutputState) : A OmniAudioOutputState :=
  match ao_stream_cue_id s with
  | Some active =>
      if play_to_speaker route && owner_changed s incoming then
        port (AbortStream active (ao_stream_chunk_index s)
                (default received_ms (ao_stream_created_at_ms s))) ;;;
        session_issue "native-playback-stream-response-owner-changed" "error" ;;;
        port (RendererFailure active "native-response-owner-changed") ;;;
        ret (s <| ao_stream_aborted := true |> <| ao_buffer := [] |>)
      else ret s
  | None => ret s
  end.
(** Whether a response is streamed to the desktop speaker. *)
Definition desktop_streaming (route : SpeechOutputRoutePlan) (config : OmniSpeechConfig) : bool :=
  play_to_speaker route && negb (write_to_virtual_mic route) && os_enabled config.
Definition record_delta_evidence (cue_id : string) (samples : list Z) (received_ms : Z)
    (received_qpc : option Z) (s : OmniAudioOutputState) : A OmniAudioOutputState :=
  let response := default "" (ao_response_id s) in
  let* error := recording (RecordAudioDelta cue_id response received_ms received_qpc
                             (existsb (λ x, negb (x =? 0)) samples)) in
  match error with
  | None => ret s
  | Some error =>
      port (AbortStream cue_id (ao_stream_chunk_index s)
              (default received_ms (ao_stream_created_at_ms s))) ;;;
      session_issue "native-desktop-timeline-write-failed" "error" ;;;
      port (FailDesktopEvidence cue_id response error) ;;;
      ret (s <| ao_stream_aborted := true |> <| ao_buffer := [] |>)
  end.
(** One turn of the batching loop. *)
Definition stream_batch (batch : nat) (cue_id : string) (speaker : bool) (received_at received_ms : Z)
    (s : OmniAudioOutputState) : A OmniAudioOutputState :=
  let* unix := now_unix_ms in
  let created := default (if speaker then received_ms else unix) (ao_stream_created_at_ms s) in
  let raw := take batch (ao_buffer s) in
  let s := s <| ao_stream_created_at_ms := Some created |> <| ao_buffer ::= drop batch |> in
  let state := if is_Some_b (ao_stream_cue_id s) then StreamChunk else StreamStart in
  let* instant := gets (ae_instant env) in
  let* result := enqueue_playback_command (λ owner,
    Stream (mk_cue_audio raw cue_id (ao_response_id s) OMNI_OUTPUT_SAMPLE_RATE_HZ
              (if speaker then received_at else instant) created (duration_ms raw))
      (ao_stream_chunk_index s) state owner) in
  if rejected result then
    port (AbortStream cue_id (ao_stream_chunk_index s) created) ;;;
    record_stream_enqueue_rejection result ;;;
    ret (s <| ao_stream_cue_id := None |> <| ao_stream_chunk_index := 0 |>
           <| ao_stream_created_at_ms := None |> <| ao_stream_aborted := true |>)
  else ret (s <| ao_stream_cue_id := Some cue_id |>
              <| ao_stream_chunk_index ::= λ i, saturating_add_u32 i 1 |>).
(** [while buffer.len() >= batch && !aborted]; each turn removes a sample. *)
Fixpoint stream_batches (fuel batch : nat) (cue_id : string) (speaker : bool)
    (received_at received_ms : Z) (s : OmniAudioOutputState) : A OmniAudioOutputState :=
  match fuel with
  | O => ret s
  | S fuel =>
      if (batch <=? length (ao_buffer s))%nat && negb (ao_stream_aborted s) then
        let* s := stream_batch batch cue_id speaker received_at received_ms s in
        stream_batches fuel batch cue_id speaker received_at received_ms s
      else ret s
  end.
Definition batch_samples (route : SpeechOutputRoutePlan) (buffered : nat) : nat :=
  if write_to_bridge_playback route then BRIDGE_STREAM_BATCH_SAMPLES
  else Nat.max (Nat.min DESKTOP_STREAM_BATCH_SAMPLES buffered) 1.
Definition stream_audio (route : SpeechOutputRoutePlan) (cue_id : string) (received_at received_ms : Z)
    (s : OmniAudioOutputState) : A OmniAudioOutputState :=
  match ao_stream_cue_id s with
  | Some active =>
      if negb (bool_decide (active = cue_id)) then
        let* unix := now_unix_ms in
        port (AbortStream active (ao_stream_chunk_index s) (default unix (ao_stream_created_at_ms s))) ;;;
        session_issue "native-playback-stream-overlap" "error" ;;;
        ret (s <| ao_stream_cue_id := None |> <| ao_stream_chunk_index := 0 |>
               <| ao_stream_created_at_ms := None |> <| ao_stream_aborted := true |>
               <| ao_buffer := [] |>)
      else
        stream_batches (length (ao_buffer s)) (batch_samples route (length (ao_buffer s))) cue_id
          (play_to_speaker route) received_at received_ms s
  | None =>
      stream_batches (length (ao_buffer s)) (batch_samples route (length (ao_buffer s))) cue_id
        (play_to_speaker route) received_at received_ms s
  end.
(** The part of [process_audio_delta] that knows the cue and the configuration. *)
Definition route_delta (direction cue_id : string) (config : OmniSpeechConfig)
    (incoming : option string) (samples : list Z) (received_at received_ms : Z)
    (received_qpc : option Z) (s : OmniAudioOutputState) : A OmniAudioOutputState :=
  let route := configured_route direction config in
  let* s := check_response_owner route incoming received_ms s in
  let* s := if desktop_streaming route config && negb (ao_stream_aborted s)
               && negb (bool_decide (samples = []))
            then record_delta_evidence cue_id samples received_ms received_qpc s else ret s in
  if (write_to_bridge_playback route || desktop_streaming route config) && negb (ao_stream_aborted s)
  then stream_audio route cue_id received_at received_ms s else ret s.
Definition process_audio_delta (direction : string) (cue_id : option string) (evt : AudioDelta)
    (s : OmniAudioOutputState) : A OmniAudioOutputState :=
  let* received_at := gets (ae_instant env) in
  let* received_ms := now_unix_ms in
  let* received_qpc := gets (ae_qpc env) in
  let* s :=
    match ad_delta evt with
    | Some (base64_length, Ok samples) =>
        let s := s <| ao_delta_count ::= λ n, wrapping_add n 1 |>
                   <| ao_delta_base64_bytes ::= λ n, wrapping_add n base64_length |>
                   <| ao_response_id ::= λ r, match r with Some _ => r | None => ad_response_id evt end |>
                   <| ao_buffer ::= λ b, if ao_stream_aborted s then b else b ++ samples |> in
        port (SetPendingNativeAudio true) ;;;
        match present cue_id with
        | None => ret s
        | Some cue_id =>
            port (ArchiveTranslatedPcm cue_id samples) ;;;
            let* config := gets (ae_config env) in
            match config with
            | None => ret s
            | Some config =>
                route_delta direction cue_id config (ad_response_id evt) samples received_at
                  received_ms received_qpc s
            end
        end
    | _ => ret s
    end in
  publish_pending_native_audio s.

(** ** The end of the audio *)
Definition record_done_evidence (cue_id : option string) (done_ms : Z) (done_qpc : option Z)
    (s : OmniAudioOutputState) : A OmniAudioOutputState :=
  let response := default "" (ao_response_id s) in
  let* error := recording (RecordAudioDone response done_ms done_qpc) in
  match error with
  | None => ret s
  | Some error =>
      match ao_stream_cue_id s with
      | Some active => port (AbortStream active (ao_stream_chunk_index s)
                               (default done_ms (ao_stream_created_at_ms s)))
      | None => ret tt
      end ;;;
      session_issue "native-desktop-timeline-write-failed" "error" ;;;
      port (FailDesktopEvidence
              (default "" (match ao_stream_cue_id s with Some c => Some c | None => cue_id end))
              response error) ;;;
      ret (s <| ao_stream_aborted := true |> <| ao_buffer := [] |>)
  end.
(** The tail of an open stream, shorter than a batch. *)
Definition stream_tail (stream_cue_id : string) (created : Z) (s : OmniAudioOutputState)
    : A OmniAudioOutputState :=
  if negb (bool_decide (ao_buffer s = [])) && negb (ao_stream_aborted s) then
    let raw := ao_buffer s in
    let s := s <| ao_buffer := [] |> in
    let* instant := gets (ae_instant env) in
    let* result := enqueue_playback_command (λ owner,
      Stream (mk_cue_audio raw stream_cue_id (ao_response_id s) OMNI_OUTPUT_SAMPLE_RATE_HZ instant
                created (duration_ms raw)) (ao_stream_chunk_index s) StreamChunk owner) in
    if rejected result then
      port (AbortStream stream_cue_id (ao_stream_chunk_index s) created) ;;;
      record_stream_enqueue_rejection result ;;;
      ret (s <| ao_stream_aborted := true |>)
    else ret (s <| ao_stream_chunk_index ::= λ i, saturating_add_u32 i 1 |>)
  else ret s.
(** A rejected [End] aborts the cue of the event, not [stream_cue_id]. *)
Definition stream_end_command (cue_id : option string) (stream_cue_id : string) (created : Z)
    (s : OmniAudioOutputState) : A unit :=
  if ao_stream_aborted s then ret tt
  else
    let* instant := gets (ae_instant env) in
    let* result := enqueue_playback_command (λ owner,
      Stream (mk_cue_audio [] stream_cue_id (ao_response_id s) OMNI_OUTPUT_SAMPLE_RATE_HZ instant
                created 0) (ao_stream_chunk_index s) StreamEnd owner) in
    when (rejected result)
      (port (AbortStream (default "unknown-native-cue" cue_id) (ao_stream_chunk_index s) created) ;;;
       record_stream_enqueue_rejection result).
Definition finish_stream (cue_id : option string) (s : OmniAudioOutputState) : A OmniAudioOutputState :=
  match ao_stream_cue_id s with
  | None => ret s
  | Some stream_cue_id =>
      let* unix := now_unix_ms in
      let created := default unix (ao_stream_created_at_ms s) in
      let s := s <| ao_stream_cue_id := None |> in
      let* s := stream_tail stream_cue_id created s in
      stream_end_command cue_id stream_cue_id created s ;;;
      ret (s <| ao_stream_chunk_index := 0 |> <| ao_stream_created_at_ms := None |> <| ao_buffer := [] |>)
  end.
(** A complete cue, when no stream carried the audio. *)
Definition play_complete (cue_id : string) (s : OmniAudioOutputState) : A unit :=
  let* created := now_unix_ms in
  let* instant := gets (ae_instant env) in
  let* result := enqueue_playback_command (λ _,
    Play (mk_cue_audio (ao_buffer s) cue_id (ao_response_id s) OMNI_OUTPUT_SAMPLE_RATE_HZ instant
            created ((Z.of_nat (length (ao_buffer s)) * 1000 + OMNI_OUTPUT_SAMPLE_RATE_HZ - 1)
                       / OMNI_OUTPUT_SAMPLE_RATE_HZ))) in
  match result with
  | QueuedAfterDroppingStale dropped => port (RecordStale dropped)
  | Overflow _ dropped _ =>
      port (RecordStale dropped) ;;; session_issue "native-playback-queue-overflow" "error"
  | _ => ret tt
  end.
Definition process_audio_done (cue_id : option string) (s : OmniAudioOutputState)
    : A OmniAudioOutputState :=
  let* done_ms := now_unix_ms in
  let* done_qpc := gets (ae_qpc env) in
  let* s := record_done_evidence cue_id done_ms done_qpc s in
  let* s := finish_stream cue_id s in
  let cleared := s <| ao_delta_count := 0 |> <| ao_delta_base64_bytes := 0 |>
                   <| ao_response_id := None |> <| ao_buffer := [] |> in
  if bool_decide (ao_buffer s = []) then
    publish_pending_native_audio (cleared <| ao_stream_aborted := false |>)
  else
    match present cue_id with
    | None =>
        session_issue "native-playback-missing-cue" "error" ;;;
        publish_pending_native_audio cleared
    | Some cue_id =>
        play_complete cue_id s ;;;
        publish_pending_native_audio (cleared <| ao_stream_aborted := false |>)
    end.

(** ** The audio of one response *)
Fixpoint process_deltas (direction : string) (events : list (option string * AudioDelta))
    (s : OmniAudioOutputState) : A OmniAudioOutputState :=
  match events with
  | [] => ret s
  | (cue_id, evt) :: events =>
      let* s := process_audio_delta direction cue_id evt s in process_deltas direction events s
  end.
Definition process_response (direction : string) (events : list (option string * AudioDelta))
    (done_cue_id : option string) (s : OmniAudioOutputState) : A OmniAudioOutputState :=
  let* s := process_deltas direction events s in process_audio_done done_cue_id s.
End AudioOut.
