(* ===== verification/OmniAudioOutTheorems.v ===== *)
(** * What the queue is offered for one response

    [turn_shape] says what the calls made since the response began have offered to
    the queue, for every answer of the rest of the program; the handlers keep it. *)
From S2P Require Import Prelude RustStr TranslatedPcm SpeechRoute OmniPlaybackQueue OmniAudioOut.

(** ** Reading the calls *)
Definition command_of (c : PortCall) : option OmniPlaybackCommand :=
  match c with EnqueueCommand command => Some command | _ => None end.
Definition offered (calls : list PortCall) : list OmniPlaybackCommand := omap command_of calls.
(** [fail_desktop_evidence] aborts the whole queue. *)
Definition is_abort (c : PortCall) : bool :=
  match c with AbortStream _ _ _ | FailDesktopEvidence _ _ _ => true | _ => false end.
Definition aborts (calls : list PortCall) : bool := existsb is_abort calls.
(** The audio the response delivered. *)
Definition decoded (evt : AudioDelta) : list Z :=
  match ad_delta evt with Some (_, Ok samples) => samples | _ => [] end.
Definition received (events : list (option string * AudioDelta)) : list Z :=
  concat ((λ e, decoded e.2) <$> events).

Lemma offered_app calls calls' : offered (calls ++ calls') = offered calls ++ offered calls'.
Proof. unfold offered. apply omap_app. Qed.
Lemma aborts_app calls calls' : aborts (calls ++ calls') = aborts calls || aborts calls'.
Proof. apply existsb_app. Qed.

(** The commands of a stream: the pieces in order, numbered from zero, the first
    one a [Start]; the number saturates at 2^32 - 1 as the code's does. *)
Definition piece_number (n : nat) : Z := Z.min (Z.of_nat n) u32_max.
Definition carries (cue_id : string) (created : Z) (raw : list Z) (a : CueAudio) : Prop :=
  ca_samples a = raw ∧ ca_cue_id a = cue_id ∧ ca_created_at_ms a = created
  ∧ ca_sample_rate_hz a = OMNI_OUTPUT_SAMPLE_RATE_HZ ∧ ca_estimated_duration_ms a = duration_ms raw.
Inductive streamed (cue_id : string) (created : Z)
    : list (list Z) → list OmniPlaybackCommand → Prop :=
| streamed_nil : streamed cue_id created [] []
| streamed_snoc pieces commands raw a owner :
    streamed cue_id created pieces commands → raw ≠ [] → carries cue_id created raw a →
    streamed cue_id created (pieces ++ [raw])
      (commands ++ [Stream a (piece_number (length pieces))
                      (if bool_decide (pieces = []) then StreamStart else StreamChunk) owner]).
Inductive complete_stream (cue_id : string) (audio : list Z) : list OmniPlaybackCommand → Prop :=
| complete_stream_intro created pieces commands a owner :
    streamed cue_id created pieces commands → pieces ≠ [] → concat pieces = audio →
    carries cue_id created [] a →
    complete_stream cue_id audio
      (commands ++ [Stream a (piece_number (length pieces)) StreamEnd owner]).

(** ** The state within a response *)
Definition closed (s : OmniAudioOutputState) : Prop :=
  ao_stream_cue_id s = None ∧ ao_stream_chunk_index s = 0 ∧ ao_stream_created_at_ms s = None.
Definition idle (s : OmniAudioOutputState) : Prop :=
  closed s ∧ ao_buffer s = [] ∧ ao_stream_aborted s = false ∧ ao_response_id s = None.
Inductive turn_shape (audio : list Z) (s : OmniAudioOutputState) (calls : list PortCall) : Prop :=
| shape_quiet :
    ao_stream_aborted s = false → aborts calls = false → offered calls = [] → closed s →
    ao_buffer s = audio → turn_shape audio s calls
| shape_open cue_id created pieces :
    ao_stream_aborted s = false → aborts calls = false →
    ao_stream_cue_id s = Some cue_id → ao_stream_created_at_ms s = Some created →
    ao_stream_chunk_index s = piece_number (length pieces) → pieces ≠ [] →
    streamed cue_id created pieces (offered calls) → concat pieces ++ ao_buffer s = audio →
    turn_shape audio s calls
| shape_cut cue_id created pieces :
    ao_stream_aborted s = true → aborts calls = true → (ao_stream_cue_id s = None → closed s) →
    streamed cue_id created pieces (offered calls) → turn_shape audio s calls.
Definition turn (start : list PortCall) (audio : list Z) (s : OmniAudioOutputState)
    (calls : list PortCall) : Prop :=
  ∃ new, calls = start ++ new ∧ turn_shape audio s new.

Lemma turn_call start audio s c calls :
  command_of c = None → is_abort c = false ∨ ao_stream_aborted s = true → turn start audio s calls →
  turn start audio s (calls ++ [c]).
Proof.
  intros Hc Ha (new & -> & H). exists (new ++ [c]). rewrite app_assoc. split; [done|].
  assert (offered (new ++ [c]) = offered new) as Eo.
  { rewrite offered_app. unfold offered at 2. simpl. by rewrite Hc, app_nil_r. }
  assert (aborts (new ++ [c]) = aborts new || is_abort c) as Ea.
  { rewrite aborts_app. simpl. by rewrite orb_false_r. }
  inversion H; [apply shape_quiet|eapply shape_open|eapply shape_cut]; rewrite ?Eo, ?Ea; eauto;
    destruct Ha as [Ha|Ha]; rewrite ?Ha; try congruence; try (by rewrite orb_false_r).
  apply orb_true_intro. by left.
Qed.
(** Every shape offers the pieces of one stream. *)
Lemma turn_streamed start audio s calls :
  turn start audio s calls → ∃ new cue_id created pieces,
    calls = start ++ new ∧ streamed cue_id created pieces (offered new)
    ∧ (ao_stream_aborted s = true → aborts new = true).
Proof.
  intros (new & -> & H). exists new. inversion H as [Ha _ Ho|c t ps Ha _ _ _ _ _ Hs|c t ps _ Hb _ Hs].
  - exists "", 0, []. rewrite Ho. split_and!; [done|constructor|congruence].
  - exists c, t, ps. split_and!; [done|done|congruence].
  - by exists c, t, ps.
Qed.
(** An abort, or a call once aborted. *)
Lemma turn_cut start audio audio' s s' c calls :
  turn start audio s calls → command_of c = None →
  (is_abort c = true ∨ ao_stream_aborted s = true) →
  ao_stream_aborted s' = true → (ao_stream_cue_id s' = None → closed s') →
  turn start audio' s' (calls ++ [c]).
Proof.
  intros H Hc Hab Hs Hcl. apply turn_streamed in H as (new & cue & t & ps & -> & Hst & Hcut).
  exists (new ++ [c]). rewrite app_assoc. split; [done|].
  apply (shape_cut _ _ _ cue t ps); [done| |done|].
  - rewrite aborts_app. simpl. destruct Hab as [->|Hab]; [by rewrite orb_true_r|by rewrite Hcut].
  - rewrite offered_app. unfold offered at 2. simpl. by rewrite Hc, app_nil_r.
Qed.
(** Fields the shape does not read. *)
Lemma turn_same start audio s s' calls :
  ao_buffer s' = ao_buffer s → ao_stream_cue_id s' = ao_stream_cue_id s →
  ao_stream_chunk_index s' = ao_stream_chunk_index s →
  ao_stream_created_at_ms s' = ao_stream_created_at_ms s →
  ao_stream_aborted s' = ao_stream_aborted s →
  turn start audio s calls → turn start audio s' calls.
Proof.
  intros Hb Hq Hi Ht Ha (new & -> & H). exists new. split; [done|]. unfold closed in *.
  inversion H; [apply shape_quiet|eapply shape_open|eapply shape_cut]; unfold closed;
    rewrite ?Hb, ?Hq, ?Hi, ?Ht, ?Ha; eauto.
Qed.

Lemma piece_number_S n : saturating_add_u32 (piece_number n) 1 = piece_number (S n).
Proof. unfold saturating_add_u32, piece_number. pose proof (eq_refl : u32_max = 4294967295). lia. Qed.

Section Handlers.
Context (env : AudioEnv) (start : list PortCall).
(** [m] keeps the turn, from audio [a] to audio [a']; errors are panics of a callee. *)
Abbreviation keeps a s m a' Q :=
  (triple (turn start a s) m (λ s' calls, turn start a' s' calls ∧ Q s') (λ _, True)).

Lemma port_keeps a s c {B} (k : M (list PortCall) B) post :
  command_of c = None → is_abort c = false ∨ ao_stream_aborted s = true →
  triple (turn start a s) k post (λ _, True) →
  triple (turn start a s) (port c ;;; k) post (λ _, True).
Proof.
  intros Hc Ha Hk calls H. unfold port. rewrite bind_modify. apply Hk. by apply turn_call.
Qed.

Lemma rejection_keeps a s o :
  triple (turn start a s) (record_stream_enqueue_rejection o) (λ _, turn start a s) (λ _, True).
Proof.
  intros calls H. unfold record_stream_enqueue_rejection.
  destruct (rejection_issue o) as [[code severity]|]; [|done]. apply turn_call; [done|by left|done].
Qed.
Lemma ret_keeps {B} (P : list PortCall → Prop) (x : B) (Q : Prop) : Q →
  triple P (ret x) (λ y calls, P calls ∧ y = x ∧ Q) (λ _, True).
Proof. by intros HQ calls H. Qed.
(** One batch of the buffer, with room for it. *)
Lemma stream_batch_keeps a batch cue_id speaker received_at received_ms s :
  ao_stream_aborted s = false → (1 ≤ batch ≤ length (ao_buffer s))%nat →
  (ao_stream_cue_id s = None ∨ ao_stream_cue_id s = Some cue_id) →
  keeps a s (stream_batch env batch cue_id speaker received_at received_ms s) a
    (λ s', (ao_stream_aborted s' = true ∨ ao_stream_cue_id s' = Some cue_id)
           ∧ (length (ao_buffer s') < length (ao_buffer s))%nat).
Proof.
  intros Hna Hb Hcue calls (new & -> & H).
  assert (∃ cmds, streamed cue_id (default (if speaker then received_ms else ae_unix_ms env (start ++ new))
            (ao_stream_created_at_ms s)) cmds (offered new)
          ∧ ao_stream_chunk_index s = piece_number (length cmds)
          ∧ bool_decide (cmds = []) = negb (is_Some_b (ao_stream_cue_id s))
          ∧ aborts new = false ∧ concat cmds ++ ao_buffer s = a) as (ps & Hst & Hi & Hps & Hab & Ha).
  { inversion H as [_ ? Ho (Hc & Hidx & Ht) Hbuf|c t ps _ ? Hc Ht Hidx Hne Hst Haud|]; [| |congruence].
    - exists []. rewrite Ho, Hc, Hidx. split_and!; try done. constructor.
    - exists ps. rewrite Hc, Ht. destruct Hcue as [?|Hcue]; [congruence|].
      assert (c = cue_id) as -> by congruence. split_and!; try done. by apply bool_decide_eq_false_2. }
  unfold stream_batch, now_unix_ms, enqueue_playback_command, port, session_issue.
  rewrite bind_gets. cbv beta zeta. rewrite bind_gets. cbv beta.
  set (created := default _ _) in *. set (raw := take batch (ao_buffer s)).
  unfold bind at 1. unfold bind at 1, gets at 1. unfold bind at 1, modify at 1, gets at 1.
  set (audio := mk_cue_audio _ _ _ _ _ _ _).
  set (cmd := Stream audio _ _ _).
  assert (raw ≠ []) as Hraw.
  { unfold raw. destruct (ao_buffer s); simpl in *; [lia|]. by destruct batch; [lia|]. }
  assert (length (drop batch (ao_buffer s)) < length (ao_buffer s))%nat as Hlen by (rewrite length_drop; lia).
  assert (streamed cue_id created (ps ++ [raw]) (offered (new ++ [EnqueueCommand cmd]))) as Hst'.
  { rewrite offered_app. unfold cmd. simpl.
    replace (if is_Some_b (ao_stream_cue_id s) then StreamChunk else StreamStart)
      with (if bool_decide (ps = []) then StreamStart else StreamChunk)
      by (rewrite Hps; by destruct (is_Some_b _)).
    rewrite Hi. by constructor. }
  assert (aborts (new ++ [EnqueueCommand cmd]) = false) as Hab' by (by rewrite aborts_app, Hab).
  destruct (rejected _) eqn:Hrej.
  - unfold bind at 1, modify at 1.
    assert (turn start a (s <| ao_stream_created_at_ms := Some created |> <| ao_buffer ::= drop batch |>
      <| ao_stream_cue_id := None |> <| ao_stream_chunk_index := 0 |>
      <| ao_stream_created_at_ms := None |> <| ao_stream_aborted := true |>)
      (((start ++ new) ++ [EnqueueCommand cmd]) ++ [AbortStream cue_id
        (ao_stream_chunk_index (s <| ao_stream_created_at_ms := Some created |> <| ao_buffer ::= drop batch |>))
        created])) as Ht.
    { exists ((new ++ [EnqueueCommand cmd]) ++ [AbortStream cue_id
        (ao_stream_chunk_index (s <| ao_stream_created_at_ms := Some created |> <| ao_buffer ::= drop batch |>))
        created]). rewrite !app_assoc. split; [done|].
      eapply shape_cut; [done|by rewrite aborts_app, orb_true_r|done|].
      rewrite offered_app, app_nil_r. exact Hst'. }
    pose proof (rejection_keeps _ _ (ae_enqueue env ((start ++ new) ++ [EnqueueCommand cmd])) _ Ht) as Hk.
    unfold bind. destruct (record_stream_enqueue_rejection _ _) as [[u|e] calls']; [|done].
    split; [exact Hk|]. split; [by left|exact Hlen].
  - split; [|split; [by right|exact Hlen]].
    exists (new ++ [EnqueueCommand cmd]). rewrite app_assoc. split; [done|].
    apply (shape_open _ _ _ cue_id created (ps ++ [raw])); simpl; try done.
    + rewrite Hi, length_app. simpl. rewrite Nat.add_1_r. apply piece_number_S.
    + by intros [_ ?]%app_eq_nil.
    + rewrite concat_app. simpl. rewrite app_nil_r, <- app_assoc. unfold raw. by rewrite take_drop.
Qed.

(** The loop ends because its condition fails: the buffer's length is enough fuel. *)
Lemma stream_batches_keeps a batch cue_id speaker received_at received_ms fuel : ∀ s,
  (1 ≤ batch)%nat → (length (ao_buffer s) ≤ fuel)%nat →
  (ao_stream_aborted s = true ∨ ao_stream_cue_id s = None ∨ ao_stream_cue_id s = Some cue_id) →
  keeps a s (stream_batches env fuel batch cue_id speaker received_at received_ms s) a
    (λ s', ao_stream_aborted s' = true ∨ (length (ao_buffer s') < batch)%nat).
Proof.
  induction fuel as [|fuel IH]; intros s Hb Hfuel Hcue calls H; simpl.
  { split; [done|]. right. lia. }
  destruct (Nat.leb_spec batch (length (ao_buffer s))) as [Hle|Hlt]; simpl;
    [|split; [done|by right]].
  destruct (ao_stream_aborted s) eqn:Hab; simpl; [split; [done|by left]|].
  eapply (triple_bind _ _ _ _ _ _ (stream_batch_keeps a batch cue_id speaker received_at received_ms s Hab
    (conj Hb Hle) _)); [|exact H].
  intros s'. apply triple_pure. intros _ _ [Hs' Hlen]. apply IH; [done|lia|].
  destruct Hs'; [by left|by right; right].
Unshelve. destruct Hcue as [?|?]; [congruence|done].
Qed.

Lemma reading_keeps {X B} (P : list PortCall → Prop) (f : list PortCall → X)
    (k : X → M (list PortCall) B) post :
  (∀ x, triple P (k x) post (λ _, True)) → triple P (let* x := gets f in k x) post (λ _, True).
Proof. intros Hk calls H. rewrite bind_gets. by apply Hk. Qed.
Lemma triple_self {B} (P : list PortCall → Prop) (m : M (list PortCall) B) post :
  (∀ calls, P calls → triple P m post (λ _, True)) → triple P m post (λ _, True).
Proof. intros Hm calls H. by apply (Hm calls). Qed.
(** An abort and the calls that explain it. *)
Lemma abort_keeps a a' s s' c {B} (k : M (list PortCall) B) post :
  command_of c = None → (is_abort c = true ∨ ao_stream_aborted s = true) →
  ao_stream_aborted s' = true → (ao_stream_cue_id s' = None → closed s') →
  triple (turn start a' s') k post (λ _, True) →
  triple (turn start a s) (port c ;;; k) post (λ _, True).
Proof.
  intros Hc Hab Hs Hcl Hk calls H. unfold port. rewrite bind_modify. apply Hk.
  by eapply turn_cut.
Qed.
Ltac abort_turn :=
  unfold session_issue;
  lazymatch goal with
  | |- triple (turn _ ?a ?s) ?m _ _ =>
      lazymatch m with
      | context [@ret _ OmniAudioOutputState ?s'] =>
          apply (abort_keeps a a s s');
          [done|by left|done|..|repeat (apply port_keeps; [done|by (left + right)|]); by apply triple_ret]
      end
  end.
Lemma turn_closed a s calls : turn start a s calls → ao_stream_cue_id s = None → closed s.
Proof. intros (new & _ & H) Hn. inversion H; [done|congruence|auto]. Qed.

Lemma stream_audio_keeps a route cue_id received_at received_ms s :
  ao_stream_aborted s = false →
  triple (turn start a s) (stream_audio env route cue_id received_at received_ms s)
    (λ s', turn start a s') (λ _, True).
Proof.
  intros Hab. unfold stream_audio.
  assert (1 ≤ batch_samples route (length (ao_buffer s)))%nat as Hb.
  { unfold batch_samples. destruct (write_to_bridge_playback route); [|lia].
    unfold BRIDGE_STREAM_BATCH_SAMPLES, OMNI_OUTPUT_SAMPLE_RATE_HZ. lia. }
  assert (ao_stream_cue_id s = None ∨ ao_stream_cue_id s = Some cue_id →
    triple (turn start a s) (stream_batches env (length (ao_buffer s))
      (batch_samples route (length (ao_buffer s))) cue_id (play_to_speaker route) received_at received_ms s)
      (λ s', turn start a s') (λ _, True)) as Hloop.
  { intros Hcue. eapply triple_weaken; [apply stream_batches_keeps; [done|lia|by right]|done|by intros ?? [? ?]]. }
  destruct (ao_stream_cue_id s) as [active|] eqn:Hcue; [|apply Hloop; by left].
  destruct (negb (bool_decide (active = cue_id))) eqn:Hne; bool_hyps;
    [|subst; apply Hloop; by right].
  apply reading_keeps. intros unix.
  abort_turn. done.
Qed.
Lemma check_response_owner_keeps a route incoming received_ms s :
  triple (turn start a s) (check_response_owner route incoming received_ms s)
    (λ s', turn start a s') (λ _, True).
Proof.
  unfold check_response_owner. destruct (ao_stream_cue_id s) as [active|] eqn:Hcue;
    [|by apply triple_ret].
  destruct (_ && _); [|by apply triple_ret].
  abort_turn. simpl. by rewrite Hcue.
Qed.
Lemma recording_keeps a s c {B} (k : option string → M (list PortCall) B) post :
  command_of c = None → is_abort c = false ∨ ao_stream_aborted s = true →
  (∀ error, triple (turn start a s) (k error) post (λ _, True)) →
  triple (turn start a s) (let* error := recording env c in k error) post (λ _, True).
Proof.
  intros Hc Ha Hk calls H. unfold recording, port. unfold bind at 1.
  rewrite bind_modify, bind_gets. cbv beta. pose proof (turn_call _ _ _ _ _ Hc Ha H) as Ht.
  destruct (ae_record env _) as [u|[error|msg]]; simpl; [by apply Hk|by apply Hk|done].
Qed.
Lemma record_delta_evidence_keeps a cue_id samples received_ms received_qpc s :
  triple (turn start a s) (record_delta_evidence env cue_id samples received_ms received_qpc s)
    (λ s', turn start a s') (λ _, True).
Proof.
  unfold record_delta_evidence. cbv zeta. apply recording_keeps; [done|by left|]. intros [error|];
    [|by apply triple_ret].
  apply triple_self. intros calls H. pose proof (turn_closed _ _ _ H) as Hcl. abort_turn. exact Hcl.
Qed.
Lemma route_delta_keeps a direction cue_id config incoming samples received_at received_ms qpc s :
  triple (turn start a s)
    (route_delta env direction cue_id config incoming samples received_at received_ms qpc s)
    (λ s', turn start a s') (λ _, True).
Proof.
  unfold route_delta. cbv zeta.
  eapply triple_bind; [apply check_response_owner_keeps|]. intros s1.
  eapply triple_bind with (Q' := λ s', turn start a s').
  { destruct (_ && _); [apply record_delta_evidence_keeps|by apply triple_ret]. }
  intros s2. destruct (_ || _); simpl; [|by apply triple_ret].
  destruct (ao_stream_aborted s2) eqn:Hab; simpl; [by apply triple_ret|].
  by apply stream_audio_keeps.
Qed.

(** A delta adds its samples to the audio of the turn. *)
Lemma turn_extend a s s' samples calls :
  turn start a s calls →
  ao_buffer s' = (if ao_stream_aborted s then ao_buffer s else ao_buffer s ++ samples) →
  ao_stream_cue_id s' = ao_stream_cue_id s → ao_stream_chunk_index s' = ao_stream_chunk_index s →
  ao_stream_created_at_ms s' = ao_stream_created_at_ms s → ao_stream_aborted s' = ao_stream_aborted s →
  turn start (a ++ samples) s' calls.
Proof.
  intros (new & -> & H) Hb Hq Hi Ht Ha. exists new. split; [done|]. unfold closed in *.
  inversion H as [Hna|c t ps Hna|c t ps Hab]; [apply shape_quiet|eapply shape_open|eapply shape_cut];
    unfold closed; rewrite ?Hq, ?Hi, ?Ht, ?Ha; eauto; rewrite Hb, Hna; [congruence|].
  rewrite app_assoc. by f_equal.
Qed.
Lemma publish_keeps a s :
  triple (turn start a s) (publish_pending_native_audio s) (λ s', turn start a s') (λ _, True).
Proof. unfold publish_pending_native_audio. apply port_keeps; [done|by left|]. by apply triple_ret. Qed.
Lemma process_audio_delta_keeps a direction cue_id evt s :
  triple (turn start a s) (process_audio_delta env direction cue_id evt s)
    (λ s', turn start (a ++ decoded evt) s') (λ _, True).
Proof.
  unfold process_audio_delta, now_unix_ms.
  do 3 (apply reading_keeps; intros ?).
  eapply triple_bind with (Q' := λ s', turn start (a ++ decoded evt) s');
    [|intros s'; apply publish_keeps].
  unfold decoded. destruct (ad_delta evt) as [[len [samples|error]]|];
    try (rewrite app_nil_r; by apply triple_ret).
  set (s1 := s <| ao_delta_count ::= _ |> <| ao_delta_base64_bytes ::= _ |> <| ao_response_id ::= _ |>
               <| ao_buffer ::= _ |>).
  apply (triple_weaken _ _ (turn start (a ++ samples) s1) _ _ (λ s', turn start (a ++ samples) s'));
    [|by intros calls H; apply (turn_extend _ _ s1 samples) in H|done].
  apply port_keeps; [done|by left|].
  destruct (present cue_id) as [cue|]; [|by apply triple_ret].
  apply port_keeps; [done|by left|].
  apply reading_keeps. intros [config|];
    [apply route_delta_keeps|by apply triple_ret].
Qed.
Lemma process_deltas_keeps direction events : ∀ a s,
  triple (turn start a s) (process_deltas env direction events s)
    (λ s', turn start (a ++ received events) s') (λ _, True).
Proof.
  induction events as [|[cue_id evt] events IH]; intros a s; simpl.
  { rewrite app_nil_r. by apply triple_ret. }
  eapply triple_bind; [apply process_audio_delta_keeps|]. intros s'.
  unfold received. simpl. rewrite app_assoc. apply IH.
Qed.

(** ** The end of the audio *)
Lemma record_done_evidence_keeps a cue_id done_ms done_qpc s :
  triple (turn start a s) (record_done_evidence env cue_id done_ms done_qpc s)
    (λ s', turn start a s') (λ _, True).
Proof.
  unfold record_done_evidence. cbv zeta. apply recording_keeps; [done|by left|]. intros [error|];
    [|by apply triple_ret].
  apply triple_self. intros calls H. pose proof (turn_closed _ _ _ H) as Hcl.
  destruct (ao_stream_cue_id s) as [active|] eqn:Hcue.
  - abort_turn. simpl. by rewrite Hcue.
  - eapply (triple_weaken _ _ (turn start a s)); [|done|intros s' calls' H'; exact H'].
    intros calls' H'. rewrite bind_ret. revert calls' H'. apply port_keeps; [done|by left|].
    abort_turn. intros _. by apply Hcl.
Qed.

(** The turn after its stream was finished, if it had one. *)
Definition ended (a : list Z) (s : OmniAudioOutputState) (new : list PortCall) : Prop :=
  aborts new = false ∧ closed s ∧ ao_buffer s = [] ∧ ao_stream_aborted s = false
  ∧ ∃ cue_id, complete_stream cue_id a (offered new).
Definition finished (a : list Z) (s : OmniAudioOutputState) (calls : list PortCall) : Prop :=
  ∃ new, calls = start ++ new
    ∧ (aborts new = true ∨ ended a s new
       ∨ (turn_shape a s new ∧ ao_stream_cue_id s = None ∧ ao_stream_aborted s = false)).
Lemma finished_call a s c calls :
  command_of c = None → finished a s calls → finished a s (calls ++ [c]).
Proof.
  intros Hc (new & -> & H). exists (new ++ [c]). rewrite app_assoc. split; [done|].
  destruct (is_abort c) eqn:Ha; [left; by rewrite aborts_app; simpl; rewrite Ha, orb_true_r|].
  assert (offered (new ++ [c]) = offered new) as Eo.
  { rewrite offered_app. unfold offered at 2. simpl. by rewrite Hc, app_nil_r. }
  destruct H as [H|[(Hab & Hcl & Hb & Hna & Hs)|(H & Hcue & Hna)]].
  - left. by rewrite aborts_app, H.
  - right; left. unfold ended. rewrite aborts_app, Hab, Eo. simpl. by rewrite Ha.
  - right; right. split; [|done]. destruct (turn_call start a s c (start ++ new)) as (new' & E & H');
      [done|by left|by exists new|]. rewrite <- app_assoc in E. by apply app_inv_head in E as <-.
Qed.

(** What the tail leaves: an abort, or the whole audio in pieces. *)
Lemma stream_tail_keeps a cue_id created s :
  triple (λ calls, ∃ new ps, calls = start ++ new ∧ aborts new = false ∧ ao_stream_aborted s = false ∧ ao_stream_cue_id s = None
            ∧ ao_stream_chunk_index s = piece_number (length ps) ∧ ps ≠ []
            ∧ streamed cue_id created ps (offered new) ∧ concat ps ++ ao_buffer s = a)
    (stream_tail env cue_id created s)
    (λ s' calls, ∃ new, calls = start ++ new ∧
       ((ao_stream_aborted s' = true ∧ aborts new = true)
        ∨ (ao_stream_aborted s' = false ∧ aborts new = false ∧ ao_stream_cue_id s' = None
           ∧ ∃ ps, ao_stream_chunk_index s' = piece_number (length ps) ∧ ps ≠ []
               ∧ streamed cue_id created ps (offered new) ∧ concat ps = a)))
    (λ _, True).
Proof.
  intros calls (new & ps & -> & Hab & Hna & Hnone & Hi & Hne & Hst & Ha). unfold stream_tail.
  destruct (bool_decide (ao_buffer s = [])) eqn:Hb; rewrite Hna; cbn [negb andb].
  { apply bool_decide_eq_true in Hb. exists new. split; [done|]. right. split_and!; [done|done|done|].
    exists ps. rewrite Hb, app_nil_r in Ha. done. }
  apply bool_decide_eq_false in Hb. cbv zeta. rewrite bind_gets. cbv beta.
  unfold enqueue_playback_command, port. unfold bind at 1. unfold bind at 1, gets at 1.
  unfold bind at 1, modify at 1, gets at 1.
  set (audio := mk_cue_audio _ _ _ _ _ _ _). set (cmd := Stream audio _ _ _).
  assert (streamed cue_id created (ps ++ [ao_buffer s]) (offered (new ++ [EnqueueCommand cmd]))) as Hst'.
  { rewrite offered_app. unfold cmd. simpl. rewrite Hi.
    replace StreamChunk with (if bool_decide (ps = []) then StreamStart else StreamChunk)
      by (by rewrite bool_decide_eq_false_2). by constructor. }
  destruct (rejected _).
  - unfold bind at 1, modify at 1.
    match goal with |- context [record_stream_enqueue_rejection ?o] => set (result := o) end.
    unfold record_stream_enqueue_rejection, session_issue, port.
    destruct (rejection_issue result) as [[code severity]|]; simpl;
      eexists; rewrite <- !app_assoc; (split; [reflexivity|]); left; split; try done;
      rewrite !aborts_app; simpl; by rewrite ?orb_true_r.
  - exists (new ++ [EnqueueCommand cmd]). rewrite app_assoc. split; [done|]. right.
    split_and!; [done|by rewrite aborts_app, Hab|exact Hnone|]. exists (ps ++ [ao_buffer s]). split_and!; try done.
    + cbn [ao_stream_chunk_index set_with]. simpl. rewrite Hi, length_app. simpl. rewrite Nat.add_1_r. apply piece_number_S.
    + by intros [_ ?]%app_eq_nil.
    + by rewrite concat_app; simpl; rewrite app_nil_r.
Qed.
Lemma finish_stream_keeps a cue_id s :
  triple (turn start a s) (finish_stream env cue_id s)
    (λ s' calls, finished a s' calls) (λ _, True).
Proof.
  intros calls (new & -> & H). unfold finish_stream.
  destruct (ao_stream_cue_id s) as [stream_cue|] eqn:Hcue.
  2: { exists new. split; [done|]. inversion H as [Hna|c t ps _ _ Hc|c t ps Hab Habs]; [|congruence|by left].
       right; right. done. }
  unfold now_unix_ms. rewrite bind_gets. cbv beta zeta.
  set (created := default _ _). set (s1 := s <| ao_stream_cue_id := None |>).
  assert (triple (eq (start ++ new)) (stream_tail env stream_cue created s1)
    (λ s' calls, ∃ new, calls = start ++ new ∧
       ((ao_stream_aborted s' = true ∧ aborts new = true)
        ∨ (ao_stream_aborted s' = false ∧ aborts new = false ∧ ao_stream_cue_id s' = None
           ∧ ∃ ps, ao_stream_chunk_index s' = piece_number (length ps) ∧ ps ≠ []
               ∧ streamed stream_cue created ps (offered new) ∧ concat ps = a))) (λ _, True)) as Htail.
  { inversion H as [_ _ _ (Hn & _)|c t ps Hna Hab Hc Ht Hi Hne Hst Haud|c t ps Hab Habs]; [congruence| |].
    - assert (c = stream_cue) as -> by congruence.
      assert (created = t) as Ecr by (unfold created; by rewrite Ht).
      eapply triple_weaken; [apply (stream_tail_keeps a stream_cue created s1)| |done].
      intros calls' <-. exists new, ps. rewrite Ecr. done.
    - intros calls' <-. unfold stream_tail. replace (ao_stream_aborted s1) with true by (symmetry; exact Hab).
      rewrite andb_false_r. exists new. split; [done|]. by left. }
  eapply (triple_bind _ _ _ _ _ _ Htail); [|reflexivity]. intros s2 calls' (new' & -> & Hcase).
  unfold stream_end_command. destruct Hcase as [[Hab Habs]|(Hna & Habs & Hnone & ps & Hi & Hne & Hst & Ha)].
  - rewrite Hab. rewrite bind_ret. exists new'. split; [done|]. by left.
  - rewrite Hna. unfold enqueue_playback_command, port, when, bind, gets, modify, ret.
    set (audio := mk_cue_audio _ _ _ _ _ _ _). set (cmd := Stream audio _ _ _).
    destruct (rejected _) eqn:Hrej.
    + match goal with |- context [record_stream_enqueue_rejection ?o] => set (result := o) end.
      unfold record_stream_enqueue_rejection, session_issue, port.
      destruct (rejection_issue result) as [[code severity]|]; simpl;
        eexists; rewrite <- !app_assoc; (split; [reflexivity|]); left;
        rewrite !aborts_app; simpl; by rewrite ?orb_true_r.
    + exists (new' ++ [EnqueueCommand cmd]). rewrite app_assoc. split; [done|]. right; left.
      unfold ended. split_and!; try done; [by rewrite aborts_app, Habs|].
      exists stream_cue. rewrite offered_app. unfold cmd. simpl. rewrite Hi. by econstructor.
Qed.

(** What a response without an abort ends with. *)
Definition whole (done_cue_id : option string) (a : list Z) (new : list PortCall) : Prop :=
  (a = [] ∧ offered new = [])
  ∨ (present done_cue_id = None ∧ offered new = []
     ∧ SessionIssue "native-playback-missing-cue" "error" ∈ new)
  ∨ (∃ x, offered new = [Play x] ∧ ca_samples x = a ∧ present done_cue_id = Some (ca_cue_id x))
  ∨ (∃ cue_id, complete_stream cue_id a (offered new)).
Definition response_done (done_cue_id : option string) (a : list Z) (s : OmniAudioOutputState)
    (calls : list PortCall) : Prop :=
  ∃ new, calls = start ++ new ∧ (aborts new = true ∨ (whole done_cue_id a new ∧ idle s)).

Lemma publish_done cue_id a s calls :
  response_done cue_id a s calls →
  match publish_pending_native_audio s calls with
  | (Ok s', calls') => response_done cue_id a s' calls' | (Err _, _) => True
  end.
Proof.
  intros (new & -> & H). unfold publish_pending_native_audio, port. rewrite bind_modify.
  set (c := SetPendingNativeAudio _). exists (new ++ [c]). rewrite app_assoc. split; [done|].
  destruct H as [H|[H Hidle]]; [left; by rewrite aborts_app, H|]. right. split; [|done].
  assert (offered (new ++ [c]) = offered new) as Eo by (by rewrite offered_app, app_nil_r).
  unfold whole. rewrite Eo. destruct H as [H|[(Hp & Ho & Hin)|H]]; [by left| |by right; right].
  right; left. split_and!; [done|done|set_solver].
Qed.
Lemma process_audio_done_keeps a cue_id s :
  triple (turn start a s) (process_audio_done env cue_id s) (response_done cue_id a) (λ _, True).
Proof.
  unfold process_audio_done, now_unix_ms. do 2 (apply reading_keeps; intros ?).
  eapply triple_bind; [apply record_done_evidence_keeps|]. intros s1.
  eapply triple_bind; [apply finish_stream_keeps|]. intros s2 calls (new & -> & H). cbv zeta.
  destruct (bool_decide (ao_buffer s2 = [])) eqn:Hb.
  { apply bool_decide_eq_true in Hb. apply (publish_done cue_id a). exists new. split; [done|].
    destruct H as [H|[(_ & Hcl & _ & _ & Hs)|(H & Hcue & Hna)]]; [by left| |]; right.
    - split; [by right; right; right|by split_and!].
    - inversion H as [_ _ Ho Hcl Hbuf|? ? ? _ _ Hc|? ? ? Hab]; [|congruence|congruence].
      split; [left; split; congruence|by split_and!]. }
  apply bool_decide_eq_false in Hb.
  assert (aborts new = true ∨ (offered new = [] ∧ aborts new = false ∧ closed s2 ∧ ao_buffer s2 = a
    ∧ ao_stream_aborted s2 = false)) as Hcase.
  { destruct H as [H|[(_ & _ & Hbuf & _)|(H & Hcue & Hna)]]; [by left|congruence|]. right.
    inversion H as [_ Hab Ho Hcl Hbuf|? ? ? _ _ Hc|? ? ? Hab]; [|congruence|congruence]. done. }
  destruct (present cue_id) as [cue|] eqn:Hcue.
  - unfold play_complete, now_unix_ms, enqueue_playback_command, port, session_issue.
    unfold bind at 1. rewrite !bind_gets. cbv beta zeta. unfold bind at 1. unfold bind at 1, gets at 1.
    unfold bind at 1, modify at 1, gets at 1. set (audio := mk_cue_audio _ _ _ _ _ _ _).
    assert (∀ calls', (∃ more, calls' = (start ++ new) ++ EnqueueCommand (Play audio) :: more
                ∧ offered more = []) →
      response_done cue_id a (s2 <| ao_delta_count := 0 |> <| ao_delta_base64_bytes := 0 |>
        <| ao_response_id := None |> <| ao_buffer := [] |> <| ao_stream_aborted := false |>) calls') as Hdone.
    { intros calls' (more & -> & Hm). exists (new ++ EnqueueCommand (Play audio) :: more).
      rewrite <- app_assoc. split; [done|].
      destruct Hcase as [Hab|(Ho & Hab & Hcl & Hbuf & Hna)]; [left; by rewrite aborts_app, Hab|].
      destruct (aborts more) eqn:Hmore; [left; rewrite aborts_app; simpl; by rewrite Hmore, orb_true_r|].
      right. split; [|by split_and!]. right; right; left. exists audio. split_and!; [|done|done].
      rewrite offered_app, Ho. simpl. by rewrite Hm. }
    destruct (ae_enqueue env _) as [|dropped|reason dropped delay| |]; unfold modify, bind, ret;
      apply (publish_done cue_id a), Hdone; eexists; rewrite <- ?app_assoc; (split; [reflexivity|]); done.
  - unfold session_issue, port. rewrite bind_modify.
    apply (publish_done cue_id a).
    exists (new ++ [SessionIssue "native-playback-missing-cue" "error"]). rewrite app_assoc.
    split; [done|]. destruct Hcase as [Hab|(Ho & Hab & Hcl & Hbuf & Hna)];
      [left; by rewrite aborts_app, Hab|].
    right. split; [|by split_and!]. right; left. rewrite offered_app, Ho. split_and!; [done|done|set_solver].
Qed.
End Handlers.

(** ** Totality, and when nothing is aborted *)
Create HintDb total.
Section Total.
Context (env : AudioEnv) (Hpanic : ∀ calls, is_panic (ae_record env calls) = false).
Lemma gets_total {X B} (f : list PortCall → X) (k : X → M (list PortCall) B) :
  (∀ x, always_ok (k x)) → always_ok (let* x := gets f in k x).
Proof. intros Hk. apply always_ok_bind; [by intros calls|done]. Qed.
Lemma ret_total {B} (x : B) : always_ok (S:=list PortCall) (ret x).
Proof. by intros calls. Qed.
Lemma port_total {B} c (k : M (list PortCall) B) : always_ok k → always_ok (port c ;;; k).
Proof. intros Hk. apply always_ok_bind; [by intros calls|done]. Qed.
Lemma rejection_total o : always_ok (record_stream_enqueue_rejection o).
Proof. intros calls. unfold record_stream_enqueue_rejection. by destruct (rejection_issue o) as [[]|]. Qed.
Lemma recording_total c : always_ok (recording env c).
Proof.
  intros calls. unfold recording, port. rewrite bind_modify, bind_gets. cbv beta.
  specialize (Hpanic (calls ++ [c])). by destruct (ae_record env _) as [|[]].
Qed.
#[local] Hint Resolve rejection_total recording_total : total.
Ltac total :=
  repeat first
    [ apply ret_total
    | solve [auto with total nocore]
    | apply port_total
    | apply gets_total; intros ?
    | apply always_ok_bind; [|intros ?]
    | match goal with |- always_ok (match ?x with _ => _ end) => destruct x end
    | progress cbv zeta ].
Lemma enqueue_total f : always_ok (enqueue_playback_command env f).
Proof. by intros calls. Qed.
#[local] Hint Resolve enqueue_total : total.
Lemma stream_batches_total fuel batch cue_id speaker at_ ms : ∀ s,
  always_ok (stream_batches env fuel batch cue_id speaker at_ ms s).
Proof.
  induction fuel as [|fuel IH]; intros s; simpl; [by intros calls|].
  destruct (_ && _); [|by intros calls]. apply always_ok_bind; [|done].
  unfold stream_batch, now_unix_ms. total.
Qed.
#[local] Hint Resolve stream_batches_total : total.
Lemma publish_total s : always_ok (publish_pending_native_audio s).
Proof. by intros calls. Qed.
Lemma check_response_owner_total route incoming ms s :
  always_ok (check_response_owner route incoming ms s).
Proof. unfold check_response_owner, session_issue. total. Qed.
Lemma record_delta_evidence_total cue_id samples ms qpc s :
  always_ok (record_delta_evidence env cue_id samples ms qpc s).
Proof. unfold record_delta_evidence, session_issue. total. Qed.
Lemma stream_audio_total route cue_id at_ ms s : always_ok (stream_audio env route cue_id at_ ms s).
Proof. unfold stream_audio, now_unix_ms, session_issue. total. Qed.
#[local] Hint Resolve publish_total check_response_owner_total record_delta_evidence_total
  stream_audio_total : total.
Lemma route_delta_total direction cue_id config incoming samples at_ ms qpc s :
  always_ok (route_delta env direction cue_id config incoming samples at_ ms qpc s).
Proof. unfold route_delta. total. Qed.
#[local] Hint Resolve route_delta_total : total.
Lemma process_audio_delta_total direction cue_id evt s :
  always_ok (process_audio_delta env direction cue_id evt s).
Proof.
  unfold process_audio_delta, now_unix_ms. do 3 (apply gets_total; intros ?).
  apply always_ok_bind; [|intros ?; apply publish_total].
  destruct (ad_delta evt) as [[len [samples|e]]|]; [|by intros calls..]. cbv zeta. apply port_total.
  destruct (present cue_id); [|by intros calls]. apply port_total, gets_total. intros [config|];
    [apply route_delta_total|by intros calls].
Qed.
Lemma record_done_evidence_total cue_id ms qpc s : always_ok (record_done_evidence env cue_id ms qpc s).
Proof. unfold record_done_evidence, session_issue. total. Qed.
Lemma stream_tail_total cue_id created s : always_ok (stream_tail env cue_id created s).
Proof. unfold stream_tail. total. Qed.
Lemma stream_end_total cue_id stream_cue created s :
  always_ok (stream_end_command env cue_id stream_cue created s).
Proof. unfold stream_end_command, when. total. Qed.
Lemma play_complete_total cue_id s : always_ok (play_complete env cue_id s).
Proof. unfold play_complete, now_unix_ms, session_issue. total. Qed.
#[local] Hint Resolve stream_tail_total stream_end_total : total.
Lemma finish_stream_total cue_id s : always_ok (finish_stream env cue_id s).
Proof. unfold finish_stream, now_unix_ms. total. Qed.
Lemma process_audio_done_total cue_id s : always_ok (process_audio_done env cue_id s).
Proof.
  unfold process_audio_done, now_unix_ms. do 2 (apply gets_total; intros ?).
  apply always_ok_bind; [apply record_done_evidence_total|intros s1].
  apply always_ok_bind; [apply finish_stream_total|intros s2]. cbv zeta.
  destruct (bool_decide _); [apply publish_total|]. destruct (present cue_id).
  - apply always_ok_bind; [apply play_complete_total|intros ?; apply publish_total].
  - apply port_total, publish_total.
Qed.
Lemma process_response_total direction events cue_id s :
  always_ok (process_response env direction events cue_id s).
Proof.
  apply always_ok_bind; [|intros; apply process_audio_done_total].
  revert s. induction events as [|[cue evt] events IH]; intros s; simpl; [by intros calls|].
  apply always_ok_bind; [apply process_audio_delta_total|done].
Qed.
End Total.

(** A response with one cue and one response id whose commands and evidence are
    all accepted is never aborted. *)
Section Undisturbed.
Context (env : AudioEnv) (start : list PortCall) (cue response : string).
Context (Hqueue : ∀ calls, rejected (ae_enqueue env calls) = false).
Context (Hrecord : ∀ calls, ae_record env calls = Ok tt).
Definition undisturbed (s : OmniAudioOutputState) (calls : list PortCall) : Prop :=
  (∃ new, calls = start ++ new ∧ aborts new = false)
  ∧ (ao_stream_cue_id s = None ∨ ao_stream_cue_id s = Some cue)
  ∧ (ao_response_id s = None ∨ ao_response_id s = Some response).
Abbreviation stays s m := (triple (undisturbed s) m undisturbed (λ _, True)).

Lemma undisturbed_call s s' c calls : is_abort c = false →
  (ao_stream_cue_id s' = ao_stream_cue_id s ∨ ao_stream_cue_id s' = Some cue ∨ ao_stream_cue_id s' = None) →
  (ao_response_id s' = ao_response_id s ∨ ao_response_id s' = Some response ∨ ao_response_id s' = None) →
  undisturbed s calls → undisturbed s' (calls ++ [c]).
Proof.
  intros Hc Hq Hr ((new & -> & Hab) & Hcue & Hresp). split.
  - exists (new ++ [c]). rewrite app_assoc. split; [done|]. rewrite aborts_app, Hab. simpl. by rewrite Hc.
  - intuition congruence.
Qed.
Lemma undisturbed_batches fuel batch speaker at_ ms : ∀ s,
  stays s (stream_batches env fuel batch cue speaker at_ ms s).
Proof.
  induction fuel as [|fuel IH]; intros s; simpl; [by apply triple_ret|].
  destruct (_ && _); [|by apply triple_ret]. apply triple_bind with (Q' := undisturbed); [|done].
  intros calls H. unfold stream_batch, now_unix_ms, enqueue_playback_command, port.
  rewrite bind_gets. cbv beta zeta. rewrite bind_gets. cbv beta. unfold bind, gets, modify.
  rewrite Hqueue. eapply undisturbed_call; [done| | |exact H]; simpl; auto.
Qed.

Lemma undisturbed_port s s' c {B} (k : M (list PortCall) B) post : is_abort c = false →
  (ao_stream_cue_id s' = ao_stream_cue_id s ∨ ao_stream_cue_id s' = Some cue ∨ ao_stream_cue_id s' = None) →
  (ao_response_id s' = ao_response_id s ∨ ao_response_id s' = Some response ∨ ao_response_id s' = None) →
  triple (undisturbed s') k post (λ _, True) → triple (undisturbed s) (port c ;;; k) post (λ _, True).
Proof.
  intros Hc Hq Hr Hk calls H. unfold port. rewrite bind_modify. apply Hk. by eapply undisturbed_call.
Qed.
Lemma undisturbed_enqueue s s' f {B} (k : OmniPlaybackEnqueueOutcome → M (list PortCall) B) post :
  (ao_stream_cue_id s' = ao_stream_cue_id s ∨ ao_stream_cue_id s' = Some cue ∨ ao_stream_cue_id s' = None) →
  (ao_response_id s' = ao_response_id s ∨ ao_response_id s' = Some response ∨ ao_response_id s' = None) →
  (∀ o, rejected o = false → triple (undisturbed s') (k o) post (λ _, True)) →
  triple (undisturbed s) (let* o := enqueue_playback_command env f in k o) post (λ _, True).
Proof.
  intros Hq Hr Hk calls H. unfold enqueue_playback_command, port, bind, gets, modify.
  apply (Hk _ (Hqueue _)). by eapply undisturbed_call.
Qed.
Lemma undisturbed_recording s c {B} (k : option string → M (list PortCall) B) post :
  is_abort c = false → triple (undisturbed s) (k None) post (λ _, True) →
  triple (undisturbed s) (let* e := recording env c in k e) post (λ _, True).
Proof.
  intros Hc Hk calls H. unfold recording, port. unfold bind at 1. rewrite bind_modify, bind_gets.
  cbv beta. rewrite Hrecord. apply Hk. eapply undisturbed_call; [done| | |exact H]; by left.
Qed.
Lemma undisturbed_publish s : stays s (publish_pending_native_audio s).
Proof. unfold publish_pending_native_audio. eapply undisturbed_port; [done|by left|by left|]. by apply triple_ret. Qed.
Lemma undisturbed_self s m : (∀ calls, undisturbed s calls → stays s m) → stays s m.
Proof. intros H calls Hs. by apply (H calls). Qed.
Lemma undisturbed_route direction config samples at_ ms qpc s :
  stays s (route_delta env direction cue config (Some response) samples at_ ms qpc s).
Proof.
  apply undisturbed_self. intros calls0 (_ & Hcue & Hresp). unfold route_delta. cbv zeta.
  apply triple_bind with (Q' := λ s1 calls, undisturbed s1 calls ∧ s1 = s).
  { unfold check_response_owner. destruct (ao_stream_cue_id s); [|by apply triple_ret].
    unfold owner_changed. destruct Hresp as [->| ->].
    - rewrite andb_false_r. by apply triple_ret.
    - rewrite bool_decide_eq_true_2 by done. rewrite andb_false_r. by apply triple_ret. }
  intros s1. apply triple_pure. intros _ _ ->.
  apply triple_bind with (Q' := λ s1 calls, undisturbed s1 calls ∧ s1 = s).
  { destruct (_ && _); [|by apply triple_ret]. unfold record_delta_evidence. cbv zeta.
    apply undisturbed_recording; [done|]. by apply triple_ret. }
  intros s2. apply triple_pure. intros _ _ ->.
  destruct (_ && _); [|by apply triple_ret]. unfold stream_audio.
  destruct Hcue as [->| ->]; [apply undisturbed_batches|].
  rewrite bool_decide_eq_true_2 by done. apply undisturbed_batches.
Qed.
Lemma undisturbed_delta direction evt s :
  is_blank cue = false → ad_response_id evt = Some response →
  stays s (process_audio_delta env direction (Some cue) evt s).
Proof.
  intros Hb Hr. unfold process_audio_delta, now_unix_ms. do 3 (apply reading_keeps; intros ?).
  eapply triple_bind with (Q' := undisturbed); [|intros; apply undisturbed_publish].
  destruct (ad_delta evt) as [[len [samples|e]]|]; [|by apply triple_ret..]. cbv zeta. rewrite Hr.
  set (s1 := s <| ao_delta_count ::= _ |> <| ao_delta_base64_bytes ::= _ |> <| ao_response_id ::= _ |>
               <| ao_buffer ::= _ |>).
  apply (undisturbed_port s s1); [done|by left|unfold s1; simpl; destruct (ao_response_id s); auto|].
  unfold present. rewrite Hb. apply (undisturbed_port s1 s1); [done|by left|by left|].
  apply reading_keeps. intros [config|]; [apply undisturbed_route|by apply triple_ret].
Qed.
Lemma undisturbed_done done_cue s : stays s (process_audio_done env done_cue s).
Proof.
  unfold process_audio_done, now_unix_ms. do 2 (apply reading_keeps; intros ?).
  apply triple_bind with (Q' := undisturbed).
  { unfold record_done_evidence. cbv zeta. apply undisturbed_recording; [done|]. by apply triple_ret. }
  intros s1. apply triple_bind with (Q' := undisturbed).
  { unfold finish_stream. destruct (ao_stream_cue_id s1) as [c|]; [|by apply triple_ret].
    unfold now_unix_ms. apply reading_keeps. intros unix. cbv zeta.
    apply triple_bind with (Q' := undisturbed).
    - unfold stream_tail. destruct (_ && _); cbv zeta.
      + apply reading_keeps. intros ?. eapply undisturbed_enqueue; [| |intros o ->; by apply triple_ret];
          simpl; auto.
      + intros calls H. split; [apply H|]. simpl. split; [by left|apply H].
    - intros s2. apply triple_bind with (Q' := λ _, undisturbed s2).
      + unfold stream_end_command. destruct (ao_stream_aborted s2); [by apply triple_ret|].
        apply reading_keeps. intros ?. eapply undisturbed_enqueue; [by left|by left|].
        intros o ->. by apply triple_ret.
      + intros []. by apply triple_ret. }
  intros s2. cbv zeta. destruct (bool_decide _).
  { eapply triple_weaken; [apply undisturbed_publish| |done]. intros calls (H & Hq & _). split_and!; [done|done|by left]. }
  destruct (present done_cue).
  - apply triple_bind with (Q' := λ _, undisturbed s2).
    + unfold play_complete, now_unix_ms. do 2 (apply reading_keeps; intros ?).
      eapply undisturbed_enqueue; [by left|by left|]. intros o Ho.
      destruct o; try done; try (by apply triple_ret). intros calls H. eapply undisturbed_call; [done| | |exact H]; by left.
    + intros []. eapply triple_weaken; [apply undisturbed_publish| |done].
      intros calls (H & Hq & _). split_and!; [done|done|by left].
  - unfold session_issue. apply (undisturbed_port s2 s2); [done|by left|by left|].
    eapply triple_weaken; [apply undisturbed_publish| |done].
    intros calls (H & Hq & _). split_and!; [done|done|by left].
Qed.
Lemma undisturbed_response direction events done_cue s :
  is_blank cue = false → Forall (λ e, e.1 = Some cue ∧ ad_response_id e.2 = Some response) events →
  stays s (process_response env direction events done_cue s).
Proof.
  intros Hb Hev. unfold process_response.
  apply triple_bind with (Q' := undisturbed); [|intros; apply undisturbed_done].
  revert s. induction Hev as [|[c evt] events [Hc Hr] Hev IH]; intros s; simpl; [by apply triple_ret|].
  simpl in Hc, Hr. subst c. apply triple_bind with (Q' := undisturbed); [by apply undisturbed_delta|done].
Qed.
End Undisturbed.

(** C32: The audio of one provider response reaches the playback queue whole and in
    order. From an idle state, for every sequence of audio deltas and the final
    audio.done, every configuration read on the way and every answer of the queue
    and the evidence, the handlers return; unless an abort was issued, the commands
    offered are exactly the decoded samples, either as one complete cue or as a
    stream whose pieces, numbered from 0 with a Start first, concatenate to them
    and which an End closes (or nothing was received, or the cue was missing and
    that was reported), and the state is idle again. A response with one cue and
    one response id whose commands and evidence are accepted is never aborted. *)
Theorem response_audio_is_offered_whole env direction events done_cue_id s calls :
  idle s → (∀ calls, is_panic (ae_record env calls) = false) →
  ∃ s' new, process_response env direction events done_cue_id s calls = (Ok s', calls ++ new)
    ∧ (aborts new = true
       ∨ (idle s' ∧
          ((received events = [] ∧ offered new = [])
           ∨ (present done_cue_id = None ∧ offered new = []
              ∧ SessionIssue "native-playback-missing-cue" "error" ∈ new)
           ∨ (∃ x, offered new = [Play x] ∧ ca_samples x = received events
                ∧ present done_cue_id = Some (ca_cue_id x))
           ∨ (∃ cue_id, complete_stream cue_id (received events) (offered new)))))
    ∧ (∀ cue response, is_blank cue = false → (∀ calls, rejected (ae_enqueue env calls) = false) →
         (∀ calls, ae_record env calls = Ok tt) →
         Forall (λ e, e.1 = Some cue ∧ ad_response_id e.2 = Some response) events →
         aborts new = false).
Proof.
  intros (Hcl & Hb & Hna & Hr) Hpanic.
  pose proof (process_response_total env Hpanic direction events done_cue_id s calls) as Hok.
  destruct (process_response env direction events done_cue_id s calls) as [[s'|e] calls'] eqn:Hrun; [|done].
  assert (triple (turn calls [] s) (process_response env direction events done_cue_id s)
    (response_done calls done_cue_id (received events)) (λ _, True)) as H.
  { unfold process_response. eapply triple_bind; [apply process_deltas_keeps|].
    intros s1. apply process_audio_done_keeps. }
  specialize (H calls). rewrite Hrun in H. destruct H as (new & -> & H).
  { exists []. rewrite app_nil_r. split; [done|]. by apply shape_quiet. }
  exists s', new. split; [done|]. split.
  { destruct H as [H|[H Hidle]]; [by left|]. right. by split. }
  intros cue response Hblank Hq Hrec Hev. destruct Hcl as (Hcue & _).
  pose proof (undisturbed_response env calls cue response Hq Hrec direction events done_cue_id s Hblank Hev calls)
    as Hun. rewrite Hrun in Hun. destruct Hun as ((new' & E & Hab) & _).
  - split_and!; [|by left|by left]. exists []. by rewrite app_nil_r.
  - by apply app_inv_head in E as <-.
Qed.

(** ** Runs *)
Module AudioDemo.
Definition config : OmniSpeechConfig := mk_speech_config true (mk_route_config true false false None) None.
Definition env (answer : list PortCall → OmniPlaybackEnqueueOutcome) : AudioEnv :=
  mk_audio_env (λ _, 1000) (λ _, 7) (λ _, Some 1) (λ _, Some config) (λ _, None) answer (λ _, Ok tt).
Definition delta (samples : list Z) : option string * AudioDelta :=
  (Some "cue", mk_delta (Some (4, Ok samples)) (Some "response")).
Definition accept (_ : list PortCall) : OmniPlaybackEnqueueOutcome := Queued.
(** Full for the first command, room afterwards. *)
Definition full_once (calls : list PortCall) : OmniPlaybackEnqueueOutcome :=
  if (length (offered calls) =? 1)%nat then Overflow QueueFull [] 0 else Queued.
(** The queue begins to drain before the [End]. *)
Definition drains_before_end (calls : list PortCall) : OmniPlaybackEnqueueOutcome :=
  match last calls with Some (EnqueueCommand (Stream _ _ StreamEnd _)) => Stopped | _ => Queued end.
Definition calls_of (r : outcome OmniAudioOutputState * list PortCall) : list PortCall := r.2.
End AudioDemo.
Lemma response_audio_is_offered_whole_witness :
  let run := process_response (AudioDemo.env AudioDemo.accept) "inbound"
               [AudioDemo.delta [1; 2]; AudioDemo.delta [3]] (Some "cue") audio_output_new [] in
  (∃ s', run.1 = Ok s') ∧ aborts run.2 = false
  ∧ (concat (ca_samples ∘ command_audio <$> offered run.2)) = [1; 2; 3].
Proof.
  destruct (response_audio_is_offered_whole (AudioDemo.env AudioDemo.accept) "inbound"
    [AudioDemo.delta [1; 2]; AudioDemo.delta [3]] (Some "cue") audio_output_new [])
    as (s' & new & Hrun & _ & Hab); [by vm_compute|done|].
  cbv zeta. rewrite Hrun. split; [by exists s'|]. split.
  - apply (Hab "cue" "response"); [by vm_compute|done|done|repeat constructor].
  - assert (new = (process_response (AudioDemo.env AudioDemo.accept) "inbound"
      [AudioDemo.delta [1; 2]; AudioDemo.delta [3]] (Some "cue") audio_output_new []).2) as ->
      by (by rewrite Hrun).
    by vm_compute.
Defined.

(** A stream whose [Start] is rejected leaves the rest of its first delta in the
    buffer; the end of the audio then offers that rest as a complete cue. *)
Example rejected_stream_plays_a_fragment :
  let calls := (process_response (AudioDemo.env AudioDemo.full_once) "inbound"
      [AudioDemo.delta (replicate 2401 5); AudioDemo.delta (replicate 2400 6)] (Some "cue")
      audio_output_new []).2 in
  aborts calls = true
  ∧ ((λ c, (match c with Play _ => true | _ => false end, length (ca_samples (command_audio c))))
       <$> offered calls) = [(false, 2400%nat); (true, 1%nat)].
Proof. by vm_compute. Qed.
(** An [End] that is rejected aborts the cue of the event: when that is unknown the
    stream itself is neither ended nor aborted. *)
Example rejected_end_leaves_the_stream_open :
  let calls := (process_response (AudioDemo.env AudioDemo.drains_before_end) "inbound"
      [AudioDemo.delta [1; 2]] None audio_output_new []).2 in
  existsb (λ c, match c with AbortStream "unknown-native-cue" _ _ => true | _ => false end) calls = true
  ∧ existsb (λ c, match c with AbortStream "cue" _ _ => true | _ => false end) calls = false
  ∧ existsb (λ c, match c with SessionIssue "native-playback-stream-stopped" _ => true | _ => false end)
      calls = true.
Proof. by vm_compute. Qed.
