(* ===== verification/OmniSystem.v ===== *)
(** * One session's playback among the other threads

    [move] is one step of the process as a session's [OmniPlaybackQueue] sees it:
    the provider session (which holds a submission reservation around each
    enqueue), the playback worker of [audio/omni/protocol.rs] (which works on one
    command at a time and may receive more of its stream meanwhile), the
    session's shutdown, and the users of [PlaybackQuiescence] elsewhere: the
    restart barrier, and the queues of other sessions, which publish their counts
    to the same process-wide quiescence ([publish_state]). Each step is one section
    under a lock. *)
From S2P Require Import Prelude RustStr DesktopTimeline PlaybackOwnership TranslatedPcm WatchTerminal PlaybackQuiescence OmniPlaybackQueue.

Definition is_marker (c : OmniPlaybackCommand) : bool :=
  match c with Stream _ _ StreamAbort _ => true | _ => false end.
Definition speech (l : list OmniPlaybackCommand) : list OmniPlaybackCommand :=
  filter (λ c, is_marker c = false) l.

(** [sy_reserved]: the producer holds its reservation. [sy_held]: the command the
    worker works on, until its guard is dropped. [sy_inner]: the command it has
    received since and may still return. The lists record, in order, the commands
    accepted, those the worker took, and those removed without being taken.
    [sy_others] counts the publications of other sessions; [sy_hidden]: when the
    restart barrier last went up, the quiescence did not show this queue's counts. *)
Record OmniSystem := mk_omni_system {
  sy_playback : Playback; sy_reserved : bool; sy_held : option OmniPlaybackCommand;
  sy_inner : option OmniPlaybackCommand;
  sy_accepted : list OmniPlaybackCommand; sy_taken : list OmniPlaybackCommand;
  sy_revoked : list OmniPlaybackCommand; sy_others : nat; sy_hidden : bool
}.
#[export] Instance omni_system_settable : Settable OmniSystem := λ s,
  mk_omni_system (sy_playback s) (sy_reserved s) (sy_held s) (sy_inner s) (sy_accepted s)
    (sy_taken s) (sy_revoked s) (sy_others s) (sy_hidden s).
Definition sy_queue (s : OmniSystem) : OmniPlaybackQueueState := pb_queue (sy_playback s).
Definition sy_guards (s : OmniSystem) : Guards := pb_guards (sy_playback s).

Inductive omni_label :=
| OOther (l : quiescence_label)
| OReserve
| OEnqueue (command : OmniPlaybackCommand) (now published unix_ms : Z)
| ORelease
| OAbortStream (cue_id : string) (chunk_index created_at_ms now published : Z)
| OReceive (deadline now published : Z)
| OWake (timed_out : bool) (deadline now published : Z)
| OReturn (published : Z)
| OStreamActive (active : bool) (published : Z)
| OFinish (published : Z)
| OFinishing (published : Z)
| ODrain (published : Z)
| OAbort (published : Z)
| OAudioDelta (cue_id response_id : string) (now_ms : Z) (qpc_100ns : option Z) (audible : bool)
    (qpc : option Z) (ms : Z)
| OAudioDone (response_id : string) (now_ms : Z) (qpc_100ns qpc : option Z) (ms : Z)
| ORemoveTimeline (response_id : string)
| OFailEvidence (cue_id response_id error : string) (now published : Z).

Section System.
Context (capacity : nat) (values : gmap string BridgePlaybackCue → list BridgePlaybackCue).
Context (io_answer : nat → outcome unit) (encode : TimelineRow → outcome (list Z)).

(** The publication of a queue. *)
Definition publication (l : quiescence_label) : bool :=
  match l with QQueue _ _ _ _ => true | _ => false end.
(** Whether the quiescence shows what this queue would publish. *)
Definition shown (s : OmniSystem) : bool :=
  let q := qt_snapshot (gd_state (sy_guards s)) in
  (qs_queued_commands q =? Z.of_nat (length (oq_pending (sy_queue s))))
  && (qs_active_commands q =? if queue_active (sy_queue s) then 1 else 0).
(** A step on the quiescence that is not a publication of this queue. *)
Definition elsewhere (l : quiescence_label) (g : Guards) (s : OmniSystem) : OmniSystem :=
  s <| sy_playback ::= (λ p, p <| pb_guards := g |>) |>
    <| sy_others ::= (λ n, if publication l then S n else n) |>
    <| sy_hidden := if barrier g && negb (barrier (sy_guards s)) then negb (shown s) else sy_hidden s |>.
Definition run_part (m : M Playback unit) (s : OmniSystem) : OmniSystem :=
  s <| sy_playback := (m (sy_playback s)).2 |>.
(** The worker's part of a receive: what it took. *)
Definition received_step (r : outcome (progress OmniPlaybackReceiveOutcome) * Playback) (s : OmniSystem)
    : OmniSystem :=
  let s := s <| sy_playback := r.2 |> in
  match r.1 with
  | Ok (Returned (Command command _)) =>
      let s := s <| sy_taken ::= λ l, l ++ speech [command] |> in
      match sy_held s with
      | None => s <| sy_held := Some command |>
      | Some _ => s <| sy_inner := Some command |>
      end
  | _ => s <| sy_inner := None |>
  end.
(** What a revocation removes from the queue. *)
Definition revoke (removed : list OmniPlaybackCommand) (s : OmniSystem) : OmniSystem :=
  s <| sy_revoked ::= λ l, l ++ speech removed |>.

Definition exec_omni (l : omni_label) (s : OmniSystem) : option OmniSystem :=
  let q := sy_queue s in
  match l with
  | OOther l =>
      if match l with
              | QDropSubmission => gd_submissions (sy_guards s) <=? (if sy_reserved s then 1 else 0)
              | _ => false
              end then None
      else match exec_quiescence values l (sy_guards s) with
           | Some g => Some (elsewhere l g s)
           | None => None
           end
  | OReserve =>
      if sy_reserved s then None
      else match exec_quiescence values QSubmission (sy_guards s) with
           | Some g => Some ((elsewhere QSubmission g s) <| sy_reserved := true |>)
           | None => None
           end
  | OEnqueue command now published unix_ms =>
      if negb (sy_reserved s) || is_marker command then None
      else
        let r := enqueue capacity values command now published unix_ms (sy_playback s) in
        let s := s <| sy_playback := r.2 |> in
        Some match r.1 with
             | Ok (Queued | QueuedAfterDroppingStale _) => s <| sy_accepted ::= λ l, l ++ [command] |>
             | _ => s
             end
  | ORelease =>
      if negb (sy_reserved s) then None
      else match exec_quiescence values QDropSubmission (sy_guards s) with
           | Some g => Some ((elsewhere QDropSubmission g s) <| sy_reserved := false |>)
           | None => None
           end
  | OAbortStream cue_id chunk_index created_at_ms now published =>
      let m := abort_stream values cue_id chunk_index created_at_ms now published in
      let dead := bool_decide (oq_shutdown q = Aborted)
                  || bool_decide (cue_id ∈ oq_terminated_stream_cues q) in
      Some (run_part m (if dead then s
                        else revoke (filter (λ c, is_stream_of cue_id c = true) (oq_pending q)) s))
  | OReceive deadline now published =>
      Some (received_step (recv_pass values deadline now published (sy_playback s)) s)
  | OWake timed_out deadline now published =>
      Some (received_step (recv_wake values timed_out deadline now published (sy_playback s)) s)
  | OReturn published =>
      match sy_inner s with
      | None => None
      | Some command =>
          let s' := run_part (return_pending values command published) s in
          let s' := s' <| sy_inner := None |>
                       <| sy_taken ::= λ l, if is_marker command then l else removelast l |> in
          Some (if bool_decide (oq_shutdown q = Aborted) then revoke [command] s' else s')
      end
  | OStreamActive active published =>
      match sy_held s with
      | Some command =>
          if active && is_marker command then None
          else Some (run_part (set_desktop_stream_active values active published) s)
      | None => None
      end
  | OFinish published =>
      match sy_held s with
      | Some _ =>
          if oq_desktop_stream_active q then None
          else Some (run_part (finish_active values published) s <| sy_held := None |> <| sy_inner := None |>)
      | None => None
      end
  | OFinishing published => Some (run_part (begin_provider_finishing values published) s)
  | ODrain published => Some (run_part (drain_and_stop values published) s)
  | OAbort published => Some (run_part (abort values published) (revoke (oq_pending q) s))
  | OAudioDelta cue_id response_id now_ms qpc_100ns audible qpc ms =>
      Some (run_part (record_desktop_audio_delta capacity io_answer encode cue_id response_id now_ms
                        qpc_100ns audible qpc ms) s)
  | OAudioDone response_id now_ms qpc_100ns qpc ms =>
      Some (run_part (record_desktop_audio_done io_answer encode response_id now_ms qpc_100ns qpc ms) s)
  | ORemoveTimeline response_id => Some (run_part (remove_desktop_timeline response_id) s)
  | OFailEvidence cue_id response_id error now published =>
      let r := fail_desktop_evidence values cue_id response_id error now published (sy_playback s) in
      Some ((if is_panic r.1 then s else revoke (oq_pending q) s) <| sy_playback := r.2 |>)
  end.
Definition omni_step (s : OmniSystem) (l : omni_label) (s' : OmniSystem) : Prop :=
  exec_omni l s = Some s'.
(** A session starts on a quiescence and a Watch ledger that others have used;
    counts another session's queue left there are publications of others. *)
Definition omni_init (s : OmniSystem) : Prop :=
  ∃ directory identity g watch issues others,
    quiescence_reachable values g
    ∧ (others = O → qs_queued_commands (qt_snapshot (gd_state g)) = 0
                    ∧ qs_active_commands (qt_snapshot (gd_state g)) = 0)
    ∧ s = mk_omni_system (mk_playback_state queue_new (from_env directory identity) g watch issues)
            false None None [] [] [] others false.
Definition omni_reachable : OmniSystem → Prop := reachable omni_init omni_step.

(** ** The worker while the queue drains *)
(** [n] turns of the worker's loop, each command carried out in between. *)
Fixpoint worker_turns (n : nat) (deadline now published finished : nat → Z) (p : Playback)
    : list OmniPlaybackReceiveOutcome * Playback :=
  match n with
  | O => ([], p)
  | S n =>
      match recv_pass values (deadline n) (now n) (published n) p with
      | (Ok (Returned outcome), p) =>
          let p := (finish_active values (finished n) p).2 in
          let '(outcomes, p) := worker_turns n deadline now published finished p in
          (outcome :: outcomes, p)
      | (_, p) => ([], p)
      end
  end.
(** [join_worker], once the thread has ended. *)
Definition shutdown_result (p : Playback) : outcome unit := evidence_outcome (pb_evidence p).
End System.
