(* ===== verification/OmniSystemTheorems.v ===== *)
(** * What the playback queue promises

    [system_inv] holds in every interleaving; the theorems read it: accepted speech
    is taken in order or revoked for a reason, the restart barrier excludes speech
    unless another session's publication hid it, and a draining queue is emptied. *)
From S2P Require Import Prelude RustStr DesktopTimeline PlaybackOwnership TranslatedPcm WatchTerminal PlaybackQuiescence PlaybackQuiescenceTheorems OmniPlaybackQueue OmniSystem.

(** ** Speech in a list of commands *)
Lemma speech_app l k : speech (l ++ k) = speech l ++ speech k.
Proof. apply filter_app. Qed.
Lemma speech_cons c l : speech (c :: l) = if is_marker c then speech l else c :: speech l.
Proof. unfold speech. rewrite filter_cons. by destruct (is_marker c). Qed.
Lemma speech_first c l : speech (c :: l) = speech [c] ++ speech l.
Proof. exact (speech_app [c] l). Qed.
Lemma speech_of c : is_marker c = false → speech [c] = [c].
Proof. intros H. by rewrite speech_cons, H. Qed.
Lemma speech_in c l : c ∈ speech l ↔ is_marker c = false ∧ c ∈ l.
Proof. unfold speech. by rewrite list_elem_of_filter. Qed.
Lemma speech_split (p : OmniPlaybackCommand → bool) l :
  speech l ≡ₚ speech (filter (λ c, p c = true) l) ++ speech (filter (λ c, p c = false) l).
Proof. rewrite <- speech_app. unfold speech. by rewrite <- (filter_split p l). Qed.
Lemma speech_filter_sublist (P : OmniPlaybackCommand → Prop) `{∀ c, Decision (P c)} l :
  sublist (speech (filter P l)) (speech l).
Proof.
  induction l as [|c l IH]; [done|]. rewrite filter_cons, (speech_cons c l). case_decide.
  - rewrite speech_cons. destruct (is_marker c); [done|by constructor].
  - destruct (is_marker c); [done|by apply sublist_cons].
Qed.

Section System.
Context (capacity : nat) (values : gmap string BridgePlaybackCue → list BridgePlaybackCue).
Context (io_answer : nat → outcome unit) (encode : TimelineRow → outcome (list Z)).
Abbreviation step := (omni_step capacity values io_answer encode).

(** ** What the quiescence shows of the queue *)
Definition queue_view (s : TranslationPlaybackQuiescenceState) : Z * Z :=
  (qs_queued_commands (qt_snapshot s), qs_active_commands (qt_snapshot s)).
Lemma refresh_queue_view s : queue_view (refresh_pending_audio values s) = queue_view s.
Proof. unfold refresh_pending_audio. by destruct (sum_pending _ _ _) as [[]|]. Qed.
Lemma other_queue_view l g g' :
  publication l = false → exec_quiescence values l g = Some g' →
  queue_view (gd_state g') = queue_view (gd_state g).
Proof.
  intros Hown H. destruct l; simpl in H; try done;
    repeat match type of H with
      | (if ?b then _ else _) = Some _ => destruct b; [done|]
      end; injection H as <-; try done; simpl; unfold set_with.
  - unfold observe_bridge_playback_status, recount.
    destruct (_ || _); [by rewrite refresh_queue_view|].
    destruct (is_terminal_status _); [by rewrite refresh_queue_view|done].
  - unfold expect_bridge_playback_cue_for_owner, recount. destruct (is_blank _); [done|].
    by rewrite refresh_queue_view.
  - unfold observe_bridge_playback_status_for_owner, recount. destruct (negb _); [done|].
    destruct (is_terminal_status _); [|done]. simpl. by rewrite refresh_queue_view.
  - unfold try_begin_restart_barrier. by destruct (negb _).
Qed.
Definition view_ok (p : Playback) : Prop :=
  queue_view (gd_state (pb_guards p))
  = (Z.of_nat (length (oq_pending (pb_queue p))), if queue_active (pb_queue p) then 1 else 0).
(** The guards after some steps of this session's threads on the queue. *)
Definition guards_kept (g g' : Guards) : Prop :=
  (guards_inv g → guards_inv g') ∧ gd_submissions g' = gd_submissions g ∧ barrier g' = barrier g.
#[local] Instance guards_kept_preorder : PreOrder guards_kept.
Proof. split; unfold guards_kept; [by intros g|]. intros x y z (? & ? & ?) (? & ? & ?). split_and!; [auto|congruence..]. Qed.
Lemma publish_facts now p :
  let p' := (publish_state values now p).2 in
  pb_queue p' = pb_queue p ∧ view_ok p' ∧ guards_kept (pb_guards p) (pb_guards p').
Proof.
  unfold publish_state, modify. cbv zeta. cbn [snd].
  set (f := set_queue_state values _ _ _ _).
  assert (∀ s, guard_view (f s) = guard_view s) as Hv.
  { intros s. unfold f, set_queue_state. by rewrite refresh_view. }
  split; [done|]. split.
  - unfold view_ok. simpl. unfold f, set_queue_state. by rewrite refresh_queue_view.
  - split_and!; [|done|].
    + intros Hi. change (guards_inv ((pb_guards p) <| gd_state := f (gd_state (pb_guards p)) |>)).
      by apply guards_inv_view.
    + unfold barrier. simpl. specialize (Hv (gd_state (pb_guards p))). unfold guard_view in Hv. congruence.
Qed.
(** A change of the queue that is published. *)
Lemma update_publish_facts f now p :
  let p' := ((update_queue f ;;; publish_state values now) p).2 in
  pb_queue p' = f (pb_queue p) ∧ view_ok p' ∧ guards_kept (pb_guards p) (pb_guards p').
Proof. exact (publish_facts now (p <| pb_queue := f (pb_queue p) |>)). Qed.

Definition published (p p' : Playback) : Prop :=
  (view_ok p → view_ok p') ∧ guards_kept (pb_guards p) (pb_guards p').
#[local] Instance published_preorder : PreOrder published.
Proof.
  split; unfold published; [by intros p|]. intros x y z [? ?] [? ?]. split; [auto|by etransitivity].
Qed.
Lemma update_published f now p :
  let p' := ((update_queue f ;;; publish_state values now) p).2 in
  pb_queue p' = f (pb_queue p) ∧ published p p'.
Proof. destruct (update_publish_facts f now p) as (? & ? & ?). by split_and!. Qed.

(** ** The invariant *)
Definition taken_or_pending (s : OmniSystem) : list OmniPlaybackCommand :=
  sy_taken s ++ speech (oq_pending (sy_queue s)).
Definition cancelled_by (q : OmniPlaybackQueueState) (c : OmniPlaybackCommand) : Prop :=
  oq_shutdown q = Aborted ∨ ∃ a i st o, c = Stream a i st o ∧ ca_cue_id a ∈ oq_terminated_stream_cues q.
Record accounts (s : OmniSystem) : Prop := {
  ac_all : sy_accepted s ≡ₚ taken_or_pending s ++ sy_revoked s;
  ac_order : sublist (taken_or_pending s) (sy_accepted s);
  ac_revoked : Forall (cancelled_by (sy_queue s)) (sy_revoked s);
  ac_inner : ∀ c, sy_inner s = Some c → is_marker c = false → ∃ d, sy_taken s = d ++ [c];
  ac_aborted : oq_shutdown (sy_queue s) = Aborted → oq_pending (sy_queue s) = []
}.
Record worker_ok (s : OmniSystem) : Prop := {
  wk_inner : is_Some (sy_inner s) → is_Some (sy_held s);
  wk_active : oq_shutdown (sy_queue s) ≠ Aborted → is_Some (sy_held s) →
    is_Some (oq_active_expected_end (sy_queue s));
  wk_stream : oq_desktop_stream_active (sy_queue s) = true →
    ∃ c, sy_held s = Some c ∧ is_marker c = false
}.
(** Nothing but abort markers moves. *)
Definition silent (s : OmniSystem) : Prop :=
  sy_reserved s = false ∧ speech (oq_pending (sy_queue s)) = []
  ∧ (oq_shutdown (sy_queue s) ≠ Aborted →
     oq_desktop_stream_active (sy_queue s) = false
     ∧ ∀ c, sy_held s = Some c ∨ sy_inner s = Some c → is_marker c = true).
Record guarded (s : OmniSystem) : Prop := {
  gu_guards : guards_inv (sy_guards s);
  gu_reserved : sy_reserved s = true → 1 ≤ gd_submissions (sy_guards s);
  gu_view : sy_others s = O → view_ok (sy_playback s) ∧ sy_hidden s = false
}.
Record system_inv (s : OmniSystem) : Prop := {
  si_guarded : guarded s;
  si_accounts : accounts s;
  si_worker : worker_ok s;
  si_barrier : barrier (sy_guards s) = true → sy_reserved s = false ∧ (sy_hidden s = false → silent s)
}.
(** What the steps of the session's own threads leave to the producer and to the
    rest of the process. *)
Definition same_ghosts (s s' : OmniSystem) : Prop :=
  sy_reserved s' = sy_reserved s ∧ sy_others s' = sy_others s ∧ sy_hidden s' = sy_hidden s.

(** A step of this session's threads that leaves its reservation alone. *)
Lemma step_inv s s' :
  published (sy_playback s) (sy_playback s') → same_ghosts s s' →
  (system_inv s → accounts s') → (system_inv s → worker_ok s') → (silent s → silent s') →
  system_inv s → system_inv s'.
Proof.
  intros [Hv (Hi & Hsub & Hb)] (Hr & Hot & Hhid) Hac Hwk Hsi Hinv.
  pose proof Hinv as [[Hg Hres Hview] _ _ Hbar].
  split; [split; [by apply Hi| |]|auto..|].
  - rewrite Hr. unfold sy_guards. by rewrite Hsub.
  - rewrite Hot, Hhid. intros H0. destruct (Hview H0). auto.
  - unfold sy_guards. rewrite Hb, Hr, Hhid. intros H0. destruct (Hbar H0). auto.
Qed.
Lemma same_accounts s s' :
  sy_accepted s' = sy_accepted s → sy_taken s' = sy_taken s → sy_revoked s' = sy_revoked s →
  oq_pending (sy_queue s') = oq_pending (sy_queue s) →
  (∀ c, cancelled_by (sy_queue s) c → cancelled_by (sy_queue s') c) →
  (∀ c, sy_inner s' = Some c → sy_inner s = Some c) →
  (oq_shutdown (sy_queue s') = Aborted → oq_shutdown (sy_queue s) = Aborted) →
  accounts s → accounts s'.
Proof.
  intros Ha Ht Hr Hp Hc Hi Hs []. unfold taken_or_pending in *.
  constructor; unfold taken_or_pending; rewrite ?Ha, ?Ht, ?Hr, ?Hp; auto.
  eapply Forall_impl; [done|auto].
Qed.

(** ** Each step keeps it *)
(** The barrier goes up only when nothing is queued, active or reserved. *)
Lemma barrier_after l g g' :
  exec_quiescence values l g = Some g' → barrier g' = true →
  barrier g = true
  ∨ (queue_view (gd_state g) = (0, 0) ∧ qs_pending_playback_submissions (qt_snapshot (gd_state g)) = 0).
Proof.
  intros H. change (barrier g') with (guard_view (gd_state g')).2.
  change (barrier g) with (guard_view (gd_state g)).2.
  destruct l as [pending|queued active f r| | |cue status|cue au f r|cue status au| | | |]; simpl in H;
    repeat match type of H with
      | (if ?b then _ else _) = Some _ => destruct b; [done|]
      end; injection H as <-; unfold set_with; cbn [gd_state]; try (intros Hb; left; exact Hb).
  - unfold set_queue_state. rewrite refresh_view. by left.
  - rewrite status_view. by left.
  - rewrite expect_view. by left.
  - rewrite status_owner_view. by left.
  - unfold try_begin_restart_barrier. destruct (is_quiescent _) eqn:E; simpl; [|by left].
    intros _. right. unfold is_quiescent in E. bool_hyps. unfold queue_view. split; [by f_equal|done].
  - done.
Qed.

(** While the quiescence shows the counts of an empty, idle queue and no
    submission is pending, nothing moves. *)
Lemma shown_view s : shown s = true ↔ view_ok (sy_playback s).
Proof.
  unfold shown, view_ok, queue_view, sy_guards, sy_queue. rewrite andb_true_iff, !Z.eqb_eq.
  split; [intros [-> ->]; done|intros [= -> ->]; done].
Qed.
Lemma quiescent_silent s : guarded s → worker_ok s → view_ok (sy_playback s) →
  queue_view (gd_state (sy_guards s)) = (0, 0) → sy_reserved s = false → silent s.
Proof.
  intros [Hg Hres _] Hwk Hv Hq Hr. unfold view_ok in Hv. unfold sy_guards in Hq. rewrite Hq in Hv.
  injection Hv as Hlen Hact. destruct (queue_active (pb_queue (sy_playback s))) eqn:Hqa; [done|].
  unfold queue_active in Hqa. apply orb_false_iff in Hqa as [Hend Hst]. split_and!; [done|..].
  - change (speech (oq_pending (pb_queue (sy_playback s))) = []).
    destruct (oq_pending (pb_queue (sy_playback s))); [done|]. simpl in Hlen. lia.
  - intros Hna. split; [exact Hst|]. intros c Hc. exfalso.
    assert (is_Some (sy_held s)) as Hheld.
    { destruct Hc as [Hc|Hc]; [by eexists|]. apply (wk_inner s Hwk). by eexists. }
    apply (wk_active s Hwk Hna) in Hheld as [e He]. unfold sy_queue in He. by rewrite He in Hend.
Qed.

(** A step elsewhere leaves the queue alone; one that is not a publication leaves
    its view. *)
Lemma other_step_inv l g s reserved :
  exec_quiescence values l (sy_guards s) = Some g →
  (reserved = true → 1 ≤ gd_submissions g) →
  (barrier g = true → reserved = true → sy_reserved s = true) →
  system_inv s → system_inv ((elsewhere l g s) <| sy_reserved := reserved |>).
Proof.
  intros H Hsub Hkeep [[Hg Hres Hv] Hac Hwk Hbar].
  assert (Hlow : barrier g = true → sy_reserved s = false → reserved = false).
  { intros Hb Hr. destruct reserved; [|done]. specialize (Hkeep Hb eq_refl). congruence. }
  split; [|by eapply same_accounts; [..|exact Hac]|by destruct Hwk|].
  - split; simpl; [by eapply guards_exec|done|]. destruct (publication l) eqn:Ho; [done|].
    intros H0. destruct (Hv H0) as [Hvw Hh]. split.
    + unfold view_ok. simpl. rewrite (other_queue_view l _ g Ho H). exact Hvw.
    + case_match; [|done]. apply negb_false_iff. by apply shown_view.
  - simpl. change (barrier g = true → reserved = false ∧
      ((if barrier g && negb (barrier (sy_guards s)) then negb (shown s) else sy_hidden s) = false →
       silent ((elsewhere l g s) <| sy_reserved := reserved |>))).
    intros Hb. rewrite Hb.
    destruct (barrier (sy_guards s)) eqn:Hold; simpl.
    + destruct (Hbar eq_refl) as [Hr Hrest]. split; [auto|]. intros Hh. destruct (Hrest Hh) as (_ & ? & ?).
      split_and!; [by apply Hlow|done..].
    + destruct (barrier_after _ _ _ H Hb) as [?|[Hq Hs]]; [congruence|].
      assert (sy_reserved s = false) as Hr.
      { destruct (sy_reserved s); [|done]. specialize (Hres eq_refl).
        destruct Hg as [_ [Hg _] _]. unfold sy_guards in *. lia. }
      split; [auto|]. intros Hh. apply negb_false_iff in Hh. apply shown_view in Hh.
      destruct (quiescent_silent s) as (_ & ? & ?); [done..|]. split_and!; [by apply Hlow|done..].
Qed.

(** ** What each operation does to the queue *)
Definition accepted_outcome (r : outcome OmniPlaybackEnqueueOutcome) : bool :=
  match r with Ok (Queued | QueuedAfterDroppingStale _) => true | _ => false end.
Lemma enqueue_facts command now t ms p :
  let r := enqueue capacity values command now t ms p in
  published p r.2 ∧
  pb_queue r.2 = (if accepted_outcome r.1
                  then (pb_queue p) <| oq_pending ::= λ l, l ++ [command] |> else pb_queue p) ∧
  (accepted_outcome r.1 = true → oq_shutdown (pb_queue p) ≠ Aborted).
Proof.
  pose proof (update_published (λ q, q) t p) as Hsame.
  pose proof (update_published (λ q, q <| oq_pending ::= λ l, l ++ [command] |>) t p) as Hpush.
  destruct p as [q e g w i]. unfold enqueue. rewrite bind_gets. cbv beta.
  destruct (oq_shutdown _) eqn:Hsh; [| |done..].
  all: destruct (match command with Play _ => _ | _ => _ end); [done|].
  all: unfold drain_expired_pending, update_queue; rewrite bind_modify; cbv beta.
  all: destruct (_ <=? _)%nat; [by destruct Hsame|].
  all: destruct (match realtime_start_age command ms with Some _ => _ | None => _ end); [by destruct Hsame|].
  all: by destruct Hpush.
Qed.
Definition dead_stream (q : OmniPlaybackQueueState) (cue_id : string) : bool :=
  bool_decide (oq_shutdown q = Aborted) || bool_decide (cue_id ∈ oq_terminated_stream_cues q).
Definition terminate (marker : OmniPlaybackCommand) (cue_id : string) (q : OmniPlaybackQueueState)
    : OmniPlaybackQueueState :=
  q <| oq_terminated_stream_cues ::= λ cues, {[cue_id]} ∪ cues |>
    <| oq_pending ::= λ l, marker :: filter (λ c, is_stream_of cue_id c = false) l |>.
Lemma abort_stream_facts cue_id index created now t p :
  let p' := (abort_stream values cue_id index created now t p).2 in
  published p p' ∧
  pb_queue p' = (if dead_stream (pb_queue p) cue_id then pb_queue p
                 else terminate (abort_marker cue_id index created now) cue_id (pb_queue p)).
Proof.
  pose proof (update_published (terminate (abort_marker cue_id index created now) cue_id) t p) as [].
  unfold abort_stream, dead_stream. rewrite bind_gets. cbv beta.
  by destruct (bool_decide _); [|destruct (bool_decide _)].
Qed.
(** A receive takes the first command, or leaves the queue as it is. *)
Definition taking (command : OmniPlaybackCommand) (now : Z) (q q' : OmniPlaybackQueueState) : Prop :=
  ∃ rest, oq_pending q = command :: rest ∧ oq_shutdown q ≠ Aborted ∧
    q' = q <| oq_pending := rest |>
           <| oq_active_expected_end := Some (now + estimated_duration command) |>.
Definition receive_facts (now : Z) (p : Playback) (r : outcome (progress OmniPlaybackReceiveOutcome) * Playback)
    : Prop :=
  published p r.2 ∧
  match r.1 with
  | Ok (Returned (Command command _)) => taking command now (pb_queue p) (pb_queue r.2)
  | _ => pb_queue r.2 = pb_queue p
  end.
Lemma recv_pass_facts deadline now t p : receive_facts now p (recv_pass values deadline now t p).
Proof.
  pose proof (λ f, update_published f t p) as Hpub. destruct p as [q e g w i].
  unfold recv_pass. rewrite bind_gets. cbv beta. destruct (bool_decide _) eqn:Hna; [done|]. bool_hyps.
  unfold drain_expired_pending, update_queue in *. rewrite bind_modify. cbn [pb_queue].
  destruct (oq_pending q) as [|c rest] eqn:Hq.
  - destruct (bool_decide _); [done|]. by destruct (_ <=? _).
  - destruct (Hpub (λ s, s <| oq_pending := rest |>
                           <| oq_active_expected_end := Some (now + estimated_duration c) |>)) as [_ H].
    split; [exact H|]. by exists rest.
Qed.
Lemma recv_wake_facts timed_out deadline now t p :
  receive_facts now p (recv_wake values timed_out deadline now t p).
Proof.
  unfold recv_wake. rewrite bind_gets. cbv beta.
  destruct (oq_pending _); [destruct timed_out; [done|]|]; apply recv_pass_facts.
Qed.
Lemma return_facts command t p :
  let p' := (return_pending values command t p).2 in
  published p p' ∧
  pb_queue p' = (if bool_decide (oq_shutdown (pb_queue p) = Aborted) then pb_queue p
                 else (pb_queue p) <| oq_pending ::= λ l, command :: l |>).
Proof.
  pose proof (update_published (λ s, s <| oq_pending ::= λ l, command :: l |>) t p) as [].
  unfold return_pending. rewrite bind_gets. cbv beta. by destruct (bool_decide _).
Qed.
Lemma abort_facts t p :
  let p' := (abort values t p).2 in
  published p p' ∧
  pb_queue p' = (pb_queue p) <| oq_shutdown := Aborted |> <| oq_pending := [] |>
    <| oq_terminated_stream_cues := ∅ |> <| oq_desktop_timelines := ∅ |>
    <| oq_active_expected_end := None |>.
Proof.
  destruct (update_published (λ s, s <| oq_shutdown := Aborted |> <| oq_pending := [] |>
    <| oq_terminated_stream_cues := ∅ |> <| oq_desktop_timelines := ∅ |>
    <| oq_active_expected_end := None |>) t
    (p <| pb_evidence ::= evidence_fail "playback worker aborted before successful drain" |>)) as [Hq Hp].
  split; [exact Hp|exact Hq].
Qed.
Lemma observe_watch {A} (m : M WatchLifecycle A) p :
  let r := observe (zoom pb_watch m) p in
  pb_queue r.2 = pb_queue p ∧ pb_guards r.2 = pb_guards p ∧ ((∃ edge, r.1 = Ok edge) ∨ ∃ msg, r.1 = Err (Panic msg)).
Proof. unfold observe, zoom. destruct (m _) as [[a|[e|msg]] w]; simpl; split_and!; eauto. Qed.
Lemma same_published p p' :
  pb_queue p' = pb_queue p → pb_guards p' = pb_guards p → published p p'.
Proof. unfold published, view_ok. by intros -> ->. Qed.
Lemma fail_evidence_facts cue_id response_id error now t p :
  let r := fail_desktop_evidence values cue_id response_id error now t p in
  published p r.2 ∧
  pb_queue r.2 = if is_panic r.1 then pb_queue p else pb_queue (abort values t p).2.
Proof.
  unfold fail_desktop_evidence.
  match goal with |- context [observe (zoom pb_watch ?m)] => destruct (observe_watch m p) as (Hq & Hg & H);
    destruct (observe (zoom pb_watch m) p) as [o p'] eqn:E end.
  simpl in Hq, Hg, H. destruct H as [[edge ->]|[msg ->]].
  - rewrite (bind_run _ _ _ _ _ E). set (failure := match edge with None => _ | Some _ => _ end).
    destruct (abort_facts t (p' <| pb_evidence ::= evidence_fail failure |>)) as [Hp Ha].
    destruct (abort_facts t p) as [_ Hb]. split.
    + transitivity p'; [by apply same_published|]. exact Hp.
    + change (pb_queue (abort values t (p' <| pb_evidence ::= evidence_fail failure |>)).2
              = pb_queue (abort values t p).2).
      rewrite Ha, Hb. simpl. by rewrite Hq.
  - rewrite (bind_stop _ _ _ _ _ E). by split; [apply same_published|].
Qed.
(** The timelines: nothing else of the queue moves. *)
Definition timelines_only (p p' : Playback) : Prop :=
  pb_guards p' = pb_guards p ∧ ∃ t, pb_queue p' = (pb_queue p) <| oq_desktop_timelines := t |>.
#[local] Instance timelines_only_preorder : PreOrder timelines_only.
Proof.
  split; unfold timelines_only.
  - intros p. split; [done|]. exists (oq_desktop_timelines (pb_queue p)). by destruct p as [[]].
  - intros x y z [-> [t Ht]] [-> [t' Ht']]. split; [done|]. exists t'. by rewrite Ht', Ht.
Qed.
Lemma timelines_evidence (m : M TimelineEvidence unit) : evolves timelines_only (zoom pb_evidence m).
Proof.
  intros p. unfold zoom. destruct (m _) as [o e]. simpl. split; [done|].
  exists (oq_desktop_timelines (pb_queue p)). by destruct p as [[]].
Qed.
Lemma timelines_update f : evolves timelines_only (update_queue (λ q, q <| oq_desktop_timelines ::= f |>)).
Proof. intros p. split; [done|]. by eexists. Qed.
#[local] Hint Resolve timelines_evidence timelines_update : evolve.
Lemma delta_timelines cue_id response_id now_ms qpc_100ns audible qpc ms :
  evolves timelines_only (record_desktop_audio_delta capacity io_answer encode cue_id response_id now_ms
                        qpc_100ns audible qpc ms).
Proof. unfold record_desktop_audio_delta, append_desktop_timeline. evolve. Qed.
Lemma done_timelines response_id now_ms qpc_100ns qpc ms :
  evolves timelines_only (record_desktop_audio_done io_answer encode response_id now_ms qpc_100ns qpc ms).
Proof. unfold record_desktop_audio_done, append_desktop_timeline. evolve. Qed.
Lemma remove_timelines response_id : evolves timelines_only (remove_desktop_timeline response_id).
Proof. unfold remove_desktop_timeline. evolve. Qed.

(** A step that moves no command: it may end the worker's work on one. *)
Record calm (s s' : OmniSystem) : Prop := {
  ca_published : published (sy_playback s) (sy_playback s');
  ca_ghosts : same_ghosts s s';
  ca_lists : sy_accepted s' = sy_accepted s ∧ sy_taken s' = sy_taken s ∧ sy_revoked s' = sy_revoked s;
  ca_pending : oq_pending (sy_queue s') = oq_pending (sy_queue s);
  ca_dead : oq_terminated_stream_cues (sy_queue s') = oq_terminated_stream_cues (sy_queue s);
  ca_shutdown : oq_shutdown (sy_queue s') = Aborted ↔ oq_shutdown (sy_queue s) = Aborted;
  ca_inner : ∀ c, sy_inner s' = Some c → sy_inner s = Some c;
  ca_held : ∀ c, sy_held s' = Some c → sy_held s = Some c;
  ca_stream : oq_desktop_stream_active (sy_queue s') = true →
    oq_desktop_stream_active (sy_queue s) = true ∨ ∃ c, sy_held s = Some c ∧ is_marker c = false;
  ca_worker : worker_ok s → worker_ok s'
}.
Lemma calm_inv s s' : calm s s' → system_inv s → system_inv s'.
Proof.
  intros [Hp Hg (Ha & Ht & Hv) Hpd Hd Hsh Hi Hh Hst Hw] Hinv. pose proof Hg as [Hr _]. apply (step_inv s s'); [done..| | | |done].
  - intros [_ Hac _ _]. apply (same_accounts s s'); try done; [|by apply Hsh].
    intros c [?|(a & i & st & o & -> & ?)]; [left; by apply Hsh|right]. rewrite Hd. by exists a, i, st, o.
  - intros [_ _ Hwk _]. auto.
  - intros (Hres & Hsp & Hm). split_and!; [congruence|by rewrite Hpd|].
    intros Hna. destruct Hm as [Hoff Hmark]; [by rewrite <-Hsh|]. split.
    + apply not_true_is_false. intros Hon. destruct (Hst Hon) as [?|(c & Hc & Hcm)]; [congruence|].
      rewrite Hmark in Hcm; [done|by left].
    + intros c [Hc|Hc]; apply Hmark; auto.
Qed.
(** The updates of the shutdown state and of the worker's flags. *)
Lemma flag_calm f t s :
  (∀ q, oq_pending (f q) = oq_pending q ∧ oq_terminated_stream_cues (f q) = oq_terminated_stream_cues q
        ∧ oq_active_expected_end (f q) = oq_active_expected_end q
        ∧ (oq_shutdown (f q) = Aborted ↔ oq_shutdown q = Aborted)) →
  (oq_desktop_stream_active (f (sy_queue s)) = true →
     oq_desktop_stream_active (sy_queue s) = true ∨ ∃ c, sy_held s = Some c ∧ is_marker c = false) →
  calm s (run_part (update_queue f ;;; publish_state values t) s).
Proof.
  intros Hf Hst. destruct (update_published f t (sy_playback s)) as [Hq Hp].
  destruct (Hf (sy_queue s)) as (H1 & H2 & H3 & H4).
  set (s' := run_part _ s). assert (sy_queue s' = f (sy_queue s)) as Hq' by exact Hq.
  constructor; rewrite ?Hq'; try done.
  intros [Hi Ha Hs]. constructor; rewrite ?Hq'; try done.
  - rewrite H4, H3. exact Ha.
  - intros Hon. destruct (Hst Hon) as [?|]; [by apply Hs|done].
Qed.

(** A step that leaves the queue alone but for its timelines. *)
Lemma same_calm p' inner s :
  published (sy_playback s) p' →
  (∃ t, pb_queue p' = (sy_queue s) <| oq_desktop_timelines := t |>) →
  (∀ c, inner = Some c → sy_inner s = Some c) →
  calm s (s <| sy_playback := p' |> <| sy_inner := inner |>).
Proof.
  intros Hp [t Hq] Hin. set (s' := s <| sy_playback := p' |> <| sy_inner := inner |>).
  assert (sy_queue s' = (sy_queue s) <| oq_desktop_timelines := t |>) as Hq' by exact Hq.
  constructor; rewrite ?Hq'; try done; [by left|].
  intros [Hi Ha Hs]. constructor; rewrite ?Hq'; try done.
  intros [c Hc]. simpl in Hc. apply Hi. exists c. auto.
Qed.
Lemma quiet_calm p' s :
  published (sy_playback s) p' → (∃ t, pb_queue p' = (sy_queue s) <| oq_desktop_timelines := t |>) →
  calm s (s <| sy_playback := p' |>).
Proof.
  intros Hp Hq. assert (s <| sy_playback := p' |> = s <| sy_playback := p' |> <| sy_inner := sy_inner s |>) as ->
    by by destruct s.
  by apply same_calm.
Qed.
Lemma unchanged_queue p s : pb_queue p = sy_queue s →
  ∃ t, pb_queue p = (sy_queue s) <| oq_desktop_timelines := t |>.
Proof. intros ->. exists (oq_desktop_timelines (sy_queue s)). by destruct (sy_queue s). Qed.
Lemma timelines_inv m s : evolves timelines_only m → system_inv s → system_inv (run_part m s).
Proof.
  intros Hm. apply calm_inv. destruct (Hm (sy_playback s)) as [Hg [t Ht]]. apply quiet_calm; [|by exists t].
  unfold published, view_ok. rewrite Hg, Ht. by split.
Qed.

Lemma enqueue_inv command now t ms s s' :
  exec_omni capacity values io_answer encode (OEnqueue command now t ms) s = Some s' →
  system_inv s → system_inv s'.
Proof.
  cbn [exec_omni]. destruct (_ || _) eqn:E; [done|]. bool_hyps. intros [= <-].
  destruct (enqueue_facts command now t ms (sy_playback s)) as (Hp & Hq & Hna).
  destruct (enqueue _ _ _ _ _ _ _) as [r p] eqn:Er. cbn [fst snd] in *.
  destruct (accepted_outcome r) eqn:Hr.
  2:{ intros Hinv. apply (calm_inv s); [|done]. destruct r as [[]|]; try discriminate Hr;
      exact (quiet_calm p s Hp (unchanged_queue p s Hq)). }
  intros Hinv. set (s' := match r with Ok _ => _ | _ => _ end).
  assert (s' = s <| sy_playback := p |> <| sy_accepted ::= λ l, l ++ [command] |>) as Hs'.
  { unfold s'. by destruct r as [[]|]. }
  clearbody s'. subst s'.
  assert (sy_reserved s = true) as Hres by by destruct (sy_reserved s).
  set (s' := s <| sy_playback := p |> <| sy_accepted ::= λ l, l ++ [command] |>).
  assert (sy_queue s' = (sy_queue s) <| oq_pending ::= λ l, l ++ [command] |>) as Hq' by exact Hq.
  apply (step_inv s s'); [exact Hp|done| | | |done].
  - intros [_ [Hall Ho Hv Hin Hab] _ _]. unfold taken_or_pending in *.
    constructor; unfold taken_or_pending; rewrite ?Hq'; simpl; rewrite ?speech_app, ?(speech_of _ H0), ?app_assoc.
    + rewrite Hall. solve_Permutation.
    + by apply sublist_app.
    + exact Hv.
    + exact Hin.
    + intros Hsh. by specialize (Hna eq_refl).
  - intros [_ _ [Hi Ha Hs] _]. constructor; rewrite ?Hq'; done.
  - intros (Hr0 & _). congruence.
Qed.

Lemma abort_stream_inv cue_id index created now t s s' :
  exec_omni capacity values io_answer encode (OAbortStream cue_id index created now t) s = Some s' →
  system_inv s → system_inv s'.
Proof.
  cbn [exec_omni]. intros [= <-]. fold (dead_stream (sy_queue s) cue_id).
  destruct (abort_stream_facts cue_id index created now t (sy_playback s)) as (Hp & Hq).
  set (removed := filter (λ c, is_stream_of cue_id c = true) (oq_pending (sy_queue s))).
  change (pb_queue (sy_playback s)) with (sy_queue s) in Hq.
  destruct (dead_stream _ _) eqn:Hdead; intros Hinv.
  { apply (calm_inv s); [exact (quiet_calm _ s Hp (unchanged_queue _ s Hq))|done]. }
  set (s' := run_part _ _).
  assert (sy_queue s' = terminate (abort_marker cue_id index created now) cue_id (sy_queue s)) as Hq' by exact Hq.
  unfold dead_stream in Hdead. bool_hyps.
  apply (step_inv s s'); [exact Hp|done| | | |done].
  - intros [_ [Hall Ho Hv Hin Hab] _ _]. unfold taken_or_pending in *.
    constructor; unfold taken_or_pending; rewrite ?Hq'; simpl; rewrite ?speech_cons; simpl.
    + rewrite Hall, (speech_split (is_stream_of cue_id) (oq_pending (sy_queue s))).
      fold removed. solve_Permutation.
    + etransitivity; [|exact Ho]. apply sublist_app; [done|]. apply speech_filter_sublist.
    + apply Forall_app; split.
      * eapply Forall_impl; [exact Hv|]. intros c [?|(a & i & st & o & -> & ?)]; [done|].
        right. exists a, i, st, o. split; [done|]. set_solver.
      * apply Forall_forall. intros c [_ [Hc Hin']%list_elem_of_filter]%speech_in. right.
        destruct c as [|a i st o]; [done|]. simpl in Hc. bool_hyps. exists a, i, st, o.
        split; [done|]. set_solver.
    + exact Hin.
    + done.
  - intros [_ _ [Hi Ha Hs] _]. constructor; rewrite ?Hq'; done.
  - intros (Hr0 & Hsp & Hm). split_and!; [done|rewrite Hq'; simpl; rewrite speech_cons; simpl|by rewrite Hq'].
    pose proof (speech_filter_sublist (λ c, is_stream_of cue_id c = false) (oq_pending (sy_queue s))) as Hs.
    rewrite Hsp in Hs. by apply sublist_nil_r in Hs.
Qed.
Lemma receive_inv now r s :
  receive_facts now (sy_playback s) r → system_inv s → system_inv (received_step r s).
Proof.
  destruct r as [r p]. unfold receive_facts. cbn [fst snd]. intros [Hp Hr] Hinv.
  assert (∀ o, received_step (o, p) s = s <| sy_playback := p |> <| sy_inner := None |> →
          pb_queue p = sy_queue s → system_inv (received_step (o, p) s)) as Hnone.
  { intros o -> Hq. apply (calm_inv s); [|done]. by apply same_calm; [|apply unchanged_queue|]. }
  destruct r as [[|[c d| | |]]|]; try (apply Hnone; [done|exact Hr]). clear Hnone.
  destruct Hr as (rest & Hpd & Hna & Hq). unfold received_step. cbn [fst snd].
  change (pb_queue (sy_playback s)) with (sy_queue s) in *.
  set (s1 := s <| sy_playback := p |> <| sy_taken ::= λ l, l ++ speech [c] |>).
  set (s' := match _ with Some _ => _ | None => _ end).
  assert (sy_queue s' = pb_queue p) as Hq' by (unfold s'; by destruct (sy_held _)).
  assert (sy_taken s' = sy_taken s ++ speech [c]) as Ht by (unfold s'; by destruct (sy_held _)).
  assert (sy_accepted s' = sy_accepted s ∧ sy_revoked s' = sy_revoked s ∧ sy_playback s' = p)
    as (Ha & Hv & Hpl) by (unfold s'; by destruct (sy_held _)).
  assert (same_ghosts s s') as Hgh by (unfold s'; by destruct (sy_held _)).
  pose proof Hgh as [Hres _].
  assert (match sy_held s with
          | None => sy_held s' = Some c ∧ sy_inner s' = sy_inner s
          | Some h => sy_held s' = Some h ∧ sy_inner s' = Some c end) as Hheld.
  { unfold s'. change (sy_held s1) with (sy_held s). destruct (sy_held s) eqn:E; by split. }
  clearbody s'. 
  apply (step_inv s s'); [by rewrite Hpl|done| | | |done].
  - intros [_ [Hall Ho Hvs Hin Hab] [Hi _ _] _]. unfold taken_or_pending in *.
    rewrite Hpd, speech_first, app_assoc in Hall, Ho.
    constructor; unfold taken_or_pending; rewrite ?Hq', ?Hq, ?Ha, ?Hv, ?Ht; try done.
    intros c' Hc Hm. destruct (sy_held s) eqn:Eh.
    + destruct Hheld as [_ E]. rewrite E in Hc. injection Hc as ->. rewrite speech_of by done. by eexists.
    + destruct Hheld as [_ E]. rewrite E in Hc. destruct Hi as [? ?]; [by eexists|done].
  - intros [_ _ [Hi Hac Hs] _]. constructor; rewrite ?Hq', ?Hq.
    + intros _. destruct (sy_held s); destruct Hheld as [-> _]; by eexists.
    + intros _ _. by eexists.
    + simpl. intros Hon. destruct (Hs Hon) as (h & Hh & ?). rewrite Hh in Hheld. destruct Hheld as [-> _]. by exists h.
  - intros (Hr0 & Hsp & Hm). rewrite Hpd, speech_cons in Hsp.
    destruct (is_marker c) eqn:Hmc; [|done].
    split_and!; [congruence|by rewrite Hq', Hq|]. rewrite Hq', Hq. simpl. intros Hn. destruct (Hm Hn) as [Hoff Hmk].
    split; [done|]. intros c'. destruct (sy_held s) eqn:Eh; destruct Hheld as [E1 E2]; rewrite E1, E2.
    + intros [[= <-]|[= <-]]; [apply Hmk; by left|done].
    + intros [[= <-]|Hc]; [done|]. apply Hmk. by right.
Qed.

Lemma return_inv t s s' :
  exec_omni capacity values io_answer encode (OReturn t) s = Some s' → system_inv s → system_inv s'.
Proof.
  cbn [exec_omni]. destruct (sy_inner s) as [c|] eqn:Ein; [|done]. intros [= <-].
  destruct (return_facts c t (sy_playback s)) as (Hp & Hq).
  change (pb_queue (sy_playback s)) with (sy_queue s) in Hq.
  set (taken := if is_marker c then sy_taken s else removelast (sy_taken s)).
  set (b := bool_decide (oq_shutdown (sy_queue s) = Aborted)) in *.
  intros Hinv. set (s' := if b then _ else _).
  assert (sy_playback s' = (return_pending values c t (sy_playback s)).2) as Hpl by (unfold s'; by destruct b).
  assert (sy_queue s' = if b then sy_queue s else (sy_queue s) <| oq_pending ::= λ l, c :: l |>) as Hq'
    by (unfold sy_queue at 1; by rewrite Hpl).
  assert (sy_accepted s' = sy_accepted s ∧ sy_taken s' = taken
          ∧ sy_held s' = sy_held s ∧ sy_inner s' = None) as (Ha & Ht & Hh & Hi') by (unfold s'; by destruct b).
  assert (same_ghosts s s') as Hgh by (unfold s'; by destruct b). pose proof Hgh as [Hr _].
  assert (sy_revoked s' = sy_revoked s ++ if b then speech [c] else []) as Hv.
  { unfold s'. destruct b; [done|]. by rewrite app_nil_r. }
  clearbody s'.
  apply (step_inv s s'); [by rewrite Hpl|done| | | |done].
  - intros [_ [Hall Ho Hvs Hin Hab] _ _]. unfold taken_or_pending in *.
    assert (sy_taken s = taken ++ speech [c]) as Et.
    { unfold taken. rewrite speech_cons. destruct (is_marker c) eqn:Hm; [by rewrite app_nil_r|].
      destruct (Hin c Ein Hm) as [d ->]. by rewrite removelast_last. }
    rewrite Et in Hall, Ho. constructor; unfold taken_or_pending; rewrite ?Hq', ?Ha, ?Ht, ?Hv, ?Hi'; [| | |done|].
    + rewrite Hall. destruct b; cbn -[speech]; [|rewrite (speech_first c (oq_pending _)), app_nil_r]; solve_Permutation.
    + destruct b; cbn -[speech].
      * etransitivity; [|exact Ho]. apply sublist_app; [|done]. by apply sublist_inserts_r.
      * rewrite (speech_first c (oq_pending _)), app_assoc. exact Ho.
    + subst b. case_bool_decide; [|by rewrite app_nil_r].
      apply Forall_app; split; [done|]. apply Forall_forall. intros ? _. by left.
    + subst b. case_bool_decide; [done|]. by intros ?.
  - intros [_ _ [Hi Hac Hs] _]. constructor; rewrite ?Hq', ?Hi', ?Hh; [by intros []|..].
    + subst b. by case_bool_decide.
    + by destruct b.
  - intros (Hr0 & Hsp & Hm). split_and!; [congruence|..]; rewrite Hq'.
    + subst b. case_bool_decide; [done|]. simpl. rewrite speech_cons.
      destruct (Hm H) as [_ Hmk]. rewrite Hmk; [done|by right].
    + rewrite Hi', Hh. intros Hn. assert (oq_shutdown (sy_queue s) ≠ Aborted) as Hn' by by destruct b.
      destruct (Hm Hn') as [Hoff Hmk]. split; [by destruct b|]. intros c' [Hc|Hc]; [apply Hmk; by left|done].
Qed.
(** Whatever aborts the queue revokes all that is pending. *)
Lemma queue_abort_inv p t s :
  published (sy_playback s) p → pb_queue p = pb_queue (abort values t (sy_playback s)).2 →
  system_inv s → system_inv ((revoke (oq_pending (sy_queue s)) s) <| sy_playback := p |>).
Proof.
  intros Hp Hq. destruct (abort_facts t (sy_playback s)) as [_ Ha]. rewrite Ha in Hq.
  set (s' := (revoke _ s) <| sy_playback := p |>). assert (sy_queue s' = _) as Hq' by exact Hq.
  assert (oq_shutdown (sy_queue s') = Aborted) as Hab by by rewrite Hq'.
  apply (step_inv s s'); [exact Hp|done|..].
  - intros [_ [Hall Ho Hvs Hin _] _ _]. unfold taken_or_pending in *.
    constructor; unfold taken_or_pending; try rewrite Hq'; simpl; [| | |exact Hin|done].
    + rewrite Hall. solve_Permutation.
    + etransitivity; [|exact Ho]. apply sublist_app; [done|]. apply sublist_nil_l.
    + apply Forall_forall. intros ? _. by left.
  - intros [_ _ [Hi Hac Hs] _]. constructor; [exact Hi|done|]. rewrite Hq'. exact Hs.
  - intros (Hr0 & _ & _). split_and!; [done|by rewrite Hq'|done].
Qed.
Lemma finish_inv t s s' :
  exec_omni capacity values io_answer encode (OFinish t) s = Some s' → system_inv s → system_inv s'.
Proof.
  cbn [exec_omni]. destruct (sy_held s) as [c|] eqn:Eh; [|done].
  destruct (oq_desktop_stream_active (sy_queue s)) eqn:Est; [done|]. intros [= <-] Hinv.
  destruct (update_published (λ q, q <| oq_active_expected_end := None |>) t (sy_playback s)) as [Hq Hp].
  set (s' := run_part _ _). assert (sy_queue s' = _) as Hq' by exact Hq.
  change (pb_queue (sy_playback s)) with (sy_queue s) in Hq'.
  apply (calm_inv s); [|done]. constructor; try rewrite Hq'; try done; [by left|].
  intros [Hi Hac Hs]. constructor; [by intros []|by intros ? []|]. rewrite Hq'. simpl. congruence.
Qed.

Lemma guard_steps l s g reserved :
  exec_quiescence values l (sy_guards s) = Some g →
  match l with
  | QDropSubmission => (if sy_reserved s then 1 else 0) < gd_submissions (sy_guards s) ∨ reserved = false
  | _ => True
  end → reserved = false ∨ reserved = sy_reserved s ∨ l = QSubmission →
  system_inv s → system_inv ((elsewhere l g s) <| sy_reserved := reserved |>).
Proof.
  intros H Hdrop Hres Hinv. apply other_step_inv; [done| | |done].
  - intros ->. destruct Hinv as [[[_ [_ Hpos] _] Hheld _] _ _ _]. fold sy_guards in *.
    destruct l; simpl in H;
    repeat match type of H with
      | (if ?b then _ else _) = Some _ => destruct b; [done|]
      end; injection H as <-; simpl;
      try (destruct Hres as [?|[Hr|?]]; [done|symmetry in Hr; by apply Hheld|done]).
    + lia.
    + destruct Hdrop as [Hd|]; [|done]. destruct Hres as [?|[Hr|?]]; [done|rewrite <-Hr in Hd; lia|done].
    + destruct (try_begin_restart_barrier _); simpl; destruct Hres as [?|[Hr|?]]; done || (symmetry in Hr; auto).
  - intros Hb ->. destruct Hres as [?|[?| ->]]; [done..|]. simpl in H.
    destruct (barrier (sy_guards s)) eqn:E; [done|]. destruct (_ <=? _) in H; [done|]. injection H as <-.
    unfold barrier in Hb. simpl in Hb. unfold barrier in E. congruence.
Qed.
Lemma running_flags f s t :
  (∀ q, f q = q ∨ ∃ m, f q = q <| oq_shutdown := m |> ∧ m ≠ Aborted ∧ oq_shutdown q ≠ Aborted) →
  system_inv s → system_inv (run_part (update_queue f ;;; publish_state values t) s).
Proof.
  intros Hf. apply calm_inv. apply flag_calm.
  - intros q. by destruct (Hf q) as [-> | (m & -> & ? & ?)].
  - destruct (Hf (sy_queue s)) as [-> | (m & -> & _)]; by left.
Qed.
Lemma step_preserves_system l s s' :
  exec_omni capacity values io_answer encode l s = Some s' → system_inv s → system_inv s'.
Proof.
  destruct l; intros H Hinv.
  - cbn [exec_omni] in H.
    destruct (match l with QDropSubmission => _ | _ => _ end) eqn:Hd; [done|].
    destruct (exec_quiescence _ _ _) as [g|] eqn:Hg; [|done]. injection H as <-.
    apply (guard_steps l s g (sy_reserved s)); [done| |by right; left|done].
    destruct l; try done. bool_hyps. left. lia.
  - cbn [exec_omni] in H. destruct (sy_reserved s); [done|].
    destruct (exec_quiescence _ _ _) as [g|] eqn:Hg; [|done]. injection H as <-.
    apply (guard_steps QSubmission s g true); [done..| |done]. by right; right.
  - by eapply enqueue_inv.
  - cbn [exec_omni] in H. destruct (negb _); [done|].
    destruct (exec_quiescence _ _ _) as [g|] eqn:Hg; [|done]. injection H as <-.
    apply (guard_steps QDropSubmission s g false); [done|by right|by left|done].
  - by eapply abort_stream_inv.
  - injection H as <-. eapply receive_inv; [apply recv_pass_facts|done].
  - injection H as <-. eapply receive_inv; [apply recv_wake_facts|done].
  - by eapply return_inv.
  - cbn [exec_omni] in H. destruct (sy_held s) as [c|] eqn:Eh; [|done].
    destruct (_ && _) eqn:Em; [done|]. injection H as <-. eapply calm_inv; [|done].
    apply flag_calm; [done|]. simpl. intros ->. right. by exists c.
  - by eapply finish_inv.
  - injection H as <-. apply running_flags; [|done].
    intros q. destruct (oq_shutdown q) eqn:E; (by left) || (right; by eexists).
  - injection H as <-. apply running_flags; [|done].
    intros q. destruct (oq_shutdown q) eqn:E; (by left) || (right; by eexists).
  - injection H as <-. eapply queue_abort_inv; [apply abort_facts|done..].
  - injection H as <-. eapply timelines_inv; [apply delta_timelines|done].
  - injection H as <-. eapply timelines_inv; [apply done_timelines|done].
  - injection H as <-. eapply timelines_inv; [apply remove_timelines|done].
  - injection H as <-.
    destruct (fail_evidence_facts cue_id response_id error now published0 (sy_playback s)) as [Hp Hq].
    destruct (is_panic _).
    + apply (calm_inv s); [|done]. exact (quiet_calm _ s Hp (unchanged_queue _ s Hq)).
    + by eapply queue_abort_inv.
Qed.

#[local] Instance system_invariant : Invariant (omni_init values) step system_inv.
Proof.
  split; [|intros s l s' Hi H; by eapply step_preserves_system].
  intros s (directory & identity & g & watch & issues & others & Hg & Hq & ->).
  split; [split; [by eapply guards_reachable|done|]|split; [done|done|by apply Forall_nil|done..]|split|].
  - intros H0. destruct (Hq H0) as [H1 H2]. split; [|done]. unfold view_ok, queue_view. simpl. by rewrite H1, H2.
  - by intros [].
  - by intros _ [].
  - done.
  - intros _. split; [done|]. intros _. split_and!; [done..|]. intros _. split; [done|]. by intros c [].
Qed.
Abbreviation reachable := (omni_reachable capacity values io_answer encode).

(** C30: No accepted speech is lost or reordered. Whatever the other threads do, the
    commands a session's queue accepted are, as a multiset, those its worker took,
    those still queued and those revoked; taken then queued, they are in the order
    of acceptance. Revoked speech has a reason: the session was aborted, or the
    command belonged to a stream whose cue was terminated. So until an abort every
    accepted complete cue has been taken or is still queued. *)
Theorem accepted_speech_is_taken_or_revoked s :
  reachable s →
  let carried := sy_taken s ++ speech (oq_pending (sy_queue s)) in
  sy_accepted s ≡ₚ carried ++ sy_revoked s
  ∧ sublist carried (sy_accepted s)
  ∧ Forall (λ c, oq_shutdown (sy_queue s) = Aborted
                 ∨ ∃ a i st o, c = Stream a i st o ∧ ca_cue_id a ∈ oq_terminated_stream_cues (sy_queue s))
      (sy_revoked s)
  ∧ (oq_shutdown (sy_queue s) ≠ Aborted → ∀ a, Play a ∈ sy_accepted s → Play a ∈ carried).
Proof.
  intros Hr. destruct (reachable_inv _ step system_inv s Hr) as [_ [Hall Ho Hv _ _] _ _].
  unfold taken_or_pending in *. split_and!; [done..|]. intros Hna a Hin.
  rewrite Hall in Hin. apply elem_of_app in Hin as [Hin|Hin]; [done|].
  rewrite Forall_forall in Hv. destruct (Hv _ Hin) as [?|(? & ? & ? & ? & ? & _)]; done.
Qed.
(** C31: The restart barrier and one session's speech. While the process-wide restart
    barrier is up, whatever the order of the steps that led there, this session
    holds no submission reservation. Unless the barrier went up while the
    quiescence showed the counts of another session, which needs a publication of
    another session, no accepted speech waits in its queue either, and unless the
    session was aborted its worker holds no speech and streams to no device. (At
    most the markers of cancelled streams are still queued.) *)
Theorem restart_barrier_excludes_speech s :
  reachable s → barrier (sy_guards s) = true →
  sy_reserved s = false
  ∧ (sy_hidden s = true → sy_others s ≠ O)
  ∧ (sy_hidden s = false →
     (∀ c, c ∈ oq_pending (sy_queue s) → is_marker c = true)
     ∧ (oq_shutdown (sy_queue s) ≠ Aborted →
        oq_desktop_stream_active (sy_queue s) = false
        ∧ ∀ c, sy_held s = Some c ∨ sy_inner s = Some c → is_marker c = true)).
Proof.
  intros Hr Hb. destruct (reachable_inv _ step system_inv s Hr) as [[_ _ Hv] _ _ Hs].
  destruct (Hs Hb) as (? & Hsil). split_and!; [done| |].
  - intros Hh H0. destruct (Hv H0). congruence.
  - intros Hh. destruct (Hsil Hh) as (_ & Hp & ?). split; [|done].
    intros c Hc. apply not_false_is_true. intros Hm.
    assert (c ∈ speech (oq_pending (sy_queue s))) as Hin by by apply speech_in.
    rewrite Hp in Hin. by apply elem_of_nil in Hin.
Qed.

(** ** Draining *)
Lemma recv_draining_cons c rest deadline now t p :
  oq_shutdown (pb_queue p) = Draining → oq_pending (pb_queue p) = c :: rest →
  let r := recv_pass values deadline now t p in
  r.1 = Ok (Returned (Command c [])) ∧ oq_pending (pb_queue r.2) = rest
  ∧ oq_shutdown (pb_queue r.2) = Draining.
Proof.
  destruct p as [q e g w i]. cbn [pb_queue]. intros Hd Hp. unfold recv_pass. rewrite bind_gets.
  cbn [pb_queue]. rewrite Hd. cbn -[publish_state]. by rewrite Hp.
Qed.
Lemma recv_draining_nil deadline now t p :
  oq_shutdown (pb_queue p) = Draining → oq_pending (pb_queue p) = [] →
  recv_pass values deadline now t p = (Ok (Returned ReceiveStopped), p).
Proof.
  destruct p as [q e g w i]. cbn [pb_queue]. intros Hd Hp. unfold recv_pass. rewrite bind_gets.
  cbn [pb_queue]. rewrite Hd. cbn. by rewrite Hp, Hd.
Qed.
Lemma drain_turns l deadline now t finished : ∀ p,
  oq_shutdown (pb_queue p) = Draining → oq_pending (pb_queue p) = l →
  let r := worker_turns values (S (length l)) deadline now t finished p in
  r.1 = ((λ c, Command c []) <$> l) ++ [ReceiveStopped]
  ∧ oq_pending (pb_queue r.2) = [] ∧ oq_shutdown (pb_queue r.2) = Draining.
Proof.
  induction l as [|c l IH]; intros p Hd Hp; cbn [length].
  - cbn -[recv_pass finish_active]. by rewrite recv_draining_nil.
  - remember (S (length l)) as n eqn:En.
    pose proof (recv_draining_cons c l (deadline n) (now n) (t n) p Hd Hp) as (H1 & H2 & H3).
    cbn [worker_turns]. destruct (recv_pass _ _ _ _ _) as [o p1]. cbn [fst snd] in *. subst o.
    set (p2 := (finish_active values (finished n) p1).2).
    destruct (IH p2 H3 H2) as (Ho & Hpd & Hsd).
    destruct (worker_turns values n deadline now t finished p2) as [os p3] eqn:E. cbn [fst snd] in *.
    by rewrite Ho.
Qed.
(** A draining queue is emptied. Once [drain_and_stop] has been called on a
    session that was not aborted, nothing more is accepted, and one turn of the
    worker for every queued command and one more takes them all, in order, and
    then stops it, whatever the clocks say; the queue is empty and still draining. *)
Theorem draining_queue_is_emptied p drained deadline now t finished :
  oq_shutdown (pb_queue p) ≠ Aborted →
  let p1 := (drain_and_stop values drained p).2 in
  oq_pending (pb_queue p1) = oq_pending (pb_queue p)
  ∧ (∀ command now' published' unix_ms,
       enqueue capacity values command now' published' unix_ms p1 = (Ok Stopped, p1))
  ∧ let r := worker_turns values (S (length (oq_pending (pb_queue p)))) deadline now t finished p1 in
    r.1 = ((λ c, Command c []) <$> oq_pending (pb_queue p)) ++ [ReceiveStopped]
    ∧ oq_pending (pb_queue r.2) = [] ∧ oq_shutdown (pb_queue r.2) = Draining.
Proof.
  intros Hna p1.
  assert (oq_pending (pb_queue p1) = oq_pending (pb_queue p) ∧ oq_shutdown (pb_queue p1) = Draining)
    as [Hp Hd] by (unfold p1; simpl; by destruct (oq_shutdown (pb_queue p)) eqn:E; simpl; rewrite ?E).
  clearbody p1. split_and!; [done| |].
  - intros. unfold enqueue. rewrite bind_gets. cbv beta. by rewrite Hd.
  - by apply drain_turns.
Qed.
End System.

(** ** Runs *)
Module OmniDemo.
Definition values (m : gmap string BridgePlaybackCue) : list BridgePlaybackCue := (map_to_list m).*2.
Definition io_ok (_ : nat) : outcome unit := Ok tt.
Definition encode (r : TimelineRow) : outcome (list Z) := Ok [].
Definition exec := exec_omni 4 values io_ok encode.
Definition evidence : TimelineEvidence := from_env None (mk_evidence_identity None None None).
Definition playback (g : Guards) : Playback := mk_playback_state queue_new evidence g lifecycle_default [].
Definition start : OmniSystem := mk_omni_system (playback initial_guards) false None None [] [] [] 0 false.
Fixpoint run (ls : list omni_label) (s : OmniSystem) : option OmniSystem :=
  match ls with
  | [] => Some s
  | l :: ls => match exec l s with Some s => run ls s | None => None end
  end.
Lemma start_reachable : omni_reachable 4 values io_ok encode start.
Proof.
  apply reach_init. exists None, (mk_evidence_identity None None None), initial_guards, lifecycle_default, [], O.
  split; [by apply reach_init|done].
Qed.
Lemma demo_reachable ls : ∀ s s', omni_reachable 4 values io_ok encode s → run ls s = Some s' →
  omni_reachable 4 values io_ok encode s'.
Proof.
  induction ls as [|l ls IH]; simpl; intros s s' Hs Hrun; [by injection Hrun as <-|].
  destruct (exec l s) as [s1|] eqn:E; [|done]. eapply IH; [|exact Hrun]. by eapply reach_step.
Qed.
Definition audio (cue : string) : CueAudio := mk_cue_audio [5; 6] cue (Some "response") 24000 0 0 100.
Definition play : OmniPlaybackCommand := Play (audio "complete").
Definition chunk (st : TranslationStreamState) (i : Z) : OmniPlaybackCommand := Stream (audio "live") i st None.
(** A complete cue and a stream are accepted; the worker takes the cue, and the
    stream is cancelled before it is taken. *)
Definition cancelled : list omni_label :=
  [OReserve; OEnqueue play 0 0 0; OEnqueue (chunk StreamStart 0) 0 0 0; OEnqueue (chunk StreamEnd 1) 0 0 0;
   ORelease; OReceive 9 1 1; OAbortStream "live" 2 0 2 2].
(** The worker ends the cue, takes the marker and ends that; then the restart. *)
Definition restarted : list omni_label :=
  cancelled ++ [OFinish 3; OOther QTryRestart; OReceive 9 4 4; OFinish 5; OOther QTryRestart].
Definition after (ls : list omni_label) : OmniSystem := default start (run ls start).
Lemma after_reachable ls : is_Some (run ls start) → omni_reachable 4 values io_ok encode (after ls).
Proof. intros [s Hs]. unfold after. rewrite Hs. eapply demo_reachable; [apply start_reachable|exact Hs]. Qed.
End OmniDemo.
Lemma accepted_speech_is_taken_or_revoked_witness :
  let s := OmniDemo.after OmniDemo.cancelled in
  sy_accepted s = [OmniDemo.play; OmniDemo.chunk StreamStart 0; OmniDemo.chunk StreamEnd 1]
  ∧ sy_taken s = [OmniDemo.play] ∧ length (sy_revoked s) = 2%nat
  ∧ Play (OmniDemo.audio "complete") ∈ sy_taken s ++ speech (oq_pending (sy_queue s)).
Proof.
  destruct (accepted_speech_is_taken_or_revoked 4 OmniDemo.values OmniDemo.io_ok OmniDemo.encode
    (OmniDemo.after OmniDemo.cancelled)) as (_ & _ & _ & Hall).
  { apply OmniDemo.after_reachable. vm_compute. by eexists. }
  split_and!; [by vm_compute..|]. apply Hall; [by vm_compute|]. vm_compute. left.
Defined.
Lemma restart_barrier_excludes_speech_witness :
  let s := OmniDemo.after OmniDemo.restarted in
  barrier (sy_guards s) = true ∧ length (sy_accepted s) = 3%nat ∧ sy_reserved s = false
  ∧ (∀ c, c ∈ oq_pending (sy_queue s) → is_marker c = true)
  ∧ barrier (sy_guards (OmniDemo.after (take 9 OmniDemo.restarted))) = false.
Proof.
  destruct (restart_barrier_excludes_speech 4 OmniDemo.values OmniDemo.io_ok OmniDemo.encode
    (OmniDemo.after OmniDemo.restarted)) as (Hr & _ & Hq).
  { apply OmniDemo.after_reachable. vm_compute. by eexists. }
  { by vm_compute. }
  destruct Hq as [Hp _]; [by vm_compute|]. split_and!; [by vm_compute..|exact Hr|exact Hp|by vm_compute].
Defined.
Lemma draining_queue_is_emptied_witness :
  let p := sy_playback (OmniDemo.after (take 4 OmniDemo.cancelled)) in
  length (oq_pending (pb_queue p)) = 3%nat
  ∧ (worker_turns OmniDemo.values 4 (λ _, 0) (λ _, 9) (λ _, 9) (λ _, 9) (drain_and_stop OmniDemo.values 8 p).2).1
    = [Command OmniDemo.play []; Command (OmniDemo.chunk StreamStart 0) [];
       Command (OmniDemo.chunk StreamEnd 1) []; ReceiveStopped].
Proof.
  destruct (draining_queue_is_emptied 4 OmniDemo.values (sy_playback (OmniDemo.after (take 4 OmniDemo.cancelled)))
    8 (λ _, 0) (λ _, 9) (λ _, 9) (λ _, 9)) as (_ & _ & Hr & _); [by vm_compute|].
  split; [by vm_compute|exact Hr].
Defined.

(** The counts of the last publication win: when another session publishes its
    empty queue, the restart barrier goes up over the speech this one accepted. *)
Example another_session_hides_the_speech :
  let before := OmniDemo.after [OReserve; OEnqueue OmniDemo.play 0 0 0; ORelease; OOther QTryRestart] in
  let s := OmniDemo.after [OReserve; OEnqueue OmniDemo.play 0 0 0; ORelease;
                           OOther (QQueue 0 0 0 24000); OOther QTryRestart] in
  barrier (sy_guards before) = false ∧ barrier (sy_guards s) = true
  ∧ oq_pending (sy_queue s) = [OmniDemo.play] ∧ sy_hidden s = true ∧ sy_others s = 1%nat.
Proof. by vm_compute. Qed.
(** An abort clears the active command while the worker still plays it. *)
Example abort_hides_the_active_command :
  let s := OmniDemo.after [OReserve; OEnqueue OmniDemo.play 0 0 0; ORelease; OReceive 9 1 1; OAbort 2;
                           OOther QTryRestart] in
  sy_held s = Some OmniDemo.play ∧ barrier (sy_guards s) = true.
Proof. by vm_compute. Qed.
