(* ===== verification/OmniSessions.v ===== *)
(** * The registered sessions of a route

    Models [OmniSessionStore] of [audio/state/omni_sessions.rs] and the code that
    starts, reuses, parks and retires provider sessions
    ([audio/events/realtime_session.rs], the end of a worker in
    [audio/omni/session_worker/start.rs]). The store has a lock for each of its
    maps, so an operation on several maps is several sections: a [prog] is a
    sequence of sections, in the order of the code, that other threads may
    interleave. The inbound pipeline lock serialises the calls of [call]; workers
    never take it. A route is started by the starter of its provider: Omni, which
    registers sessions and compares keys, or OpenAI, Gemini or Tencent, which take
    any sender that is parked and whose workers never touch the store. Left out are
    error texts, logging, the relay of a worker's input, what a worker does with
    audio, and what the configuration is checked for before a start: whether it
    passes is an answer. *)
From S2P Require Import Prelude RustStr.

(** ** The store *)
Inductive OmniOutputMode := TextOnly | TextAndAudio.
#[export] Instance output_mode_eq_dec : EqDecision OmniOutputMode.
Proof. solve_decision. Defined.
Inductive OmniSessionLifecycle := Starting | Ready | Failed | Stopping.
#[export] Instance lifecycle_eq_dec : EqDecision OmniSessionLifecycle.
Proof. solve_decision. Defined.
(** What a session was started for; a reuse compares all of it. *)
Record SessionReuseKey := mk_reuse_key {
  sk_model_id : string; sk_source_language : string; sk_target_language : string;
  sk_realtime_audio_mode : string; sk_subtitle_translate_active : bool;
  sk_output_mode : OmniOutputMode; sk_contract_signature : Z
}.
#[export] Instance reuse_key_eq_dec : EqDecision SessionReuseKey.
Proof. solve_decision. Defined.
Record OmniSessionMetadata := mk_session {
  sm_direction : string; sm_session_generation : Z; sm_key : SessionReuseKey;
  sm_state : OmniSessionLifecycle; sm_last_error : option string
}.
#[export] Instance session_settable : Settable OmniSessionMetadata := λ m,
  mk_session (sm_direction m) (sm_session_generation m) (sm_key m) (sm_state m) (sm_last_error m).
(** A handle or a sender is named by the worker it belongs to. *)
Record OmniSessionStore := mk_session_store {
  os_handles : gmap string nat; os_senders : gmap string nat;
  os_sessions : gmap string OmniSessionMetadata; os_generations : gmap string Z
}.
#[export] Instance session_store_settable : Settable OmniSessionStore := λ s,
  mk_session_store (os_handles s) (os_senders s) (os_sessions s) (os_generations s).
Definition sessions_new : OmniSessionStore := mk_session_store ∅ ∅ ∅ ∅.

(** A section under one of the locks. *)
Definition locked (B : Type) : Type := OmniSessionStore → B * OmniSessionStore.
Definition store_handle (direction : string) (handle : nat) : locked (option nat) := λ s,
  (os_handles s !! direction, s <| os_handles ::= <[direction := handle]> |>).
Definition has_handle (direction : string) : locked bool := λ s,
  (is_Some_b (os_handles s !! direction), s).
Definition remove_handle (direction : string) : locked (option nat) := λ s,
  (os_handles s !! direction, s <| os_handles ::= delete direction |>).
Definition store_sender (direction : string) (sender : nat) : locked unit := λ s,
  (tt, s <| os_senders ::= <[direction := sender]> |>).
Definition has_sender (direction : string) : locked bool := λ s,
  (is_Some_b (os_senders s !! direction), s).
Definition take_sender (direction : string) : locked (option nat) := λ s,
  (os_senders s !! direction, s <| os_senders ::= delete direction |>).
Definition metadata (direction : string) : locked (option OmniSessionMetadata) := λ s,
  (os_sessions s !! direction, s).
Definition remove_session (direction : string) : locked unit := λ s,
  (tt, s <| os_sessions ::= delete direction |>).
Definition next_generation (direction : string) : locked Z := λ s,
  let generation :=
    match os_generations s !! direction with Some g => saturating_add g 1 | None => 1 end in
  (generation, s <| os_generations ::= <[direction := generation]> |>).
Definition insert_session (direction : string) (generation : Z) (key : SessionReuseKey) : locked unit := λ s,
  (tt, s <| os_sessions ::= <[direction := mk_session direction generation key Starting None]> |>).
Definition mutate_matching (direction : string) (generation : Z)
    (mutate : OmniSessionMetadata → OmniSessionMetadata) : locked bool := λ s,
  match os_sessions s !! direction with
  | Some session =>
      if sm_session_generation session =? generation
      then (true, s <| os_sessions ::= <[direction := mutate session]> |>) else (false, s)
  | None => (false, s)
  end.
Definition mark_ready (direction : string) (generation : Z) : locked bool :=
  mutate_matching direction generation (λ m, m <| sm_state := Ready |> <| sm_last_error := None |>).
Definition mark_failed (direction : string) (generation : Z) (error : string) : locked bool :=
  mutate_matching direction generation (λ m, m <| sm_state := Failed |> <| sm_last_error := Some error |>).
Definition mark_stopping (direction : string) (generation : Z) (reason : string) : locked bool :=
  mutate_matching direction generation (λ m, m <| sm_state := Stopping |> <| sm_last_error := Some reason |>).
(** The first section of [clear]: whether the rest is removed too. *)
Definition clear_session (direction : string) (generation : Z) : locked bool := λ s,
  match os_sessions s !! direction with
  | Some session =>
      if sm_session_generation session =? generation
      then (true, s <| os_sessions ::= delete direction |>) else (false, s)
  | None => (false, s)
  end.
Definition matching_ready (direction : string) (key : SessionReuseKey) : locked (option Z) := λ s,
  (match os_sessions s !! direction with
   | Some session =>
       if bool_decide (sm_state session = Ready) && bool_decide (sm_key session = key)
       then Some (sm_session_generation session) else None
   | None => None
   end, s).
Definition is_current (direction : string) (generation : Z) : locked bool := λ s,
  (match os_sessions s !! direction with
   | Some session => (sm_session_generation session =? generation)
                     && negb (bool_decide (sm_state session = Stopping))
   | None => false
   end, s).

(** ** Workers *)
(** What the worker last did; its two messages to the starter are [wk_message]:
    the generation that became ready, or an error. *)
Inductive WorkerPhase :=
| Working (marked_ready : bool) | Ended | Reported | ClearingSender | ClearingHandle | Done.
#[export] Instance worker_phase_eq_dec : EqDecision WorkerPhase.
Proof. solve_decision. Defined.
(** A worker of OpenAI, Gemini or Tencent has no key: it is no session of the store. *)
Record Worker := mk_worker {
  wk_generation : Z; wk_key : option SessionReuseKey; wk_phase : WorkerPhase;
  wk_message : option (option Z); wk_result : bool
}.
#[export] Instance worker_settable : Settable Worker := λ w,
  mk_worker (wk_generation w) (wk_key w) (wk_phase w) (wk_message w) (wk_result w).
Record Shared := mk_shared { sh_store : OmniSessionStore; sh_workers : list Worker }.
#[export] Instance shared_settable : Settable Shared := λ x, mk_shared (sh_store x) (sh_workers x).

Inductive worker_step :=
| WMarkReady | WSendReady | WFail (error : string) | WExit | WPanic | WReport
| WClearSession | WClearSender | WClearHandle.
(** [readiness_sent.swap(true)]: only the first message is sent. *)
Definition send_once (message : option Z) (w : Worker) : Worker :=
  w <| wk_message ::= λ m, match m with Some m => Some m | None => Some message end |>.
Definition with_store {B} (f : locked B) (x : Shared) : Shared := x <| sh_store := (f (sh_store x)).2 |>.

(** ** Programs of sections *)
(** A step waits until it is enabled; [Ask] is an answer of the system. *)
Inductive prog (A : Type) : Type :=
| Ret (a : A)
| Step {B : Type} (f : Shared → option (B * Shared)) (k : B → prog A)
| Ask (k : bool → prog A).
Arguments Ret {A}. Arguments Step {A B}. Arguments Ask {A}.
Fixpoint pbind {A B} (p : prog A) (k : A → prog B) : prog B :=
  match p with
  | Ret a => k a
  | Step f k' => Step f (λ b, pbind (k' b) k)
  | Ask k' => Ask (λ b, pbind (k' b) k)
  end.
Notation "'let@' x := p 'in' k" := (pbind p (λ x, k))
  (at level 10, x name, p at level 100, k at level 200) : rust_scope.
Definition section {B} (f : locked B) : prog B :=
  Step (λ x, let '(b, s) := f (sh_store x) in Some (b, x <| sh_store := s |>)) Ret.

Inductive SessionError :=
| UnsupportedMode | WorkerEndedWithError | OrphanSender | WorkerNotStarted
| CancelledBeforeRegistration | NotReady | StaleGeneration.
Definition fallible (A : Type) : Type := SessionError + A.

(** [stop_and_join]: enabled once the worker's thread has ended. *)
Definition stop_and_join (i : nat) : prog (fallible unit) :=
  Step (λ x, match sh_workers x !! i with
             | Some w => if bool_decide (wk_phase w = Done)
                         then Some (if wk_result w then inr tt else inl WorkerEndedWithError, x) else None
             | None => None
             end) Ret.

(** A run without interleaving, the system granting what is asked. *)
Fixpoint alone {A} (p : prog A) (x : Shared) : option (A * Shared) :=
  match p with
  | Ret a => Some (a, x)
  | Step f k => match f x with Some (b, x) => alone (k b) x | None => None end
  | Ask k => alone (k true) x
  end.

(** ** The route's operations *)
Section Route.
Context (direction : string).

(** The thread of a worker without a session reports a failure and returns: its
    handle has no completion to receive, so only a panic fails the join. *)
Definition exec_other_worker (l : worker_step) (w : Worker) : option Worker :=
  match l, wk_phase w with
  | WExit, Working _ => Some (w <| wk_phase := Done |> <| wk_result := true |>)
  | WPanic, Working _ => Some (w <| wk_phase := Done |> <| wk_result := false |>)
  | _, _ => None
  end.
(** One step of a worker: [process_session_ready], then [finish_worker]. *)
Definition exec_worker (l : worker_step) (i : nat) (x : Shared) : option Shared :=
  match sh_workers x !! i with
  | None => None
  | Some w =>
      let become w x := x <| sh_workers ::= <[i := w]> |> in
      if negb (is_Some_b (wk_key w)) then
        match exec_other_worker l w with Some w => Some (become w x) | None => None end
      else
      match l, wk_phase w with
      | WMarkReady, Working _ =>
          Some (become (w <| wk_phase := Working true |>) (with_store (mark_ready direction (wk_generation w)) x))
      | WSendReady, Working true => Some (become (send_once (Some (wk_generation w)) w) x)
      | WFail error, Working _ =>
          Some (become (w <| wk_phase := Ended |> <| wk_result := false |>)
                  (with_store (mark_failed direction (wk_generation w) error) x))
      | WExit, Working _ => Some (become (w <| wk_phase := Ended |> <| wk_result := true |>) x)
      | WPanic, Working _ => Some (become (w <| wk_phase := Done |> <| wk_result := false |>) x)
      | WReport, Ended => Some (become ((send_once None w) <| wk_phase := Reported |>) x)
      | WClearSession, Reported =>
          let should_clear := (clear_session direction (wk_generation w) (sh_store x)).1 in
          Some (become (w <| wk_phase := if should_clear then ClearingSender else Done |>)
                  (with_store (clear_session direction (wk_generation w)) x))
      | WClearSender, ClearingSender =>
          Some (become (w <| wk_phase := ClearingHandle |>) (with_store (take_sender direction) x))
      | WClearHandle, ClearingHandle =>
          Some (become (w <| wk_phase := Done |>) (with_store (remove_handle direction) x))
      | _, _ => None
      end
  end.

Definition take_handle : prog (option nat) :=
  let@ _ := section (take_sender direction) in
  let@ _ := section (remove_session direction) in
  section (remove_handle direction).
Definition take_matching_sender (key : SessionReuseKey) : prog (option nat) :=
  let@ ready := section (matching_ready direction key) in
  match ready with Some _ => section (take_sender direction) | None => Ret None end.
Definition retire_omni_session (reason : string) : prog (fallible bool) :=
  let@ m := section (metadata direction) in
  let@ _ := match m with
            | Some m => section (mark_stopping direction (sm_session_generation m) reason)
            | None => Ret false
            end in
  let@ sender := section (take_sender direction) in
  let@ handle := take_handle in
  match handle with
  | Some i =>
      let@ joined := stop_and_join i in
      Ret (match joined with inl e => inl e | inr _ => inr true end)
  | None =>
      match sender with
      | Some i => let@ _ := section (store_sender direction i) in Ret (inl OrphanSender)
      | None => Ret (inr false)
      end
  end.
Definition store_omni_handle_with_retirement (i : nat) : prog (fallible unit) :=
  let@ previous := section (store_handle direction i) in
  match previous with
  | None => Ret (inr tt)
  | Some previous =>
      let@ joined := stop_and_join previous in
      match joined with
      | inr _ => Ret (inr tt)
      | inl e => let@ _ := retire_omni_session "previous_owner_retirement_failed" in Ret (inl e)
      end
  end.
(** [metadata.is_some() || has_sender || has_handle]. *)
Definition registered : prog bool :=
  let@ m := section (metadata direction) in
  if is_Some_b m then Ret true else
  let@ sender := section (has_sender direction) in
  if sender then Ret true else section (has_handle direction).
Definition retire_registered (reason : string) : prog (fallible bool) :=
  let@ busy := registered in
  if busy then retire_omni_session reason else Ret (inr false).
(** [from_config_value] of the configured audio or activity mode. *)
Definition mode_accepted : prog bool := Ask (λ accepted, Ret accepted).
(** A thread is spawned, unless the provider's configuration or the system refuses. *)
Definition spawn_worker (generation : Z) (key : option SessionReuseKey) : prog (option nat) :=
  Ask (λ spawned,
    if spawned then
      Step (λ x, Some (length (sh_workers x),
                       x <| sh_workers ::= λ l, l ++ [mk_worker generation key (Working false) None false] |>))
        (λ i, Ret (Some i))
    else Ret None).
Definition start_omni (generation : Z) (key : SessionReuseKey) : prog (option nat) :=
  spawn_worker generation (Some key).
(** What one [recv_timeout] of the readiness channel finds. *)
Inductive Readiness := ReadyGeneration (generation : Z) | ReadinessError | ChannelClosed | NothingYet.
Definition receive_readiness (i : nat) : prog Readiness :=
  Step (λ x, Some (match sh_workers x !! i with
                   | Some w =>
                       match wk_message w with
                       | Some (Some generation) => ReadyGeneration generation
                       | Some None => ReadinessError
                       | None => if bool_decide (wk_phase w = Done) then ChannelClosed else NothingYet
                       end
                   | None => ChannelClosed
                   end, x)) Ret.
(** The wait for readiness, [turns] times 50 ms: [None] is its timeout. *)
Fixpoint await_readiness (turns : nat) (generation : Z) (i : nat) : prog (option Readiness) :=
  let@ current := section (is_current direction generation) in
  if negb current then Ret (Some ChannelClosed) else
  match turns with
  | O => Ret None
  | S turns =>
      let@ received := receive_readiness i in
      match received with
      | NothingYet => await_readiness turns generation i
      | r => Ret (Some r)
      end
  end.
Definition fail_start (reason : string) (error : SessionError) {A} : prog (fallible A) :=
  let@ _ := retire_omni_session reason in Ret (inl error).
Definition start_or_reuse_omni_session (preconnect : option nat) (key : SessionReuseKey)
    : prog (fallible (nat * Z)) :=
  let@ accepted := mode_accepted in
  if negb accepted then Ret (inl UnsupportedMode) else
  let@ parked := take_matching_sender key in
  match parked with
  | Some sender =>
      let@ generation := section (matching_ready direction key) in
      Ret (inr (sender, default 0 generation))
  | None =>
      let@ retired := retire_registered "preconnect_not_reusable" in
      match retired with
      | inl e => Ret (inl e)
      | inr _ =>
          let@ generation := section (next_generation direction) in
          let@ _ := section (insert_session direction generation key) in
          let@ started := start_omni generation key in
          match started with
          | None => Ret (inl WorkerNotStarted)
          | Some i =>
              let@ current := section (is_current direction generation) in
              if negb current then
                let@ _ := stop_and_join i in Ret (inl CancelledBeforeRegistration)
              else
                let@ stored := store_omni_handle_with_retirement i in
                match stored with
                | inl e => Ret (inl e)
                | inr _ =>
                    match preconnect with
                    | None => Ret (inr (i, generation))
                    | Some turns =>
                        let@ ready := await_readiness turns generation i in
                        match ready with
                        | Some (ReadyGeneration g) =>
                            if g =? generation then Ret (inr (i, generation))
                            else fail_start "readiness_generation_mismatch" NotReady
                        | Some ReadinessError => fail_start "readiness_failed" NotReady
                        | Some _ => fail_start "readiness_channel_disconnected" NotReady
                        | None =>
                            let@ _ := section (mark_stopping direction generation "readiness_timeout") in
                            fail_start "readiness_timeout" NotReady
                        end
                    end
                end
          end
      end
  end.
(** The starters of the other providers, one for each; Tencent has no mode. *)
Inductive RealtimeProvider := OpenAiRealtime | GeminiLive | TencentSpeechTranslate.
Definition replacement_reason (provider : RealtimeProvider) : string :=
  match provider with
  | OpenAiRealtime => "openai_realtime_replacement"
  | GeminiLive => "gemini_live_replacement"
  | TencentSpeechTranslate => "tencent_speech_translate_replacement"
  end.
Definition start_or_reuse_other_session (provider : RealtimeProvider) : prog (fallible nat) :=
  let@ parked := section (take_sender direction) in
  match parked with
  | Some sender => Ret (inr sender)
  | None =>
      let@ accepted := match provider with
                       | OpenAiRealtime | GeminiLive => mode_accepted
                       | TencentSpeechTranslate => Ret true
                       end in
      if negb accepted then Ret (inl UnsupportedMode) else
      let@ retired := retire_omni_session (replacement_reason provider) in
      match retired with
      | inl e => Ret (inl e)
      | inr _ =>
          let@ started := spawn_worker 0 None in
          match started with
          | None => Ret (inl WorkerNotStarted)
          | Some i =>
              let@ stored := store_omni_handle_with_retirement i in
              Ret (match stored with inl e => inl e | inr _ => inr i end)
          end
      end
  end.
(** From the check of a reusable session on. *)
Definition preconnect_omni_realtime_inner (turns : nat) (key : SessionReuseKey)
    : prog (fallible (option nat)) :=
  let@ ready := section (matching_ready direction key) in
  let@ reusable := if is_Some_b ready then section (has_sender direction) else Ret false in
  if reusable then Ret (inr None) else
  let@ retired := retire_registered "preconnect_config_changed" in
  match retired with
  | inl e => Ret (inl e)
  | inr _ =>
      let@ started := start_or_reuse_omni_session (Some turns) key in
      match started with
      | inl e => Ret (inl e)
      | inr (sender, generation) =>
          let@ current := section (is_current direction generation) in
          if negb current then Ret (inl StaleGeneration) else
          let@ _ := section (store_sender direction sender) in Ret (inr None)
      end
  end.
(** The part of a route stop that ends its session. *)
Definition stop_route : prog (fallible (option nat)) :=
  let@ handle := take_handle in
  match handle with
  | Some i =>
      let@ joined := stop_and_join i in
      Ret (match joined with inl e => inl e | inr _ => inr None end)
  | None => Ret (inr None)
  end.

(** ** Interleavings *)
(** What is done under the pipeline lock; a route keeps the sender it is given. *)
Inductive call :=
| CallPreconnect (turns : nat) (key : SessionReuseKey)
| CallRoute (key : SessionReuseKey)
| CallOtherRoute (provider : RealtimeProvider)
| CallRetire (reason : string)
| CallStop.
Definition program (c : call) : prog (fallible (option nat)) :=
  match c with
  | CallPreconnect turns key => preconnect_omni_realtime_inner turns key
  | CallRoute key =>
      let@ started := start_or_reuse_omni_session None key in
      Ret (match started with inl e => inl e | inr (sender, _) => inr (Some sender) end)
  | CallOtherRoute provider =>
      let@ started := start_or_reuse_other_session provider in
      Ret (match started with inl e => inl e | inr sender => inr (Some sender) end)
  | CallRetire reason =>
      let@ retired := retire_omni_session reason in
      Ret (match retired with inl e => inl e | inr _ => inr None end)
  | CallStop => stop_route
  end.
(** The lock's holder, and the calls that returned. *)
Record Lifecycle := mk_lifecycle_state {
  lf_shared : Shared; lf_running : option (call * prog (fallible (option nat)));
  lf_returned : list (call * fallible (option nat))
}.
Inductive lifecycle_label :=
| LCall (c : call) | LControl (answer : bool) | LWorker (l : worker_step) (i : nat).
Definition exec_lifecycle (l : lifecycle_label) (s : Lifecycle) : option Lifecycle :=
  match l, lf_running s with
  | LCall c, None => Some (mk_lifecycle_state (lf_shared s) (Some (c, program c)) (lf_returned s))
  | LCall _, Some _ => None
  | LControl _, Some (c, Ret a) =>
      Some (mk_lifecycle_state (lf_shared s) None (lf_returned s ++ [(c, a)]))
  | LControl _, Some (c, Step f k) =>
      match f (lf_shared s) with
      | Some (b, x) => Some (mk_lifecycle_state x (Some (c, k b)) (lf_returned s))
      | None => None
      end
  | LControl answer, Some (c, Ask k) =>
      Some (mk_lifecycle_state (lf_shared s) (Some (c, k answer)) (lf_returned s))
  | LControl _, None => None
  | LWorker l i, running =>
      match exec_worker l i (lf_shared s) with
      | Some x => Some (mk_lifecycle_state x running (lf_returned s))
      | None => None
      end
  end.
Definition lifecycle_step (s : Lifecycle) (l : lifecycle_label) (s' : Lifecycle) : Prop :=
  exec_lifecycle l s = Some s'.
Definition lifecycle_start : Lifecycle := mk_lifecycle_state (mk_shared sessions_new []) None [].
Definition lifecycle_reachable : Lifecycle → Prop := reachable (eq lifecycle_start) lifecycle_step.
End Route.
