(* ===== verification/OmniSessionsTheorems.v ===== *)
(** * Who owns a route's session

    A Hoare logic for programs of sections among workers: an assertion about the
    shared state must be stable under the steps of workers, and the store's
    invariant holds at every step. With it: at most one worker of a route is alive,
    and an Omni route reuses a session only for what it was started for. *)
From S2P Require Import Prelude RustStr OmniSessions.

Section Route.
Context (direction : string).
Abbreviation exec_worker := (exec_worker direction).

(** ** The slots of the route *)
Definition handle_of (x : Shared) : option nat := os_handles (sh_store x) !! direction.
Definition sender_of (x : Shared) : option nat := os_senders (sh_store x) !! direction.
Definition entry_of (x : Shared) : option OmniSessionMetadata := os_sessions (sh_store x) !! direction.
Definition alive (x : Shared) (i : nat) : Prop :=
  ∃ w, sh_workers x !! i = Some w ∧ wk_phase w ≠ Done.
Definition serves (x : Shared) (i : nat) (key : SessionReuseKey) : Prop :=
  ∃ w, sh_workers x !! i = Some w ∧ wk_key w = Some key.
Record slots_ok (x : Shared) : Prop := {
  sl_one : ∀ i j, alive x i → alive x j → i = j;
  sl_handle : ∀ i j, alive x i → handle_of x = Some j → j = i;
  sl_sender : ∀ i j, alive x i → sender_of x = Some j → j = i;
  sl_key : ∀ i, sender_of x = Some i →
    ∃ key, serves x i key ∧ ∀ m, entry_of x = Some m → sm_key m = key
}.
(** With the lock free, whoever is alive is registered. *)
Definition registered_alive (x : Shared) : Prop := ∀ i, alive x i → handle_of x = Some i.

(** ** What workers do meanwhile *)
Record moves (x x' : Shared) : Prop := {
  mv_alive : ∀ i, alive x' i → alive x i;
  mv_handle : ∀ i, handle_of x' = Some i → handle_of x = Some i;
  mv_sender : ∀ i, sender_of x' = Some i → sender_of x = Some i;
  mv_entry : ∀ m, entry_of x' = Some m → ∃ m', entry_of x = Some m' ∧ sm_key m' = sm_key m;
  mv_worker : ∀ i w, sh_workers x !! i = Some w → ∃ w', sh_workers x' !! i = Some w' ∧ wk_key w' = wk_key w;
  mv_slots : slots_ok x → slots_ok x' ∧ (registered_alive x → registered_alive x')
}.
#[local] Instance moves_preorder : PreOrder moves.
Proof.
  split.
  - intros x. split; eauto.
  - intros x y z [A1 A2 A3 A4 A5 A6] [B1 B2 B3 B4 B5 B6]. split; auto.
    + intros m Hm. destruct (B4 m Hm) as (m1 & H1 & E1), (A4 m1 H1) as (m2 & H2 & E2).
      exists m2. split; [done|congruence].
    + intros i w Hw. destruct (A5 i w Hw) as (w1 & H1 & E1), (B5 i w1 H1) as (w2 & H2 & E2).
      exists w2. split; [done|congruence].
    + intros Hx. destruct (A6 Hx) as [Hy Hr], (B6 Hy) as [Hz Hr']. auto.
Qed.
(** A worker's step on the store: what the four maps hold afterwards. *)
Definition shrinks (s s' : OmniSessionStore) : Prop :=
  (os_handles s' !! direction = os_handles s !! direction ∨ os_handles s' !! direction = None)
  ∧ (os_senders s' !! direction = os_senders s !! direction ∨ os_senders s' !! direction = None)
  ∧ (∀ m, os_sessions s' !! direction = Some m →
       ∃ m', os_sessions s !! direction = Some m' ∧ sm_key m' = sm_key m).
Lemma shrinks_refl s : shrinks s s.
Proof. split_and!; [by left..|]. intros m H. by exists m. Qed.
Lemma mutate_shrinks generation f s :
  (∀ m, sm_key (f m) = sm_key m) →
  shrinks s (mutate_matching direction generation f s).2
  ∧ os_handles (mutate_matching direction generation f s).2 = os_handles s.
Proof.
  intros Hf. unfold mutate_matching.
  destruct (os_sessions s !! direction) as [m|] eqn:E; [|by split; [apply shrinks_refl|]].
  destruct (_ =? _); [|by split; [apply shrinks_refl|]]. split; [|done]. split_and!; [by left..|]. simpl.
  intros m'. rewrite lookup_insert_eq. intros [= <-]. exists m. by rewrite Hf.
Qed.
Lemma clear_shrinks generation s :
  shrinks s (clear_session direction generation s).2
  ∧ os_handles (clear_session direction generation s).2 = os_handles s.
Proof.
  unfold clear_session.
  destruct (os_sessions s !! direction) as [m|] eqn:E; [|by split; [apply shrinks_refl|]].
  destruct (_ =? _); [|by split; [apply shrinks_refl|]]. split; [|done]. split_and!; [by left..|]. simpl.
  intros m'. by rewrite lookup_delete_eq.
Qed.
Lemma take_sender_shrinks s : shrinks s (take_sender direction s).2.
Proof. split_and!; simpl; [by left|rewrite lookup_delete_eq; by right|]. intros m H. by exists m. Qed.
Lemma remove_handle_shrinks s : shrinks s (remove_handle direction s).2.
Proof. split_and!; simpl; [rewrite lookup_delete_eq; by right|by left|]. intros m H. by exists m. Qed.
(** A step of a live worker: its phase changes, the store shrinks, and its handle
    goes only as it ends. *)
Lemma worker_moves i w w' s' x :
  sh_workers x !! i = Some w → wk_phase w ≠ Done → wk_key w' = wk_key w →
  shrinks (sh_store x) s' →
  (os_handles s' !! direction = os_handles (sh_store x) !! direction ∨ wk_phase w' = Done) →
  moves x (mk_shared s' (<[i := w']> (sh_workers x))).
Proof.
  intros Hw Hlive Hkey (Hh & Hs & He) Hend. set (x' := mk_shared _ _).
  assert (alive x i) as Hi by by exists w.
  assert (∀ j, alive x' j → alive x j ∧ (j = i → wk_phase w' ≠ Done)) as Ha.
  { intros j (u & Hu & Hp). simpl in Hu. destruct (decide (j = i)) as [->|Hne].
    - rewrite list_lookup_insert_eq in Hu by by eapply lookup_lt_Some. by injection Hu as <-.
    - rewrite list_lookup_insert_ne in Hu by done. split; [by exists u|done]. }
  assert (∀ j, handle_of x' = Some j → handle_of x = Some j) as Hhs
    by (unfold handle_of; simpl; intros j; destruct Hh as [->| ->]; done).
  assert (∀ j, sender_of x' = Some j → sender_of x = Some j) as Hss
    by (unfold sender_of; simpl; intros j; destruct Hs as [->| ->]; done).
  assert (∀ j u, sh_workers x !! j = Some u → ∃ u', sh_workers x' !! j = Some u' ∧ wk_key u' = wk_key u) as Hwk.
  { intros j u Hu. simpl. destruct (decide (j = i)) as [->|Hne].
    - rewrite list_lookup_insert_eq by by eapply lookup_lt_Some. exists w'. split; [done|congruence].
    - rewrite list_lookup_insert_ne by done. by exists u. }
  split; try done.
  - intros j Hj. by apply Ha.
  - intros [Ho Hha Hse Hk]. split; [split|].
    + intros j k Hj Hk'. apply Ho; by apply Ha.
    + intros j k Hj Hk'. apply Hha; [by apply Ha|auto].
    + intros j k Hj Hk'. apply Hse; [by apply Ha|auto].
    + intros j Hj. destruct (Hk j (Hss j Hj)) as (key & (u & Hu & Hkk) & Hm).
      destruct (Hwk j u Hu) as (u' & Hu' & E).
      exists key. split; [exists u'; split; [done|congruence]|]. intros m Hent.
      destruct (He m Hent) as (m' & Hm' & <-). by apply Hm.
    + intros Hr j Hj. destruct (Ha j Hj) as [Hj' Hne]. assert (j = i) as -> by by apply Ho.
      unfold handle_of. simpl. destruct Hend as [->|Hdone]; [by apply Hr|by destruct (Hne eq_refl)].
Qed.

Lemma exec_worker_moves l i x x' : exec_worker l i x = Some x' → moves x x'.
Proof.
  unfold OmniSessions.exec_worker. destruct (sh_workers x !! i) as [w|] eqn:Hw; [|done].
  assert (∀ w' s', wk_phase w ≠ Done → wk_key w' = wk_key w → shrinks (sh_store x) s' →
    (os_handles s' !! direction = os_handles (sh_store x) !! direction ∨ wk_phase w' = Done) →
    moves x (mk_shared s' (<[i := w']> (sh_workers x)))) as Hm by eauto using worker_moves.
  pose proof (shrinks_refl (sh_store x)) as Hid.
  destruct (wk_key w) as [key|] eqn:Hk; cbn [is_Some_b negb].
  2:{ unfold exec_other_worker.
      destruct l, (wk_phase w) eqn:Hp; try done; intros [= <-]; (apply Hm; [done|done|exact Hid|by left]). }
  destruct l, (wk_phase w) as [marked| | | | |] eqn:Hp; try done; try destruct marked; intros [= <-];
    (apply Hm; [done|done| |]);
    first [done | by left | by right | idtac].
  all: first
    [ by refine (proj1 (mutate_shrinks _ _ _ _))
    | left; by refine (f_equal (lookup direction) (proj2 (mutate_shrinks _ _ _ _)))
    | exact (proj1 (clear_shrinks _ _))
    | left; exact (f_equal (lookup direction) (proj2 (clear_shrinks _ _)))
    | exact (take_sender_shrinks _) | exact (remove_handle_shrinks _) ].
Qed.

Lemma exec_worker_alive l i x x' : exec_worker l i x = Some x' → alive x i.
Proof.
  unfold OmniSessions.exec_worker. destruct (sh_workers x !! i) as [w|] eqn:Hw; [|done].
  intros E. exists w. split; [done|]. intros Hd. destruct (wk_key w); cbn [is_Some_b negb] in E.
  - rewrite Hd in E. by destruct l.
  - unfold exec_other_worker in E. rewrite Hd in E. by destruct l.
Qed.

(** ** Programs *)
Definition stable (P : Shared → Prop) : Prop := ∀ x x', moves x x' → slots_ok x → P x → P x'.
(** Workers keep their key through every section. *)
Definition keeps_workers (x x' : Shared) : Prop := ∀ i key, serves x i key → serves x' i key.
(** [wp p Q x]: whatever workers do between its sections, the program keeps the
    invariant at each of them and returns with [Q]. *)
Fixpoint wp {A} (p : prog A) (Q : A → Shared → Prop) (x : Shared) : Prop :=
  match p with
  | Ret a => ∀ x', moves x x' → slots_ok x' → Q a x'
  | Step f k => ∀ x', moves x x' → slots_ok x' → ∀ b x'', f x' = Some (b, x'') →
      (slots_ok x'' ∧ keeps_workers x' x'') ∧ wp (k b) Q x''
  | Ask k => ∀ b, wp (k b) Q x
  end.
Lemma wp_moves {A} (p : prog A) Q : ∀ x x', moves x x' → wp p Q x → wp p Q x'.
Proof.
  induction p as [a|B f k IH|k IH]; intros x x' Hm; simpl; [| |by eauto].
  - intros H y Hy. apply H. by etransitivity.
  - intros H y Hy. apply H. by etransitivity.
Qed.
Lemma wp_mono {A} (p : prog A) (Q R : A → Shared → Prop) :
  (∀ a x, slots_ok x → Q a x → R a x) → ∀ x, wp p Q x → wp p R x.
Proof.
  intros HQ. induction p as [a|B f k IH|k IH]; intros x; simpl; [by eauto| |by eauto].
  intros H y Hm Hy b z Hf. destruct (H y Hm Hy b z Hf) as [? ?]. split; [done|by apply IH].
Qed.
Lemma wp_bind {A B} (p : prog A) (k : A → prog B) Q :
  ∀ x, slots_ok x → wp p (λ a, wp (k a) Q) x → wp (pbind p k) Q x.
Proof.
  induction p as [a|C f k' IH|k' IH]; intros x Hx; simpl.
  - intros H. by apply H.
  - intros H y Hm Hy b z Hf. destruct (H y Hm Hy b z Hf) as [Hz ?]. split; [done|]. by apply IH; [apply Hz|].
  - intros H b. by apply IH.
Qed.
Definition hoare {A} (P : Shared → Prop) (p : prog A) (Q : A → Shared → Prop) : Prop :=
  ∀ x, slots_ok x → P x → wp p Q x.
Lemma hoare_bind {A B} P (p : prog A) (k : A → prog B) Q R :
  hoare P p Q → (∀ a, hoare (Q a) (k a) R) → hoare P (pbind p k) R.
Proof.
  intros Hp Hk x Hx HP. apply wp_bind; [done|]. eapply wp_mono; [|by apply Hp].
  intros a y Hy HQ. by apply Hk.
Qed.
Lemma hoare_ret {A} (P : Shared → Prop) (a : A) (Q : A → Shared → Prop) :
  stable P → (∀ x, slots_ok x → P x → Q a x) → hoare P (Ret a) Q.
Proof. intros HP HQ x Hx H y Hm Hy. apply HQ; [done|by eapply HP]. Qed.
Lemma hoare_step {A B} (P : Shared → Prop) (f : Shared → option (B * Shared)) (k : B → prog A) Q R :
  stable P → (∀ x b y, slots_ok x → P x → f x = Some (b, y) → (slots_ok y ∧ keeps_workers x y) ∧ R b y) →
  (∀ b, hoare (R b) (k b) Q) → hoare P (Step f k) Q.
Proof.
  intros HP Hf Hk x Hx H y Hm Hy b z Hz. destruct (Hf y b z Hy (HP _ _ Hm Hx H) Hz) as [[? ?] ?].
  split; [done|by apply Hk].
Qed.
Lemma hoare_section {B} (f : locked B) P (Q : B → Shared → Prop) :
  stable P → (∀ b, stable (Q b)) →
  (∀ x, slots_ok x → P x →
     let r := f (sh_store x) in slots_ok (x <| sh_store := r.2 |>) ∧ Q r.1 (x <| sh_store := r.2 |>)) →
  hoare P (section f) Q.
Proof.
  intros HP HQ Hf. eapply (hoare_step _ _ _ _ Q); [done| |intros b; by apply hoare_ret].
  intros x b y Hx H. destruct (f (sh_store x)) as [b' s] eqn:E. intros [= <- <-].
  specialize (Hf x Hx H). rewrite E in Hf. destruct Hf. split; [split; [done|by intros i key Hs]|done].
Qed.
Lemma hoare_ask {A} P (k : bool → prog A) Q : (∀ b, hoare P (k b) Q) → hoare P (Ask k) Q.
Proof. intros Hk x Hx H b. by apply Hk. Qed.
Lemma hoare_conseq {A} (P P' : Shared → Prop) (p : prog A) (Q Q' : A → Shared → Prop) :
  hoare P' p Q' → (∀ x, slots_ok x → P x → P' x) → (∀ a x, slots_ok x → Q' a x → Q a x) → hoare P p Q.
Proof. intros Hp HP HQ x Hx H. eapply wp_mono; [exact HQ|]. apply Hp; auto. Qed.

(** ** Assertions *)
Definition quiet (x : Shared) : Prop := ∀ i, ¬ alive x i.
Definition only (i : nat) (x : Shared) : Prop := ∀ j, alive x j → j = i.
Definition unparked (x : Shared) : Prop := sender_of x = None.
Definition unhandled (x : Shared) : Prop := handle_of x = None.
Definition vacant (x : Shared) : Prop := entry_of x = None.
Definition entry_for (key : SessionReuseKey) (x : Shared) : Prop :=
  ∀ m, entry_of x = Some m → sm_key m = key.
Definition parked_for (key : SessionReuseKey) (x : Shared) : Prop :=
  ∀ i, sender_of x = Some i → serves x i key.
Definition known (i : nat) (x : Shared) : Prop := ∃ key, serves x i key.
Lemma stable_idle : stable registered_alive.
Proof. intros x x' Hm Hx. by apply Hm. Qed.
Lemma stable_quiet : stable quiet.
Proof. intros x x' Hm _ H i Hi. by apply (H i), Hm. Qed.
Lemma stable_only i : stable (only i).
Proof. intros x x' Hm _ H j Hj. by apply H, Hm. Qed.
Lemma stable_gone (f : Shared → option nat) :
  (∀ x x', moves x x' → ∀ i, f x' = Some i → f x = Some i) → stable (λ x, f x = None).
Proof. intros Hf x x' Hm _ H. destruct (f x') eqn:E; [|done]. apply (Hf x x' Hm) in E. congruence. Qed.
Lemma stable_unparked : stable unparked.
Proof. apply (stable_gone sender_of). intros x x' Hm. apply Hm. Qed.
Lemma stable_unhandled : stable unhandled.
Proof. apply (stable_gone handle_of). intros x x' Hm. apply Hm. Qed.
Lemma stable_vacant : stable vacant.
Proof.
  intros x x' Hm _ H. unfold vacant in *. destruct (entry_of x') eqn:E; [|done].
  destruct (mv_entry x x' Hm _ E) as (? & ? & _). congruence.
Qed.
Lemma stable_serves i key : stable (λ x, serves x i key).
Proof.
  intros x x' Hm _ (w & Hw & Hk). destruct (mv_worker x x' Hm i w Hw) as (w' & Hw' & E).
  exists w'. split; [done|congruence].
Qed.
Lemma stable_entry_for key : stable (entry_for key).
Proof.
  intros x x' Hm _ H m E. destruct (mv_entry x x' Hm m E) as (m' & Em & <-). by apply H.
Qed.
Lemma stable_parked_for key : stable (parked_for key).
Proof. intros x x' Hm Hx H i Hi. apply (stable_serves i key x x' Hm Hx), H, Hm, Hi. Qed.
Lemma stable_known i : stable (known i).
Proof. intros x x' Hm Hx [key H]. exists key. by apply (stable_serves i key x x'). Qed.
Lemma stable_and P Q : stable P → stable Q → stable (λ x, P x ∧ Q x).
Proof. intros HP HQ x x' Hm Hx [? ?]. split; [by apply (HP x)|by apply (HQ x)]. Qed.
Lemma stable_const (φ : Prop) : stable (λ _, φ).
Proof. by intros x x' _ _ H. Qed.
Create HintDb stable.
#[local] Hint Resolve stable_idle stable_quiet stable_only stable_unparked stable_unhandled stable_vacant
  stable_serves stable_entry_for stable_parked_for stable_known stable_and stable_const : stable.
#[local] Hint Extern 2 (stable (λ x, match ?o with Some _ => _ | None => _ end)) => destruct o : stable.
#[local] Hint Extern 2 (stable (λ x, if ?b then _ else _)) => destruct b : stable.
#[local] Hint Extern 2 (∀ _, stable _) => intros ? : stable.

(** A section that changes neither workers nor, for the worse, the slots. *)
Lemma slots_ok_store x s :
  slots_ok x →
  (∀ j, os_handles s !! direction = Some j → handle_of x = Some j ∨ only j x) →
  (∀ j, os_senders s !! direction = Some j → sender_of x = Some j ∨
     (only j x ∧ ∃ key, serves x j key ∧ ∀ m, os_sessions s !! direction = Some m → sm_key m = key)) →
  (∀ m, os_sessions s !! direction = Some m → unparked x ∨ ∃ m', entry_of x = Some m' ∧ sm_key m' = sm_key m) →
  slots_ok (x <| sh_store := s |>).
Proof.
  intros [Ho Hh Hs Hk] H1 H2 H3. split; [exact Ho|..].
  - intros i j Hi Hj. destruct (H1 j Hj) as [?|Hon]; [by apply (Hh i)|symmetry; by apply Hon].
  - intros i j Hi Hj. destruct (H2 j Hj) as [?|[Hon _]]; [by apply (Hs i)|symmetry; by apply Hon].
  - intros i Hi. destruct (H2 i Hi) as [Hold|[_ ?]]; [|done]. destruct (Hk i Hold) as (key & Hs' & Hm).
    exists key. split; [done|]. intros m Em. destruct (H3 m Em) as [Hun|(m' & Em' & <-)]; [|by apply Hm].
    unfold unparked in Hun. congruence.
Qed.

(** ** The sections *)
Lemma store_same x : x <| sh_store := sh_store x |> = x.
Proof. by destruct x. Qed.
Lemma hoare_read {B} (f : locked B) P (Q : B → Shared → Prop) :
  (∀ s, (f s).2 = s) → stable P → (∀ b, stable (Q b)) →
  (∀ x, slots_ok x → P x → Q (f (sh_store x)).1 x) → hoare P (section f) Q.
Proof.
  intros Hf HP HQ H. apply hoare_section; [done..|]. intros x Hx HPx. cbv zeta. rewrite Hf, store_same. auto.
Qed.
Lemma hoare_keep {B} (f : locked B) P : (∀ s, (f s).2 = s) → stable P → hoare P (section f) (λ _, P).
Proof. intros Hf HP. by apply hoare_read. Qed.
(** Sections that leave the route's handle, sender and keys alone. *)
Lemma hoare_neutral {B} (f : locked B) P :
  (∀ s, shrinks s (f s).2 ∧ os_handles (f s).2 = os_handles s) → stable P → hoare P (section f) (λ _, P).
Proof.
  intros Hf HP. apply hoare_section; [done..|]. intros x Hx HPx. cbv zeta.
  destruct (Hf (sh_store x)) as [(Hh & Hs & He) Heq]. set (y := x <| sh_store := _ |>).
  assert (slots_ok y) as Hy.
  { apply slots_ok_store; [done|..].
    - intros j Hj. left. unfold handle_of. by rewrite <-Heq.
    - intros j Hj. left. unfold sender_of. destruct Hs as [<-|Hn]; [done|congruence].
    - intros m Hm. right. by apply He. }
  split; [done|]. refine (HP x y _ Hx HPx).
  split; try done.
  - intros i. unfold handle_of. simpl. by rewrite Heq.
  - intros i. unfold sender_of. simpl. by destruct Hs as [->| ->].
  - intros i w Hw. by exists w.
  - intros _. split; [done|]. intros H j Hj. unfold handle_of. simpl. rewrite Heq. by apply H.
Qed.
Lemma hoare_mark_stopping generation reason P :
  stable P → hoare P (section (mark_stopping direction generation reason)) (λ _, P).
Proof. apply hoare_neutral. intros s. by apply mutate_shrinks. Qed.
Lemma hoare_next_generation P : stable P → hoare P (section (next_generation direction)) (λ _, P).
Proof. apply hoare_neutral. intros s. split; [|done]. split_and!; [by left..|]. intros m Hm. by exists m. Qed.
Lemma hoare_take_sender P (Q : option nat → Shared → Prop) :
  stable P → (∀ i, stable (Q i)) →
  (∀ x y, slots_ok x → P x → moves x y → slots_ok y → unparked y → Q (sender_of x) y) →
  hoare P (section (take_sender direction)) Q.
Proof.
  intros HP HQ H. apply hoare_section; [done..|]. intros x Hx HPx. cbv zeta. set (y := x <| sh_store := _ |>).
  assert (handle_of y = handle_of x ∧ entry_of y = entry_of x ∧ sender_of y = None) as (E1 & E2 & E3).
  { split_and!; [done|done|]. unfold sender_of. simpl. by rewrite lookup_delete_eq. }
  assert (slots_ok y) as Hy.
  { apply slots_ok_store; [done|by left|..].
    - intros j Hj. change (sender_of y = Some j) in Hj. congruence.
    - intros m Hm. right. by exists m. }
  split; [done|]. apply H; try done. split; try done.
  - intros i. congruence.
  - intros m Hm. exists m. split; [congruence|done].
  - intros i w Hw. by exists w.
Qed.
Lemma hoare_remove_session P :
  stable P → hoare P (section (remove_session direction)) (λ _ x, P x ∧ vacant x).
Proof.
  intros HP. apply hoare_section; [auto with stable..|]. intros x Hx HPx. cbv zeta. set (y := x <| sh_store := _ |>).
  assert (handle_of y = handle_of x ∧ entry_of y = None ∧ sender_of y = sender_of x) as (E1 & E2 & E3).
  { split_and!; [done| |done]. unfold entry_of. simpl. by rewrite lookup_delete_eq. }
  assert (slots_ok y) as Hy.
  { apply slots_ok_store; [done|by left|by left|]. intros m Hm. change (entry_of y = Some m) in Hm. congruence. }
  split; [done|]. split; [|done]. refine (HP x y _ Hx HPx). split; try done.
  - intros m Hm. congruence.
  - intros i w Hw. by exists w.
Qed.
(** Taking the handle: its worker is the only one alive, if any is. *)
Lemma hoare_remove_handle P :
  stable P → (∀ x s, P x → os_senders s = os_senders (sh_store x) → os_sessions s = os_sessions (sh_store x) →
              P (x <| sh_store := s |>)) →
  hoare (λ x, registered_alive x ∧ P x) (section (remove_handle direction))
    (λ h x, (unhandled x ∧ P x) ∧ match h with Some i => only i x | None => quiet x end).
Proof.
  intros HP Hframe. apply hoare_section; [auto with stable..|]. intros x Hx [Hr HPx]. cbv zeta.
  set (y := x <| sh_store := _ |>).
  assert (handle_of y = None) as E1 by (unfold handle_of; simpl; by rewrite lookup_delete_eq).
  assert (slots_ok y) as Hy.
  { apply slots_ok_store; [done|..].
    - intros j Hj. change (handle_of y = Some j) in Hj. congruence.
    - by left.
    - intros m Hm. right. by exists m. }
  split; [done|]. split; [split; [done|by apply Hframe]|]. simpl. change (os_handles (sh_store x) !! direction) with (handle_of x).
  destruct (handle_of x) as [i|] eqn:E.
  - intros j Hj. apply Hr in Hj. congruence.
  - intros j Hj. apply Hr in Hj. congruence.
Qed.

Lemma quiet_idle x : quiet x → registered_alive x.
Proof. intros H i Hi. by destruct (H i). Qed.
(** After the join of the only worker alive, nobody is. *)
Lemma hoare_join i P :
  stable P → hoare (λ x, only i x ∧ P x) (stop_and_join i) (λ _ x, quiet x ∧ P x).
Proof.
  intros HP. eapply (hoare_step _ _ _ _ (λ _ x, quiet x ∧ P x)); [auto with stable| |].
  - intros x b y Hx [Ho HPx]. destruct (sh_workers x !! i) as [w|] eqn:Hw; [|done].
    case_bool_decide as Hd; [|done]. intros [= _ <-]. split; [by split; [|intros j key]|]. split; [|done].
    intros j Hj. pose proof (Ho j Hj) as ->. destruct Hj as (w' & Hw' & Hne). congruence.
  - intros b. apply hoare_ret; auto with stable.
Qed.
Lemma hoare_store_handle i P :
  stable P → (∀ x s, P x → os_senders s = os_senders (sh_store x) → os_sessions s = os_sessions (sh_store x) →
              P (x <| sh_store := s |>)) →
  hoare (λ x, (only i x ∧ unhandled x) ∧ P x) (section (store_handle direction i))
    (λ previous x, previous = None ∧ registered_alive x ∧ only i x ∧ P x).
Proof.
  intros HP Hframe. apply hoare_section; [auto with stable..|]. intros x Hx [[Ho Hu] HPx]. cbv zeta.
  split.
  - apply slots_ok_store; [done|..].
    + intros j. simpl. rewrite lookup_insert_eq. intros [= <-]. by right.
    + by left.
    + intros m Hm. right. by exists m.
  - split_and!; [exact Hu| |exact Ho|by apply Hframe].
    intros j Hj. unfold handle_of. simpl. rewrite lookup_insert_eq. f_equal. symmetry. by apply Ho.
Qed.
(** A sender may be parked when its worker alone may be alive, and the session of
    the route, if there still is one, is of the same key. *)
Lemma hoare_store_sender i key :
  hoare (λ x, (only i x ∧ serves x i key) ∧ entry_for key x ∧ registered_alive x)
    (section (store_sender direction i)) (λ _, registered_alive).
Proof.
  apply hoare_section; [auto 10 with stable..|]. intros x Hx ((Ho & Hk) & He & Hr). cbv zeta.
  split; [|exact Hr]. apply slots_ok_store; [done|by left|..].
  - intros j. simpl. rewrite lookup_insert_eq. intros [= <-]. right. split; [done|]. by exists key.
  - intros m Hm. right. by exists m.
Qed.
Lemma hoare_insert_session generation key :
  hoare (λ x, quiet x ∧ unparked x ∧ unhandled x) (section (insert_session direction generation key))
    (λ _ x, (quiet x ∧ unparked x ∧ unhandled x) ∧ entry_for key x).
Proof.
  apply hoare_section; [auto 10 with stable..|]. intros x Hx (Hq & Hs & Hh). cbv zeta. split.
  - apply slots_ok_store; [done|by left|by left|]. intros m _. by left.
  - split_and!; [done..|]. intros m. unfold entry_of. simpl. rewrite lookup_insert_eq. by intros [= <-].
Qed.
Lemma hoare_spawn generation key (K : Shared → Prop) :
  stable K → (∀ x l, K x → K (x <| sh_workers := l |>)) →
  hoare (λ x, (quiet x ∧ unparked x ∧ unhandled x) ∧ K x) (spawn_worker generation key)
    (λ started x, match started with
                  | Some i => (only i x ∧ unhandled x) ∧ (∀ k, key = Some k → serves x i k) ∧ K x
                  | None => registered_alive x
                  end).
Proof.
  intros HK Hframe. apply hoare_ask. intros [|].
  2:{ apply hoare_ret; [auto 10 with stable|]. intros x Hx [[Hq _] _]. by apply quiet_idle. }
  assert (∀ i, stable (λ x, ∀ k, key = Some k → serves x i k)) as Hserves.
  { intros i x x' Hm Hx H k E. apply (stable_serves i k x x' Hm Hx). auto. }
  eapply (hoare_step _ _ _ _ (λ i x, (only i x ∧ unhandled x) ∧ (∀ k, key = Some k → serves x i k) ∧ K x));
    [auto 10 with stable| |].
  - intros x b y Hx [(Hq & Hs & Hh) HKx] [= <- <-].
    set (w := mk_worker generation key (Working false) None false).
    set (y := x <| sh_workers ::= λ l, l ++ [w] |>).
    assert (only (length (sh_workers x)) y) as Ho.
    { intros j (u & Hu & Hp). simpl in Hu. apply lookup_app_Some in Hu as [Hu|[Hl Hu]].
      - destruct (Hq j). by exists u.
      - apply list_lookup_singleton_Some in Hu as [? _]. lia. }
    split; [split|].
    + split.
      * intros i j Hi Hj. by rewrite (Ho i Hi), (Ho j Hj).
      * intros i j _ Hj. change (handle_of x = Some j) in Hj. unfold unhandled in Hh. congruence.
      * intros i j _ Hj. change (sender_of x = Some j) in Hj. unfold unparked in Hs. congruence.
      * intros i Hi. change (sender_of x = Some i) in Hi. unfold unparked in Hs. congruence.
    + intros i key' (u & Hu & E). exists u. split; [|done]. by apply lookup_app_l_Some.
    + split_and!; [done|done| |by apply (Hframe x)]. intros k E. exists w.
      split; [|done]. simpl. by rewrite lookup_app_r, Nat.sub_diag.
  - intros i. apply hoare_ret; [auto 10 with stable|done].
Qed.
Lemma hoare_take_matching_sender key :
  hoare registered_alive (take_matching_sender direction key)
    (λ parked x, registered_alive x ∧
       match parked with Some i => (only i x ∧ serves x i key) ∧ entry_for key x | None => True end).
Proof.
  eapply (hoare_bind _ _ _ (λ ready x, registered_alive x ∧
    match ready with Some _ => parked_for key x ∧ entry_for key x | None => True end)).
  - apply hoare_read; [done|auto 10 with stable..|]. intros x Hx Hr. split; [done|]. simpl.
    destruct (os_sessions (sh_store x) !! direction) as [m|] eqn:E; [|done].
    destruct (_ && _) eqn:Eb; [|done]. bool_hyps. split.
    + intros i Hi. destruct (sl_key x Hx i Hi) as (k & Hs & Hm). pose proof (Hm m E). congruence.
    + intros m' Hm'. unfold entry_of in Hm'. congruence.
  - intros [g|]; [|apply hoare_ret; auto 10 with stable].
    apply hoare_take_sender; [auto 10 with stable|auto 20 with stable|].
    intros x y Hx (Hr & Hp & He) Hm Hy _. split; [by apply (stable_idle x)|].
    destruct (sender_of x) as [i|] eqn:E; [|done]. split_and!.
    + apply (stable_only i x y Hm Hx). intros j Hj. symmetry. by apply (sl_sender x Hx j i).
    + apply (stable_serves i key x y Hm Hx). by apply Hp.
    + by apply (stable_entry_for key x y).
Qed.

(** ** The programs *)
Definition cleared (x : Shared) : Prop := quiet x ∧ unparked x ∧ unhandled x.
#[local] Hint Unfold cleared : stable.
Lemma stable_cleared : stable cleared.
Proof. unfold cleared. auto 10 with stable. Qed.
#[local] Hint Resolve stable_cleared : stable.
Lemma hoare_retire reason :
  hoare registered_alive (retire_omni_session direction reason)
    (λ r x, match r with inl _ => registered_alive x | inr _ => cleared x end).
Proof.
  unfold retire_omni_session.
  eapply (hoare_bind _ _ _ (λ _, registered_alive)); [apply hoare_keep; auto with stable|intros m].
  eapply (hoare_bind _ _ _ (λ _, registered_alive)); [|intros _].
  { destruct m; [apply hoare_mark_stopping; auto with stable|apply hoare_ret; auto with stable]. }
  eapply (hoare_bind _ _ _ (λ sender x, registered_alive x ∧ unparked x ∧
    match sender with Some i => known i x | None => True end)); [|intros sender].
  { apply hoare_take_sender; [auto with stable|auto 10 with stable|]. intros x y Hx Hr Hm Hy Hu.
    split_and!; [by apply (stable_idle x)|done|]. destruct (sender_of x) as [i|] eqn:E; [|done].
    destruct (sl_key x Hx i E) as (key & Hs & _). apply (stable_known i x y Hm Hx). by exists key. }
  set (K := λ x, match sender with Some i => known i x | None => True end).
  assert (stable K) as HK by (unfold K; auto with stable).
  eapply (hoare_bind _ _ _ (λ handle x, (unhandled x ∧ (unparked x ∧ K x) ∧ vacant x) ∧
     match handle with Some i => only i x | None => quiet x end)); [|intros [i|]].
  - unfold take_handle.
    eapply (hoare_bind _ _ _ (λ _ x, registered_alive x ∧ unparked x ∧ K x)); [|intros _].
    { apply hoare_take_sender; [auto with stable..|]. intros x y Hx (Hr & _ & Hk) Hm Hy Hu.
      split_and!; [by apply (stable_idle x)|done|by apply (HK x)]. }
    eapply (hoare_bind _ _ _ (λ _ x, (registered_alive x ∧ unparked x ∧ K x) ∧ vacant x));
      [apply hoare_remove_session; auto with stable|intros _].
    eapply hoare_conseq; [apply (hoare_remove_handle (λ x, (unparked x ∧ K x) ∧ vacant x))|..].
    + auto 10 with stable.
    + intros x s ((Hu & Hk) & Hv) Es Ee. split_and!.
      * unfold unparked, sender_of. simpl. by rewrite Es.
      * unfold K in *. destruct sender; [|done]. exact Hk.
      * unfold vacant, entry_of. simpl. by rewrite Ee.
    + naive_solver.
    + naive_solver.
  - eapply (hoare_bind _ _ _ (λ _ x, quiet x ∧ unparked x ∧ unhandled x)).
    + eapply hoare_conseq; [apply (hoare_join i (λ x, unparked x ∧ unhandled x)); auto with stable|..];
        naive_solver.
    + intros r. apply hoare_ret; [auto 10 with stable|]. intros x _ H.
      destruct r; [apply quiet_idle, H|exact H].
  - destruct sender as [i|].
    + eapply (hoare_bind _ _ _ (λ _, registered_alive)); [|intros _; apply hoare_ret; auto with stable].
      intros x Hx ((Hu & (Hs & Hk) & Hv) & Hq). unfold K in Hk. destruct Hk as [key Hk].
      apply (hoare_store_sender i key); [done|]. split_and!; [|done| |by apply quiet_idle].
      * intros j Hj. by destruct (Hq j).
      * intros m' Hm. unfold vacant in Hv. congruence.
    + apply hoare_ret; [auto 10 with stable|]. unfold cleared. naive_solver.
Qed.
Lemma hoare_registered :
  hoare registered_alive (registered direction)
    (λ busy x, if busy then registered_alive x else cleared x).
Proof.
  unfold registered.
  eapply (hoare_bind _ _ _ (λ _, registered_alive)); [apply hoare_keep; auto with stable|intros [m|]].
  { cbn [is_Some_b]. apply hoare_ret; auto with stable. }
  cbn [is_Some_b]. eapply (hoare_bind _ _ _ (λ parked x, registered_alive x ∧ (parked = false → unparked x))).
  - apply hoare_read; [done|auto with stable|intros []|].
    + intros x y Hm Hx [Hr _]. split; [by apply (stable_idle x)|done].
    + intros x y Hm Hx [Hr Hu]. split; [by apply (stable_idle x)|]. intros _. apply (stable_unparked x); auto.
    + intros x Hx Hr. split; [done|]. unfold has_sender, unparked, sender_of. simpl. by destruct (_ !! _).
  - intros [|].
    + apply hoare_ret; [|naive_solver]. intros x y Hm Hx [Hr _]. split; [by apply (stable_idle x)|done].
    + eapply hoare_conseq; [apply (hoare_read (has_handle direction)
        (λ x, registered_alive x ∧ unparked x) (λ (busy : bool) x, if busy then registered_alive x else cleared x))|naive_solver|done].
      * done.
      * auto with stable.
      * auto 10 with stable.
      * intros x Hx [Hr Hu]. unfold has_handle. simpl.
        destruct (os_handles (sh_store x) !! direction) eqn:E; simpl; [done|].
        split_and!; [|done|done]. intros i Hi. apply Hr in Hi. unfold handle_of in Hi. congruence.
Qed.
Lemma hoare_retire_registered reason :
  hoare registered_alive (retire_registered direction reason)
    (λ r x, match r with inl _ => registered_alive x | inr _ => cleared x end).
Proof.
  eapply hoare_bind; [apply hoare_registered|]. intros [|]; [apply hoare_retire|].
  apply hoare_ret; auto with stable.
Qed.
Lemma hoare_await P turns generation i :
  stable P → hoare P (await_readiness direction turns generation i) (λ _, P).
Proof.
  intros HP. induction turns as [|turns IH]; cbn [await_readiness].
  all: eapply (hoare_bind _ _ _ (λ _, P)); [by apply hoare_keep|intros current];
       destruct (negb current); [by apply hoare_ret|].
  - by apply hoare_ret.
  - eapply (hoare_bind _ _ _ (λ _, P)).
    + eapply (hoare_step _ _ _ _ (λ _, P)); [done| |intros b; by apply hoare_ret].
      intros x b y Hx H [= _ <-]. by split; [split; [|intros j key]|].
    + intros []; [by apply hoare_ret..|done].
Qed.
Lemma hoare_fail_start {A} reason error (Q : fallible A → Shared → Prop) :
  (∀ x, registered_alive x → Q (inl error) x) →
  hoare registered_alive (fail_start direction reason error) Q.
Proof.
  intros HQ. eapply hoare_bind; [apply hoare_retire|]. intros r.
  apply hoare_ret; [auto with stable|]. intros x _ H. apply HQ. destruct r; [done|]. apply quiet_idle, H.
Qed.

(** A sender a start returned: its worker alone may be alive, was started for the
    key, and the route's session, if any, is of that key. *)
Definition owns (i : nat) (key : SessionReuseKey) (x : Shared) : Prop :=
  registered_alive x ∧ (only i x ∧ serves x i key) ∧ entry_for key x.
Lemma stable_owns i key : stable (owns i key).
Proof. unfold owns. auto 10 with stable. Qed.
#[local] Hint Resolve stable_owns : stable.
Definition started (key : SessionReuseKey) (r : fallible (nat * Z)) (x : Shared) : Prop :=
  match r with inl _ => registered_alive x | inr (i, _) => owns i key x end.
Lemma owns_idle i key x : owns i key x → registered_alive x.
Proof. by intros []. Qed.
Lemma hoare_await_started turns generation i key :
  hoare (owns i key)
    (let@ ready := await_readiness direction turns generation i in
     match ready with
     | Some (ReadyGeneration g) =>
         if g =? generation then Ret (inr (i, generation))
         else fail_start direction "readiness_generation_mismatch" NotReady
     | Some ReadinessError => fail_start direction "readiness_failed" NotReady
     | Some _ => fail_start direction "readiness_channel_disconnected" NotReady
     | None =>
         let@ _ := section (mark_stopping direction generation "readiness_timeout") in
         fail_start direction "readiness_timeout" NotReady
     end) (started key).
Proof.
  assert (∀ reason, hoare (owns i key) (fail_start direction reason NotReady) (started key)) as Hfail.
  { intros reason. eapply hoare_conseq; [by apply (hoare_fail_start _ _ (started key))|
      intros x _; apply owns_idle|done]. }
  eapply hoare_bind; [apply hoare_await; auto with stable|intros [[g| | |]|]]; try apply Hfail.
  - destruct (g =? generation); [|apply Hfail]. apply hoare_ret; auto with stable.
  - eapply (hoare_bind _ _ _ (λ _, owns i key)); [apply hoare_mark_stopping; auto with stable|intros _; apply Hfail].
Qed.
Lemma hoare_start preconnect key :
  hoare registered_alive (start_or_reuse_omni_session direction preconnect key) (started key).
Proof.
  unfold start_or_reuse_omni_session. apply hoare_ask. intros [|]; [|apply hoare_ret; auto with stable].
  cbn [negb pbind]. eapply hoare_bind; [apply hoare_take_matching_sender|intros [i|]].
  { eapply (hoare_bind _ _ _ (λ _, owns i key)).
    - apply hoare_keep; [done|]. apply stable_owns.
    - intros g. apply hoare_ret; auto with stable. }
  eapply hoare_bind; [eapply hoare_conseq; [apply hoare_retire_registered|naive_solver|done]|intros [e|b]].
  { apply hoare_ret; auto with stable. }
  eapply (hoare_bind _ _ _ (λ _, cleared)); [apply hoare_next_generation; auto with stable|intros generation].
  eapply hoare_bind; [apply hoare_insert_session|intros [] ].
  eapply hoare_bind; [apply (hoare_spawn _ _ (entry_for key)); [auto with stable|done]|intros [i|]];
    [|apply hoare_ret; auto with stable].
  eapply (hoare_conseq _ (λ x, (only i x ∧ unhandled x) ∧ serves x i key ∧ entry_for key x));
    [|naive_solver|by intros a x _ H].
  eapply (hoare_bind _ _ _ (λ _ x, (only i x ∧ unhandled x) ∧ serves x i key ∧ entry_for key x)).
  { apply hoare_keep; auto 10 with stable. }
  intros current. destruct (negb current).
  - eapply hoare_bind.
    + eapply hoare_conseq; [apply (hoare_join i (λ _, True)); auto with stable|naive_solver|by intros a x _ H].
    + intros r. apply hoare_ret; [auto with stable|]. intros x _ [Hq _]. by apply quiet_idle.
  - eapply (hoare_bind _ _ _ (λ r x, (r = inr tt) ∧ owns i key x)).
    + eapply hoare_bind.
      * apply (hoare_store_handle i (λ x, serves x i key ∧ entry_for key x)); [auto with stable|].
        intros x s [Hw He] _ Es. split; [exact Hw|]. unfold entry_for, entry_of. simpl. by rewrite Es.
      * intros [previous|]; [intros x _ [? _]; done|]. apply hoare_ret; [auto 10 with stable|].
        intros x _ (_ & Hr & Ho & Hs & He). unfold owns. split_and!; [done..].
    + intros [e|[]]; [by intros x _ [? _]|].
      apply (hoare_conseq _ (owns i key) _ _ (started key)); [|by intros x _ [_ ?]|done].
      destruct preconnect as [turns|]; [apply hoare_await_started|]. apply hoare_ret; auto with stable.
Qed.
Lemma hoare_preconnect turns key :
  hoare registered_alive (preconnect_omni_realtime_inner direction turns key) (λ _, registered_alive).
Proof.
  unfold preconnect_omni_realtime_inner.
  eapply (hoare_bind _ _ _ (λ _, registered_alive)); [apply hoare_keep; auto with stable|intros ready].
  eapply (hoare_bind _ _ _ (λ _, registered_alive)).
  { destruct (is_Some_b ready); [apply hoare_keep; auto with stable|apply hoare_ret; auto with stable]. }
  intros [|]; [apply hoare_ret; auto with stable|].
  eapply hoare_bind; [apply hoare_retire_registered|intros [e|b]]; [apply hoare_ret; auto with stable|].
  eapply hoare_bind; [eapply hoare_conseq; [apply hoare_start|intros x _ [Hq _]; by apply quiet_idle|done]|].
  intros [e|[i generation]]; [apply hoare_ret; auto with stable|].
  eapply (hoare_bind _ _ _ (λ _, owns i key)); [apply hoare_keep; auto with stable|intros current].
  destruct (negb current).
  - apply hoare_ret; [auto with stable|]. intros x _. apply owns_idle.
  - eapply (hoare_bind _ _ _ (λ _, registered_alive)); [|intros _; apply hoare_ret; auto with stable].
    eapply hoare_conseq; [apply (hoare_store_sender i key)|unfold owns; naive_solver|done].
Qed.
Lemma hoare_other provider :
  hoare registered_alive (start_or_reuse_other_session direction provider) (λ _, registered_alive).
Proof.
  unfold start_or_reuse_other_session.
  eapply (hoare_bind _ _ _ (λ _, registered_alive)).
  { apply hoare_take_sender; [auto with stable..|]. intros x y Hx Hr Hm _ _. by apply (stable_idle x). }
  intros [sender|]; [apply hoare_ret; auto with stable|].
  eapply (hoare_bind _ _ _ (λ _, registered_alive)).
  { destruct provider; [apply hoare_ask; intros b; apply hoare_ret; auto with stable..|].
    apply hoare_ret; auto with stable. }
  intros [|]; [|apply hoare_ret; auto with stable]. cbn [negb].
  eapply hoare_bind; [apply hoare_retire|intros [e|b]]; [apply hoare_ret; auto with stable|].
  eapply hoare_bind.
  { eapply hoare_conseq; [apply (hoare_spawn 0 None (λ _, True)); auto with stable|by intros x _ ?|].
    by intros started x _ H; exact H. }
  intros [i|]; [|apply hoare_ret; auto with stable].
  eapply (hoare_bind _ _ _ (λ r x, r = inr tt ∧ registered_alive x)).
  - eapply hoare_bind.
    + eapply hoare_conseq; [apply (hoare_store_handle i (λ _, True)); auto with stable|naive_solver|].
      by intros previous x _ H; exact H.
    + intros [previous|]; [intros x _ [? _]; done|]. apply hoare_ret; [auto 10 with stable|]. naive_solver.
  - intros [e|[]]; [by intros x _ [? _]|]. apply hoare_ret; [auto with stable|naive_solver].
Qed.
(** What a call leaves behind. *)
Definition call_result (c : call) (r : fallible (option nat)) (x : Shared) : Prop :=
  registered_alive x ∧
  match c, r with CallRoute key, inr (Some i) => serves x i key | _, _ => True end.
Lemma stable_call_result c r : stable (call_result c r).
Proof. unfold call_result. destruct c, r as [|[]]; auto with stable. Qed.
Lemma hoare_program c : hoare registered_alive (program direction c) (call_result c).
Proof.
  destruct c as [turns key|key|provider|reason|]; cbn [program].
  - eapply hoare_conseq; [apply hoare_preconnect|done|]. intros r x _ H. by destruct r as [|[]].
  - eapply hoare_bind; [apply hoare_start|]. intros [e|[i g]].
    + apply hoare_ret; [apply stable_idle|]. by intros x _ H.
    + apply hoare_ret; [apply (stable_owns i key)|]. intros x _ (? & (_ & ?) & _). by split.
  - eapply hoare_bind; [apply hoare_other|]. intros r. apply hoare_ret; [auto with stable|].
    intros x _ H. by split; [|destruct r].
  - eapply hoare_bind; [apply hoare_retire|]. intros r. apply hoare_ret; [destruct r; auto with stable|].
    intros x _ H. split; [|by destruct r]. destruct r; [done|]. apply quiet_idle, H.
  - unfold stop_route, take_handle.
    eapply (hoare_bind _ _ _ (λ h x, (unhandled x ∧ True) ∧ match h with Some i => only i x | None => quiet x end)).
    { eapply (hoare_bind _ _ _ (λ _, registered_alive)).
      { apply hoare_take_sender; [auto with stable..|]. intros x y Hx Hr Hm Hy _. by apply (stable_idle x). }
      intros _. eapply (hoare_bind _ _ _ (λ _ x, registered_alive x ∧ True)).
      { eapply hoare_conseq; [apply hoare_remove_session; apply stable_idle|done|]. by intros _ x _ [? _]. }
      intros _. apply (hoare_remove_handle (λ _, True)); [auto with stable|done]. }
    intros [i|].
    + eapply hoare_bind.
      * eapply hoare_conseq; [apply (hoare_join i (λ _, True)); auto with stable|naive_solver|by intros a x _ H].
      * intros r. apply hoare_ret; [auto with stable|]. intros x _ [Hq _].
        split; [by apply quiet_idle|by destruct r].
    + apply hoare_ret; [auto 10 with stable|]. intros x _ [_ Hq]. split; [by apply quiet_idle|done].
Qed.

(** ** The interleavings *)
Abbreviation step := (lifecycle_step direction).
Record lifecycle_inv (s : Lifecycle) : Prop := {
  li_slots : slots_ok (lf_shared s);
  li_running : match lf_running s with
               | None => registered_alive (lf_shared s)
               | Some (c, p) => wp p (call_result c) (lf_shared s)
               end;
  li_returned : ∀ key i, (CallRoute key, inr (Some i)) ∈ lf_returned s → serves (lf_shared s) i key
}.
Lemma moves_keep x x' : moves x x' → keeps_workers x x'.
Proof.
  intros Hm i key (w & Hw & Hk). destruct (mv_worker x x' Hm i w Hw) as (w' & Hw' & E).
  exists w'. split; [done|congruence].
Qed.
Lemma lifecycle_step_inv s l s' : lifecycle_inv s → step s l s' → lifecycle_inv s'.
Proof.
  destruct s as [x running returned]. intros [Hx Hr Hret] H. unfold lifecycle_step in H.
  simpl in Hx, Hr, Hret. destruct l as [c|answer|l i].
  - simpl in H. destruct running; [done|]. injection H as <-. split; simpl; [done| |done].
    by apply hoare_program.
  - simpl in H. destruct running as [[c [a|B f k|k]]|]; simpl in Hr; try done.
    + injection H as <-. destruct (Hr x) as [Hidle Hc]; [done..|]. split; simpl; [done|done|].
      intros key i Hin. apply elem_of_app in Hin as [Hin|Hin]; [by apply Hret|].
      apply list_elem_of_singleton in Hin. by injection Hin as <- <-.
    + destruct (f x) as [[b y]|] eqn:E; [|done]. injection H as <-.
      destruct (Hr x (reflexivity x) Hx b y E) as [[Hy Hk] Hw]. split; simpl; [done|done|].
      intros key i Hin. by apply Hk, Hret.
    + injection H as <-. split; simpl; [done|apply Hr|done].
  - cbn [exec_lifecycle] in H. destruct (OmniSessions.exec_worker _ _ _ _) as [y|] eqn:E; [|done].
    injection H as <-. apply exec_worker_moves in E. split; simpl; [by apply E| |].
    + destruct running as [[c p]|]; [by eapply wp_moves|by apply E].
    + intros key j Hin. by apply (moves_keep x y E), Hret.
Qed.
#[local] Instance lifecycle_invariant : Invariant (eq lifecycle_start) step lifecycle_inv.
Proof.
  split; [|intros s l s' Hi H; by eapply lifecycle_step_inv]. intros s <-. split; simpl.
  - split; [by intros i j (w & Hw & _)|by intros i j (w & Hw & _)..|]. intros i Hi.
    unfold sender_of in Hi. simpl in Hi. by rewrite lookup_empty in Hi.
  - by intros i (w & Hw & _).
  - intros key i Hin. by apply elem_of_nil in Hin.
Qed.

(** C34: One worker owns the route. In every interleaving of starts, parks, reuses,
    retirements and stops under the pipeline lock, of whatever provider, with workers
    that become ready, fail, exit or die at any moment, at most one worker of the route is alive; while
    the lock is free that worker's handle is registered, so that the next call can
    join it; a parked sender or a registered handle belongs to no worker but the
    living one; and so a worker that ends removes nothing that belongs to a
    successor, although it clears the store in three sections. *)
Theorem one_worker_owns_the_route s :
  lifecycle_reachable direction s →
  let x := lf_shared s in
  (∀ i j, alive x i → alive x j → i = j)
  ∧ (lf_running s = None → ∀ i, alive x i → os_handles (sh_store x) !! direction = Some i)
  ∧ (∀ i j, alive x i → os_handles (sh_store x) !! direction = Some j → j = i)
  ∧ (∀ i j, alive x i → os_senders (sh_store x) !! direction = Some j → j = i)
  ∧ ∀ l i x', exec_worker l i x = Some x' →
      (∀ j, os_handles (sh_store x) !! direction = Some j → j ≠ i →
         os_handles (sh_store x') !! direction = Some j)
      ∧ ∀ j, os_senders (sh_store x) !! direction = Some j → j ≠ i →
         os_senders (sh_store x') !! direction = Some j.
Proof.
  intros Hr x. destruct (reachable_inv _ step lifecycle_inv s Hr) as [[Ho Hh Hs _] Hi _].
  split_and!; [done| |done|done|].
  - intros E. by rewrite E in Hi.
  - intros l i x' E. pose proof (exec_worker_alive l i x x' E) as Hlive.
    split; intros j Hj Hne; exfalso; apply Hne; by eauto.
Qed.
(** C35: Omni sessions are reused for what they were started for. In every reachable
    state, an Omni route that was given a sender for a key was given the sender of a
    worker started for exactly that key, new or parked before: model, languages,
    audio mode, subtitle translation, output mode and contract; a parked sender is an
    Omni worker's, and the session registered beside it is of that worker's key. The
    routes of the other providers compare nothing: they take what is parked. *)
Theorem reused_session_has_the_key s :
  lifecycle_reachable direction s →
  (∀ key i, (CallRoute key, inr (Some i)) ∈ lf_returned s →
     ∃ w, sh_workers (lf_shared s) !! i = Some w ∧ wk_key w = Some key)
  ∧ (∀ i, os_senders (sh_store (lf_shared s)) !! direction = Some i →
       ∃ w key, sh_workers (lf_shared s) !! i = Some w ∧ wk_key w = Some key
         ∧ ∀ m, os_sessions (sh_store (lf_shared s)) !! direction = Some m → sm_key m = key).
Proof.
  intros Hr. destruct (reachable_inv _ step lifecycle_inv s Hr) as [Hx _ Hret].
  split; [exact Hret|]. intros i Hi. destruct (sl_key _ Hx i Hi) as (key & (w & Hw & Hk) & Hm).
  by exists w, key.
Qed.

(** ** An orphan sender *)
Definition orphan (i : nat) (x : Shared) : Prop :=
  sender_of x = Some i ∧ handle_of x = None ∧ entry_of x = None.
Lemma retire_orphan reason i x : orphan i x →
  ∃ x', alone (retire_omni_session direction reason) x = Some (inl OrphanSender, x')
    ∧ orphan i x' ∧ sh_workers x' = sh_workers x.
Proof.
  destruct x as [[h s e g] ws]. unfold orphan, sender_of, handle_of, entry_of. simpl. intros (Hs & Hh & He).
  eexists. split.
  - unfold retire_omni_session, take_handle. cbn. rewrite He. cbn. rewrite Hs. cbn. rewrite Hh. reflexivity.
  - cbn. rewrite lookup_insert_eq, !lookup_delete_eq. done.
Qed.
Lemma alone_bind {A B} (p : prog A) (k : A → prog B) : ∀ x,
  alone (pbind p k) x = match alone p x with Some (a, y) => alone (k a) y | None => None end.
Proof.
  induction p as [a|C f k' IH|k' IH]; intros x; simpl; [done| |by rewrite IH].
  destruct (f x) as [[b y]|]; [apply IH|done].
Qed.
Lemma retire_registered_orphan reason i x : orphan i x →
  ∃ x', alone (retire_registered direction reason) x = Some (inl OrphanSender, x')
    ∧ orphan i x' ∧ sh_workers x' = sh_workers x.
Proof.
  intros Ho. destruct (retire_orphan reason i x Ho) as (x' & E & H). exists x'. split; [|done].
  unfold retire_registered. rewrite alone_bind.
  assert (alone (registered direction) x = Some (true, x)) as ->; [|done].
  destruct x as [[h s e g] ws], Ho as (Hs & _ & He). unfold sender_of, entry_of in *. simpl in *.
  unfold registered. cbn. rewrite He. cbn. by rewrite Hs.
Qed.
Lemma start_orphan preconnect key i x : orphan i x →
  ∃ x', alone (start_or_reuse_omni_session direction preconnect key) x = Some (inl OrphanSender, x')
    ∧ orphan i x' ∧ sh_workers x' = sh_workers x.
Proof.
  intros Ho. destruct (retire_registered_orphan "preconnect_not_reusable" i x Ho) as (x' & E & H).
  exists x'. split; [|done]. unfold start_or_reuse_omni_session.
  rewrite alone_bind. cbn [alone mode_accepted negb]. rewrite alone_bind.
  assert (alone (take_matching_sender direction key) x = Some (None, x)) as ->; [|by rewrite alone_bind, E].
  destruct x as [[h s e g] ws], Ho as (_ & _ & He). unfold entry_of in *. simpl in *.
  unfold take_matching_sender. cbn. by rewrite He.
Qed.
Definition starts_or_retires (c : call) : bool :=
  match c with CallPreconnect _ _ | CallRoute _ | CallRetire _ => true | _ => false end.
(** C36: An orphan sender blocks the route. When a sender is parked without a handle
    and without a session, and no worker is alive, then no worker can move, and
    every preconnect, every start of an Omni route for whatever key and every
    retirement fails with the same error and leaves the route as it was. Only a
    stop and the start of another provider remove the sender; and that start
    succeeds, with the orphan sender, while still no worker is alive. *)
Theorem orphan_sender_blocks_the_route c i x :
  orphan i x → quiet x → starts_or_retires c = true →
  (∀ l j, exec_worker l j x = None)
  ∧ (∃ x', alone (program direction c) x = Some (inl OrphanSender, x')
      ∧ orphan i x' ∧ quiet x')
  ∧ ∀ provider, ∃ x', alone (program direction (CallOtherRoute provider)) x = Some (inr (Some i), x')
      ∧ unparked x' ∧ quiet x'.
Proof.
  intros Ho Hq Hc. split_and!.
  - intros l j. destruct (exec_worker l j x) as [y|] eqn:E; [|done].
    destruct (Hq j). by eapply exec_worker_alive.
  - assert (∃ x', alone (program direction c) x = Some (inl OrphanSender, x')
      ∧ orphan i x' ∧ sh_workers x' = sh_workers x) as (x' & E & Ho' & Hw).
    2:{ exists x'. split_and!; [done|done|]. intros j (w & Hj & Hp). apply (Hq j). exists w. by rewrite <-Hw. }
    destruct c as [turns key|key|provider|reason|]; try done; cbn [program].
    + destruct (retire_registered_orphan "preconnect_config_changed" i x Ho) as (x' & E & H).
      exists x'. split; [|done]. unfold preconnect_omni_realtime_inner. rewrite alone_bind.
      assert (alone (section (matching_ready direction key)) x = Some (None, x)) as ->.
      { destruct x as [[h s e g] ws], Ho as (_ & _ & He). unfold entry_of in He. cbn in *. by rewrite He. }
      cbn [is_Some_b]. rewrite alone_bind. cbn [alone]. by rewrite alone_bind, E.
    + destruct (start_orphan None key i x Ho) as (x' & E & H). exists x'. split; [|done].
      by rewrite alone_bind, E.
    + destruct (retire_orphan reason i x Ho) as (x' & E & H). exists x'. split; [|done].
      by rewrite alone_bind, E.
  - intros provider. destruct x as [[h s e g] ws], Ho as (Hs & _ & _). unfold sender_of in Hs. simpl in Hs.
    eexists. split.
    + cbn [program]. unfold start_or_reuse_other_session. cbn. rewrite Hs. reflexivity.
    + split; [|exact Hq]. unfold unparked, sender_of. cbn. by rewrite lookup_delete_eq.
Qed.
End Route.

(** ** Runs *)
Module SessionsDemo.
Definition key (model : string) : SessionReuseKey := mk_reuse_key model "en" "zh" "server_vad" false TextAndAudio 7.
Fixpoint run (ls : list lifecycle_label) (s : Lifecycle) : option Lifecycle :=
  match ls with
  | [] => Some s
  | l :: ls => match exec_lifecycle "inbound" l s with Some s => run ls s | None => None end
  end.
Definition after (ls : list lifecycle_label) : Lifecycle := default lifecycle_start (run ls lifecycle_start).
Lemma run_reach ls : ∀ s s', lifecycle_reachable "inbound" s → run ls s = Some s' →
  lifecycle_reachable "inbound" s'.
Proof.
  induction ls as [|l ls IH]; simpl; intros s s' Hs Hrun; [by injection Hrun as <-|].
  destruct (exec_lifecycle "inbound" l s) as [s1|] eqn:E; [|done]. eapply IH; [|exact Hrun]. by eapply reach_step.
Qed.
Lemma after_reach ls : is_Some (run ls lifecycle_start) → lifecycle_reachable "inbound" (after ls).
Proof. intros [s Hs]. unfold after. rewrite Hs. eapply run_reach; [by apply reach_init|exact Hs]. Qed.
Definition control (n : nat) : list lifecycle_label := repeat (LControl true) n.
(** A preconnect whose worker becomes ready; a route reuses it. *)
Definition parked : list lifecycle_label :=
  LCall (CallPreconnect 9 (key "m")) :: control 13
    ++ [LWorker WMarkReady 0; LWorker WSendReady 0] ++ control 7.
Definition reused : list lifecycle_label := parked ++ LCall (CallRoute (key "m")) :: control 5.
(** The worker fails and clears after the last check of its generation. *)
Definition orphaned : list lifecycle_label :=
  take 21 parked ++ [LWorker (WFail "socket") 0; LWorker WReport 0; LWorker WClearSession 0;
    LWorker WClearSender 0; LWorker WClearHandle 0] ++ control 2.
End SessionsDemo.
Lemma one_worker_owns_the_route_witness :
  let s := SessionsDemo.after SessionsDemo.parked in
  alive (lf_shared s) 0%nat ∧ lf_running s = None
  ∧ os_handles (sh_store (lf_shared s)) !! "inbound" = Some 0%nat
  ∧ os_senders (sh_store (lf_shared s)) !! "inbound" = Some 0%nat.
Proof.
  destruct (one_worker_owns_the_route "inbound" (SessionsDemo.after SessionsDemo.parked)) as (_ & Hi & _).
  { apply SessionsDemo.after_reach. vm_compute. by eexists. }
  assert (alive (lf_shared (SessionsDemo.after SessionsDemo.parked)) 0%nat) as Ha
    by (eexists; vm_compute; done).
  split_and!; [exact Ha|by vm_compute| |by vm_compute]. apply Hi; [by vm_compute|exact Ha].
Defined.
Lemma reused_session_has_the_key_witness :
  let s := SessionsDemo.after SessionsDemo.reused in
  lf_returned s = [(CallPreconnect 9 (SessionsDemo.key "m"), inr None);
                   (CallRoute (SessionsDemo.key "m"), inr (Some 0%nat))]
  ∧ ∃ w, sh_workers (lf_shared s) !! 0%nat = Some w ∧ wk_key w = Some (SessionsDemo.key "m").
Proof.
  destruct (reused_session_has_the_key "inbound" (SessionsDemo.after SessionsDemo.reused)) as [Hr _].
  { apply SessionsDemo.after_reach. vm_compute. by eexists. }
  split; [by vm_compute|]. apply Hr. vm_compute. right. left.
Defined.
(** The orphan arises in an interleaving of a preconnect with a worker that fails. *)
Lemma orphan_sender_blocks_the_route_witness :
  let s := SessionsDemo.after SessionsDemo.orphaned in
  lf_returned s = [(CallPreconnect 9 (SessionsDemo.key "m"), inr None)] ∧ lf_running s = None
  ∧ (∃ x', alone (program "inbound" (CallRoute (SessionsDemo.key "other"))) (lf_shared s)
           = Some (inl OrphanSender, x'))
  ∧ ∃ x', alone (program "inbound" (CallOtherRoute OpenAiRealtime)) (lf_shared s) = Some (inr (Some 0%nat), x')
    ∧ quiet x'.
Proof.
  destruct (orphan_sender_blocks_the_route "inbound" (CallRoute (SessionsDemo.key "other")) 0%nat
    (lf_shared (SessionsDemo.after SessionsDemo.orphaned))) as (_ & (x' & E & _) & Hother).
  - by vm_compute.
  - intros i (w & Hw & Hp). destruct i as [|i]; vm_compute in Hw; [by injection Hw as <-|done].
  - done.
  - destruct (Hother OpenAiRealtime) as (y & Ey & _ & Hy).
    split; [by vm_compute|]. split; [by vm_compute|]. split; [exists x'; exact E|]. exists y. by split.
Defined.
(** An OpenAI route after a preconnect is given the sender of the Omni worker, which
    stays the only worker of the route. *)
Lemma other_provider_is_given_the_omni_worker :
  let s := SessionsDemo.after SessionsDemo.parked in
  ∃ x', alone (program "inbound" (CallOtherRoute OpenAiRealtime)) (lf_shared s) = Some (inr (Some 0%nat), x')
    ∧ sh_workers x' = sh_workers (lf_shared s)
    ∧ ∃ w, sh_workers x' !! 0%nat = Some w ∧ wk_key w = Some (SessionsDemo.key "m").
Proof. eexists. split; [vm_compute; reflexivity|]. split; [by vm_compute|]. eexists. by vm_compute. Qed.
