(* ===== verification/SpeakerPcm.v ===== *)
(** * Translated PCM at the speaker's rate

    Models the PCM path of one speaker: [speaker_pcm_48k_stereo] of
    [audio/speech/output.rs] with [normalize_to_target_stereo] of
    [audio/echo_cancel.rs], which convert a whole cue at once, and
    [StreamPcmQueue] of [audio/speech/output/native_streaming.rs], which converts
    the deltas of a response while they arrive.

    An [f32] is the Standard Library's executable IEEE 754 number with 24 bits of
    mantissa and 128 as its largest exponent: every operation below rounds as the
    machine's does. Only the payload of a NaN is not represented. A decimal
    literal is the rounded quotient of two integers that are exact. An [i16]
    sample is a [Z] in range. *)
From Stdlib Require Import Floats.SpecFloat.
From S2P Require Import Prelude.

(** ** Single-precision numbers *)
Definition f32 : Type := spec_float.
#[export] Instance f32_eq_dec : EqDecision f32.
Proof. unfold f32. solve_decision. Defined.
(** [z as f32]. *)
Definition f32_of_Z (z : Z) : f32 := binary_normalize 24 128 z 0 false.
Definition f32_add : f32 → f32 → f32 := SFadd 24 128.
Definition f32_sub : f32 → f32 → f32 := SFsub 24 128.
Definition f32_mul : f32 → f32 → f32 := SFmul 24 128.
Definition f32_div : f32 → f32 → f32 := SFdiv 24 128.
Definition f32_ratio (numerator denominator : Z) : f32 :=
  f32_div (f32_of_Z numerator) (f32_of_Z denominator).
Definition f32_zero : f32 := S754_zero false.
Definition f32_half : f32 := f32_ratio 1 2.
(** [x.floor() as usize]: truncated towards minus infinity, then saturated. *)
Definition f32_floor_usize (x : f32) : Z :=
  match x with
  | S754_finite false m e => Z.min (Z.shiftl (Zpos m) e) u64_max
  | S754_infinity false => u64_max
  | _ => 0
  end.
Definition f32_clamp (x low high : f32) : f32 :=
  let x := if SFltb x low then low else x in
  if SFltb high x then high else x.
(** [a.to_bits() != b.to_bits()]. *)
Definition f32_differs (a b : f32) : bool := negb (bool_decide (a = b)).

(** ** A whole cue *)
Definition TARGET_SAMPLE_RATE_HZ : Z := 48000.
Definition TARGET_CHANNEL_COUNT : Z := 2.
Definition i16_max : Z := 32767.
(** [*sample as f32 / i16::MAX as f32]. *)
Definition i16_to_f32 (sample : Z) : f32 := f32_div (f32_of_Z sample) (f32_of_Z i16_max).
Definition lerp (left right fraction : f32) : f32 :=
  f32_add left (f32_mul (f32_sub right left) fraction).
(** [samples[index]]. *)
Definition sample_at (samples : list f32) (index : Z) : outcome f32 :=
  match samples !! Z.to_nat index with
  | Some sample => Ok sample
  | None => Err (Panic "index out of bounds")
  end.
Definition output_frame (samples : list f32) (channels input_frames : Z) (ratio : f32)
    (output_frame : Z) : outcome (list f32) :=
  let source_position := f32_mul (f32_of_Z output_frame) ratio in
  let left_index := f32_floor_usize source_position in
  let right_index := Z.min (left_index + 1) (saturating_sub input_frames 1) in
  let fraction := f32_sub source_position (f32_of_Z left_index) in
  let left_base := Z.min left_index (input_frames - 1) * channels in
  let right_base := right_index * channels in
  let? left := sample_at samples left_base in
  let? right := sample_at samples right_base in
  if channels =? 1 then
    let sample := lerp left right fraction in Ok [sample; sample]
  else
    let? left' := sample_at samples (left_base + 1) in
    let? right' := sample_at samples (right_base + 1) in
    Ok [lerp left right fraction; lerp left' right' fraction].
(** The loop over the output frames from [from] on, [count] of them. *)
Fixpoint output_frames (render : Z → outcome (list f32)) (from : Z) (count : nat) : outcome (list f32) :=
  match count with
  | O => Ok []
  | S count =>
      let? frame := render from in
      let? rest := output_frames render (from + 1) count in
      Ok (frame ++ rest)
  end.
Definition normalize_to_target_stereo (samples : list f32) (sample_rate_hz channel_count : Z)
    : outcome (list f32) :=
  if bool_decide (samples = []) || (sample_rate_hz =? 0) || (channel_count =? 0) then Ok []
  else
    let input_frames := Z.of_nat (length samples) / channel_count in
    if input_frames =? 0 then Ok []
    else
      let frames := Z.max (input_frames * TARGET_SAMPLE_RATE_HZ / sample_rate_hz) 1 in
      let ratio := f32_ratio sample_rate_hz TARGET_SAMPLE_RATE_HZ in
      output_frames (output_frame samples channel_count input_frames ratio) 0 (Z.to_nat frames).
Definition playback_volume (output_level : Z) : f32 := f32_ratio (Z.min output_level 100) 100.
Definition speaker_pcm_48k_stereo (samples : list Z) (sample_rate_hz channel_count output_level : Z)
    : outcome (list f32) :=
  let input := i16_to_f32 <$> samples in
  let volume := playback_volume output_level in
  let? output := normalize_to_target_stereo input sample_rate_hz channel_count in
  Ok ((λ sample, f32_mul sample volume) <$> output).

(** ** The deltas of a response *)
Definition STARTUP_FRAMES : Z := 48000 * 800 / 1000.
(** Durations are nanoseconds. *)
Definition STARTUP_MAX_WAIT : Z := 1000 * 1000000.
Definition MAX_BUFFERED_FRAMES : Z := 48000 * 5.
Definition BLOCK_FRAMES : Z := 480.

Record StreamPcmQueue := mk_pcm_queue {
  pq_reference : list f32; pq_previous : option f32; pq_ended : bool;
  pq_accepted_source_frames : Z; pq_submitted_source_frames : Z
}.
#[export] Instance pcm_queue_settable : Settable StreamPcmQueue := λ q,
  mk_pcm_queue (pq_reference q) (pq_previous q) (pq_ended q) (pq_accepted_source_frames q)
    (pq_submitted_source_frames q).
Definition pcm_queue_default : StreamPcmQueue := mk_pcm_queue [] None false 0 0.
Abbreviation Pcm := (M StreamPcmQueue).

Definition buffered_frames (q : StreamPcmQueue) : Z := Z.of_nat (length (pq_reference q)) / 2.
Definition saturating_mul (a b : Z) : Z := Z.min (a * b) u64_max.
Definition can_accept (q : StreamPcmQueue) (source_frames : Z) : bool :=
  negb (pq_ended q)
  && (saturating_add (buffered_frames q) (saturating_mul source_frames 2) <=? MAX_BUFFERED_FRAMES).
(** One pass of [push]'s loop. *)
Definition push_sample (sample : Z) (q : StreamPcmQueue) : StreamPcmQueue :=
  let next := i16_to_f32 sample in
  let frames := match pq_previous q with
                | Some previous =>
                    let interpolated := f32_add previous (f32_mul (f32_sub next previous) f32_half) in
                    [interpolated; interpolated; next; next]
                | None => [next; next]
                end in
  q <| pq_previous := Some next |> <| pq_reference ::= λ l, l ++ frames |>.
Definition push (samples : list Z) : Pcm unit :=
  let* q := gets id in
  if negb (can_accept q (Z.of_nat (length samples)))
  then fail "native desktop stream is ended or exceeds its five-second PCM bound"
  else
    modify (fold_left (λ q sample, push_sample sample q) samples);;;
    modify (λ q, q <| pq_accepted_source_frames ::= λ n, n + Z.of_nat (length samples) |>).
Definition finish_pcm : Pcm unit :=
  let* q := gets id in
  if pq_ended q then fail "duplicate native desktop End"
  else
    match pq_previous q with
    | Some last =>
        modify (λ q, q <| pq_previous := None |> <| pq_reference ::= λ l, l ++ [last; last] |>)
    | None => ret tt
    end;;;
    modify (λ q, q <| pq_ended := true |>).
Definition should_start (q : StreamPcmQueue) (elapsed : Z) : bool :=
  (0 <? buffered_frames q)
  && ((STARTUP_FRAMES / 2 <=? pq_accepted_source_frames q) || (STARTUP_MAX_WAIT <=? elapsed)
      || pq_ended q).
Definition take_reference (max_frames : Z) (allow_partial : bool) : Pcm (list f32) :=
  let* q := gets id in
  let count := Z.min (buffered_frames q) max_frames in
  if (count <? BLOCK_FRAMES) && negb (pq_ended q) && negb allow_partial then ret []
  else
    modify (λ q, q <| pq_reference ::= drop (Z.to_nat (count * 2)) |>);;;
    ret (take (Z.to_nat (count * 2)) (pq_reference q)).

(** *** Any use of the queue
    What was accepted and what was taken out, over any sequence of calls. *)
Inductive pcm_call :=
| CallPush (samples : list Z)
| CallEnd
| CallTake (max_frames : Z) (allow_partial : bool).
Record PcmRun := mk_pcm_run { pr_queue : StreamPcmQueue; pr_accepted : list Z; pr_taken : list f32 }.
Definition pcm_step (call : pcm_call) (r : PcmRun) : PcmRun :=
  let '(mk_pcm_run q accepted taken) := r in
  match call with
  | CallPush samples =>
      let '(result, q) := push samples q in
      mk_pcm_run q (if is_ok result then accepted ++ samples else accepted) taken
  | CallEnd => mk_pcm_run (finish_pcm q).2 accepted taken
  | CallTake max_frames allow_partial =>
      let '(result, q) := take_reference max_frames allow_partial q in
      mk_pcm_run q accepted (match result with Ok frames => taken ++ frames | Err _ => taken end)
  end.
Definition pcm_run (calls : list pcm_call) : PcmRun :=
  fold_left (λ r call, pcm_step call r) calls (mk_pcm_run pcm_queue_default [] []).
