(* ===== verification/SpeakerPcmTheorems.v ===== *)
(** * Streaming conversion is whole-cue conversion

    The arithmetic of [f32] where it is exact, and the upsampled PCM of a
    response: whatever the deltas and the reads in between, the speaker is given
    the samples the whole cue would have been converted to. *)
From Stdlib Require Import Floats.SpecFloat.
From S2P Require Import Prelude SpeakerPcm.

(** ** Where single precision is exact *)
Lemma digits2_pos_size p : digits2_pos p = Pos.size p.
Proof. induction p as [p IH|p IH|]; simpl; by rewrite ?IH. Qed.
Lemma digits_iter_xO p n : digits2_pos (Pos.iter xO p n) = (digits2_pos p + n)%positive.
Proof.
  induction n as [|n IH] using Pos.peano_ind; simpl; [lia|].
  rewrite Pos.iter_succ. simpl. rewrite IH. lia.
Qed.
Lemma iter_xO_Z p n : Z.pos (Pos.iter xO p n) = Z.pos p * 2 ^ Z.pos n.
Proof.
  induction n as [|n IH] using Pos.peano_ind; simpl; [lia|].
  rewrite Pos.iter_succ, Pos2Z.inj_succ, Z.pow_succ_r by lia. lia.
Qed.
Lemma digits_bounds p : 2 ^ (Z.pos (digits2_pos p) - 1) ≤ Z.pos p < 2 ^ Z.pos (digits2_pos p).
Proof.
  induction p as [p IH|p IH|]; cbn [digits2_pos]; [| |cbn; lia];
    rewrite ?Pos2Z.inj_succ;
    replace (Z.succ (Z.pos (digits2_pos p)) - 1) with (Z.succ (Z.pos (digits2_pos p) - 1)) by lia;
    rewrite !Z.pow_succ_r by lia; lia.
Qed.
Lemma digits_unique p d : 0 < d → 2 ^ (d - 1) ≤ Z.pos p < 2 ^ d → Z.pos (digits2_pos p) = d.
Proof.
  intros Hd [H1 H2]. pose proof (digits_bounds p) as [H3 H4].
  assert (d - 1 < Z.pos (digits2_pos p)) by (apply (Z.pow_lt_mono_r_iff 2); lia).
  assert (Z.pos (digits2_pos p) - 1 < d) by (apply (Z.pow_lt_mono_r_iff 2); lia). lia.
Qed.

(** A mantissa of 24 digits at a normal exponent is not rounded. *)
Lemma round_aux_exact s m e : digits2_pos m = 24%positive → -149 ≤ e → e ≤ 104 →
  binary_round_aux 24 128 s (Z.pos m) e loc_Exact = S754_finite s m e.
Proof.
  intros Hm H1 H2.
  assert (shr_fexp 24 128 (Z.pos m) e loc_Exact = (Build_shr_record (Z.pos m) false false, e)) as Hs.
  { unfold shr_fexp, Zdigits2, fexp, emin. rewrite Hm. unfold shr.
    replace (Z.max (24 + e - 24) (3 - 128 - 24) - e) with 0 by lia. done. }
  unfold binary_round_aux. rewrite Hs. cbn [shr_m loc_of_shr_record round_nearest_even].
  rewrite Hs. cbn [shr_m]. destruct (Z.leb_spec e (128 - 24)); [done|lia].
Qed.
(** [normal m e n]: [m * 2 ^ e] is [n * 2 ^ e'] in normal form. *)
Lemma round_exact s p e : Z.pos (digits2_pos p) ≤ 24 → -149 + 24 ≤ e → e ≤ 104 →
  ∃ m, binary_round 24 128 s p e = S754_finite s m (e - (24 - Z.pos (digits2_pos p)))
       ∧ Z.pos m = Z.pos p * 2 ^ (24 - Z.pos (digits2_pos p)) ∧ digits2_pos m = 24%positive.
Proof.
  intros Hd H1 H2. unfold binary_round, fexp, emin, shl_align.
  set (d := digits2_pos p) in *.
  replace (Z.max (Z.pos d + e - 24) (3 - 128 - 24)) with (Z.pos d + e - 24) by lia.
  replace (Z.pos d + e - 24 - e) with (Z.pos d - 24) by lia.
  destruct (Z.pos d - 24) as [|k|k] eqn:E; [|lia|].
  - exists p. rewrite round_aux_exact by (subst d; lia). subst d.
    split_and!; [f_equal; lia| |lia]. replace (24 - _) with 0 by lia. lia.
  - exists (Pos.iter xO p k). rewrite round_aux_exact; [|rewrite digits_iter_xO; fold d; lia|lia|lia].
    rewrite digits_iter_xO, iter_xO_Z. fold d.
    split_and!; [f_equal; lia| |lia]. replace (24 - Z.pos d) with (Z.pos k) by lia. done.
Qed.
Lemma f32_of_pos p : Z.pos (digits2_pos p) ≤ 24 →
  ∃ m, f32_of_Z (Z.pos p) = S754_finite false m (Z.pos (digits2_pos p) - 24)
       ∧ Z.pos m = Z.pos p * 2 ^ (24 - Z.pos (digits2_pos p)) ∧ digits2_pos m = 24%positive.
Proof.
  intros Hd. destruct (round_exact false p 0) as (m & H & Hm); [lia..|].
  exists m. split; [|done]. unfold f32_of_Z, binary_normalize. rewrite H. f_equal. lia.
Qed.
Lemma f32_half_eq : f32_half = S754_finite false 8388608 (-24).
Proof. by vm_compute. Qed.
(** A product with a power of two only moves the exponent. *)
Lemma mul_power s m e k : digits2_pos m = 24%positive → -149 ≤ e + k + 23 ≤ 104 → -149 ≤ e + k →
  f32_mul (S754_finite s m e) (S754_finite false 8388608 k) = S754_finite s m (e + k + 23).
Proof.
  intros Hm H1 H2. unfold f32_mul, SFmul. rewrite xorb_false_r.
  replace (m * 8388608)%positive with (Pos.iter xO m 23) by (simpl; lia).
  unfold binary_round_aux. unfold shr_fexp at 1, Zdigits2. rewrite digits_iter_xO, Hm.
  unfold fexp, emin.
  replace (Z.max (Z.pos (24 + 23) + (e + k) - 24) (3 - 128 - 24) - (e + k)) with 23 by lia.
  cbn -[binary_round_aux shr_fexp digits2_pos Z.add Z.sub].
  assert (shr_fexp 24 128 (Z.pos m) (e + k + 23) loc_Exact
          = (Build_shr_record (Z.pos m) false false, e + k + 23)) as Hs.
  { unfold shr_fexp, Zdigits2, fexp, emin. rewrite Hm. unfold shr.
    replace (Z.max (24 + (e + k + 23) - 24) (3 - 128 - 24) - (e + k + 23)) with 0 by lia. done. }
  rewrite Hs. cbn [shr_m]. destruct (Z.leb_spec (e + k + 23) (128 - 24)); [done|lia].
Qed.
Lemma mul_half s m e : digits2_pos m = 24%positive → -100 ≤ e → e ≤ 100 →
  f32_mul (S754_finite s m e) f32_half = S754_finite s m (e - 1).
Proof. intros Hm H1 H2. rewrite f32_half_eq, mul_power by lia. f_equal. lia. Qed.

(** ** The position of an output frame at half the target rate *)
Lemma half_ratio : f32_ratio 24000 TARGET_SAMPLE_RATE_HZ = f32_half.
Proof. by vm_compute. Qed.
Lemma digits_le p n : Z.pos p < 2 ^ n → 0 < n → Z.pos (digits2_pos p) ≤ n.
Proof.
  intros H Hn. pose proof (digits_bounds p) as [H1 _].
  assert (Z.pos (digits2_pos p) - 1 < n) by (apply (Z.pow_lt_mono_r_iff 2); lia). lia.
Qed.
Lemma position_pos j : Z.pos j < 2 ^ 24 →
  ∃ m, f32_mul (f32_of_Z (Z.pos j)) f32_half = S754_finite false m (Z.pos (digits2_pos j) - 25)
       ∧ Z.pos m = Z.pos j * 2 ^ (24 - Z.pos (digits2_pos j)) ∧ digits2_pos m = 24%positive.
Proof.
  intros Hj. pose proof (digits_le j 24 Hj ltac:(done)) as Hd.
  destruct (f32_of_pos j Hd) as (m & -> & Hm & Hd2). exists m.
  rewrite mul_half by lia. split; [f_equal; lia|done].
Qed.
Lemma digits_double p : Z.pos (digits2_pos p~0) = Z.pos (digits2_pos p) + 1.
Proof. simpl. lia. Qed.
Lemma position_floor j : 0 ≤ j < 2 ^ 24 →
  f32_floor_usize (f32_mul (f32_of_Z j) f32_half) = j / 2.
Proof.
  intros [H0 Hj]. destruct j as [|j|j]; [by vm_compute| |lia].
  destruct (position_pos j Hj) as (m & -> & Hm & Hd2). unfold f32_floor_usize.
  pose proof (digits_le j 24 Hj ltac:(done)) as Hd. set (d := Z.pos (digits2_pos j)) in *.
  assert (1 ≤ d) by lia.
  rewrite Z.shiftl_div_pow2 by lia. rewrite Hm.
  replace (- (d - 25)) with (Z.succ (24 - d)) by lia. rewrite Z.pow_succ_r by lia.
  pose proof (Z.pow_pos_nonneg 2 (24 - d)).
  rewrite Z.div_mul_cancel_r by lia. apply Z.min_l.
  pose proof (Z.div_le_upper_bound (Z.pos j) 2 (2 ^ 24)).
  unfold u64_max. lia.
Qed.
(** The fraction of an even frame is zero, of an odd one a half. *)
Lemma sub_self m e : f32_sub (S754_finite false m e) (S754_finite false m e) = f32_zero.
Proof.
  unfold f32_sub, SFsub. rewrite Z.min_id. simpl cond_Zopp.
  match goal with |- context [?a - ?a] => rewrite (Z.sub_diag a) end. done.
Qed.
Lemma position_even i : 0 ≤ i < 2 ^ 23 →
  f32_sub (f32_mul (f32_of_Z (2 * i)) f32_half) (f32_of_Z i) = f32_zero.
Proof.
  intros [H0 Hi]. destruct i as [|i|i]; [by vm_compute| |lia].
  change (2 * Z.pos i) with (Z.pos i~0).
  destruct (position_pos i~0) as (m & -> & Hm & Hd2); [lia|].
  destruct (f32_of_pos i) as (m' & -> & Hm' & Hd2'); [apply digits_le; lia|].
  rewrite digits_double in *.
  assert (m' = m) as ->.
  { apply (inj Z.pos). rewrite Hm, Hm'. pose proof (digits_le i 23 ltac:(lia) ltac:(done)).
    replace (24 - Z.pos (digits2_pos i)) with (Z.succ (24 - (Z.pos (digits2_pos i) + 1))) by lia.
    rewrite Z.pow_succ_r by lia. lia. }
  replace (Z.pos (digits2_pos i) + 1 - 25) with (Z.pos (digits2_pos i) - 24) by lia. apply sub_self.
Qed.
Lemma position_odd i : 0 ≤ i < 2 ^ 23 →
  f32_sub (f32_mul (f32_of_Z (2 * i + 1)) f32_half) (f32_of_Z i) = f32_half.
Proof.
  intros [H0 Hi]. destruct i as [|i|i]; [by vm_compute| |lia].
  change (2 * Z.pos i + 1) with (Z.pos i~1).
  destruct (position_pos i~1) as (m & -> & Hm & Hd2); [lia|].
  pose proof (digits_le i 23 ltac:(lia) ltac:(done)) as Hd.
  destruct (f32_of_pos i) as (m' & -> & Hm' & Hd2'); [lia|].
  assert (Z.pos (digits2_pos i~1) = Z.pos (digits2_pos i) + 1) as Hs by (simpl; lia).
  rewrite Hs in *. set (d := Z.pos (digits2_pos i)) in *.
  replace (d + 1 - 25) with (d - 24) by lia.
  unfold f32_sub, SFsub. rewrite Z.min_id. simpl cond_Zopp.
  unfold shl_align. rewrite Z.sub_diag. cbn [fst].
  replace (24 - d) with (Z.succ (24 - (d + 1))) in Hm' by lia. rewrite Z.pow_succ_r in Hm' by lia.
  replace (Z.pos m - Z.pos m') with (2 ^ (23 - d)).
  2:{ rewrite Hm, Hm'. replace (24 - (d + 1)) with (23 - d) by lia. lia. }
  assert (1 ≤ d) by lia.
  destruct (2 ^ (23 - d)) as [|p|p] eqn:E; [pose proof (Z.pow_pos_nonneg 2 (23 - d)); lia| |lia].
  assert (Z.pos (digits2_pos p) = 24 - d) as Hp.
  { apply digits_unique; [lia|]. rewrite <-E. split; apply Z.pow_le_mono_r || apply Z.pow_lt_mono_r; lia. }
  unfold binary_normalize. destruct (round_exact false p (d - 24)) as (m2 & -> & Hm2 & _); [lia..|].
  rewrite f32_half_eq. rewrite Hp in *. f_equal; [|lia].
  apply (inj Z.pos). rewrite Hm2, <-E, <-Z.pow_add_r by lia. replace (23 - d + (24 - (24 - d))) with 23 by lia. done.
Qed.

(** ** Results that stay in normal form *)
Lemma iter_shr_value n r : 0 ≤ shr_m r →
  shr_m (SpecFloat.iter_pos shr_1 n r) = shr_m r / 2 ^ Z.pos n.
Proof.
  assert (∀ r, 0 ≤ shr_m r → shr_m (shr_1 r) = shr_m r / 2) as H1.
  { intros [[|[p|p|]|p] b s] H; cbn [shr_1 shr_m] in *; try lia; [done| | |done].
    - rewrite Pos2Z.inj_xI. apply (Z.div_unique _ 2 _ 1); lia.
    - rewrite Pos2Z.inj_xO. apply (Z.div_unique _ 2 _ 0); lia. }
  revert r. induction n as [n IH|n IH|]; intros r Hr; cbn [SpecFloat.iter_pos].
  - pose proof (Z.div_pos (shr_m r) 2 Hr ltac:(lia)).
    pose proof (Z.pow_pos_nonneg 2 (Z.pos n)).
    pose proof (Z.div_pos (shr_m r / 2) (2 ^ Z.pos n) ltac:(lia) ltac:(lia)).
    rewrite IH by (rewrite IH, H1 by (rewrite ?H1; lia); lia).
    rewrite IH, H1, !Z.div_div by (rewrite ?H1; nia). f_equal.
    replace (Z.pos n~1) with (Z.succ (Z.pos n + Z.pos n)) by lia.
    rewrite Z.pow_succ_r, Z.pow_add_r by lia. lia.
  - pose proof (Z.pow_pos_nonneg 2 (Z.pos n)).
    pose proof (Z.div_pos (shr_m r) (2 ^ Z.pos n) Hr ltac:(lia)).
    rewrite IH by (rewrite IH by lia; lia). rewrite IH, Z.div_div by lia. f_equal.
    replace (Z.pos n~0) with (Z.pos n + Z.pos n) by lia. by rewrite Z.pow_add_r by lia.
  - by apply H1.
Qed.
(** Shifting to 24 digits. *)
Lemma shr_fexp_24 p e l : 24 ≤ Z.pos (digits2_pos p) → -149 ≤ e →
  ∃ r, shr_fexp 24 128 (Z.pos p) e l = (r, e + (Z.pos (digits2_pos p) - 24))
       ∧ 2 ^ 23 ≤ shr_m r < 2 ^ 24.
Proof.
  intros Hd He. pose proof (digits_bounds p) as [H1 H2]. set (d := Z.pos (digits2_pos p)) in *.
  assert (shr_m (shr_record_of_loc (Z.pos p) l) = Z.pos p) as Hr by (destruct l as [|[]]; done).
  unfold shr_fexp, fexp, emin, shr, Zdigits2. fold d.
  replace (Z.max (d + e - 24) (3 - 128 - 24) - e) with (d - 24) by lia.
  destruct (d - 24) as [|n|n] eqn:E; [| |lia]; eexists; (split; [apply (f_equal2 pair); [reflexivity|lia]|]).
  - rewrite Hr. by replace d with 24 in H1, H2 by lia.
  - rewrite iter_shr_value, Hr by lia. replace d with (24 + Z.pos n) in H1, H2 by lia. split.
    + apply Z.div_le_lower_bound; [lia|]. rewrite <-Z.pow_add_r by lia.
      etransitivity; [|exact H1]. apply Z.pow_le_mono_r; lia.
    + apply Z.div_lt_upper_bound; [lia|]. rewrite <-Z.pow_add_r by lia.
      eapply Z.lt_le_trans; [exact H2|]. apply Z.pow_le_mono_r; lia.
Qed.
Lemma round_nearest_even_le m l : m ≤ round_nearest_even m l ≤ m + 1.
Proof. destruct l as [|[]]; simpl; try case_match; lia. Qed.
Lemma round_aux_normal s p e l :
  24 ≤ Z.pos (digits2_pos p) → -149 ≤ e → e + (Z.pos (digits2_pos p) - 24) + 1 ≤ 104 →
  ∃ m e', binary_round_aux 24 128 s (Z.pos p) e l = S754_finite s m e' ∧ digits2_pos m = 24%positive
    ∧ e + (Z.pos (digits2_pos p) - 24) ≤ e' ≤ e + (Z.pos (digits2_pos p) - 24) + 1.
Proof.
  intros Hd He H104. unfold binary_round_aux.
  destruct (shr_fexp_24 p e l Hd He) as (r & -> & Hr). set (e1 := e + _) in *.
  pose proof (round_nearest_even_le (shr_m r) (loc_of_shr_record r)) as H3.
  destruct (round_nearest_even _ _) as [|q|q]; [lia| |lia].
  change (2 ^ 23) with 8388608 in *. change (2 ^ 24) with 16777216 in *.
  assert (24 ≤ Z.pos (digits2_pos q) ≤ 25) as Hq.
  { split; [|apply digits_le; [change (2 ^ 25) with 33554432|]; lia].
    assert (23 < Z.pos (digits2_pos q)); [|lia]. apply (Z.pow_lt_mono_r_iff 2); [lia..|].
    pose proof (digits_bounds q). change (2 ^ 23) with 8388608. lia. }
  destruct (shr_fexp_24 q e1 loc_Exact) as (r' & -> & Hr'); [lia..|].
  change (2 ^ 23) with 8388608 in *. change (2 ^ 24) with 16777216 in *.
  destruct (shr_m r') as [|m|m]; [lia| |lia].
  destruct (Z.leb_spec (e1 + (Z.pos (digits2_pos q) - 24)) (128 - 24)); [|lia].
  eexists _, _. split; [reflexivity|]. split; [|lia].
  assert (Z.pos (digits2_pos m) = 24); [|lia]. apply digits_unique; [lia|].
  change (2 ^ (24 - 1)) with 8388608. change (2 ^ 24) with 16777216. lia.
Qed.
(** Zero, or 24 digits at an exponent between [E] and [U]. *)
Definition normal (E U : Z) (x : f32) : Prop :=
  x = f32_zero ∨ ∃ s m e, x = S754_finite s m e ∧ digits2_pos m = 24%positive ∧ E ≤ e ≤ U.
Lemma normal_weaken E U E' U' x : normal E U x → E' ≤ E → U ≤ U' → normal E' U' x.
Proof.
  intros [->|(s & m & e & -> & Hd & He)] H1 H2; [by left|]. right. exists s, m, e. split_and!; [done..|lia|lia].
Qed.
Lemma round_normal s p e U : -125 ≤ e → U ≤ 100 → Z.pos p < 2 ^ (25 + U - e) → e ≤ U →
  normal (e - 23) (U + 2) (binary_round 24 128 s p e).
Proof.
  intros He HU Hp Hle. pose proof (digits_le p _ Hp ltac:(lia)) as Hd. right. exists s.
  destruct (Z.le_gt_cases (Z.pos (digits2_pos p)) 24).
  - destruct (round_exact s p e) as (m & -> & _ & H24); [lia..|].
    eexists m, _. split_and!; [done|done|lia|lia].
  - unfold binary_round, fexp, emin, shl_align.
    destruct (Z.max _ _ - e) as [|k|k] eqn:E; [| |lia];
      (destruct (round_aux_normal s p e loc_Exact) as (m & e' & -> & H24 & He'); [lia..|];
       exists m, e'; split_and!; [done|done|lia|lia]).
Qed.
Lemma normalize_normal d e U : -125 ≤ e → U ≤ 100 → - 2 ^ (25 + U - e) < d < 2 ^ (25 + U - e) → e ≤ U →
  normal (e - 23) (U + 2) (binary_normalize 24 128 d e false).
Proof.
  intros He HU Hd Hle. destruct d as [|p|p]; [by left| |]; apply round_normal; lia.
Qed.
(** *** Sums and differences *)
Lemma shl_align_value p e e' : e' ≤ e → Z.pos (shl_align p e e').1 = Z.pos p * 2 ^ (e - e').
Proof.
  intros H. unfold shl_align. destruct (e' - e) as [|k|k] eqn:E; [|lia|]; cbn [fst].
  - replace (e - e') with 0 by lia. lia.
  - rewrite iter_xO_Z. do 2 f_equal. lia.
Qed.
Lemma aligned_lt p e e' U : digits2_pos p = 24%positive → e' ≤ e ≤ U →
  0 < Z.pos (shl_align p e e').1 < 2 ^ (24 + U - e').
Proof.
  intros Hd He. rewrite shl_align_value by lia. pose proof (digits_bounds p) as [_ Hp]. rewrite Hd in Hp.
  pose proof (Z.pow_pos_nonneg 2 (e - e')). split; [nia|].
  apply Z.lt_le_trans with (2 ^ 24 * 2 ^ (e - e')); [by apply Z.mul_lt_mono_pos_r; lia|].
  rewrite <-Z.pow_add_r by lia. apply Z.pow_le_mono_r; lia.
Qed.
Lemma double_pow U e : e ≤ U + 24 → 2 ^ (25 + U - e) = 2 * 2 ^ (24 + U - e).
Proof. intros H. rewrite <-Z.pow_succ_r by lia. f_equal. lia. Qed.
Lemma sub_normal E U x y : normal E U x → normal E U y → -125 ≤ E → U ≤ 100 →
  normal (E - 23) (U + 2) (f32_sub x y).
Proof.
  intros [->|(s1 & m1 & e1 & -> & Hm1 & He1)] [->|(s2 & m2 & e2 & -> & Hm2 & He2)] HE HU.
  - by left.
  - right. exists (negb s2), m2, e2. split_and!; [done..|lia|lia].
  - right. exists s1, m1, e1. split_and!; [done..|lia|lia].
  - unfold f32_sub, SFsub. set (ez := Z.min e1 e2).
    pose proof (aligned_lt m1 e1 ez U Hm1 ltac:(lia)). pose proof (aligned_lt m2 e2 ez U Hm2 ltac:(lia)).
    eapply normal_weaken; [apply (normalize_normal _ _ U); [lia..| |lia]|lia|lia].
    rewrite double_pow by lia. destruct s1, s2; unfold cond_Zopp; lia.
Qed.
Lemma add_normal E U x y : normal E U x → normal E U y → -125 ≤ E → U ≤ 100 →
  normal (E - 23) (U + 2) (f32_add x y).
Proof.
  intros [->|(s1 & m1 & e1 & -> & Hm1 & He1)] [->|(s2 & m2 & e2 & -> & Hm2 & He2)] HE HU.
  - by left.
  - right. exists s2, m2, e2. split_and!; [done..|lia|lia].
  - right. exists s1, m1, e1. split_and!; [done..|lia|lia].
  - unfold f32_add, SFadd. set (ez := Z.min e1 e2).
    pose proof (aligned_lt m1 e1 ez U Hm1 ltac:(lia)). pose proof (aligned_lt m2 e2 ez U Hm2 ltac:(lia)).
    eapply normal_weaken; [apply (normalize_normal _ _ U); [lia..| |lia]|lia|lia].
    rewrite double_pow by lia. destruct s1, s2; unfold cond_Zopp; lia.
Qed.
(** *** Products with a half and with one *)
Lemma mul_half_normal E U x : normal E U x → -100 ≤ E → U ≤ 100 →
  normal (E - 1) U (f32_mul x f32_half).
Proof.
  intros [->|(s & m & e & -> & Hm & He)] HE HU; [left; by vm_compute|].
  rewrite mul_half by lia. right. exists s, m, (e - 1). split_and!; [done..|lia|lia].
Qed.
Lemma mul_one E U x : normal E U x → -100 ≤ E → U ≤ 100 → f32_mul x (playback_volume 100) = x.
Proof.
  assert (playback_volume 100 = S754_finite false 8388608 (-23)) as -> by by vm_compute.
  intros [->|(s & m & e & -> & Hm & He)] HE HU; [by vm_compute|].
  rewrite mul_power by lia. f_equal. lia.
Qed.

(** ** Samples *)
Definition sample_like : f32 → Prop := normal (-38) (-20).
Lemma div_by_max s m e : digits2_pos m = 24%positive → -23 ≤ e ≤ -8 →
  sample_like (f32_div (S754_finite s m e) (f32_of_Z i16_max)).
Proof.
  intros Hd He.
  assert (f32_of_Z i16_max = S754_finite false 16776704 (-9)) as -> by by vm_compute.
  unfold f32_div, SFdiv, SFdiv_core_binary. cbn [Zdigits2]. rewrite Hd.
  change (Z.pos (digits2_pos 16776704)) with 24. unfold fexp, emin.
  replace (Z.min _ (e - -9)) with (e - 15) by lia.
  replace (e - -9 - (e - 15)) with 24 by lia.
  rewrite Z.shiftl_mul_pow2 by done.
  pose proof (Z_div_mod (Z.pos m * 2 ^ 24) 16776704 ltac:(done)) as Hdm.
  destruct (Z.div_eucl (Z.pos m * 2 ^ 24) 16776704) as [q r]. destruct Hdm as [Hq Hr].
  pose proof (digits_bounds m) as [H1 H2]. rewrite Hd in H1, H2.
  change (2 ^ (24 - 1)) with 8388608 in H1. change (2 ^ 24) with 16777216 in *.
  destruct q as [|q|q]; [lia| |lia].
  assert (24 ≤ Z.pos (digits2_pos q) ≤ 25) as Hq2.
  { split; [|apply digits_le; [change (2 ^ 25) with 33554432|]; lia].
    assert (23 < Z.pos (digits2_pos q)); [|lia]. apply (Z.pow_lt_mono_r_iff 2); [lia..|].
    pose proof (digits_bounds q). change (2 ^ 23) with 8388608. lia. }
  destruct (round_aux_normal (xorb s false) q (e - 15) (new_location 16776704 r))
    as (m' & e' & -> & Hm' & He'); [lia..|].
  right. exists (xorb s false), m', e'. split_and!; [done..|lia|lia].
Qed.
Definition is_i16 (z : Z) : Prop := -32768 ≤ z ≤ 32767.
Lemma sample_i16 z : is_i16 z → sample_like (i16_to_f32 z).
Proof.
  unfold is_i16, i16_to_f32. intros Hz. destruct z as [|p|p].
  - left. by vm_compute.
  - pose proof (digits_le p 16 ltac:(lia) ltac:(lia)). destruct (f32_of_pos p) as (m & -> & _ & Hd); [lia|].
    apply div_by_max; [done|lia].
  - pose proof (digits_le p 16 ltac:(lia) ltac:(lia)). unfold f32_of_Z at 1, binary_normalize.
    destruct (round_exact true p 0) as (m & -> & _ & Hd); [lia..|]. apply div_by_max; [done|lia].
Qed.
Lemma lerp_zero a b : sample_like a → sample_like b → lerp a b f32_zero = a.
Proof.
  intros Ha Hb. unfold lerp. pose proof (sub_normal _ _ b a Hb Ha ltac:(lia) ltac:(lia)) as Hs.
  assert (∃ s, f32_mul (f32_sub b a) f32_zero = S754_zero s) as [s ->].
  { destruct Hs as [->|(s & m & e & -> & _)]; by eexists. }
  by destruct Ha as [->|(? & ? & ? & -> & _)]; [destruct s|].
Qed.
Lemma lerp_self a : sample_like a → lerp a a f32_half = a.
Proof.
  intros [->|(s & m & e & -> & _)]; [by vm_compute|]. unfold lerp.
  assert (f32_sub (S754_finite s m e) (S754_finite s m e) = f32_zero) as ->.
  { unfold f32_sub, SFsub. rewrite Z.min_id.
    match goal with |- context [?a - ?a] => rewrite (Z.sub_diag a) end. done. }
  by rewrite f32_half_eq.
Qed.
Lemma lerp_half_normal a b : sample_like a → sample_like b → normal (-90) 10 (lerp a b f32_half).
Proof.
  intros Ha Hb. unfold lerp.
  pose proof (sub_normal _ _ b a Hb Ha ltac:(lia) ltac:(lia)) as Hs.
  pose proof (mul_half_normal _ _ _ Hs ltac:(lia) ltac:(lia)) as Hm.
  eapply (normal_weaken _ _ (-62) 0) in Hm; [|lia..]. eapply (normal_weaken _ _ (-62) 0) in Ha; [|lia..].
  eapply normal_weaken; [apply (add_normal _ _ _ _ Ha Hm)|..]; lia.
Qed.

(** ** The upsampled cue *)
Definition stereo (x : f32) : list f32 := [x; x].
Fixpoint upsample_after (previous : f32) (l : list f32) : list f32 :=
  match l with
  | [] => []
  | x :: l => stereo (lerp previous x f32_half) ++ stereo x ++ upsample_after x l
  end.
(** All frames but the last one. *)
Definition upsample_open (l : list f32) : list f32 :=
  match l with [] => [] | x :: l => stereo x ++ upsample_after x l end.
Definition tail_frame (l : list f32) : list f32 :=
  match last l with Some x => stereo x | None => [] end.
Definition upsampled (l : list f32) : list f32 := upsample_open l ++ tail_frame l.
Lemma upsample_after_snoc x l y : upsample_after x (l ++ [y]) =
  upsample_after x l ++ stereo (lerp (default x (last l)) y f32_half) ++ stereo y.
Proof.
  revert x. induction l as [|z l IH]; intros x; [done|].
  cbn [app upsample_after]. rewrite IH, last_cons, <-!app_assoc. by destruct (last l).
Qed.
Lemma upsample_open_snoc l y : upsample_open (l ++ [y]) = upsample_open l ++
  match last l with Some p => stereo (lerp p y f32_half) ++ stereo y | None => stereo y end.
Proof.
  destruct l as [|x l]; [done|]. cbn [app upsample_open].
  rewrite upsample_after_snoc, last_cons, <-app_assoc. by destruct (last l).
Qed.
Lemma upsample_open_length l : (length (upsample_open l) = match l with [] => 0 | _ => 4 * length l - 2 end)%nat.
Proof.
  destruct l as [|x l]; [done|]. cbn [upsample_open app length stereo].
  assert (∀ x, length (upsample_after x l) = 4 * length l)%nat as ->; [|lia].
  induction l as [|y l IH]; intros z; [done|]. simpl. rewrite IH. lia.
Qed.
Lemma upsampled_length l : length (upsampled l) = (4 * length l)%nat.
Proof.
  unfold upsampled, tail_frame. rewrite length_app, upsample_open_length.
  destruct l as [|x l]; [done|]. destruct (last (x :: l)) eqn:E; [simpl; lia|].
  by apply last_None in E.
Qed.

(** *** The whole cue, frame by frame *)
Lemma frames_of_cue l N k rest : N = Z.of_nat (length l) → N ≤ 2 ^ 23 → Forall sample_like l →
  drop k l = rest →
  output_frames (output_frame l 1 N f32_half) (2 * Z.of_nat k) (2 * length rest)
    = Ok (match rest with [] => [] | x :: after => stereo x ++ upsample_after x after ++ tail_frame rest end).
Proof.
  intros HN Hb Hl. revert k. induction rest as [|x rest IH]; intros k Hk; [done|].
  assert (l !! k = Some x) as Hx by (rewrite <-(Nat.add_0_r k), <-lookup_drop, Hk; done).
  pose proof (lookup_lt_Some _ _ _ Hx) as Hlt.
  pose proof (Forall_lookup_1 _ _ _ _ Hl Hx) as Hsx.
  assert (length rest = length l - S k)%nat as Hlen.
  { pose proof (f_equal length Hk) as H. rewrite length_drop in H. simpl in H. lia. }
  assert (drop (S k) l = rest) as Hk'.
  { replace (S k) with (k + 1)%nat by lia. rewrite <-drop_drop, Hk. done. }
  set (next := match rest with y :: _ => y | [] => x end).
  assert (l !! Z.to_nat (Z.min (Z.of_nat k + 1) (saturating_sub N 1)) = Some next) as Hn.
  { unfold saturating_sub. destruct rest as [|y rest].
    - replace (Z.to_nat _) with k by (simpl in Hlen; lia). done.
    - replace (Z.to_nat _) with (S k) by (simpl in Hlen; lia).
      rewrite <-(Nat.add_0_r (S k)), <-lookup_drop, Hk'. done. }
  assert (sample_like next) as Hsn by (by eapply Forall_lookup_1).
  assert (∀ j, 0 ≤ j < 2 ^ 24 → j / 2 = Z.of_nat k →
    output_frame l 1 N f32_half j
    = Ok (stereo (lerp x next (f32_sub (f32_mul (f32_of_Z j) f32_half) (f32_of_Z (Z.of_nat k)))))) as Hf.
  { intros j Hj Hjk. unfold output_frame. rewrite position_floor, Hjk by done.
    unfold sample_at. rewrite !Z.mul_1_r.
    replace (Z.to_nat (Z.min (Z.of_nat k) (N - 1))) with k by lia. rewrite Hx, Hn. done. }
  replace (2 * length (x :: rest))%nat with (S (S (2 * length rest)))%nat by (simpl; lia).
  cbn [output_frames].
  rewrite Hf by (change (2 ^ 24) with (2 * 2 ^ 23); rewrite ?(Z.mul_comm 2), ?Z.div_mul; lia).
  rewrite Hf.
  2:{ change (2 ^ 24) with (2 * 2 ^ 23). lia. }
  2:{ rewrite Z.add_comm, Z.mul_comm, Z.div_add by lia. done. }
  rewrite position_even, position_odd by lia. cbn [obind].
  replace (2 * Z.of_nat k + 1 + 1) with (2 * Z.of_nat (S k)) by lia.
  rewrite (IH (S k) Hk'). cbn [obind]. rewrite lerp_zero by done. f_equal.
  destruct rest as [|y rest]; subst next.
  - rewrite lerp_self by done. done.
  - unfold tail_frame. rewrite last_cons_cons. simpl. done.
Qed.
Lemma upsampled_normal l : Forall sample_like l → Forall (normal (-90) 10) (upsampled l).
Proof.
  assert (∀ x, sample_like x → normal (-90) 10 x) as Hw by (intros x Hx; eapply normal_weaken; [exact Hx|lia..]).
  assert (∀ x l, sample_like x → Forall sample_like l → Forall (normal (-90) 10) (upsample_after x l)) as Ha.
  { intros x k. revert x. induction k as [|y k IH]; intros x Hx Hk; [constructor|].
    apply Forall_cons in Hk as [Hy Hk]. pose proof (lerp_half_normal x y Hx Hy).
    repeat (constructor; [by auto|]). by apply IH. }
  intros Hl. apply Forall_app. split.
  - destruct l as [|x l]; [constructor|]. apply Forall_cons in Hl as [Hx Hl].
    repeat (constructor; [by auto|]). by apply Ha.
  - unfold tail_frame. destruct (last l) as [x|] eqn:E; [|constructor].
    assert (sample_like x) by (rewrite last_lookup in E; by eapply Forall_lookup_1).
    repeat (constructor; [by auto|]). constructor.
Qed.
Lemma whole_cue samples : Forall is_i16 samples → Z.of_nat (length samples) ≤ 2 ^ 23 →
  speaker_pcm_48k_stereo samples 24000 1 100 = Ok (upsampled (i16_to_f32 <$> samples)).
Proof.
  intros Hs Hb. set (l := i16_to_f32 <$> samples).
  assert (length l = length samples) as Hlen by apply length_fmap.
  assert (Forall sample_like l) as Hl.
  { apply Forall_fmap. eapply Forall_impl; [exact Hs|]. apply sample_i16. }
  assert (normalize_to_target_stereo l 24000 1 = Ok (upsampled l)) as Hn.
  { unfold normalize_to_target_stereo. destruct l as [|x r] eqn:El; [done|]. rewrite <-El in *.
    rewrite bool_decide_eq_false_2 by (by rewrite El). cbn [orb]. simpl (24000 =? 0). simpl (1 =? 0).
    cbn [orb]. rewrite Z.div_1_r.
    destruct (Z.eqb_spec (Z.of_nat (length l)) 0) as [E|E]; [rewrite El in E; simpl in E; lia|].
    rewrite half_ratio. unfold TARGET_SAMPLE_RATE_HZ.
    replace (Z.of_nat (length l) * 48000) with (Z.of_nat (length l) * 2 * 24000) by lia.
    rewrite Z.div_mul by lia. rewrite Z.max_l by lia.
    replace (Z.to_nat _) with (2 * length l)%nat by lia.
    rewrite (frames_of_cue l _ 0 l) by (done || lia). unfold upsampled. by rewrite El. }
  unfold speaker_pcm_48k_stereo. fold l. rewrite Hn. cbn [obind]. f_equal.
  rewrite <-(list_fmap_id (upsampled l)) at 2. apply list_fmap_ext. intros i x Hx. simpl.
  pose proof (Forall_lookup_1 _ _ _ _ (upsampled_normal l Hl) Hx) as Hn'. by eapply mul_one.
Qed.

(** ** The queue's frames *)
(** What was taken and what is buffered are the frames of what was accepted. *)
Record pcm_ok (r : PcmRun) : Prop := {
  ok_frames : pr_taken r ++ pq_reference (pr_queue r)
    = upsample_open (i16_to_f32 <$> pr_accepted r)
      ++ (if pq_ended (pr_queue r) then tail_frame (i16_to_f32 <$> pr_accepted r) else []);
  ok_previous : pq_previous (pr_queue r)
    = if pq_ended (pr_queue r) then None else last (i16_to_f32 <$> pr_accepted r);
  ok_accepted : pq_accepted_source_frames (pr_queue r) = Z.of_nat (length (pr_accepted r));
  ok_bounded : buffered_frames (pr_queue r) ≤ MAX_BUFFERED_FRAMES + (if pq_ended (pr_queue r) then 1 else 0)
}.
Lemma push_samples l samples q :
  pq_ended q = false → pq_previous q = last (i16_to_f32 <$> l) →
  let q' := fold_left (λ q sample, push_sample sample q) samples q in
  (∀ taken, taken ++ pq_reference q = upsample_open (i16_to_f32 <$> l) →
     taken ++ pq_reference q' = upsample_open (i16_to_f32 <$> l ++ samples))
  ∧ pq_previous q' = last (i16_to_f32 <$> l ++ samples)
  ∧ pq_ended q' = false ∧ pq_accepted_source_frames q' = pq_accepted_source_frames q
  ∧ (length (pq_reference q') ≤ length (pq_reference q) + 4 * length samples)%nat.
Proof.
  revert l q. induction samples as [|y samples IH]; intros l q He Hp; cbn [fold_left].
  { rewrite app_nil_r. split_and!; [done..|simpl; lia]. }
  destruct (IH (l ++ [y]) (push_sample y q)) as (H1 & H2 & H3 & H4 & H5); [done| |].
  { rewrite fmap_app, last_app. done. }
  rewrite <-app_assoc in *. cbn [app] in *. split_and!; [|done..|].
  - intros taken Ht. apply H1. rewrite fmap_app. cbn [fmap list_fmap]. rewrite upsample_open_snoc, <-Ht.
    unfold push_sample. rewrite Hp. destruct q; simpl in *. rewrite <-app_assoc. by destruct (last _).
  - etransitivity; [exact H5|]. unfold push_sample. destruct q as [ref [prev|] e a s]; simpl;
      rewrite length_app; simpl; lia.
Qed.
Lemma push_run samples q : push samples q =
  if can_accept q (Z.of_nat (length samples))
  then (Ok tt, (fold_left (λ q sample, push_sample sample q) samples q)
                 <| pq_accepted_source_frames ::= λ n, n + Z.of_nat (length samples) |>)
  else (Err (Fail "native desktop stream is ended or exceeds its five-second PCM bound"), q).
Proof. unfold push. rewrite bind_gets. unfold id. by destruct (can_accept _ _). Qed.
Lemma half_grows (n n' k B : Z) : n / 2 + k * 2 ≤ B → n' ≤ n + 4 * k → n' / 2 ≤ B.
Proof.
  intros H1 H2. pose proof (Z_div_mod_eq_full n 2). pose proof (Z.mod_pos_bound n 2).
  pose proof (Z.div_lt_upper_bound n' 2 (B + 1)). lia.
Qed.
Lemma accepts_fit q k : can_accept q k = true → 0 ≤ k →
  pq_ended q = false ∧ buffered_frames q + k * 2 ≤ MAX_BUFFERED_FRAMES.
Proof.
  unfold can_accept, saturating_add, saturating_mul. intros H Hk. bool_hyps. split; [done|].
  assert (MAX_BUFFERED_FRAMES < u64_max) by done.
  assert (0 ≤ buffered_frames q) by (apply Z.div_pos; lia). lia.
Qed.
Lemma push_ok samples q l taken : pcm_ok (mk_pcm_run q l taken) →
  pcm_ok (pcm_step (CallPush samples) (mk_pcm_run q l taken)).
Proof.
  intros [H1 H2 H3 H4]. cbn [pr_queue pr_accepted pr_taken pcm_step] in *. rewrite push_run.
  destruct (can_accept q _) eqn:Hc; cbn [is_ok]; [|by split].
  apply accepts_fit in Hc as [H Hc]; [|lia]. rewrite H in *. rewrite app_nil_r in H1.
  destruct (push_samples l samples q H H2) as (P1 & P2 & P3 & P4 & P5).
  set (q' := fold_left _ _ _) in *. clearbody q'. destruct q' as [ref prev e a s]. simpl in P3. subst e.
  cbn [pq_reference pq_previous pq_accepted_source_frames] in *.
  change (pcm_ok (mk_pcm_run (mk_pcm_queue ref prev false (a + Z.of_nat (length samples)) s)
    (l ++ samples) taken)).
  split; cbn [pr_queue pr_accepted pr_taken pq_reference pq_previous pq_ended pq_accepted_source_frames].
  - rewrite app_nil_r. by apply P1.
  - exact P2.
  - rewrite P4, H3, length_app. lia.
  - rewrite Z.add_0_r. eapply half_grows; [exact Hc|]. cbn [pq_reference] in *. lia.
Qed.
Lemma end_ok q l taken : pcm_ok (mk_pcm_run q l taken) → pcm_ok (pcm_step CallEnd (mk_pcm_run q l taken)).
Proof.
  intros [H1 H2 H3 H4]. cbn [pr_queue pr_accepted pr_taken pcm_step] in *.
  destruct q as [ref prev e a s]. destruct e; [by split|].
  cbn [pq_reference pq_previous pq_accepted_source_frames pq_ended] in *. rewrite app_nil_r in H1.
  unfold buffered_frames in H4. cbn [pq_reference] in H4.
  destruct prev as [p|].
  - change (finish_pcm _).2 with (mk_pcm_queue (ref ++ [p; p]) None true a s).
    split; cbn [pr_queue pr_accepted pr_taken pq_reference pq_previous pq_ended pq_accepted_source_frames];
      [|done|done|].
    + unfold tail_frame. by rewrite <-H2, app_assoc, H1.
    + unfold buffered_frames. cbn [pq_reference]. rewrite length_app. cbn [length].
      rewrite Nat2Z.inj_add. change (Z.of_nat 2) with (1 * 2). rewrite Z.div_add by lia. lia.
  - change (finish_pcm _).2 with (mk_pcm_queue ref None true a s).
    split; cbn [pr_queue pr_accepted pr_taken pq_reference pq_previous pq_ended pq_accepted_source_frames];
      [|done|done|].
    + unfold tail_frame. by rewrite <-H2, app_nil_r.
    + unfold buffered_frames. cbn [pq_reference]. lia.
Qed.
Lemma take_run n partial q : take_reference n partial q =
  let count := Z.min (buffered_frames q) n in
  if (count <? BLOCK_FRAMES) && negb (pq_ended q) && negb partial then (Ok [], q)
  else (Ok (take (Z.to_nat (count * 2)) (pq_reference q)),
        q <| pq_reference ::= drop (Z.to_nat (count * 2)) |>).
Proof. unfold take_reference. rewrite bind_gets. cbv zeta. unfold id. by destruct (_ && negb partial). Qed.
Lemma take_ok n partial q l taken : pcm_ok (mk_pcm_run q l taken) →
  pcm_ok (pcm_step (CallTake n partial) (mk_pcm_run q l taken)).
Proof.
  intros [H1 H2 H3 H4]. cbn [pr_queue pr_accepted pr_taken pcm_step] in *. rewrite take_run. cbv zeta.
  destruct (_ && _).
  { split; cbn [pr_queue pr_accepted pr_taken]; [by rewrite app_nil_r|done..]. }
  set (k := Z.to_nat _). clearbody k. destruct q as [ref prev e a s].
  change (pcm_ok (mk_pcm_run (mk_pcm_queue (drop k ref) prev e a s) l (taken ++ take k ref))).
  cbn [pq_reference] in *. split; cbn [pr_queue pr_accepted pr_taken pq_reference]; [|done|done|].
  - by rewrite <-app_assoc, take_drop.
  - unfold buffered_frames in *. cbn [pq_reference pq_ended] in *. etransitivity; [|exact H4].
    apply Z.div_le_mono; [lia|]. rewrite length_drop. lia.
Qed.
Lemma pcm_run_ok calls : pcm_ok (pcm_run calls).
Proof.
  unfold pcm_run. assert (pcm_ok (mk_pcm_run pcm_queue_default [] [])) as H by by split.
  revert H. generalize (mk_pcm_run pcm_queue_default [] []).
  induction calls as [|c calls IH]; intros r Hr; [done|]. apply IH.
  destruct r, c; [by apply push_ok|by apply end_ok|by apply take_ok].
Qed.

(** C37: However the provider cuts a response into deltas, whenever the renderer
    reads in between, and whatever calls are refused, a stream that has ended
    holds and has handed out together exactly the samples that converting the
    accepted response as a whole gives, at full volume and for up to [2 ^ 23]
    samples (beyond which single precision no longer counts frames); it counts the
    accepted samples and never buffers more than five seconds and one frame. *)
Theorem streamed_pcm_is_the_whole_cues calls :
  let r := pcm_run calls in
  Forall is_i16 (pr_accepted r) → Z.of_nat (length (pr_accepted r)) ≤ 2 ^ 23 →
  pq_ended (pr_queue r) = true →
  speaker_pcm_48k_stereo (pr_accepted r) 24000 1 100 = Ok (pr_taken r ++ pq_reference (pr_queue r))
  ∧ pq_accepted_source_frames (pr_queue r) = Z.of_nat (length (pr_accepted r))
  ∧ buffered_frames (pr_queue r) ≤ MAX_BUFFERED_FRAMES + 1.
Proof.
  intros r Hs Hb He. destruct (pcm_run_ok calls) as [H1 H2 H3 H4]. fold r in H1, H2, H3, H4.
  rewrite He in *. rewrite whole_cue, H1 by done. done.
Qed.
(** Two deltas with a read in between, and a delta refused after the end. *)
Lemma streamed_pcm_is_the_whole_cues_witness :
  let r := pcm_run [CallPush [100; -32768; 7]; CallTake 3 true; CallPush []; CallPush [32767];
                    CallTake 480 false; CallEnd; CallPush [1]; CallEnd] in
  pr_accepted r = [100; -32768; 7; 32767] ∧ length (pr_taken r) = 6%nat
  ∧ speaker_pcm_48k_stereo [100; -32768; 7; 32767] 24000 1 100
    = Ok (pr_taken r ++ pq_reference (pr_queue r)).
Proof.
  intros r. destruct (streamed_pcm_is_the_whole_cues [CallPush [100; -32768; 7]; CallTake 3 true;
    CallPush []; CallPush [32767]; CallTake 480 false; CallEnd; CallPush [1]; CallEnd]) as [H _].
  - vm_compute. repeat constructor; discriminate.
  - by vm_compute.
  - by vm_compute.
  - split; [by vm_compute|]. split; [by vm_compute|exact H].
Defined.
