(* ===== verification/AecLiveScenario.v ===== *)
(** * The live echo-cancellation scenario

    Models [audio/speech/aec_live_scenario.rs]: a diagnostic run renders one cue
    in three phases with a known delay and distortion. The reservation of the cue
    is process-wide state; a render program partitions one cue's PCM. *)
From Stdlib Require Import Floats.SpecFloat.
From S2P Require Import Prelude RustStr PlaybackOwnership RenderSubmit SpeakerPcm.

(** ** Phases *)
Inductive AecLiveScenarioPhase := DoubleTalk | DynamicDelay | Nonlinear.
#[export] Instance phase_eq_dec : EqDecision AecLiveScenarioPhase.
Proof. solve_decision. Defined.
Definition for_ordinal (ordinal : Z) : AecLiveScenarioPhase :=
  let k := saturating_sub ordinal 1 mod 3 in
  if k =? 0 then DoubleTalk else if k =? 1 then DynamicDelay else Nonlinear.
Definition phase_as_str (p : AecLiveScenarioPhase) : string :=
  match p with
  | DoubleTalk => "double-talk" | DynamicDelay => "dynamic-delay" | Nonlinear => "nonlinear"
  end.
Definition delay_ms (p : AecLiveScenarioPhase) : Z :=
  match p with DoubleTalk => 0 | DynamicDelay => 80 | Nonlinear => 160 end.
Definition nonlinearity (p : AecLiveScenarioPhase) : string :=
  match p with DoubleTalk | DynamicDelay => "none" | Nonlinear => "soft-clip" end.
Definition physical_sample (p : AecLiveScenarioPhase) (sample : f32) : f32 :=
  if negb (bool_decide (p = Nonlinear)) then sample
  else
    let driven := f32_mul (f32_clamp sample (f32_of_Z (-1)) (f32_of_Z 1)) (f32_ratio 24 10) in
    let soft_clipped := f32_div driven (f32_add (f32_of_Z 1) (SFabs driven)) in
    f32_clamp (f32_mul soft_clipped (f32_ratio 135 100)) (f32_ratio (-92) 100) (f32_ratio 92 100).

(** ** The reservation *)
Record AecLiveScenarioAssignment := mk_assignment {
  aa_ordinal : Z; aa_phase : AecLiveScenarioPhase
}.
#[export] Instance assignment_eq_dec : EqDecision AecLiveScenarioAssignment.
Proof. solve_decision. Defined.
Definition ordered_speech_simulation_assignments : list AecLiveScenarioAssignment :=
  (λ ordinal, mk_assignment ordinal (for_ordinal ordinal)) <$> [1; 2; 3].
Record AecLiveScenarioAssignments := mk_assignments {
  as_reserved_cue_id : option string; as_completed : bool
}.
#[export] Instance assignments_settable : Settable AecLiveScenarioAssignments := λ a,
  mk_assignments (as_reserved_cue_id a) (as_completed a).
Definition assignments_default : AecLiveScenarioAssignments := mk_assignments None false.
Definition assignments_for_cue (cue_id : string)
    : M AecLiveScenarioAssignments (list AecLiveScenarioAssignment) :=
  let* a := gets id in
  if as_completed a then ret []
  else if bool_decide (as_reserved_cue_id a = Some cue_id) then ret ordered_speech_simulation_assignments
  else if negb (is_Some_b (as_reserved_cue_id a)) then
    modify (λ a, a <| as_reserved_cue_id := Some cue_id |>);;;
    ret ordered_speech_simulation_assignments
  else ret [].
Definition finish_cue (cue_id : string) (completed : bool) : M AecLiveScenarioAssignments unit :=
  let* a := gets id in
  if negb (bool_decide (as_reserved_cue_id a = Some cue_id)) then ret tt
  else modify (λ a, a <| as_completed := completed |> <| as_reserved_cue_id := None |>).
Definition env_flag_value_enabled (value : option string) : bool :=
  match value with
  | Some value => bool_decide (trim value ∈ ["1"; "true"; "TRUE"; "yes"; "YES"])
  | None => false
  end.
Definition aec_live_scenario_should_run (watch_diagnostic_autostart : bool)
    (scenario_env_value : option string) : bool :=
  watch_diagnostic_autostart && env_flag_value_enabled scenario_env_value.
(** The process-wide cell: unset, or the mutex (whether a panic poisoned it). *)
Definition AssignmentsCell : Type := option (bool * AecLiveScenarioAssignments).
(** One acquisition of the cell's mutex. *)
Definition locked {A} (op : M AecLiveScenarioAssignments A) : M AssignmentsCell A := λ cell,
  match cell with
  | Some (false, assignments) =>
      let '(result, assignments) := op assignments in (result, Some (false, assignments))
  | _ => (Err (Fail "AEC live scenario cue assignment lock is poisoned"), cell)
  end.
Definition active_aec_live_scenario_assignments (autostart_enabled : bool)
    (scenario_env_value : option string) (cue_id : string)
    : M AssignmentsCell (list AecLiveScenarioAssignment) :=
  if negb (aec_live_scenario_should_run autostart_enabled scenario_env_value) then ret []
  else
    modify (λ cell, Some (default (false, assignments_default) cell));;;
    locked (assignments_for_cue cue_id).
Definition finish_aec_live_scenario_assignments (cue_id : string) (completed : bool)
    : M AssignmentsCell unit :=
  let* cell := gets id in
  if negb (is_Some_b cell) then ret tt else locked (finish_cue cue_id completed).

(** ** The render program *)
(** An [f64] quotient of two counts. *)
Definition f64_ratio (numerator denominator : Z) : spec_float :=
  SFdiv 53 1024 (binary_normalize 53 1024 numerator 0 false)
    (binary_normalize 53 1024 denominator 0 false).
Record AecLiveScenarioRender := mk_scenario_render {
  sr_assignment : AecLiveScenarioAssignment; sr_delay_frames : Z; sr_changed_samples : Z;
  sr_changed_ratio : spec_float; sr_physical_samples : list f32;
  (** [start..end], in samples *)
  sr_reference_sample_range : Z * Z
}.
Definition count_changed (physical reference : list f32) : Z :=
  Z.of_nat (count_if (λ '(a, b), f32_differs a b) (zip physical reference)).
Definition build (assignment : AecLiveScenarioAssignment) (reference_samples : list f32)
    (sample_rate_hz channel_count : Z) (range : Z * Z) : AecLiveScenarioRender :=
  let delay_frames := sample_rate_hz * delay_ms (aa_phase assignment) / 1000 in
  let delay_samples := saturating_mul delay_frames channel_count in
  let signal := physical_sample (aa_phase assignment) <$> reference_samples in
  let changed_samples := count_changed signal reference_samples in
  mk_scenario_render assignment delay_frames changed_samples
    (if bool_decide (reference_samples = []) then S754_zero false
     else f64_ratio changed_samples (Z.of_nat (length reference_samples)))
    (replicate (Z.to_nat delay_samples) f32_zero ++ signal) range.
(** [&samples[start..end]] of a range that is in bounds. *)
Definition subslice (samples : list f32) (range : Z * Z) : list f32 :=
  take (Z.to_nat (range.2 - range.1)) (drop (Z.to_nat range.1) samples).
Fixpoint build_phases (assignments : list AecLiveScenarioAssignment) (index start_frame : Z)
    (blocks_per_phase remainder_blocks reference_block_frames : Z)
    (reference_samples : list f32) (sample_rate_hz channels : Z) : list AecLiveScenarioRender :=
  match assignments with
  | [] => []
  | assignment :: rest =>
      let phase_blocks := blocks_per_phase + (if index <? remainder_blocks then 1 else 0) in
      let end_frame := start_frame + phase_blocks * reference_block_frames in
      let range := (start_frame * channels, end_frame * channels) in
      build assignment (subslice reference_samples range) sample_rate_hz channels range
      :: build_phases rest (index + 1) end_frame blocks_per_phase remainder_blocks
           reference_block_frames reference_samples sample_rate_hz channels
  end.
Definition build_program (assignments : list AecLiveScenarioAssignment) (reference_samples : list f32)
    (sample_rate_hz channel_count : Z) : outcome (list AecLiveScenarioRender) :=
  let samples := Z.of_nat (length reference_samples) in
  let phases := Z.of_nat (length assignments) in
  if bool_decide (assignments = []) then Ok []
  else if negb (bool_decide (assignments = ordered_speech_simulation_assignments))
  then Err (Fail "AEC live scenario requires all three ordered phases")
  else if negb (sample_rate_hz =? SPEAKER_SAMPLE_RATE_HZ)
          || negb (channel_count =? SPEAKER_CHANNEL_COUNT)
          || negb (samples mod channel_count =? 0)
  then Err (Fail "AEC live scenario requires frame-aligned 48 kHz stereo PCM")
  else
    let reference_block_frames := sample_rate_hz * RENDER_REFERENCE_FRAME_MS / 1000 in
    let total_frames := samples / channel_count in
    let total_blocks := total_frames / reference_block_frames in
    if total_blocks <? phases
    then Err (Fail ("AEC live scenario cue too short for three real phases: frames="
           +:+ show_uint total_frames +:+ " minimumPhaseFrames=" +:+ show_uint reference_block_frames))
    else if negb (total_frames mod reference_block_frames =? 0)
    then Err (Fail ("AEC live scenario requires complete 10 ms reference blocks: frames="
           +:+ show_uint total_frames +:+ " blockFrames=" +:+ show_uint reference_block_frames))
    else Ok (build_phases assignments 0 0 (total_blocks / phases) (total_blocks mod phases)
               reference_block_frames reference_samples sample_rate_hz channel_count).
Definition scenario_reference_samples (r : AecLiveScenarioRender) (samples : list f32) : list f32 :=
  subslice samples (sr_reference_sample_range r).
Definition scenario_reference_frames (r : AecLiveScenarioRender) (samples : list f32)
    (channel_count : Z) : Z :=
  Z.of_nat (length (scenario_reference_samples r samples)) / channel_count.
Definition scenario_physical_frames (r : AecLiveScenarioRender) (channel_count : Z) : Z :=
  Z.of_nat (length (sr_physical_samples r)) / channel_count.
Definition physical_prefix_offset_frames (r : AecLiveScenarioRender) : Z :=
  Z.min (sr_delay_frames r) u32_max.
