(* ===== verification/AecLiveScenarioTheorems.v ===== *)
(** * The scenario renders a cue once, in three phases

    A program partitions the reference into whole blocks, and the reservation is
    held by one cue at a time and spent once. *)
From Stdlib Require Import Floats.SpecFloat.
From S2P Require Import Prelude RustStr PlaybackOwnership RenderSubmit SpeakerPcm AecLiveScenario.

Lemma subslice_length (l : list f32) (a b : Z) : 0 ≤ a ≤ b → b ≤ Z.of_nat (length l) →
  Z.of_nat (length (subslice l (a, b))) = b - a.
Proof. intros Ha Hb. unfold subslice. cbn [fst snd]. rewrite length_take, length_drop. lia. Qed.
Lemma subslice_join (l : list f32) (a b c : Z) : 0 ≤ a ≤ b → b ≤ c →
  subslice l (a, b) ++ subslice l (b, c) = subslice l (a, c).
Proof.
  intros Ha Hb. unfold subslice. cbn [fst snd].
  replace (Z.to_nat (c - a)) with (Z.to_nat (b - a) + Z.to_nat (c - b))%nat by lia.
  rewrite <-take_take_drop, drop_drop. do 3 f_equal. lia.
Qed.
Lemma subslice_all (l : list f32) : subslice l (0, Z.of_nat (length l)) = l.
Proof. unfold subslice. cbn [fst snd]. rewrite Z.sub_0_r, Nat2Z.id. simpl. by rewrite firstn_all. Qed.

(** What one phase renders. *)
Definition renders (samples : list f32) (r : AecLiveScenarioRender) : Prop :=
  let reference := scenario_reference_samples r samples in
  let phase := aa_phase (sr_assignment r) in
  sr_physical_samples r
    = replicate (Z.to_nat (2 * 48 * delay_ms phase)) f32_zero ++ (physical_sample phase <$> reference)
  ∧ sr_delay_frames r = 48 * delay_ms phase
  ∧ 480 ≤ scenario_reference_frames r samples 2
  ∧ scenario_reference_frames r samples 2 mod 480 = 0.
Lemma build_renders samples ordinal a b : 0 ≤ a → a + 1 ≤ b → b * 960 ≤ Z.of_nat (length samples) →
  renders samples (build (mk_assignment ordinal (for_ordinal ordinal))
    (subslice samples (a * 480 * 2, b * 480 * 2)) 48000 2 (a * 480 * 2, b * 480 * 2)).
Proof.
  intros Ha Hab Hb. unfold renders, scenario_reference_frames, scenario_reference_samples, build.
  cbn [sr_reference_sample_range sr_assignment aa_phase sr_physical_samples sr_delay_frames].
  rewrite subslice_length by lia.
  replace (b * 480 * 2 - a * 480 * 2) with ((b - a) * 480 * 2) by lia.
  rewrite Z.div_mul, Z.mod_mul by lia.
  split_and!; [|by destruct (for_ordinal _)|lia|done]. by destruct (for_ordinal _).
Qed.

(** The three phases, cut at the blocks [b1] and [b2] of [b3]. *)
Definition three_phases (samples : list f32) (b1 b2 b3 : Z) : list AecLiveScenarioRender :=
  (λ '(ordinal, (a, b)), build (mk_assignment ordinal (for_ordinal ordinal))
     (subslice samples (a * 480 * 2, b * 480 * 2)) 48000 2 (a * 480 * 2, b * 480 * 2))
  <$> [(1, (0, b1)); (2, (b1, b2)); (3, (b2, b3))].
Lemma program_phases samples program :
  build_program ordered_speech_simulation_assignments samples 48000 2 = Ok program →
  ∃ b1 b2 b3, program = three_phases samples b1 b2 b3 ∧ 1 ≤ b1 ∧ b1 + 1 ≤ b2 ∧ b2 + 1 ≤ b3
    ∧ b3 * 480 * 2 = Z.of_nat (length samples).
Proof.
  unfold build_program. rewrite bool_decide_eq_false_2, bool_decide_eq_true_2 by done.
  change (Z.of_nat (length ordered_speech_simulation_assignments)) with 3.
  unfold SPEAKER_SAMPLE_RATE_HZ, SPEAKER_CHANNEL_COUNT, RENDER_REFERENCE_FRAME_MS. cbn [negb orb].
  change (48000 * 10 / 1000) with 480. set (n := Z.of_nat (length samples)).
  destruct (Z.eqb_spec (n mod 2) 0) as [Hn|]; cbn [negb orb Z.eqb]; [|done].
  destruct (Z.ltb_spec (n / 2 / 480) 3) as [|Hb]; [done|].
  destruct (Z.eqb_spec ((n / 2) mod 480) 0) as [Hm|]; cbn [negb]; [|done].
  intros [= <-].
  pose proof (Z_div_mod_eq_full n 2). pose proof (Z_div_mod_eq_full (n / 2) 480).
  remember (n / 2 / 480) as B eqn:EB. clear EB. pose proof (Z_div_mod_eq_full B 3). pose proof (Z.mod_pos_bound B 3).
  remember (B / 3) as q eqn:Eq. remember (B mod 3) as r eqn:Er. clear Eq Er.
  exists (q + (if 0 <? r then 1 else 0)),
    (q + (if 0 <? r then 1 else 0) + (q + (if 1 <? r then 1 else 0))), B.
  assert (q + (if 0 <? r then 1 else 0) + (q + (if 1 <? r then 1 else 0))
          + (q + (if 2 <? r then 1 else 0)) = B) as <-.
  { destruct (Z.ltb_spec 0 r), (Z.ltb_spec 1 r), (Z.ltb_spec 2 r); lia. }
  split; [|destruct (Z.ltb_spec 0 r), (Z.ltb_spec 1 r), (Z.ltb_spec 2 r); lia].
  unfold three_phases. cbn -[Z.mul Z.add subslice build Z.ltb].
  change (0 + 1) with 1. change (1 + 1) with 2. by rewrite !Z.mul_add_distr_r, !Z.mul_0_l, !Z.add_0_l.
Qed.

(** C40: A program built for a cue has the three phases in order; their reference
    parts, in order, are the cue, each a whole number of 10 ms blocks and at least
    one; what a phase submits is its delay in silence, then the reference through
    the phase's distortion, one sample for each. *)
Theorem scenario_renders_the_cue_once samples program :
  build_program ordered_speech_simulation_assignments samples 48000 2 = Ok program →
  sr_assignment <$> program = ordered_speech_simulation_assignments
  ∧ concat ((λ r, scenario_reference_samples r samples) <$> program) = samples
  ∧ Forall (renders samples) program
  ∧ foldr (λ r n, scenario_physical_frames r 2 + n) 0 program = Z.of_nat (length samples) / 2 + 240 * 48.
Proof.
  intros (b1 & b2 & b3 & -> & H1 & H2 & H3 & Hn)%program_phases.
  pose proof (build_renders samples 1 0 b1 ltac:(lia) ltac:(lia) ltac:(lia)) as R1.
  pose proof (build_renders samples 2 b1 b2 ltac:(lia) ltac:(lia) ltac:(lia)) as R2.
  pose proof (build_renders samples 3 b2 b3 ltac:(lia) ltac:(lia) ltac:(lia)) as R3.
  split_and!; [done| | |].
  - unfold three_phases, scenario_reference_samples. cbn -[Z.mul subslice build].
    unfold build. cbn -[Z.mul subslice]. rewrite app_nil_r, !subslice_join by lia.
    rewrite Hn. apply subslice_all.
  - unfold three_phases. cbn -[Z.mul build subslice]. 
    apply Forall_cons_2; [exact R1|]. apply Forall_cons_2; [exact R2|]. by apply Forall_cons_2; [exact R3|].
  - assert (∀ ordinal a b k, renders samples (build (mk_assignment ordinal (for_ordinal ordinal))
        (subslice samples (a * 480 * 2, b * 480 * 2)) 48000 2 (a * 480 * 2, b * 480 * 2)) →
      0 ≤ a → a + 1 ≤ b → b * 480 * 2 ≤ Z.of_nat (length samples) → delay_ms (for_ordinal ordinal) = k →
      scenario_physical_frames (build (mk_assignment ordinal (for_ordinal ordinal))
        (subslice samples (a * 480 * 2, b * 480 * 2)) 48000 2 (a * 480 * 2, b * 480 * 2)) 2
      = 48 * k + (b - a) * 480) as Hf.
    { intros ordinal a b k [Hp _] Ha Hab Hb <-. unfold scenario_physical_frames. rewrite Hp.
      rewrite length_app, length_replicate, length_fmap, Nat2Z.inj_add.
      unfold scenario_reference_samples, build. cbn [sr_reference_sample_range sr_assignment aa_phase].
      rewrite subslice_length by lia. assert (0 ≤ delay_ms (for_ordinal ordinal)) by (destruct (for_ordinal ordinal); simpl; lia).
      rewrite Z2Nat.id by lia. symmetry; apply Z.div_unique_exact; lia. }
    unfold three_phases. cbn -[Z.mul Z.add build subslice scenario_physical_frames Z.div].
    rewrite (Hf 1 0 b1 0), (Hf 2 b1 b2 80), (Hf 3 b2 b3 160) by (done || lia).
    rewrite <-Hn, Z.div_mul by lia. lia.
Qed.
(** Four blocks: the first phase takes two. *)
Lemma scenario_renders_the_cue_once_witness :
  ∃ program, build_program ordered_speech_simulation_assignments (replicate 3840 f32_half) 48000 2 = Ok program
    ∧ concat ((λ r, scenario_reference_samples r (replicate 3840 f32_half)) <$> program)
      = replicate 3840 f32_half.
Proof.
  set (result := build_program ordered_speech_simulation_assignments (replicate 3840 f32_half) 48000 2).
  destruct result as [program|] eqn:E; [|by vm_compute in E].
  exists program. split; [done|]. apply (scenario_renders_the_cue_once _ _ E).
Defined.
