(* ===== verification/Mmcss.v ===== *)
(** * The scheduling lease of an audio thread

    Models [Lease] of [audio/mmcss_audio.rs]: a thread registers with the Windows
    multimedia scheduler and must give its token back once, on the same thread,
    whatever path the clean-up takes. The AVRT calls are oracles indexed by the
    number of calls made; a call may panic. *)
From S2P Require Import Prelude RustStr DesktopTimeline.

#[export] Instance mmcss_settable : Settable MmcssAudioReceipt := λ m,
  mk_mmcss (mm_schema_version m) (mm_task_name m) (mm_owner_thread_id m)
    (mm_registration_attempted m) (mm_registration_succeeded m) (mm_task_index m)
    (mm_registration_error_code m) (mm_cleanup_attempted m) (mm_revert_attempted m)
    (mm_revert_succeeded m) (mm_revert_thread_id m) (mm_revert_error_code m)
    (mm_restore_failure_kind m) (mm_cleanup_path m) (mm_state m).

(** [register] answers the token and the task index it stored. *)
Record AvrtApi := mk_avrt {
  av_current_thread_id : nat → outcome Z;
  av_register : nat → outcome (option (Z * Z));
  av_revert : nat → outcome bool;
  av_last_error : nat → outcome Z
}.
(** [ls_reverts] are the tokens given to [revert], each with the thread that
    called; [ls_calls] counts the AVRT calls. *)
Record Lease := mk_lease {
  ls_handle : Z; ls_receipt : MmcssAudioReceipt; ls_failure : option string;
  ls_reverts : list (Z * Z); ls_calls : nat
}.
#[export] Instance lease_settable : Settable Lease := λ l,
  mk_lease (ls_handle l) (ls_receipt l) (ls_failure l) (ls_reverts l) (ls_calls l).

Section Lease.
Context (api : AvrtApi).
Abbreviation Ls := (M Lease).

Definition avrt {A} (answer : nat → outcome A) : Ls A :=
  let* k := gets ls_calls in modify (λ l, l <| ls_calls := S k |>);;; lift (answer k).
Definition on_receipt (f : MmcssAudioReceipt → MmcssAudioReceipt) : Ls unit :=
  modify (λ l, l <| ls_receipt ::= f |>).

(** [Lease::register]: the lease, or the receipt of a failed registration. *)
Definition registering (owner_thread_id : Z) : MmcssAudioReceipt :=
  mk_mmcss 1 "Audio" owner_thread_id true false None None false false false None None None None
    RegistrationFailed.
Definition register : outcome (Lease + MmcssAudioReceipt * string) :=
  let? thread := av_current_thread_id api 0 in
  let receipt := registering thread in
  let? registered := av_register api 1 in
  match registered with
  | None =>
      let? code := av_last_error api 2 in
      Ok (inr (receipt <| mm_registration_error_code := Some code |>,
               "MMCSS Audio registration failed: Win32 " +:+ show_uint code))
  | Some (handle, index) =>
      Ok (inl (mk_lease handle
        (receipt <| mm_registration_succeeded := true |> <| mm_task_index := Some index |>
                 <| mm_state := SchedulingActive |>) None [] 2))
  end.
Definition restore_once : Ls unit :=
  let* thread := avrt (av_current_thread_id api) in
  on_receipt (λ m, m <| mm_revert_thread_id := Some thread |>);;;
  let* owner := gets (λ l, mm_owner_thread_id (ls_receipt l)) in
  if negb (thread =? owner) then
    on_receipt (λ m, m <| mm_restore_failure_kind := Some OwnerThreadMismatch |>);;;
    fail ("MMCSS Audio restore owner mismatch: " +:+ show_uint owner +:+ " != " +:+ show_uint thread)
  else
    on_receipt (λ m, m <| mm_revert_attempted := true |>);;;
    modify (λ l, l <| ls_reverts ::= λ r, r ++ [(thread, ls_handle l)] |>);;;
    let* reverted := avrt (av_revert api) in
    if negb reverted then
      let* code := avrt (av_last_error api) in
      on_receipt (λ m, m <| mm_revert_error_code := Some code |>
                         <| mm_restore_failure_kind := Some NativeError |>);;;
      fail ("MMCSS Audio restore failed: Win32 " +:+ show_uint code)
    else
      on_receipt (λ m, m <| mm_revert_succeeded := true |> <| mm_restore_failure_kind := None |>
                         <| mm_state := Restored |>).
(** [catch_unwind]: a panic becomes a value. *)
Definition caught (m : Ls unit) : Ls (outcome unit) := λ l,
  let '(result, l) := m l in
  (Ok (match result with
       | Err (Panic _) => Err (Fail "MMCSS Audio restore unwound")
       | result => result
       end), l).
Definition finish (path : CleanupPath) : Ls unit :=
  let* l := gets id in
  if mm_cleanup_attempted (ls_receipt l) then
    match ls_failure l with None => ret tt | Some error => fail error end
  else
    on_receipt (λ m, m <| mm_cleanup_attempted := true |> <| mm_cleanup_path := Some path |>
                       <| mm_state := RestoreFailed |>
                       <| mm_restore_failure_kind := Some Unwound |>);;;
    let* result := caught restore_once in
    match result with
    | Err (Fail error) => modify (λ l, l <| ls_failure := Some error |>)
    | _ => ret tt
    end;;;
    lift result.
(** [Drop for Lease]. *)
Definition drop_lease : Ls unit := λ l, (Ok tt, (finish DropFallback l).2).

(** Any use of a lease: its owner's clean-ups, then the drop. *)
Definition finishes (paths : list CleanupPath) (l : Lease) : list (outcome unit) * Lease :=
  fold_left (λ '(results, l) path,
    let '(result, l) := finish path l in (results ++ [result], l)) paths ([], l).
Definition lease_life (paths : list CleanupPath) (l : Lease) : list (outcome unit) * Lease :=
  let '(results, l) := finishes paths l in (results, (drop_lease l).2).
End Lease.
