(* ===== verification/MmcssTheorems.v ===== *)
(** * The scheduler's token is given back once, by its owner

    For any answers of the AVRT calls, panics included. *)
From S2P Require Import Prelude RustStr DesktopTimeline Mmcss.

Section Lease.
Context (api : AvrtApi).

(** The state of a lease before its first clean-up, and after it. *)
Definition fresh (l : Lease) : Prop :=
  mm_cleanup_attempted (ls_receipt l) = false ∧ ls_reverts l = []
  ∧ mm_revert_succeeded (ls_receipt l) = false ∧ mm_state (ls_receipt l) = SchedulingActive
  ∧ mm_revert_attempted (ls_receipt l) = false ∧ ls_failure l = None.
Definition settled (result : outcome unit) (path : CleanupPath) (l : Lease) : Prop :=
  let m := ls_receipt l in
  mm_cleanup_attempted m = true ∧ mm_cleanup_path m = Some path
  ∧ (∀ p, (finish api p l) = (result, l))
  ∧ (ls_reverts l = if mm_revert_attempted m then [(mm_owner_thread_id m, ls_handle l)] else [])
  ∧ (result = Ok tt ∧ mm_state m = Restored ∧ mm_revert_succeeded m = true
     ∧ mm_revert_attempted m = true ∧ mm_restore_failure_kind m = None
     ∨ (∃ error, result = Err (Fail error)) ∧ mm_state m = RestoreFailed
       ∧ mm_revert_succeeded m = false ∧ is_Some (mm_restore_failure_kind m)).
Lemma finish_settles path l : fresh l →
  let '(result, l') := finish api path l in
  settled result path l' ∧ ls_handle l' = ls_handle l
  ∧ mm_owner_thread_id (ls_receipt l') = mm_owner_thread_id (ls_receipt l).
Proof.
  destruct l as [handle [] failure reverts calls]. intros (H1 & H2 & H3 & H4 & H5 & H6). simpl in *. subst.
  unfold settled, finish at 1, restore_once, caught, avrt, on_receipt, bind, gets, modify, lift. cbn.
  destruct (av_current_thread_id api calls) as [thread|[]]; cbn; [|split_and!; naive_solver..].
  destruct (Z.eqb_spec thread mm_owner_thread_id) as [->|]; cbn; [|split_and!; naive_solver].
  destruct (av_revert api (S calls)) as [[]|[]]; cbn; [split_and!; naive_solver| |split_and!; naive_solver..].
  destruct (av_last_error api (S (S calls))) as [code|[]]; cbn; split_and!; naive_solver.
Qed.
Lemma settled_repeats result path paths l results : settled result path l →
  fold_left (λ '(results, l) path, let '(result, l) := finish api path l in (results ++ [result], l))
    paths (results, l) = (results ++ replicate (length paths) result, l).
Proof.
  intros (_ & _ & Hf & _). revert results.
  induction paths as [|p paths IH]; intros results; cbn [fold_left length replicate]; [by rewrite app_nil_r|].
  rewrite Hf, IH, <-app_assoc. done.
Qed.

(** C39: Whatever the AVRT calls answer, and panics included: over any sequence of
    clean-ups ended by the drop, a registered lease gives its token back at most
    once, on the thread that registered it; every clean-up has the result of the
    first one; the receipt says restored exactly when that result is a success,
    and never claims a restoration that did not happen. *)
Theorem token_is_given_back_once l paths :
  register api = Ok (inl l) →
  let '(results, l') := lease_life api paths l in
  let m := ls_receipt l' in
  mm_cleanup_attempted m = true
  ∧ mm_cleanup_path m = Some (default DropFallback (head paths))
  ∧ (ls_reverts l' = [] ∨ ls_reverts l' = [(mm_owner_thread_id (ls_receipt l), ls_handle l)])
  ∧ (∀ r1 r2, r1 ∈ results → r2 ∈ results → r1 = r2)
  ∧ (∀ r, r ∈ results → (r = Ok tt ↔ mm_state m = Restored))
  ∧ (mm_state m = Restored → mm_revert_succeeded m = true ∧ ls_reverts l' ≠ [])
  ∧ (mm_state m = Restored ∨ mm_state m = RestoreFailed ∧ is_Some (mm_restore_failure_kind m)).
Proof.
  intros Hr. assert (fresh l) as Hl.
  { unfold register in Hr. destruct (av_current_thread_id api 0) as [thread|]; [|done]. cbn in Hr.
    destruct (av_register api 1) as [[[handle index]|]|]; cbn in Hr; [by simplify_eq| |done].
    by destruct (av_last_error api 2). }
  unfold lease_life, finishes, drop_lease. destruct paths as [|path paths]; cbn [fold_left head default].
  - pose proof (finish_settles DropFallback l Hl) as Hs. destruct (finish api DropFallback l) as [r l'].
    destruct Hs as ((H1 & H2 & _ & H3 & H4) & Hh & Ho). cbn [snd]. rewrite H3, Ho, Hh.
    assert (∀ r', r' ∉ ([] : list (outcome unit))) as Hin by (intros r'; apply not_elem_of_nil).
    split_and!; [done|done|by case_match; auto|by intros r1 r2 ?%Hin|by intros r1 ?%Hin| |];
      destruct H4 as [(? & Hst & Hsu & Hat & _)|(_ & Hst & _ & Hk)]; rewrite ?Hst, ?Hat; naive_solver.
  - pose proof (finish_settles path l Hl) as Hs. destruct (finish api path l) as [r l'].
    destruct Hs as (Hs & Hh & Ho). rewrite (settled_repeats r path) by done.
    destruct Hs as (H1 & H2 & Hf & H3 & H4). rewrite Hf. cbn [snd]. rewrite H3, Ho, Hh.
    cbn [app]. assert (∀ r', r' ∈ r :: replicate (length paths) r → r' = r) as Hin.
    { intros r' [->|[-> _]%elem_of_replicate]%elem_of_cons; done. }
    split_and!; [done|done|by case_match; auto| | | |].
    + intros r1 r2 ->%Hin ->%Hin. done.
    + intros r' ->%Hin. destruct H4 as [(-> & -> & _)|([error ->] & -> & _)]; naive_solver.
    + destruct H4 as [(? & Hst & Hsu & Hat & _)|(_ & Hst & _ & Hk)]; rewrite ?Hst, ?Hat; naive_solver.
    + destruct H4 as [(? & Hst & Hsu & Hat & _)|(_ & Hst & _ & Hk)]; rewrite ?Hst, ?Hat; naive_solver.
Qed.
End Lease.

(** A token whose revert panics: tried once, never claimed as restored. *)
Definition panicking_api : AvrtApi :=
  mk_avrt (λ _, Ok 7) (λ _, Ok (Some (42, 1))) (λ _, Err (Panic "revert")) (λ _, Ok 5).
Lemma token_is_given_back_once_witness :
  let l := mk_lease 42 ((registering 7) <| mm_registration_succeeded := true |>
             <| mm_task_index := Some 1 |> <| mm_state := SchedulingActive |>) None [] 2 in
  let '(results, l') := lease_life panicking_api [CleanupExplicit; CleanupExplicit] l in
  register panicking_api = Ok (inl l) ∧ ls_reverts l' = [(7, 42)]
  ∧ mm_state (ls_receipt l') = RestoreFailed
  ∧ (∀ r1 r2, r1 ∈ results → r2 ∈ results → r1 = r2).
Proof.
  intros l. pose proof (token_is_given_back_once panicking_api l [CleanupExplicit; CleanupExplicit] eq_refl) as H.
  destruct (lease_life panicking_api [CleanupExplicit; CleanupExplicit] l) as [results l'] eqn:E.
  destruct H as (_ & _ & _ & H & _). split; [reflexivity|].
  vm_compute in E. injection E as <- <-. split; [reflexivity|]. split; [reflexivity|exact H].
Defined.
