(* ===== verification/NativeStream.v ===== *)
(** * One response on one speaker client

    Models [NativeDesktopStream] of [audio/speech/output/native_streaming.rs]: the
    deltas of a response are written to a WASAPI client while they arrive, every
    successful write is published with the echo reference it carries, and a
    receipt is returned once the client has played everything.

    The world outside is read through [Env]: its [k]-th answer is what the [k]-th
    call sees, as in [RenderSubmit]. The padding of the client may depend on all
    device calls so far. A device write carries the samples its bytes encode.
    Durations and instants are nanoseconds; a player position is kept in frames.
    The fill of the local pump diagnostic and its receipt are left out: nothing
    below depends on them. *)
From Stdlib Require Import Floats.SpecFloat.
From S2P Require Import Prelude RustStr PlaybackOwnership RenderSubmit DesktopTimeline Mmcss SpeakerPcm AecLiveScenario.

(** ** Events *)
Inductive DesktopStreamActivity := Opened | EndQueued | Completed | Aborted.
#[export] Instance activity_eq_dec : EqDecision DesktopStreamActivity.
Proof. solve_decision. Defined.
Record DesktopStreamTap := mk_tap {
  tp_render_session_id : Z; tp_renderer_owner_generation : Z; tp_renderer_instance_id : string;
  tp_physical_playback_device_id : string; tp_reference_start_frame : Z; tp_reference_end_frame : Z;
  tp_physical_start_frame : Z; tp_physical_end_frame : Z; tp_stage : option string;
  tp_stage_ordinal : option Z; tp_delay_ms : Z; tp_nonlinearity : string;
  tp_reference_samples : list f32; tp_physical_samples : list f32; tp_submitted_frames : Z;
  tp_endpoint_padding_frames : Z; tp_physical_prefix_offset_frames : Z;
  tp_submitted_qpc_100ns : option Z; tp_observed_at : Z
}.
Record ScenarioStageEvent := mk_stage_event {
  se_status : string; se_stage : string; se_ordinal : Z; se_delay_ms : Z; se_nonlinearity : string;
  se_reference_frames : Z; se_physical_frames : Z; se_changed_samples : Z;
  se_changed_ratio : spec_float; se_started_at_ms : Z; se_completed_at_ms : Z
}.
Inductive RenderEvent :=
| SessionStarted (session_id : Z) (endpoint_id renderer_instance_id : string) (owner_generation : Z)
    (observed_at : Z)
| StreamStarted (session_id : Z) (endpoint_id renderer_instance_id : string) (owner_generation : Z)
    (observed_at : Z)
| DeviceFault (reason : string) (observed_at : Z)
| SessionEnded (session_id : Z) (endpoint_id renderer_instance_id : string) (owner_generation : Z)
    (normally_drained stream_started : bool) (observed_at : Z)
| Frame (frame : DeferredRenderFrame f32)
| AecLiveScenarioStage (stage : ScenarioStageEvent).
Inductive DesktopStreamingEvent :=
| Render (event : RenderEvent)
| Tap (tap : DesktopStreamTap)
| Activity (activity : DesktopStreamActivity)
| Scheduling (receipt : MmcssAudioReceipt).
Record SpeakerPlaybackReceipt := mk_receipt {
  rc_rendered_frames : Z; rc_output_sample_rate_hz : Z; rc_output_channel_count : Z;
  rc_physical_playback_device_id : string; rc_renderer_instance_id : string;
  rc_renderer_owner_generation : Z
}.

(** ** State *)
Definition SCENARIO_PHASE_FRAMES : Z := STARTUP_FRAMES.
Record ScenarioStage := mk_stage {
  st_index : Z; st_started_at_ms : Z; st_end_submit_frame : Z; st_reference_frames : Z;
  st_physical_frames : Z; st_changed_samples : Z; st_prefix_remaining : Z; st_prefix_offset : Z
}.
#[export] Instance stage_settable : Settable ScenarioStage := λ s,
  mk_stage (st_index s) (st_started_at_ms s) (st_end_submit_frame s) (st_reference_frames s)
    (st_physical_frames s) (st_changed_samples s) (st_prefix_remaining s) (st_prefix_offset s).
Definition stage_default : ScenarioStage := mk_stage 0 0 0 0 0 0 0 0.
(** [nd_prepared] is the open client (its buffer size); [nd_underrun] whether the
    session has reported an underrun. *)
Record NativeDesktopStream := mk_stream {
  nd_prepared : option Z; nd_scheduling : option Lease; nd_permit : DesktopPlaybackPermit;
  nd_cue_id : string; nd_renderer_instance_id : string; nd_session_id : Z; nd_endpoint_id : string;
  nd_queue : StreamPcmQueue; nd_first_audio_at : option Z; nd_started : bool; nd_terminal : bool;
  nd_terminal_error : option string; nd_submitted_frames : Z;
  nd_scenario : list AecLiveScenarioAssignment; nd_scenario_phase_frames : Z;
  nd_stage : ScenarioStage; nd_deferred : list (DeferredRenderFrame f32); nd_underrun : bool
}.
#[export] Instance stream_settable : Settable NativeDesktopStream := λ s,
  mk_stream (nd_prepared s) (nd_scheduling s) (nd_permit s) (nd_cue_id s) (nd_renderer_instance_id s)
    (nd_session_id s) (nd_endpoint_id s) (nd_queue s) (nd_first_audio_at s) (nd_started s)
    (nd_terminal s) (nd_terminal_error s) (nd_submitted_frames s) (nd_scenario s)
    (nd_scenario_phase_frames s) (nd_stage s) (nd_deferred s) (nd_underrun s).
(** Calls on the client, with whether they succeeded. *)
Inductive DeviceOp := WriteOp (frames : Z) (samples : list f32) | StartOp | StopOp | ResetOp.
(** The rest of the process: the events the callback was given, the device calls,
    what was recorded on the permit, the scenario reservations released, and the
    number of calls answered. *)
Record Outside := mk_outside {
  os_events : list DesktopStreamingEvent; os_device : list (DeviceOp * bool);
  os_cancellation_failures : list string; os_released : list (string * bool); os_calls : nat
}.
#[export] Instance outside_settable : Settable Outside := λ o,
  mk_outside (os_events o) (os_device o) (os_cancellation_failures o) (os_released o) (os_calls o).
Record World := mk_world { wd_stream : NativeDesktopStream; wd_outside : Outside }.
#[export] Instance world_settable : Settable World := λ w, mk_world (wd_stream w) (wd_outside w).

Inductive HighResolutionEventWake := EventSignaled | DeadlineReached | SafetyTimedOut.
Inductive DesktopRenderWake := NotStarted | Signaled | TimedOut | DeadlineSignaled.
Record Env := mk_env {
  ev_ownership : nat → PlaybackOwnershipState;
  ev_endpoint : nat → outcome (string * Z);
  ev_device : nat → outcome unit;
  ev_padding : nat → list (DeviceOp * bool) → outcome Z;
  ev_wait : nat → Z → outcome HighResolutionEventWake;
  ev_callback : nat → outcome unit;
  ev_instant : nat → Z;
  ev_qpc : nat → option Z;
  ev_unix_ms : nat → Z;
  ev_assignments : nat → AssignmentsCell;
  ev_avrt : AvrtApi;
  ev_autostart_enabled : bool;
  ev_scenario_env_value : option string;
  ev_local_aec_probe_enabled : bool
}.

(** ** Results *)
Definition error_text (o : outcome unit) : option string :=
  match o with Ok _ => None | Err (Fail message) | Err (Panic message) => Some message end.
Definition combine_cleanup_results (results : list (outcome unit)) : outcome unit :=
  let errors := omap error_text results in
  if bool_decide (errors = []) then Ok tt else Err (Fail (join "; " errors)).
(** The result of a call that may fail, as a value; a panic unwinds. *)
Definition attempt {S A} (m : M S A) : M S (outcome A) := λ s,
  match m s with
  | (Err (Panic message), s) => (Err (Panic message), s)
  | (result, s) => (Ok result, s)
  end.
(** [if let Err(error) = &result { f(error) }]. *)
Definition on_error {S} (result : outcome unit) (f : string → M S unit) : M S unit :=
  match error_text result with Some error => f error | None => ret tt end.

Section Stream.
Context (env : Env).
Abbreviation Out := (M Outside).
Abbreviation Wd := (M World).

(** ** The outside world *)
Definition ask {A} (answer : nat → A) : Out A :=
  let* k := gets os_calls in modify (λ o, o <| os_calls := S k |>);;; ret (answer k).
(** A permit operation on the ownership state this lock acquisition sees. *)
Definition with_permit {A} (permit : DesktopPlaybackPermit)
    (op : DesktopPlaybackPermit → M PlaybackOwnershipState A) : Out A :=
  let* s := ask (ev_ownership env) in lift (op permit s).1.
Definition submit_under {A} (permit : DesktopPlaybackPermit) (action : Out A) : Out A :=
  with_permit permit ensure_active;;; action.
Definition record_failure (error : string) : Out unit :=
  modify (λ o, o <| os_cancellation_failures ::= λ l, l ++ [error] |>).
(** [write], [start], [stop] and [reset] of the client. *)
Definition device (op : DeviceOp) : Out unit :=
  let* result := ask (ev_device env) in
  modify (λ o, o <| os_device ::= λ l, l ++ [(op, is_ok result)] |>);;; lift result.
Definition padding : Out Z :=
  let* answer := ask (ev_padding env) in
  let* calls := gets os_device in lift (answer calls).
Definition now : Out Z := ask (ev_instant env).
(** [crate::audio::engine::aec_timing::qpc_now_100ns]. *)
Definition qpc_now_100ns : Out (option Z) := ask (ev_qpc env).
Definition now_unix_millis : Out Z := ask (ev_unix_ms env).
(** The reservation, as this acquisition of its mutex finds it. *)
Definition with_assignments {A} (op : M AssignmentsCell A) : Out A :=
  let* cell := ask (ev_assignments env) in lift (op cell).1.
Definition render_wait_timeout_ms (timeout : Z) : outcome Z :=
  let millis := (timeout + 999999) / 1000000 in
  if u32_max <=? millis then Err (Fail "native desktop event wait must be finite") else Ok millis.
Definition render_wake_result (result : outcome HighResolutionEventWake) : outcome DesktopRenderWake :=
  match result with
  | Ok EventSignaled => Ok Signaled
  | Ok DeadlineReached => Ok DeadlineSignaled
  | Ok SafetyTimedOut => Ok TimedOut
  | Err (Fail error) => Err (Fail ("native desktop event/deadline wait: " +:+ error))
  | Err (Panic message) => Err (Panic message)
  end.
Definition endpoint_wait (timeout : Z) : Out DesktopRenderWake :=
  let* millis := lift (render_wait_timeout_ms timeout) in
  let* answer := ask (ev_wait env) in lift (render_wake_result (answer millis)).

(** Calls from a stream's methods. *)
Definition out {A} (m : Out A) : Wd A := zoom wd_outside m.
Definition stream (f : NativeDesktopStream → NativeDesktopStream) : Wd unit :=
  modify (λ w, w <| wd_stream ::= f |>).
Definition self : Wd NativeDesktopStream := gets wd_stream.
Definition on_queue {A} (m : M StreamPcmQueue A) : Wd A := zoom wd_stream (zoom nd_queue m).

(** The caller's callback, and the one [Drop] passes. *)
Definition deliver (event : DesktopStreamingEvent) : Out unit :=
  modify (λ o, o <| os_events ::= λ l, l ++ [event] |>);;;
  let* result := ask (ev_callback env) in lift result.
Definition discard (event : DesktopStreamingEvent) : Out unit := ret tt.

Section Callback.
Context (events : DesktopStreamingEvent → Out unit).
Definition emit (event : DesktopStreamingEvent) : Wd unit := out (events event).

(** ** Starting and deferring, with this stream's callback *)
Definition publish_stream_started : Wd unit :=
  let* s := self in
  if nd_started s then ret tt
  else
    let* at_ := out now in
    emit (Render (StreamStarted (nd_session_id s) (nd_endpoint_id s) (nd_renderer_instance_id s)
      (pp_generation (nd_permit s)) at_));;;
    stream (λ s, s <| nd_started := true |>).
Fixpoint flush_deferred (frames : list (DeferredRenderFrame f32)) : Wd unit :=
  match frames with
  | [] => ret tt
  | frame :: rest =>
      stream (λ s, s <| nd_deferred := rest |>);;;
      let* result := attempt (emit (Render (Frame frame))) in
      match result with
      | Ok tt => flush_deferred rest
      | Err e => stream (λ s, s <| nd_deferred ::= cons frame |>);;; throw e
      end
  end.
Definition publish_started_and_flush : Wd unit :=
  publish_stream_started;;; let* s := self in flush_deferred (nd_deferred s).
Definition publish_or_defer_frame (frame : DeferredRenderFrame f32) : Wd unit :=
  let* s := self in
  if nd_started s then emit (Render (Frame frame))
  else stream (λ s, s <| nd_deferred ::= λ l, l ++ [frame] |>).

(** ** The diagnostic scenario's stages *)
(** [self.scenario[self.stage.index]]. *)
Definition current_assignment : Wd AecLiveScenarioAssignment :=
  let* s := self in
  match nd_scenario s !! Z.to_nat (st_index (nd_stage s)) with
  | Some assignment => ret assignment
  | None => panic "index out of bounds"
  end.
Definition stage_event (status : string) : Wd unit :=
  let* assignment := current_assignment in
  let* s := self in
  let stage := nd_stage s in
  let* completed_at_ms := (if bool_decide (status = "completed") then out now_unix_millis else ret 0) in
  emit (Render (AecLiveScenarioStage (mk_stage_event status (phase_as_str (aa_phase assignment))
    (aa_ordinal assignment) (delay_ms (aa_phase assignment)) (nonlinearity (aa_phase assignment))
    (st_reference_frames stage) (st_physical_frames stage) (st_changed_samples stage)
    (if st_reference_frames stage =? 0 then S754_zero false
     else f64_ratio (st_changed_samples stage) (st_reference_frames stage * 2))
    (st_started_at_ms stage) completed_at_ms))).
Definition start_stage : Wd unit :=
  let* assignment := current_assignment in
  let* started_at_ms := out now_unix_millis in
  let prefix := 48 * delay_ms (aa_phase assignment) in
  stream (λ s, s <| nd_stage ::= λ st, st <| st_started_at_ms := started_at_ms |>
    <| st_prefix_remaining := prefix |> <| st_prefix_offset := prefix |> <| st_physical_frames := 0 |>
    <| st_reference_frames := 0 |> <| st_changed_samples := 0 |> |>);;;
  stage_event "started".

(** ** Terminating *)
Definition finish_scheduling (path : CleanupPath) : Wd (outcome unit) :=
  let* s := self in
  match nd_scheduling s with
  | None => ret (Ok tt)
  | Some lease =>
      let '(restored, lease) := Mmcss.finish (ev_avrt env) path lease in
      stream (λ s, s <| nd_scheduling := Some lease |>);;;
      let* published := attempt (emit (Scheduling (ls_receipt lease))) in
      ret (combine_cleanup_results [restored; published])
  end.
Definition release_reservation (completed : bool) : Wd (outcome unit) :=
  let* s := self in
  if bool_decide (nd_scenario s = []) then ret (Ok tt)
  else
    out (modify (λ o, o <| os_released ::= λ l, l ++ [(nd_cue_id s, completed)] |>));;;
    attempt (out (with_assignments (finish_aec_live_scenario_assignments (nd_cue_id s) completed))).
Definition finish_with_path (completed : bool) (path : CleanupPath) : Wd unit :=
  let* s := self in
  if nd_terminal s then
    match nd_terminal_error s with None => ret tt | Some error => fail error end
  else
    stream (λ s, s <| nd_terminal := true |> <| nd_prepared := None |>);;;
    let* scheduling := finish_scheduling path in
    let completed := completed && is_ok scheduling in
    let* reservation := release_reservation completed in
    let completed := completed && is_ok reservation in
    let* at_ := out now in
    let* boundary := attempt (emit (Render (SessionEnded (nd_session_id s) (nd_endpoint_id s)
      (nd_renderer_instance_id s) (pp_generation (nd_permit s)) completed (nd_started s) at_))) in
    let* activity := attempt (emit (Activity (if completed && is_ok boundary then Completed else Aborted))) in
    let result := combine_cleanup_results [scheduling; reservation; boundary; activity] in
    on_error result (λ error,
      out (record_failure error);;; stream (λ s, s <| nd_terminal_error := Some error |>));;;
    lift result.
Definition finish_stream (completed : bool) : Wd unit := finish_with_path completed CleanupExplicit.
Definition abort_device : Wd (outcome unit) :=
  let* s := self in
  if negb (is_Some_b (nd_prepared s)) then ret (combine_cleanup_results [])
  else
    let* stopped := (if nd_started s
                     then let* r := attempt (out (device StopOp)) in ret [r] else ret []) in
    let* reset := attempt (out (device ResetOp)) in
    ret (combine_cleanup_results (stopped ++ [reset])).
Definition abort_with_path (path : CleanupPath) : Wd unit :=
  let* cleanup := abort_device in
  on_error cleanup (λ error, out (record_failure error));;;
  stream (λ s, s <| nd_queue ::= λ q, q <| pq_reference := [] |> <| pq_previous := None |> |>);;;
  let* terminal := attempt (finish_with_path false path) in
  let result := combine_cleanup_results [cleanup; terminal] in
  on_error result (λ error, stream (λ s, s <| nd_terminal_error := Some error |>));;;
  lift result.
Definition abort : Wd unit := abort_with_path CleanupExplicit.

(** ** The pump *)
(** [self.first_audio_at.map(|t| t.elapsed())]. *)
Definition first_audio_elapsed : Wd (option Z) :=
  let* s := self in
  match nd_first_audio_at s with
  | None => ret None
  | Some at_ => let* current := out now in ret (Some (saturating_sub current at_))
  end.
Definition scenario_active (s : NativeDesktopStream) : bool := negb (bool_decide (nd_scenario s = [])).
(** The boundary between two stages: whether to go on, after a transition or not;
    [None] while the stage that ended is still played. *)
Definition stage_boundary (played : Z) : Wd (option bool) :=
  let* s := self in
  let stage := nd_stage s in
  if scenario_active s && (st_index stage <? 2)
     && (nd_scenario_phase_frames s <=? st_reference_frames stage) then
    if played <? st_end_submit_frame stage then ret None
    else
      stage_event "completed";;;
      stream (λ s, s <| nd_stage ::= λ st, st <| st_index ::= λ i, i + 1 |> |>);;;
      start_stage;;;
      ret (Some true)
  else ret (Some false).
Definition observe_underrun (deliberate_stage_transition : bool) (padding_frames : Z) : Wd unit :=
  let* s := self in
  when ((negb (pq_ended (nd_queue s)) || (0 <? buffered_frames (nd_queue s))
         || (scenario_active s && (0 <? st_prefix_remaining (nd_stage s))))
        && negb deliberate_stage_transition)
    (let '(fault, reported) :=
       observe (nd_underrun s) (nd_started s) (nd_submitted_frames s) padding_frames in
     stream (λ s, s <| nd_underrun := reported |>);;;
     when fault (let* at_ := out now in emit (Render (DeviceFault "wasapi-render-underrun" at_)))).
Definition has_prefix (s : NativeDesktopStream) : bool :=
  scenario_active s && (0 <? st_prefix_remaining (nd_stage s)).
Definition requested_frames (s : NativeDesktopStream) : Z :=
  let reference_limit :=
    if scenario_active s && (st_index (nd_stage s) <? 2)
    then Z.min (saturating_sub (nd_scenario_phase_frames s) (st_reference_frames (nd_stage s))) BLOCK_FRAMES
    else BLOCK_FRAMES in
  if has_prefix s then Z.min (st_prefix_remaining (nd_stage s)) BLOCK_FRAMES
  else Z.min (buffered_frames (nd_queue s)) reference_limit.
Definition frames_of_samples (samples : list f32) : Z := Z.of_nat (length samples) / 2.
(** What is written for [reference]; a prefix is silence. *)
Definition physical_of (s : NativeDesktopStream) (prefix : bool) (frames : Z) (reference : list f32)
    : list f32 :=
  if prefix then replicate (Z.to_nat (frames * 2)) f32_zero
  else match nd_scenario s !! Z.to_nat (st_index (nd_stage s)) with
       | Some assignment => physical_sample (aa_phase assignment) <$> reference
       | None => reference
       end.
Definition count_submitted (frames : Z) (reference physical : list f32) (s : NativeDesktopStream)
    : NativeDesktopStream :=
  let s := s <| nd_submitted_frames ::= λ n, n + frames |>
             <| nd_queue ::= λ q, q <| pq_submitted_source_frames ::= λ n,
                  n + frames_of_samples reference |> |> in
  if negb (scenario_active s) then s
  else s <| nd_stage ::= λ st,
    st <| st_prefix_remaining ::= λ n, saturating_sub n frames |>
       <| st_reference_frames ::= λ n, n + frames_of_samples reference |>
       <| st_physical_frames ::= λ n, n + frames |>
       <| st_changed_samples ::= λ n, n + count_changed physical reference |>
       <| st_end_submit_frame := nd_submitted_frames s |> |>.
Definition tap_of (s : NativeDesktopStream) (frames : Z) (reference physical : list f32)
    (endpoint_padding_frames : Z) (submitted_qpc_100ns : option Z) (observed_at : Z) : DesktopStreamTap :=
  let assignment := nd_scenario s !! Z.to_nat (st_index (nd_stage s)) in
  let submitted_source_frames := pq_submitted_source_frames (nd_queue s) in
  mk_tap (nd_session_id s) (pp_generation (nd_permit s)) (nd_renderer_instance_id s) (nd_endpoint_id s)
    (saturating_sub submitted_source_frames (frames_of_samples reference)) submitted_source_frames
    (saturating_sub (nd_submitted_frames s) frames) (nd_submitted_frames s)
    ((λ a, phase_as_str (aa_phase a)) <$> assignment) (aa_ordinal <$> assignment)
    (match assignment with Some a => delay_ms (aa_phase a) | None => 0 end)
    (match assignment with Some a => nonlinearity (aa_phase a) | None => "none" end)
    reference physical (nd_submitted_frames s) endpoint_padding_frames
    (st_prefix_offset (nd_stage s)) submitted_qpc_100ns observed_at.
Definition start_client : Wd unit :=
  let* s := self in
  out (submit_under (nd_permit s) (device StartOp));;;
  publish_started_and_flush.
Definition frame_of (s : NativeDesktopStream) (reference : list f32) (endpoint_padding_frames : Z)
    (submitted_qpc_100ns : option Z) (observed_at : Z) : DeferredRenderFrame f32 :=
  mk_frame (nd_session_id s) reference 48000 2
    (saturating_sub (nd_submitted_frames s) endpoint_padding_frames) (nd_submitted_frames s)
    submitted_qpc_100ns endpoint_padding_frames (st_prefix_offset (nd_stage s)) observed_at.
(** Everything after the successful write of [frames]. *)
Definition publish_write (buffer_frames frames : Z) (startup_timed_out : bool)
    (reference physical : list f32) : Wd unit :=
  stream (count_submitted frames reference physical);;;
  let* observed_at := out now in
  let* submitted_qpc_100ns := out qpc_now_100ns in
  let* endpoint_padding_frames := out padding in
  let* s := self in
  if nd_submitted_frames s <? endpoint_padding_frames
  then fail "native desktop padding exceeds submit clock"
  else
    let prefill_frames := Z.min (BLOCK_FRAMES * 2) buffer_frames in
    let another_block_fits := BLOCK_FRAMES <=? saturating_sub buffer_frames endpoint_padding_frames in
    let short_ready := (buffered_frames (nd_queue s) =? 0) && (pq_ended (nd_queue s) || startup_timed_out) in
    when (negb (nd_started s) && ((prefill_frames <=? endpoint_padding_frames)
            || negb another_block_fits || short_ready)) start_client;;;
    emit (Tap (tap_of s frames reference physical endpoint_padding_frames submitted_qpc_100ns observed_at));;;
    when (negb (bool_decide (reference = [])))
      (publish_or_defer_frame
         (frame_of s reference endpoint_padding_frames submitted_qpc_100ns observed_at)).
Definition write_block (buffer_frames frames : Z) (startup_timed_out : bool) : Wd unit :=
  let* s := self in
  let prefix := has_prefix s in
  let* reference := (if prefix then ret [] else on_queue (take_reference frames true)) in
  let physical := physical_of s prefix frames reference in
  out (submit_under (nd_permit s) (device (WriteOp frames physical)));;;
  publish_write buffer_frames frames startup_timed_out reference physical.
(** The receipt, once everything was played. *)
Definition complete : Wd SpeakerPlaybackReceipt :=
  let* s := self in
  let q := nd_queue s in
  if negb (pq_submitted_source_frames q =? pq_accepted_source_frames q * 2)
  then fail "native desktop receipt frame count does not match admitted PCM"
  else
    let* scenario_fully_completed :=
      (if scenario_active s then
         if (st_index (nd_stage s) =? 2) && (BLOCK_FRAMES <=? st_reference_frames (nd_stage s))
         then stage_event "completed";;; ret true
         else ret false
       else ret true) in
    out (device StopOp);;;
    finish_stream scenario_fully_completed;;;
    ret (mk_receipt (pq_submitted_source_frames q) 48000 2 (nd_endpoint_id s)
           (nd_renderer_instance_id s) (pp_generation (nd_permit s))).
Definition poll_client (buffer_frames padding_frames : Z) : Wd (option SpeakerPlaybackReceipt) :=
  let* startup_timed_out :=
    (let* s := self in
     if nd_started s then ret false
     else let* elapsed := first_audio_elapsed in
          ret (match elapsed with Some elapsed => STARTUP_MAX_WAIT <=? elapsed | None => false end)) in
  let* s := self in
  let q := nd_queue s in
  let available := saturating_sub buffer_frames padding_frames in
  let ready := has_prefix s || (BLOCK_FRAMES <=? buffered_frames q) || pq_ended q || startup_timed_out in
  let frames := Z.min (requested_frames s) available in
  if ready && (0 <? frames) then
    write_block buffer_frames frames startup_timed_out;;; ret None
  else if pq_ended q && (buffered_frames q =? 0) && (padding_frames =? 0) then
    let* receipt := complete in ret (Some receipt)
  else ret None.
Definition poll_step : Wd (option SpeakerPlaybackReceipt) :=
  let* s := self in
  if nd_terminal s then fail "poll after native desktop terminal"
  else
    match nd_prepared s with
    | None => fail "native desktop client closed"
    | Some buffer_frames =>
        out (with_permit (nd_permit s) ensure_active);;;
        let* waiting :=
          (if nd_started s then ret false
           else let* elapsed := first_audio_elapsed in
                ret (negb (should_start (nd_queue s) (default 0 elapsed)))) in
        if waiting then ret None
        else
          let* padding_frames := out padding in
          let* boundary := stage_boundary (saturating_sub (nd_submitted_frames s) padding_frames) in
          match boundary with
          | None => ret None
          | Some deliberate_stage_transition =>
              observe_underrun deliberate_stage_transition padding_frames;;;
              poll_client buffer_frames padding_frames
          end
    end.
(** The loop over the two blocks that prime a client. *)
Fixpoint poll_blocks (blocks : nat) (stage_before : Z) : Wd (option SpeakerPlaybackReceipt) :=
  match blocks with
  | O => ret None
  | S blocks =>
      let* before := gets (λ w, nd_submitted_frames (wd_stream w)) in
      let* result := poll_step in
      let* s := self in
      let active_stage_transition := nd_started s && negb (st_index (nd_stage s) =? stage_before) in
      if is_Some_b result || (nd_started s && negb active_stage_transition)
         || (nd_submitted_frames s =? before)
      then ret result else poll_blocks blocks stage_before
  end.
Definition poll : Wd (option SpeakerPlaybackReceipt) :=
  let* s := self in poll_blocks 2 (st_index (nd_stage s)).

(** ** The other methods *)
Definition device_started (s : NativeDesktopStream) : bool := nd_started s && negb (nd_terminal s).
Definition wait_for_device (timeout : Z) : Wd DesktopRenderWake :=
  let* s := self in
  out (with_permit (nd_permit s) ensure_active);;;
  if nd_terminal s then fail "event wait after native desktop terminal"
  else if negb (nd_started s) then ret NotStarted
  else if negb (is_Some_b (nd_prepared s)) then fail "native desktop client closed"
  else
    let* result := attempt (out (endpoint_wait timeout)) in
    out (with_permit (nd_permit s) ensure_active);;;
    lift result.
Definition push_pcm (samples : list Z) (sample_rate_hz : Z) : Wd unit :=
  let* s := self in
  out (with_permit (nd_permit s) ensure_active);;;
  if negb (sample_rate_hz =? 24000) then fail "native desktop stream requires provider 24k mono PCM"
  else if nd_terminal s then fail "native desktop stream already terminated"
  else
    on_queue (push samples);;;
    when (negb (bool_decide (samples = [])) && negb (is_Some_b (nd_first_audio_at s)))
      (let* at_ := out now in stream (λ s, s <| nd_first_audio_at := Some at_ |>)).
Definition end_stream : Wd unit := on_queue finish_pcm;;; emit (Activity EndQueued).
Definition configure_local_aec_speech_simulation (phase_duration_ms : Z) : Wd unit :=
  let* s := self in
  if negb (ev_local_aec_probe_enabled env) || nd_started s || nd_terminal s || pq_ended (nd_queue s)
     || negb (pq_accepted_source_frames (nd_queue s) =? 0) || scenario_active s
     || negb ((20000 <=? phase_duration_ms) && (phase_duration_ms <=? 60000))
     || negb (phase_duration_ms mod 10 =? 0)
  then fail "local AEC profile requires exclusive opt-in, unopened PCM and 20-60s aligned phases"
  else
    stream (λ s, s <| nd_scenario := ordered_speech_simulation_assignments |>
                   <| nd_scenario_phase_frames := phase_duration_ms * 48 |>);;;
    start_stage.
End Callback.
(** [Drop]: an abort whose events nobody sees; a panic in it is caught. *)
Definition drop_stream : Wd unit := λ w,
  if nd_terminal (wd_stream w) then (Ok tt, w)
  else (Ok tt, (abort_with_path discard DropFallback w).2).

(** ** Opening *)
Definition finish_failed_stream_initialization (permit : DesktopPlaybackPermit) (scheduling : Lease)
    (original : string) : Out string :=
  let '(restored, scheduling) := Mmcss.finish (ev_avrt env) CleanupExplicit scheduling in
  let* published := attempt (deliver (Scheduling (ls_receipt scheduling))) in
  let cleanup := combine_cleanup_results [restored; published] in
  let error := default "" (error_text (combine_cleanup_results [Err (Fail original); cleanup])) in
  when (negb (is_ok cleanup)) (record_failure error);;; ret error.
(** What [permit.submit] runs: the client's construction, then the size check. *)
Definition open_endpoint (permit : DesktopPlaybackPermit) : Out (string * Z) :=
  submit_under permit (
    let* answer := ask (ev_endpoint env) in
    let* endpoint := lift answer in
    if endpoint.2 =? 0 then fail "native desktop endpoint has a zero-frame buffer" else ret endpoint).
Definition initialize (permit : DesktopPlaybackPermit) (cue_id : string) (scheduling : Lease)
    : Out ((string * Z) * list AecLiveScenarioAssignment) :=
  deliver (Scheduling (ls_receipt scheduling));;;
  let* endpoint := open_endpoint permit in
  let* scenario := with_assignments (active_aec_live_scenario_assignments
    (ev_autostart_enabled env) (ev_scenario_env_value env) cue_id) in
  ret (endpoint, scenario).
Definition new_stream (permit : DesktopPlaybackPermit) (scheduling : option Lease) (cue_id renderer_instance_id : string)
    (session_id : Z) (first_audio_at : option Z) (endpoint : string * Z)
    (scenario : list AecLiveScenarioAssignment) : NativeDesktopStream :=
  mk_stream (Some endpoint.2) scheduling permit cue_id renderer_instance_id session_id endpoint.1
    pcm_queue_default first_audio_at false false None 0 scenario SCENARIO_PHASE_FRAMES stage_default [] false.
Definition announce : Wd unit :=
  let* s := self in
  let* at_ := out now in
  emit deliver (Render (SessionStarted (nd_session_id s) (nd_endpoint_id s) (nd_renderer_instance_id s)
    (pp_generation (nd_permit s)) at_));;;
  emit deliver (Activity Opened);;;
  when (scenario_active s) (start_stage deliver).
(** Runs a stream's method on a stream of its own. *)
Definition with_stream {A} (s : NativeDesktopStream) (m : Wd A) : Out (outcome A * NativeDesktopStream) :=
  λ o, let '(result, w) := m (mk_world s o) in
       match result with
       | Err (Panic message) => (Err (Panic message), wd_outside w)
       | result => (Ok (result, wd_stream w), wd_outside w)
       end.
Definition open (cue_id : string) (process_id session_id first_audio_at : Z) : Out NativeDesktopStream :=
  let* ownership := ask (ev_ownership env) in
  let* permit := lift (acquire cue_id "native-omni-stream" ownership).1 in
  let* registered := lift (register (ev_avrt env)) in
  match registered with
  | inr (receipt, detail) =>
      let* published := attempt (deliver (Scheduling receipt)) in
      fail (default "" (error_text (combine_cleanup_results [Err (Fail detail); published])))
  | inl scheduling =>
      let* initialized := attempt (initialize permit cue_id scheduling) in
      match initialized with
      | Ok (endpoint, scenario) =>
          let stream := new_stream permit (Some scheduling) cue_id
            ("desktop-process-" +:+ show_uint process_id) session_id (Some first_audio_at) endpoint scenario in
          let* announced := with_stream stream announce in
          let '(result, stream) := announced in
          match result with
          | Ok tt => ret stream
          | Err (Fail error) =>
              let* aborted := with_stream stream (abort deliver) in
              fail (default "" (error_text (combine_cleanup_results [Err (Fail error); aborted.1])))
          | Err (Panic message) => panic message
          end
      | Err (Fail error) =>
          let* error := finish_failed_stream_initialization permit scheduling error in fail error
      | Err (Panic message) => panic message
      end
  end.

(** ** A use of a stream
    The calls of an owner that stops at the first error, what it was accepted and
    the receipts it got. *)
Inductive stream_call :=
| CallPushPcm (samples : list Z) (sample_rate_hz : Z)
| CallEndStream
| CallPoll
| CallWait (timeout : Z)
| CallConfigure (phase_duration_ms : Z).
Record Use := mk_use {
  us_world : World; us_accepted : list Z; us_receipts : list SpeakerPlaybackReceipt
}.
#[export] Instance use_settable : Settable Use := λ u,
  mk_use (us_world u) (us_accepted u) (us_receipts u).
Definition run_call (call : stream_call) : M Use unit :=
  match call with
  | CallPushPcm samples rate =>
      zoom us_world (push_pcm samples rate);;; modify (λ u, u <| us_accepted ::= λ l, l ++ samples |>)
  | CallEndStream => zoom us_world (end_stream deliver)
  | CallPoll =>
      let* receipt := zoom us_world (poll deliver) in
      match receipt with
      | Some receipt => modify (λ u, u <| us_receipts ::= λ l, l ++ [receipt] |>)
      | None => ret tt
      end
  | CallWait timeout => let* wake := zoom us_world (wait_for_device timeout) in ret tt
  | CallConfigure phase_duration_ms =>
      zoom us_world (configure_local_aec_speech_simulation deliver phase_duration_ms)
  end.
Fixpoint use_stream (calls : list stream_call) : M Use unit :=
  match calls with [] => ret tt | call :: calls => run_call call;;; use_stream calls end.
(** The owner's end: an abort after an error, then the drop. *)
Definition close_use (failed : bool) : M Use unit := λ u,
  let w := if failed then (abort deliver (us_world u)).2 else us_world u in
  (Ok tt, u <| us_world := (drop_stream w).2 |>).
Definition initial_outside : Outside := mk_outside [] [] [] [] 0.
End Stream.
