(* ===== verification/NativeStreamFacts.v ===== *)
(** * The pump of a desktop stream, step by step

    What the process outside sees of a stream (its view), the invariant between
    two calls, and a rule for every step of a write, of the pump and of the
    termination: a Hoare logic over views, whose error states keep what was
    published true. *)
From Stdlib Require Import Floats.SpecFloat.
From S2P Require Import Prelude RustStr PlaybackOwnership RenderSubmit DesktopTimeline Mmcss SpeakerPcm SpeakerPcmTheorems AecLiveScenario NativeStream.

(** ** What the process outside sees of a stream *)
Definition tap_in (e : DesktopStreamingEvent) : option DesktopStreamTap :=
  match e with Tap t => Some t | _ => None end.
Definition frame_in (e : DesktopStreamingEvent) : option (DeferredRenderFrame f32) :=
  match e with Render (Frame f) => Some f | _ => None end.
Definition is_completed (e : DesktopStreamingEvent) : bool :=
  match e with Activity Completed => true | _ => false end.
Definition write_in (op : DeviceOp * bool) : option (list f32) :=
  match op with (WriteOp _ samples, true) => Some samples | _ => None end.
Definition taps (o : Outside) : list DesktopStreamTap := omap tap_in (os_events o).
Definition reference_pcm (l : list DesktopStreamTap) : list f32 := concat (tp_reference_samples <$> l).
Definition physical_pcm (l : list DesktopStreamTap) : list f32 := concat (tp_physical_samples <$> l).
(** The echo canceller's reference, and the samples the client accepted. *)
Definition echo_pcm (l : list (DeferredRenderFrame f32)) : list f32 := concat (fr_samples <$> l).
Definition echo_frames (o : Outside) : list (DeferredRenderFrame f32) := omap frame_in (os_events o).
Definition written (o : Outside) : list f32 := concat (omap write_in (os_device o)).
Definition completed (o : Outside) : bool := existsb is_completed (os_events o).

Record view := mk_view {
  v_taps : list DesktopStreamTap; v_echo : list f32; v_completed : bool; v_written : list f32;
  v_queue : StreamPcmQueue; v_started : bool; v_deferred : list (DeferredRenderFrame f32);
  v_submitted_frames : Z; v_terminal : bool; v_open : bool;
  v_assignment : option AecLiveScenarioAssignment
}.
#[export] Instance view_settable : Settable view := λ v,
  mk_view (v_taps v) (v_echo v) (v_completed v) (v_written v) (v_queue v) (v_started v) (v_deferred v)
    (v_submitted_frames v) (v_terminal v) (v_open v) (v_assignment v).
Definition assignment_of (s : NativeDesktopStream) : option AecLiveScenarioAssignment :=
  nd_scenario s !! Z.to_nat (st_index (nd_stage s)).
Definition view_of (w : World) : view :=
  let '(mk_world s o) := w in
  mk_view (taps o) (echo_pcm (echo_frames o)) (completed o) (written o) (nd_queue s) (nd_started s)
    (nd_deferred s) (nd_submitted_frames s) (nd_terminal s) (is_Some_b (nd_prepared s))
    (assignment_of s).

(** ** Steps nobody outside can see *)
Definition same (w w' : World) : Prop := view_of w = view_of w'.
#[export] Instance same_preorder : PreOrder same.
Proof. split; unfold same; [done|intros x y z; congruence]. Qed.
(** The same, but for the scenario's stage. *)
Definition same_play (w w' : World) : Prop :=
  (view_of w) <| v_assignment := None |> = (view_of w') <| v_assignment := None |>.
#[export] Instance same_play_preorder : PreOrder same_play.
Proof. split; unfold same_play; [done|intros x y z; congruence]. Qed.
Lemma evolves_play {A} (m : M World A) : evolves same m → evolves same_play m.
Proof. intros H w. specialize (H w). unfold same, same_play in *. by rewrite H. Qed.
Definition quiet_event (e : DesktopStreamingEvent) : bool :=
  match e with Tap _ | Render (Frame _) | Activity Completed => false | _ => true end.
Definition quiet_op (op : DeviceOp) : bool := match op with WriteOp _ _ => false | _ => true end.
Definition same_out (o o' : Outside) : Prop :=
  taps o = taps o' ∧ echo_frames o = echo_frames o' ∧ completed o = completed o' ∧ written o = written o'.
#[export] Instance same_out_preorder : PreOrder same_out.
Proof. split; unfold same_out; [done|]. intros x y z. naive_solver congruence. Qed.
Lemma evolves_out {A} (m : M Outside A) : evolves same_out m → evolves same (out m).
Proof.
  intros H [s o]. specialize (H o). unfold out, zoom, same. cbn.
  destruct (m o) as [r o']. destruct H as (H1 & H2 & H3 & H4). cbn in *. by rewrite H1, H2, H3, H4.
Qed.
Lemma same_stream f :
  (∀ s, nd_queue (f s) = nd_queue s ∧ nd_started (f s) = nd_started s ∧ nd_deferred (f s) = nd_deferred s
    ∧ nd_submitted_frames (f s) = nd_submitted_frames s ∧ nd_terminal (f s) = nd_terminal s
    ∧ nd_prepared (f s) = nd_prepared s ∧ assignment_of (f s) = assignment_of s) →
  evolves same (stream f).
Proof.
  intros H [s o]. destruct (H s) as (H1 & H2 & H3 & H4 & H5 & H6 & H7).
  unfold stream, modify, same. cbn. by rewrite H1, H2, H3, H4, H5, H6, H7.
Qed.
Lemma evolves_attempted {S A} (R : S → S → Prop) (m : M S A) : evolves R m → evolves R (attempt m).
Proof. intros H s. specialize (H s). unfold attempt. by destruct (m s) as [[|[]] s']. Qed.
Lemma evolves_self (R : World → World → Prop) `{!PreOrder R} : evolves R self.
Proof. apply evolves_gets. typeclasses eauto. Qed.

#[local] Hint Resolve evolves_self evolves_out evolves_attempted : evolve.
#[local] Hint Extern 3 (evolves same_play _) => apply evolves_play : evolve.
#[local] Hint Extern 2 (evolves same (stream _)) => apply same_stream; by intros [] : evolve.

Section Stream.
Context (env : Env).

Lemma same_ask {A} (answer : nat → A) : evolves same_out (ask answer).
Proof. by intros []. Qed.
#[local] Hint Resolve same_ask : evolve.
Lemma same_with_permit {A} p (op : _ → M PlaybackOwnershipState A) : evolves same_out (with_permit env p op).
Proof. unfold with_permit. evolve. Qed.
Lemma same_device op : quiet_op op = true → evolves same_out (device env op).
Proof.
  intros Hq. unfold device. evolve. apply evolves_modify. intros o. split_and!; [done..|].
  unfold written. cbn. rewrite omap_app, concat_app. destruct op; try done; cbn; by rewrite app_nil_r.
Qed.
Lemma same_deliver e : quiet_event e = true → evolves same_out (deliver env e).
Proof.
  intros Hq. unfold deliver. evolve.
  apply evolves_modify. intros o. unfold same_out, taps, echo_frames, completed, written. cbn.
  rewrite !omap_app, existsb_app.
  destruct e as [[]| |[]|]; try done; cbn; by rewrite ?app_nil_r, ?orb_false_r.
Qed.
Lemma same_padding : evolves same_out (padding env).
Proof. unfold padding. evolve. Qed.
Lemma same_record e : evolves same_out (record_failure e).
Proof. apply evolves_modify. done. Qed.
Lemma same_released f : evolves same_out (modify (λ o, o <| os_released ::= f |>)).
Proof. by apply evolves_modify. Qed.
#[local] Hint Resolve same_with_permit same_device same_deliver same_padding same_record same_released : evolve.
Lemma same_now : evolves same_out (now env).
Proof. apply same_ask. Qed.
Lemma same_submit {A} p (m : M Outside A) : evolves same_out m → evolves same_out (submit_under env p m).
Proof. intros H. unfold submit_under. evolve. Qed.
Lemma same_assignments {A} (op : M AssignmentsCell A) : evolves same_out (with_assignments env op).
Proof. unfold with_assignments. evolve. Qed.
#[local] Hint Resolve same_now same_submit same_assignments : evolve.
Lemma same_emit e : quiet_event e = true → evolves same (emit (deliver env) e).
Proof. intros H. unfold emit. evolve. Qed.
#[local] Hint Resolve same_emit : evolve.

(** The parts of the pump that only announce. *)
Lemma same_stage_event status : evolves same (stage_event env (deliver env) status).
Proof.
  unfold stage_event, current_assignment, now_unix_millis. evolve.
Qed.
Lemma same_start_stage : evolves same (start_stage env (deliver env)).
Proof. unfold start_stage, current_assignment, now_unix_millis. pose proof same_stage_event. evolve. Qed.
#[local] Hint Resolve same_stage_event same_start_stage : evolve.
Lemma same_stage_boundary played : evolves same_play (stage_boundary env (deliver env) played).
Proof. unfold stage_boundary. evolve. apply evolves_modify. by intros [[] []]. Qed.
Lemma same_observe_underrun b p : evolves same (observe_underrun env (deliver env) b p).
Proof. unfold observe_underrun. evolve. Qed.
Lemma same_first_audio_elapsed : evolves same (first_audio_elapsed env).
Proof. unfold first_audio_elapsed. evolve. Qed.
Lemma same_finish_scheduling path : evolves same (finish_scheduling env (deliver env) path).
Proof. unfold finish_scheduling. evolve. Qed.
Lemma same_release completed : evolves same (release_reservation env completed).
Proof. unfold release_reservation. evolve. Qed.
Lemma same_endpoint_wait timeout : evolves same_out (endpoint_wait env timeout).
Proof. unfold endpoint_wait. evolve. Qed.
#[local] Hint Resolve same_endpoint_wait : evolve.
Lemma same_wait timeout : evolves same (wait_for_device env timeout).
Proof. unfold wait_for_device. evolve. Qed.
#[local] Hint Resolve same_stage_boundary same_observe_underrun
  same_first_audio_elapsed same_finish_scheduling same_release same_wait : evolve.
Lemma same_configure ms : evolves same_play (configure_local_aec_speech_simulation env (deliver env) ms).
Proof. unfold configure_local_aec_speech_simulation. evolve. apply evolves_modify. by intros [[] []]. Qed.

(** ** What holds between two calls *)
(** A tap carries one write: silence of a delay, the reference itself, or the
    reference through the distortion of the tap's stage. *)
Definition faithful (t : DesktopStreamTap) : Prop :=
  (tp_reference_samples t = [] ∧ ∃ n, tp_physical_samples t = replicate n f32_zero)
  ∨ (tp_stage t = None ∧ tp_physical_samples t = tp_reference_samples t)
  ∨ (∃ phase, tp_stage t = Some (phase_as_str phase)
       ∧ tp_physical_samples t = physical_sample phase <$> tp_reference_samples t).
(** The frame numbers of a tap count the samples of the taps before it. *)
Definition size (l : list f32) : Z := Z.of_nat (length l).
Definition placed (l : list DesktopStreamTap) : Prop :=
  ∀ pre t post, l = pre ++ t :: post →
    tp_reference_start_frame t * 2 = size (reference_pcm pre)
    ∧ tp_reference_end_frame t * 2 = size (reference_pcm (pre ++ [t]))
    ∧ tp_physical_start_frame t * 2 = size (physical_pcm pre)
    ∧ tp_physical_end_frame t * 2 = size (physical_pcm (pre ++ [t])).
(** The work of one write that is not published yet. *)
Record mode := mk_mode {
  m_reference : list f32; m_physical : list f32; m_counted : bool; m_echo : list f32;
  m_flushing : bool
}.
Definition idle : mode := mk_mode [] [] false [] false.
Definition whole (accepted : list Z) : list f32 := upsampled (i16_to_f32 <$> accepted).
Record at_v (accepted : list Z) (m : mode) (v : view) : Prop := {
  a_pcm : pcm_ok (mk_pcm_run (v_queue v) accepted (reference_pcm (v_taps v) ++ m_reference m));
  a_physical : v_written v = physical_pcm (v_taps v) ++ m_physical m;
  a_source : pq_submitted_source_frames (v_queue v) * 2
    = size (reference_pcm (v_taps v)) + (if m_counted m then size (m_reference m) else 0);
  a_submitted : v_submitted_frames v * 2
    = size (physical_pcm (v_taps v)) + (if m_counted m then size (m_physical m) else 0);
  a_echo : v_echo v ++ echo_pcm (v_deferred v) ++ m_echo m = reference_pcm (v_taps v);
  a_started : v_started v = true → m_flushing m = false → v_deferred v = [];
  a_silent : v_started v = false → v_echo v = [];
  a_faithful : Forall faithful (v_taps v);
  a_placed : placed (v_taps v);
  a_live : v_completed v = false ∧ v_terminal v = false ∧ v_open v = true
}.
Definition at_ (accepted : list Z) (m : mode) (w : World) : Prop := at_v accepted m (view_of w).
Definition finished (accepted : list Z) (v : view) : Prop :=
  reference_pcm (v_taps v) = whole accepted ∧ v_written v = physical_pcm (v_taps v)
  ∧ v_echo v = reference_pcm (v_taps v).
Record weak_v (accepted : list Z) (v : view) : Prop := {
  w_reference : reference_pcm (v_taps v) `prefix_of` whole accepted;
  w_physical : physical_pcm (v_taps v) `prefix_of` v_written v;
  w_echo : v_echo v `prefix_of` reference_pcm (v_taps v);
  w_faithful : Forall faithful (v_taps v);
  w_placed : placed (v_taps v);
  w_completed : v_completed v = true → finished accepted v
}.
Definition weak (accepted : list Z) (w : World) : Prop := weak_v accepted (view_of w).
Lemma at_v_weak accepted m v : at_v accepted m v → weak_v accepted v.
Proof.
  intros [[H1 _ _ _] H2 _ _ H3 _ _ H4 H5 [H6 _]]. split; try done; [| | |by rewrite H6].
  - cbn [pr_taken pr_queue pr_accepted] in H1. rewrite <-app_assoc in H1.
    transitivity (reference_pcm (v_taps v) ++ m_reference m ++ pq_reference (v_queue v)); [by eexists|].
    rewrite H1. unfold whole, upsampled. destruct (pq_ended _); [done|]. rewrite app_nil_r. by eexists.
  - rewrite H2. by eexists.
  - rewrite <-H3. by eexists.
Qed.
Lemma holds_weak accepted m w : at_ accepted m w → weak accepted w.
Proof. apply at_v_weak. Qed.
Lemma at_play accepted md w w' : same_play w w' → at_ accepted md w → at_ accepted md w'.
Proof.
  unfold same_play, at_. destruct (view_of w), (view_of w'). cbn. intros [= <- <- <- <- <- <- <- <- <- <-].
  intros []. by split.
Qed.
Lemma keep {A} (m : M World A) accepted md : evolves same_play m →
  triple (at_ accepted md) m (λ _, at_ accepted md) (weak accepted).
Proof.
  intros H. apply (triple_evolves _ same_play); [done| |by intros w; apply holds_weak].
  intros w w'. apply at_play.
Qed.
(** A step after an invisible one. *)
Lemma then_ {A B} (m : M World A) (k : A → M World B) accepted md Q : evolves same_play m →
  (∀ a, triple (at_ accepted md) (k a) Q (weak accepted)) →
  triple (at_ accepted md) (bind m k) Q (weak accepted).
Proof. intros Hm Hk. eapply triple_bind; [by apply keep|]. intros a. apply Hk. Qed.
Lemma placed_snoc l t : placed l →
  tp_reference_start_frame t * 2 = size (reference_pcm l) →
  tp_reference_end_frame t * 2 = size (reference_pcm (l ++ [t])) →
  tp_physical_start_frame t * 2 = size (physical_pcm l) →
  tp_physical_end_frame t * 2 = size (physical_pcm (l ++ [t])) → placed (l ++ [t]).
Proof.
  intros Hl H1 H2 H3 H4 pre t' post He. destruct post as [|x post _] using rev_ind.
  - apply app_inj_tail in He as [<- <-]. done.
  - rewrite app_comm_cons, app_assoc in He. apply app_inj_tail in He as [-> _]. by eapply Hl.
Qed.

(** ** The effect of a step on the view *)
Definition add_event (e : DesktopStreamingEvent) (v : view) : view :=
  match e with
  | Tap t => v <| v_taps ::= λ l, l ++ [t] |>
  | Render (Frame f) => v <| v_echo ::= λ l, l ++ fr_samples f |>
  | Activity Completed => v <| v_completed := true |>
  | _ => v
  end.
Definition add_write (op : DeviceOp) (v : view) : view :=
  match op with WriteOp _ samples => v <| v_written ::= λ l, l ++ samples |> | _ => v end.
Lemma view_event s o e :
  view_of (mk_world s (o <| os_events ::= λ l, l ++ [e] |>)) = add_event e (view_of (mk_world s o)).
Proof.
  destruct o. cbn. unfold taps, echo_frames, completed, written, echo_pcm. cbn.
  rewrite !omap_app, existsb_app, fmap_app, concat_app.
  destruct e as [[]| |[]|]; cbn; by rewrite ?app_nil_r, ?orb_false_r, ?orb_true_r.
Qed.
Lemma view_op s o op ok :
  view_of (mk_world s (o <| os_device ::= λ l, l ++ [(op, ok)] |>))
  = if ok then add_write op (view_of (mk_world s o)) else view_of (mk_world s o).
Proof.
  destruct o. cbn. unfold taps, echo_frames, completed, written. cbn.
  rewrite omap_app, concat_app. destruct op, ok; cbn; by rewrite ?app_nil_r.
Qed.

Section Rules.
Context (accepted : list Z).
(** A step that takes the views of [P] to those of [Q]. *)
Definition step {A} (P : view → Prop) (m : M World A) (Q : A → view → Prop) : Prop :=
  triple (λ w, P (view_of w)) m (λ a w, Q a (view_of w)) (weak accepted).
Lemma step_emit e (P Q : view → Prop) :
  (∀ v, P v → Q (add_event e v)) → (∀ v, Q v → weak_v accepted v) →
  step P (emit (deliver env) e) (λ _, Q).
Proof.
  intros HQ Hw [s o] HP. unfold emit, out, zoom, deliver. cbn [wd_outside]. rewrite bind_modify. cbv beta.
  pose proof (view_event s o e) as Hv. set (o' := o <| os_events ::= λ l, l ++ [e] |>) in *.
  assert (view_of (mk_world s (o' <| os_calls := S (os_calls o') |>)) = add_event e (view_of (mk_world s o)))
    as Hv' by exact Hv.
  unfold ask, bind, gets, modify, ret, lift. cbn.
  destruct (ev_callback env (os_calls o)) as [[]|err].
  - exact (eq_ind_r Q (HQ _ HP) Hv').
  - exact (eq_ind_r (weak_v accepted) (Hw _ (HQ _ HP)) Hv').
Qed.
Lemma step_attempt_emit e (P Q : view → Prop) :
  (∀ v, P v → Q (add_event e v)) → (∀ v, Q v → weak_v accepted v) →
  step P (attempt (emit (deliver env) e)) (λ _, Q).
Proof.
  intros HQ Hw [s o] HP. unfold attempt, emit, out, zoom, deliver. cbn [wd_outside]. rewrite bind_modify. cbv beta.
  pose proof (view_event s o e) as Hv. set (o' := o <| os_events ::= λ l, l ++ [e] |>) in *.
  assert (view_of (mk_world s (o' <| os_calls := S (os_calls o') |>)) = add_event e (view_of (mk_world s o)))
    as Hv' by exact Hv.
  unfold ask, bind, gets, modify, ret, lift. cbn.
  destruct (ev_callback env (os_calls o)) as [[]|[]].
  - exact (eq_ind_r Q (HQ _ HP) Hv').
  - exact (eq_ind_r Q (HQ _ HP) Hv').
  - exact (eq_ind_r (weak_v accepted) (Hw _ (HQ _ HP)) Hv').
Qed.
Lemma step_device op (P Q : view → Prop) :
  (∀ v, P v → Q (add_write op v)) → (∀ v, P v → weak_v accepted v) →
  step P (out (device env op)) (λ _, Q).
Proof.
  intros HQ Hw [s o] HP. unfold out, zoom, device, ask, bind, gets, modify, ret, lift. cbn.
  pose proof (view_op s (o <| os_calls := S (os_calls o) |>) op) as Hv.
  destruct (ev_device env (os_calls o)) as [[]|err]; cbn [is_ok].
  - exact (eq_ind_r Q (HQ _ HP) (Hv true)).
  - exact (eq_ind_r (weak_v accepted) (Hw _ HP) (Hv false)).
Qed.
Lemma step_stream f g (P Q : view → Prop) :
  (∀ s o, view_of (mk_world (f s) o) = g (view_of (mk_world s o))) → (∀ v, P v → Q (g v)) →
  step P (stream f) (λ _, Q).
Proof. intros Hf HQ. apply triple_modify. intros [s o] HP. exact (eq_ind_r (Q) (HQ _ HP) (Hf s o)). Qed.
Lemma step_same {A} (m : M World A) (P : view → Prop) :
  evolves same m → (∀ v, P v → weak_v accepted v) → step P m (λ _, P).
Proof.
  intros Hm Hw. apply (triple_evolves _ same); [done| |by intros w; apply Hw].
  unfold same. intros w w' Hs HP. by rewrite <-Hs.
Qed.
Lemma step_then {A B} (m : M World A) (k : A → M World B) (P : view → Prop) Q :
  evolves same m → (∀ v, P v → weak_v accepted v) → (∀ a, step P (k a) Q) → step P (bind m k) Q.
Proof. intros Hm Hw Hk. eapply triple_bind; [by apply step_same|]. intros a. apply Hk. Qed.
Lemma step_self {A} (k : NativeDesktopStream → M World A) (P : view → Prop) Q :
  (∀ s, step (λ v, P v ∧ ∃ o, v = view_of (mk_world s o)) (k s) Q) → step P (bind self k) Q.
Proof. intros Hk [s o] HP. apply (Hk s). split; [done|by exists o]. Qed.
Lemma step_bind {A B} (m : M World A) (k : A → M World B) P Q' Q :
  step P m Q' → (∀ a, step (Q' a) (k a) Q) → step P (bind m k) Q.
Proof. intros Hm Hk. eapply triple_bind; [exact Hm|]. intros a. apply Hk. Qed.
Lemma out_bind {A B} (m : M Outside A) (k : A → M Outside B) w :
  out (bind m k) w = bind (out m) (λ a, out (k a)) w.
Proof. destruct w as [s o]. unfold out, zoom, bind. cbn. by destruct (m o) as [[]]. Qed.
Lemma step_submit p op (P Q : view → Prop) :
  (∀ v, P v → Q (add_write op v)) → (∀ v, P v → weak_v accepted v) →
  step P (out (submit_under env p (device env op))) (λ _, Q).
Proof.
  intros HQ Hw w Hw'. unfold submit_under. rewrite out_bind.
  apply (step_then (out (with_permit env p ensure_active)) (λ _, out (device env op)) P (λ _, Q));
    [evolve|done| |done]. intros _. by apply step_device.
Qed.
Lemma step_weaken {A} (m : M World A) (P P' : view → Prop) (Q Q' : A → view → Prop) :
  step P' m Q' → (∀ v, P v → P' v) → (∀ a v, Q' a v → Q a v) → step P m Q.
Proof. intros H HP HQ. eapply triple_weaken; [exact H| |]; cbn; eauto. Qed.
Lemma step_from {A} (m : M World A) (P P' : view → Prop) Q :
  (∀ v, P v → P' v) → step P' m Q → step P m Q.
Proof. intros HP H. eapply step_weaken; [exact H|done|done]. Qed.
Lemma step_ret {A} (a : A) (P : view → Prop) (Q : A → view → Prop) : (∀ v, P v → Q a v) → step P (ret a) Q.
Proof. intros H. apply triple_ret. intros w. apply H. Qed.
Lemma step_fail {A} msg (P : view → Prop) (Q : A → view → Prop) :
  (∀ v, P v → weak_v accepted v) → step P (fail msg) Q.
Proof. intros H. apply triple_fail. intros w. apply H. Qed.
Lemma step_pure {A} (φ : Prop) (m : M World A) (P : view → Prop) Q :
  (∀ v, P v → φ) → (φ → step P m Q) → step P m Q.
Proof. intros H Hm w Hw. by apply Hm; [eapply H|]. Qed.
End Rules.

(** ** The steps of one write *)
Section Write.
Context (accepted : list Z).
(** ... and facts about what a publication leaves alone: the stage, the queue and
    the submit clock. *)
Definition fact : Type := option AecLiveScenarioAssignment → StreamPcmQueue → Z → Prop.
Abbreviation at_f m F :=
  (λ v, at_v accepted m v ∧ F (v_assignment v) (v_queue v) (v_submitted_frames v)).
Abbreviation at_a m a := (at_f m (λ a' _ _, a' = a)).
Ltac still_weak := intros; destruct_and?; by eapply at_v_weak.
Definition reading (reference : list f32) : mode := mk_mode reference [] false [] false.
Definition writing (reference physical : list f32) (counted : bool) : mode :=
  mk_mode reference physical counted [] false.
Definition echoing (reference : list f32) : mode := mk_mode [] [] false reference false.

Lemma take_partial n q : n ≤ buffered_frames q →
  take_reference n true q = (Ok (take (Z.to_nat (n * 2)) (pq_reference q)),
                             q <| pq_reference ::= drop (Z.to_nat (n * 2)) |>).
Proof. intros Hn. rewrite take_run. cbv zeta. rewrite Z.min_r by done. cbn [negb]. by rewrite andb_false_r. Qed.
Lemma take_view n a v : at_a idle a v → 0 ≤ n ≤ buffered_frames (v_queue v) →
  let r := take (Z.to_nat (n * 2)) (pq_reference (v_queue v)) in
  at_a (reading r) a (v <| v_queue ::= λ q, q <| pq_reference ::= drop (Z.to_nat (n * 2)) |> |>)
  ∧ size r = 2 * n.
Proof.
  intros [[H1 H2 H3 H4 H5 H6 H7 H8 H9 H10] Ha] Hn r. subst r. set (k := Z.to_nat (n * 2)).
  pose proof (take_ok n true _ _ _ H1) as Ht. cbn [pcm_step] in Ht. rewrite take_partial in Ht by lia.
  fold k in Ht. rewrite app_nil_r in Ht. destruct v; cbn in *. split; [split; [|done]; by split|].
  unfold size, k, buffered_frames in *. rewrite length_take.
  pose proof (Z_div_mod_eq_full (Z.of_nat (length (pq_reference v_queue0))) 2).
  pose proof (Z.mod_pos_bound (Z.of_nat (length (pq_reference v_queue0))) 2). lia.
Qed.
Lemma take_step n a :
  step accepted (λ v, at_a idle a v ∧ 0 ≤ n ≤ buffered_frames (v_queue v))
    (on_queue (take_reference n true))
    (λ r v, at_a (reading r) a v ∧ size r = 2 * n).
Proof.
  intros [s o] [H Hn]. pose proof (take_view n a _ H Hn) as Ht.
  unfold on_queue, zoom. cbn [wd_stream]. rewrite take_partial by apply Hn. exact Ht.
Qed.
Lemma write_step frames p r ph a :
  step accepted (at_a (reading r) a) (out (submit_under env p (device env (WriteOp frames ph))))
    (λ _, at_a (writing r ph false) a).
Proof.
  apply step_submit; [|still_weak]. intros [] [[H1 H2 H3 H4 H5 H6 H7 H8 H9 H10] Ha]. cbn in *.
  split; [|done]. split; try done. cbn. by rewrite H2, app_nil_r.
Qed.
Lemma count_step frames r ph a : size r = 2 * frames_of_samples r → size ph = 2 * frames →
  step accepted (at_a (writing r ph false) a) (stream (count_submitted frames r ph))
    (λ _, at_a (writing r ph true) a).
Proof.
  intros Hr Hp. apply (step_stream accepted _ (λ v, v <| v_submitted_frames ::= λ n, n + frames |>
        <| v_queue ::= λ q, q <| pq_submitted_source_frames ::= λ n, n + frames_of_samples r |> |>)).
  { intros s o. destruct s. unfold count_submitted, assignment_of. cbn. by destruct (negb _). }
  intros [? ? ? ? [] ? ? ? ? ? ?] [[[] H2 H3 H4 H5 H6 H7 H8 H9 H10] Ha]. cbn in *.
  split; [|done]. split; try done; cbn in *; first [by split|lia].
Qed.
(** *** Starting the client *)
Definition flushing (m : mode) : mode :=
  mk_mode (m_reference m) (m_physical m) (m_counted m) (m_echo m) true.
Lemma flush_step frames m (F : fact) :
  step accepted (λ v, at_f (flushing m) F v ∧ v_deferred v = frames ∧ v_started v = true)
    (flush_deferred (deliver env) frames) (λ _, at_f m F).
Proof.
  induction frames as [|f frames IH]; cbn [flush_deferred].
  - apply step_ret. intros v ([[] HF] & Hd & _). split; [|done]. by split.
  - eapply step_bind.
    { apply (step_stream accepted _ (λ v, v <| v_deferred := frames |>)
        (λ v, at_f (flushing m) F v ∧ v_deferred v = f :: frames ∧ v_started v = true)
        (λ v, at_f (flushing m) F (v <| v_deferred := f :: frames |>) ∧ v_deferred v = frames
              ∧ v_started v = true)); [done|].
      intros v ([H HF] & Hd & Hst). destruct v. cbn in *. by subst. }
    intros []. eapply step_bind.
    { apply (step_attempt_emit accepted _ _ (λ v, at_f (flushing m) F v ∧ v_deferred v = frames
                                                  ∧ v_started v = true)); [|still_weak].
      intros v ([[H1 H2 H3 H4 H5 H6 H7 H8 H9 H10] HF] & Hd & Hst). destruct v. cbn in *. subst.
      split; [|done]. split; [|done]. split; try done. cbn. by rewrite <-H5, <-!app_assoc. }
    intros [[]|e]; [apply IH|].
    apply (step_bind accepted _ _ _ (λ _, weak_v accepted)).
    + apply (step_stream accepted _ (λ v, v <| v_deferred ::= cons f |>)); [done|].
      intros v ([H _] & _). apply at_v_weak in H. by destruct H; split.
    + intros _ w Hw. exact Hw.
Qed.
Lemma start_step m (F : fact) : m_flushing m = false →
  step accepted (at_f m F) (publish_started_and_flush env (deliver env)) (λ _, at_f m F).
Proof.
  intros Hm. unfold publish_started_and_flush.
  apply (step_bind accepted _ _ _ (λ _ v, at_f (flushing m) F v ∧ v_started v = true)).
  - unfold publish_stream_started. apply step_self. intros s.
    destruct (nd_started s) eqn:Hs.
    + apply step_ret. intros v ([H HF] & o & ->). cbn. split; [|done]. split; [|done].
      destruct H as [H1 H2 H3 H4 H5 H6 H7 H8 H9 H10]. split; try done.
    + apply (step_from accepted _ _ (at_f m F)); [naive_solver|].
      apply step_then; [evolve|still_weak|]. intros at_.
      apply step_then; [evolve|still_weak|]. intros _.
      apply (step_stream accepted _ (λ v, v <| v_started := true |>)); [done|].
      intros v [[H1 H2 H3 H4 H5 H6 H7 H8 H9 H10] HF]. destruct v. cbn in *. split; [|done].
      split; [|done]. by split.
  - intros []. apply step_self. intros s.
    eapply step_from; [|apply (flush_step (nd_deferred s) m F)]. by intros v ((H & Hst) & o & ->).
Qed.
Lemma start_client_step m (F : fact) : m_flushing m = false →
  step accepted (at_f m F) (start_client env (deliver env)) (λ _, at_f m F).
Proof.
  intros Hm. unfold start_client. apply step_self. intros s.
  apply (step_from accepted _ _ (at_f m F)); [naive_solver|].
  apply (step_bind accepted _ _ _ (λ _, at_f m F)); [|intros []; by apply start_step].
  apply step_submit; [|still_weak]. by intros [].
Qed.
(** *** Publishing *)
(** What is written for a reference while [a] is the current stage. *)
Definition rendering (a : option AecLiveScenarioAssignment) (r ph : list f32) : Prop :=
  (r = [] ∧ ∃ n, ph = replicate n f32_zero)
  ∨ (a = None ∧ ph = r)
  ∨ (∃ assignment, a = Some assignment ∧ ph = physical_sample (aa_phase assignment) <$> r).
Definition counts (a : option AecLiveScenarioAssignment) (source submitted : Z) : fact :=
  λ a' q n, a' = a ∧ pq_submitted_source_frames q = source ∧ n = submitted.
Lemma size_app l k : size (l ++ k) = size l + size k.
Proof. unfold size. rewrite length_app. lia. Qed.
Lemma reference_snoc l t : reference_pcm (l ++ [t]) = reference_pcm l ++ tp_reference_samples t.
Proof. unfold reference_pcm. rewrite fmap_app, concat_app. cbn. by rewrite app_nil_r. Qed.
Lemma physical_snoc l t : physical_pcm (l ++ [t]) = physical_pcm l ++ tp_physical_samples t.
Proof. unfold physical_pcm. rewrite fmap_app, concat_app. cbn. by rewrite app_nil_r. Qed.
Lemma tap_step s frames r ph p qpc t a :
  size r = 2 * frames_of_samples r → size ph = 2 * frames → rendering (assignment_of s) r ph →
  a = assignment_of s →
  step accepted
    (at_f (writing r ph true) (counts a (pq_submitted_source_frames (nd_queue s)) (nd_submitted_frames s)))
    (emit (deliver env) (Tap (tap_of s frames r ph p qpc t))) (λ _, at_v accepted (echoing r)).
Proof.
  intros Hr Hp Hf ->. apply step_emit; [|still_weak].
  intros v [[H1 H2 H3 H4 H5 H6 H7 H8 H9 H10] (Ha & Hs & Hn)].
  set (t' := tap_of s frames r ph p qpc t). destruct v. cbn -[reference_pcm physical_pcm echo_pcm size] in *. subst.
  assert (0 ≤ size (reference_pcm v_taps0) ∧ 0 ≤ size (physical_pcm v_taps0)) as [? ?] by (unfold size; lia).
  split; cbn -[reference_pcm physical_pcm echo_pcm size]; rewrite ?reference_snoc, ?physical_snoc; try done.
  - rewrite app_nil_r. exact H1.
  - by rewrite app_nil_r.
  - rewrite size_app, H3. subst t'. cbn. lia.
  - rewrite size_app, H4. subst t'. cbn. lia.
  - rewrite app_nil_r in H5. by rewrite app_assoc, H5.
  - apply Forall_app. split; [done|]. apply Forall_singleton. subst t'. unfold faithful, tap_of. cbn.
    destruct Hf as [Hf|[[Ha ->]|(assignment & Ha & ->)]]; [by left| |].
    + right. left. unfold assignment_of in Ha. by rewrite Ha.
    + right. right. exists (aa_phase assignment). unfold assignment_of in Ha. by rewrite Ha.
  - apply placed_snoc; rewrite ?reference_snoc, ?physical_snoc, ?size_app; subst t'; try done; cbn;
      unfold saturating_sub; lia.
Qed.
Lemma echo_step f r : fr_samples f = r →
  step accepted (at_v accepted (echoing r)) (publish_or_defer_frame (deliver env) f) (λ _, at_v accepted idle).
Proof.
  intros Hr. unfold publish_or_defer_frame. apply step_self. intros s. destruct (nd_started s) eqn:Hs.
  - apply (step_from accepted _ _ (λ v, at_v accepted (echoing r) v ∧ v_started v = true)).
    { by intros v (H & o & ->). }
    apply step_emit; [|still_weak].
    intros v [[H1 H2 H3 H4 H5 H6 H7 H8 H9 H10] Hst]. destruct v. cbn in *. subst.
    split; try done. cbn. rewrite H6 in * by done. cbn in *. by rewrite app_nil_r.
  - apply (step_from accepted _ _ (λ v, at_v accepted (echoing r) v ∧ v_started v = false)).
    { by intros v (H & o & ->). }
    apply (step_stream accepted _ (λ v, v <| v_deferred ::= λ l, l ++ [f] |>)); [done|].
    intros v [[H1 H2 H3 H4 H5 H6 H7 H8 H9 H10] Hst]. destruct v. cbn in *. subst.
    split; try done. cbn. unfold echo_pcm in *. rewrite fmap_app, concat_app. cbn. by rewrite !app_nil_r.
Qed.
Lemma publish_step buffer frames timed_out r ph a :
  size r = 2 * frames_of_samples r → size ph = 2 * frames → rendering a r ph →
  step accepted (at_a (writing r ph false) a)
    (publish_write env (deliver env) buffer frames timed_out r ph) (λ _, at_v accepted idle).
Proof.
  intros Hr Hp Hf. unfold publish_write.
  apply (step_bind accepted _ _ _ (λ _, at_a (writing r ph true) a)); [by apply count_step|]. intros [].
  apply step_then; [evolve|still_weak|]. intros observed_at.
  apply step_then; [unfold qpc_now_100ns; evolve|still_weak|]. intros qpc.
  apply step_then; [evolve|still_weak|]. intros p.
  apply step_self. intros s. destruct (_ <? _); [apply step_fail; still_weak|].
  apply (step_from accepted _ _ (λ v,
    (assignment_of s = a ∧ at_f (writing r ph true)
       (counts a (pq_submitted_source_frames (nd_queue s)) (nd_submitted_frames s)) v))).
  { intros v ([H Ha] & o & ->). cbn in *. by subst. }
  apply (step_pure accepted (assignment_of s = a)); [naive_solver|]. intros Ha.
  apply (step_from accepted _ _ (at_f (writing r ph true)
    (counts a (pq_submitted_source_frames (nd_queue s)) (nd_submitted_frames s)))); [naive_solver|].
  cbv zeta. eapply (step_bind accepted _ _ _ (λ _, at_f (writing r ph true)
    (counts a (pq_submitted_source_frames (nd_queue s)) (nd_submitted_frames s)))).
  { unfold when. case_match; [by apply start_client_step|by apply step_ret]. }
  intros []. eapply step_bind; [apply tap_step; by rewrite ?Ha|]. intros [].
  unfold when. case_bool_decide as Hn; cbn [negb]; [|by apply echo_step].
  apply step_ret. subst. intros v []. by split.
Qed.
Lemma physical_renders s (prefix : bool) frames r :
  size r = 2 * (if prefix then 0 else frames) → 0 ≤ frames →
  rendering (assignment_of s) r (physical_of s prefix frames r) ∧ size (physical_of s prefix frames r) = 2 * frames.
Proof.
  intros Hr Hf. unfold rendering, physical_of, size in *. destruct prefix.
  - destruct r; [|simpl in Hr; lia]. split; [left; eauto|]. rewrite length_replicate. lia.
  - unfold assignment_of. destruct (nd_scenario s !! _) as [assignment|].
    + rewrite length_fmap. split; [|done]. right. right. by exists assignment.
    + split; [by right; left|done].
Qed.
Lemma write_block_rule s buffer frames timed_out :
  0 < frames → (has_prefix s = false → frames ≤ buffered_frames (nd_queue s)) →
  triple (λ w, at_v accepted idle (view_of w) ∧ wd_stream w = s)
    (write_block env (deliver env) buffer frames timed_out)
    (λ _ w, at_v accepted idle (view_of w)) (weak accepted).
Proof.
  intros Hf Hb [s' o] [H Hs]. cbn in Hs. subst s'.
  unfold write_block, self. rewrite bind_gets. cbn [wd_stream]. cbv zeta.
  set (prefix := has_prefix s) in *.
  assert (step accepted (λ v, at_a idle (assignment_of s) v ∧ v_queue v = nd_queue s)
    (if prefix then ret [] else on_queue (take_reference frames true))
    (λ r v, at_a (reading r) (assignment_of s) v ∧ size r = 2 * (if prefix then 0 else frames))) as Ht.
  { destruct prefix.
    - apply step_ret. intros v [[[] Ha] _]. split; [|done]. split; [|done]. by split.
    - eapply step_from; [|apply (take_step frames (assignment_of s))].
      intros v [Hv Hq]. split; [done|]. rewrite Hq. specialize (Hb eq_refl). lia. }
  assert (∀ r, size r = 2 * (if prefix then 0 else frames) →
    step accepted (at_a (reading r) (assignment_of s))
      (out (submit_under env (nd_permit s) (device env (WriteOp frames (physical_of s prefix frames r))));;;
       publish_write env (deliver env) buffer frames timed_out r (physical_of s prefix frames r))
      (λ _, at_v accepted idle)) as Hr.
  { intros r Hr. destruct (physical_renders s prefix frames r Hr ltac:(lia)) as [Hp1 Hp2].
    eapply step_bind; [apply write_step|]. intros []. apply publish_step; [|done|done].
    unfold frames_of_samples. fold (size r). rewrite Hr. destruct prefix; [done|].
    rewrite Z.mul_comm, Z.div_mul by done. lia. }
  assert (step accepted (λ v, at_a idle (assignment_of s) v ∧ v_queue v = nd_queue s)
    (bind (if prefix then ret [] else on_queue (take_reference frames true)) (λ r,
       out (submit_under env (nd_permit s) (device env (WriteOp frames (physical_of s prefix frames r))));;;
       publish_write env (deliver env) buffer frames timed_out r (physical_of s prefix frames r)))
    (λ _, at_v accepted idle)) as Hall.
  { eapply step_bind; [exact Ht|]. intros r.
    apply (step_pure accepted (size r = 2 * (if prefix then 0 else frames))); [naive_solver|].
    intros Hs. eapply step_from; [|by apply Hr]. naive_solver. }
  exact (Hall (mk_world s o) (conj (conj H eq_refl) eq_refl)).
Qed.

(** *** Terminating *)
Definition closed (v : view) : Prop := v_terminal v = true ∧ v_open v = false.
Lemma step_lift {A} (o : outcome A) (P : view → Prop) :
  (∀ v, P v → weak_v accepted v) → step accepted P (lift o) (λ _, P).
Proof. intros H w Hw. destruct o; [done|by apply H]. Qed.
Lemma finish_rule (P : view → Prop) completed path :
  (∀ v, P v → weak_v accepted v) →
  (∀ v, P v → P (v <| v_terminal := true |> <| v_open := false |>)) →
  (completed = true → ∀ v, P v → P (v <| v_completed := true |>)) →
  step accepted (λ v, P v ∧ v_terminal v = false)
    (finish_with_path env (deliver env) completed path) (λ _ v, P v ∧ closed v).
Proof.
  intros Hw Ht Hc. unfold finish_with_path. apply step_self. intros s.
  destruct (nd_terminal s) eqn:Hs.
  { apply (step_pure accepted False); [|done]. intros v ([_ H] & o & ->). cbn in H. congruence. }
  assert (∀ v, P v ∧ closed v → weak_v accepted v) as Hw' by (intros v [H _]; auto).
  apply (step_bind accepted _ _ _ (λ _ v, P v ∧ closed v)).
  { apply (step_stream accepted _ (λ v, v <| v_terminal := true |> <| v_open := false |>)); [done|].
    intros v [[HP _] _]. split; [by apply Ht|done]. }
  intros []. apply step_then; [evolve|done|]. intros scheduling. cbv zeta.
  apply step_then; [evolve|done|]. intros reservation.
  apply step_then; [evolve|done|]. intros at_.
  apply step_then; [apply evolves_attempted, same_emit; done|done|]. intros boundary.
  apply (step_bind accepted _ _ _ (λ _ v, P v ∧ closed v)).
  - apply step_attempt_emit; [|done]. intros v [HP Hcl].
    destruct (completed && is_ok scheduling && is_ok reservation && is_ok boundary) eqn:E; [|done].
    split; [|done]. apply Hc; [|done]. bool_hyps. done.
  - intros activity. apply step_then; [unfold on_error; evolve|done|]. intros _. by apply step_lift.
Qed.
(** Everything was played and published. *)
Definition played (v : view) : Prop :=
  finished accepted v ∧ Forall faithful (v_taps v) ∧ placed (v_taps v) ∧ pq_ended (v_queue v) = true.
Lemma played_weak v : played v → weak_v accepted v.
Proof.
  intros ((H1 & H2 & H3) & H4 & H5 & _).
  split; [by rewrite H1|by rewrite H2|by rewrite H3|done|done|by intros _; split_and!].
Qed.
Lemma drained_played v : at_v accepted idle v → v_started v = true ∨ 0 < buffered_frames (v_queue v) →
  pq_ended (v_queue v) = true → buffered_frames (v_queue v) = 0 →
  pq_submitted_source_frames (v_queue v) = pq_accepted_source_frames (v_queue v) * 2 → played v.
Proof.
  intros [[H1 _ Hacc _] H2 H3 H4 H5 H6 _ H8 H9 H10] Hst He Hb Hs. split; [|done].
  cbn [pr_queue pr_accepted pr_taken m_reference m_counted m_physical m_echo idle] in *. rewrite He in H1.
  rewrite app_nil_r in H1, H2. fold (upsampled (i16_to_f32 <$> accepted)) in H1.
  assert (pq_reference (v_queue v) = []) as Hq.
  { apply nil_length_inv. pose proof (f_equal length H1) as Hl.
    rewrite length_app, upsampled_length, length_fmap in Hl. unfold size in H3. lia. }
  rewrite Hq, app_nil_r in H1. destruct Hst as [Hst|]; [|lia].
  split; [done|]. split; [done|]. rewrite H6 in H5 by done. by rewrite app_nil_r in H5.
Qed.
Lemma complete_step :
  step accepted
    (λ v, at_v accepted idle v ∧ (v_started v = true ∨ 0 < buffered_frames (v_queue v))
          ∧ pq_ended (v_queue v) = true ∧ buffered_frames (v_queue v) = 0)
    (complete env (deliver env))
    (λ receipt v, played v ∧ closed v ∧ rc_rendered_frames receipt = 2 * Z.of_nat (length accepted)).
Proof.
  unfold complete. apply step_self. intros s. cbv zeta.
  destruct (Z.eqb_spec (pq_submitted_source_frames (nd_queue s)) (pq_accepted_source_frames (nd_queue s) * 2))
    as [Hs|]; cbn [negb]; [|apply step_fail; still_weak].
  apply (step_from accepted _ _ (λ v, (played v ∧ v_terminal v = false) ∧
    pq_submitted_source_frames (nd_queue s) = 2 * Z.of_nat (length accepted))).
  { intros v ((Hat & Hst & He & Hb) & o & ->). split; [split|].
    - by apply drained_played.
    - by destruct Hat as [_ _ _ _ _ _ _ _ _ (_ & ? & _)].
    - destruct Hat as [[_ _ Hacc _] _ _ _ _ _ _ _ _ _]. cbn in Hacc. lia. }
  apply (step_pure accepted (pq_submitted_source_frames (nd_queue s) = 2 * Z.of_nat (length accepted)));
    [naive_solver|]. intros Hn.
  apply (step_from accepted _ _ (λ v, played v ∧ v_terminal v = false)); [naive_solver|].
  assert (∀ v, played v ∧ v_terminal v = false → weak_v accepted v) as Hw by (intros v [H _]; by apply played_weak).
  apply step_then; [evolve|done|]. intros completed.
  apply (step_bind accepted _ _ _ (λ _ v, played v ∧ v_terminal v = false)).
  { apply step_device; [|done]. by intros v. }
  intros []. apply (step_bind accepted _ _ _ (λ _ v, played v ∧ closed v)).
  - apply finish_rule; [apply played_weak| |]; intros v; by destruct v.
  - intros []. apply step_ret. intros v [H Hc]. done.
Qed.

(** *** The pump *)
(** A client that is being asked for PCM has started or has some to start with. *)
Definition pumping (v : view) : Prop :=
  at_v accepted idle v ∧ (v_started v = true ∨ 0 < buffered_frames (v_queue v)).
Definition polled (r : option SpeakerPlaybackReceipt) (v : view) : Prop :=
  match r with
  | None => at_v accepted idle v
  | Some receipt => played v ∧ closed v ∧ rc_rendered_frames receipt = 2 * Z.of_nat (length accepted)
  end.
Lemma pumping_weak v : pumping v → weak_v accepted v.
Proof. intros [H _]. by eapply at_v_weak. Qed.
Lemma polled_weak r v : polled r v → weak_v accepted v.
Proof. destruct r; [intros (H & _); by apply played_weak|apply at_v_weak]. Qed.
Lemma step_play {A B} (m : M World A) (k : A → M World B) (P : view → Prop) Q :
  evolves same_play m → (∀ v, P v → weak_v accepted v) →
  (∀ v a, P v → P (v <| v_assignment := a |>)) → (∀ a, step accepted P (k a) Q) →
  step accepted P (bind m k) Q.
Proof.
  intros Hm Hw Ha Hk. eapply triple_bind; [|intros a; apply Hk].
  apply (triple_evolves _ same_play); [done| |by intros w; apply Hw].
  intros w w' Hs HP. specialize (Ha _ (v_assignment (view_of w')) HP). unfold same_play in Hs.
  destruct (view_of w), (view_of w'). cbn in *. injection Hs as -> -> -> -> -> -> -> -> -> ->. exact Ha.
Qed.
Lemma at_v_assignment m v a : at_v accepted m v → at_v accepted m (v <| v_assignment := a |>).
Proof. intros []. by destruct v; split. Qed.
Lemma requested_le s : has_prefix s = false → requested_frames s ≤ buffered_frames (nd_queue s).
Proof. intros H. unfold requested_frames. rewrite H. lia. Qed.
Lemma poll_client_step buffer padding_frames :
  step accepted pumping (poll_client env (deliver env) buffer padding_frames) polled.
Proof.
  unfold poll_client. apply step_then; [evolve|apply pumping_weak|]. intros timed_out.
  intros [s o] [Hat Hst]. unfold self. rewrite bind_gets. cbn [wd_stream]. cbv zeta.
  set (ready := has_prefix s || _ || _ || _). set (frames := Z.min _ _).
  destruct (ready && (0 <? frames)) eqn:Hr.
  - apply andb_true_iff in Hr as [_ Hf%Z.ltb_lt].
    assert (triple (λ w, at_v accepted idle (view_of w) ∧ wd_stream w = s)
      (write_block env (deliver env) buffer frames timed_out;;; ret None)
      (λ r w, polled r (view_of w)) (weak accepted)) as Hw.
    { eapply triple_bind; [apply write_block_rule; [done|]|].
      - intros Hp. pose proof (requested_le s Hp). subst frames. lia.
      - intros []. by apply triple_ret. }
    apply (Hw (mk_world s o)). done.
  - destruct (pq_ended (nd_queue s) && _ && _) eqn:He; [|done]. bool_hyps.
    assert (step accepted (λ v, pumping v ∧ pq_ended (v_queue v) = true ∧ buffered_frames (v_queue v) = 0)
      (let* receipt := complete env (deliver env) in ret (Some receipt)) polled) as Hc.
    { eapply step_bind; [eapply step_from; [|apply complete_step]|].
      - intros v ((Ha & Hb) & Hc). done.
      - intros receipt. by apply step_ret. }
    apply (Hc (mk_world s o)). done.
Qed.
Lemma poll_step_step : step accepted (at_v accepted idle) (poll_step env (deliver env)) polled.
Proof.
  unfold poll_step. intros [s o] Hat. unfold self. rewrite bind_gets. cbn [wd_stream].
  destruct (nd_terminal s); [by eapply at_v_weak|].
  destruct (nd_prepared s) as [buffer|]; [|by eapply at_v_weak].
  assert (step accepted (λ v, at_v accepted idle v ∧ v_started v = nd_started s ∧ v_queue v = nd_queue s)
    (out (with_permit env (nd_permit s) ensure_active);;;
     let* waiting := (if nd_started s then ret false
        else let* elapsed := first_audio_elapsed env in
             ret (negb (should_start (nd_queue s) (default 0 elapsed)))) in
     if waiting then ret None
     else
       let* padding_frames := out (padding env) in
       let* boundary := stage_boundary env (deliver env)
         (saturating_sub (nd_submitted_frames s) padding_frames) in
       match boundary with
       | None => ret None
       | Some deliberate => observe_underrun env (deliver env) deliberate padding_frames;;;
                            poll_client env (deliver env) buffer padding_frames
       end) polled) as Hp.
  { apply step_then; [evolve|still_weak|]. intros _.
    apply (step_bind accepted _ _ _ (λ waiting v, at_v accepted idle v ∧ (waiting = false → pumping v))).
    - destruct (nd_started s).
      + apply step_ret. intros v (H1 & H2 & H3). split; [done|]. intros _. split; [done|by left].
      + apply step_then; [evolve|still_weak|]. intros elapsed. apply step_ret.
        intros v (H1 & H2 & H3). split; [done|]. intros Hn%negb_false_iff. split; [done|]. right.
        unfold should_start in Hn. rewrite H3. bool_hyps. done.
    - intros [|]; [apply step_ret; by intros v [H _]|].
      apply (step_from accepted _ _ pumping); [naive_solver|].
      apply step_then; [evolve|apply pumping_weak|]. intros p.
      apply step_play; [evolve|apply pumping_weak| |].
      + intros v a [H1 H2]. split; [by apply at_v_assignment|by destruct v].
      + intros [deliberate|]; [|apply step_ret; by intros v [H _]].
        apply step_then; [evolve|apply pumping_weak|]. intros _. apply poll_client_step. }
  by apply (Hp (mk_world s o)).
Qed.
Lemma poll_blocks_step blocks before :
  step accepted (at_v accepted idle) (poll_blocks env (deliver env) blocks before) polled.
Proof.
  induction blocks as [|blocks IH]; cbn [poll_blocks]; [by apply step_ret|].
  apply step_then; [apply evolves_gets; apply _|apply at_v_weak|]. intros submitted.
  eapply step_bind; [apply poll_step_step|]. intros r. apply step_self. intros s. cbv zeta.
  destruct r as [receipt|]; cbn [is_Some_b orb]; [apply step_ret; by intros v [H _]|].
  destruct (_ || _); [apply step_ret; by intros v [H _]|].
  apply (step_from accepted _ _ (at_v accepted idle)); [by intros v [H _]|done].
Qed.
Lemma poll_rule : step accepted (at_v accepted idle) (poll env (deliver env)) polled.
Proof.
  unfold poll. apply step_self. intros s.
  apply (step_from accepted _ _ (at_v accepted idle)); [by intros v [H _]|apply poll_blocks_step].
Qed.

(** *** The other calls *)
Lemma queue_view {A} (m : M StreamPcmQueue A) s o :
  let '(r, q) := m (nd_queue s) in
  on_queue m (mk_world s o) = (r, mk_world (s <| nd_queue := q |>) o).
Proof. unfold on_queue, zoom. cbn. by destruct (m (nd_queue s)) as [r q]. Qed.
End Write.

Lemma push_pcm_rule accepted samples rate :
  triple (at_ accepted idle) (push_pcm env samples rate) (λ _, at_ (accepted ++ samples) idle) (weak accepted).
Proof.
  unfold push_pcm. intros [s o] Hat. unfold self. rewrite bind_gets. cbn [wd_stream].
  assert (triple (at_ accepted idle)
    (if negb (rate =? 24000) then fail "native desktop stream requires provider 24k mono PCM"
     else if nd_terminal s then fail "native desktop stream already terminated"
     else on_queue (push samples);;;
       when (negb (bool_decide (samples = [])) && negb (is_Some_b (nd_first_audio_at s)))
         (let* at_ := out (now env) in stream (λ s, s <| nd_first_audio_at := Some at_ |>)))
    (λ _, at_ (accepted ++ samples) idle) (weak accepted)) as Hp.
  { destruct (negb _); [apply triple_fail; apply holds_weak|].
    destruct (nd_terminal s); [apply triple_fail; apply holds_weak|].
    eapply (triple_bind _ _ _ _ (λ _, at_ (accepted ++ samples) idle)).
    - clear. intros [s o] [H1 H2 H3 H4 H5 H6 H7 H8 H9 H10].
      pose proof (queue_view (push samples) s o) as Hq. rewrite push_run in Hq.
      pose proof (push_ok samples _ _ _ H1) as Hok. cbn [pcm_step] in Hok. rewrite push_run in Hok.
      destruct (can_accept _ _); rewrite Hq; [|by eapply at_v_weak; split].
      cbn [is_ok] in Hok. set (q := fold_left _ _ _) in *.
      assert (pq_submitted_source_frames q = pq_submitted_source_frames (nd_queue s)) as Hs.
      { subst q. generalize (nd_queue s). clear. induction samples as [|x l IH]; intros q; [done|].
        cbn [fold_left]. by rewrite IH. }
      split; try done. cbn. by rewrite Hs.
    - intros [] w Hw.
      match goal with |- context [when ?b ?m] => destruct (always_ok_run same (when b m) w) as (w' & -> & Hs) end.
      + unfold when. case_match; by intros [].
      + evolve.
      + unfold at_. by rewrite <-Hs. }
  eapply (then_ (out (with_permit env (nd_permit s) ensure_active)) (λ _, _) accepted idle _); [evolve| |exact Hat].
  intros _. exact Hp.
Qed.
Lemma end_rule accepted :
  triple (at_ accepted idle) (end_stream (deliver env)) (λ _, at_ accepted idle) (weak accepted).
Proof.
  unfold end_stream. eapply (triple_bind _ _ _ _ (λ _, at_ accepted idle)); [|intros []; apply keep; evolve].
  intros [s o] [H1 H2 H3 H4 H5 H6 H7 H8 H9 H10].
  pose proof (queue_view finish_pcm s o) as Hq. pose proof (end_ok _ _ _ H1) as Hok. cbn [pcm_step] in Hok.
  assert (pq_submitted_source_frames (finish_pcm (nd_queue s)).2 = pq_submitted_source_frames (nd_queue s)) as Hs.
  { destruct (nd_queue s) as [ref [p|] [|] acc sub]; done. }
  cbn [view_of v_queue] in Hok.
  destruct (finish_pcm (nd_queue s)) as [[[]|e] q]; rewrite Hq; cbn [snd] in *.
  - split; try done. cbn [view_of v_queue nd_queue]. simpl. rewrite Hs. exact H3.
  - eapply at_v_weak, (Build_at_v accepted idle); try done. simpl. rewrite Hs. exact H3.
Qed.
End Stream.
#[export] Hint Resolve evolves_self evolves_out evolves_attempted : evolve.
#[export] Hint Resolve same_ask same_with_permit same_device same_deliver same_padding same_record same_released same_now
  same_submit same_assignments same_emit same_stage_event same_start_stage same_stage_boundary
  same_observe_underrun same_first_audio_elapsed same_finish_scheduling same_release same_wait : evolve.
