(* ===== verification/NativeStreamStart.v ===== *)
(** * The echo reference follows the start of the client

    In every state of a stream, whatever was answered: the canceller was given a
    reference only if the client accepted a start ([started_ok]). *)
From S2P Require Import Prelude RustStr PlaybackOwnership RenderSubmit DesktopTimeline Mmcss SpeakerPcm AecLiveScenario NativeStream NativeStreamFacts.

(** The client accepted a start. *)
Definition begun (o : Outside) : Prop := (StartOp, true) ∈ os_device o.
Definition started_ok (w : World) : Prop :=
  nd_started (wd_stream w) = true ∨ echo_frames (wd_outside w) ≠ [] → begun (wd_outside w).

(** Steps that publish no reference, or that follow the start. *)
Definition no_echo (o o' : Outside) : Prop := (begun o → begun o') ∧ echo_frames o' = echo_frames o.
#[export] Instance no_echo_preorder : PreOrder no_echo.
Proof. split; unfold no_echo; [done|]. intros x y z [? ?] [? ?]. split; [auto|congruence]. Qed.
Definition silent_step (w w' : World) : Prop :=
  no_echo (wd_outside w) (wd_outside w') ∧ nd_started (wd_stream w') = nd_started (wd_stream w).
#[export] Instance silent_step_preorder : PreOrder silent_step.
Proof. split; unfold silent_step; [intros x; by split; [reflexivity|]|]. intros x y z [? ?] [? ?]. split; [by etransitivity|congruence]. Qed.
Definition grows (w w' : World) : Prop := begun (wd_outside w) → begun (wd_outside w').
#[export] Instance grows_preorder : PreOrder grows.
Proof. split; unfold grows; [by intros x|]. intros x y z H1 H2 H. auto. Qed.
Lemma silent_started {A} (m : M World A) : evolves silent_step m → evolves (preserved started_ok) m.
Proof.
  intros H w. destruct (H w) as [[Hb He] Hs]. unfold preserved, started_ok in *. rewrite Hs, He. auto.
Qed.
Lemma silent_grows {A} (m : M World A) : evolves silent_step m → evolves grows m.
Proof. intros H w. by destruct (H w) as [[Hb _] _]. Qed.

#[local] Hint Resolve evolves_self evolves_attempted : evolve.
#[local] Hint Extern 2 (evolves silent_step (stream _)) => by intros [] : evolve.

Section Start.
Context (env : Env).

Lemma silent_out {A} (m : M Outside A) : evolves no_echo m → evolves silent_step (out m).
Proof. intros H [s o]. specialize (H o). unfold out, zoom. cbn. by destruct (m o). Qed.
Lemma silent_queue {A} (m : M StreamPcmQueue A) : evolves silent_step (on_queue m).
Proof. intros [s o]. unfold on_queue, zoom. cbn. by destruct (m (nd_queue s)). Qed.
Lemma quiet_ask {A} (answer : nat → A) : evolves no_echo (ask answer).
Proof. by intros []. Qed.
#[local] Hint Resolve silent_out silent_queue quiet_ask : evolve.
Lemma quiet_device op : evolves no_echo (device env op).
Proof.
  unfold device. evolve. apply evolves_modify. intros o. split; [|done]. intros H.
  apply elem_of_app. by left.
Qed.
Lemma quiet_deliver e : frame_in e = None → evolves no_echo (deliver env e).
Proof.
  intros He. unfold deliver. evolve. apply evolves_modify. intros o. split; [done|].
  unfold echo_frames. cbn. rewrite omap_app. cbn. rewrite He. by rewrite app_nil_r.
Qed.
Lemma quiet_with_permit {A} p (op : _ → M PlaybackOwnershipState A) : evolves no_echo (with_permit env p op).
Proof. unfold with_permit. evolve. Qed.
Lemma quiet_padding : evolves no_echo (padding env).
Proof. unfold padding. evolve. Qed.
Lemma quiet_record e : evolves no_echo (record_failure e).
Proof. apply evolves_modify. done. Qed.
Lemma quiet_released f : evolves no_echo (modify (λ o, o <| os_released ::= f |>)).
Proof. by apply evolves_modify. Qed.
#[local] Hint Resolve quiet_device quiet_deliver quiet_with_permit quiet_padding quiet_record quiet_released : evolve.
Lemma quiet_submit {A} p (m : M Outside A) : evolves no_echo m → evolves no_echo (submit_under env p m).
Proof. intros H. unfold submit_under. evolve. Qed.
Lemma quiet_assignments {A} (op : M AssignmentsCell A) : evolves no_echo (with_assignments env op).
Proof. unfold with_assignments. evolve. Qed.
Lemma quiet_now : evolves no_echo (now env).
Proof. apply quiet_ask. Qed.
Lemma quiet_wait timeout : evolves no_echo (endpoint_wait env timeout).
Proof. unfold endpoint_wait. evolve. Qed.
#[local] Hint Resolve quiet_submit quiet_assignments quiet_now quiet_wait : evolve.

(** The same for either callback. *)
Section Callback.
Context (events : DesktopStreamingEvent → M Outside unit).
Context (Hquiet : ∀ e, frame_in e = None → evolves no_echo (events e)).
Lemma silent_emit e : frame_in e = None → evolves silent_step (emit events e).
Proof. intros H. unfold emit. apply silent_out. auto. Qed.
#[local] Hint Resolve silent_emit : evolve.
Lemma silent_stage_event status : evolves silent_step (stage_event env events status).
Proof. unfold stage_event, current_assignment, now_unix_millis. evolve. Qed.
#[local] Hint Resolve silent_stage_event : evolve.
Lemma silent_start_stage : evolves silent_step (start_stage env events).
Proof. unfold start_stage, current_assignment, now_unix_millis. evolve. Qed.
#[local] Hint Resolve silent_start_stage : evolve.
Lemma silent_finish completed path : evolves silent_step (finish_with_path env events completed path).
Proof.
  unfold finish_with_path, finish_scheduling, release_reservation, on_error. evolve.
Qed.
#[local] Hint Resolve silent_finish : evolve.
Lemma silent_abort path : evolves silent_step (abort_with_path env events path).
Proof. unfold abort_with_path, abort_device, on_error. evolve. Qed.
End Callback.
#[local] Hint Resolve silent_stage_event silent_start_stage silent_finish silent_abort silent_emit : evolve.
#[local] Hint Extern 1 (∀ e, frame_in e = None → evolves no_echo (deliver env e)) => exact quiet_deliver : evolve.

Lemma silent_boundary played : evolves silent_step (stage_boundary env (deliver env) played).
Proof. unfold stage_boundary. evolve. Qed.
Lemma silent_underrun b p : evolves silent_step (observe_underrun env (deliver env) b p).
Proof. unfold observe_underrun. evolve. Qed.
Lemma silent_elapsed : evolves silent_step (first_audio_elapsed env).
Proof. unfold first_audio_elapsed. evolve. Qed.
Lemma silent_complete : evolves silent_step (complete env (deliver env)).
Proof. unfold complete, finish_stream. evolve. Qed.
#[local] Hint Resolve silent_boundary silent_underrun silent_elapsed silent_complete : evolve.

(** After the start anything may be published. *)
Lemma grows_deliver e : evolves grows (emit (deliver env) e).
Proof.
  intros [s o]. unfold emit, out, zoom, deliver, ask, lift, modify, bind, gets, ret, grows, begun. cbn. done.
Qed.
#[local] Hint Resolve silent_grows grows_deliver : evolve.
Lemma grows_flush frames : evolves grows (flush_deferred (deliver env) frames).
Proof. induction frames as [|frame rest IH]; cbn [flush_deferred]; evolve. Qed.
Lemma grows_started : evolves grows (publish_started_and_flush env (deliver env)).
Proof.
  unfold publish_started_and_flush, publish_stream_started. pose proof grows_flush. evolve.
  intros [s o] H'. exact H'.
Qed.
Lemma begun_started w : begun (wd_outside w) → started_ok w.
Proof. by intros H _. Qed.
Lemma device_begins w :
  match device env StartOp w with (Ok _, o) => begun o | _ => True end.
Proof.
  unfold device, ask, bind, gets, modify, ret, lift. cbn. destruct (ev_device env (os_calls w)); [|done].
  unfold begun. cbn. apply elem_of_app. right. left.
Qed.
Lemma started_client : evolves (preserved started_ok) (start_client env (deliver env)).
Proof.
  intros [s o] Hw. unfold start_client. unfold bind at 1. unfold self at 1, gets at 1. cbn [wd_stream].
  pose proof (silent_started _ (silent_out _ (quiet_submit (nd_permit s) _ (quiet_device StartOp))) (mk_world s o) Hw) as Hs.
  assert (Hb : match out (submit_under env (nd_permit s) (device env StartOp)) (mk_world s o) with
    | (Ok _, w) => begun (wd_outside w) | _ => True end).
  { unfold out, zoom, submit_under, bind. cbn [wd_outside].
    destruct (with_permit env _ _ o) as [[[]|e] o']; [|done]. pose proof (device_begins o') as Hd.
    by destruct (device env StartOp o') as [[]]. }
  unfold bind. destruct (out _ _) as [[[]|e] w']; [|exact Hs]. cbn [snd] in Hs.
  apply begun_started. by apply grows_started.
Qed.
Lemma started_frame frame : evolves (preserved started_ok) (publish_or_defer_frame (deliver env) frame).
Proof.
  intros [s o] Hw. unfold publish_or_defer_frame, bind, self, gets. cbn [wd_stream].
  destruct (nd_started s) eqn:Hs.
  - apply begun_started, grows_deliver, Hw. by left.
  - revert Hw. apply (silent_started (stream _)). by intros [].
Qed.
#[local] Hint Resolve started_client started_frame silent_started : evolve.
Lemma started_write buffer frames timed_out reference physical :
  evolves (preserved started_ok) (publish_write env (deliver env) buffer frames timed_out reference physical).
Proof.
  unfold publish_write, qpc_now_100ns. evolve.
  apply silent_started. intros [s o]. unfold stream, modify, count_submitted. cbn. by destruct (negb _).
Qed.
#[local] Hint Resolve started_write : evolve.
Lemma started_poll_client buffer padding :
  evolves (preserved started_ok) (poll_client env (deliver env) buffer padding).
Proof. unfold poll_client, write_block. evolve. Qed.
#[local] Hint Resolve started_poll_client : evolve.
Lemma started_step : evolves (preserved started_ok) (poll_step env (deliver env)).
Proof. unfold poll_step. evolve. Qed.
#[local] Hint Resolve started_step : evolve.
Lemma started_poll : evolves (preserved started_ok) (poll env (deliver env)).
Proof.
  unfold poll. apply evolves_bind; [typeclasses eauto|evolve|]. intros a.
  generalize (st_index (nd_stage a)) as before. generalize 2%nat as n.
  induction n as [|n IH]; intros before; cbn [poll_blocks]; evolve.
Qed.
Lemma started_push samples rate : evolves (preserved started_ok) (push_pcm env samples rate).
Proof. unfold push_pcm. evolve. Qed.
Lemma started_end : evolves (preserved started_ok) (end_stream (deliver env)).
Proof. unfold end_stream. evolve. Qed.
Lemma started_wait timeout : evolves (preserved started_ok) (wait_for_device env timeout).
Proof. unfold wait_for_device. evolve. Qed.
Lemma started_configure ms : evolves (preserved started_ok) (configure_local_aec_speech_simulation env (deliver env) ms).
Proof. unfold configure_local_aec_speech_simulation. evolve. Qed.

(** ** A whole use *)
Definition use_started (u : Use) : Prop := started_ok (us_world u).
Lemma started_zoom {A} (m : M World A) :
  evolves (preserved started_ok) m → evolves (preserved use_started) (zoom us_world m).
Proof. intros H [w acc rs] Hu. specialize (H w Hu). unfold zoom. cbn. by destruct (m w). Qed.
#[local] Hint Resolve started_zoom started_poll started_push started_end started_wait started_configure : evolve.
Lemma started_call call : evolves (preserved use_started) (run_call env call).
Proof. destruct call; cbn [run_call]; evolve; intros u Hu; exact Hu. Qed.
#[local] Hint Resolve started_call : evolve.
Lemma started_use calls : evolves (preserved use_started) (use_stream env calls).
Proof. induction calls as [|call calls IH]; cbn [use_stream]; evolve. Qed.
Lemma started_close failed u : use_started u → use_started (close_use env failed u).2.
Proof.
  intros Hu. unfold close_use, use_started. cbn.
  set (w := if failed then _ else _). assert (Hw : started_ok w).
  { unfold w. destruct failed; [|exact Hu].
    exact (silent_started _ (silent_abort _ quiet_deliver CleanupExplicit) _ Hu). }
  unfold drop_stream. destruct (nd_terminal (wd_stream w)); [exact Hw|].
  refine (silent_started _ (silent_abort discard _ DropFallback) _ Hw). intros e _. apply evolves_ret, _.
Qed.
Lemma started_open cue process_id session_id first s o :
  open env cue process_id session_id first initial_outside = (Ok s, o) → started_ok (mk_world s o).
Proof.
  intros Ho. pose (P := λ o, echo_frames o = []).
  assert (triple P (open env cue process_id session_id first) (λ s o, started_ok (mk_world s o)) (λ _, True)) as Ht.
  { assert (∀ A B (m : M Outside A) (k : A → M Outside B) Q, evolves no_echo m →
      (∀ a, triple P (k a) Q (λ _, True)) → triple P (bind m k) Q (λ _, True)) as Hstep.
    { intros A B m k Q Hm Hk. eapply triple_bind; [|intros a; apply Hk].
      apply (triple_evolves _ no_echo); [done| |done]. intros x y [_ Hxy] Hx. unfold P in *. congruence. }
    unfold open. apply Hstep; [evolve|]. intros ownership. apply Hstep; [evolve|]. intros permit.
    apply Hstep; [evolve|]. intros [scheduling|[receipt detail]].
    2:{ apply Hstep; [evolve|]. intros published. by apply triple_fail. }
    apply Hstep.
    { apply evolves_attempted. unfold initialize, open_endpoint. evolve. }
    intros [[endpoint scenario]|[error|]]; [|apply Hstep|].
    2:{ unfold finish_failed_stream_initialization. evolve. }
    2:{ intros e. by apply triple_fail. }
    2:{ by intros x. }
    set (s0 := new_stream _ _ _ _ _ _ _ _).
    eapply (triple_bind _ _ _ _ (λ a o, started_ok (mk_world a.2 o))).
    - intros x Hx. assert (evolves silent_step (announce env)) as Ha by (unfold announce; evolve).
      destruct (Ha (mk_world s0 x)) as [[_ He] Hs]. unfold with_stream.
      destruct (announce env (mk_world s0 x)) as [[[]|[]] [s1 x1]]; cbn in *; try done;
        intros [H|H]; cbn in H; congruence.
    - intros [[[]|[error|message]] s1]; cbn; [by apply triple_ret| |by intros x].
      eapply (triple_bind _ _ _ _ (λ _ _, True)); [|intros; by apply triple_fail].
      intros x _. by destruct (with_stream _ _ x) as [[]]. }
  specialize (Ht initial_outside). rewrite Ho in Ht. by apply Ht.
Qed.
End Start.
