(* ===== verification/NativeStreamTheorems.v ===== *)
(** * What a desktop stream plays

    Whatever the client, the owner of the speaker, the clocks and the callback
    answer: the reference published with the writes is the response's PCM from
    its first frame on, and a receipt means that all of it was written once. *)
From Stdlib Require Import Floats.SpecFloat.
From S2P Require Import Prelude RustStr PlaybackOwnership RenderSubmit DesktopTimeline Mmcss SpeakerPcm SpeakerPcmTheorems AecLiveScenario NativeStream NativeStreamFacts NativeStreamStart.

Section Stream.
Context (env : Env).

(** ** Closing *)
Definition outside_same (w w' : World) : Prop := same_out (wd_outside w) (wd_outside w').
#[local] Instance outside_same_preorder : PreOrder outside_same.
Proof. split; unfold outside_same; [done|]. intros x y z. apply transitivity. Qed.
Lemma outside_out {A} (m : M Outside A) : evolves same_out m → evolves outside_same (out m).
Proof. intros H [s o]. specialize (H o). unfold out, zoom. cbn. by destruct (m o). Qed.
Lemma outside_stream f : evolves outside_same (stream f).
Proof. by intros []. Qed.
#[local] Hint Resolve outside_out outside_stream : evolve.
Section Abort.
Context (events : DesktopStreamingEvent → M Outside unit).
Hypothesis events_same : ∀ e, quiet_event e = true → evolves same_out (events e).
#[local] Hint Resolve events_same : evolve.
Lemma finish_outside path : evolves outside_same (finish_with_path env events false path).
Proof. unfold finish_with_path, finish_scheduling, release_reservation, on_error, emit. evolve. Qed.
#[local] Hint Resolve finish_outside : evolve.
Lemma abort_outside path : evolves outside_same (abort_with_path env events path).
Proof. unfold abort_with_path, abort_device, on_error. evolve. Qed.
End Abort.
Lemma weak_outside accepted w w' : outside_same w w' → weak accepted w → weak accepted w'.
Proof.
  destruct w as [s o], w' as [s' o']. intros (H1 & H2 & H3 & H4). unfold weak. cbn in *.
  intros [W1 W2 W3 W4 W5 W6]. cbn in *. split; cbn; by rewrite <-?H1, <-?H2, <-?H3, <-?H4.
Qed.
Lemma close_outside failed u : outside_same (us_world u) (us_world (close_use env failed u).2).
Proof.
  unfold close_use. cbn [snd]. destruct u as [w acc rs]. cbn.
  etransitivity; [|unfold drop_stream].
  - instantiate (1 := if failed then (abort env (deliver env) w).2 else w). destruct failed; [|done].
    apply abort_outside. intros e. apply same_deliver.
  - generalize (if failed then (abort env (deliver env) w).2 else w). intros w'.
    destruct (nd_terminal (wd_stream w')); [done|]. apply abort_outside.
    intros e _. apply evolves_ret, _.
Qed.

(** ** A whole use *)
(** Opening writes and plays nothing. *)
Lemma open_rule cue process_id session_id first s o :
  open env cue process_id session_id first initial_outside = (Ok s, o) → at_ [] idle (mk_world s o).
Proof.
  intros Ho. pose (P := same_out initial_outside).
  assert (triple P (open env cue process_id session_id first) (λ s o, at_ [] idle (mk_world s o)) (λ _, True)) as Ht.
  { assert (∀ A B (m : M Outside A) (k : A → M Outside B) Q, evolves same_out m →
      (∀ a, triple P (k a) Q (λ _, True)) → triple P (bind m k) Q (λ _, True)) as Hstep.
    { intros A B m k Q Hm Hk. eapply triple_bind; [|intros a; apply Hk].
      apply (triple_evolves _ same_out); [done| |done]. intros x y Hxy Hx. unfold P in *. by etransitivity. }
    unfold open. apply Hstep; [evolve|]. intros ownership. apply Hstep; [evolve|]. intros permit.
    apply Hstep; [evolve|]. intros [scheduling|[receipt detail]].
    2:{ apply Hstep; [evolve|]. intros published. by apply triple_fail. }
    apply Hstep.
    { apply evolves_attempted. unfold initialize, open_endpoint. evolve. }
    intros [[endpoint scenario]|[error|]]; [|apply Hstep|].
    2:{ unfold finish_failed_stream_initialization. evolve. }
    2:{ intros e. by apply triple_fail. }
    2:{ by intros x. }
    set (s0 := new_stream _ _ _ _ _ _ _ _).
    eapply (triple_bind _ _ _ _ (λ a o, match a.1 with Ok tt => at_ [] idle (mk_world a.2 o) | _ => True end)).
    - intros x Hx. assert (at_ [] idle (mk_world s0 x)) as H0.
      { destruct Hx as (H1 & H2 & H3 & H4). unfold at_. cbn. rewrite <-H1, <-H2, <-H3, <-H4.
        split; try done; by intros []. }
      assert (evolves same (announce env)) as Ha by (unfold announce; evolve).
      specialize (Ha (mk_world s0 x)). unfold with_stream, at_ in *. unfold same in Ha.
      destruct (announce env (mk_world s0 x)) as [[[]|[]] [s1 x1]]; cbn in *; [|done|done].
      by rewrite <-Ha.
    - intros [[[]|[error|message]] s1]; cbn; [by apply triple_ret| |by intros x].
      eapply (triple_bind _ _ _ _ (λ _ _, True)); [|intros; by apply triple_fail].
      intros x _. by destruct (with_stream _ _ x) as [[]]. }
  specialize (Ht initial_outside). rewrite Ho in Ht. apply Ht. unfold P. reflexivity.
Qed.

Definition over (accepted : list Z) (w : World) : Prop := played accepted (view_of w) ∧ closed (view_of w).
Definition receipt_of (accepted : list Z) (r : SpeakerPlaybackReceipt) : Prop :=
  rc_rendered_frames r = 2 * Z.of_nat (length accepted).
Definition use_ok (u : Use) : Prop :=
  (at_ (us_accepted u) idle (us_world u) ∧ us_receipts u = [])
  ∨ (over (us_accepted u) (us_world u)
     ∧ ∃ r, us_receipts u = [r] ∧ receipt_of (us_accepted u) r).
Definition use_weak (u : Use) : Prop :=
  weak (us_accepted u) (us_world u)
  ∧ (us_receipts u = []
     ∨ ∃ r, us_receipts u = [r] ∧ receipt_of (us_accepted u) r
            ∧ finished (us_accepted u) (view_of (us_world u))).
Lemma use_ok_weak u : use_ok u → use_weak u.
Proof.
  intros [[H Hr]|[[H _] (r & Hr & Hn)]]; unfold use_weak; rewrite Hr.
  - split; [by eapply holds_weak|by left].
  - split; [by apply played_weak|]. right. exists r. split_and!; [done|done|]. apply H.
Qed.

(** After the receipt every call is refused. *)
Section Over.
Context (accepted : list Z).
Definition refused {A} (m : M World A) : Prop :=
  triple (over accepted) m (λ _ _, False) (over accepted).
Lemma refused_then {A B} (m : M World A) (k : A → M World B) :
  evolves same m → (∀ a, refused (k a)) → refused (bind m k).
Proof.
  intros Hm Hk. eapply triple_bind; [|intros a; apply Hk].
  apply (triple_evolves _ same); [done| |done]. intros w w' Hs. unfold over. by rewrite Hs.
Qed.
Lemma refused_fail {A} msg : refused (fail (A:=A) msg).
Proof. by apply triple_fail. Qed.
Lemma refused_self {A} (k : NativeDesktopStream → M World A) :
  (∀ s, nd_terminal s = true → refused (k s)) → refused (bind self k).
Proof. intros Hk [s o] Hw. apply Hk; [|done]. apply Hw. Qed.
Lemma refused_push samples rate : refused (push_pcm env samples rate).
Proof.
  apply refused_self. intros s ->. apply refused_then; [evolve|]. intros _.
  destruct (negb _); apply refused_fail.
Qed.
Lemma refused_end : refused (end_stream (deliver env)).
Proof.
  unfold end_stream. intros [s o] Hw. pose proof (queue_view finish_pcm s o) as Hq.
  assert (pq_ended (nd_queue s) = true) as He by apply Hw.
  unfold finish_pcm in Hq at 1. rewrite bind_gets in Hq. unfold id in Hq. rewrite He in Hq. cbn in Hq.
  unfold bind. rewrite Hq. by destruct s.
Qed.
Lemma refused_poll : refused (poll env (deliver env)).
Proof.
  unfold poll. apply refused_self. intros s0 _. cbn [poll_blocks].
  apply refused_then; [apply evolves_gets, _|]. intros n.
  eapply (triple_bind _ _ _ _ (λ _ _, False)); [|by intros r w []].
  apply refused_self. intros s ->. apply refused_fail.
Qed.
Lemma refused_wait timeout : refused (wait_for_device env timeout).
Proof. apply refused_self. intros s ->. apply refused_then; [evolve|]. intros _. apply refused_fail. Qed.
Lemma refused_configure ms : refused (configure_local_aec_speech_simulation env (deliver env) ms).
Proof. apply refused_self. intros s ->. rewrite orb_true_r. apply refused_fail. Qed.
End Over.

Lemma zoom_rule {A} (m : M World A) P Q E u : triple P m Q E → P (us_world u) →
  let '(r, u') := zoom us_world m u in
  us_accepted u' = us_accepted u ∧ us_receipts u' = us_receipts u
  ∧ match r with Ok a => Q a (us_world u') | Err _ => E (us_world u') end.
Proof.
  intros Hm HP. specialize (Hm _ HP). unfold zoom. destruct u as [w acc rs]. cbn in *.
  by destruct (m w) as [[a|e] w'].
Qed.
Lemma over_refused {A} (m : M World A) u : refused (us_accepted u) m → use_ok u → over (us_accepted u) (us_world u) →
  let '(r, u') := zoom us_world m u in is_ok r = false ∧ use_ok u'.
Proof.
  intros Hm Hu Ho. pose proof (zoom_rule m _ _ _ u Hm Ho) as Hz.
  destruct (zoom us_world m u) as [[a|e] u']; destruct Hz as (Ha & Hr & H); [done|]. split; [done|].
  right. unfold use_ok in Hu. rewrite Ha, Hr. split; [done|].
  destruct Hu as [[Hat _]|[_ Hu]]; [|done]. exfalso.
  destruct Hat as [_ _ _ _ _ _ _ _ _ (_ & Ht & _)], Ho as [_ [Ht' _]]. congruence.
Qed.

(** A call whose result is dropped. *)
Lemma simple_call {A} (m : M World A) u :
  (∀ acc, triple (at_ acc idle) m (λ _, at_ acc idle) (weak acc)) → (∀ acc, refused acc m) → use_ok u →
  let '(r, u') := zoom us_world m u in match r with Ok _ => use_ok u' | Err _ => use_weak u' end.
Proof.
  intros Hm Hr [[Hat Hrs]|[Hov Hrs]].
  - pose proof (zoom_rule m _ _ _ u (Hm _) Hat) as Hz. destruct (zoom us_world m u) as [[a|e] u'];
      destruct Hz as (Ha & Hb & H); rewrite <-Ha in H.
    + left. by rewrite Hb.
    + split; [done|]. left. by rewrite Hb.
  - pose proof (over_refused m u (Hr _) (or_intror (conj Hov Hrs)) Hov) as Hz.
    destruct (zoom us_world m u) as [[a|e] u']; destruct Hz as [? Hu]; [done|by apply use_ok_weak].
Qed.
Lemma call_rule call : triple use_ok (run_call env call) (λ _, use_ok) use_weak.
Proof.
  intros u Hu. destruct call as [samples rate| | |timeout|ms]; cbn [run_call].
  - destruct Hu as [[Hat Hrs]|[Hov Hrs]].
    + pose proof (zoom_rule _ _ _ _ u (push_pcm_rule env _ samples rate) Hat) as Hz. unfold bind.
      destruct (zoom us_world _ u) as [[[]|e] [w acc rs]]; destruct Hz as (Ha & Hb & H); cbn in *; subst.
      * by left.
      * split; [done|by left].
    + pose proof (over_refused _ u (refused_push _ samples rate) (or_intror (conj Hov Hrs)) Hov) as Hz.
      unfold bind. destruct (zoom us_world _ u) as [[[]|e] u']; destruct Hz as [? Hu]; [done|by apply use_ok_weak].
  - pose proof (simple_call _ u (end_rule env) refused_end Hu) as H.
    by destruct (zoom us_world _ u) as [[[]|e] u'].
  - destruct Hu as [[Hat Hrs]|[Hov Hrs]].
    + pose proof (zoom_rule _ _ _ _ u (poll_rule env _) Hat) as Hz. unfold bind.
      destruct (zoom us_world _ u) as [[[receipt|]|e] [w acc rs]]; destruct Hz as (Ha & Hb & H); cbn in *; subst.
      * right. destruct H as (H1 & H2 & H3). split; [by split|]. rewrite Hrs. by exists receipt.
      * by left.
      * split; [done|by left].
    + pose proof (over_refused _ u (refused_poll _) (or_intror (conj Hov Hrs)) Hov) as Hz.
      unfold bind. destruct (zoom us_world _ u) as [[r|e] u']; destruct Hz as [? Hu]; [done|by apply use_ok_weak].
  - unfold bind. pose proof (simple_call (wait_for_device env timeout) u) as H.
    specialize (H ltac:(intros; apply keep, evolves_play, same_wait) (λ acc, refused_wait acc timeout) Hu).
    by destruct (zoom us_world _ u) as [[r|e] u'].
  - pose proof (simple_call (configure_local_aec_speech_simulation env (deliver env) ms) u) as H.
    specialize (H ltac:(intros; apply keep, same_configure) (λ acc, refused_configure acc ms) Hu).
    by destruct (zoom us_world _ u) as [[[]|e] u'].
Qed.
Lemma use_rule calls : triple use_ok (use_stream env calls) (λ _, use_ok) use_weak.
Proof.
  induction calls as [|call calls IH]; cbn [use_stream]; [by apply triple_ret|].
  eapply triple_bind; [apply call_rule|]. intros []. exact IH.
Qed.

(** C38: Whatever the client, the owner of the speaker, the clocks and the callback
    answer, and whatever its owner calls until the first error and then closes the
    stream: the reference the taps carry is the accepted response's PCM from its
    first frame on, without a gap or a repetition; every tap is one successful
    write, faithful to its reference and placed by its frame numbers; the echo
    canceller was given the same reference, in order, and nothing unless the client
    accepted a start. There is at most one receipt; it counts the accepted frames, and
    then, as whenever the stream was reported completed, the whole response was written
    and published, and nothing else. *)
Theorem stream_plays_the_response_once cue process_id session_id first calls s o :
  open env cue process_id session_id first initial_outside = (Ok s, o) →
  let '(result, u) := use_stream env calls (mk_use (mk_world s o) [] []) in
  let out := wd_outside (us_world (close_use env (negb (is_ok result)) u).2) in
  let reference := reference_pcm (taps out) in
  Forall is_i16 (us_accepted u) → Z.of_nat (length (us_accepted u)) ≤ 2 ^ 23 →
  ∃ pcm, speaker_pcm_48k_stereo (us_accepted u) 24000 1 100 = Ok pcm
  ∧ reference `prefix_of` pcm ∧ physical_pcm (taps out) `prefix_of` written out
  ∧ echo_pcm (echo_frames out) `prefix_of` reference
  ∧ (echo_frames out ≠ [] → (StartOp, true) ∈ os_device out)
  ∧ Forall faithful (taps out) ∧ placed (taps out)
  ∧ (us_receipts u = [] ∨ ∃ r, us_receipts u = [r] ∧ rc_rendered_frames r = 2 * Z.of_nat (length (us_accepted u)))
  ∧ (us_receipts u ≠ [] ∨ completed out = true →
     reference = pcm ∧ written out = physical_pcm (taps out) ∧ echo_pcm (echo_frames out) = pcm).
Proof.
  intros Ho. pose proof (use_rule calls (mk_use (mk_world s o) [] [])
    (or_introl (conj (open_rule _ _ _ _ _ _ Ho) eq_refl))) as Hu.
  pose proof (started_use env calls (mk_use (mk_world s o) [] []) (started_open _ _ _ _ _ _ _ Ho)) as Hst.
  destruct (use_stream env calls _) as [result u]. cbn [snd] in Hst.
  apply (started_close env (negb (is_ok result))) in Hst. unfold use_started, started_ok in Hst.
  assert (use_weak u) as [Hw Hr] by (destruct result as [[]|]; [by apply use_ok_weak|done]).
  clear Hu. cbv zeta. intros Hi Hb. exists (whole (us_accepted u)). split; [by apply whole_cue|].
  pose proof (close_outside (negb (is_ok result)) u) as Hc.
  pose proof (weak_outside _ _ _ Hc Hw) as Hw'. destruct Hc as (C1 & C2 & C3 & C4).
  destruct (us_world (close_use _ _ u).2) as [s' o']. destruct Hw' as [W1 W2 W3 W4 W5 W6].
  cbn [view_of v_taps v_written v_echo v_completed wd_outside wd_stream] in *.
  split_and!; try done.
  - intros He. apply Hst. by right.
  - destruct Hr as [->|(r & -> & Hn & _)]; [by left|right]. by exists r.
  - intros [Hn|Hn].
    + destruct Hr as [Hr|(r & _ & _ & Hf)]; [done|]. destruct (us_world u) as [s2 o2].
      destruct Hf as (F1 & F2 & F3). cbn in F1, F2, F3, C1, C2, C4.
      rewrite <-C1, <-C2, <-C4. split_and!; [done|done|]. by rewrite F3.
    + destruct (W6 Hn) as (F1 & F2 & F3). split_and!; [done|done|]. cbn in F1, F3. by rewrite F3.
Qed.
End Stream.

(** ** An instance *)
(** A client that plays at once, on a speaker nobody else asks for. *)
Definition sample_env : Env :=
  mk_env (λ k, if k is O then ownership_default
               else mk_ownership Desktop 1 2 {[ 1 := mk_playback 1 "cue-1" "native-omni-stream" false [] ]} [])
    (λ _, Ok ("speakers", 960)) (λ _, Ok tt) (λ _ _, Ok 0) (λ _ _, Ok EventSignaled) (λ _, Ok tt)
    (λ _, 0) (λ _, None) (λ _, 0) (λ _, None)
    (mk_avrt (λ _, Ok 7) (λ _, Ok (Some (42, 1))) (λ _, Ok true) (λ _, Ok 0)) false None false.
Definition sample_calls : list stream_call :=
  [CallPushPcm [100; -200] 24000; CallPoll; CallPushPcm [300] 24000; CallEndStream; CallPoll; CallPoll].
Definition is_run (s : NativeDesktopStream) (o : Outside) (result : outcome unit) (u : Use) : Prop :=
  open sample_env "cue-1" 4 1 0 initial_outside = (Ok s, o)
  ∧ use_stream sample_env sample_calls (mk_use (mk_world s o) [] []) = (result, u).
Lemma sample_use : ∃ s o u, is_run s o (Ok tt) u ∧ us_accepted u = [100; -200; 300]
  ∧ us_receipts u = [mk_receipt 6 48000 2 "speakers" "desktop-process-4" 1].
Proof.
  eexists _, _, _. split; [split|].
  - vm_compute. reflexivity.
  - vm_compute. reflexivity.
  - by split.
Qed.
Lemma stream_plays_the_response_once_witness :
  ∃ s o u, is_run s o (Ok tt) u
    ∧ let out := wd_outside (us_world (close_use sample_env false u).2) in
      speaker_pcm_48k_stereo [100; -200; 300] 24000 1 100 = Ok (reference_pcm (taps out))
      ∧ written out = physical_pcm (taps out).
Proof.
  destruct sample_use as (s & o & u & Hrun & Ha & Hr). exists s, o, u. split; [done|].
  destruct Hrun as [Ho Hu].
  pose proof (stream_plays_the_response_once sample_env "cue-1" 4 1 0 sample_calls s o Ho) as H.
  rewrite Hu in H. cbn [is_ok negb] in H. cbv zeta in H. rewrite Ha, Hr in H.
  destruct H as (pcm & Hp & _ & _ & _ & _ & _ & _ & _ & Hf).
  - repeat constructor; discriminate.
  - by vm_compute.
  - destruct Hf as (Hf1 & Hf2 & _); [by left|]. cbv zeta. by rewrite Hf1.
Defined.
